(* ===== verification/_CoqProject ===== *)
-Q . S2P
Prelude.v
Bytes.v
Text.v
BTree.v
Float64.v
Decimal.v
Value.v
KeyCodec.v
Cursor.v
Codec.v
Scan.v
Rbac.v
Rng.v
Balancer.v
Discovery.v
BalancerSteps.v
Message.v
Frame.v
Handshake.v
Crypto.v
Entropy.v
Scram.v
Sql.v
Effect.v
Tls.v
Login.v
Transport.v
TlsConfig.v
Sockets.v
Gssapi.v
Session.v
SessionSpec.v
SessionCalls.v
RowStream.v
FactoryPool.v
Ternary.v
Slog.v
ServerLog.v
Disk.v
IntFloat.v
Bench.v
Json.v
PoolConns.v
PoolSteps.v
PoolUses.v
ReadWrites.v
Abi.v
AbiHeap.v
AbiValue.v
AbiCopy.v
AbiResult.v
AbiClient.v
AbiStream.v
AbiPool.v
AbiMembers.v
AbiBooks.v
AbiErrors.v
AbiPoolCalls.v
AbiCalls.v
