(* ===== verification/Prelude.v ===== *)
(** * The skaidb driver and its libraries

    A model of the Rust driver for the skaidb database ([src/lib.rs]), of the
    crates it is built on (values and their encodings, the wire protocol,
    authentication, roles) and of the C library around it, with the theorems
    that make them correct.

    ** Parts and how they interact

    A program opens a client or a pool.  A client dials the nearest of its
    endpoints, logs in (SCRAM, Kerberos or a certificate, bound to the TLS
    channel), greets the server and replays its settings; its statements are
    frames of encoded messages, answered in order or, in a batch, by id.  After
    a transport error it re-dials and tries once more.  A balanced pool hands
    out clients, is told by each what its member did, and ejects, probes and
    discovers members on a background thread.  The C library keeps clients,
    statements, results, streams and pools behind pointers of C programs.

    Data ([crates/skaidb-types]):
    - [Value], [Decimal], [Float64], [IntFloat]: the dynamically typed values,
      exact decimals, doubles as their 64 bits, and integers against doubles;
    - [KeyCodec]: [value.rs]'s order-preserving and exact keys;
    - [Codec], [Scan]: [codec.rs]'s lossless encoding, its decoder, and the
      readers that walk an encoded row without decoding it;
    - [Json], [Ternary], [Slog], [ServerLog], [Disk]: [json.rs], [ternary.rs],
      [slog.rs], [dir_size.rs] and [diskfull.rs].

    Protocol and authentication ([crates/skaidb-proto], [skaidb-auth],
    [skaidb-net]):
    - [Message], [Frame], [Handshake]: requests and responses, frames over
      writers that fall short or fail, and the login frames;
    - [Crypto], [Entropy], [Scram], [Rbac]: SHA-256 to PBKDF2, executable; the
      process's random bytes; stored credentials; the role graph;
    - [Transport], [TlsConfig], [Sockets], [Tls]: frames over calls of [read]
      and [write], plain, TLS and buffered streams; PEM files, both sides'
      settings and the TLS handshake; a stream's socket, its options and a
      prober's second handle on it; the channel binding of a certificate;
    - [Gssapi]: Kerberos contexts, a step at a time.

    The driver ([src/lib.rs]):
    - [Sql]: the statements it reads (is this a write?) and composes;
    - [Login]: endpoints by latency, the cached key, the three exchanges, the
      dial;
    - [Session]: [Client]: its state is a [Session] (the client, the pool it
      reports to, the world it dials into, the clock), a method a function of
      it; [SessionSpec] and [SessionCalls] are about it;
    - [RowStream]: streamed results, which borrow the client;
    - [FactoryPool]: [Pool::new];
    - [Rng], [Balancer], [Discovery], [BalancerSteps]: the balanced pool under
      its lock: each method a function of [BalancerState], and every
      interleaving of their critical sections as a step relation;
    - [PoolConns], [PoolSteps], [PoolUses]: the same pool with its
      connections: checkout, checkin, probe, refresh and close around the
      dials and statements of [Session];
    - [ReadWrites]: where reads go after a write, through all of it.

    The C library ([crates/skaidb-ffi]): [Abi] is the memory shared with C, a
    store of blocks and pointers into them, where a bad pointer is an outcome
    of its own; [AbiValue], [AbiResult], [AbiClient], [AbiStream] and [AbiPool]
    are the exported functions, the last over every balanced pool of the
    process; [AbiHeap], [AbiCopy], [AbiMembers], [AbiBooks], [AbiErrors],
    [AbiPoolCalls] and [AbiCalls] are about them.

    The load generator ([examples/bench.rs]): [Bench], over [Session].

    Shared: [Bytes], [Text] and [BTree] (Rust's byte strings, strings and
    ordered maps), [Cursor] (readers of bytes, and what is proved of each),
    [Effect] (stateful calls that can fail), and this file.

    The driver's layers meet at interfaces.  A session is written against the
    class [Session.Pool], whose laws [Session.PoolLaws] are all that its
    theorems use; a balanced pool is an instance, and all those of a process
    ([AbiPool]) another.  [Cursor.reads_back] and
    [Cursor.parses] are what a decoder promises its callers.
    [Transport.TransportLaws] is what a reader and writer promises to framing:
    a socket, a stream and a buffered connection are instances.
    [Json.SerdeJson], [Float64.Powi] and [AbiResult.ResponseDebug] stand for
    code outside these sources.

    ** How the code is read

    A call that can fail is a [res]: [Ok], [Err], [Panic] (an index out of
    range, an overflow where Rust checks it, a slice inside a character), or
    [OutOfFuel].  A method that changes its object is an [Effect.eff]: a
    function of the state to a result and the state it leaves, failed or not.
    Integers are [Z] with their width's wrap-around, saturation or check
    written out where the code has it; [u8]s are [byte]s; strings are their
    UTF-8 bytes.  A [BTreeMap] is a list in key order, a [HashMap] a [gmap], a
    clock a list of the instants it will give.  A connection is the bytes its
    peer will send and what each write does to the bytes given it; a world is
    a list of what the next dials meet, so a theorem over all worlds is one
    over all servers.

    Fuel is used where Rust recurses or loops without a structure to follow,
    and is computed from the input, never a parameter of a theorem: a decoder
    gets the depth its bytes allow, a graph walk the roles not visited yet, a
    row stream the bytes not read yet.  That it is enough is part of what is
    proved: the theorems say the call returns ([returns]), not only what it
    returns if it does.

    ** What is proved

    - Values and keys: a byte comparison of two keys is the order of the
      values ([KeyCodec.total_cmp_value_order]); encoding loses nothing and
      decoding any bytes is safe ([Codec.decode_encode], [Codec.decode_safe]);
      a row read in part gives what the full decode gives
      ([Scan.scan_group_row_key] and the others of [Scan]); comparing an
      integer and a double is exact ([IntFloat.cmp_i64_f64_exact]).
    - The wire: messages and frames read back as they were sent
      ([Message.request_roundtrip], [Message.response_roundtrip],
      [Frame.frames_roundtrip], [Frame.write_frame_exact]), up to a bound the
      encoder does not check ([Message.parameters_counted_in_16_bits]).  A frame
      sent or received in pieces, over any transport that keeps its laws, is
      one of [Login]'s connection ([Transport.transports_carry_frames]).
    - Authentication and roles: what a SCRAM verifier accepts, that a login
      that succeeds was granted by a server that knows the password's keys
      ([Login.login_authenticates_server]), that random bytes fill what is asked
      and a stand-in for them is flagged ([Entropy.random_bytes_fill]), and that
      the role checks are reachability ([Rbac.has_privilege_reachable]).
    - A session: every call of it comes back ([SessionCalls.calls_return]); a
      statement is sent at most twice, and once on the connection that
      answered ([SessionSpec.statement_sent_at_most_twice]); a batch's answers
      are matched by id; settings follow what the server accepted; the pool
      knows the member a connection is on ([Session.session_tracks_member]).
    - The balanced pool: in every interleaving its counts, idle set and
      closed flag agree with the connections that exist
      ([BalancerSteps.pool_keeps_its_books]); it never ejects its last usable
      member; what discovery leaves; fairness; that a successful write leads the
      checkouts under its key to the member it went to, whatever comes between
      ([ReadWrites.writes_are_read_back]).  The pool
      with its connections refines that relation, and no call of it panics
      ([PoolSteps.pool_uses_are_steps]), from which follow what a closed pool
      does, when its background thread ends, and the one way a checkout fails
      ([PoolUses]).  A plain pool never has one connection in two places
      ([FactoryPool.factory_pool_sound]).
    - The C library: a program that copies any value through the exported
      functions makes an equal value and leaks nothing
      ([AbiCopy.values_cross]); the exported calls that connect, run
      statements and use pools keep the header's promises about statuses,
      messages and the caller's memory ([AbiCalls.calls_report]); a table of
      a pool's members reads what the pool says ([AbiMembers.members_table]).

    Where the code does not do what it says, a theorem shows how
    ([SessionCalls.refused_database_left_live],
    [SessionCalls.pipeline_leaves_answers],
    [SessionCalls.stale_statement_runs_another],
    [SessionCalls.oversized_statement_strikes],
    [RowStream.unreadable_chunk_desyncs], [FactoryPool.closed_pool_keeps],
    [Message.result_sets_read_as_tagged], [KeyCodec.exact_key_collides],
    [Discovery.seed_dropped_for_its_alias], [Login.gssapi_grant_unproven],
    [Frame.interrupted_write_fails], [Transport.prefix_written_alone],
    [ServerLog.stderr_failure_panics], [Scram.credential_parsers_panic],
    [Bench.report_covers_operations], [Bench.unconnected_worker_hangs]).

    ** Not modelled

    - The libraries for TLS, PEM and Kerberos: what they make of their input is
      an argument, what is relied on a hypothesis; a verifier that accepts any
      certificate is one of these arguments.
    - Time, entropy devices and the pool's seed: arguments too.
    - Text the standard library or a derive makes: messages of I/O errors,
      [Debug]; and JSON's text, which is [serde_json]'s.
    - Threads share nothing but what a mutex guards; a lock's critical section
      is one step, at one instant, and no step panics, so no mutex is poisoned.
    - Memory that runs out.  The C library's version string; the other examples
      and the tests. *)
From Stdlib Require Export ZArith Lia.
From Stdlib Require Export Strings.Byte Sorting.Sorted.
From stdpp Require Export base tactics option numbers list.

#[global] Open Scope Z_scope.

Declare Scope rust_scope.
Delimit Scope rust_scope with rust.
#[global] Open Scope rust_scope.

(** ** Rust outcomes

    A Rust call ends with [Ok], with [Err], or panics; [OutOfFuel] is the
    model's own outcome, for a recursion that was given too little fuel. *)
Inductive res (E A : Type) : Type :=
| Ok (a : A)
| Err (e : E)
| Panic
| OutOfFuel.
Arguments Ok {E A} a.
Arguments Err {E A} e.
Arguments Panic {E A}.
Arguments OutOfFuel {E A}.

#[export] Instance res_ret {E} : MRet (res E) := fun A a => Ok a.
#[export] Instance res_bind {E} : MBind (res E) := fun A B k m =>
  match m with
  | Ok a => k a
  | Err e => Err e
  | Panic => Panic
  | OutOfFuel => OutOfFuel
  end.
#[export] Instance res_fmap {E} : FMap (res E) := fun A B f m =>
  match m with
  | Ok a => Ok (f a)
  | Err e => Err e
  | Panic => Panic
  | OutOfFuel => OutOfFuel
  end.

(** [Option::ok_or]. *)
Definition ok_or {E A} (e : E) (o : option A) : res E A :=
  match o with Some a => Ok a | None => Err e end.

(** [Result::map_err]. *)
Definition map_err {E F A} (f : E -> F) (m : res E A) : res F A :=
  match m with
  | Ok a => Ok a
  | Err e => Err (f e)
  | Panic => Panic
  | OutOfFuel => OutOfFuel
  end.

(** The call came back to its caller: neither a panic nor missing fuel. *)
Definition returns {E A} (m : res E A) : Prop :=
  match m with Ok _ | Err _ => True | Panic | OutOfFuel => False end.

Lemma bind_ok {E A B} (m : res E A) (k : A -> res E B) b :
  (m ≫= k) = Ok b <-> exists a, m = Ok a /\ k a = Ok b.
Proof.
  destruct m; cbn; split; try discriminate; try (by intros (? & ? & _)); [by eauto|].
  by intros (? & [= ->] & ?).
Qed.

Lemma returns_bind {E A B} (m : res E A) (k : A -> res E B) :
  returns m -> (forall a, m = Ok a -> returns (k a)) -> returns (m ≫= k).
Proof. destruct m; cbn; auto. Qed.

Lemma returns_map_err {E F A} (f : E -> F) (m : res E A) :
  returns m -> returns (map_err f m).
Proof. by destruct m. Qed.

Lemma Ok_inj {E A} (a b : A) : @Ok E A a = Ok b -> a = b.
Proof. by intros [= ->]. Qed.

Lemma pair_inj {A B} (a c : A) (b d : B) : (a, b) = (c, d) -> a = c /\ b = d.
Proof. by intros [= -> ->]. Qed.

(** Take apart every [Ok] result of a chain of binds in the hypotheses. *)
Ltac inv_ok :=
  repeat match goal with
  | H : _ = Ok _ |- _ => progress cbn beta iota in H
  | H : (_ ≫= _) = Ok _ |- _ =>
      let a := fresh "a" in let Ha := fresh "Ha" in
      apply bind_ok in H as (a & Ha & H)
  | H : mret _ = Ok _ |- _ => change (mret (M:=res _)) with (@Ok) in H
  | H : Ok ?a = Ok ?b |- _ => apply Ok_inj in H
  | H : (_, _) = (_, _) |- _ =>
      let H1 := fresh "E" in let H2 := fresh "E" in
      apply pair_inj in H as [H1 H2]; subst
  | H : Err _ = Ok _ |- _ => discriminate H
  | H : Panic = Ok _ |- _ => discriminate H
  | H : OutOfFuel = Ok _ |- _ => discriminate H
  | H : ok_or _ ?o = Ok _ |- _ => destruct o eqn:?; cbn in H
  | H : (if ?b then _ else _) = Ok _ |- _ => destruct b eqn:?
  | a : (_ * _)%type |- _ => let x := fresh "x" in let y := fresh "y" in destruct a as [x y]
  end; subst; cbn beta iota in *.

(** ** Fixed-width integers *)

(** Reduction to an unsigned [w]-bit integer ([as u64], wrapping arithmetic). *)
Definition wrap (w z : Z) : Z := z mod 2 ^ w.

(** Reduction to a signed two's-complement [w]-bit integer ([as i64]). *)
Definition sint (w z : Z) : Z :=
  let u := z mod 2 ^ w in if u <? 2 ^ (w - 1) then u else u - 2 ^ w.

Definition is_uint (w z : Z) : bool := (0 <=? z) && (z <? 2 ^ w).
Definition is_sint (w z : Z) : bool := (- 2 ^ (w - 1) <=? z) && (z <? 2 ^ (w - 1)).

Lemma is_uint_spec w z : is_uint w z = true <-> 0 <= z < 2 ^ w.
Proof. unfold is_uint. rewrite andb_true_iff. lia. Qed.

Lemma is_sint_spec w z : is_sint w z = true <-> - 2 ^ (w - 1) <= z < 2 ^ (w - 1).
Proof. unfold is_sint. rewrite andb_true_iff. lia. Qed.

Lemma pow2_split w : 0 < w -> 2 ^ w = 2 * 2 ^ (w - 1).
Proof. intros. rewrite <- Z.pow_succ_r by lia. f_equal. lia. Qed.

Lemma sint_range w z : 0 < w -> is_sint w (sint w z) = true.
Proof.
  intros Hw. rewrite is_sint_spec. unfold sint.
  pose proof (pow2_split w Hw). pose proof (Z.pow_pos_nonneg 2 (w - 1)).
  pose proof (Z.mod_pos_bound z (2 ^ w)). destruct (Z.ltb_spec (z mod 2 ^ w) (2 ^ (w - 1))); lia.
Qed.

Lemma sint_mod w z : 0 < w -> is_sint w z = true -> sint w (z mod 2 ^ w) = z.
Proof.
  intros Hw Hz%is_sint_spec. unfold sint.
  pose proof (pow2_split w Hw). pose proof (Z.pow_pos_nonneg 2 (w - 1)).
  rewrite Z.mod_mod by lia.
  destruct (Z.le_gt_cases 0 z).
  - rewrite Z.mod_small by lia. destruct (Z.ltb_spec z (2 ^ (w - 1))); lia.
  - replace (z mod 2 ^ w) with (z + 2 ^ w).
    + destruct (Z.ltb_spec (z + 2 ^ w) (2 ^ (w - 1))); lia.
    + rewrite <- (Z.mod_add z 1) by lia. rewrite Z.mod_small; lia.
Qed.

Lemma mod_sint w z : 0 < w -> sint w z mod 2 ^ w = z mod 2 ^ w.
Proof.
  intros Hw. unfold sint. pose proof (Z.pow_pos_nonneg 2 w).
  destruct (z mod 2 ^ w <? 2 ^ (w - 1)).
  - by rewrite Z.mod_mod by lia.
  - replace (z mod 2 ^ w - 2 ^ w) with (z mod 2 ^ w + (-1) * 2 ^ w) by lia.
    rewrite Z.mod_add by lia. by rewrite Z.mod_mod by lia.
Qed.

(** ** Automation shared by the components *)

Create HintDb skaidb.
#[export] Hint Resolve returns_bind returns_map_err sint_range : skaidb.
#[export] Hint Extern 1 (returns (Ok _)) => exact I : skaidb.
#[export] Hint Extern 1 (returns (Err _)) => exact I : skaidb.
#[export] Hint Extern 2 (_ <= _) => lia : skaidb.
#[export] Hint Extern 2 (_ < _) => lia : skaidb.

(** Close [(a ?= b) = Eq/Lt/Gt] by linear arithmetic. *)
Ltac solve_compare :=
  first [rewrite Z.compare_eq_iff | rewrite Z.compare_lt_iff | rewrite Z.compare_gt_iff]; lia.

(** ** Lists *)

Lemma NoDup_fst_inj {K V} (l : list (K * V)) k v v' :
  NoDup l.*1 -> (k, v) ∈ l -> (k, v') ∈ l -> v = v'.
Proof.
  induction l as [|[k0 v0] l IH]; cbn; [by intros _ ?%elem_of_nil|].
  intros [Hni Hnd]%NoDup_cons. rewrite !elem_of_cons.
  intros [[= <- <-]|H1] [H2|H2].
  - by injection H2.
  - destruct Hni. apply list_elem_of_fmap. by exists (k, v').
  - injection H2 as <- <-. destruct Hni. apply list_elem_of_fmap. by exists (k, v).
  - eauto.
Qed.

(** ** Stable sorting

    [slice::sort_by]: a stable sort by a comparison; insertion from the right
    keeps equal elements in their order. *)
Section sort_by.
Context {A : Type} (cmp : A -> A -> comparison).

Fixpoint sort_insert (x : A) (l : list A) : list A :=
  match l with
  | [] => [x]
  | y :: l' => match cmp x y with Gt => y :: sort_insert x l' | _ => x :: l end
  end.

Definition sort_by (l : list A) : list A := foldr sort_insert [] l.

Lemma sort_insert_Permutation x l : sort_insert x l ≡ₚ x :: l.
Proof.
  induction l as [|y l IH]; cbn; [done|]. destruct (cmp x y); [done..|].
  rewrite IH. apply Permutation_swap.
Qed.

Lemma sort_by_Permutation l : sort_by l ≡ₚ l.
Proof. induction l as [|x l IH]; cbn; [done|]. by rewrite sort_insert_Permutation, IH. Qed.

(** What the sort guarantees of a comparison that is total and transitive. *)
Context (cmp_flip : forall x y, cmp x y = Gt -> cmp y x <> Gt)
  (cmp_trans : forall x y z, cmp x y <> Gt -> cmp y z <> Gt -> cmp x z <> Gt).

Lemma sort_insert_sorted x l :
  StronglySorted (fun a b => cmp a b <> Gt) l -> StronglySorted (fun a b => cmp a b <> Gt) (sort_insert x l).
Proof.
  induction 1 as [|y l Hs IH Hy]; cbn [sort_insert]; [by repeat constructor|].
  destruct (cmp x y) eqn:E; try (constructor; [by constructor|]; constructor; [congruence|];
    eapply Forall_impl; [exact Hy|]; intros z Hz; apply (cmp_trans x y z); [congruence|done]).
  constructor; [done|]. rewrite sort_insert_Permutation. constructor; [by apply cmp_flip|done].
Qed.

Lemma sort_by_sorted l : StronglySorted (fun a b => cmp a b <> Gt) (sort_by l).
Proof. induction l as [|x l IH]; cbn; [constructor|]. by apply sort_insert_sorted. Qed.

End sort_by.

(** Sorting by a boolean key keeps the order of each side. *)
Definition bool_cmp (a b : bool) : comparison :=
  match a, b with false, true => Lt | true, false => Gt | _, _ => Eq end.

Lemma sort_by_key_bool {A} (f : A -> bool) l :
  sort_by (fun a b => bool_cmp (f a) (f b)) l
  = List.filter (fun a => negb (f a)) l ++ List.filter f l.
Proof.
  induction l as [|x l IH]; [done|]. cbn [sort_by foldr List.filter]. fold (sort_by (fun a b => bool_cmp (f a) (f b)) l).
  rewrite IH. clear IH. destruct (f x) eqn:Ex; cbn [negb].
  - assert (H : forall l1, Forall (fun a => f a = false) l1 -> forall l2, Forall (fun a => f a = true) l2 ->
      sort_insert (fun a b => bool_cmp (f a) (f b)) x (l1 ++ l2) = l1 ++ x :: l2).
    { induction 1 as [|y l1 Hy _ IH]; intros l2 H2; cbn [app sort_insert].
      - destruct H2 as [|y l2 Hy _]; [done|]. cbn [sort_insert]. by rewrite Ex, Hy.
      - rewrite Ex, Hy. cbn [bool_cmp]. by rewrite IH. }
    apply H; apply Forall_forall; intros y Hy%list_elem_of_In%filter_In; [by destruct (f y), Hy|by destruct Hy].
  - cbn [app]. generalize (List.filter (fun a => negb (f a)) l ++ List.filter f l). intros [|y l']; [done|].
    cbn [sort_insert]. rewrite Ex. by destruct (f y).
Qed.
