(* ===== verification/Bytes.v ===== *)
(** * Bytes

    Bytes and byte strings: little- and big-endian integers, the byte-wise
    lexicographic order of Rust slices and [String]s, UTF-8 validity, and
    hexadecimal text. *)
From S2P Require Import Prelude.
From stdpp Require Import countable.

#[local] Open Scope Z_scope.

Abbreviation bytes := (list byte).

(** ** One byte *)

Definition u8 (b : byte) : Z := Z.of_N (Byte.to_N b).

(** [z as u8]: the low eight bits. *)
Definition byte_of (z : Z) : byte :=
  match Byte.of_N (Z.to_N (z mod 256)) with Some b => b | None => x00 end.

Lemma u8_range b : 0 <= u8 b < 256.
Proof. unfold u8. pose proof (Byte.to_N_bounded b). lia. Qed.

Lemma u8_byte_of z : u8 (byte_of z) = z mod 256.
Proof.
  unfold u8, byte_of. pose proof (Z.mod_pos_bound z 256 eq_refl).
  destruct (Byte.of_N (Z.to_N (z mod 256))) as [b|] eqn:E.
  - apply Byte.to_of_N in E. lia.
  - apply Byte.of_N_None_iff in E. lia.
Qed.

Lemma byte_of_u8 b : byte_of (u8 b) = b.
Proof.
  unfold byte_of. rewrite Z.mod_small by apply u8_range.
  unfold u8. rewrite N2Z.id. by rewrite Byte.of_to_N.
Qed.

#[export] Instance u8_inj : Inj (=) (=) u8.
Proof. intros a b E. rewrite <- (byte_of_u8 a), <- (byte_of_u8 b). by f_equal. Qed.

#[export] Instance byte_eq_dec : EqDecision byte := Byte.byte_eq_dec.

#[export] Program Instance byte_countable : Countable byte :=
  inj_countable Byte.to_N Byte.of_N _.
Next Obligation. apply Byte.of_to_N. Qed.

Lemma u8_inj_iff a b : u8 a = u8 b <-> a = b.
Proof. split; [apply u8_inj | by intros ->]. Qed.

(** ** Little-endian and big-endian integers *)

(** The [n] low bytes of [z], least significant first ([to_le_bytes]). *)
Fixpoint le_bytes (n : nat) (z : Z) : bytes :=
  match n with
  | O => []
  | S n => byte_of z :: le_bytes n (z / 256)
  end.

(** The unsigned value of a little-endian byte string ([from_le_bytes]). *)
Fixpoint le_val (bs : bytes) : Z :=
  match bs with
  | [] => 0
  | b :: bs => u8 b + 256 * le_val bs
  end.

(** [to_be_bytes] and [from_be_bytes]. *)
Definition be_bytes (n : nat) (z : Z) : bytes := rev (le_bytes n z).
Definition be_val (bs : bytes) : Z := le_val (rev bs).

Lemma le_bytes_length n z : length (le_bytes n z) = n.
Proof. revert z; induction n; intros; cbn; auto. Qed.

Lemma be_bytes_length n z : length (be_bytes n z) = n.
Proof. unfold be_bytes. by rewrite length_rev, le_bytes_length. Qed.

Lemma pow256 n : 256 ^ Z.of_nat (S n) = 256 * 256 ^ Z.of_nat n.
Proof. rewrite Nat2Z.inj_succ, Z.pow_succ_r; lia. Qed.

Lemma pow256_pos n : 0 < 256 ^ Z.of_nat n.
Proof. apply Z.pow_pos_nonneg; lia. Qed.

Lemma le_val_range bs : 0 <= le_val bs < 256 ^ Z.of_nat (length bs).
Proof.
  induction bs as [|b bs IH]; [cbn; lia|].
  cbn [length le_val]. rewrite pow256. pose proof (u8_range b). lia.
Qed.

Lemma le_val_bytes n z : le_val (le_bytes n z) = z mod 256 ^ Z.of_nat n.
Proof.
  revert z; induction n as [|n IH]; intros z; [cbn; by rewrite Z.mod_1_r|].
  cbn [le_bytes le_val]. rewrite IH, u8_byte_of, pow256.
  rewrite Z.rem_mul_r; pose proof (pow256_pos n); lia.
Qed.

Lemma le_bytes_val bs : le_bytes (length bs) (le_val bs) = bs.
Proof.
  induction bs as [|b bs IH]; cbn; [done|]. f_equal.
  - apply u8_inj. rewrite u8_byte_of. pose proof (u8_range b).
    rewrite (Z.mul_comm 256), Z.mod_add by lia. apply Z.mod_small; lia.
  - rewrite (Z.mul_comm 256), Z.div_add by lia. pose proof (u8_range b).
    rewrite Z.div_small by lia. exact IH.
Qed.

Lemma le_bytes_mod n z : le_bytes n (z mod 256 ^ Z.of_nat n) = le_bytes n z.
Proof.
  rewrite <- (le_bytes_val (le_bytes n z)), le_bytes_length, le_val_bytes. done.
Qed.

Lemma be_val_bytes n z : be_val (be_bytes n z) = z mod 256 ^ Z.of_nat n.
Proof. unfold be_val, be_bytes. by rewrite rev_involutive, le_val_bytes. Qed.

Lemma be_bytes_val bs : be_bytes (length bs) (be_val bs) = bs.
Proof.
  unfold be_bytes, be_val. rewrite <- (length_rev bs), le_bytes_val. apply rev_involutive.
Qed.

Lemma le_val_uint n w z :
  256 ^ Z.of_nat n = 2 ^ w -> 0 <= z < 2 ^ w -> le_val (le_bytes n z) = z.
Proof. intros E Hz. rewrite le_val_bytes, E. by apply Z.mod_small. Qed.

Lemma le_val_sint n w z :
  0 < w -> 256 ^ Z.of_nat n = 2 ^ w -> is_sint w z = true ->
  sint w (le_val (le_bytes n z)) = z.
Proof. intros Hw E Hz. rewrite le_val_bytes, E. by apply sint_mod. Qed.

(** ** Lexicographic order *)

(** [Ord] of byte slices, and of [String] (which compares its bytes). *)
Fixpoint bytes_cmp (a b : bytes) : comparison :=
  match a, b with
  | [], [] => Eq
  | [], _ => Lt
  | _, [] => Gt
  | x :: a, y :: b =>
      match Z.compare (u8 x) (u8 y) with Eq => bytes_cmp a b | c => c end
  end.

Lemma bytes_cmp_refl a : bytes_cmp a a = Eq.
Proof. induction a; cbn; [done|]. by rewrite Z.compare_refl. Qed.

Lemma bytes_cmp_eq a b : bytes_cmp a b = Eq <-> a = b.
Proof.
  split; [|intros ->; apply bytes_cmp_refl].
  revert b; induction a as [|x a IH]; intros [|y b]; cbn; try done.
  destruct (Z.compare_spec (u8 x) (u8 y)) as [E| |]; try done.
  apply u8_inj in E as ->. intros ?%IH. by subst.
Qed.

Lemma bytes_cmp_antisym a b : bytes_cmp b a = CompOpp (bytes_cmp a b).
Proof.
  revert b; induction a as [|x a IH]; intros [|y b]; cbn; try done.
  rewrite (Z.compare_antisym (u8 x) (u8 y)). destruct (Z.compare (u8 x) (u8 y)); cbn; auto.
Qed.

Lemma bytes_cmp_lt_trans a b c :
  bytes_cmp a b = Lt -> bytes_cmp b c = Lt -> bytes_cmp a c = Lt.
Proof.
  revert b c; induction a as [|x a IH]; intros [|y b] [|z c]; cbn; try done.
  destruct (Z.compare_spec (u8 x) (u8 y)), (Z.compare_spec (u8 y) (u8 z));
    try done; intros; destruct (Z.compare_spec (u8 x) (u8 z)); try lia; eauto.
Qed.

(** A common prefix does not change the order. *)
Lemma bytes_cmp_app p a b : bytes_cmp (p ++ a) (p ++ b) = bytes_cmp a b.
Proof. induction p; cbn; [done|]. by rewrite Z.compare_refl. Qed.

(** Between strings of one length, the first difference decides, whatever follows. *)
Lemma bytes_cmp_app_len a b a' b' :
  length a = length b ->
  bytes_cmp (a ++ a') (b ++ b') =
  match bytes_cmp a b with Eq => bytes_cmp a' b' | c => c end.
Proof.
  revert b; induction a as [|x a IH]; intros [|y b]; cbn; intros; try lia; [done|].
  destruct (Z.compare (u8 x) (u8 y)); auto.
Qed.

Lemma be_val_snoc bs b : be_val (bs ++ [b]) = 256 * be_val bs + u8 b.
Proof. unfold be_val. rewrite rev_unit. cbn. lia. Qed.

(** Big-endian strings of one length compare as the integers they spell. *)
Lemma bytes_cmp_be a b :
  length a = length b -> bytes_cmp a b = Z.compare (be_val a) (be_val b).
Proof.
  revert b; induction a as [|x a IH] using rev_ind; intros b Hlen.
  - by destruct b.
  - destruct b as [|y b _] using rev_ind; rewrite !length_app in Hlen; cbn in Hlen; [lia|].
    rewrite bytes_cmp_app_len, IH, !be_val_snoc by lia.
    pose proof (u8_range x); pose proof (u8_range y). cbn.
    destruct (Z.compare_spec (be_val a) (be_val b)), (Z.compare_spec (u8 x) (u8 y));
      symmetry; solve_compare.
Qed.
