(* ===== verification/Text.v ===== *)
(** * Text

    What the sources use of Rust strings, over their UTF-8 bytes: validity,
    byte-range slices (which panic off a character boundary), splitting, and
    the decimal and hexadecimal forms of integers. *)
From S2P Require Import Prelude Bytes.
From Stdlib Require String.
Export String.StringSyntax.
#[local] Open Scope Z_scope.

(** A string literal. *)
Definition str (s : String.string) : bytes := String.list_byte_of_string s.
Arguments str s%_string_scope.

(** ** UTF-8 *)

Definition in_range (lo hi : Z) (b : byte) : bool := (lo <=? u8 b) && (u8 b <=? hi).

(** A continuation byte, [10xxxxxx]. *)
Definition is_cont : byte -> bool := in_range 128 191.

(** [std::str::from_utf8]: well-formed UTF-8 (no overlong form, no surrogate,
    nothing past U+10FFFF). *)
Fixpoint utf8_valid (s : bytes) : bool :=
  match s with
  | [] => true
  | b0 :: s1 =>
      if in_range 0 127 b0 then utf8_valid s1
      else if in_range 194 223 b0 then
        match s1 with
        | b1 :: s2 => is_cont b1 && utf8_valid s2
        | _ => false
        end
      else if in_range 224 239 b0 then
        match s1 with
        | b1 :: b2 :: s3 =>
            in_range (if u8 b0 =? 224 then 160 else 128)
                     (if u8 b0 =? 237 then 159 else 191) b1
            && is_cont b2 && utf8_valid s3
        | _ => false
        end
      else if in_range 240 244 b0 then
        match s1 with
        | b1 :: b2 :: b3 :: s4 =>
            in_range (if u8 b0 =? 240 then 144 else 128)
                     (if u8 b0 =? 244 then 143 else 191) b1
            && is_cont b2 && is_cont b3 && utf8_valid s4
        | _ => false
        end
      else false
  end.

(** [str::is_char_boundary]. *)
Definition is_char_boundary (s : bytes) (i : nat) : bool :=
  match s !! i with
  | Some b => negb (is_cont b)
  | None => Nat.eqb i (length s)
  end.

(** [&s[i..j]]: panics unless both ends are in-range character boundaries. *)
Definition str_slice {E} (s : bytes) (i j : nat) : res E bytes :=
  if (i <=? j)%nat && is_char_boundary s i && is_char_boundary s j
  then Ok (take (j - i) (drop i s)) else Panic.

Definition is_ascii (b : byte) : bool := u8 b <? 128.

Lemma ascii_not_cont b : is_ascii b = true -> is_cont b = false.
Proof. unfold is_ascii, is_cont, in_range. lia. Qed.

Lemma ascii_utf8_valid s : forallb is_ascii s = true -> utf8_valid s = true.
Proof.
  induction s as [|b s IH]; [done|]. cbn [forallb]. intros [Hb Hs]%andb_true_iff.
  cbn [utf8_valid]. unfold in_range at 1. unfold is_ascii in Hb.
  pose proof (u8_range b). destruct ((0 <=? u8 b) && (u8 b <=? 127)) eqn:?; [auto|lia].
Qed.

Lemma ascii_boundary s i :
  forallb is_ascii s = true -> (i <= length s)%nat -> is_char_boundary s i = true.
Proof.
  intros Hs Hi. unfold is_char_boundary. destruct (s !! i) as [b|] eqn:E.
  - apply list_elem_of_lookup_2 in E. rewrite forallb_forall in Hs.
    rewrite ascii_not_cont; [done|]. apply Hs. by apply list_elem_of_In.
  - apply lookup_ge_None in E. apply Nat.eqb_eq. lia.
Qed.

Lemma str_slice_ascii {E} s i j :
  forallb is_ascii s = true -> (i <= j <= length s)%nat ->
  str_slice (E:=E) s i j = Ok (take (j - i) (drop i s)).
Proof.
  intros Hs Hij. unfold str_slice. rewrite !ascii_boundary by (done || lia).
  rewrite (proj2 (Nat.leb_le i j)) by lia. done.
Qed.

(** ** Splitting *)

(** [s.split(sep)] for a one-byte separator: always at least one piece. *)
Fixpoint split_on (sep : byte) (s : bytes) : list bytes :=
  match s with
  | [] => [[]]
  | b :: s =>
      if decide (b = sep) then [] :: split_on sep s
      else match split_on sep s with
           | p :: ps => (b :: p) :: ps
           | [] => [[b]]
           end
  end.

(** [s.split_once(sep)]. *)
Fixpoint split_once (sep : byte) (s : bytes) : option (bytes * bytes) :=
  match s with
  | [] => None
  | b :: s =>
      if decide (b = sep) then Some ([], s)
      else match split_once sep s with
           | Some (l, r) => Some (b :: l, r)
           | None => None
           end
  end.

Lemma split_on_nosep sep s : sep ∉ s -> split_on sep s = [s].
Proof.
  induction s as [|b s IH]; cbn; [done|]. rewrite not_elem_of_cons. intros [? ?].
  rewrite decide_False by done. by rewrite IH.
Qed.

Lemma split_on_app sep s t :
  sep ∉ s -> split_on sep (s ++ sep :: t) = s :: split_on sep t.
Proof.
  induction s as [|b s IH]; cbn; [intros _; by rewrite decide_True|].
  rewrite not_elem_of_cons. intros [? ?]. rewrite decide_False by done. by rewrite IH.
Qed.

Lemma split_once_nosep sep s : sep ∉ s -> split_once sep s = None.
Proof.
  induction s as [|b s IH]; cbn; [done|]. rewrite not_elem_of_cons. intros [? ?].
  rewrite decide_False by done. by rewrite IH.
Qed.

Lemma split_once_app sep s t :
  sep ∉ s -> split_once sep (s ++ sep :: t) = Some (s, t).
Proof.
  induction s as [|b s IH]; cbn; [intros _; by rewrite decide_True|].
  rewrite not_elem_of_cons. intros [? ?]. rewrite decide_False by done. by rewrite IH.
Qed.

Lemma split_once_Some sep s l r :
  split_once sep s = Some (l, r) -> s = l ++ sep :: r /\ sep ∉ l.
Proof.
  revert l r; induction s as [|b s IH]; intros l r; cbn; [done|].
  case_decide as Hb.
  - intros [= <- <-]. subst. split; [done|]. apply not_elem_of_nil.
  - destruct (split_once sep s) as [[l' r']|] eqn:E; [|done]. intros [= <- <-].
    destruct (IH _ _ eq_refl) as [-> ?]. split; [done|]. by rewrite not_elem_of_cons.
Qed.

(** ** Hexadecimal *)

(** A lower-case hexadecimal digit. *)
Definition hex_digit (d : Z) : byte :=
  if d <? 10 then byte_of (48 + d) else byte_of (87 + d).

(** [format!("{b:02x}")]. *)
Definition hex_byte (b : byte) : bytes := [hex_digit (u8 b / 16); hex_digit (u8 b mod 16)].

(** [char::to_digit] with radix 16. *)
Definition hex_val (b : byte) : option Z :=
  let x := u8 b in
  if (48 <=? x) && (x <=? 57) then Some (x - 48)
  else if (97 <=? x) && (x <=? 102) then Some (x - 87)
  else if (65 <=? x) && (x <=? 70) then Some (x - 55)
  else None.

Definition plus_sign : byte := byte_of 43.
Definition minus_sign : byte := byte_of 45.

Fixpoint radix_digits (radix : Z) (val : byte -> option Z) (acc : Z) (s : bytes) : option Z :=
  match s with
  | [] => Some acc
  | b :: s =>
      match val b with
      | Some d => radix_digits radix val (acc * radix + d) s
      | None => None
      end
  end.

(** [from_str_radix] of an unsigned [w]-bit type: an optional leading [+], then
    one digit or more, failing when the number does not fit. *)
Definition parse_radix (w radix : Z) (val : byte -> option Z) (s : bytes) : option Z :=
  let digits := match s with b :: s' => if decide (b = plus_sign) then s' else s | [] => s end in
  match digits with
  | [] => None
  | _ =>
      match radix_digits radix val 0 digits with
      | Some n => if n <? 2 ^ w then Some n else None
      | None => None
      end
  end.

Definition u8_from_hex (s : bytes) : option byte := byte_of <$> parse_radix 8 16 hex_val s.

Lemma hex_digit_val d : 0 <= d < 16 -> hex_val (hex_digit d) = Some d.
Proof.
  intros Hd. unfold hex_digit, hex_val.
  destruct (Z.ltb_spec d 10); rewrite u8_byte_of, Z.mod_small by lia; cbn zeta.
  - rewrite (proj2 (Z.leb_le 48 _)), (proj2 (Z.leb_le _ 57)) by lia. f_equal. lia.
  - rewrite (proj2 (Z.leb_gt (87 + d) 57)) by lia. rewrite andb_false_r.
    rewrite (proj2 (Z.leb_le 97 _)), (proj2 (Z.leb_le _ 102)) by lia. f_equal. lia.
Qed.

Lemma hex_digit_u8 d :
  0 <= d < 16 -> 48 <= u8 (hex_digit d) <= 57 \/ 97 <= u8 (hex_digit d) <= 102.
Proof.
  intros Hd. unfold hex_digit.
  destruct (Z.ltb_spec d 10); rewrite u8_byte_of, Z.mod_small by lia; lia.
Qed.

Lemma hex_byte_u8 b c : c ∈ hex_byte b -> 48 <= u8 c <= 57 \/ 97 <= u8 c <= 102.
Proof.
  pose proof (u8_range b). unfold hex_byte.
  rewrite !elem_of_cons. intros [->|[->|[]%elem_of_nil]]; apply hex_digit_u8;
    [split; [apply Z.div_pos|apply Z.div_lt_upper_bound]|apply Z.mod_pos_bound]; lia.
Qed.

Lemma u8_from_hex_byte b : u8_from_hex (hex_byte b) = Some b.
Proof.
  pose proof (u8_range b).
  assert (0 <= u8 b / 16 < 16) by (split; [apply Z.div_pos|apply Z.div_lt_upper_bound]; lia).
  assert (0 <= u8 b mod 16 < 16) by (apply Z.mod_pos_bound; lia).
  unfold u8_from_hex, parse_radix, hex_byte.
  rewrite decide_False.
  - cbn [radix_digits]. rewrite !hex_digit_val by done. cbn [fmap option_fmap option_map].
    replace ((0 * 16 + u8 b / 16) * 16 + u8 b mod 16) with (u8 b)
      by (pose proof (Z.div_mod (u8 b) 16); lia).
    change (2 ^ 8) with 256. rewrite (proj2 (Z.ltb_lt _ _)) by lia. cbn. by rewrite byte_of_u8.
  - intros E. pose proof (hex_digit_u8 (u8 b / 16)) as Hd. rewrite E in Hd.
    change (u8 plus_sign) with 43 in Hd. lia.
Qed.

(** [bytes.iter().map(|b| format!("{b:02x}")).collect()]. *)
Definition to_hex (bs : bytes) : bytes := concat (map hex_byte bs).

Lemma to_hex_cons b bs : to_hex (b :: bs) = hex_byte b ++ to_hex bs.
Proof. done. Qed.

Lemma to_hex_app a b : to_hex (a ++ b) = to_hex a ++ to_hex b.
Proof. unfold to_hex. by rewrite map_app, concat_app. Qed.

Lemma to_hex_length bs : length (to_hex bs) = (2 * length bs)%nat.
Proof. induction bs as [|b bs IH]; [done|]. rewrite to_hex_cons, length_app, IH. cbn. lia. Qed.

Lemma to_hex_u8 bs c : c ∈ to_hex bs -> 48 <= u8 c <= 57 \/ 97 <= u8 c <= 102.
Proof.
  induction bs as [|b bs IH]; [by intros ?%elem_of_nil|].
  rewrite to_hex_cons, elem_of_app. intros [?|?]; eauto using hex_byte_u8.
Qed.

Lemma to_hex_ascii bs : forallb is_ascii (to_hex bs) = true.
Proof.
  apply forallb_forall. intros c Hc%list_elem_of_In%to_hex_u8. unfold is_ascii. lia.
Qed.

#[export] Instance to_hex_inj : Inj (=) (=) to_hex.
Proof.
  intros a b. revert b; induction a as [|x a IH]; intros [|y b]; try done.
  rewrite !to_hex_cons. intros [Hxy Hab]%app_inj_1; [|done].
  assert (Some x = Some y) as [= ->] by (by rewrite <- !u8_from_hex_byte, Hxy).
  f_equal. by apply IH.
Qed.

(** ** Decimal *)

Fixpoint dec_digits (fuel : nat) (n : Z) (acc : bytes) : bytes :=
  match fuel with
  | O => acc
  | S fuel =>
      let acc := byte_of (48 + n mod 10) :: acc in
      if n / 10 =? 0 then acc else dec_digits fuel (n / 10) acc
  end.

(** [n.to_string()] of a non-negative integer. *)
Definition to_dec (n : Z) : bytes := dec_digits (S (Z.to_nat (Z.log2 n))) n [].

(** [n.to_string()] of any integer. *)
Definition int_text (n : Z) : bytes := if n <? 0 then str "-" ++ to_dec (- n) else to_dec n.

Definition dec_val (b : byte) : option Z :=
  let x := u8 b in if (48 <=? x) && (x <=? 57) then Some (x - 48) else None.

(** [s.parse::<u32>().ok()]. *)
Definition parse_u32 (s : bytes) : option Z := parse_radix 32 10 dec_val s.

Definition is_dec_digit (b : byte) : bool := in_range 48 57 b.

Lemma dec_digit_u8 n : 0 <= n -> u8 (byte_of (48 + n mod 10)) = 48 + n mod 10.
Proof. intros. pose proof (Z.mod_pos_bound n 10). rewrite u8_byte_of, Z.mod_small; lia. Qed.

Lemma dec_digits_spec fuel n acc :
  (1 <= fuel)%nat -> 0 <= n < 2 ^ Z.of_nat fuel ->
  exists ds, dec_digits fuel n acc = ds ++ acc
    /\ Forall (fun b => is_dec_digit b = true) ds
    /\ 0 < Z.of_nat (length ds)
    /\ (n = 0 -> length ds = 1%nat)
    /\ (0 < n -> 10 ^ (Z.of_nat (length ds) - 1) <= n)
    /\ n < 10 ^ Z.of_nat (length ds)
    /\ forall a rest, radix_digits 10 dec_val a (ds ++ rest)
                      = radix_digits 10 dec_val (a * 10 ^ Z.of_nat (length ds) + n) rest.
Proof.
  intros Hf. revert n acc. induction fuel as [|fuel IH]; [lia|]. intros n acc Hn. cbn [dec_digits].
  assert (Hd : is_dec_digit (byte_of (48 + n mod 10)) = true).
  { unfold is_dec_digit, in_range. rewrite dec_digit_u8 by lia.
    pose proof (Z.mod_pos_bound n 10). lia. }
  assert (Hv : dec_val (byte_of (48 + n mod 10)) = Some (n mod 10)).
  { unfold dec_val. unfold is_dec_digit, in_range in Hd. rewrite Hd.
    rewrite dec_digit_u8 by lia. f_equal. lia. }
  pose proof (Z.div_mod n 10 ltac:(lia)) as Hdm. pose proof (Z.mod_pos_bound n 10 ltac:(lia)).
  destruct (Z.eqb_spec (n / 10) 0) as [Hz|Hz].
  - exists [byte_of (48 + n mod 10)]. split_and!; cbn -[Z.pow]; try done; try lia.
    + by constructor.
    + intros a rest. rewrite Hv. do 2 f_equal. lia.
  - assert (0 < n / 10) by (pose proof (Z.div_pos n 10); lia).
    destruct fuel as [|fuel]; [cbn in Hn; assert (n / 10 = 0) by (apply Z.div_small; lia); lia|].
    destruct (IH ltac:(lia) (n / 10) (byte_of (48 + n mod 10) :: acc))
      as (ds & -> & Hds & Hlen & _ & Hlo & Hhi & Hrd).
    { rewrite (Nat2Z.inj_succ (S fuel)), Z.pow_succ_r in Hn by lia. lia. }
    exists (ds ++ [byte_of (48 + n mod 10)]). rewrite length_app. cbn [length].
    replace (Z.of_nat (length ds + 1)) with (Z.succ (Z.of_nat (length ds))) by lia.
    rewrite Z.pow_succ_r by lia.
    split_and!; try lia.
    + by rewrite <- app_assoc.
    + apply Forall_app. by repeat constructor.
    + intros _. specialize (Hlo ltac:(lia)).
      replace (Z.succ (Z.of_nat (length ds)) - 1) with (Z.succ (Z.of_nat (length ds) - 1)) by lia.
      rewrite Z.pow_succ_r by lia. lia.
    + intros a rest. rewrite <- app_assoc, Hrd. cbn [app radix_digits]. rewrite Hv.
      f_equal. nia.
Qed.

(** What [to_string] prints: digits only, as many as the number needs, and
    reading them back gives the number. *)
Lemma to_dec_spec n :
  0 <= n ->
  Forall (fun b => is_dec_digit b = true) (to_dec n)
  /\ 0 < Z.of_nat (length (to_dec n))
  /\ (n = 0 -> length (to_dec n) = 1%nat)
  /\ (0 < n -> 10 ^ (Z.of_nat (length (to_dec n)) - 1) <= n)
  /\ n < 10 ^ Z.of_nat (length (to_dec n))
  /\ forall a rest, radix_digits 10 dec_val a (to_dec n ++ rest)
                    = radix_digits 10 dec_val (a * 10 ^ Z.of_nat (length (to_dec n)) + n) rest.
Proof.
  intros Hn. unfold to_dec.
  destruct (dec_digits_spec (S (Z.to_nat (Z.log2 n))) n []) as (ds & -> & ?); [lia| |].
  - split; [done|]. rewrite Nat2Z.inj_succ, Z2Nat.id by apply Z.log2_nonneg.
    destruct (Z.eq_dec n 0) as [->|]; [done|]. apply Z.log2_spec. lia.
  - by rewrite app_nil_r.
Qed.

Lemma to_dec_digits n : 0 <= n -> Forall (fun b => is_dec_digit b = true) (to_dec n).
Proof. intros Hn. by apply (to_dec_spec n Hn). Qed.

Lemma to_dec_nonempty n : 0 <= n -> to_dec n <> [].
Proof. intros Hn E. pose proof (to_dec_spec n Hn) as (_ & Hlen & _). rewrite E in Hlen. cbn in Hlen. lia. Qed.

Lemma to_dec_read n : 0 <= n -> radix_digits 10 dec_val 0 (to_dec n) = Some n.
Proof.
  intros Hn. pose proof (to_dec_spec n Hn) as (_ & _ & _ & _ & _ & H).
  specialize (H 0 []). rewrite app_nil_r in H. rewrite H. cbn. done.
Qed.

Lemma digit_ne_sign b : is_dec_digit b = true -> b <> plus_sign /\ b <> minus_sign.
Proof. intros H. split; intros ->; by vm_compute in H. Qed.

Lemma parse_u32_to_dec n : 0 <= n < 2 ^ 32 -> parse_u32 (to_dec n) = Some n.
Proof.
  intros Hn. unfold parse_u32, parse_radix.
  pose proof (to_dec_read n ltac:(lia)) as Hr. pose proof (to_dec_digits n ltac:(lia)) as Hd.
  pose proof (to_dec_nonempty n ltac:(lia)) as Hne.
  destruct (to_dec n) as [|b s] eqn:E; [done|].
  inversion Hd as [|? ? Hb _]; subst. rewrite decide_False by (by apply digit_ne_sign).
  rewrite Hr. rewrite (proj2 (Z.ltb_lt _ _)) by lia. done.
Qed.

Lemma to_dec_inj n m : 0 <= n -> 0 <= m -> to_dec n = to_dec m -> n = m.
Proof.
  intros Hn Hm E. assert (Some n = Some m) as [= ->]; [|done].
  by rewrite <- (to_dec_read n), <- (to_dec_read m), E.
Qed.
