(* ===== verification/BTree.v ===== *)
(** * Ordered maps

    [BTreeMap] and [BTreeSet] as association lists in strictly ascending key
    order, for any key type with a total order ([OrdKey]).  The sources walk
    these maps in key order (canonical encodings, [SHOW GRANTS], the member
    list), so the order is part of the model. *)
From S2P Require Import Prelude Bytes.
From Stdlib Require Import Sorted.
#[local] Open Scope Z_scope.

(** [Ord]: a total order with decidable equality. *)
Class OrdKey (K : Type) := {
  kcmp : K -> K -> comparison;
  kcmp_eq a b : kcmp a b = Eq <-> a = b;
  kcmp_antisym a b : kcmp b a = CompOpp (kcmp a b);
  kcmp_trans a b c : kcmp a b = Lt -> kcmp b c = Lt -> kcmp a c = Lt;
}.

#[export] Instance bytes_ord : OrdKey bytes := {
  kcmp := bytes_cmp;
  kcmp_eq := bytes_cmp_eq;
  kcmp_antisym := bytes_cmp_antisym;
  kcmp_trans := bytes_cmp_lt_trans;
}.

Section btree.
Context {K V : Type} `{OrdKey K}.
Implicit Types (k : K) (v : V) (m : list (K * V)).

Definition klt k k' : Prop := kcmp k k' = Lt.

Lemma kcmp_refl k : kcmp k k = Eq.
Proof. by apply kcmp_eq. Qed.

Lemma klt_irrefl k : ~ klt k k.
Proof. unfold klt. by rewrite kcmp_refl. Qed.

Lemma klt_trans k1 k2 k3 : klt k1 k2 -> klt k2 k3 -> klt k1 k3.
Proof. apply kcmp_trans. Qed.

Lemma kcmp_gt k k' : kcmp k k' = Gt <-> klt k' k.
Proof.
  unfold klt. rewrite (kcmp_antisym k k'). destruct (kcmp k k'); cbn; split; congruence.
Qed.

Lemma kcmp_cases k k' :
  (k = k' /\ kcmp k k' = Eq) \/ (klt k k' /\ kcmp k k' = Lt) \/ (klt k' k /\ kcmp k k' = Gt).
Proof.
  destruct (kcmp k k') eqn:E; [left|right;left|right;right]; split; try done.
  - by apply kcmp_eq.
  - by apply kcmp_gt.
Qed.

(** Strictly ascending keys. *)
Fixpoint sorted_above (lo : option K) (m : list (K * V)) : bool :=
  match m with
  | [] => true
  | (k, _) :: m =>
      match lo with
      | Some k0 => match kcmp k0 k with Lt => true | _ => false end
      | None => true
      end && sorted_above (Some k) m
  end.
Definition sorted (m : list (K * V)) : bool := sorted_above None m.
Arguments sorted : simpl never.

(** [BTreeMap::get]. *)
Fixpoint bt_get k m : option V :=
  match m with
  | [] => None
  | (k', v) :: m => match kcmp k k' with Eq => Some v | _ => bt_get k m end
  end.

(** [BTreeMap::insert]: replaces the value of a key already there. *)
Fixpoint bt_insert k v m : list (K * V) :=
  match m with
  | [] => [(k, v)]
  | (k', v') :: m' =>
      match kcmp k k' with
      | Lt => (k, v) :: m
      | Eq => (k, v) :: m'
      | Gt => (k', v') :: bt_insert k v m'
      end
  end.

(** [BTreeMap::remove] (the map it leaves). *)
Fixpoint bt_remove k m : list (K * V) :=
  match m with
  | [] => []
  | (k', v') :: m' =>
      match kcmp k k' with Eq => m' | _ => (k', v') :: bt_remove k m' end
  end.

Definition bt_contains k m : bool := match bt_get k m with Some _ => true | None => false end.

(** An update in place through [get_mut]. *)
Definition bt_update (f : V -> V) k m : list (K * V) :=
  match bt_get k m with Some v => bt_insert k (f v) m | None => m end.

(** [BTreeMap::retain]. *)
Definition bt_retain (p : K -> V -> bool) m : list (K * V) := List.filter (fun kv => p kv.1 kv.2) m.

Lemma sorted_above_cons lo k v m :
  sorted_above lo ((k, v) :: m) = true <->
  (forall k0, lo = Some k0 -> klt k0 k) /\ sorted_above (Some k) m = true.
Proof.
  cbn. rewrite andb_true_iff. unfold klt. destruct lo as [k0|].
  - split; intros [Hk Hm]; (split; [|done]).
    + intros ? [= <-]. by destruct (kcmp k0 k).
    + by rewrite (Hk k0).
  - split; [intros [_ ?]; by split|tauto].
Qed.

Lemma sorted_above_weaken k1 k2 m :
  klt k1 k2 -> sorted_above (Some k2) m = true -> sorted_above (Some k1) m = true.
Proof.
  destruct m as [|[k v] m]; [done|]. rewrite !sorted_above_cons.
  intros Hlt [Hk Hm]. split; [|done]. intros ? [= <-]. eauto using klt_trans.
Qed.

Lemma sorted_above_None k m : sorted_above (Some k) m = true -> sorted m = true.
Proof.
  destruct m as [|[k' v] m]; [done|]. unfold sorted. rewrite !sorted_above_cons.
  intros [_ Hm]. by split.
Qed.

Lemma sorted_cons k v m : sorted ((k, v) :: m) = true <-> sorted_above (Some k) m = true.
Proof. unfold sorted. rewrite sorted_above_cons. split; [tauto|by split]. Qed.

Lemma sorted_tail k v m : sorted ((k, v) :: m) = true -> sorted m = true.
Proof. rewrite sorted_cons. apply sorted_above_None. Qed.

Lemma sorted_above_elem k m k' v' :
  sorted_above (Some k) m = true -> (k', v') ∈ m -> klt k k'.
Proof.
  revert k; induction m as [|[k1 v1] m IH]; intros k; [by intros _ ?%elem_of_nil|].
  rewrite sorted_above_cons, elem_of_cons. intros [Hk Hm] [[= -> ->]|Hin]; [by apply Hk|].
  eapply klt_trans; [by apply Hk|eauto].
Qed.

Lemma bt_get_elem k v m : bt_get k m = Some v -> (k, v) ∈ m.
Proof.
  induction m as [|[k' v'] m IH]; cbn; [done|]. rewrite elem_of_cons.
  destruct (kcmp_cases k k') as [[-> ->]|[[_ ->]|[_ ->]]]; [|auto..].
  intros [= ->]. by left.
Qed.

Lemma bt_get_above k m : sorted_above (Some k) m = true -> bt_get k m = None.
Proof.
  intros Hs. destruct (bt_get k m) as [v|] eqn:E; [|done].
  apply bt_get_elem in E. exfalso. eapply klt_irrefl, sorted_above_elem; eauto.
Qed.

Lemma bt_elem_get k v m : sorted m = true -> (k, v) ∈ m -> bt_get k m = Some v.
Proof.
  induction m as [|[k' v'] m IH]; [by intros _ ?%elem_of_nil|].
  intros Hs. pose proof (sorted_tail _ _ _ Hs) as Hm. cbn.
  apply sorted_cons in Hs.
  rewrite elem_of_cons. intros [[= -> ->]|Hin]; [by rewrite kcmp_refl|].
  destruct (kcmp_cases k k') as [[-> _]|[[_ ->]|[_ ->]]]; [|auto..].
  exfalso. eapply klt_irrefl, sorted_above_elem; eauto.
Qed.

Lemma bt_get_insert k v m k' :
  bt_get k' (bt_insert k v m) = match kcmp k' k with Eq => Some v | _ => bt_get k' m end.
Proof.
  induction m as [|[k1 v1] m IH]; cbn; [done|].
  destruct (kcmp_cases k k1) as [[-> Ek]|[[Hlt Ek]|[Hgt Ek]]]; rewrite Ek; cbn.
  - by destruct (kcmp_cases k' k1) as [[-> ->]|[[_ ->]|[_ ->]]].
  - done.
  - rewrite IH. destruct (kcmp_cases k' k1) as [[-> ->]|[[_ ->]|[_ ->]]]; [|done..].
    destruct (kcmp_cases k1 k) as [[-> _]|[[_ ->]|[_ ->]]]; [|done..].
    by destruct (klt_irrefl k).
Qed.

Lemma bt_get_insert_eq k v m : bt_get k (bt_insert k v m) = Some v.
Proof. by rewrite bt_get_insert, kcmp_refl. Qed.

Lemma bt_get_insert_ne k v m k' : k' <> k -> bt_get k' (bt_insert k v m) = bt_get k' m.
Proof.
  intros Hne. rewrite bt_get_insert. destruct (kcmp k' k) eqn:E; try done.
  by apply kcmp_eq in E.
Qed.

Lemma sorted_above_insert lo k v m :
  (forall k0, lo = Some k0 -> klt k0 k) ->
  sorted_above lo m = true -> sorted_above lo (bt_insert k v m) = true.
Proof.
  revert lo; induction m as [|[k' v'] m IH]; intros lo Hlo.
  - intros _. apply sorted_above_cons. by split.
  - intros Hs. pose proof Hs as [Hk' Hm]%sorted_above_cons. cbn [bt_insert].
    destruct (kcmp_cases k k') as [[-> ->]|[[Hlt ->]|[Hgt ->]]]; apply sorted_above_cons.
    + by split.
    + split; [done|]. apply sorted_above_cons. split; [|done]. by intros ? [= <-].
    + split; [done|]. apply IH; [|done]. by intros ? [= <-].
Qed.

Lemma sorted_insert k v m : sorted m = true -> sorted (bt_insert k v m) = true.
Proof. by apply sorted_above_insert. Qed.

Lemma sorted_above_filter p lo m :
  sorted_above lo m = true -> sorted_above lo (bt_retain p m) = true.
Proof.
  revert lo; induction m as [|[k v] m IH]; intros lo; [done|].
  rewrite sorted_above_cons. intros [Hlo Hm]. unfold bt_retain. cbn.
  destruct (p k v).
  - apply sorted_above_cons. split; [done|]. by apply IH.
  - apply IH. destruct lo as [k0|]; [|by eapply sorted_above_None].
    eapply sorted_above_weaken; eauto.
Qed.

Lemma sorted_retain p m : sorted m = true -> sorted (bt_retain p m) = true.
Proof. apply sorted_above_filter. Qed.

Lemma sorted_above_remove k lo m :
  sorted_above lo m = true -> sorted_above lo (bt_remove k m) = true.
Proof.
  revert lo; induction m as [|[k' v] m IH]; intros lo; [done|].
  rewrite sorted_above_cons. intros [Hlo Hm]. cbn.
  destruct (kcmp k k'); [|apply sorted_above_cons; split; [done|by apply IH]..].
  destruct lo as [k0|]; [|by eapply sorted_above_None]. eapply sorted_above_weaken; eauto.
Qed.

Lemma sorted_remove k m : sorted m = true -> sorted (bt_remove k m) = true.
Proof. apply sorted_above_remove. Qed.

Lemma bt_get_remove_ne k k' m : k' <> k -> bt_get k' (bt_remove k m) = bt_get k' m.
Proof.
  intros Hne. induction m as [|[k1 v1] m IH]; cbn; [done|].
  destruct (kcmp_cases k k1) as [[-> ->]|[[_ ->]|[_ ->]]]; cbn; rewrite ?IH; try done.
  destruct (kcmp k' k1) eqn:E; try done. by apply kcmp_eq in E.
Qed.

Lemma bt_get_remove_eq k m : sorted m = true -> bt_get k (bt_remove k m) = None.
Proof.
  induction m as [|[k' v] m IH]; cbn; [done|]. intros Hs.
  pose proof (sorted_tail _ _ _ Hs) as Hm. apply sorted_cons in Hs.
  destruct (kcmp_cases k k') as [[-> ->]|[[_ E]|[_ E]]]; rewrite ?E; cbn; rewrite ?E; auto.
  by apply bt_get_above.
Qed.

Lemma bt_get_retain p k m :
  sorted m = true ->
  bt_get k (bt_retain p m) =
  match bt_get k m with Some v => if p k v then Some v else None | None => None end.
Proof.
  unfold bt_retain.
  induction m as [|[k' v] m IH]; cbn; [done|]. intros Hs.
  pose proof (sorted_tail _ _ _ Hs) as Hm. apply sorted_cons in Hs.
  destruct (kcmp_cases k k') as [[-> E]|[[_ E]|[_ E]]]; rewrite ?E.
  - destruct (p k' v); cbn; rewrite ?E; [done|].
    rewrite IH by done. by rewrite bt_get_above.
  - destruct (p k' v); cbn; rewrite ?E; auto.
  - destruct (p k' v); cbn; rewrite ?E; auto.
Qed.

(** Ordered maps are extensional. *)
Lemma sorted_ext m1 m2 :
  sorted m1 = true -> sorted m2 = true -> (forall k, bt_get k m1 = bt_get k m2) -> m1 = m2.
Proof.
  revert m2; induction m1 as [|[k1 v1] m1 IH]; intros [|[k2 v2] m2] H1 H2 Heq; [done|..].
  - specialize (Heq k2). cbn in Heq. by rewrite kcmp_refl in Heq.
  - specialize (Heq k1). cbn in Heq. by rewrite kcmp_refl in Heq.
  - pose proof (sorted_tail _ _ _ H1) as S1. pose proof (sorted_tail _ _ _ H2) as S2.
    pose proof (proj1 (sorted_cons _ _ _) H1) as A1.
    pose proof (proj1 (sorted_cons _ _ _) H2) as A2.
    assert (k1 = k2) as ->.
    { pose proof (Heq k1) as E1. pose proof (Heq k2) as E2. cbn in E1, E2.
      rewrite kcmp_refl in E1, E2.
      destruct (kcmp_cases k1 k2) as [[-> _]|[[Hlt E]|[Hgt E]]]; [done|..]; exfalso.
      - rewrite E in E1. symmetry in E1. apply bt_get_elem in E1.
        eapply klt_irrefl, klt_trans; [apply Hlt|]. by eapply sorted_above_elem.
      - assert (kcmp k2 k1 = Lt) as E' by done. rewrite E' in E2. apply bt_get_elem in E2.
        eapply klt_irrefl, klt_trans; [apply Hgt|]. by eapply sorted_above_elem. }
    pose proof (Heq k2) as E. cbn in E. rewrite kcmp_refl in E. injection E as ->.
    f_equal. apply IH; [done..|]. intros k. specialize (Heq k). cbn in Heq.
    destruct (kcmp_cases k k2) as [[-> _]|[[_ Ek]|[_ Ek]]];
      [by rewrite !bt_get_above|by rewrite Ek in Heq..].
Qed.

(** Inserting a strictly ascending list from left to right rebuilds it. *)
Lemma bt_insert_last m k v :
  (forall k' v', (k', v') ∈ m -> klt k' k) -> bt_insert k v m = m ++ [(k, v)].
Proof.
  induction m as [|[k' v'] m IH]; intros Hlt; cbn; [done|].
  assert (klt k' k) as Hk by (eapply Hlt; by left).
  rewrite (proj2 (kcmp_gt k k')) by done. f_equal. apply IH.
  intros. eapply Hlt. by right.
Qed.

Lemma sorted_app_elem m k v m' k' v' :
  sorted (m ++ (k, v) :: m') = true -> (k', v') ∈ m -> klt k' k.
Proof.
  unfold sorted. generalize (@None K) as lo.
  induction m as [|[k1 v1] m IH]; intros lo; [by intros _ ?%elem_of_nil|].
  cbn [app]. rewrite sorted_above_cons, elem_of_cons. intros [_ Hs] [[= -> ->]|Hin]; [|eauto].
  eapply sorted_above_elem; [done|]. rewrite elem_of_app. right. by left.
Qed.

Lemma bt_elem_insert k v m k' v' :
  (k', v') ∈ bt_insert k v m -> (k', v') = (k, v) \/ (k', v') ∈ m.
Proof.
  induction m as [|[k1 v1] m IH]; cbn.
  - intros ?%list_elem_of_singleton. by left.
  - destruct (kcmp k k1); rewrite !elem_of_cons; naive_solver.
Qed.

Lemma bt_elem_remove k m kv : kv ∈ bt_remove k m -> kv ∈ m.
Proof.
  induction m as [|[k1 v1] m IH]; cbn; [done|].
  destruct (kcmp k k1); rewrite !elem_of_cons; naive_solver.
Qed.

Lemma bt_length_insert k v m :
  length (bt_insert k v m) = (length m + if bt_contains k m then 0 else 1)%nat
  \/ sorted m = false.
Proof.
  destruct (sorted m) eqn:Hs; [left|by right]. unfold bt_contains.
  induction m as [|[k1 v1] m IH]; cbn; [done|].
  pose proof (sorted_tail _ _ _ Hs) as Hm. apply sorted_cons in Hs.
  destruct (kcmp_cases k k1) as [[-> ->]|[[Hlt ->]|[_ ->]]]; cbn; [lia| |].
  - rewrite bt_get_above; [lia|]. by eapply sorted_above_weaken.
  - rewrite IH by done. lia.
Qed.

End btree.

#[export] Hint Resolve sorted_insert sorted_remove sorted_retain : skaidb.

(** [BTreeSet]: a map to [unit]. *)
Abbreviation btset K := (list (K * unit)).

Section btset.
Context {K : Type} `{OrdKey K}.

Definition bs_insert (k : K) (s : btset K) : btset K := bt_insert k tt s.
Definition bs_contains (k : K) (s : btset K) : bool := bt_contains k s.
Definition bs_remove (k : K) (s : btset K) : btset K := bt_remove k s.
Definition bs_elems (s : btset K) : list K := s.*1.

Lemma bs_contains_elem k s : sorted s = true -> bs_contains k s = true <-> k ∈ bs_elems s.
Proof.
  intros Hs. unfold bs_contains, bt_contains, bs_elems. rewrite list_elem_of_fmap. split.
  - destruct (bt_get k s) as [[]|] eqn:E; [|done]. intros _. exists (k, tt).
    by apply bt_get_elem in E.
  - intros ([k' []] & -> & Hin). by rewrite (bt_elem_get _ tt).
Qed.

Lemma bs_contains_insert k k' s :
  bs_contains k' (bs_insert k s) = true <-> k' = k \/ bs_contains k' s = true.
Proof.
  unfold bs_contains, bs_insert, bt_contains. rewrite bt_get_insert.
  destruct (kcmp_cases k' k) as [[-> ->]|[[Hlt ->]|[Hlt ->]]]; [naive_solver|..];
    split; [tauto| |tauto|]; intros [->|?]; try done; by destruct (klt_irrefl k).
Qed.

End btset.

(** ** Derived orders

    [#[derive(Ord)]] compares variants first and then the fields in order:
    orders of integers, pairs, and of whatever injects into an ordered type. *)

#[export] Program Instance Z_ord : OrdKey Z := { kcmp := Z.compare }.
Next Obligation. apply Z.compare_eq_iff. Qed.
Next Obligation. intros a b. apply Z.compare_antisym. Qed.
Next Obligation. cbn. intros a b c. rewrite !Z.compare_lt_iff. lia. Qed.

Definition pair_cmp {A B} `{OrdKey A} `{OrdKey B} (p q : A * B) : comparison :=
  match kcmp p.1 q.1 with Eq => kcmp p.2 q.2 | c => c end.

#[export] Program Instance pair_ord {A B} `{OrdKey A} `{OrdKey B} : OrdKey (A * B) := {
  kcmp := pair_cmp;
}.
Next Obligation.
  intros A B ? ? [a1 b1] [a2 b2]. unfold pair_cmp; cbn. destruct (kcmp_cases a1 a2) as [[-> ->]|[[Hl ->]|[Hl ->]]].
  - rewrite kcmp_eq. naive_solver.
  - split; [done|]. intros [= -> _]. by apply klt_irrefl in Hl.
  - split; [done|]. intros [= -> _]. by apply klt_irrefl in Hl.
Qed.
Next Obligation.
  intros A B ? ? [a1 b1] [a2 b2]. unfold pair_cmp; cbn. rewrite (kcmp_antisym a1 a2).
  destruct (kcmp a1 a2); cbn; [apply kcmp_antisym|done|done].
Qed.
Next Obligation.
  intros A B ? ? [a1 b1] [a2 b2] [a3 b3]. unfold pair_cmp; cbn.
  destruct (kcmp_cases a1 a2) as [[E1 E12]|[[H12 E12]|[H12 E12]]],
           (kcmp_cases a2 a3) as [[E2 E23]|[[H23 E23]|[H23 E23]]]; subst.
  all: rewrite ?E12, ?E23; try done.
  - apply kcmp_trans.
  - pose proof (klt_trans _ _ _ H12 H23) as H13. unfold klt in H13. by rewrite H13.
Qed.

Program Definition inj_ord {A B} `{OrdKey B} (f : A -> B) (Hf : Inj (=) (=) f) : OrdKey A := {|
  kcmp a b := kcmp (f a) (f b);
|}.
Next Obligation. intros A B ? f Hf a b. cbn. rewrite kcmp_eq. split; [apply Hf|by intros ->]. Qed.
Next Obligation. intros. apply kcmp_antisym. Qed.
Next Obligation. intros A B ? f Hf a b c. apply kcmp_trans. Qed.

(** ** Vectors: [sort] and [dedup] *)

Section vec.
Context {K : Type} `{OrdKey K}.

Fixpoint insert_sorted (x : K) (l : list K) : list K :=
  match l with
  | [] => [x]
  | y :: l' => match kcmp x y with Gt => y :: insert_sorted x l' | _ => x :: l end
  end.

(** [Vec::sort] (equal elements are indistinguishable). *)
Definition vec_sort (l : list K) : list K := foldr insert_sorted [] l.

(** [Vec::dedup]: runs of equal elements shrink to one. *)
Fixpoint vec_dedup (l : list K) : list K :=
  match l with
  | [] => []
  | x :: l' =>
      match l' with
      | y :: _ => match kcmp x y with Eq => vec_dedup l' | _ => x :: vec_dedup l' end
      | [] => [x]
      end
  end.

Definition kle (a b : K) : Prop := kcmp a b <> Gt.

Lemma insert_sorted_elem x l y : y ∈ insert_sorted x l <-> y = x \/ y ∈ l.
Proof.
  induction l as [|z l IH]; cbn; [rewrite list_elem_of_singleton, elem_of_nil; tauto|].
  destruct (kcmp x z); rewrite !elem_of_cons, ?IH; tauto.
Qed.

Lemma vec_sort_elem l y : y ∈ vec_sort l <-> y ∈ l.
Proof. induction l as [|x l IH]; cbn; [done|]. by rewrite insert_sorted_elem, IH, elem_of_cons. Qed.

Lemma vec_dedup_elem l y : y ∈ vec_dedup l <-> y ∈ l.
Proof.
  induction l as [|x l IH]; [done|]. cbn [vec_dedup]. destruct l as [|z l]; [done|].
  destruct (kcmp_cases x z) as [[-> ->]|[[_ ->]|[_ ->]]]; rewrite ?elem_of_cons in *;
    rewrite ?IH; tauto.
Qed.

Lemma insert_sorted_sorted x l : StronglySorted kle l -> StronglySorted kle (insert_sorted x l).
Proof.
  unfold kle. induction 1 as [|y l Hl IH Hy]; cbn; [repeat constructor|].
  destruct (kcmp_cases x y) as [[-> ->]|[[Hlt ->]|[Hgt ->]]].
  - constructor; [by constructor|]. constructor; [by rewrite kcmp_refl|done].
  - constructor; [by constructor|]. constructor; [congruence|].
    eapply Forall_impl; [exact Hy|]. cbn. intros z Hz. rewrite kcmp_gt in *.
    intros Hzx. apply Hz. by eapply klt_trans.
  - constructor; [done|]. apply Forall_forall. intros z Hz%insert_sorted_elem.
    destruct Hz as [->|Hz].
    + unfold klt in Hgt. congruence.
    + rewrite Forall_forall in Hy. by apply Hy.
Qed.

Lemma vec_sort_sorted l : StronglySorted kle (vec_sort l).
Proof. induction l; cbn; [constructor|by apply insert_sorted_sorted]. Qed.

(** A sorted vector, deduplicated, is strictly ascending. *)
Lemma vec_dedup_strict l : StronglySorted kle l -> StronglySorted klt (vec_dedup l).
Proof.
  induction 1 as [|x l Hl IH Hx]; [constructor|]. cbn [vec_dedup].
  destruct l as [|y l]; [repeat constructor|].
  destruct (kcmp_cases x y) as [[-> ->]|[[Hlt ->]|[Hgt ->]]]; [done| |].
  - constructor; [done|]. apply Forall_forall. intros z Hz. apply (proj1 (vec_dedup_elem _ _)) in Hz.
    apply elem_of_cons in Hz as [->|Hz]; [done|].
    inversion Hl as [|? ? _ Hy]; subst. rewrite Forall_forall in Hy. specialize (Hy z Hz).
    unfold kle in Hy. rewrite kcmp_gt in Hy.
    destruct (kcmp_cases y z) as [[-> _]|[[Hyz _]|[Hyz _]]]; [done| |done].
    by eapply klt_trans.
  - apply Forall_cons in Hx as [Hx _]. unfold kle in Hx. rewrite kcmp_gt in Hx. done.
Qed.

End vec.

(** Iterating a set's [insert]. *)
Definition bs_extend {K} `{OrdKey K} (ks : list K) (s : btset K) : btset K :=
  fold_left (fun s k => bs_insert k s) ks s.

Lemma bs_extend_contains {K} `{OrdKey K} (ks : list K) s k :
  bs_contains k (bs_extend ks s) = true <-> k ∈ ks \/ bs_contains k s = true.
Proof.
  unfold bs_extend. revert s. induction ks as [|k0 ks IH]; intros s; cbn.
  - rewrite elem_of_nil. tauto.
  - rewrite IH, bs_contains_insert, elem_of_cons. tauto.
Qed.

(** Values rewritten in place. *)
Section bt_map.
Context {K V W : Type} `{OrdKey K} (g : K -> V -> W).
Implicit Types (m : list (K * V)).

Lemma bt_get_map k m : bt_get k (map (fun kv => (kv.1, g kv.1 kv.2)) m) = g k <$> bt_get k m.
Proof.
  induction m as [|[k' v] m IH]; [done|]. cbn [map bt_get fst snd].
  destruct (kcmp_cases k k') as [[-> ->]|[[_ ->]|[_ ->]]]; done.
Qed.

Lemma sorted_map m : sorted (map (fun kv => (kv.1, g kv.1 kv.2)) m) = sorted m.
Proof.
  unfold sorted. generalize (@None K) as lo. induction m as [|[k v] m IH]; intros lo; [done|].
  cbn. by rewrite IH.
Qed.
End bt_map.
