(* ===== verification/Float64.v ===== *)
(** * Double-precision floats

    An [f64] is its 64-bit pattern ([to_bits]), so [from_bits] and [to_bits]
    are the identity.  Arithmetic and comparison go through the standard
    library's executable IEEE 754 specification ([SpecFloat]). *)
From S2P Require Import Prelude Bytes.
From Stdlib Require Import SpecFloat.
#[local] Open Scope Z_scope.

Definition prec : Z := 53.
Definition emax : Z := 1024.

Definition SIGN : Z := 2 ^ 63.

(** The IEEE 754 reading of a bit pattern. *)
Definition sf_of_bits (x : Z) : spec_float :=
  let s := SIGN <=? x in
  let e := x / 2 ^ 52 mod 2 ^ 11 in
  let m := x mod 2 ^ 52 in
  if e =? 0 then
    match m with Z.pos p => S754_finite s p (-1074) | _ => S754_zero s end
  else if e =? 2047 then
    if m =? 0 then S754_infinity s else S754_nan
  else
    match m + 2 ^ 52 with Z.pos p => S754_finite s p (e - 1075) | _ => S754_nan end.

(** The bit pattern of a canonical float (64 bits by construction: the
    reduction does nothing to a canonical one); a NaN is the quiet one. *)
Definition bits_of_sf (f : spec_float) : Z :=
  let sgn (s : bool) := if s then SIGN else 0 in
  wrap 64
    match f with
    | S754_zero s => sgn s
    | S754_infinity s => sgn s + 2047 * 2 ^ 52
    | S754_nan => 2047 * 2 ^ 52 + 2 ^ 51
    | S754_finite s m e =>
        if Z.pos m <? 2 ^ 52 then sgn s + Z.pos m
        else sgn s + (e + 1075) * 2 ^ 52 + (Z.pos m - 2 ^ 52)
    end.

Lemma bits_of_sf_range f : 0 <= bits_of_sf f < 2 ^ 64.
Proof. by apply Z.mod_pos_bound. Qed.

Definition is_nan (x : Z) : bool :=
  match sf_of_bits x with S754_nan => true | _ => false end.

Definition is_finite (x : Z) : bool :=
  match sf_of_bits x with S754_zero _ | S754_finite _ _ _ => true | _ => false end.

(** [z as f64], rounding to nearest, ties to even. *)
Definition f64_of_int (z : Z) : Z := bits_of_sf (binary_normalize prec emax z 0 false).

Definition f64_add (a b : Z) : Z := bits_of_sf (SFadd prec emax (sf_of_bits a) (sf_of_bits b)).
Definition f64_sub (a b : Z) : Z := bits_of_sf (SFsub prec emax (sf_of_bits a) (sf_of_bits b)).
Definition f64_mul (a b : Z) : Z := bits_of_sf (SFmul prec emax (sf_of_bits a) (sf_of_bits b)).
Definition f64_div (a b : Z) : Z := bits_of_sf (SFdiv prec emax (sf_of_bits a) (sf_of_bits b)).

(** [f64::partial_cmp]. *)
Definition f64_cmp (a b : Z) : option comparison := SFcompare (sf_of_bits a) (sf_of_bits b).

Definition f64_lt (a b : Z) : bool := match f64_cmp a b with Some Lt => true | _ => false end.
Definition f64_le (a b : Z) : bool := match f64_cmp a b with Some (Lt | Eq) => true | _ => false end.

(** [f64::powi] has no specified precision in Rust ("the precision of this
    function is non-deterministic"), so the model takes it as a parameter. *)
Class Powi := powi : Z -> Z -> Z.

(** Repeated squaring, as compiler-rt's [__powidf2] does it: the instance the
    concrete examples run with. *)
Fixpoint powi_loop (fuel : nat) (a : Z) (b : Z) (r : Z) : Z :=
  match fuel with
  | O => r
  | S fuel =>
      let r := if Z.odd b then f64_mul r a else r in
      let b := b / 2 in
      if b =? 0 then r else powi_loop fuel (f64_mul a a) b r
  end.
Definition powi_by_squaring : Powi := fun a n => powi_loop 32 a n (f64_of_int 1).

Example of_int_one : f64_of_int 1 = 1023 * 2 ^ 52.
Proof. reflexivity. Qed.
Example div_example : f64_div (f64_of_int 5) (f64_of_int 4) = 1023 * 2 ^ 52 + 2 ^ 50.
Proof. reflexivity. Qed.

(** ** The sortable form of a bit pattern *)

(** Positives set the sign bit, negatives are inverted. *)
Definition f64_ord (bits : Z) : Z :=
  if Z.land bits SIGN =? 0 then Z.lor bits SIGN else Z.lxor bits (2 ^ 64 - 1).

Lemma land_sign x : 0 <= x < 2 ^ 64 -> Z.land x SIGN = if SIGN <=? x then SIGN else 0.
Proof.
  intros Hx. unfold SIGN. apply Z.bits_inj'. intros i Hi. rewrite Z.land_spec, Z.pow2_bits_eqb by lia.
  destruct (Z.eqb_spec 63 i) as [<-|Hne].
  - rewrite andb_true_r. rewrite Z.testbit_eqb by lia.
    destruct (Z.leb_spec (2 ^ 63) x).
    + replace (x / 2 ^ 63) with 1; [by rewrite Z.pow2_bits_true by lia|].
      apply (Z.div_unique x (2 ^ 63) 1 (x - 2 ^ 63)); lia.
    + rewrite Z.div_small by lia. by rewrite Z.testbit_0_l.
  - rewrite andb_false_r. destruct (2 ^ 63 <=? x); [|by rewrite Z.testbit_0_l].
    by rewrite Z.pow2_bits_false.
Qed.

Lemma lor_disjoint_add a b : Z.land a b = 0 -> Z.lor a b = a + b.
Proof. intros E. pose proof (Z.add_lor_land a b). lia. Qed.

Lemma lxor_ones w x : 0 <= w -> 0 <= x < 2 ^ w -> Z.lxor x (2 ^ w - 1) = 2 ^ w - 1 - x.
Proof.
  intros Hw Hx. assert (Ho : 2 ^ w - 1 = Z.ones w) by (rewrite Z.ones_equiv; lia).
  pose proof (Z.sub_nocarry_ldiff (Z.ones w) x) as Hs. rewrite Ho.
  rewrite Hs.
  - apply Z.bits_inj'. intros i Hi. rewrite Z.lxor_spec, Z.ldiff_spec.
    destruct (Z.lt_ge_cases i w).
    + rewrite Z.ones_spec_low by lia. by destruct (Z.testbit x i).
    + rewrite Z.ones_spec_high by lia. rewrite <- (Z.mod_small x (2 ^ w)) by lia.
      by rewrite Z.mod_pow2_bits_high by lia.
  - apply Z.bits_inj'. intros i Hi. rewrite Z.ldiff_spec, Z.testbit_0_l.
    destruct (Z.lt_ge_cases i w).
    + rewrite Z.ones_spec_low by lia. by rewrite andb_false_r.
    + rewrite <- (Z.mod_small x (2 ^ w)) by lia. by rewrite Z.mod_pow2_bits_high by lia.
Qed.

Lemma lor_sign x : 0 <= x < SIGN -> Z.lor x SIGN = x + SIGN.
Proof.
  intros Hx. apply lor_disjoint_add. rewrite land_sign by (unfold SIGN in *; lia).
  by rewrite (proj2 (Z.leb_gt SIGN x)) by lia.
Qed.

(** The transform in plain arithmetic. *)
Lemma f64_ord_arith x :
  0 <= x < 2 ^ 64 -> f64_ord x = if SIGN <=? x then 2 ^ 64 - 1 - x else x + SIGN.
Proof.
  intros Hx. unfold f64_ord. rewrite land_sign by done.
  destruct (Z.leb_spec SIGN x); cbn [Z.eqb].
  - change (SIGN =? 0) with false. cbn. rewrite lxor_ones by (cbn; lia). done.
  - apply lor_sign. lia.
Qed.

Lemma f64_ord_range x : 0 <= x < 2 ^ 64 -> 0 <= f64_ord x < 2 ^ 64.
Proof.
  intros Hx. rewrite f64_ord_arith by done. unfold SIGN in *.
  destruct (Z.leb_spec (2 ^ 63) x); lia.
Qed.

(** ** Bit order and float order *)

Definition sign_bits (s : bool) : Z := if s then SIGN else 0.

(** Every pattern that is no NaN, by magnitude. *)
Lemma sf_of_bits_cases s x :
  0 <= x < SIGN -> is_nan (x + sign_bits s) = false ->
  (x = 0 /\ sf_of_bits (x + sign_bits s) = S754_zero s)
  \/ (exists p e, sf_of_bits (x + sign_bits s) = S754_finite s p e
        /\ x = (e + 1074) * 2 ^ 52 + Z.pos p /\ -1074 <= e <= 971
        /\ Z.pos p < 2 ^ 53 /\ (2 ^ 52 <= Z.pos p \/ e = -1074))
  \/ (x = 2047 * 2 ^ 52 /\ sf_of_bits (x + sign_bits s) = S754_infinity s).
Proof.
  intros Hx Hnan. unfold is_nan, sf_of_bits in *.
  assert (Hs : (SIGN <=? x + sign_bits s) = s).
  { unfold sign_bits, SIGN in *. destruct s; lia. }
  rewrite Hs in *.
  set (e := (x + sign_bits s) / 2 ^ 52 mod 2 ^ 11) in *.
  set (m := (x + sign_bits s) mod 2 ^ 52) in *.
  assert (He : 0 <= e < 2048) by (apply Z.mod_pos_bound; lia).
  assert (Hm : 0 <= m < 2 ^ 52) by (apply Z.mod_pos_bound; lia).
  assert (Hem : x = e * 2 ^ 52 + m).
  { subst e m. unfold sign_bits, SIGN in *.
    destruct s; [|rewrite Z.add_0_r].
    - change (2 ^ 63) with (2 ^ 11 * 2 ^ 52). rewrite Z.div_add, Z.mod_add by lia.
      replace (2 ^ 11) with (1 * 2 ^ 11) at 1 by lia. rewrite Z.mod_add by lia.
      rewrite Z.mod_small; [pose proof (Z.div_mod x (2 ^ 52)); lia|].
      split; [apply Z.div_pos|apply Z.div_lt_upper_bound]; lia.
    - rewrite Z.mod_small; [pose proof (Z.div_mod x (2 ^ 52)); lia|].
      split; [apply Z.div_pos|apply Z.div_lt_upper_bound]; lia. }
  clearbody e m. clear Hs. destruct (Z.eqb_spec e 0) as [->|].
  - destruct m as [|p|p]; [left; by split; [lia|]|right; left|lia].
    exists p, (-1074). split_and!; try lia; done.
  - destruct (Z.eqb_spec e 2047) as [->|].
    + destruct (Z.eqb_spec m 0) as [Hm0|]; [|done]. right; right. split; [lia|done].
    + right; left. destruct (m + 2 ^ 52) as [|p|p] eqn:Ep; [lia| |lia].
      exists p, (e - 1075). split_and!; try lia; done.
Qed.

Lemma pos_compare_Z p q : Pos.compare p q = Z.compare (Z.pos p) (Z.pos q).
Proof. done. Qed.

Lemma mag_compare e1 p1 e2 p2 :
  -1074 <= e1 -> -1074 <= e2 -> Z.pos p1 < 2 ^ 53 -> Z.pos p2 < 2 ^ 53 ->
  2 ^ 52 <= Z.pos p1 \/ e1 = -1074 -> 2 ^ 52 <= Z.pos p2 \/ e2 = -1074 ->
  Z.compare ((e1 + 1074) * 2 ^ 52 + Z.pos p1) ((e2 + 1074) * 2 ^ 52 + Z.pos p2) =
  match Z.compare e1 e2 with Eq => Pos.compare p1 p2 | c => c end.
Proof.
  intros. destruct (Z.compare_spec e1 e2) as [->| |].
  - rewrite pos_compare_Z. destruct (Z.compare_spec (Z.pos p1) (Z.pos p2)); solve_compare.
  - solve_compare.
  - solve_compare.
Qed.

Definition flip (s : bool) (c : comparison) : comparison := if s then CompOpp c else c.

(** Float comparison of two patterns that are no NaN, by sign and magnitude. *)
Lemma f64_cmp_mag s1 x1 s2 x2 :
  0 <= x1 < SIGN -> 0 <= x2 < SIGN ->
  is_nan (x1 + sign_bits s1) = false -> is_nan (x2 + sign_bits s2) = false ->
  f64_cmp (x1 + sign_bits s1) (x2 + sign_bits s2) =
  Some (if Bool.eqb s1 s2 then flip s1 (Z.compare x1 x2)
        else if (x1 =? 0) && (x2 =? 0) then Eq else if s1 then Lt else Gt).
Proof.
  intros Hx1 Hx2 N1 N2. unfold f64_cmp.
  destruct (sf_of_bits_cases s1 x1 Hx1 N1)
    as [[-> ->]|[(p1 & e1 & -> & -> & He1 & Hp1 & Hn1)|[-> ->]]];
  destruct (sf_of_bits_cases s2 x2 Hx2 N2)
    as [[-> ->]|[(p2 & e2 & -> & -> & He2 & Hp2 & Hn2)|[-> ->]]];
  cbn [SFcompare]; f_equal;
  repeat match goal with
  | |- context [(?a =? ?b) && (?c =? ?d)] =>
      destruct (Z.eqb_spec a b); destruct (Z.eqb_spec c d); try lia; cbn [andb]
  end; destruct s1, s2; cbn [Bool.eqb flip]; try done; try (by rewrite Z.compare_refl);
  try (rewrite mag_compare by lia; unfold Pos.compare;
       destruct (Z.compare e1 e2); done);
  try (symmetry; solve_compare);
  match goal with
  | |- _ = CompOpp ?c =>
      first [replace c with Lt by (symmetry; solve_compare)
            |replace c with Gt by (symmetry; solve_compare)]; done
  end.
Qed.

(** The sortable form orders floats as [partial_cmp] does, with [-0.0] before
    [0.0] where [partial_cmp] calls them equal. *)
Lemma f64_ord_compare s1 x1 s2 x2 :
  0 <= x1 < SIGN -> 0 <= x2 < SIGN ->
  Z.compare (f64_ord (x1 + sign_bits s1)) (f64_ord (x2 + sign_bits s2)) =
  if Bool.eqb s1 s2 then flip s1 (Z.compare x1 x2) else if s1 then Lt else Gt.
Proof.
  intros Hx1 Hx2.
  rewrite !f64_ord_arith by (unfold sign_bits, SIGN in *; destruct s1, s2; lia).
  assert (E : forall s x, 0 <= x < SIGN -> (SIGN <=? x + sign_bits s) = s).
  { intros s x Hx. unfold sign_bits, SIGN in *. destruct s; lia. }
  rewrite !E by done. unfold sign_bits, SIGN in *.
  destruct s1, s2; cbn [Bool.eqb flip]; try solve_compare;
    destruct (Z.compare_spec x1 x2); cbn [CompOpp]; solve_compare.
Qed.

Lemma f64_split x :
  0 <= x < 2 ^ 64 -> exists s y, 0 <= y < SIGN /\ x = y + sign_bits s.
Proof.
  intros Hx. exists (SIGN <=? x). unfold sign_bits.
  destruct (Z.leb_spec SIGN x); [exists (x - SIGN)|exists x]; unfold SIGN in *; lia.
Qed.

Definition is_zero (x : Z) : bool := (x =? 0) || (x =? SIGN).

Lemma f64_ord_spec a b :
  0 <= a < 2 ^ 64 -> 0 <= b < 2 ^ 64 -> is_nan a = false -> is_nan b = false ->
  f64_cmp a b =
  Some (if is_zero a && is_zero b then Eq else Z.compare (f64_ord a) (f64_ord b)).
Proof.
  intros Ha Hb Na Nb.
  destruct (f64_split a Ha) as (s1 & x1 & Hx1 & ->), (f64_split b Hb) as (s2 & x2 & Hx2 & ->).
  rewrite f64_cmp_mag, f64_ord_compare by done.
  assert (Hz : forall s x, 0 <= x < SIGN -> is_zero (x + sign_bits s) = (x =? 0)).
  { intros s x Hx. unfold is_zero, sign_bits, SIGN in *. destruct s; lia. }
  rewrite !Hz by done. f_equal.
  destruct (Z.eqb_spec x1 0) as [->|], (Z.eqb_spec x2 0) as [->|]; cbn [andb]; try done.
  destruct s1, s2; done.
Qed.
