(* ===== verification/Decimal.v ===== *)
(** * Decimals

    [Decimal] of [crates/skaidb-types/src/value.rs]: an [i128] mantissa and a
    [u32] scale, its exact normal form, canonical bytes, text and comparisons;
    and the C ABI's decimal text of [crates/skaidb-ffi/src/lib.rs]. *)
From S2P Require Import Prelude Bytes Text Float64.
#[local] Open Scope Z_scope.

Record Decimal := { mantissa : Z; scale : Z }.

#[export] Instance decimal_eq_dec : EqDecision Decimal.
Proof. solve_decision. Defined.

Definition wf_decimal (d : Decimal) : bool := is_sint 128 d.(mantissa) && is_uint 32 d.(scale).

Definition MAX_PLAIN_SCALE : Z := 1000.

(** [to_f64]: [powi] takes an [i32]; the scale is clamped first. *)
Definition to_f64 `{Powi} (d : Decimal) : Z :=
  let scale := Z.min d.(scale) (2 * MAX_PLAIN_SCALE) in
  f64_div (f64_of_int d.(mantissa)) (powi (f64_of_int 10) scale).

(** The [while] loop of [normalized]; each turn divides the mantissa by ten. *)
Fixpoint normalize_loop (fuel : nat) (m s : Z) : Z * Z :=
  match fuel with
  | O => (m, s)
  | S fuel =>
      if (0 <? s) && (Z.rem m 10 =? 0) then normalize_loop fuel (Z.quot m 10) (s - 1)
      else (m, s)
  end.

Definition normalized (d : Decimal) : Decimal :=
  if d.(mantissa) =? 0 then {| mantissa := 0; scale := 0 |}
  else
    let '(m, s) :=
      normalize_loop (S (Z.to_nat (Z.log2 (Z.abs d.(mantissa))))) d.(mantissa) d.(scale) in
    {| mantissa := m; scale := s |}.

Definition exact_bytes (d : Decimal) : bytes :=
  let n := normalized d in be_bytes 16 n.(mantissa) ++ be_bytes 4 n.(scale).

(** [Display]: positional up to [MAX_PLAIN_SCALE], scientific past it. *)
Definition decimal_display (d : Decimal) : bytes :=
  if d.(scale) =? 0 then
    (if d.(mantissa) <? 0 then str "-" else []) ++ to_dec (Z.abs d.(mantissa))
  else
    let sign := if d.(mantissa) <? 0 then str "-" else [] in
    let digits := to_dec (Z.abs d.(mantissa)) in
    if MAX_PLAIN_SCALE <? d.(scale) then sign ++ digits ++ str "E-" ++ to_dec d.(scale)
    else
      let scale := Z.to_nat d.(scale) in
      if (length digits <=? scale)%nat then
        sign ++ str "0." ++ replicate (scale - length digits) (byte_of 48) ++ digits
      else
        let split := (length digits - scale)%nat in
        sign ++ take split digits ++ str "." ++ drop split digits.

(** ** Comparisons *)

(** [10i128.checked_pow(n)]: [10^38] is the largest power that fits. *)
Definition checked_pow10 (n : Z) : option Z := if n <=? 38 then Some (10 ^ n) else None.

Definition checked_mul (w a b : Z) : option Z := if is_sint w (a * b) then Some (a * b) else None.
Definition checked_add (w a b : Z) : option Z := if is_sint w (a + b) then Some (a + b) else None.

Definition cmp_i64_decimal (i : Z) (d : Decimal) : comparison :=
  let '(whole, frac) :=
    match checked_pow10 d.(scale) with
    | Some pow => (Z.quot d.(mantissa) pow, Z.rem d.(mantissa) pow)
    | None => (0, d.(mantissa))
    end in
  match Z.compare i whole with
  | Eq => Z.compare 0 frac
  | other => other
  end.

Definition cmp_decimal (a b : Decimal) : comparison :=
  if a.(scale) =? b.(scale) then Z.compare a.(mantissa) b.(mantissa)
  else
    let '(small, large, flip) :=
      if a.(scale) <? b.(scale) then (a, b, false) else (b, a, true) in
    let scaled :=
      match checked_pow10 (large.(scale) - small.(scale)) with
      | Some pow => checked_mul 128 small.(mantissa) pow
      | None => None
      end in
    let ord :=
      match scaled with
      | Some m => Z.compare m large.(mantissa)
      | None =>
          if small.(mantissa) =? 0 then Z.compare 0 large.(mantissa)
          else Z.compare small.(mantissa) 0
      end in
    if flip then CompOpp ord else ord.

(** ** The C ABI's text form *)

(** The encodings of Unicode [White_Space], which [str::trim] strips. *)
Definition white_spaces : list bytes :=
  map (fun b => [byte_of b]) [9; 10; 11; 12; 13; 32]
  ++ map (map byte_of)
       ([[194; 133]; [194; 160]; [225; 154; 128]; [226; 128; 168]; [226; 128; 169];
         [226; 128; 175]; [226; 129; 159]; [227; 128; 128]]
        ++ map (fun i => [226; 128; 128 + i]) [0; 1; 2; 3; 4; 5; 6; 7; 8; 9; 10]).

Fixpoint strip_prefix (p s : bytes) : option bytes :=
  match p, s with
  | [], _ => Some s
  | x :: p, y :: s => if decide (x = y) then strip_prefix p s else None
  | _, [] => None
  end.

Fixpoint first_some {A B} (f : A -> option B) (l : list A) : option B :=
  match l with
  | [] => None
  | a :: l => match f a with Some b => Some b | None => first_some f l end
  end.

Fixpoint trim_start_with (ws : list bytes) (fuel : nat) (s : bytes) : bytes :=
  match fuel with
  | O => s
  | S fuel =>
      match first_some (fun w => strip_prefix w s) ws with
      | Some s' => trim_start_with ws fuel s'
      | None => s
      end
  end.

(** [str::trim]. *)
Definition trim (s : bytes) : bytes :=
  let s := trim_start_with white_spaces (length s) s in
  rev (trim_start_with (map (@rev byte) white_spaces) (length s) (rev s)).

Fixpoint read_mantissa (acc : Z) (s : bytes) : option Z :=
  match s with
  | [] => Some acc
  | c :: s =>
      match checked_mul 128 acc 10 with
      | Some x =>
          match checked_add 128 x (u8 c - 48) with
          | Some acc => read_mantissa acc s
          | None => None
          end
      | None => None
      end
  end.

Definition parse_decimal (text : bytes) : option Decimal :=
  let t := trim text in
  let '(neg, digits) :=
    match strip_prefix (str "-") t with
    | Some rest => (true, rest)
    | None => (false, match strip_prefix (str "+") t with Some r => r | None => t end)
    end in
  let '(int_part, frac_part) :=
    match split_once (byte_of 46) digits with Some p => p | None => (digits, []) end in
  match int_part, frac_part with
  | [], [] => None
  | _, _ =>
      if negb (forallb is_dec_digit int_part) || negb (forallb is_dec_digit frac_part) then None
      else
        match read_mantissa 0 (int_part ++ frac_part) with
        | None => None
        | Some m =>
            let m := if neg : bool then - m else m in
            if is_uint 32 (Z.of_nat (length frac_part))
            then Some {| mantissa := m; scale := Z.of_nat (length frac_part) |}
            else None
        end
  end.

Definition decimal_text (d : Decimal) : bytes :=
  let neg := d.(mantissa) <? 0 in
  let digits := to_dec (Z.abs d.(mantissa)) in
  let scale := Z.to_nat d.(scale) in
  let body :=
    if (scale =? 0)%nat then digits
    else if (scale <? length digits)%nat then
      take (length digits - scale) digits ++ str "." ++ drop (length digits - scale) digits
    else str "0." ++ replicate (scale - length digits) (byte_of 48) ++ digits in
  if neg then str "-" ++ body else body.

Example display_1 : decimal_display {| mantissa := 12345; scale := 2 |} = str "123.45".
Proof. reflexivity. Qed.
Example display_2 : decimal_display {| mantissa := -5; scale := 3 |} = str "-0.005".
Proof. reflexivity. Qed.
Example display_3 : decimal_display {| mantissa := -15; scale := 2 ^ 32 - 1 |} = str "-15E-4294967295".
Proof. vm_compute. reflexivity. Qed.
Example normalized_1 : normalized {| mantissa := -250; scale := 2 |} = {| mantissa := -25; scale := 1 |}.
Proof. reflexivity. Qed.
Example parse_1 : parse_decimal (str " +1.50 ") = Some {| mantissa := 150; scale := 2 |}.
Proof. vm_compute. reflexivity. Qed.

(** ** The number a decimal denotes *)

(** [a] and [b] are one number: [a.mantissa / 10^a.scale = b.mantissa / 10^b.scale]. *)
Definition same_number (a b : Decimal) : Prop :=
  a.(mantissa) * 10 ^ b.(scale) = b.(mantissa) * 10 ^ a.(scale).

(** The order of the two numbers, without division. *)
Definition number_cmp (a b : Decimal) : comparison :=
  Z.compare (a.(mantissa) * 10 ^ b.(scale)) (b.(mantissa) * 10 ^ a.(scale)).

Lemma wf_decimal_spec d :
  wf_decimal d = true <-> (- 2 ^ 127 <= d.(mantissa) < 2 ^ 127) /\ (0 <= d.(scale) < 2 ^ 32).
Proof.
  unfold wf_decimal. rewrite andb_true_iff, is_sint_spec, is_uint_spec.
  change (128 - 1) with 127. tauto.
Qed.

Lemma pow10_pos n : 0 < 10 ^ n \/ n < 0.
Proof. destruct (Z.lt_ge_cases n 0); [by right|left; by apply Z.pow_pos_nonneg]. Qed.

Lemma pow10_le_mono a b : 0 <= a <= b -> 10 ^ a <= 10 ^ b.
Proof. intros. apply Z.pow_le_mono_r; lia. Qed.

Lemma rem10_0 m : Z.rem m 10 = 0 <-> exists q, m = 10 * q.
Proof.
  split.
  - intros E. exists (Z.quot m 10). pose proof (Z.quot_rem' m 10). lia.
  - intros [q ->]. rewrite Z.mul_comm. by apply Z.rem_mul.
Qed.

(** A normal form: zero with scale zero, or nothing left to drop. *)
Definition is_normal (m s : Z) : Prop :=
  (m = 0 -> s = 0) /\ (s = 0 \/ Z.rem m 10 <> 0) /\ 0 <= s.

Lemma normalize_loop_spec fuel m s m' s' :
  m <> 0 -> Z.abs m < 2 ^ Z.of_nat fuel -> 0 <= s ->
  normalize_loop fuel m s = (m', s') ->
  m = m' * 10 ^ (s - s') /\ 0 <= s' <= s /\ m' <> 0 /\ (s' = 0 \/ Z.rem m' 10 <> 0).
Proof.
  revert m s. induction fuel as [|fuel IH]; intros m s Hm Hf Hs; [cbn in Hf; lia|].
  cbn [normalize_loop]. destruct (Z.ltb_spec 0 s) as [Hs0|Hs0]; cbn [andb].
  2:{ intros [= <- <-]. assert (s = 0) as -> by lia. rewrite Z.sub_diag, Z.pow_0_r. lia. }
  destruct (Z.eqb_spec (Z.rem m 10) 0) as [Hr|Hr].
  2:{ intros [= <- <-]. rewrite Z.sub_diag, Z.pow_0_r. lia. }
  apply rem10_0 in Hr as [q ->]. rewrite (Z.mul_comm 10 q), Z.quot_mul by lia.
  rewrite Nat2Z.inj_succ, Z.pow_succ_r in Hf by lia.
  intros (E & Hs' & Hm' & Hn)%IH; [|lia..].
  split_and!; try done; try lia. rewrite E at 1.
  replace (s - s') with (Z.succ (s - 1 - s')) by lia. rewrite Z.pow_succ_r by lia. lia.
Qed.

Lemma normalized_spec d :
  wf_decimal d = true ->
  let n := normalized d in
  same_number d n /\ is_normal n.(mantissa) n.(scale) /\ wf_decimal n = true.
Proof.
  intros Hd%wf_decimal_spec. unfold normalized, same_number, is_normal.
  destruct (Z.eqb_spec d.(mantissa) 0) as [->|Hm]; [cbn; split_and!; auto; lia|].
  destruct normalize_loop as [m s] eqn:E. cbn zeta.
  apply normalize_loop_spec in E as (E & Hs & Hm' & Hn); [|done| |lia].
  - cbn [mantissa scale]. rewrite wf_decimal_spec. cbn [mantissa scale].
    pose proof (Z.pow_pos_nonneg 10 (d.(scale) - s)).
    split_and!; try tauto; try nia.
    rewrite E, <- Z.mul_assoc, <- Z.pow_add_r by lia. do 2 f_equal. lia.
  - rewrite Nat2Z.inj_succ, Z2Nat.id by apply Z.log2_nonneg.
    apply Z.log2_spec. lia.
Qed.

Lemma normal_unique m1 s1 m2 s2 :
  is_normal m1 s1 -> is_normal m2 s2 -> m1 * 10 ^ s2 = m2 * 10 ^ s1 -> m1 = m2 /\ s1 = s2.
Proof.
  assert (Hw : forall a s b t, is_normal a s -> is_normal b t -> s <= t ->
                 a * 10 ^ t = b * 10 ^ s -> a = b /\ s = t).
  { intros a s b t (Ha0 & Ha & Hs) (Hb0 & Hb & Ht) Hst E.
    assert (E' : b = a * 10 ^ (t - s)).
    { pose proof (Z.pow_pos_nonneg 10 s ltac:(lia) ltac:(lia)).
      apply (Z.mul_cancel_r _ _ (10 ^ s)); [lia|].
      rewrite <- E, <- Z.mul_assoc, <- Z.pow_add_r by lia. do 2 f_equal. lia. }
    destruct (Z.eq_dec s t) as [->|Hne]; [rewrite Z.sub_diag, Z.pow_0_r in E'; lia|].
    destruct Hb as [|Hb]; [lia|]. exfalso. apply Hb, rem10_0.
    exists (a * 10 ^ (t - s - 1)). rewrite E'.
    replace (t - s) with (Z.succ (t - s - 1)) at 1 by lia. rewrite Z.pow_succ_r by lia. lia. }
  intros N1 N2 E. destruct (Z.le_gt_cases s1 s2); [by apply Hw|].
  destruct (Hw m2 s2 m1 s1) as [-> ->]; auto; lia.
Qed.

Lemma cross_mul a b m n pa pb pm pn :
  a * pm = m * pa -> b * pn = n * pb -> a * pb = b * pa ->
  m * pn * (pa * pb) = n * pm * (pa * pb).
Proof.
  intros E1 E2 E3. transitivity ((m * pa) * (pn * pb)); [ring|]. rewrite <- E1.
  transitivity ((a * pb) * (pm * pn)); [ring|]. rewrite E3.
  transitivity ((b * pn) * (pa * pm)); [ring|]. rewrite E2. ring.
Qed.

Lemma cross_mul' n a b pa pb pn :
  a * pn = n * pa -> b * pn = n * pb -> a * pb * pn = b * pa * pn.
Proof.
  intros E1 E2. transitivity ((a * pn) * pb); [ring|]. rewrite E1.
  transitivity ((n * pb) * pa); [ring|]. rewrite <- E2. ring.
Qed.

Lemma same_number_normalized a b :
  wf_decimal a = true -> wf_decimal b = true ->
  same_number a b <-> normalized a = normalized b.
Proof.
  intros Wa Wb. pose proof (normalized_spec a Wa) as (Ea & Na & Va).
  pose proof (normalized_spec b Wb) as (Eb & Nb & Vb).
  apply wf_decimal_spec in Wa, Wb, Va, Vb. unfold same_number in *.
  assert (Hp : forall n, 0 <= n -> 0 < 10 ^ n) by (intros; by apply Z.pow_pos_nonneg).
  pose proof (Hp a.(scale)). pose proof (Hp b.(scale)).
  split.
  - intros E. destruct (normal_unique _ _ _ _ Na Nb) as [E1 E2].
    { pose proof (Hp (normalized a).(scale)). pose proof (Hp (normalized b).(scale)).
      apply (Z.mul_cancel_r _ _ (10 ^ a.(scale) * 10 ^ b.(scale))); [nia|].
      by apply (cross_mul a.(mantissa) b.(mantissa)). }
    destruct (normalized a), (normalized b); cbn in *; congruence.
  - intros E. rewrite E in Ea. pose proof (Hp (normalized b).(scale)).
    apply (Z.mul_cancel_r _ _ (10 ^ (normalized b).(scale))); [lia|].
    by apply (cross_mul' (normalized b).(mantissa)).
Qed.

Lemma exact_bytes_length d : length (exact_bytes d) = 20%nat.
Proof. unfold exact_bytes. by rewrite length_app, !be_bytes_length. Qed.

Lemma be_bytes_inj n w a b :
  256 ^ Z.of_nat n = 2 ^ w -> 0 < w ->
  (is_sint w a = true /\ is_sint w b = true \/ is_uint w a = true /\ is_uint w b = true) ->
  be_bytes n a = be_bytes n b -> a = b.
Proof.
  intros Hn Hw Hr E. apply (f_equal be_val) in E. rewrite !be_val_bytes, Hn in E.
  destruct Hr as [[Ha Hb]|[Ha%is_uint_spec Hb%is_uint_spec]].
  - by rewrite <- (sint_mod w a), <- (sint_mod w b), E.
  - by rewrite !Z.mod_small in E.
Qed.

Lemma exact_bytes_inj a b :
  wf_decimal a = true -> wf_decimal b = true ->
  exact_bytes a = exact_bytes b -> normalized a = normalized b.
Proof.
  intros Wa Wb E. pose proof (normalized_spec a Wa) as (_ & _ & Va).
  pose proof (normalized_spec b Wb) as (_ & _ & Vb). unfold wf_decimal in Va, Vb.
  apply andb_true_iff in Va as [], Vb as [].
  unfold exact_bytes in E. apply app_inj_1 in E as [E1 E2]; [|by rewrite !be_bytes_length].
  apply (be_bytes_inj 16 128) in E1; [|done|lia|by left].
  apply (be_bytes_inj 4 32) in E2; [|done|lia|by right].
  destruct (normalized a), (normalized b); cbn in *; congruence.
Qed.

(** ** Comparisons are exact *)

Lemma pow38_fits : 10 ^ 38 < 2 ^ 127.
Proof. by apply Z.ltb_lt. Qed.

Lemma pow39_overflows : 2 ^ 127 < 10 ^ 39.
Proof. by apply Z.ltb_lt. Qed.

Lemma checked_pow10_spec n :
  0 <= n -> checked_pow10 n = if is_sint 128 (10 ^ n) then Some (10 ^ n) else None.
Proof.
  intros Hn. unfold checked_pow10. destruct (Z.leb_spec n 38).
  - replace (is_sint 128 (10 ^ n)) with true; [done|]. symmetry. apply is_sint_spec.
    pose proof (pow10_le_mono n 38). change (128 - 1) with 127.
    pose proof pow38_fits. pose proof (Z.pow_pos_nonneg 10 n). lia.
  - destruct (is_sint 128 (10 ^ n)) eqn:E; [|done]. apply is_sint_spec in E.
    pose proof (pow10_le_mono 39 n). change (128 - 1) with 127 in E.
    pose proof pow39_overflows. lia.
Qed.

Lemma cmp_i64_decimal_exact_aux i m s :
  - 2 ^ 127 <= m < 2 ^ 127 -> 0 <= s ->
  cmp_i64_decimal i {| mantissa := m; scale := s |} = Z.compare (i * 10 ^ s) m.
Proof.
  intros Hm Hs. unfold cmp_i64_decimal, checked_pow10. cbn [mantissa scale].
  pose proof (Z.pow_pos_nonneg 10 s ltac:(lia) Hs) as Hp.
  destruct (Z.leb_spec s 38) as [H38|H38].
  - pose proof (Z.quot_rem' m (10 ^ s)) as Hqr.
    assert (Hr : Z.abs (Z.rem m (10 ^ s)) < 10 ^ s).
    { rewrite <- (Z.abs_eq (10 ^ s)) at 2 by lia. apply Z.rem_bound_abs. lia. }
    set (q := Z.quot m (10 ^ s)) in *. set (r := Z.rem m (10 ^ s)) in *.
    clearbody q r. clear Hm. revert Hp Hqr Hr. generalize (10 ^ s). intros p Hp Hqr Hr.
    destruct (Z.compare_spec i q) as [->|Hlt|Hgt].
    + destruct (Z.compare_spec 0 r); symmetry; solve_compare.
    + pose proof (Z.mul_le_mono_nonneg_r i (q - 1) p). symmetry. solve_compare.
    + pose proof (Z.mul_le_mono_nonneg_r (q + 1) i p). symmetry. solve_compare.
  - pose proof pow39_overflows. pose proof (pow10_le_mono 39 s ltac:(lia)).
    assert (Hb : Z.abs m < 10 ^ s) by lia.
    clear Hm. revert Hp Hb. generalize (10 ^ s). intros p Hp Hb.
    destruct (Z.compare_spec i 0) as [->|Hlt|Hgt].
    + by rewrite Z.mul_0_l.
    + pose proof (Z.mul_le_mono_nonneg_r i (-1) p). symmetry. solve_compare.
    + pose proof (Z.mul_le_mono_nonneg_r 1 i p). symmetry. solve_compare.
Qed.

(** The rescaling branch, for the smaller scale first. *)
Lemma cmp_rescaled m1 m2 d :
  - 2 ^ 127 <= m1 < 2 ^ 127 -> - 2 ^ 127 <= m2 < 2 ^ 127 -> 0 <= d ->
  match match checked_pow10 d with Some pow => checked_mul 128 m1 pow | None => None end with
  | Some m => Z.compare m m2
  | None => if m1 =? 0 then Z.compare 0 m2 else Z.compare m1 0
  end = Z.compare (m1 * 10 ^ d) m2.
Proof.
  intros H1 H2 Hd. pose proof (Z.pow_pos_nonneg 10 d ltac:(lia) Hd) as Hp.
  assert (Hbig : forall x, ~ (- 2 ^ 127 <= m1 * x < 2 ^ 127) -> 0 < x -> x <= 10 ^ d ->
    (if m1 =? 0 then Z.compare 0 m2 else Z.compare m1 0) = Z.compare (m1 * 10 ^ d) m2).
  { intros x Hx Hx0 Hxd. destruct (Z.eqb_spec m1 0) as [->|]; [lia|].
    destruct (Z.compare_spec m1 0) as [|Hlt|Hgt]; [lia|..]; symmetry.
    - pose proof (Z.mul_le_mono_nonpos_l x (10 ^ d) m1). pose proof (Z.mul_neg_pos m1 x).
      solve_compare.
    - pose proof (Z.mul_le_mono_nonneg_l x (10 ^ d) m1). pose proof (Z.mul_pos_pos m1 x).
      solve_compare. }
  unfold checked_pow10. destruct (Z.leb_spec d 38).
  - unfold checked_mul. destruct (is_sint 128 (m1 * 10 ^ d)) eqn:E; [done|].
    apply (Hbig (10 ^ d)); [|lia..]. intros Hc. apply not_true_iff_false in E. apply E.
    by apply is_sint_spec.
  - pose proof pow39_overflows. pose proof (pow10_le_mono 39 d ltac:(lia)).
    destruct (Z.eq_dec m1 0) as [->|]; [by rewrite Z.mul_0_l|].
    apply (Hbig (10 ^ 39)); [|lia..]. clear Hbig. lia.
Qed.

Lemma cmp_decimal_aux a b :
  wf_decimal a = true -> wf_decimal b = true -> cmp_decimal a b = number_cmp a b.
Proof.
  intros Wa%wf_decimal_spec Wb%wf_decimal_spec. unfold cmp_decimal, number_cmp.
  assert (Hp : forall n, 0 <= n -> 0 < 10 ^ n) by (intros; by apply Z.pow_pos_nonneg).
  assert (Hc : forall x y p, 0 < p -> Z.compare (x * p) (y * p) = Z.compare x y).
  { intros x y p ?. destruct (Z.compare_spec x y) as [->| |];
      [apply Z.compare_refl|rewrite Z.compare_lt_iff|rewrite Z.compare_gt_iff];
      by apply Z.mul_lt_mono_pos_r. }
  destruct (Z.eqb_spec a.(scale) b.(scale)) as [E|Hne].
  - rewrite E, Hc; auto. apply Hp. lia.
  - destruct (Z.ltb_spec a.(scale) b.(scale)); rewrite cmp_rescaled by lia.
    + rewrite <- (Hc _ _ (10 ^ a.(scale))) by (apply Hp; lia).
      rewrite <- Z.mul_assoc, <- Z.pow_add_r by lia. f_equal. f_equal. f_equal. lia.
    + rewrite <- (Hc _ _ (10 ^ b.(scale))) by (apply Hp; lia).
      rewrite <- Z.mul_assoc, <- Z.pow_add_r by lia. rewrite <- Z.compare_antisym.
      f_equal. f_equal. f_equal. lia.
Qed.

(** ** Reading back the C ABI's text *)

Lemma digit_val b : is_dec_digit b = true -> dec_val b = Some (u8 b - 48).
Proof. unfold is_dec_digit, in_range, dec_val. intros H. by rewrite H. Qed.

Lemma read_mantissa_radix acc s v :
  0 <= acc -> Forall (fun b => is_dec_digit b = true) s ->
  radix_digits 10 dec_val acc s = Some v -> v < 2 ^ 127 ->
  read_mantissa acc s = Some v /\ acc <= v.
Proof.
  revert acc. induction s as [|b s IH]; intros acc Hacc Hs; cbn [radix_digits read_mantissa].
  - intros [= ->] _. split; [done|lia].
  - inversion Hs as [|? ? Hb Hs']; subst. rewrite digit_val by done. intros Hr Hv.
    unfold is_dec_digit, in_range in Hb.
    destruct (IH (acc * 10 + (u8 b - 48))) as [E ?]; [lia|done..|].
    assert (Hx : forall x, 0 <= x <= v -> is_sint 128 x = true)
      by (intros x Hx; apply is_sint_spec; change (128 - 1) with 127; lia).
    unfold checked_mul, checked_add. rewrite !Hx by lia. split; [exact E|lia].
Qed.

Lemma read_mantissa_overflow acc s v :
  0 <= acc -> Forall (fun b => is_dec_digit b = true) s ->
  radix_digits 10 dec_val acc s = Some v -> 2 ^ 127 <= v -> acc < 2 ^ 127 ->
  read_mantissa acc s = None.
Proof.
  revert acc. induction s as [|b s IH]; intros acc Hacc Hs; cbn [radix_digits read_mantissa].
  - intros [= ->]. lia.
  - inversion Hs as [|? ? Hb Hs']; subst. rewrite digit_val by done. intros Hr Hv Ha.
    unfold is_dec_digit, in_range in Hb. unfold checked_mul, checked_add.
    destruct (is_sint 128 (acc * 10)); [|done].
    destruct (is_sint 128 (acc * 10 + (u8 b - 48))) eqn:E; [|done].
    apply is_sint_spec in E. change (128 - 1) with 127 in E. apply IH; [lia|done..|lia].
Qed.

(** No white space starts or ends with a digit or a minus sign. *)
Definition plain (b : byte) : bool := is_dec_digit b || bool_decide (b = minus_sign).

Lemma no_space_prefix ws b s :
  Forall (fun w => match w with [] => False | x :: _ => plain x = false end) ws ->
  plain b = true -> first_some (fun w => strip_prefix w (b :: s)) ws = None.
Proof.
  induction 1 as [|[|x w] ws Hx Hws IH]; intros Hb; cbn; [done|done|].
  rewrite decide_False by (intros ->; congruence). auto.
Qed.

Lemma spaces_plain :
  Forall (fun w => match w with [] => False | x :: _ => plain x = false end) white_spaces
  /\ Forall (fun w => match w with [] => False | x :: _ => plain x = false end)
            (map (@rev byte) white_spaces).
Proof. split; repeat constructor. Qed.

Lemma trim_start_plain ws n b s :
  Forall (fun w => match w with [] => False | x :: _ => plain x = false end) ws ->
  plain b = true -> trim_start_with ws n (b :: s) = b :: s.
Proof. intros. destruct n; cbn; [done|]. by rewrite no_space_prefix. Qed.

Lemma trim_plain s b c s1 s2 :
  s = b :: s1 -> s = s2 ++ [c] -> plain b = true -> plain c = true -> trim s = s.
Proof.
  intros E1 E2 Hb Hc. destruct spaces_plain as [Hp Hr].
  assert (H1 : forall n, trim_start_with white_spaces n s = s).
  { intros. rewrite E1. by apply trim_start_plain. }
  assert (H2 : forall n, trim_start_with (map (@rev byte) white_spaces) n (rev s) = rev s).
  { intros. rewrite E2, rev_unit. by apply trim_start_plain. }
  unfold trim. rewrite H1. cbn zeta. rewrite H2. apply rev_involutive.
Qed.

Lemma trim_digits s sg :
  s <> [] -> Forall (fun b => is_dec_digit b = true) [List.last s x00] ->
  plain (hd x00 s) = true -> (sg = [] \/ sg = [minus_sign]) -> trim (sg ++ s) = sg ++ s.
Proof.
  intros Hs Hl Hh Hsg. inversion Hl; subst.
  assert (E : s = removelast s ++ [List.last s x00]) by by apply app_removelast_last.
  destruct s as [|b s]; [done|].
  assert (plain (List.last (b :: s) x00) = true) by (unfold plain; by rewrite H1).
  destruct Hsg as [-> | ->].
  - by eapply trim_plain.
  - eapply (trim_plain _ minus_sign _ _ (minus_sign :: removelast (b :: s))); [done| |done|done].
    cbn [app]. f_equal. exact E.
Qed.

Lemma radix_digits_app radix val s t acc :
  radix_digits radix val acc (s ++ t) =
  match radix_digits radix val acc s with Some v => radix_digits radix val v t | None => None end.
Proof.
  revert acc. induction s as [|b s IH]; intros acc; cbn; [done|].
  destruct (val b); [apply IH|done].
Qed.

Lemma radix_zeros n s : radix_digits 10 dec_val 0 (replicate n (byte_of 48) ++ s) = radix_digits 10 dec_val 0 s.
Proof. induction n; cbn; [done|]. exact IHn. Qed.

(** The digits of the text form: an integral and a fractional part. *)
Definition text_parts (d : Decimal) : bytes * bytes :=
  let digits := to_dec (Z.abs d.(mantissa)) in
  let s := Z.to_nat d.(scale) in
  if (s <? length digits)%nat then
    (take (length digits - s) digits, drop (length digits - s) digits)
  else ([byte_of 48], replicate (s - length digits) (byte_of 48) ++ digits).

Definition sign_text (d : Decimal) : bytes := if d.(mantissa) <? 0 then [minus_sign] else [].

Definition frac_text (f : bytes) : bytes :=
  match f with [] => [] | _ => byte_of 46 :: f end.

Lemma decimal_text_parts d :
  decimal_text d =
  sign_text d ++ (text_parts d).1 ++
  frac_text (text_parts d).2.
Proof.
  unfold decimal_text, text_parts, sign_text.
  destruct (to_dec_spec (Z.abs d.(mantissa)) ltac:(lia)) as (_ & Hlen & _).
  set (digits := to_dec _) in *. set (s := Z.to_nat _).
  assert (E : (if (s =? 0)%nat then digits
     else if (s <? length digits)%nat then
      take (length digits - s) digits ++ str "." ++ drop (length digits - s) digits
     else str "0." ++ replicate (s - length digits) (byte_of 48) ++ digits) =
    (if (s <? length digits)%nat
     then (take (length digits - s) digits, drop (length digits - s) digits)
     else ([byte_of 48], replicate (s - length digits) (byte_of 48) ++ digits)).1 ++
    frac_text (if (s <? length digits)%nat
     then (take (length digits - s) digits, drop (length digits - s) digits)
     else ([byte_of 48], replicate (s - length digits) (byte_of 48) ++ digits)).2).
  { destruct (Nat.eqb_spec s 0) as [->|Hs].
    - rewrite (proj2 (Nat.ltb_lt 0 _)) by lia. cbn [fst snd].
      rewrite Nat.sub_0_r, drop_ge, take_ge by lia. by rewrite app_nil_r.
    - destruct (Nat.ltb_spec s (length digits)); cbn [fst snd].
      + destruct (drop (length digits - s) digits) eqn:Ed; [|done].
        apply (f_equal length) in Ed. rewrite length_drop in Ed. cbn [length] in Ed. lia.
      + destruct (replicate _ _ ++ digits) eqn:Ed; [|done].
        apply (f_equal length) in Ed. rewrite length_app in Ed. cbn [length] in Ed. lia. }
  rewrite E. by destruct (mantissa d <? 0).
Qed.

Lemma text_parts_spec d :
  0 <= d.(scale) ->
  let '(ip, fp) := text_parts d in
  Forall (fun b => is_dec_digit b = true) ip /\ Forall (fun b => is_dec_digit b = true) fp
  /\ ip <> [] /\ length fp = Z.to_nat d.(scale)
  /\ radix_digits 10 dec_val 0 (ip ++ fp) = Some (Z.abs d.(mantissa)).
Proof.
  intros Hs. unfold text_parts.
  pose proof (to_dec_digits (Z.abs d.(mantissa)) ltac:(lia)) as Hd.
  pose proof (to_dec_read (Z.abs d.(mantissa)) ltac:(lia)) as Hr.
  set (digits := to_dec _) in *. set (s := Z.to_nat _).
  destruct (Nat.ltb_spec s (length digits)).
  - rewrite take_drop. split_and!; auto using Forall_take, Forall_drop.
    + intros E. apply (f_equal length) in E. rewrite length_take in E. cbn [length] in E. lia.
    + rewrite length_drop. lia.
  - split_and!; [by repeat constructor| |done| |].
    + apply Forall_app. split; [|done]. by apply Forall_replicate.
    + rewrite length_app, length_replicate. lia.
    + cbn [app radix_digits]. change (dec_val (byte_of 48)) with (Some 0). cbn [Z.mul Z.add].
      by rewrite radix_zeros.
Qed.

Lemma split_once_digits ip fp :
  Forall (fun b => is_dec_digit b = true) ip ->
  (match split_once (byte_of 46) (ip ++ frac_text fp)
   with Some p => p | None => (ip ++ frac_text fp, []) end)
  = (ip, fp).
Proof.
  intros Hip. assert (byte_of 46 ∉ ip).
  { intros Hin. rewrite Forall_forall in Hip. by apply Hip in Hin. }
  destruct fp as [|f fp].
  - cbn [frac_text]. rewrite app_nil_r, split_once_nosep by done. done.
  - cbn [frac_text]. by rewrite split_once_app.
Qed.

Lemma forallb_Forall {A} (p : A -> bool) l : Forall (fun x => p x = true) l -> forallb p l = true.
Proof. induction 1; cbn; [done|]. by rewrite H. Qed.

Lemma strip_minus_digit ip rest :
  ip <> [] -> Forall (fun b => is_dec_digit b = true) ip ->
  strip_prefix (str "-") (ip ++ rest) = None /\ strip_prefix (str "+") (ip ++ rest) = None.
Proof.
  destruct 2 as [|b ip Hb Hip]; [done|]. cbn [app].
  split; unfold str; cbn; rewrite decide_False; try done; intros <-; by vm_compute in Hb.
Qed.

Lemma text_body_trim d :
  0 <= d.(scale) -> trim (decimal_text d) = decimal_text d.
Proof.
  intros Hs. rewrite decimal_text_parts.
  pose proof (text_parts_spec d Hs) as Hp. destruct (text_parts d) as [ip fp].
  destruct Hp as (Hip & Hfp & Hne & _ & _). cbn [fst snd].
  apply trim_digits.
  - by destruct ip.
  - constructor; [|constructor].
    assert (Hl : forall l, l <> [] -> Forall (fun b => is_dec_digit b = true) l ->
                   is_dec_digit (List.last l x00) = true).
    { intros l Hl HF. apply (Forall_forall (fun b => is_dec_digit b = true) l); [done|].
      rewrite (app_removelast_last x00 Hl) at 2. apply elem_of_app. right. by left. }
    destruct fp as [|f fp]; cbn [frac_text]; [rewrite app_nil_r; by apply Hl|].
    rewrite (app_removelast_last x00 (l:=f :: fp)) by done.
    change (byte_of 46 :: ?l ++ [?x]) with ((byte_of 46 :: l) ++ [x]).
    rewrite app_assoc, last_last. by apply Hl.
  - destruct Hip as [|b ip Hb]; [done|]. cbn. unfold plain. by rewrite Hb.
  - unfold sign_text. destruct (_ <? 0); auto.
Qed.

(** What [parse_decimal] makes of the text of [d]: its digits, read in a
    checked [i128]. *)
Lemma parse_decimal_text d :
  wf_decimal d = true ->
  parse_decimal (decimal_text d) = if d.(mantissa) =? - 2 ^ 127 then None else Some d.
Proof.
  intros Wd%wf_decimal_spec. unfold parse_decimal.
  rewrite text_body_trim, decimal_text_parts by lia.
  pose proof (text_parts_spec d ltac:(lia)) as Hp. destruct (text_parts d) as [ip fp].
  destruct Hp as (Hip & Hfp & Hne & Hlen & Hr). cbn [fst snd].
  set (body := ip ++ _).
  assert (Hneg : (match strip_prefix (str "-") (sign_text d ++ body) with
    | Some rest => (true, rest)
    | None => (false, match strip_prefix (str "+") (sign_text d ++ body) with
                      | Some r => r | None => sign_text d ++ body end)
    end) = (mantissa d <? 0, body)).
  { unfold sign_text. destruct (mantissa d <? 0); [done|]. cbn [app]. unfold body.
    rewrite (proj1 (strip_minus_digit ip _ Hne Hip)).
    by rewrite (proj2 (strip_minus_digit ip _ Hne Hip)). }
  rewrite Hneg. subst body. rewrite split_once_digits by done.
  rewrite !forallb_Forall by done. cbn [negb orb].
  assert (Hb : is_uint 32 (Z.of_nat (length fp)) = true) by (apply is_uint_spec; lia).
  rewrite Hb. destruct ip as [|b ip]; [done|].
  destruct (Z.eqb_spec d.(mantissa) (- 2 ^ 127)) as [Em|Em].
  - rewrite (read_mantissa_overflow 0 _ (Z.abs d.(mantissa))); try lia; [done| |done].
    by apply Forall_app.
  - destruct (read_mantissa_radix 0 ((b :: ip) ++ fp) (Z.abs d.(mantissa))) as [-> _];
      [lia|by apply Forall_app|done|lia|].
    f_equal. destruct d as [m s]. cbn [mantissa scale] in *. f_equal; [|lia].
    destruct (Z.ltb_spec m 0); lia.
Qed.

(** Up to [MAX_PLAIN_SCALE] the C ABI prints what [Display] prints. *)
Lemma decimal_text_display d :
  0 <= d.(scale) <= MAX_PLAIN_SCALE -> decimal_text d = decimal_display d.
Proof.
  intros Hs. unfold decimal_text, decimal_display.
  rewrite (proj2 (Z.ltb_ge MAX_PLAIN_SCALE _)) by lia.
  destruct (Z.eqb_spec d.(scale) 0) as [->|Hne].
  - destruct (mantissa d <? 0); done.
  - rewrite (proj2 (Nat.eqb_neq _ 0)) by lia.
    destruct (Nat.ltb_spec (Z.to_nat d.(scale)) (length (to_dec (Z.abs d.(mantissa)))));
      [rewrite (proj2 (Nat.leb_gt _ _)) by lia|rewrite (proj2 (Nat.leb_le _ _)) by lia];
      by destruct (mantissa d <? 0).
Qed.

(** ** Properties *)

(** Decimal arithmetic is exact: [exact_bytes] agree exactly for equal
    numbers (whatever their scales), [normalized] keeps the number, and both
    comparisons are those of the numbers, although neither divides and powers
    of ten past [10^38] overflow an [i128]. *)
Theorem decimal_comparisons_exact a b i :
  wf_decimal a = true -> wf_decimal b = true ->
  same_number a (normalized a)
  /\ (exact_bytes a = exact_bytes b <-> same_number a b)
  /\ cmp_decimal a b = number_cmp a b
  /\ cmp_i64_decimal i a = Z.compare (i * 10 ^ a.(scale)) a.(mantissa).
Proof.
  intros Wa Wb. split_and!.
  - by apply normalized_spec.
  - rewrite same_number_normalized by done. split; [by apply exact_bytes_inj|].
    unfold exact_bytes. by intros ->.
  - by apply cmp_decimal_aux.
  - apply wf_decimal_spec in Wa. destruct a as [m sc]. cbn [mantissa scale] in *.
    apply cmp_i64_decimal_exact_aux; lia.
Qed.

Lemma decimal_comparisons_exact_witness :
  cmp_decimal {| mantissa := 150; scale := 2 |} {| mantissa := 15; scale := 1 |} = Eq.
Proof.
  destruct (decimal_comparisons_exact {| mantissa := 150; scale := 2 |} {| mantissa := 15; scale := 1 |} 0)
    as (_ & _ & -> & _); [done..|]. by vm_compute.
Defined.

(** The C ABI's decimal text reads back as the same mantissa and scale,
    trailing zeros included, for every decimal except the least mantissa (whose
    magnitude overflows while it is read), and up to [MAX_PLAIN_SCALE] it is
    the text [Display] writes. *)
Theorem decimal_text_roundtrip d :
  wf_decimal d = true ->
  parse_decimal (decimal_text d) = (if d.(mantissa) =? - 2 ^ 127 then None else Some d)
  /\ (d.(scale) <= MAX_PLAIN_SCALE -> decimal_text d = decimal_display d).
Proof.
  intros Wd. split; [by apply parse_decimal_text|]. intros Hs. apply decimal_text_display.
  apply wf_decimal_spec in Wd. lia.
Qed.

Lemma decimal_text_roundtrip_witness :
  parse_decimal (decimal_text {| mantissa := -150; scale := 2 |}) = Some {| mantissa := -150; scale := 2 |}.
Proof. by apply (decimal_text_roundtrip {| mantissa := -150; scale := 2 |}). Defined.
