(* ===== verification/Value.v ===== *)
(** * Values

    The value model of [crates/skaidb-types/src/value.rs]: UUIDs, documents
    (ordered maps from field names to values) and the dynamically typed
    [Value], with the width and validity facts Rust's types carry. *)
From S2P Require Import Prelude Bytes Text BTree Float64 Decimal.
#[local] Open Scope Z_scope.

(** ** Errors *)

Inductive ValueError :=
| InvalidUuid (s : bytes)
| OutOfRange (what : bytes)
| UnrepresentableJson (what : bytes).

(** ** UUIDs *)

(** Sixteen bytes. *)
Abbreviation Uuid := (list byte).

Definition NIL : Uuid := replicate 16 x00.

Definition hyphen : byte := byte_of 45.

Fixpoint uuid_bytes (s hex : bytes) (i n : nat) : res ValueError bytes :=
  match n with
  | O => Ok []
  | S n =>
      p ← str_slice hex (i * 2) (i * 2 + 2);
      b ← ok_or (InvalidUuid s) (u8_from_hex p);
      bs ← uuid_bytes s hex (S i) n;
      Ok (b :: bs)
  end.

(** [Uuid::parse_str]; [hex.len()] counts bytes, and the slices of [hex] panic
    inside a character. *)
Definition parse_str (s : bytes) : res ValueError Uuid :=
  let hex := List.filter (fun c => negb (bool_decide (c = hyphen))) s in
  if negb (length hex =? 32)%nat then Err (InvalidUuid s)
  else uuid_bytes s hex 0 16.

(** [Display for Uuid]. *)
Definition uuid_display (u : Uuid) : bytes :=
  to_hex (take 4 u) ++ [hyphen] ++ to_hex (take 2 (drop 4 u)) ++ [hyphen]
  ++ to_hex (take 2 (drop 6 u)) ++ [hyphen] ++ to_hex (take 2 (drop 8 u)) ++ [hyphen]
  ++ to_hex (drop 10 u).

Example uuid_parse :
  parse_str (str "550e8400-e29b-41d4-a716-446655440000")
  = Ok (map byte_of [85; 14; 132; 0; 226; 155; 65; 212; 167; 22; 68; 102; 85; 68; 0; 0]).
Proof. vm_compute. reflexivity. Qed.

Lemma uuid_bytes_hex s u pre n :
  length u = n ->
  uuid_bytes s (to_hex (pre ++ u)) (length pre) n = Ok u.
Proof.
  revert pre n. induction u as [|b u IH]; intros pre n <-; cbn [length uuid_bytes]; [done|].
  rewrite str_slice_ascii.
  - replace (length pre * 2 + 2 - length pre * 2)%nat with 2%nat by lia.
    rewrite to_hex_app, drop_app_length' by (rewrite to_hex_length; lia).
    rewrite to_hex_cons. rewrite (take_app_length' (hex_byte b)) by done.
    cbn [mbind res_bind]. rewrite u8_from_hex_byte. cbn [ok_or mbind res_bind].
    pose proof (IH (pre ++ [b]) (length u) eq_refl) as E.
    rewrite <- app_assoc, length_app, Nat.add_comm in E. cbn [app length Nat.add] in E.
    rewrite to_hex_app, to_hex_cons in E. by rewrite E.
  - apply to_hex_ascii.
  - rewrite to_hex_length, length_app. cbn [length]. lia.
Qed.

Lemma hex_filter u :
  List.filter (fun c => negb (bool_decide (c = hyphen))) (to_hex u) = to_hex u.
Proof.
  assert (H : Forall (fun c => c <> hyphen) (to_hex u)).
  { apply Forall_forall. intros c Hc%to_hex_u8 ->. change (u8 hyphen) with 45 in Hc. lia. }
  induction H as [|c l Hc H IH]; [done|]. cbn. rewrite bool_decide_false by done. cbn. by f_equal.
Qed.

Lemma parse_display_filter u :
  length u = 16%nat ->
  List.filter (fun c => negb (bool_decide (c = hyphen))) (uuid_display u) = to_hex u.
Proof.
  intros Hu. unfold uuid_display. rewrite !List.filter_app, !hex_filter.
  change (List.filter _ [hyphen]) with (@nil byte). cbn [app].
  rewrite <- !to_hex_app. f_equal.
  replace (drop 10 u) with (drop 2 (drop 8 u)) by by rewrite drop_drop.
  rewrite take_drop. replace (drop 8 u) with (drop 2 (drop 6 u)) by by rewrite drop_drop.
  rewrite take_drop. replace (drop 6 u) with (drop 2 (drop 4 u)) by by rewrite drop_drop.
  by rewrite !take_drop.
Qed.

(** ** Values and documents *)

Inductive ValueType :=
| TNull | TBool | TInt | TFloat | TDecimal | TString | TBytes | TUuid | TTimestamp | TArray
| TDocument.

(** A [Document] is a [BTreeMap<String, Value>]; a [Float] is its bits. *)
Inductive Value :=
| VNull
| VBool (b : bool)
| VInt (i : Z)
| VFloat (bits : Z)
| VDecimal (d : Decimal)
| VString (s : bytes)
| VBytes (b : bytes)
| VUuid (u : Uuid)
| VTimestamp (ms : Z)
| VArray (items : list Value)
| VDocument (doc : list (bytes * Value)).

Abbreviation Document := (list (bytes * Value)).

(** Induction that reaches into arrays and documents. *)
Section value_ind.
Variable P : Value -> Prop.
Hypothesis HNull : P VNull.
Hypothesis HBool : forall b, P (VBool b).
Hypothesis HInt : forall i, P (VInt i).
Hypothesis HFloat : forall x, P (VFloat x).
Hypothesis HDecimal : forall d, P (VDecimal d).
Hypothesis HString : forall s, P (VString s).
Hypothesis HBytes : forall b, P (VBytes b).
Hypothesis HUuid : forall u, P (VUuid u).
Hypothesis HTimestamp : forall t, P (VTimestamp t).
Hypothesis HArray : forall items, Forall P items -> P (VArray items).
Hypothesis HDocument : forall doc, Forall (fun kv => P kv.2) doc -> P (VDocument doc).

Fixpoint value_ind' (v : Value) : P v :=
  match v with
  | VNull => HNull
  | VBool b => HBool b
  | VInt i => HInt i
  | VFloat x => HFloat x
  | VDecimal d => HDecimal d
  | VString s => HString s
  | VBytes b => HBytes b
  | VUuid u => HUuid u
  | VTimestamp t => HTimestamp t
  | VArray items =>
      HArray items
        ((fix go (l : list Value) : Forall P l :=
            match l with
            | [] => Forall_nil_2 P
            | x :: l => Forall_cons_2 P x l (value_ind' x) (go l)
            end) items)
  | VDocument doc =>
      HDocument doc
        ((fix go (l : list (bytes * Value)) : Forall (fun kv => P kv.2) l :=
            match l with
            | [] => Forall_nil_2 _
            | x :: l => Forall_cons_2 (fun kv => P kv.2) x l (value_ind' x.2) (go l)
            end) doc)
  end.
End value_ind.

(** What Rust's types promise of a value: integers at their width, strings
    and field names in UTF-8, sixteen UUID bytes, ordered field names; and
    that every length fits the codec's [u32] prefix. *)
Definition len32 {A} (l : list A) : bool := Z.of_nat (length l) <? 2 ^ 32.

Fixpoint wf_value (v : Value) : bool :=
  match v with
  | VNull | VBool _ => true
  | VInt i | VTimestamp i => is_sint 64 i
  | VFloat x => is_uint 64 x
  | VDecimal d => wf_decimal d
  | VString s => utf8_valid s && len32 s
  | VBytes b => len32 b
  | VUuid u => (length u =? 16)%nat
  | VArray items => len32 items && forallb wf_value items
  | VDocument doc =>
      len32 doc && sorted doc
      && forallb (fun kv => utf8_valid kv.1 && len32 kv.1 && wf_value kv.2) doc
  end.

Definition wf_doc (d : Document) : bool := wf_value (VDocument d).

Definition type_of (v : Value) : ValueType :=
  match v with
  | VNull => TNull
  | VBool _ => TBool
  | VInt _ => TInt
  | VFloat _ => TFloat
  | VDecimal _ => TDecimal
  | VString _ => TString
  | VBytes _ => TBytes
  | VUuid _ => TUuid
  | VTimestamp _ => TTimestamp
  | VArray _ => TArray
  | VDocument _ => TDocument
  end.

Definition is_null (v : Value) : bool := match v with VNull => true | _ => false end.

(** ** Documents *)

Definition doc_new : Document := [].
Definition doc_insert (k : bytes) (v : Value) (d : Document) : Document := bt_insert k v d.
Definition doc_get (d : Document) (k : bytes) : option Value := bt_get k d.
Definition doc_len (d : Document) : nat := length d.
Definition doc_is_empty (d : Document) : bool := match d with [] => true | _ => false end.

Definition dot : byte := byte_of 46.

(** The [while let] loop of [get_path]; each turn shortens [rest]. *)
Fixpoint get_path_loop (fuel : nat) (doc : Document) (rest : bytes) : option Value :=
  match fuel with
  | O => None
  | S fuel =>
      match split_once dot rest with
      | Some (part, tail) =>
          match doc_get doc part with
          | Some (VDocument d) => get_path_loop fuel d tail
          | _ => None
          end
      | None => doc_get doc rest
      end
  end.

Definition get_path (doc : Document) (path : bytes) : option Value :=
  match split_once dot path with
  | None => doc_get doc path
  | Some (first, rest) =>
      match doc_get doc first with
      | Some (VDocument d) => get_path_loop (S (length rest)) d rest
      | _ => None
      end
  end.

(** The reference: one lookup per dot-separated segment. *)
Fixpoint get_segments (doc : Document) (segs : list bytes) : option Value :=
  match segs with
  | [] => None
  | [k] => doc_get doc k
  | k :: segs =>
      match doc_get doc k with
      | Some (VDocument d) => get_segments d segs
      | _ => None
      end
  end.

Lemma split_on_once s :
  split_on dot s = match split_once dot s with
                   | Some (l, r) => l :: split_on dot r
                   | None => [s]
                   end.
Proof.
  destruct (split_once dot s) as [[l r]|] eqn:E.
  - apply split_once_Some in E as [-> Hl]. by apply split_on_app.
  - apply split_on_nosep. intros Hin. apply list_elem_of_split in Hin as (l & r & ->).
    assert (exists p, split_once dot (l ++ dot :: r) = Some p) as [p Hp]; [|by rewrite Hp in E].
    clear E. induction l as [|b l IH]; cbn; [by rewrite decide_True; eauto|].
    case_decide; [eauto|]. destruct IH as [[l' r'] ->]. eauto.
Qed.

Lemma split_on_nonempty s : split_on dot s <> [].
Proof. rewrite split_on_once. by destruct (split_once dot s) as [[]|]. Qed.

Lemma get_segments_cons doc k s :
  get_segments doc (k :: split_on dot s) =
  match doc_get doc k with
  | Some (VDocument d) => get_segments d (split_on dot s)
  | _ => None
  end.
Proof. pose proof (split_on_nonempty s). by destruct (split_on dot s). Qed.

Lemma get_path_loop_spec fuel doc rest :
  (length rest < fuel)%nat -> get_path_loop fuel doc rest = get_segments doc (split_on dot rest).
Proof.
  revert doc rest. induction fuel as [|fuel IH]; intros doc rest Hf; [lia|].
  cbn [get_path_loop]. rewrite split_on_once.
  destruct (split_once dot rest) as [[part tail]|] eqn:E; [|done].
  rewrite get_segments_cons. apply split_once_Some in E as [-> _].
  destruct (doc_get doc part) as [[]|]; try done. apply IH.
  rewrite length_app in Hf. cbn [length] in Hf. lia.
Qed.

(** A dotted path resolves to what looking its segments up one by one
    gives, at any depth. *)
Theorem get_path_segments doc path : get_path doc path = get_segments doc (split_on dot path).
Proof.
  unfold get_path. rewrite split_on_once.
  destruct (split_once dot path) as [[first rest]|]; [|done].
  rewrite get_segments_cons. destruct (doc_get doc first) as [[]|]; try done.
  apply get_path_loop_spec. lia.
Qed.

(** The text form of a UUID parses back to it. *)
Theorem uuid_roundtrip u : length u = 16%nat -> parse_str (uuid_display u) = Ok u.
Proof.
  intros Hu. unfold parse_str. rewrite parse_display_filter by done.
  rewrite to_hex_length, Hu. cbn [Nat.mul Nat.add Nat.eqb negb].
  exact (uuid_bytes_hex _ u [] 16 Hu).
Qed.

Lemma uuid_roundtrip_witness : parse_str (uuid_display NIL) = Ok NIL.
Proof. by apply (uuid_roundtrip NIL). Defined.
