(* ===== verification/KeyCodec.v ===== *)
(** * Order-preserving keys

    The key encodings of [crates/skaidb-types/src/value.rs]: [encode_into]
    (byte order is value order), [encode_exact_into] (equality only), the
    numeric inverse [decode_numeric_key] and the placement prefix
    [encoded_array_prefix].  Every encoder is the bytes it appends. *)
From S2P Require Import Prelude Bytes Text BTree Float64 Decimal Value.
#[local] Open Scope Z_scope.

(** ** Tags *)

Definition NULL : byte := x00.
Definition BOOL : byte := x01.
Definition INT : byte := x02.
Definition FLOAT : byte := x03.
Definition DECIMAL : byte := x04.
Definition STRING : byte := x05.
Definition BYTES : byte := x06.
Definition UUID : byte := x07.
Definition TIMESTAMP : byte := x08.
Definition ARRAY : byte := x09.
Definition DOCUMENT : byte := x0a.
Definition END : byte := x00.

(** ** The encoders *)

(** [(v as u64) ^ 0x8000_0000_0000_0000], big-endian. *)
Definition encode_i64 (v : Z) : bytes := be_bytes 8 (Z.lxor (wrap 64 v) SIGN).

Definition encode_f64 (bits : Z) : bytes := be_bytes 8 (f64_ord bits).

Fixpoint escape (s : bytes) : bytes :=
  match s with
  | [] => []
  | b :: s => (if decide (b = x00) then [x00; xff] else [b]) ++ escape s
  end.

Definition encode_bytes (s : bytes) : bytes := escape s ++ [x00; x00].

Definition bool_byte (b : bool) : byte := if b then x01 else x00.

Section encode.
Context `{Powi}.

(** What [encode_into] appends. *)
Fixpoint encode_into (v : Value) : bytes :=
  match v with
  | VNull => [NULL]
  | VBool b => [BOOL; bool_byte b]
  | VInt i => INT :: encode_i64 i
  | VTimestamp t => TIMESTAMP :: encode_i64 t
  | VFloat x => FLOAT :: encode_f64 x
  | VDecimal d => DECIMAL :: encode_f64 (to_f64 d)
  | VString s => STRING :: encode_bytes s
  | VBytes b => BYTES :: encode_bytes b
  | VUuid u => UUID :: u
  | VArray items => ARRAY :: flat_map encode_into items ++ [END]
  | VDocument doc =>
      DOCUMENT :: flat_map (fun kv => encode_bytes kv.1 ++ encode_into kv.2) doc ++ [END]
  end.

Definition encode_key (v : Value) : bytes := encode_into v.

Fixpoint encode_exact_into (v : Value) : bytes :=
  match v with
  | VDecimal d => DECIMAL :: encode_bytes (exact_bytes d)
  | VArray items => ARRAY :: flat_map encode_exact_into items ++ [END]
  | VDocument doc =>
      DOCUMENT :: flat_map (fun kv => encode_bytes kv.1 ++ encode_exact_into kv.2) doc ++ [END]
  | scalar => encode_into scalar
  end.

Definition encode_exact_key (v : Value) : bytes := encode_exact_into v.

Definition encode_array_key_into (items : list Value) : bytes :=
  [ARRAY] ++ flat_map encode_into items ++ [END].

Definition total_cmp (a b : Value) : comparison := bytes_cmp (encode_key a) (encode_key b).

End encode.

Fixpoint contains_decimal (v : Value) : bool :=
  match v with
  | VDecimal _ => true
  | VArray items => existsb contains_decimal items
  | VDocument doc => existsb (fun kv => contains_decimal kv.2) doc
  | _ => false
  end.

Definition key_tag (v : Value) : byte :=
  match v with
  | VNull => NULL
  | VBool _ => BOOL
  | VInt _ => INT
  | VFloat _ => FLOAT
  | VDecimal _ => DECIMAL
  | VString _ => STRING
  | VBytes _ => BYTES
  | VUuid _ => UUID
  | VTimestamp _ => TIMESTAMP
  | VArray _ => ARRAY
  | VDocument _ => DOCUMENT
  end.

(** ** Reading keys back *)

(** Inverse of [encode_f64] on the raw big-endian word. *)
Definition float_of_key (raw : Z) : Z :=
  if negb (Z.land raw SIGN =? 0) then Z.lxor raw SIGN else Z.lxor raw (2 ^ 64 - 1).

Definition decode_numeric_key (component : bytes) : option Value :=
  match component with
  | [] => None
  | t :: rest =>
      if (length rest <? 8)%nat then None
      else
        let raw := be_val (take 8 rest) in
        if decide (t = INT) then Some (VInt (sint 64 (Z.lxor raw SIGN)))
        else if decide (t = TIMESTAMP) then Some (VTimestamp (sint 64 (Z.lxor raw SIGN)))
        else if decide (t = FLOAT \/ t = DECIMAL) then Some (VFloat (float_of_key raw))
        else None
  end.

(** [skip_escaped_bytes]: the length of the escaped body and its terminator. *)
Fixpoint skip_escaped_bytes (b : bytes) : option nat :=
  match b with
  | [] => None
  | c :: b' =>
      if negb (bool_decide (c = x00)) then S <$> skip_escaped_bytes b'
      else
        match b' with
        | [] => None
        | e :: b'' =>
            if decide (e = xff) then (fun n => S (S n)) <$> skip_escaped_bytes b''
            else if decide (e = x00) then Some 2%nat
            else None
        end
  end.

(** One turn of the loop of [encoded_array_prefix]: the position after the
    component at [pos]. *)
Definition skip_component (key : bytes) (pos : nat) : option nat :=
  t ← key !! pos;
  let pos := S pos in
  skip ← (if decide (t = BOOL) then Some 1%nat
          else if decide (t = INT \/ t = TIMESTAMP \/ t = FLOAT \/ t = DECIMAL) then Some 8%nat
          else if decide (t = UUID) then Some 16%nat
          else if decide (t = STRING \/ t = BYTES) then
            skip_escaped_bytes (drop (pos `min` length key) key)
          else None);
  let pos := (pos + skip)%nat in
  if (length key <? pos)%nat then None else Some pos.

Fixpoint skip_components (key : bytes) (pos n : nat) : option nat :=
  match n with
  | O => Some pos
  | S n => pos ← skip_component key pos; skip_components key pos n
  end.

(** The slice [&key[..pos]], or [None] (the caller falls back to the whole key). *)
Definition encoded_array_prefix (key : bytes) (n : nat) : option bytes :=
  if (n =? 0)%nat || negb (bool_decide (head key = Some ARRAY)) then None
  else (fun pos => take pos key) <$> skip_components key 1 n.

(** ** The order of values the keys promise *)

(** Lexicographic order of lists. *)
Definition lex_cmp {A} (cmp : A -> A -> comparison) : list A -> list A -> comparison :=
  fix go l1 l2 :=
    match l1, l2 with
    | [], [] => Eq
    | [], _ => Lt
    | _, [] => Gt
    | x :: l1, y :: l2 => match cmp x y with Eq => go l1 l2 | c => c end
    end.

Definition then_cmp (c d : comparison) : comparison := match c with Eq => d | _ => c end.

(** Values of one type compare by content, others by type; [dcmp] orders
    decimals. *)
Fixpoint value_cmp (dcmp : Decimal -> Decimal -> comparison) (a b : Value) : comparison :=
  match a, b with
  | VNull, VNull => Eq
  | VBool x, VBool y => Z.compare (Z.b2z x) (Z.b2z y)
  | VInt x, VInt y => Z.compare x y
  | VTimestamp x, VTimestamp y => Z.compare x y
  | VFloat x, VFloat y => Z.compare (f64_ord x) (f64_ord y)
  | VDecimal x, VDecimal y => dcmp x y
  | VString x, VString y => bytes_cmp x y
  | VBytes x, VBytes y => bytes_cmp x y
  | VUuid x, VUuid y => bytes_cmp x y
  | VArray x, VArray y => lex_cmp (value_cmp dcmp) x y
  | VDocument x, VDocument y =>
      lex_cmp (fun p q => then_cmp (bytes_cmp p.1 q.1) (value_cmp dcmp p.2 q.2)) x y
  | _, _ => Z.compare (u8 (key_tag a)) (u8 (key_tag b))
  end.

(** The values on which the terminator is unambiguous: no [NULL] directly in
    an array, no document field whose name is empty or starts with NUL. *)
Fixpoint plain (v : Value) : bool :=
  match v with
  | VArray items => forallb (fun i => negb (is_null i) && plain i) items
  | VDocument doc =>
      forallb (fun kv => match kv.1 with [] => false | b :: _ => negb (bool_decide (b = x00)) end
                         && plain kv.2) doc
  | _ => true
  end.

(** ** The pieces, with whatever follows them *)

Lemma then_cmp_assoc a b c : then_cmp (then_cmp a b) c = then_cmp a (then_cmp b c).
Proof. by destruct a. Qed.

Lemma bytes_cmp_then a b a' b' :
  length a = length b -> bytes_cmp (a ++ a') (b ++ b') = then_cmp (bytes_cmp a b) (bytes_cmp a' b').
Proof. intros E. rewrite bytes_cmp_app_len by done. by destruct (bytes_cmp a b). Qed.

Lemma lxor_sign x : 0 <= x < SIGN -> Z.lxor x SIGN = x + SIGN.
Proof.
  intros Hx. rewrite Z.add_nocarry_lxor; [done|]. rewrite land_sign by (unfold SIGN in *; lia).
  by rewrite (proj2 (Z.leb_gt SIGN x)) by lia.
Qed.

Lemma sign_flip_arith v :
  is_sint 64 v = true -> Z.lxor (wrap 64 v) SIGN = v + SIGN.
Proof.
  intros Hv%is_sint_spec. change (64 - 1) with 63 in Hv.
  unfold wrap. destruct (Z.le_gt_cases 0 v).
  - rewrite Z.mod_small by lia. apply lxor_sign. unfold SIGN. lia.
  - replace (v mod 2 ^ 64) with (v + 2 ^ 64).
    + replace (v + 2 ^ 64) with ((v + SIGN) + SIGN) by (unfold SIGN; lia).
      rewrite <- (lxor_sign (v + SIGN)) at 1 by (unfold SIGN; lia).
      rewrite Z.lxor_assoc, Z.lxor_nilpotent, Z.lxor_0_r. done.
    + rewrite <- (Z.mod_add v 1) by lia. rewrite Z.mod_small; lia.
Qed.

Lemma be8_cmp a b x y :
  0 <= a < 2 ^ 64 -> 0 <= b < 2 ^ 64 ->
  bytes_cmp (be_bytes 8 a ++ x) (be_bytes 8 b ++ y) = then_cmp (Z.compare a b) (bytes_cmp x y).
Proof.
  intros Ha Hb. rewrite bytes_cmp_then by by rewrite !be_bytes_length.
  rewrite bytes_cmp_be by by rewrite !be_bytes_length. rewrite !be_val_bytes.
  change (256 ^ Z.of_nat 8) with (2 ^ 64). by rewrite !Z.mod_small.
Qed.

Lemma encode_i64_cmp a b x y :
  is_sint 64 a = true -> is_sint 64 b = true ->
  bytes_cmp (encode_i64 a ++ x) (encode_i64 b ++ y) = then_cmp (Z.compare a b) (bytes_cmp x y).
Proof.
  intros Ha Hb. unfold encode_i64. rewrite !sign_flip_arith by done.
  apply is_sint_spec in Ha, Hb. change (64 - 1) with 63 in *.
  rewrite be8_cmp by (unfold SIGN; lia). f_equal.
  destruct (Z.compare_spec a b); solve_compare.
Qed.

Lemma encode_f64_cmp a b x y :
  0 <= a < 2 ^ 64 -> 0 <= b < 2 ^ 64 ->
  bytes_cmp (encode_f64 a ++ x) (encode_f64 b ++ y)
  = then_cmp (Z.compare (f64_ord a) (f64_ord b)) (bytes_cmp x y).
Proof. intros. unfold encode_f64. apply be8_cmp; by apply f64_ord_range. Qed.

Lemma encode_bytes_cons b s :
  encode_bytes (b :: s) = (if decide (b = x00) then [x00; xff] else [b]) ++ encode_bytes s.
Proof. unfold encode_bytes. cbn. by rewrite <- app_assoc. Qed.

Lemma u8_0 b : u8 b = 0 -> b = x00.
Proof. intros E. by apply u8_inj. Qed.

Lemma u8_pos b : b <> x00 -> 0 < u8 b.
Proof. intros Hb. pose proof (u8_range b). assert (u8 b <> 0) by (by intros ?%u8_0). lia. Qed.

Lemma bytes_cmp_lt b c x y : u8 b < u8 c -> bytes_cmp (b :: x) (c :: y) = Lt.
Proof. intros H. cbn [bytes_cmp]. by rewrite (proj2 (Z.compare_lt_iff _ _)). Qed.

Lemma bytes_cmp_gt b c x y : u8 c < u8 b -> bytes_cmp (b :: x) (c :: y) = Gt.
Proof. intros H. cbn [bytes_cmp]. by rewrite (proj2 (Z.compare_gt_iff _ _)). Qed.

Lemma encode_bytes_cmp s t x y :
  bytes_cmp (encode_bytes s ++ x) (encode_bytes t ++ y) = then_cmp (bytes_cmp s t) (bytes_cmp x y).
Proof.
  revert t. induction s as [|b s IH]; intros [|c t]; rewrite ?encode_bytes_cons.
  - done.
  - destruct (decide (c = x00)) as [->|Hc%u8_pos]; [done|]. by apply bytes_cmp_lt.
  - destruct (decide (b = x00)) as [->|Hb%u8_pos]; [done|]. by apply bytes_cmp_gt.
  - rewrite <- !app_assoc. destruct (decide (b = x00)) as [->|Hb], (decide (c = x00)) as [->|Hc].
    + rewrite bytes_cmp_app, IH. done.
    + apply u8_pos in Hc. cbn [app]. rewrite !bytes_cmp_lt by done. done.
    + apply u8_pos in Hb. cbn [app]. rewrite !bytes_cmp_gt by done. done.
    + cbn [app bytes_cmp]. rewrite IH. by destruct (u8 b ?= u8 c).
Qed.

(** ** Both encodings at once

    [encode_into] and [encode_exact_into] differ in the decimal payload alone;
    the order proof is done once, for any payload that is ordered by [dcmp]
    whatever follows it. *)
Fixpoint encode_gen (enc_dec : Decimal -> bytes) (v : Value) : bytes :=
  match v with
  | VNull => [NULL]
  | VBool b => [BOOL; bool_byte b]
  | VInt i => INT :: encode_i64 i
  | VTimestamp t => TIMESTAMP :: encode_i64 t
  | VFloat x => FLOAT :: encode_f64 x
  | VDecimal d => DECIMAL :: enc_dec d
  | VString s => STRING :: encode_bytes s
  | VBytes b => BYTES :: encode_bytes b
  | VUuid u => UUID :: u
  | VArray items => ARRAY :: flat_map (encode_gen enc_dec) items ++ [END]
  | VDocument doc =>
      DOCUMENT :: flat_map (fun kv => encode_bytes kv.1 ++ encode_gen enc_dec kv.2) doc ++ [END]
  end.

Lemma flat_map_ext_Forall {A B} (f g : A -> list B) l :
  Forall (fun x => f x = g x) l -> flat_map f l = flat_map g l.
Proof. induction 1 as [|x l E _ IH]; cbn; [done|]. by rewrite E, IH. Qed.

Lemma encode_into_gen `{Powi} v : encode_into v = encode_gen (fun d => encode_f64 (to_f64 d)) v.
Proof.
  induction v as [| | | | | | | | | l IH | l IH] using value_ind'; cbn; try done.
  - by rewrite (flat_map_ext_Forall _ _ _ IH).
  - do 2 f_equal. apply flat_map_ext_Forall. eapply Forall_impl; [exact IH|].
    cbn. by intros [k v] ->.
Qed.

Lemma encode_exact_gen `{Powi} v :
  encode_exact_into v = encode_gen (fun d => encode_bytes (exact_bytes d)) v.
Proof.
  induction v as [| | | | | | | | | l IH | l IH] using value_ind'; cbn; try done.
  - by rewrite (flat_map_ext_Forall _ _ _ IH).
  - do 2 f_equal. apply flat_map_ext_Forall. eapply Forall_impl; [exact IH|].
    cbn. by intros [k v] ->.
Qed.

Section order.
Context (enc_dec : Decimal -> bytes) (dcmp : Decimal -> Decimal -> comparison).
Hypothesis enc_dec_cmp : forall d e x y,
  wf_decimal d = true -> wf_decimal e = true ->
  bytes_cmp (enc_dec d ++ x) (enc_dec e ++ y) = then_cmp (dcmp d e) (bytes_cmp x y).

Lemma encode_gen_tag v : exists tl, encode_gen enc_dec v = key_tag v :: tl.
Proof. destruct v; cbn; eauto. Qed.

Lemma tags_differ a b x y :
  key_tag a <> key_tag b ->
  bytes_cmp (encode_gen enc_dec a ++ x) (encode_gen enc_dec b ++ y)
  = Z.compare (u8 (key_tag a)) (u8 (key_tag b))
  /\ then_cmp (Z.compare (u8 (key_tag a)) (u8 (key_tag b))) (bytes_cmp x y)
     = Z.compare (u8 (key_tag a)) (u8 (key_tag b)).
Proof.
  intros Hne. destruct (encode_gen_tag a) as [ta ->], (encode_gen_tag b) as [tb ->]. cbn.
  destruct (Z.compare_spec (u8 (key_tag a)) (u8 (key_tag b))) as [E| |]; try done.
  by apply u8_inj in E.
Qed.

Lemma nonnull_tag v : is_null v = false -> 0 < u8 (key_tag v).
Proof. by destruct v. Qed.

(** A list of self-delimiting pieces, closed by [END], compares as the list. *)
Lemma lex_encode {A} (enc : A -> bytes) (cmp : A -> A -> comparison) (ok : A -> Prop) l1 l2 x y :
  (forall a, ok a -> exists b tl, enc a = b :: tl /\ 0 < u8 b) ->
  (Forall (fun a => forall b x y, ok a -> ok b ->
     bytes_cmp (enc a ++ x) (enc b ++ y) = then_cmp (cmp a b) (bytes_cmp x y)) l1) ->
  Forall ok l1 -> Forall ok l2 ->
  bytes_cmp ((flat_map enc l1 ++ [END]) ++ x) ((flat_map enc l2 ++ [END]) ++ y)
  = then_cmp (lex_cmp cmp l1 l2) (bytes_cmp x y).
Proof.
  intros Hhd IH H1. revert l2. induction H1 as [|a l1 Ha H1 IHl]; intros l2 H2.
  - destruct H2 as [|b l2 Hb H2]; [done|]. destruct (Hhd b Hb) as (c & tl & E & Hc).
    cbn [flat_map app]. rewrite E. by apply bytes_cmp_lt.
  - destruct H2 as [|b l2 Hb H2].
    + destruct (Hhd a Ha) as (c & tl & E & Hc).
      cbn [flat_map app]. rewrite E. by apply bytes_cmp_gt.
    + apply Forall_cons in IH as [IHa IHs]. cbn [flat_map]. rewrite <- !app_assoc.
      rewrite IHa by done. rewrite !app_assoc, IHl by done. cbn. by destruct (cmp a b).
Qed.

Definition field_ok (kv : bytes * Value) : Prop :=
  match kv.1 with [] => False | b :: _ => b <> x00 end /\ wf_value kv.2 = true /\ plain kv.2 = true.

Lemma doc_fields_ok doc :
  wf_value (VDocument doc) = true -> plain (VDocument doc) = true -> Forall field_ok doc.
Proof.
  cbn. intros [[_ _]%andb_true_iff Hw]%andb_true_iff Hp.
  rewrite forallb_forall in Hw, Hp. apply Forall_forall. intros [k v] Hin%list_elem_of_In.
  specialize (Hw _ Hin). specialize (Hp _ Hin). cbn in Hw, Hp. unfold field_ok. cbn.
  apply andb_true_iff in Hw as [_ ?], Hp as [Hk ?]. split_and!; try done.
  destruct k; [done|]. by destruct (bool_decide_reflect (b = x00)).
Qed.

Lemma array_items_ok items :
  wf_value (VArray items) = true -> plain (VArray items) = true ->
  Forall (fun v => is_null v = false /\ wf_value v = true /\ plain v = true) items.
Proof.
  cbn. intros [_ Hw]%andb_true_iff Hp. rewrite forallb_forall in Hw, Hp.
  apply Forall_forall. intros v Hin%list_elem_of_In. specialize (Hw _ Hin).
  specialize (Hp _ Hin). apply andb_true_iff in Hp as [Hn ?]. split_and!; try done.
  by destruct (is_null v).
Qed.

Lemma field_head kv :
  field_ok kv ->
  exists b tl, encode_bytes kv.1 ++ encode_gen enc_dec kv.2 = b :: tl /\ 0 < u8 b.
Proof.
  destruct kv as [[|b k] v]; intros [Hk _]; cbn in Hk; [done|].
  exists b. eexists. cbn [fst snd]. rewrite encode_bytes_cons, decide_False by done. split; [done|].
  by apply u8_pos.
Qed.

Lemma encode_gen_cmp a b x y :
  wf_value a = true -> wf_value b = true -> plain a = true -> plain b = true ->
  bytes_cmp (encode_gen enc_dec a ++ x) (encode_gen enc_dec b ++ y)
  = then_cmp (value_cmp dcmp a b) (bytes_cmp x y).
Proof.
  revert b x y. induction a as [| | | | | | | | | l IH | l IH] using value_ind';
    intros b0 x0 y0 Wa Wb Pa Pb;
    destruct b0;
    try match goal with |- bytes_cmp (encode_gen _ ?a ++ _) (encode_gen _ ?b ++ _) = _ =>
          let E1 := fresh in let E2 := fresh in
          destruct (tags_differ a b x0 y0) as [E1 E2]; [discriminate|];
          rewrite E1; symmetry; exact E2
        end;
    cbn [encode_gen value_cmp app bytes_cmp]; rewrite ?Z.compare_refl; cbn [then_cmp].
  - done.
  - repeat match goal with b : bool |- _ => destruct b end; done.
  - by apply encode_i64_cmp.
  - apply is_uint_spec in Wa, Wb. by apply encode_f64_cmp.
  - by apply enc_dec_cmp.
  - apply encode_bytes_cmp.
  - apply encode_bytes_cmp.
  - cbn in Wa, Wb. apply Nat.eqb_eq in Wa, Wb. apply bytes_cmp_then. congruence.
  - by apply encode_i64_cmp.
  - apply array_items_ok in Wa, Wb; [|done..].
    eapply (lex_encode _ _ (fun v => is_null v = false /\ wf_value v = true /\ plain v = true));
      [| |done..].
    + intros v (Hn & _). destruct (encode_gen_tag v) as [tl ->]. eauto using nonnull_tag.
    + eapply Forall_impl; [exact IH|]. cbn. intros v Hv b x y (? & ? & ?) (? & ? & ?). by apply Hv.
  - apply doc_fields_ok in Wa, Wb; [|done..].
    apply (lex_encode (fun kv => encode_bytes kv.1 ++ encode_gen enc_dec kv.2)
             (fun p q => then_cmp (bytes_cmp p.1 q.1) (value_cmp dcmp p.2 q.2)) field_ok);
      [apply field_head| |done..].
    eapply Forall_impl; [exact IH|].
    intros [k v] Hv [k' v'] x y (_ & ? & ?) (_ & ? & ?). cbn [fst snd] in *.
    rewrite <- !app_assoc, encode_bytes_cmp, Hv by done. by rewrite then_cmp_assoc.
Qed.

End order.

(** ** Order *)

(** Decimals are ordered in keys by their [f64] projection. *)
Definition decimal_key_cmp `{Powi} (d e : Decimal) : comparison :=
  Z.compare (f64_ord (to_f64 d)) (f64_ord (to_f64 e)).

Lemma to_f64_range `{Powi} d : 0 <= to_f64 d < 2 ^ 64.
Proof. apply bits_of_sf_range. Qed.

Lemma encode_into_cmp `{Powi} a b x y :
  wf_value a = true -> wf_value b = true -> plain a = true -> plain b = true ->
  bytes_cmp (encode_into a ++ x) (encode_into b ++ y)
  = then_cmp (value_cmp decimal_key_cmp a b) (bytes_cmp x y).
Proof.
  intros. rewrite !encode_into_gen. apply encode_gen_cmp; [|done..].
  intros. apply encode_f64_cmp; apply to_f64_range.
Qed.

Lemma encode_exact_cmp `{Powi} a b x y :
  wf_value a = true -> wf_value b = true -> plain a = true -> plain b = true ->
  bytes_cmp (encode_exact_into a ++ x) (encode_exact_into b ++ y)
  = then_cmp (value_cmp (fun d e => bytes_cmp (exact_bytes d) (exact_bytes e)) a b)
             (bytes_cmp x y).
Proof.
  intros. rewrite !encode_exact_gen. apply encode_gen_cmp; [|done..].
  intros. apply encode_bytes_cmp.
Qed.

(** ** Equality *)

(** The value with every decimal in normal form. *)
Fixpoint canon (v : Value) : Value :=
  match v with
  | VDecimal d => VDecimal (normalized d)
  | VArray items => VArray (map canon items)
  | VDocument doc => VDocument (map (fun kv => (kv.1, canon kv.2)) doc)
  | v => v
  end.

Lemma lex_cmp_eq {A} (cmp : A -> A -> comparison) l1 l2 :
  lex_cmp cmp l1 l2 = Eq <-> Forall2 (fun x y => cmp x y = Eq) l1 l2.
Proof.
  revert l2. induction l1 as [|x l1 IH]; intros [|y l2]; cbn;
    (split; [intros E|intros E]); try done; try by inversion E.
  - destruct (cmp x y) eqn:Exy; try done. constructor; [done|]. by apply IH.
  - apply Forall2_cons in E as [-> E]. by apply IH.
Qed.

Lemma f64_ord_inj a b : 0 <= a < 2 ^ 64 -> 0 <= b < 2 ^ 64 -> f64_ord a = f64_ord b -> a = b.
Proof.
  intros Ha Hb. rewrite !f64_ord_arith by done. unfold SIGN.
  destruct (Z.leb_spec (2 ^ 63) a), (Z.leb_spec (2 ^ 63) b); lia.
Qed.

Lemma then_cmp_eq c d : then_cmp c d = Eq <-> c = Eq /\ d = Eq.
Proof. destruct c; cbn; naive_solver. Qed.

Lemma Forall2_map_eq {A B} (P : A -> A -> Prop) (f : A -> B) l1 l2 :
  Forall2 P l1 l2 -> (forall x y, x ∈ l1 -> y ∈ l2 -> P x y -> f x = f y) -> map f l1 = map f l2.
Proof.
  induction 1 as [|x y l1 l2 Hp _ IH]; intros Hf; cbn; [done|].
  f_equal; [|apply IH; intros]; apply Hf; try done; by constructor.
Qed.

Lemma wf_array_items items v : wf_value (VArray items) = true -> v ∈ items -> wf_value v = true.
Proof.
  cbn. intros [_ Hw]%andb_true_iff Hin%list_elem_of_In. rewrite forallb_forall in Hw. by apply Hw.
Qed.

Lemma wf_array_cons v l :
  wf_value (VArray (v :: l)) = true -> wf_value v = true /\ wf_value (VArray l) = true.
Proof.
  cbn [wf_value forallb]. rewrite !andb_true_iff. unfold len32. rewrite length_cons, !Z.ltb_lt.
  intros (? & ? & ?). split_and!; [done|lia|done].
Qed.

Lemma wf_doc_field doc k v :
  wf_value (VDocument doc) = true -> (k, v) ∈ doc ->
  utf8_valid k = true /\ len32 k = true /\ wf_value v = true.
Proof.
  cbn. intros [_ Hw]%andb_true_iff Hin%list_elem_of_In. rewrite forallb_forall in Hw.
  specialize (Hw _ Hin). cbn in Hw. apply andb_true_iff in Hw as [[? ?]%andb_true_iff ?]. done.
Qed.

Lemma value_cmp_canon a b :
  wf_value a = true -> wf_value b = true ->
  value_cmp (fun d e => bytes_cmp (exact_bytes d) (exact_bytes e)) a b = Eq -> canon a = canon b.
Proof.
  revert b. induction a as [| | | | | | | | | l IH | l IH] using value_ind';
    intros b0 Wa Wb; destruct b0; cbn [value_cmp key_tag]; intros E; try discriminate E; try done.
  - repeat match goal with b : bool |- _ => destruct b end; done.
  - by apply Z.compare_eq_iff in E as ->.
  - apply Z.compare_eq_iff in E. apply is_uint_spec in Wa, Wb. by apply f64_ord_inj in E as ->.
  - cbn. f_equal. apply bytes_cmp_eq in E. by apply exact_bytes_inj.
  - by apply bytes_cmp_eq in E as ->.
  - by apply bytes_cmp_eq in E as ->.
  - by apply bytes_cmp_eq in E as ->.
  - by apply Z.compare_eq_iff in E as ->.
  - apply lex_cmp_eq in E. cbn. f_equal. rewrite Forall_forall in IH.
    eapply Forall2_map_eq; [exact E|]. intros v w Hv Hw Evw. apply IH; eauto using wf_array_items.
  - apply lex_cmp_eq in E. cbn. f_equal. rewrite Forall_forall in IH.
    eapply Forall2_map_eq; [exact E|]. cbn.
    intros [k v] [k' w] Hv Hw [Ek%bytes_cmp_eq Evw]%then_cmp_eq. cbn in *. f_equal; [done|].
    apply (IH (k, v)); [done|apply (wf_doc_field _ k _ Wa Hv)|by apply (wf_doc_field _ k' _ Wb Hw)|done].
Qed.

Lemma exact_bytes_normalized d :
  wf_decimal d = true -> exact_bytes (normalized d) = exact_bytes d.
Proof.
  intros Wd. pose proof (normalized_spec d Wd) as (E & _ & Wn). unfold exact_bytes.
  apply same_number_normalized in E; [|done..]. by rewrite <- E.
Qed.

Lemma encode_exact_canon `{Powi} v : wf_value v = true -> encode_exact_into (canon v) = encode_exact_into v.
Proof.
  induction v as [| | | | | | | | | l IH | l IH] using value_ind'; intros W;
    cbn [canon encode_exact_into encode_into]; try done.
  - by rewrite exact_bytes_normalized.
  - do 2 f_equal. induction IH as [|v l Hv IH IHl]; [done|]. cbn.
    apply wf_array_cons in W as [Wv Wl]. by rewrite IHl, Hv.
  - do 2 f_equal.
    assert (W' : forall k v, (k, v) ∈ l -> wf_value v = true).
    { intros k v Hin. by apply (wf_doc_field _ k v W). }
    clear W. induction IH as [|[k v] l Hv IH IHl]; [done|]. cbn in *.
    rewrite Hv by (apply (W' k); by left). f_equal. apply IHl. intros. eapply (W' k0). by right.
Qed.

(** ** Placement prefixes *)

(** A component the prefix walk can step over. *)
Definition scalar (v : Value) : bool :=
  match v with VNull | VArray _ | VDocument _ => false | _ => true end.

Lemma skip_escaped_bytes_encode s rest :
  skip_escaped_bytes (encode_bytes s ++ rest) = Some (length (encode_bytes s)).
Proof.
  induction s as [|b s IH]; [done|]. rewrite encode_bytes_cons, <- app_assoc.
  destruct (decide (b = x00)) as [->|Hb].
  - cbn [app skip_escaped_bytes]. rewrite bool_decide_true by done. cbn [negb].
    rewrite decide_True by done. rewrite IH. done.
  - cbn [app skip_escaped_bytes]. rewrite bool_decide_false by done. cbn [negb]. by rewrite IH.
Qed.

Lemma encode_i64_length v : length (encode_i64 v) = 8%nat.
Proof. apply be_bytes_length. Qed.

Lemma encode_f64_length v : length (encode_f64 v) = 8%nat.
Proof. apply be_bytes_length. Qed.

Lemma skip_component_encode `{Powi} pre v rest :
  wf_value v = true ->
  skip_component (pre ++ encode_into v ++ rest) (length pre) =
  if scalar v then Some (length pre + length (encode_into v))%nat else None.
Proof.
  intros W. unfold skip_component.
  assert (Hl : (pre ++ encode_into v ++ rest) !! length pre = Some (key_tag v)).
  { rewrite lookup_app_r, Nat.sub_diag by lia. by destruct v. }
  rewrite Hl. cbn [mbind option_bind].
  assert (Hd : forall tl, encode_into v = key_tag v :: tl ->
    drop (S (length pre) `min` length (pre ++ encode_into v ++ rest)) (pre ++ encode_into v ++ rest)
    = tl ++ rest).
  { intros tl ->. rewrite Nat.min_l by (rewrite length_app; cbn; lia).
    by rewrite (drop_app_ge pre), Nat.sub_succ_l, Nat.sub_diag by lia. }
  assert (Hlen : length (pre ++ encode_into v ++ rest)
                 = (length pre + length (encode_into v) + length rest)%nat).
  { rewrite !length_app. lia. }
  destruct v; cbn [key_tag scalar]; try reflexivity.
  all: cbn [wf_value] in W; try apply Nat.eqb_eq in W.
  all: rewrite ?Hlen; try rewrite <- Hlen, (Hd _ eq_refl), skip_escaped_bytes_encode, Hlen.
  all: cbn [encode_into length mbind option_bind].
  all: rewrite ?encode_i64_length, ?encode_f64_length, ?W.
  all: vm_compute (decide _); cbn [mbind option_bind].
  all: match goal with |- (if (?a <? ?b)%nat then _ else _) = _ => destruct (Nat.ltb_spec a b) end;
    [exfalso; lia | f_equal; lia].
Qed.

Lemma skip_components_encode `{Powi} pre items n :
  wf_value (VArray items) = true ->
  skip_components (pre ++ flat_map encode_into items ++ [END]) (length pre) n =
  if (n <=? length items)%nat && forallb scalar (take n items)
  then Some (length pre + length (flat_map encode_into (take n items)))%nat else None.
Proof.
  revert pre items. induction n as [|n IH]; intros pre items W;
    [cbn [skip_components Nat.leb take forallb andb flat_map length]; by rewrite Nat.add_0_r|].
  destruct items as [|v items].
  - cbn [skip_components flat_map app length Nat.leb andb]. unfold skip_component.
    by rewrite lookup_app_r, Nat.sub_diag by lia.
  - apply wf_array_cons in W as [Wv Wl]. cbn [skip_components flat_map].
    rewrite <- app_assoc, skip_component_encode by done.
    cbn [length Nat.leb take forallb]. destruct (scalar v); cbn [mbind option_bind andb].
    + rewrite <- length_app, app_assoc, IH by done. cbn [flat_map]. rewrite !length_app.
      destruct (n <=? length items)%nat, (forallb scalar (take n items)); cbn [andb];
        first [done | f_equal; lia].
    + by rewrite andb_false_r.
Qed.

(** ** The numeric inverse *)

Lemma be8_app_length z rest : (length (be_bytes 8 z ++ rest) <? 8)%nat = false.
Proof. rewrite length_app, be_bytes_length. apply Nat.ltb_ge. lia. Qed.

Lemma be8_app_val z rest : be_val (take 8 (be_bytes 8 z ++ rest)) = z mod 2 ^ 64.
Proof.
  rewrite take_app_length' by by rewrite be_bytes_length. by rewrite be_val_bytes.
Qed.

Lemma decode_numeric_at t z rest :
  decode_numeric_key (t :: be_bytes 8 z ++ rest) =
  if decide (t = INT) then Some (VInt (sint 64 (Z.lxor (z mod 2 ^ 64) SIGN)))
  else if decide (t = TIMESTAMP) then Some (VTimestamp (sint 64 (Z.lxor (z mod 2 ^ 64) SIGN)))
  else if decide (t = FLOAT \/ t = DECIMAL) then Some (VFloat (float_of_key (z mod 2 ^ 64)))
  else None.
Proof. unfold decode_numeric_key. by rewrite be8_app_length, be8_app_val. Qed.

Lemma i64_key_inverse i :
  is_sint 64 i = true -> sint 64 (Z.lxor (Z.lxor (wrap 64 i) SIGN mod 2 ^ 64) SIGN) = i.
Proof.
  intros Hi. rewrite (Z.mod_small (Z.lxor _ _)).
  - rewrite Z.lxor_assoc, Z.lxor_nilpotent, Z.lxor_0_r. unfold wrap. by apply sint_mod.
  - rewrite sign_flip_arith by done. apply is_sint_spec in Hi. change (64 - 1) with 63 in Hi.
    unfold SIGN. lia.
Qed.

Lemma float_key_inverse x : 0 <= x < 2 ^ 64 -> float_of_key (f64_ord x mod 2 ^ 64) = x.
Proof.
  intros Hx. pose proof (f64_ord_range x Hx) as Hr. rewrite Z.mod_small by done.
  unfold float_of_key. rewrite land_sign by done. rewrite f64_ord_arith in * by done.
  destruct (Z.leb_spec SIGN x) as [Hs|Hs].
  - rewrite (proj2 (Z.leb_gt SIGN _)) by (unfold SIGN in *; lia). cbn [Z.eqb negb].
    rewrite lxor_ones by lia. lia.
  - rewrite (proj2 (Z.leb_le SIGN _)) by (unfold SIGN in *; lia).
    change (SIGN =? 0) with false. cbn [negb].
    rewrite <- lxor_sign by lia.
    by rewrite Z.lxor_assoc, Z.lxor_nilpotent, Z.lxor_0_r.
Qed.

Lemma decode_numeric_key_short `{Powi} v n :
  (n < 9)%nat -> decode_numeric_key (take n (encode_key v)) = None.
Proof.
  intros Hn. destruct (take n (encode_key v)) as [|t r] eqn:E; [done|].
  assert (length r < 8)%nat as Hr.
  { apply (f_equal length) in E. rewrite length_take in E. cbn [length] in E. lia. }
  unfold decode_numeric_key. by rewrite (proj2 (Nat.ltb_lt _ _) Hr).
Qed.

(** ** Properties *)



(** Exact keys identify values: two keys agree, as the leading component
    of any two tuples, exactly when the values are equal once every decimal is
    in normal form, and then what follows agrees too — so a tuple of
    components decodes one way. *)
Theorem exact_key_equality `{Powi} a b x y :
  wf_value a = true -> wf_value b = true -> plain a = true -> plain b = true ->
  encode_exact_key a ++ x = encode_exact_key b ++ y <-> canon a = canon b /\ x = y.
Proof.
  intros Wa Wb Pa Pb. unfold encode_exact_key. rewrite <- bytes_cmp_eq, encode_exact_cmp by done.
  rewrite then_cmp_eq, bytes_cmp_eq. split.
  - intros [E ->]. split; [|done]. by apply value_cmp_canon.
  - intros [E ->]. split; [|done].
    pose proof (encode_exact_cmp a b [] [] Wa Wb Pa Pb) as Ec.
    rewrite <- (encode_exact_canon a), <- (encode_exact_canon b), E, bytes_cmp_refl in Ec by done.
    by apply eq_sym, then_cmp_eq in Ec as [? _].
Qed.

Lemma exact_key_equality_witness :
  @encode_exact_key powi_by_squaring (VArray [VDecimal {| mantissa := 100; scale := 2 |}]) ++ [x01]
  = @encode_exact_key powi_by_squaring (VArray [VDecimal {| mantissa := 1; scale := 0 |}]) ++ [x01].
Proof.
  apply (@exact_key_equality powi_by_squaring
           (VArray [VDecimal {| mantissa := 100; scale := 2 |}])
           (VArray [VDecimal {| mantissa := 1; scale := 0 |}]) [x01] [x01]);
    [vm_compute; reflexivity..|]. split; [vm_compute; reflexivity|reflexivity].
Defined.

(** Outside those values exact keys are ambiguous, although the source
    says two values give one key exactly when they are equal: [[[],null]] and
    [[[null]]] are different values with one exact key, and [0.0 = -0.0] are
    equal doubles with two. *)
Theorem exact_key_collides `{Powi} :
  let a := VArray [VArray []; VNull] in
  let b := VArray [VArray [VNull]] in
  wf_value a = true /\ wf_value b = true /\ a <> b
  /\ encode_exact_key a = encode_exact_key b
  /\ f64_cmp 0 SIGN = Some Eq
  /\ encode_exact_key (VFloat 0) <> encode_exact_key (VFloat SIGN).
Proof. cbn zeta. split_and!; try reflexivity; vm_compute; discriminate. Qed.

(** The placement prefix of an array key is the array tag and the keys of
    its first [n] components, and it exists exactly when there are [n] of
    them ([n > 0]), each of them a scalar; otherwise the caller falls back to
    the whole key. *)
Theorem encoded_array_prefix_components `{Powi} items n :
  wf_value (VArray items) = true ->
  encoded_array_prefix (encode_key (VArray items)) n =
  if (0 <? n)%nat && (n <=? length items)%nat && forallb scalar (take n items)
  then Some (ARRAY :: flat_map encode_into (take n items)) else None.
Proof.
  intros W. unfold encoded_array_prefix, encode_key. cbn [encode_into head].
  rewrite bool_decide_true by done. destruct n as [|n]; [done|].
  change (0 <? S n)%nat with true. cbn [Nat.eqb orb negb andb]. change 1%nat with (length [ARRAY]) at 1.
  rewrite app_comm_cons. change (ARRAY :: ?l) with ([ARRAY] ++ l). rewrite <- app_assoc.
  rewrite (skip_components_encode [ARRAY]) by done.
  destruct (S n <=? length items)%nat eqn:El, (forallb scalar _); cbn [andb]; try done.
  cbn [fmap option_fmap option_map]. f_equal.
  rewrite <- (take_drop (S n) items) at 2. rewrite flat_map_app, <- app_assoc, app_assoc.
  apply take_app_length'. by rewrite length_app.
Qed.

Lemma encoded_array_prefix_components_witness :
  @encoded_array_prefix (@encode_key powi_by_squaring (VArray [VBool true; VNull])) 1
  = Some [ARRAY; BOOL; x01].
Proof.
  rewrite (@encoded_array_prefix_components powi_by_squaring [VBool true; VNull] 1);
    [reflexivity|vm_compute; reflexivity].
Defined.

(** [decode_numeric_key] inverts the key encoding of the numeric types,
    whatever follows the component: exactly for integers, timestamps and
    floats, to the [f64] projection for decimals; every other type, and a
    component cut below its nine bytes, gives [None]. *)
Theorem decode_numeric_key_inverse `{Powi} v rest :
  wf_value v = true ->
  decode_numeric_key (encode_key v ++ rest) =
  match v with
  | VInt _ | VTimestamp _ | VFloat _ => Some v
  | VDecimal d => Some (VFloat (to_f64 d))
  | _ => None
  end
  /\ (forall n, (n < 9)%nat -> decode_numeric_key (take n (encode_key v)) = None).
Proof.
  intros W. split; [|by intros; apply decode_numeric_key_short].
  unfold encode_key.
  destruct v; cbn [encode_into app wf_value] in *;
    try (unfold decode_numeric_key; by case_match);
    unfold encode_i64, encode_f64; rewrite decode_numeric_at.
  - by rewrite decide_True, i64_key_inverse.
  - apply is_uint_spec in W.
    rewrite decide_False, decide_False, decide_True, float_key_inverse by auto. done.
  - rewrite decide_False, decide_False, decide_True, float_key_inverse by auto using to_f64_range.
    done.
  - by rewrite decide_False, decide_True, i64_key_inverse.
Qed.

Lemma decode_numeric_key_inverse_witness :
  @decode_numeric_key (@encode_key powi_by_squaring (VInt (-5)) ++ [xff]) = Some (VInt (-5)).
Proof.
  apply (@decode_numeric_key_inverse powi_by_squaring (VInt (-5)) [xff]). vm_compute. reflexivity.
Defined.
