(* ===== verification/Cursor.v ===== *)
(** * Cursors and readers

    The byte readers of the sources ([Cursor] of [codec.rs] and [message.rs],
    [Reader] of [handshake.rs]) share one shape: a borrowed slice and a
    position that [take] moves, or fails without moving.  A [reader] is a
    decoder in that style: it threads the cursor and may fail.  Two facts are
    proved of every decoder: what it gives back on the bytes of an encoder
    ([reads_back]), and what its success says of the bytes it consumed
    ([parses]); both compose along the monad. *)
From S2P Require Import Prelude Bytes Text.
#[local] Open Scope Z_scope.

Record Cursor := { cur_bytes : bytes; cur_pos : Z }.

Definition cursor_new (bs : bytes) : Cursor := {| cur_bytes := bs; cur_pos := 0 |}.

Definition len (bs : bytes) : Z := Z.of_nat (length bs).

(** [bytes.len().saturating_sub(pos)]. *)
Definition remaining (c : Cursor) : Z := Z.max 0 (len c.(cur_bytes) - c.(cur_pos)).

(** Where the cursor is after [n] more bytes. *)
Definition advance (c : Cursor) (n : Z) : Cursor :=
  {| cur_bytes := c.(cur_bytes); cur_pos := c.(cur_pos) + n |}.

(** The bytes still to read. *)
Definition rest (c : Cursor) : bytes := drop (Z.to_nat c.(cur_pos)) c.(cur_bytes).

(** A Rust slice holds at most [isize::MAX] bytes. *)
Definition is_slice (bs : bytes) : Prop := len bs < 2 ^ 63.

Definition cursor_ok (c : Cursor) : Prop :=
  0 <= c.(cur_pos) <= len c.(cur_bytes) /\ is_slice c.(cur_bytes).

Lemma len_app a b : len (a ++ b) = len a + len b.
Proof. unfold len. rewrite length_app. lia. Qed.

Lemma len_cons b l : len (b :: l) = 1 + len l.
Proof. unfold len. cbn [length]. lia. Qed.

Lemma len_nonneg b : 0 <= len b.
Proof. unfold len. lia. Qed.

Lemma len_le_bytes n z : len (le_bytes n z) = Z.of_nat n.
Proof. unfold len. by rewrite le_bytes_length. Qed.

Lemma advance_advance c a b : advance (advance c a) b = advance c (a + b).
Proof. unfold advance. cbn. f_equal. lia. Qed.

Lemma advance_0 c : advance c 0 = c.
Proof. destruct c as [bs p]. unfold advance. cbn. f_equal. lia. Qed.

Lemma cursor_new_ok bs : is_slice bs -> cursor_ok (cursor_new bs).
Proof. unfold cursor_ok, cursor_new, len. cbn. split; [lia|done]. Qed.

Lemma rest_new bs : rest (cursor_new bs) = bs.
Proof. done. Qed.

Lemma rest_length c : cursor_ok c -> len (rest c) = remaining c.
Proof. intros [[? ?] _]. unfold len, rest, remaining in *. rewrite length_drop. unfold len. lia. Qed.

Lemma rest_nil c : cursor_ok c -> rest c = [] -> c.(cur_pos) = len c.(cur_bytes).
Proof.
  intros Hc Hr. pose proof (rest_length c Hc) as Hl. rewrite Hr in Hl.
  destruct Hc as [? _]. unfold remaining in Hl. change (len []) with 0 in Hl. lia.
Qed.

Lemma remaining_nonneg c : 0 <= remaining c.
Proof. unfold remaining. lia. Qed.

Lemma remaining_new bs : remaining (cursor_new bs) = len bs.
Proof. unfold remaining, cursor_new. cbn. pose proof (len_nonneg bs). lia. Qed.

(** Stepping over a prefix of what is left. *)
Lemma rest_advance c s l :
  cursor_ok c -> rest c = s ++ l ->
  rest (advance c (len s)) = l /\ cursor_ok (advance c (len s))
  /\ remaining (advance c (len s)) = remaining c - len s /\ len s <= remaining c.
Proof.
  intros Hc Hr. pose proof (rest_length c Hc) as Hl.
  assert (Hle : len s <= remaining c).
  { rewrite <- Hl, Hr, len_app. pose proof (len_nonneg l). lia. }
  pose proof (len_nonneg s). destruct Hc as [Hp Hs].
  unfold rest, advance, cursor_ok, remaining, len in *. cbn. split_and!; [|lia..|done|lia|lia].
  rewrite Z2Nat.inj_add, <- drop_drop by lia. rewrite Hr. apply drop_app_length'. lia.
Qed.

(** ** Readers *)

Definition reader (E A : Type) : Type := Cursor -> res E (A * Cursor).

#[export] Instance reader_ret {E} : MRet (reader E) := fun A a c => Ok (a, c).
#[export] Instance reader_bind {E} : MBind (reader E) := fun A B k r c =>
  match r c with
  | Ok (a, c) => k a c
  | Err e => Err e
  | Panic => Panic
  | OutOfFuel => OutOfFuel
  end.

Definition fail {E A} (e : E) : reader E A := fun c => Err e.

(** An index out of range, a failed [unwrap], … *)
Definition panic {E A} : reader E A := fun c => Panic.

(** Lift a computation that does not touch the cursor. *)
Definition lift {E A} (m : res E A) : reader E A := fun c => a ← m; Ok (a, c).

(** Refuse a count [n] of elements of at least [k] bytes that the input cannot hold. *)
Definition ensure {E} (k n : Z) (e : E) : reader E unit :=
  fun c => if remaining c / k <? n then Err e else Ok (tt, c).

(** [for _ in 0..n]: the loop body threads a state; the counter stays an
    integer, and the fuel of the recursion is what is left of the input. *)
Fixpoint for_n {E S} (fuel : nat) (n : Z) (step : S -> reader E S) (s : S) : reader E S := fun c =>
  if n <=? 0 then Ok (s, c)
  else
    match fuel with
    | O => OutOfFuel
    | Datatypes.S fuel => (s ← step s; for_n fuel (n - 1) step s) c
    end.

Definition for_each {E S} (n : Z) (step : S -> reader E S) (s : S) : reader E S := fun c =>
  for_n (Datatypes.S (Z.to_nat (remaining c))) n step s c.

(** Run a reader on a whole slice; [trailing] when bytes are left over. *)
Definition read_all {E A} (trailing : E) (r : reader E A) (bs : bytes) : res E A :=
  '(a, c) ← r (cursor_new bs);
  if c.(cur_pos) =? len bs then Ok a else Err trailing.

(** On input that starts with [s] the reader consumes [s] and yields [a]. *)
Definition reads_back {E A} (r : reader E A) (s : bytes) (a : A) : Prop :=
  forall c l, cursor_ok c -> rest c = s ++ l -> r c = Ok (a, advance c (len s)).

(** A success consumed some [s] of at least [k] bytes, which alone decides
    the result, and the result satisfies [Q]. *)
Definition parses {E A} (k : Z) (Q : A -> Prop) (r : reader E A) : Prop :=
  forall c a c', cursor_ok c -> r c = Ok (a, c') ->
  exists s l, rest c = s ++ l /\ c' = advance c (len s) /\ k <= len s /\ Q a /\ reads_back r s a.

(** A success moves the cursor forward by at least [k]. *)
Definition moves {E A} (k : Z) (r : reader E A) : Prop :=
  forall c a c', cursor_ok c -> r c = Ok (a, c') ->
  cursor_ok c' /\ remaining c' <= remaining c - k /\ cur_bytes c' = cur_bytes c.

(** The reader comes back, with a value or an error. *)
Definition reader_total {E A} (r : reader E A) : Prop := forall c, cursor_ok c -> returns (r c).

(** It does so on inputs of fewer than [n] bytes. *)
Definition total_upto {E A} (n : Z) (r : reader E A) : Prop :=
  forall c, cursor_ok c -> remaining c < n -> returns (r c).

(** [r'] does what [r] does wherever [r] had fuel enough. *)
Definition refines {E A} (r r' : reader E A) : Prop := forall c, r c = OutOfFuel \/ r c = r' c.

Section rules.
Context {E : Type}.

Lemma reader_bind_ok {A B} (r : reader E A) (k : A -> reader E B) c b c' :
  (r ≫= k) c = Ok (b, c') <-> exists a c1, r c = Ok (a, c1) /\ k a c1 = Ok (b, c').
Proof.
  unfold mbind, reader_bind. destruct (r c) as [[a c1]| | |]; split; try discriminate.
  - eauto.
  - by intros (? & ? & [= -> ->] & ?).
  - by intros (? & ? & [=] & _).
  - by intros (? & ? & [=] & _).
  - by intros (? & ? & [=] & _).
Qed.

Lemma parses_ok {A} k Q (r : reader E A) c a c' :
  parses k Q r -> cursor_ok c -> r c = Ok (a, c') ->
  cursor_ok c' /\ remaining c' <= remaining c - k /\ Q a /\ cur_bytes c' = cur_bytes c.
Proof.
  intros Hr Hc H. destruct (Hr _ _ _ Hc H) as (s & l & Hs & -> & Hk & HQ & _).
  apply rest_advance in Hs as (_ & ? & ? & _); [|done]. split_and!; [done|lia|done|done].
Qed.

Lemma parses_moves {A} k Q (r : reader E A) : parses k Q r -> moves k r.
Proof. intros Hr c a c' Hc H. by destruct (parses_ok _ _ _ _ _ _ Hr Hc H) as (? & ? & _ & ?). Qed.

Lemma moves_bind {A B} k1 k2 k (r : reader E A) (f : A -> reader E B) :
  moves k1 r -> (forall a, moves k2 (f a)) -> k <= k1 + k2 -> moves k (r ≫= f).
Proof.
  intros Hr Hf Hk c b c' Hc (a & c1 & H1 & H2)%reader_bind_ok.
  destruct (Hr _ _ _ Hc H1) as (Hc1 & ? & ?). destruct (Hf a _ _ _ Hc1 H2) as (? & ? & ?).
  split_and!; [done|lia|congruence].
Qed.

Lemma moves_ret {A} (a : A) : moves 0 (mret a : reader E A).
Proof. intros c b c' Hc [= <- <-]. split_and!; [done|lia|done]. Qed.

Lemma moves_fail {A} k (e : E) : moves k (fail e : reader E A).
Proof. by intros c b c' Hc [=]. Qed.

Lemma reads_back_ret {A} (a : A) : reads_back (mret a : reader E A) [] a.
Proof. intros c l _ _. change (len []) with 0. by rewrite advance_0. Qed.

Lemma reads_back_bind {A B} (r : reader E A) (k : A -> reader E B) s t a b :
  reads_back r s a -> reads_back (k a) t b -> reads_back (r ≫= k) (s ++ t) b.
Proof.
  intros Hr Hk c l Hc Hl. rewrite <- app_assoc in Hl. unfold mbind, reader_bind.
  rewrite (Hr c (t ++ l)) by done.
  destruct (rest_advance c s (t ++ l) Hc Hl) as (Hl' & Hc' & _ & _).
  rewrite (Hk _ l) by done. by rewrite advance_advance, len_app.
Qed.

Lemma reads_back_bind_nil {A B} (r : reader E A) (k : A -> reader E B) t a b :
  reads_back r [] a -> reads_back (k a) t b -> reads_back (r ≫= k) t b.
Proof. intros. change t with ([] ++ t). by eapply reads_back_bind. Qed.

Lemma reads_back_lift {A} (m : res E A) a : m = Ok a -> reads_back (lift m) [] a.
Proof. intros -> c l _ _. change (len []) with 0. by rewrite advance_0. Qed.

Lemma reads_back_ext {A} (r r' : reader E A) s a :
  (forall c, r c = r' c) -> reads_back r s a -> reads_back r' s a.
Proof. intros Hr H c l Hc Hl. rewrite <- Hr. by eapply H. Qed.

(** A count check passes where the elements follow. *)
Lemma reads_back_ensure {A} k n e (r : reader E A) s a :
  0 < k -> k * n <= len s -> reads_back r s a -> reads_back (ensure k n e ≫= fun _ => r) s a.
Proof.
  intros Hk Hn Hr c l Hc Hl. unfold mbind, reader_bind, ensure.
  destruct (rest_advance c s l Hc Hl) as (_ & _ & _ & Hle).
  rewrite (proj2 (Z.ltb_ge _ _)).
  - by apply (Hr c l).
  - apply Z.div_le_lower_bound; lia.
Qed.

Lemma parses_ret {A} (a : A) (Q : A -> Prop) : Q a -> parses 0 Q (mret a : reader E A).
Proof.
  intros Ha c b c' Hc H. injection H as <- <-. exists [], (rest c).
  change (len []) with 0. rewrite advance_0. split_and!; try done. apply reads_back_ret.
Qed.

Lemma parses_fail {A} k (Q : A -> Prop) (e : E) : parses k Q (fail e : reader E A).
Proof. intros c a c' _ [=]. Qed.

Lemma parses_bind {A B} k1 k2 k (P : A -> Prop) (Q : B -> Prop) (r : reader E A) (f : A -> reader E B) :
  parses k1 P r -> (forall a, P a -> parses k2 Q (f a)) -> k <= k1 + k2 -> parses k Q (r ≫= f).
Proof.
  intros Hr Hf Hk c b c' Hc (a & c1 & H1 & H2)%reader_bind_ok.
  destruct (Hr _ _ _ Hc H1) as (s & l & Hs & -> & Hk1 & Ha & Hrb).
  pose proof (rest_advance c s l Hc Hs) as (Hl & Hc1 & _ & _).
  destruct (Hf a Ha _ _ _ Hc1 H2) as (t & l' & Ht & -> & Hk2 & Hb & Hrb2).
  exists (s ++ t), l'. rewrite advance_advance, len_app. split_and!; [|done|lia|done|].
  - by rewrite Hs, <- Hl, Ht, app_assoc.
  - by eapply reads_back_bind.
Qed.

Lemma parses_weaken {A} k k' (P Q : A -> Prop) (r : reader E A) :
  parses k P r -> k' <= k -> (forall a, P a -> Q a) -> parses k' Q r.
Proof.
  intros Hr Hk HPQ c a c' Hc H. destruct (Hr _ _ _ Hc H) as (s & l & ? & ? & ? & ? & ?).
  exists s, l. split_and!; try done; [lia|auto].
Qed.

Lemma parses_lift {A} (m : res E A) (Q : A -> Prop) :
  (forall a, m = Ok a -> Q a) -> parses 0 Q (lift m).
Proof.
  intros HQ c a c' Hc H. unfold lift in H. destruct m as [a0| | |]; try discriminate.
  injection H as <- <-. exists [], (rest c). change (len []) with 0. rewrite advance_0.
  split_and!; [done|done|done|auto|by apply reads_back_lift].
Qed.

Lemma parses_ensure {A} k n m e (Q : A -> Prop) (r : reader E A) :
  0 < k -> k * n <= m -> parses m Q r -> parses m Q (ensure k n e ≫= fun _ => r).
Proof.
  intros Hk Hn Hr c a c' Hc (u & c1 & H1 & H2)%reader_bind_ok. unfold ensure in H1.
  destruct (_ <? _); [done|]. injection H1 as <- <-.
  destruct (Hr _ _ _ Hc H2) as (s & l & ? & ? & ? & ? & ?). exists s, l. split_and!; try done.
  apply reads_back_ensure; [done|lia|done].
Qed.

Lemma total_bind {A B} k (P : A -> Prop) (r : reader E A) (f : A -> reader E B) :
  reader_total r -> parses k P r -> (forall a, P a -> reader_total (f a)) -> reader_total (r ≫= f).
Proof.
  intros Ht Hr Hf c Hc. specialize (Ht c Hc). unfold mbind, reader_bind.
  destruct (r c) as [[a c1]| | |] eqn:H; try done.
  destruct (parses_ok _ _ _ _ _ _ Hr Hc H) as (Hc1 & _ & Ha & _). by apply Hf.
Qed.

Lemma total_upto_bind {A B} n k (P : A -> Prop) (r : reader E A) (f : A -> reader E B) :
  total_upto n r -> parses k P r -> (forall a, P a -> total_upto (n - k) (f a)) ->
  total_upto n (r ≫= f).
Proof.
  intros Ht Hr Hf c Hc Hn. specialize (Ht c Hc Hn). unfold mbind, reader_bind.
  destruct (r c) as [[a c1]| | |] eqn:H; try done.
  destruct (parses_ok _ _ _ _ _ _ Hr Hc H) as (Hc1 & ? & Ha & _). apply Hf; [done|done|lia].
Qed.

Lemma total_upto_ret {A B} n (r : reader E A) (f : A -> B) :
  total_upto n r -> total_upto n (a ← r; mret (f a)).
Proof.
  intros Hr c Hc Hn. specialize (Hr c Hc Hn). unfold mbind, reader_bind.
  by destruct (r c) as [[a c1]| | |].
Qed.

Lemma total_total_upto {A} n (r : reader E A) : reader_total r -> total_upto n r.
Proof. intros Hr c Hc _. by apply Hr. Qed.

Lemma total_upto_weaken {A} n m (r : reader E A) : total_upto n r -> m <= n -> total_upto m r.
Proof. intros Hr Hm c Hc Hn. apply Hr; [done|lia]. Qed.

Lemma total_upto_ensure {A} k n m e (r : reader E A) :
  total_upto m r -> total_upto m (ensure k n e ≫= fun _ => r).
Proof.
  intros Hr c Hc Hm. unfold mbind, reader_bind, ensure. destruct (_ <? _); [done|]. by apply Hr.
Qed.

Lemma refines_refl {A} (r : reader E A) : refines r r.
Proof. intros c. by right. Qed.

Lemma refines_bind {A B} (r r' : reader E A) (f f' : A -> reader E B) :
  refines r r' -> (forall a, refines (f a) (f' a)) -> refines (r ≫= f) (r' ≫= f').
Proof.
  intros Hr Hf c. unfold mbind, reader_bind.
  destruct (Hr c) as [->| <-]; [by left|]. destruct (r c) as [[a c1]| | |]; try (by right).
  apply Hf.
Qed.

Lemma refines_ok {A} (r r' : reader E A) c x : refines r r' -> r c = Ok x -> r' c = Ok x.
Proof. intros Hr H. destruct (Hr c) as [?|<-]; congruence. Qed.

Lemma total_ret {A} (a : A) : reader_total (mret a : reader E A).
Proof. done. Qed.

Lemma total_fail {A} (e : E) : reader_total (fail e : reader E A).
Proof. done. Qed.

Lemma total_lift {A} (m : res E A) : returns m -> reader_total (lift m).
Proof. intros Hm c _. by destruct m. Qed.

Lemma total_ensure {A} k n e (r : reader E A) : reader_total r -> reader_total (ensure k n e ≫= fun _ => r).
Proof.
  intros Hr c Hc. unfold mbind, reader_bind, ensure. destruct (_ <? _); [done|]. by apply Hr.
Qed.

End rules.

(** ** Loops *)

Section loops.
Context {E S : Type}.
Implicit Types (step : S -> reader E S).

Lemma for_n_done fuel n step s c : n <= 0 -> for_n fuel n step s c = Ok (s, c).
Proof. intros Hn. destruct fuel; cbn; by rewrite (proj2 (Z.leb_le _ _)). Qed.

Lemma for_n_step fuel n step s c :
  0 < n -> for_n (Datatypes.S fuel) n step s c = (s ← step s; for_n fuel (n - 1) step s) c.
Proof. intros Hn. cbn [for_n]. by rewrite (proj2 (Z.leb_gt _ _)). Qed.

(** More fuel than the input has bytes changes nothing. *)
Lemma for_n_fuel step fuel1 fuel2 n s c :
  (forall s, moves 1 (step s)) ->
  cursor_ok c -> remaining c < Z.of_nat fuel1 -> remaining c < Z.of_nat fuel2 ->
  for_n fuel1 n step s c = for_n fuel2 n step s c.
Proof.
  intros Hp. revert fuel2 n s c. induction fuel1 as [|f1 IH]; intros [|f2] n s c Hc H1 H2;
    try (pose proof (remaining_nonneg c); lia).
  destruct (Z.le_gt_cases n 0); [by rewrite !for_n_done|].
  rewrite !for_n_step by done. unfold mbind, reader_bind.
  destruct (step s c) as [[s1 c1]| | |] eqn:Hs; try done.
  destruct (Hp s _ _ _ Hc Hs) as (Hc1 & Hr & _). apply IH; [done|lia..].
Qed.

Lemma for_each_step step n s c :
  (forall s, moves 1 (step s)) -> cursor_ok c -> 0 < n ->
  for_each n step s c = (s ← step s; for_each (n - 1) step s) c.
Proof.
  intros Hp Hc Hn. unfold for_each. rewrite for_n_step by done. unfold mbind, reader_bind.
  destruct (step s c) as [[s1 c1]| | |] eqn:Hs; try done.
  destruct (Hp s _ _ _ Hc Hs) as (Hc1 & Hr & _).
  pose proof (remaining_nonneg c1). apply for_n_fuel; [done|done|lia|lia].
Qed.

Lemma for_each_done step n s c : n <= 0 -> for_each n step s c = Ok (s, c).
Proof. apply for_n_done. Qed.

Lemma for_each_parses k step n s (I : Z -> S -> Prop) :
  1 <= k -> 0 <= n ->
  (forall m s, I m s -> parses k (I (m + 1)) (step s)) -> (forall s, parses 1 (fun _ => True) (step s)) ->
  forall m, I m s -> parses (k * n) (I (m + n)) (for_each n step s).
Proof.
  intros Hk Hn Hstep H1. revert s. pattern n. apply natlike_ind; [| |done].
  - intros s m HI c a c' Hc H. rewrite for_each_done in H by done. injection H as <- <-.
    exists [], (rest c). change (len []) with 0. rewrite advance_0, Z.add_0_r.
    split_and!; try done; [lia|]. intros d l Hd _. rewrite for_each_done by done.
    change (len []) with 0. by rewrite advance_0.
  - clear n Hn. intros n Hn IH s m HI c a c' Hc H.
    rewrite for_each_step in H by (done || lia || eauto using parses_moves). replace (Z.succ n - 1) with n in H by lia.
    apply reader_bind_ok in H as (s1 & c1 & Hs & H).
    destruct (Hstep m s HI _ _ _ Hc Hs) as (t & l & Ht & -> & Hkt & HI1 & Hrb).
    pose proof (rest_advance c t l Hc Ht) as (Hl & Hc1 & _ & _).
    destruct (IH s1 (m + 1) HI1 _ _ _ Hc1 H) as (u & l' & Hu & -> & Hku & HI' & Hrb').
    exists (t ++ u), l'. rewrite advance_advance, len_app.
    split_and!; [by rewrite Ht, <- Hl, Hu, app_assoc|done|lia| |].
    + by replace (m + Z.succ n) with (m + 1 + n) by lia.
    + intros d l0 Hd Hl0. rewrite for_each_step by (done || lia || eauto using parses_moves).
      replace (Z.succ n - 1) with n by lia. revert d l0 Hd Hl0. by eapply reads_back_bind.
Qed.

Lemma for_each_total_upto m step n s :
  (forall s, moves 1 (step s)) -> (forall s, total_upto m (step s)) ->
  total_upto m (for_each n step s).
Proof.
  intros Hp Ht c Hc Hm.
  assert (Hk : remaining c < Z.of_nat (Datatypes.S (Z.to_nat (remaining c)))).
  { pose proof (remaining_nonneg c). lia. }
  revert Hk. generalize (Datatypes.S (Z.to_nat (remaining c))) as k. intros k Hk.
  revert c Hk Hc Hm n s. induction k as [|k IH]; intros c Hk Hc Hm n s; [pose proof (remaining_nonneg c); lia|].
  destruct (Z.le_gt_cases n 0); [by rewrite for_each_done|].
  rewrite for_each_step by done. specialize (Ht s c Hc Hm). unfold mbind, reader_bind.
  destruct (step s c) as [[s1 c1]| | |] eqn:Hs; try done.
  destruct (Hp s _ _ _ Hc Hs) as (Hc1 & Hr & _). apply IH; [lia|done|lia].
Qed.

Lemma for_each_total step n s :
  (forall s, moves 1 (step s)) -> (forall s, reader_total (step s)) ->
  reader_total (for_each n step s).
Proof.
  intros Hp Ht c Hc. apply (for_each_total_upto (remaining c + 1)); [done| |done|lia].
  intros. by apply total_total_upto.
Qed.

Lemma for_each_refines step step' n s :
  (forall s, refines (step s) (step' s)) -> refines (for_each n step s) (for_each n step' s).
Proof.
  intros Hs c. unfold for_each. generalize (Datatypes.S (Z.to_nat (remaining c))) as k. intros k.
  revert n s c. induction k as [|k IH]; intros n s c.
  - cbn. destruct (n <=? 0); by auto.
  - destruct (Z.le_gt_cases n 0); [rewrite !for_n_done by done; by right|].
    rewrite !for_n_step by done. unfold mbind, reader_bind.
    destruct (Hs s c) as [->| <-]; [by left|]. destruct (step s c) as [[s1 c1]| | |]; auto.
Qed.

(** A loop over encoded elements, each folded into the state by [f]. *)
Lemma for_each_reads_back {X} step (enc : X -> bytes) (f : S -> X -> S) (xs : list X) s :
  (forall s, parses 1 (fun _ => True) (step s)) ->
  (forall s x, x ∈ xs -> reads_back (step s) (enc x) (f s x)) ->
  reads_back (for_each (Z.of_nat (length xs)) step s) (flat_map enc xs) (fold_left f xs s).
Proof.
  intros Hp. revert s. induction xs as [|x xs IH]; intros s Hx c l Hc Hl.
  - rewrite for_each_done by done. change (len (flat_map enc [])) with 0. by rewrite advance_0.
  - rewrite for_each_step by (done || (cbn [length]; lia) || eauto using parses_moves).
    replace (Z.of_nat (length (x :: xs)) - 1) with (Z.of_nat (length xs)) by (cbn [length]; lia).
    revert c l Hc Hl. cbn [flat_map fold_left]. eapply reads_back_bind.
    + apply Hx. by left.
    + apply IH. intros. apply Hx. by right.
Qed.

End loops.

(** [r2] succeeds where [r] does, and leaves the cursor at the same place. *)
Definition follows {E A B} (r : reader E A) (r2 : reader E B) (R : A -> B -> Prop) : Prop :=
  forall c a c', cursor_ok c -> r c = Ok (a, c') -> exists b, r2 c = Ok (b, c') /\ R a b.

Lemma follows_ret {E A B} (a : A) (b : B) (R : A -> B -> Prop) :
  R a b -> follows (mret a : reader E A) (mret b) R.
Proof. intros HR c x c' _ [= <- <-]. eauto. Qed.

Lemma follows_refl {E A} (r : reader E A) : follows r r (=).
Proof. intros c a c' _ H. eauto. Qed.

Lemma follows_bind {E A A' B B'} k (P : A -> Prop) (R : A -> A' -> Prop) (Q : B -> B' -> Prop)
    (r : reader E A) (r' : reader E A') (f : A -> reader E B) (f' : A' -> reader E B') :
  parses k P r -> follows r r' R -> (forall a a', P a -> R a a' -> follows (f a) (f' a') Q) ->
  follows (r ≫= f) (r' ≫= f') Q.
Proof.
  intros Hp Hr Hf c b c' Hc (a & c1 & H1 & H2)%reader_bind_ok.
  destruct (parses_ok _ _ _ _ _ _ Hp Hc H1) as (Hc1 & _ & Ha & _).
  destruct (Hr _ _ _ Hc H1) as (a' & H1' & HR).
  destruct (Hf a a' Ha HR _ _ _ Hc1 H2) as (b' & H2' & HQ).
  exists b'. split; [|done]. apply reader_bind_ok. eauto.
Qed.

(** Two loops in step, over one input. *)
Lemma for_each_follows {E S T} (R : S -> T -> Prop) (step : S -> reader E S) (step2 : T -> reader E T)
    n s t bs c s' c' :
  (forall s, parses 1 (fun _ => True) (step s)) ->
  (forall s t c s' c', cursor_ok c -> cur_bytes c = bs -> R s t -> step s c = Ok (s', c') ->
     exists t', step2 t c = Ok (t', c') /\ R s' t') ->
  cursor_ok c -> cur_bytes c = bs -> R s t -> for_each n step s c = Ok (s', c') ->
  exists t', for_each n step2 t c = Ok (t', c') /\ R s' t'.
Proof.
  intros Hp Hsim. unfold for_each. generalize (Datatypes.S (Z.to_nat (remaining c))) as fuel.
  intros fuel. revert n s t c. induction fuel as [|fuel IH]; intros n s t c Hc Hb HR H.
  - cbn in *. destruct (n <=? 0); [|done]. injection H as -> ->. eauto.
  - destruct (Z.le_gt_cases n 0).
    + rewrite for_n_done in H by done. injection H as -> ->. exists t. split; [by apply for_n_done|done].
    + rewrite for_n_step in H by done. apply reader_bind_ok in H as (s1 & c1 & Hs & H).
      destruct (Hsim _ _ _ _ _ Hc Hb HR Hs) as (t1 & Ht & HR1).
      destruct (parses_ok _ _ _ _ _ _ (Hp s) Hc Hs) as (Hc1 & _ & _ & Hb1).
      destruct (IH (n - 1) s1 t1 c1 Hc1 ltac:(congruence) HR1 H) as (t' & Ht' & HR'). exists t'.
      rewrite for_n_step by done. split; [|done]. apply reader_bind_ok. eauto.
Qed.

(** ** The basic readers *)

(** The length-prefixed form every codec of the sources writes ([as u32] keeps
    the low 32 bits). *)
Definition prefixed (b : bytes) : bytes := le_bytes 4 (len b) ++ b.

Lemma len_prefixed b : len (prefixed b) = 4 + len b.
Proof. unfold prefixed. rewrite len_app, len_le_bytes. lia. Qed.

Section basic.
Context {E : Type} (overflow short bad_utf8 : E).

(** [pos.checked_add(n)], then [bytes.get(pos..end)]. *)
Definition take_with (n : Z) : reader E bytes := fun c =>
  let end_ := c.(cur_pos) + n in
  if negb (end_ <? 2 ^ 64) then Err overflow
  else if len c.(cur_bytes) <? end_ then Err short
  else Ok (take (Z.to_nat n) (rest c), advance c n).

Definition u8_with : reader E byte :=
  s ← take_with 1;
  match s with b :: _ => mret b | [] => panic end.

(** A little-endian unsigned integer of [n] bytes. *)
Definition uint_with (n : nat) : reader E Z := s ← take_with (Z.of_nat n); mret (le_val s).

Definition bytes_with : reader E bytes := n ← uint_with 4; take_with n.

Definition string_with : reader E bytes :=
  s ← bytes_with; if utf8_valid s then mret s else fail bad_utf8.

Lemma take_reads n s : len s = n -> reads_back (take_with n) s s.
Proof.
  intros Hn c l Hc Hl. destruct (rest_advance c s l Hc Hl) as (_ & _ & _ & Hle).
  unfold take_with. destruct Hc as [Hp Hs]. pose proof (len_nonneg s).
  unfold is_slice, remaining in *.
  rewrite (proj2 (Z.ltb_lt _ (2 ^ 64))) by lia. cbn [negb].
  rewrite (proj2 (Z.ltb_ge _ _)) by lia. rewrite Hl. subst n. do 3 f_equal.
  unfold len. rewrite Nat2Z.id. apply take_app_length.
Qed.

Lemma take_parses n : 0 <= n -> parses n (fun s => len s = n) (take_with n).
Proof.
  intros Hn c s c' Hc H. pose proof (rest_length c Hc) as Hl. unfold take_with in H.
  destruct (negb _); [done|].
  destruct (Z.ltb_spec (len c.(cur_bytes)) (c.(cur_pos) + n)); [done|].
  injection H as <- <-. exists (take (Z.to_nat n) (rest c)), (drop (Z.to_nat n) (rest c)).
  assert (Hlen : len (take (Z.to_nat n) (rest c)) = n).
  { destruct Hc as [? _]. unfold len, remaining in *. rewrite length_take. unfold len in *. lia. }
  rewrite Hlen, take_drop. split_and!; [done..|lia|done|]. by apply take_reads.
Qed.

Lemma take_total n : reader_total (take_with n).
Proof. intros c _. unfold take_with. destruct (negb _); [done|]. by destruct (_ <? _). Qed.

Lemma u8_reads b : reads_back u8_with [b] b.
Proof.
  change [b] with ([b] ++ []). eapply reads_back_bind; [by apply take_reads|]. apply reads_back_ret.
Qed.

Lemma u8_parses : parses 1 (fun _ => True) u8_with.
Proof.
  eapply (parses_bind 1 0); [by apply take_parses| |done].
  intros [|b s] Hs; [done|]. by apply parses_ret.
Qed.

Lemma u8_total : reader_total u8_with.
Proof.
  eapply total_bind; [apply take_total|by apply take_parses|]. by intros [|b s].
Qed.

Lemma uint_reads n z : reads_back (uint_with n) (le_bytes n z) (z mod 256 ^ Z.of_nat n).
Proof.
  rewrite <- (app_nil_r (le_bytes n z)). eapply reads_back_bind.
  - apply take_reads, len_le_bytes.
  - rewrite le_val_bytes. apply reads_back_ret.
Qed.

Lemma uint_parses n :
  parses (Z.of_nat n) (fun z => 0 <= z < 256 ^ Z.of_nat n) (uint_with n).
Proof.
  eapply (parses_bind (Z.of_nat n) 0); [apply take_parses; lia| |lia].
  intros s Hs. apply parses_ret. pose proof (le_val_range s) as Hv. unfold len in Hs.
  by rewrite Hs in Hv.
Qed.

Lemma uint_total n : reader_total (uint_with n).
Proof.
  eapply total_bind; [apply take_total|apply take_parses; lia|]. by intros.
Qed.

Lemma bytes_reads b : len b < 2 ^ 32 -> reads_back bytes_with (prefixed b) b.
Proof.
  intros Hb. eapply reads_back_bind; [apply uint_reads|]. apply take_reads.
  pose proof (len_nonneg b). change (256 ^ Z.of_nat 4) with (2 ^ 32). by rewrite Z.mod_small.
Qed.

Lemma bytes_parses : parses 4 (fun b => len b < 2 ^ 32) bytes_with.
Proof.
  eapply (parses_bind 4 0); [apply uint_parses| |done]. intros n Hn.
  change (256 ^ Z.of_nat 4) with (2 ^ 32) in Hn.
  cbv beta in Hn. apply (parses_weaken n 0 (fun s => len s = n)); [apply take_parses; lia|lia|].
  intros; lia.
Qed.

Lemma bytes_total : reader_total bytes_with.
Proof. eapply total_bind; [apply uint_total|apply uint_parses|]. intros. apply take_total. Qed.

Lemma string_reads s :
  len s < 2 ^ 32 -> utf8_valid s = true -> reads_back string_with (prefixed s) s.
Proof.
  intros Hl Hu. rewrite <- (app_nil_r (prefixed s)).
  eapply reads_back_bind; [by apply bytes_reads|]. rewrite Hu. apply reads_back_ret.
Qed.

Lemma string_parses : parses 4 (fun s => len s < 2 ^ 32 /\ utf8_valid s = true) string_with.
Proof.
  eapply (parses_bind 4 0); [apply bytes_parses| |done]. intros s Hs.
  destruct (utf8_valid s) eqn:Hu; [by apply parses_ret|apply parses_fail].
Qed.

Lemma string_total : reader_total string_with.
Proof.
  eapply total_bind; [apply bytes_total|apply bytes_parses|]. intros s _.
  by destruct (utf8_valid s).
Qed.

End basic.

Lemma read_all_reads {E A} (e : E) (r : reader E A) bs a :
  is_slice bs -> reads_back r bs a -> read_all e r bs = Ok a.
Proof.
  intros Hs Hr. unfold read_all. rewrite (Hr (cursor_new bs) []).
  - cbn. by rewrite Z.eqb_refl.
  - by apply cursor_new_ok.
  - by rewrite app_nil_r.
Qed.

Lemma read_all_ok {E A} (e : E) (r : reader E A) bs a :
  read_all e r bs = Ok a <-> exists c, r (cursor_new bs) = Ok (a, c) /\ cur_pos c = len bs.
Proof.
  unfold read_all. destruct (r (cursor_new bs)) as [[a0 c]| | |]; cbn; split; try done;
    try by intros (? & [=] & _).
  - destruct (Z.eqb_spec (cur_pos c) (len bs)); [|done]. intros [= ->]. eauto.
  - intros (c' & [= -> ->] & ->). by rewrite Z.eqb_refl.
Qed.

Lemma read_all_returns {E A} (e : E) (r : reader E A) bs :
  is_slice bs -> reader_total r -> returns (read_all e r bs).
Proof.
  intros Hs Hr. specialize (Hr _ (cursor_new_ok _ Hs)). unfold read_all.
  destruct (r (cursor_new bs)) as [[a c]| | |]; try done. cbn. by destruct (_ =? _).
Qed.

#[export] Hint Resolve reads_back_ret take_reads u8_reads uint_reads bytes_reads string_reads
  parses_fail u8_parses uint_parses bytes_parses string_parses
  total_ret total_fail take_total u8_total uint_total bytes_total string_total : skaidb.

(** The position, read. *)
Definition tell {E} : reader E Z := fun c => Ok (c.(cur_pos), c).
