(* ===== verification/Codec.v ===== *)
(** * The value codec

    [crates/skaidb-types/src/codec.rs]: the lossless binary form of values and
    its full decode; the partial readers of a document are in [Scan.v]. *)
From S2P Require Import Prelude Bytes Text BTree Float64 Decimal Value KeyCodec Cursor.
#[local] Open Scope Z_scope.

Module tag.
Definition NULL : byte := x00.
Definition BOOL : byte := x01.
Definition INT : byte := x02.
Definition FLOAT : byte := x03.
Definition DECIMAL : byte := x04.
Definition STRING : byte := x05.
Definition BYTES : byte := x06.
Definition UUID : byte := x07.
Definition TIMESTAMP : byte := x08.
Definition ARRAY : byte := x09.
Definition DOCUMENT : byte := x0a.
End tag.

Definition unrep (s : String.string) : ValueError := UnrepresentableJson (str s).
Arguments unrep s%_string_scope.

(** ** Encoding *)

Definition write_bytes (b : bytes) : bytes := prefixed b.

(** [out.len() as u32], little-endian. *)
Definition count32 {A} (l : list A) : bytes := le_bytes 4 (Z.of_nat (length l)).

Fixpoint encode_value (v : Value) : bytes :=
  match v with
  | VNull => [tag.NULL]
  | VBool b => [tag.BOOL; bool_byte b]
  | VInt i => tag.INT :: le_bytes 8 i
  | VFloat x => tag.FLOAT :: le_bytes 8 x
  | VDecimal d => tag.DECIMAL :: le_bytes 16 d.(mantissa) ++ le_bytes 4 d.(scale)
  | VString s => tag.STRING :: write_bytes s
  | VBytes b => tag.BYTES :: write_bytes b
  | VUuid u => tag.UUID :: u
  | VTimestamp t => tag.TIMESTAMP :: le_bytes 8 t
  | VArray items => tag.ARRAY :: count32 items ++ flat_map encode_value items
  | VDocument doc =>
      tag.DOCUMENT :: count32 doc ++ flat_map (fun kv => write_bytes kv.1 ++ encode_value kv.2) doc
  end.

Definition encode (v : Value) : bytes := encode_value v.

(** The loop of [encode_document], without building a [Value]. *)
Definition encode_document (doc : Document) : bytes :=
  [tag.DOCUMENT] ++ count32 doc ++ flat_map (fun kv => write_bytes kv.1 ++ encode_value kv.2) doc.

(** ** Decoding *)

Section decode.
Abbreviation rd := (reader ValueError).

Definition length_overflow := unrep "length overflow".
Definition end_of_input := unrep "unexpected end of input".
Definition invalid_utf8 := unrep "invalid utf-8 in string".
Definition trailing := unrep "trailing bytes after value".
Definition unknown_tag := unrep "unknown value tag".
Definition too_many_fields := unrep "document field count exceeds input".

Definition r_take (n : Z) : rd bytes := take_with length_overflow end_of_input n.
Definition r_u8 : rd byte := u8_with length_overflow end_of_input.
Definition r_u32 : rd Z := uint_with length_overflow end_of_input 4.
Definition r_i64 : rd Z := z ← uint_with length_overflow end_of_input 8; mret (sint 64 z).
Definition r_bytes : rd bytes := bytes_with length_overflow end_of_input.
Definition r_string : rd bytes := string_with length_overflow end_of_input invalid_utf8.

(** [take_borrowed] and [str_ref] read what [take] and [string] read. *)
Definition take_borrowed (n : Z) : rd bytes := r_take n.
Definition str_ref : rd bytes := r_string.

(** A length-prefixed name as raw bytes. *)
Definition raw_name : rd bytes := n ← r_u32; take_borrowed n.

(** [depth] bounds the nesting; [decode_at] gives more than the input can nest. *)
Fixpoint decode_value (depth : nat) : rd Value :=
  match depth with
  | O => fun _ => OutOfFuel
  | S depth =>
      t ← r_u8;
      if decide (t = tag.NULL) then mret VNull
      else if decide (t = tag.BOOL) then b ← r_u8; mret (VBool (negb (bool_decide (b = x00))))
      else if decide (t = tag.INT) then i ← r_i64; mret (VInt i)
      else if decide (t = tag.FLOAT) then i ← r_i64; mret (VFloat (wrap 64 i))
      else if decide (t = tag.DECIMAL) then
        m ← r_take 16; s ← r_u32;
        mret (VDecimal {| mantissa := sint 128 (le_val m); scale := s |})
      else if decide (t = tag.STRING) then s ← r_string; mret (VString s)
      else if decide (t = tag.BYTES) then b ← r_bytes; mret (VBytes b)
      else if decide (t = tag.UUID) then u ← r_take 16; mret (VUuid u)
      else if decide (t = tag.TIMESTAMP) then i ← r_i64; mret (VTimestamp i)
      else if decide (t = tag.ARRAY) then
        n ← r_u32;
        _ ← ensure 1 n (unrep "array count exceeds input");
        items ← for_each n (fun items => v ← decode_value depth; mret (items ++ [v])) [];
        mret (VArray items)
      else if decide (t = tag.DOCUMENT) then
        n ← r_u32;
        _ ← ensure 5 n too_many_fields;
        doc ← for_each n (fun doc => key ← r_string; val ← decode_value depth;
                                     mret (doc_insert key val doc)) doc_new;
        mret (VDocument doc)
      else fail unknown_tag
  end.

Definition decode_at : rd Value := fun c => decode_value (S (Z.to_nat (remaining c))) c.

Definition decode (bs : bytes) : res ValueError Value := read_all trailing decode_at bs.

(** The same walk without building anything; counts are not checked up front. *)
Fixpoint skip_value (depth : nat) : rd unit :=
  match depth with
  | O => fun _ => OutOfFuel
  | S depth =>
      t ← r_u8;
      if decide (t = tag.NULL) then mret tt
      else if decide (t = tag.BOOL) then _ ← r_u8; mret tt
      else if decide (t = tag.INT \/ t = tag.FLOAT \/ t = tag.TIMESTAMP) then _ ← r_i64; mret tt
      else if decide (t = tag.DECIMAL) then _ ← r_take 16; _ ← r_u32; mret tt
      else if decide (t = tag.STRING \/ t = tag.BYTES) then n ← r_u32; _ ← r_take n; mret tt
      else if decide (t = tag.UUID) then _ ← r_take 16; mret tt
      else if decide (t = tag.ARRAY) then
        n ← r_u32; for_each n (fun _ => skip_value depth) tt
      else if decide (t = tag.DOCUMENT) then
        n ← r_u32; for_each n (fun _ => k ← r_u32; _ ← r_take k; skip_value depth) tt
      else fail unknown_tag
  end.

Definition skip_at : rd unit := fun c => skip_value (S (Z.to_nat (remaining c))) c.

End decode.

Example decode_ex :
  decode (encode (VDocument [(str "a", VArray [VInt (-1); VNull]); (str "b", VBool true)]))
  = Ok (VDocument [(str "a", VArray [VInt (-1); VNull]); (str "b", VBool true)]).
Proof. vm_compute. reflexivity. Qed.

(** ** The readers of this codec *)

Lemma r_take_reads n s : len s = n -> reads_back (r_take n) s s.
Proof. apply take_reads. Qed.
Lemma r_take_parses n : 0 <= n -> parses n (fun s => len s = n) (r_take n).
Proof. apply take_parses. Qed.
Lemma r_take_total n : reader_total (r_take n).
Proof. apply take_total. Qed.

Lemma r_u8_reads b : reads_back r_u8 [b] b.
Proof. apply u8_reads. Qed.
Lemma r_u8_parses : parses 1 (fun _ => True) r_u8.
Proof. apply u8_parses. Qed.
Lemma r_u8_total : reader_total r_u8.
Proof. apply u8_total. Qed.

Lemma r_u32_reads z : 0 <= z < 2 ^ 32 -> reads_back r_u32 (le_bytes 4 z) z.
Proof.
  intros Hz. pose proof (uint_reads length_overflow end_of_input 4 z) as H.
  change (256 ^ Z.of_nat 4) with (2 ^ 32) in H. by rewrite Z.mod_small in H.
Qed.
Lemma r_u32_parses : parses 4 (fun z => 0 <= z < 2 ^ 32) r_u32.
Proof. apply (uint_parses _ _ 4). Qed.
Lemma r_u32_total : reader_total r_u32.
Proof. apply uint_total. Qed.

Lemma r_i64_reads i : is_sint 64 i = true -> reads_back r_i64 (le_bytes 8 i) i.
Proof.
  intros Hi. rewrite <- (app_nil_r (le_bytes 8 i)). eapply reads_back_bind; [apply uint_reads|].
  change (256 ^ Z.of_nat 8) with (2 ^ 64). rewrite sint_mod by done. apply reads_back_ret.
Qed.
Lemma r_i64_parses : parses 8 (fun i => is_sint 64 i = true) r_i64.
Proof.
  eapply (parses_bind 8 0); [apply (uint_parses _ _ 8)| |done]. intros.
  by apply parses_ret, sint_range.
Qed.
Lemma r_i64_total : reader_total r_i64.
Proof. eapply total_bind; [apply uint_total|apply uint_parses|]. done. Qed.

Lemma r_bytes_reads b : len b < 2 ^ 32 -> reads_back r_bytes (write_bytes b) b.
Proof. apply bytes_reads. Qed.
Lemma r_bytes_parses : parses 4 (fun b => len b < 2 ^ 32) r_bytes.
Proof. apply bytes_parses. Qed.
Lemma r_bytes_total : reader_total r_bytes.
Proof. apply bytes_total. Qed.

Lemma r_string_reads s : len s < 2 ^ 32 -> utf8_valid s = true -> reads_back r_string (write_bytes s) s.
Proof. apply string_reads. Qed.
Lemma r_string_parses : parses 4 (fun s => len s < 2 ^ 32 /\ utf8_valid s = true) r_string.
Proof. apply string_parses. Qed.
Lemma r_string_total : reader_total r_string.
Proof. apply string_total. Qed.

#[export] Hint Resolve r_take_parses r_u8_parses r_u32_parses r_i64_parses r_bytes_parses
  r_string_parses r_take_total r_u8_total r_u32_total r_i64_total r_bytes_total r_string_total
  : skaidb.

(** One read of a decoder, under each of the three judgements. *)
Ltac parse_one := eapply (parses_bind _ 0); [solve [auto with skaidb]| |cbn; lia]; intros ? ?.
Ltac total_one :=
  eapply total_upto_bind;
    [apply total_total_upto; solve [auto with skaidb] | solve [auto with skaidb] | intros ? ?].

(** ** What a decode consumed *)

Lemma wf_array_snoc items v :
  wf_value v = true -> Forall (fun v => wf_value v = true) items ->
  Forall (fun v => wf_value v = true) (items ++ [v]).
Proof. intros. apply Forall_app. by split; [|apply Forall_singleton]. Qed.

Definition fields_wf (n : Z) (doc : Document) : Prop :=
  len32 doc = true /\ 0 <= n /\ Z.of_nat (length doc) <= n /\ sorted doc = true
  /\ forallb (fun kv => utf8_valid kv.1 && len32 kv.1 && wf_value kv.2) doc = true.

Lemma forallb_insert {V} (p : bytes * V -> bool) k v m :
  p (k, v) = true -> forallb p m = true -> forallb p (bt_insert k v m) = true.
Proof.
  intros Hp Hm. rewrite forallb_forall in *. intros [k' v'] Hin%list_elem_of_In.
  apply bt_elem_insert in Hin as [[= -> ->]|Hin]; [done|]. by apply Hm, list_elem_of_In.
Qed.

Lemma length_insert_le {V} k (v : V) (m : list (bytes * V)) :
  (length (bt_insert k v m) <= S (length m))%nat.
Proof.
  induction m as [|[k1 v1] m IH]; cbn; [lia|]. destruct (bytes_cmp k k1); cbn; lia.
Qed.

Definition doc_inv (n : Z) (doc : Document) : Prop :=
  Z.of_nat (length doc) <= n /\ sorted doc = true
  /\ forallb (fun kv => utf8_valid kv.1 && len32 kv.1 && wf_value kv.2) doc = true.

Lemma doc_inv_insert n doc k v :
  doc_inv n doc -> len k < 2 ^ 32 -> utf8_valid k = true -> wf_value v = true ->
  doc_inv (n + 1) (doc_insert k v doc).
Proof.
  intros (Hl & Hs & Hw) Hk Hu Hv. unfold doc_insert. split_and!.
  - pose proof (length_insert_le k v doc). lia.
  - by apply sorted_insert.
  - apply forallb_insert; [|done]. cbn. rewrite Hu, Hv. unfold len32, len in *.
    by rewrite (proj2 (Z.ltb_lt _ _) Hk).
Qed.

Lemma doc_inv_wf n doc : doc_inv n doc -> n < 2 ^ 32 -> wf_value (VDocument doc) = true.
Proof.
  intros (Hl & Hs & Hw) Hn. cbn [wf_value]. rewrite Hs, Hw. unfold len32.
  by rewrite (proj2 (Z.ltb_lt _ _)) by lia.
Qed.

Lemma parses_top {E A} k (Q : A -> Prop) (r : reader E A) : parses k Q r -> parses k (fun _ => True) r.
Proof. intros Hr. by eapply parses_weaken; [apply Hr| |]. Qed.

Lemma item_parses depth (items : list Value) (P : list Value -> Prop) :
  parses 1 (fun v => wf_value v = true) (decode_value depth) ->
  (forall v, wf_value v = true -> P (items ++ [v])) ->
  parses 1 P (v ← decode_value depth; mret (items ++ [v])).
Proof.
  intros Hd HP. eapply (parses_bind 1 0); [apply Hd| |lia]. intros v Hv. by apply parses_ret, HP.
Qed.

Lemma field_parses depth (doc : Document) (P : Document -> Prop) :
  parses 1 (fun v => wf_value v = true) (decode_value depth) ->
  (forall k v, len k < 2 ^ 32 -> utf8_valid k = true -> wf_value v = true ->
     P (doc_insert k v doc)) ->
  parses 5 P (key ← r_string; val ← decode_value depth; mret (doc_insert key val doc)).
Proof.
  intros Hd HP. eapply (parses_bind 4 1); [apply r_string_parses| |lia]. intros k [Hk Hu].
  eapply (parses_bind 1 0); [apply Hd| |lia]. intros v Hv. apply parses_ret. by apply HP.
Qed.

Lemma array_parses depth n :
  parses 1 (fun v => wf_value v = true) (decode_value depth) -> 0 <= n < 2 ^ 32 ->
  parses 0 (fun v => wf_value v = true)
    (_ ← ensure 1 n (unrep "array count exceeds input");
     items ← for_each n (fun items => v ← decode_value depth; mret (items ++ [v])) [];
     mret (VArray items)).
Proof.
  intros IH Hn. apply (parses_weaken (1 * n) 0 (fun v => wf_value v = true)); [|lia|done].
  apply parses_ensure; [lia|lia|]. eapply (parses_bind _ 0).
  - apply (for_each_parses 1 _ _ _ (fun m items => Z.of_nat (length items) = m
      /\ Forall (fun v => wf_value v = true) items)) with (m := 0); [lia|lia| | |done].
    + intros m items [Hm Hi]. apply item_parses; [done|]. intros v Hv.
      rewrite length_app. cbn. split; [lia|]. by apply wf_array_snoc.
    + intros items. by apply item_parses.
  - intros items [Hm Hi]. apply parses_ret. cbn [wf_value]. unfold len32.
    rewrite (proj2 (Z.ltb_lt _ _)) by lia. by apply forallb_Forall.
  - lia.
Qed.

Lemma document_parses depth n :
  parses 1 (fun v => wf_value v = true) (decode_value depth) -> 0 <= n < 2 ^ 32 ->
  parses 0 (fun v => wf_value v = true)
    (_ ← ensure 5 n too_many_fields;
     doc ← for_each n (fun doc => key ← r_string; val ← decode_value depth;
                                  mret (doc_insert key val doc)) doc_new;
     mret (VDocument doc)).
Proof.
  intros IH Hn. apply (parses_weaken (5 * n) 0 (fun v => wf_value v = true)); [|lia|done].
  apply parses_ensure; [lia|lia|]. eapply (parses_bind _ 0).
  - apply (for_each_parses 5 _ _ _ doc_inv) with (m := 0); [lia|lia| | |done].
    + intros m doc Hi. apply field_parses; [done|]. intros. by apply doc_inv_insert.
    + intros doc. eapply parses_weaken; [by apply (field_parses _ _ (fun _ => True))|lia|done].
  - intros doc Hi. apply parses_ret. eapply doc_inv_wf; [done|lia].
  - lia.
Qed.

Lemma decode_value_parses depth : parses 1 (fun v => wf_value v = true) (decode_value depth).
Proof.
  induction depth as [|depth IH]; [intros c a c' _ [=]|]. cbn [decode_value].
  eapply (parses_bind 1 0); [apply r_u8_parses| |lia]. intros t _.
  repeat (case_decide; [subst t|]).
  - by apply parses_ret.
  - parse_one. by apply parses_ret.
  - parse_one. by apply parses_ret.
  - parse_one. apply parses_ret. cbn. apply is_uint_spec. by apply Z.mod_pos_bound.
  - parse_one. parse_one. apply parses_ret. cbn [wf_value]. unfold wf_decimal. cbn.
    rewrite sint_range by done. by apply is_uint_spec.
  - parse_one. apply parses_ret. cbn. unfold len32, len in *.
    match goal with H : _ /\ _ |- _ => destruct H as [Hl ->] end. by apply Z.ltb_lt.
  - parse_one. apply parses_ret. cbn. unfold len32, len in *. by apply Z.ltb_lt.
  - parse_one. apply parses_ret. cbn. apply Nat.eqb_eq. unfold len in *. lia.
  - parse_one. by apply parses_ret.
  - parse_one. apply array_parses; [done|].
    match goal with H : _ |- _ => apply H end.
  - parse_one. apply document_parses; [done|].
    match goal with H : _ |- _ => apply H end.
  - apply parses_fail.
Qed.

(** ** Depth *)

Lemma decode_value_refines d d' : (d <= d')%nat -> refines (decode_value d) (decode_value d').
Proof.
  revert d'. induction d as [|d IH]; intros [|d'] Hd; [intros c; by left..|lia|].
  assert (IHd : refines (decode_value d) (decode_value d')) by (apply IH; lia).
  cbn [decode_value]. apply refines_bind; [apply refines_refl|]. intros t.
  repeat (case_decide; [try apply refines_refl|]); try apply refines_refl.
  all: apply refines_bind; [apply refines_refl|]; intros n.
  all: apply refines_bind; [apply refines_refl|]; intros _.
  all: apply refines_bind; [|intros; apply refines_refl].
  all: apply for_each_refines; intros s.
  - apply refines_bind; [done|]. intros. apply refines_refl.
  - apply refines_bind; [apply refines_refl|]. intros k.
    apply refines_bind; [done|]. intros. apply refines_refl.
Qed.

Lemma array_total depth n m :
  total_upto m (decode_value depth) ->
  total_upto m
    (_ ← ensure 1 n (unrep "array count exceeds input");
     items ← for_each n (fun items => v ← decode_value depth; mret (items ++ [v])) [];
     mret (VArray items)).
Proof.
  intros Ht. apply total_upto_ensure, total_upto_ret, for_each_total_upto; intros items.
  - eapply parses_moves. by apply (item_parses depth items (fun _ => True)); [apply decode_value_parses|].
  - by apply total_upto_ret.
Qed.

Lemma document_total depth n m :
  total_upto m (decode_value depth) ->
  total_upto m
    (_ ← ensure 5 n too_many_fields;
     doc ← for_each n (fun doc => key ← r_string; val ← decode_value depth;
                                  mret (doc_insert key val doc)) doc_new;
     mret (VDocument doc)).
Proof.
  intros Ht. apply total_upto_ensure, total_upto_ret, for_each_total_upto; intros doc.
  - eapply parses_moves, parses_weaken; [by apply (field_parses depth doc (fun _ => True)); [apply decode_value_parses|]|lia|done].
  - total_one. apply total_upto_ret. eapply total_upto_weaken; [done|lia].
Qed.

Lemma decode_value_total d : total_upto (Z.of_nat d) (decode_value d).
Proof.
  induction d as [|d IH]; [intros c Hc Hr; pose proof (remaining_nonneg c); lia|].
  cbn [decode_value]. total_one.
  assert (IH' : forall k, 0 <= k -> total_upto (Z.of_nat (S d) - 1 - k) (decode_value d)).
  { intros. eapply total_upto_weaken; [done|lia]. }
  repeat (case_decide; [repeat total_one; try done|]); try done.
  - apply array_total. by apply IH'.
  - apply document_total. by apply IH'.
Qed.

Lemma decode_at_total : reader_total decode_at.
Proof.
  intros c Hc. apply (decode_value_total (S (Z.to_nat (remaining c)))); [done|].
  pose proof (remaining_nonneg c). lia.
Qed.

(** Whatever depth a decode was given, [decode_at] gives enough. *)
Lemma decode_at_ok d c x : cursor_ok c -> decode_value d c = Ok x -> decode_at c = Ok x.
Proof.
  intros Hc H. pose proof (decode_at_total c Hc) as Ht. unfold decode_at in *.
  set (d' := S (Z.to_nat (remaining c))) in *. destruct (Nat.le_ge_cases d d') as [Hd|Hd].
  - by eapply refines_ok; [apply decode_value_refines|].
  - destruct (decode_value_refines d' d Hd c) as [E|E]; [by rewrite E in Ht|congruence].
Qed.

Lemma decode_at_reads d s v : reads_back (decode_value d) s v -> reads_back decode_at s v.
Proof. intros H c l Hc Hl. eapply decode_at_ok; eauto. Qed.

Lemma decode_at_parses : parses 1 (fun v => wf_value v = true) decode_at.
Proof.
  intros c v c' Hc H. destruct (decode_value_parses _ _ _ _ Hc H) as (s & l & ? & ? & ? & ? & Hr).
  exists s, l. split_and!; try done. by eapply decode_at_reads.
Qed.

(** ** Reading what was written *)

Fixpoint value_depth (v : Value) : nat :=
  match v with
  | VArray items => S (list_max (map value_depth items))
  | VDocument doc => S (list_max (map (fun kv => value_depth kv.2) doc))
  | _ => 1
  end.

Lemma write_bytes_min b : 4 <= len (write_bytes b).
Proof. unfold write_bytes. rewrite len_prefixed. pose proof (len_nonneg b). lia. Qed.

Lemma encode_value_min v : 1 <= len (encode_value v).
Proof.
  assert (H : forall b l, 1 <= len (b :: l)) by (intros b l; rewrite len_cons; pose proof (len_nonneg l); lia).
  destruct v; apply H.
Qed.

Lemma len_flat_map {A} (f : A -> bytes) k l :
  (forall x, k <= len (f x)) -> k * Z.of_nat (length l) <= len (flat_map f l).
Proof.
  intros Hf. induction l as [|x l IH]; [change (len (flat_map f [])) with 0; cbn [length]; lia|]. cbn [flat_map length].
  rewrite len_app, Nat2Z.inj_succ, Z.mul_succ_r. specialize (Hf x). lia.
Qed.

Lemma fold_snoc {A} (l acc : list A) : fold_left (fun acc x => acc ++ [x]) l acc = acc ++ l.
Proof.
  revert acc. induction l as [|x l IH]; intros acc; cbn; [by rewrite app_nil_r|].
  by rewrite IH, <- app_assoc.
Qed.

Lemma fold_insert_sorted (doc acc : Document) :
  sorted (acc ++ doc) = true -> fold_left (fun d kv => doc_insert kv.1 kv.2 d) doc acc = acc ++ doc.
Proof.
  revert acc. induction doc as [|[k v] doc IH]; intros acc Hs; cbn [fold_left fst snd].
  - by rewrite app_nil_r.
  - unfold doc_insert. rewrite bt_insert_last.
    + rewrite IH; by rewrite <- app_assoc.
    + intros. by eapply sorted_app_elem.
Qed.

Lemma list_max_elem n l : n ∈ l -> (n <= list_max l)%nat.
Proof.
  intros Hin. pose proof (proj1 (list_max_le l (list_max l)) (le_n _)) as H.
  rewrite Forall_forall in H. by apply H.
Qed.

Lemma count32_reads {A} (l : list A) : len32 l = true -> reads_back r_u32 (count32 l) (Z.of_nat (length l)).
Proof. intros Hl%Z.ltb_lt. apply r_u32_reads. lia. Qed.

(** Resolve the tag dispatch of a reader whose tag is known. *)
Ltac pick_tag :=
  repeat first [rewrite decide_False by (intuition discriminate) | rewrite decide_True by tauto].

(** Read one more piece: [h] reads the next bytes. *)
Ltac read_one h := eapply reads_back_bind; [h|].
Ltac read_last h := rewrite <- (app_nil_r (_ : bytes)); read_one h; apply reads_back_ret.

Lemma reads_back_last {E A B} (r : reader E A) (f : A -> B) s a :
  reads_back r s a -> reads_back (a ← r; mret (f a)) s (f a).
Proof. intros Hr. rewrite <- (app_nil_r s). eapply reads_back_bind; [done|apply reads_back_ret]. Qed.

Lemma reads_back_tag {A} t (k : byte -> reader ValueError A) s a :
  reads_back (k t) s a -> reads_back (r_u8 ≫= k) (t :: s) a.
Proof. intros Hk. change (t :: s) with ([t] ++ s). by eapply reads_back_bind; [apply r_u8_reads|]. Qed.

Lemma array_reads depth items :
  wf_value (VArray items) = true ->
  Forall (fun v => reads_back (decode_value depth) (encode_value v) v) items ->
  reads_back
    (n ← r_u32; _ ← ensure 1 n (unrep "array count exceeds input");
     items ← for_each n (fun items => v ← decode_value depth; mret (items ++ [v])) [];
     mret (VArray items))
    (count32 items ++ flat_map encode_value items) (VArray items).
Proof.
  intros W IH. cbn in W. apply andb_true_iff in W as [Hl _].
  eapply reads_back_bind; [by apply count32_reads|].
  apply reads_back_ensure; [lia|by apply len_flat_map, encode_value_min|].
  apply (reads_back_last _ VArray).
  pose proof (for_each_reads_back (fun items => v ← decode_value depth; mret (items ++ [v]))
    encode_value (fun acc x => acc ++ [x]) items []) as H.
  rewrite fold_snoc in H. apply H.
  - intros s. by apply item_parses; [apply decode_value_parses|].
  - intros s v Hv. rewrite Forall_forall in IH.
    apply (reads_back_last _ (fun v => s ++ [v])). by apply IH.
Qed.

Lemma document_reads depth doc :
  wf_value (VDocument doc) = true ->
  Forall (fun kv => reads_back (decode_value depth) (encode_value kv.2) kv.2) doc ->
  reads_back
    (n ← r_u32; _ ← ensure 5 n too_many_fields;
     doc ← for_each n (fun doc => key ← r_string; val ← decode_value depth;
                                  mret (doc_insert key val doc)) doc_new;
     mret (VDocument doc))
    (count32 doc ++ flat_map (fun kv => write_bytes kv.1 ++ encode_value kv.2) doc) (VDocument doc).
Proof.
  intros W IH. pose proof W as Wd. cbn in W.
  apply andb_true_iff in W as [[Hl Hs]%andb_true_iff Hw].
  eapply reads_back_bind; [by apply count32_reads|].
  apply reads_back_ensure; [lia| |].
  { apply len_flat_map. intros kv. rewrite len_app.
    pose proof (write_bytes_min kv.1). pose proof (encode_value_min kv.2). lia. }
  apply (reads_back_last _ VDocument).
  pose proof (for_each_reads_back (fun doc => key ← r_string; val ← decode_value depth;
                                              mret (doc_insert key val doc))
    (fun kv => write_bytes kv.1 ++ encode_value kv.2) (fun d kv => doc_insert kv.1 kv.2 d) doc
    doc_new) as H.
  unfold doc_new in H at 2. rewrite fold_insert_sorted in H by done. apply H.
  - intros s. eapply parses_weaken; [by apply (field_parses depth s (fun _ => True)); [apply decode_value_parses|]|lia|done].
  - intros s [k v] Hv. rewrite Forall_forall in IH. cbn [fst snd].
    destruct (wf_doc_field doc k v Wd Hv) as (Hu & Hk%Z.ltb_lt & _).
    eapply reads_back_bind; [by apply r_string_reads|].
    apply (reads_back_last _ (fun v => doc_insert k v s)). by apply (IH (k, v)).
Qed.

Lemma decode_value_reads v d :
  wf_value v = true -> (value_depth v <= d)%nat -> reads_back (decode_value d) (encode_value v) v.
Proof.
  revert d. induction v as [|b|i|x|[m sc]|s|s|u|t|items IH|doc IH] using value_ind';
    intros [|d] W Hd; try (cbn in Hd; lia); cbn [decode_value encode_value];
    apply reads_back_tag; pick_tag; cbn [wf_value] in *.
  - apply reads_back_ret.
  - change [bool_byte b] with ([bool_byte b] ++ []).
    eapply reads_back_bind; [apply r_u8_reads|]. destruct b; apply reads_back_ret.
  - by apply reads_back_last, r_i64_reads.
  - apply is_uint_spec in W. rewrite <- (Z.mod_small x (2 ^ 64)) at 2 by done.
    rewrite <- (mod_sint 64 x) by done. apply (reads_back_last _ (fun i => VFloat (wrap 64 i))).
    rewrite <- (le_bytes_mod 8 x). change (256 ^ Z.of_nat 8) with (2 ^ 64).
    rewrite <- (mod_sint 64 x) by done. change (2 ^ 64) with (256 ^ Z.of_nat 8).
    rewrite le_bytes_mod. by apply r_i64_reads, sint_range.
  - apply andb_true_iff in W as [Wm Ws%is_uint_spec]. cbn [mantissa scale] in *.
    eapply reads_back_bind; [apply r_take_reads, len_le_bytes|].
    rewrite (le_val_sint 16 128 m) by done.
    apply (reads_back_last _ (fun s => VDecimal {| mantissa := _; scale := s |})).
    by apply r_u32_reads.
  - apply andb_true_iff in W as [Hu Hl%Z.ltb_lt]. by apply reads_back_last, r_string_reads.
  - apply Z.ltb_lt in W. by apply reads_back_last, r_bytes_reads.
  - apply Nat.eqb_eq in W. apply reads_back_last, r_take_reads. unfold len. by rewrite W.
  - by apply reads_back_last, r_i64_reads.
  - apply array_reads; [done|]. rewrite Forall_forall in *. intros v Hv. apply IH; [done| |].
    + by eapply (wf_array_items items).
    + cbn [value_depth] in Hd.
      pose proof (list_max_elem (value_depth v) (map value_depth items)) as Hm.
      rewrite list_elem_of_fmap in Hm. specialize (Hm ltac:(eauto)). lia.
  - apply document_reads; [done|]. rewrite Forall_forall in *. intros [k v] Hv. cbn [snd].
    apply (IH (k, v)); [done| |].
    + by eapply (wf_doc_field doc).
    + cbn [value_depth] in Hd.
      pose proof (list_max_elem (value_depth v) (map (fun kv => value_depth kv.2) doc)) as Hm.
      rewrite list_elem_of_fmap in Hm. specialize (Hm ltac:(by exists (k, v))). cbn [snd]. lia.
Qed.

Lemma decode_at_encode v : wf_value v = true -> reads_back decode_at (encode_value v) v.
Proof. intros W. eapply decode_at_reads, decode_value_reads; [done|reflexivity]. Qed.

(** ** Skipping *)

Lemma raw_name_follows : follows r_string raw_name (=).
Proof.
  intros c s c' Hc (s0 & c0 & H1 & H2)%reader_bind_ok. exists s. split; [|done].
  destruct (utf8_valid s0); [|done]. by injection H2 as <- <-.
Qed.

Lemma skip_bytes_follows {A} (r : reader ValueError A) :
  follows r r_bytes (fun _ _ => True) ->
  follows r (n ← r_u32; _ ← r_take n; mret tt) (fun _ _ => True).
Proof.
  intros Hr c s c' Hc H. destruct (Hr _ _ _ Hc H) as (b & Hb & _).
  apply reader_bind_ok in Hb as (n & c1 & Hn & Hb). exists tt. split; [|done].
  apply reader_bind_ok. exists n, c1. split; [done|]. apply reader_bind_ok. eauto.
Qed.

Lemma drop_result {A B} (r : reader ValueError A) (f : A -> B) :
  follows (a ← r; mret (f a)) r (fun _ _ => True).
Proof.
  intros c b c' Hc (a & c1 & H & [= <- <-])%reader_bind_ok. eauto.
Qed.

Lemma follows_tt {A} (r : reader ValueError A) : follows r (_ ← r; mret tt) (fun _ _ => True).
Proof. intros c a c' Hc H. exists tt. split; [|done]. apply reader_bind_ok. eauto. Qed.

Lemma follows_weaken {A B} (r : reader ValueError A) (r2 : reader ValueError B) (R Q : A -> B -> Prop) :
  follows r r2 R -> (forall a b, R a b -> Q a b) -> follows r r2 Q.
Proof. intros H HRQ c a c' Hc Hr. destruct (H _ _ _ Hc Hr) as (b & ? & ?). eauto. Qed.

Lemma follows_trans {A B D} (r : reader ValueError A) (r2 : reader ValueError B)
    (r3 : reader ValueError D) :
  follows r r2 (fun _ _ => True) -> follows r2 r3 (fun _ _ => True) -> follows r r3 (fun _ _ => True).
Proof.
  intros H1 H2 c a c' Hc H. destruct (H1 _ _ _ Hc H) as (b & Hb & _). by eapply H2.
Qed.

Lemma ensure_follows {A B} k n e (r : reader ValueError A) (r2 : reader ValueError B) R :
  follows r r2 R -> follows (ensure k n e ≫= fun _ => r) r2 R.
Proof.
  intros H c a c' Hc (u & c1 & H1 & H2)%reader_bind_ok. unfold ensure in H1.
  destruct (_ <? _); [done|]. injection H1 as <- <-. by apply H.
Qed.

Lemma skip_array_follows depth n :
  follows (decode_value depth) (skip_value depth) (fun _ _ => True) ->
  follows
    (_ ← ensure 1 n (unrep "array count exceeds input");
     items ← for_each n (fun items => v ← decode_value depth; mret (items ++ [v])) [];
     mret (VArray items))
    (for_each n (fun _ => skip_value depth) tt) (fun _ _ => True).
Proof.
  intros IH. apply ensure_follows. eapply follows_trans; [apply drop_result|].
  intros c s c' Hc H. eapply (for_each_follows (fun _ _ => True)) in H; [exact H| | |done..].
  - intros items. by apply item_parses; [apply decode_value_parses|].
  - intros items [] c0 s0 c0' Hc0 _ _ (v & c1 & H1 & [= <- <-])%reader_bind_ok. by eapply IH.
Qed.

Lemma skip_document_follows depth n :
  follows (decode_value depth) (skip_value depth) (fun _ _ => True) ->
  follows
    (_ ← ensure 5 n too_many_fields;
     doc ← for_each n (fun doc => key ← r_string; val ← decode_value depth;
                                  mret (doc_insert key val doc)) doc_new;
     mret (VDocument doc))
    (for_each n (fun _ => k ← r_u32; _ ← r_take k; skip_value depth) tt) (fun _ _ => True).
Proof.
  intros IH. apply ensure_follows. eapply follows_trans; [apply drop_result|].
  intros c s c' Hc H. eapply (for_each_follows (fun _ _ => True)) in H; [exact H| | |done..].
  - intros doc. eapply parses_weaken;
      [by apply (field_parses depth doc (fun _ => True)); [apply decode_value_parses|]|lia|done].
  - intros doc [] c0 s0 c0' Hc0 _ _ (k & c1 & Hk & H1)%reader_bind_ok.
    destruct (parses_ok _ _ _ _ _ _ r_string_parses Hc0 Hk) as (Hc1 & _).
    apply reader_bind_ok in H1 as (v & c2 & Hv & [= <- <-]).
    destruct (IH _ _ _ Hc1 Hv) as ([] & Hs & _). exists tt. split; [|done].
    destruct (raw_name_follows _ _ _ Hc0 Hk) as (k' & Hk' & ->).
    apply reader_bind_ok in Hk' as (m & c3 & Hm & Ht).
    apply reader_bind_ok. exists m, c3. split; [done|]. apply reader_bind_ok. eauto.
Qed.

Lemma skip_follows depth : follows (decode_value depth) (skip_value depth) (fun _ _ => True).
Proof.
  induction depth as [|depth IH]; [intros c a c' _ [=]|]. cbn [decode_value skip_value].
  eapply follows_bind; [apply r_u8_parses|apply follows_refl|]. intros t ? _ <-.
  repeat (case_decide; [subst t; pick_tag|]).
  - by apply follows_ret.
  - eapply follows_trans; [apply drop_result|apply follows_tt].
  - eapply follows_trans; [apply drop_result|apply follows_tt].
  - eapply follows_trans; [apply drop_result|apply follows_tt].
  - eapply follows_bind; [by apply r_take_parses|apply follows_refl|]. intros m ? _ <-.
    eapply follows_trans; [apply drop_result|apply follows_tt].
  - eapply follows_trans; [apply drop_result|]. apply skip_bytes_follows.
    eapply follows_weaken; [apply raw_name_follows|done].
  - eapply follows_trans; [apply drop_result|]. apply skip_bytes_follows.
    eapply follows_weaken; [apply follows_refl|done].
  - eapply follows_trans; [apply drop_result|apply follows_tt].
  - eapply follows_trans; [apply drop_result|apply follows_tt].
  - eapply follows_bind; [apply r_u32_parses|apply follows_refl|]. intros n ? _ <-.
    by apply skip_array_follows.
  - eapply follows_bind; [apply r_u32_parses|apply follows_refl|]. intros n ? _ <-.
    by apply skip_document_follows.
  - intros c a c' _ [=].
Qed.

Lemma skip_at_follows : follows decode_at skip_at (fun _ _ => True).
Proof. intros c v c' Hc H. by eapply skip_follows. Qed.

(** ** Skipping comes back *)

Lemma raw_name_parses : parses 4 (fun _ => True) raw_name.
Proof.
  eapply (parses_bind 4 0); [apply r_u32_parses| |done]. intros n Hn. cbv beta in Hn.
  eapply parses_weaken; [apply r_take_parses; lia|lia|done].
Qed.

Lemma raw_name_total : reader_total raw_name.
Proof. eapply total_bind; [apply r_u32_total|apply r_u32_parses|]. intros. apply r_take_total. Qed.

Lemma skip_loop_parses {E} (r : unit -> reader E unit) n :
  0 <= n -> (forall u, parses 1 (fun _ => True) (r u)) -> parses 0 (fun _ => True) (for_each n r tt).
Proof.
  intros Hn Hr. apply (parses_weaken (1 * n) 0 (fun _ => True)); [|lia|done].
  apply (for_each_parses 1 _ _ _ (fun _ _ => True)) with (m := 0); [lia|lia| | |done]; auto.
Qed.

Lemma skip_field_parses depth (u : unit) :
  parses 1 (fun _ => True) (skip_value depth) ->
  parses 1 (fun _ => True) (k ← r_u32; _ ← r_take k; skip_value depth).
Proof.
  intros Hd. eapply (parses_bind 4 1); [apply r_u32_parses| |lia]. intros k Hk. cbv beta in Hk.
  eapply (parses_bind k 1); [apply r_take_parses; lia| |lia]. done.
Qed.

Lemma skip_value_parses depth : parses 1 (fun _ => True) (skip_value depth).
Proof.
  induction depth as [|depth IH]; [intros c a c' _ [=]|]. cbn [skip_value].
  eapply (parses_bind 1 0); [apply r_u8_parses| |lia]. intros t _.
  repeat (case_decide; [|]).
  all: try apply parses_fail.
  all: try by apply parses_ret.
  - parse_one. by apply parses_ret.
  - parse_one. by apply parses_ret.
  - parse_one. parse_one. by apply parses_ret.
  - parse_one. cbv beta in *. eapply (parses_bind _ 0); [apply r_take_parses; lia| |cbn; lia].
    intros. by apply parses_ret.
  - parse_one. by apply parses_ret.
  - parse_one. cbv beta in *. apply skip_loop_parses; [lia|done].
  - parse_one. cbv beta in *. apply skip_loop_parses; [lia|]. intros u. by apply skip_field_parses.
Qed.

Lemma skip_value_total d : total_upto (Z.of_nat d) (skip_value d).
Proof.
  induction d as [|d IH]; [intros c Hc Hr; pose proof (remaining_nonneg c); lia|].
  cbn [skip_value]. total_one.
  assert (IH' : forall k, 0 <= k -> total_upto (Z.of_nat (S d) - 1 - k) (skip_value d)).
  { intros. eapply total_upto_weaken; [done|lia]. }
  repeat (case_decide; [|]); try done; repeat total_one; try done.
  - cbv beta in *. apply total_upto_ret, total_total_upto, r_take_total.
  - apply for_each_total_upto; intros u; [eapply parses_moves, skip_value_parses|by apply IH'].
  - apply for_each_total_upto; intros u; [by eapply parses_moves, (skip_field_parses d u), skip_value_parses|].
    total_one. cbv beta in *. eapply total_upto_bind; [apply total_total_upto, r_take_total|apply r_take_parses; lia|].
    intros. eapply total_upto_weaken; [done|lia].
Qed.

Lemma skip_at_total : reader_total skip_at.
Proof.
  intros c Hc. apply (skip_value_total (S (Z.to_nat (remaining c)))); [done|].
  pose proof (remaining_nonneg c). lia.
Qed.

Lemma skip_value_refines d d' : (d <= d')%nat -> refines (skip_value d) (skip_value d').
Proof.
  revert d'. induction d as [|d IH]; intros [|d'] Hd; [intros c; by left..|lia|].
  assert (IHd : refines (skip_value d) (skip_value d')) by (apply IH; lia).
  cbn [skip_value]. apply refines_bind; [apply refines_refl|]. intros t.
  repeat (case_decide; [try apply refines_refl|]); try apply refines_refl.
  all: apply refines_bind; [apply refines_refl|]; intros n.
  all: apply for_each_refines; intros s; try done.
  apply refines_bind; [apply refines_refl|]. intros k.
  apply refines_bind; [apply refines_refl|]. by intros _.
Qed.

Lemma skip_at_parses : parses 1 (fun _ => True) skip_at.
Proof.
  intros c u c' Hc H. destruct (skip_value_parses _ _ _ _ Hc H) as (s & l & ? & ? & ? & ? & Hr).
  exists s, l. split_and!; try done. intros d l' Hd Hl. specialize (Hr d l' Hd Hl).
  pose proof (skip_at_total d Hd) as Ht. unfold skip_at in *.
  set (n := S (Z.to_nat (remaining c))) in *. set (n' := S (Z.to_nat (remaining d))) in *.
  destruct (Nat.le_ge_cases n n') as [Hn|Hn].
  - by eapply refines_ok; [apply skip_value_refines|].
  - destruct (skip_value_refines n' n Hn d) as [E|E]; [by rewrite E in Ht|congruence].
Qed.

#[export] Hint Resolve raw_name_parses raw_name_total skip_at_parses skip_at_total
  decode_at_parses decode_at_total : skaidb.

(** ** Properties *)

(** C2: the codec is lossless and self-delimiting: every well-formed value
    (widths, UTF-8, sixteen-byte UUIDs, ascending field names) decodes from
    its encoding to itself, and in front of any other bytes the decoder takes
    the encoding and nothing more; [encode_document] writes what [encode]
    writes. *)
Theorem decode_encode v c l :
  wf_value v = true -> is_slice (encode v) ->
  decode (encode v) = Ok v
  /\ (cursor_ok c -> rest c = encode v ++ l -> decode_at c = Ok (v, advance c (len (encode v))))
  /\ (forall doc, v = VDocument doc -> encode_document doc = encode v).
Proof.
  intros W Hs. split_and!.
  - unfold decode. apply read_all_reads; [done|]. by apply decode_at_encode.
  - intros Hc Hl. by apply (decode_at_encode v W c l).
  - by intros doc ->.
Qed.

Lemma decode_encode_witness :
  let v := VDocument [(str "a", VArray [VInt (-7); VNull]); (str "b", VUuid NIL)] in
  decode (encode v) = Ok v.
Proof.
  intros v. apply (decode_encode v (cursor_new []) []); [vm_compute; reflexivity|].
  apply Z.ltb_lt. vm_compute. reflexivity.
Defined.

(** C15: decoding is safe on any bytes, forged counts and lengths included: it
    comes back with a value or an error (it never indexes out of range, and
    nesting is bounded by the input), and a value it returns is well-formed. *)
Theorem decode_safe bs :
  is_slice bs -> returns (decode bs) /\ (forall v, decode bs = Ok v -> wf_value v = true).
Proof.
  intros Hs. split.
  - apply read_all_returns; [done|apply decode_at_total].
  - intros v (c & H & _)%read_all_ok. by apply (parses_ok _ _ _ _ _ _ decode_at_parses (cursor_new_ok bs Hs) H).
Qed.

Lemma decode_safe_witness : returns (decode (tag.ARRAY :: replicate 4 xff)).
Proof. apply decode_safe. apply Z.ltb_lt. vm_compute. reflexivity. Defined.
