(* ===== verification/Scan.v ===== *)
(** * Partial readers of encoded documents

    The readers of [crates/skaidb-types/src/codec.rs] that walk an encoded
    document without decoding all of it: projection, probes, field names,
    field scans, streamed GROUP BY rows and the reserved-field gate.  Each is
    compared with the full decode it stands for. *)
From stdpp Require Import gmap.
From S2P Require Import Prelude Bytes Text BTree Float64 Decimal Value KeyCodec Cursor Codec.
#[local] Open Scope Z_scope.

Section scan.
Abbreviation rd := (reader ValueError).

(** ** Partial readers of a document *)

Definition FIELD_NAMES_MARKER : bytes := x01 :: str "names".

(** [raw.first() == Some(&1)]. *)
Definition reserved_name (raw : bytes) : bool := bool_decide (head raw = Some x01).

Definition from_utf8 (raw : bytes) : rd bytes :=
  if utf8_valid raw then mret raw else fail invalid_utf8.

(** The tag, the count and (for some readers) its check. *)
Definition document_header (not_document : ValueError) (checked : bool) : rd Z :=
  t ← r_u8;
  if decide (t = tag.DOCUMENT) then
    n ← r_u32; _ ← (if checked then ensure 5 n too_many_fields else mret tt); mret n
  else fail not_document.

(** [iter().position]. *)
Fixpoint position {A} (p : A -> bool) (l : list A) : option nat :=
  match l with
  | [] => None
  | x :: l => if p x then Some O else S <$> position p l
  end.

Definition name_is (raw w : bytes) : bool := bool_decide (w = raw).

(** One field of the projected decode, small and large [wanted] sets. *)
Definition projected_small (wanted : gset bytes) (names : bool) (doc : Document) : rd Document :=
  raw ← raw_name;
  match List.find (name_is raw) (elements wanted) with
  | Some k => v ← decode_at; mret (doc_insert k v doc)
  | None =>
      if reserved_name raw then
        key ← from_utf8 raw; v ← decode_at; mret (doc_insert key v doc)
      else if names then
        key ← from_utf8 raw; _ ← skip_at; mret (doc_insert key VNull doc)
      else _ ← skip_at; mret doc
  end.

Definition projected_large (wanted : gset bytes) (names : bool) (doc : Document) : rd Document :=
  key ← str_ref;
  if bool_decide (key ∈ wanted) || reserved_name key then
    v ← decode_at; mret (doc_insert key v doc)
  else
    let doc := if names then doc_insert key VNull doc else doc in
    _ ← skip_at; mret doc.

Definition decode_document_projected (bs : bytes) (wanted : gset bytes) : res ValueError Document :=
  read_all trailing
    (n ← document_header (unrep "decode_document_projected: not a document") true;
     let names := bool_decide (FIELD_NAMES_MARKER ∈ wanted) in
     if (size wanted <=? 8)%nat then for_each n (projected_small wanted names) doc_new
     else for_each n (projected_large wanted names) doc_new) bs.

(** [cur.bytes.get(cur.pos) == Some(&tag::NULL)]. *)
Definition at_null : rd bool := fun c => Ok (bool_decide (head (rest c) = Some tag.NULL), c).

Definition probed_field (wanted probed : gset bytes) (doc : Document) : rd Document :=
  key ← str_ref;
  if bool_decide (key ∈ probed) then
    null ← at_null;
    if null : bool then v ← decode_at; mret (doc_insert key v doc)
    else _ ← skip_at; mret (doc_insert key (VBool true) doc)
  else if bool_decide (key ∈ wanted) || reserved_name key then
    v ← decode_at; mret (doc_insert key v doc)
  else _ ← skip_at; mret doc.

Definition decode_document_probed (bs : bytes) (wanted probed : gset bytes)
    : res ValueError Document :=
  read_all trailing
    (n ← document_header (unrep "decode_document_probed: not a document") true;
     for_each n (probed_field wanted probed) doc_new) bs.

(** The names handed to the callback, in order. *)
Definition scan_field_names (bs : bytes) : res ValueError (list bytes) :=
  read_all trailing
    (n ← document_header (unrep "scan_field_names: not a document") true;
     for_each n (fun names => k ← str_ref; _ ← skip_at; mret (names ++ [k])) []) bs.

Definition scan_field (wanted : list bytes) (st : list (option Value) * bool)
    : rd (list (option Value) * bool) :=
  let '(out, reserved) := st in
  raw ← raw_name;
  let reserved := reserved || reserved_name raw in
  match position (name_is raw) wanted with
  | Some i => v ← decode_at; mret (<[i := Some v]> out, reserved)
  | None => _ ← skip_at; mret (out, reserved)
  end.

(** [scan_fields_into] clears its buffer first, so it is a function of the
    input; [scan_fields] wraps it. *)
Definition scan_fields_into (bs : bytes) (wanted : list bytes)
    : res ValueError (list (option Value) * bool) :=
  read_all trailing
    (n ← document_header (unrep "scan_fields: not a document") false;
     for_each n (scan_field wanted) (replicate (length wanted) None, false)) bs.

Definition scan_fields (bs : bytes) (wanted : list bytes)
    : res ValueError (list (option Value) * bool) := scan_fields_into bs wanted.

Section group.
Context `{Powi}.

(** What [transcode_key_value] appends for one stored value. *)
Definition transcode_tag (bs : bytes) (t : byte) : rd bytes :=
  if decide (t = tag.NULL) then mret [NULL]
  else if decide (t = tag.BOOL) then
    b ← r_u8; mret [BOOL; bool_byte (negb (bool_decide (b = x00)))]
  else if decide (t = tag.INT) then i ← r_i64; mret (INT :: encode_i64 i)
  else if decide (t = tag.FLOAT) then i ← r_i64; mret (FLOAT :: encode_f64 (wrap 64 i))
  else if decide (t = tag.DECIMAL) then
    m ← r_take 16; s ← r_u32;
    mret (DECIMAL :: encode_f64 (to_f64 {| mantissa := sint 128 (le_val m); scale := s |}))
  else if decide (t = tag.STRING) then
    n ← r_u32; raw ← r_take n;
    if utf8_valid raw then mret (STRING :: encode_bytes raw) else fail invalid_utf8
  else if decide (t = tag.BYTES) then
    n ← r_u32; raw ← r_take n; mret (BYTES :: encode_bytes raw)
  else if decide (t = tag.UUID) then u ← r_take 16; mret (UUID :: u)
  else if decide (t = tag.TIMESTAMP) then i ← r_i64; mret (TIMESTAMP :: encode_i64 i)
  else if decide (t = tag.ARRAY \/ t = tag.DOCUMENT) then
    lift ('(v, _) ← decode_at (cursor_new bs); Ok (encode_into v))
  else fail unknown_tag.

Definition transcode_key_value (bs : bytes) : res ValueError bytes :=
  '(out, _) ← (t ← r_u8; transcode_tag bs t) (cursor_new bs); Ok out.

Record group_state := {
  g_vals : list (option Value);
  g_spans : list (option (Z * Z));
  g_reserved : bool;
}.

Definition group_field (key_fields val_fields : list bytes) (st : group_state) : rd group_state :=
  raw ← raw_name;
  let reserved := st.(g_reserved) || reserved_name raw in
  let val_hit := position (name_is raw) val_fields in
  let key_hit := existsb (name_is raw) key_fields in
  match val_hit, key_hit with
  | None, false =>
      _ ← skip_at;
      mret {| g_vals := st.(g_vals); g_spans := st.(g_spans); g_reserved := reserved |}
  | _, _ =>
      start ← tell;
      vals ← match val_hit with
             | Some i => v ← decode_at; mret (<[i := Some v]> st.(g_vals))
             | None => _ ← skip_at; mret st.(g_vals)
             end;
      stop ← tell;
      let spans :=
        if key_hit then
          zip_with (fun w span => if name_is raw w then Some (start, stop) else span)
                   key_fields st.(g_spans)
        else st.(g_spans) in
      mret {| g_vals := vals; g_spans := spans; g_reserved := reserved |}
  end.

(** [&bytes[a..b]]. *)
Definition slice (bs : bytes) (a b : Z) : bytes := take (Z.to_nat (b - a)) (drop (Z.to_nat a) bs).

Fixpoint span_keys (bs : bytes) (spans : list (option (Z * Z))) : res ValueError bytes :=
  match spans with
  | [] => Ok []
  | span :: spans =>
      k ← match span with
          | None => Ok [NULL]
          | Some (a, b) => transcode_key_value (slice bs a b)
          end;
      ks ← span_keys bs spans;
      Ok (k ++ ks)
  end.

(** The bytes appended to [key_out], the values and the reserved flag. *)
Definition scan_group_row (bs : bytes) (key_fields val_fields : list bytes)
    : res ValueError (bytes * list (option Value) * bool) :=
  st ← read_all trailing
    (n ← document_header (unrep "scan_group_row: not a document") false;
     for_each n (group_field key_fields val_fields)
       {| g_vals := replicate (length val_fields) None;
          g_spans := replicate (length key_fields) None; g_reserved := false |}) bs;
  key ← match key_fields with
        | [] => Ok []
        | _ => ks ← span_keys bs st.(g_spans); Ok ([ARRAY] ++ ks ++ [END])
        end;
  Ok (key, st.(g_vals), st.(g_reserved)).

End group.

(** The walk of [doc_has_reserved], which stops at the first name that decides. *)
Fixpoint reserved_walk (fuel : nat) (n : Z) : rd bool :=
  if n <=? 0 then mret false
  else
    match fuel with
    | O => fun _ => OutOfFuel
    | S fuel =>
        raw ← raw_name;
        match head raw with
        | Some b =>
            if decide (b = x01) then mret true
            else if 1 <? u8 b then mret false
            else _ ← skip_at; reserved_walk fuel (n - 1)
        | None => _ ← skip_at; reserved_walk fuel (n - 1)
        end
    end.

Definition reserved_from (n : Z) : rd bool := fun c =>
  reserved_walk (S (Z.to_nat (remaining c))) n c.

Definition doc_has_reserved (bs : bytes) : res ValueError bool :=
  '(r, _) ← (n ← document_header (unrep "doc_has_reserved: not a document") false;
             reserved_from n) (cursor_new bs);
  Ok r.

End scan.

(** ** Following the full decode *)

Section follow.
Context {S : Type} (R : Document -> S -> Prop) (step : S -> reader ValueError S) (bs : bytes).

(** One field decoded in full, and what the partial reader makes of it. *)
Hypothesis step_field : forall doc s c k c1 v c2,
  cursor_ok c -> cursor_ok c1 -> cur_bytes c1 = bs -> R doc s ->
  r_string c = Ok (k, c1) -> utf8_valid k = true -> decode_at c1 = Ok (v, c2) -> wf_value v = true ->
  exists s', step s c = Ok (s', c2) /\ R (doc_insert k v doc) s'.

Lemma fields_follow depth n doc s c doc' c' :
  cursor_ok c -> cur_bytes c = bs -> R doc s ->
  for_each n (fun doc => key ← r_string; val ← decode_value depth;
                         mret (doc_insert key val doc)) doc c = Ok (doc', c') ->
  exists s', for_each n step s c = Ok (s', c') /\ R doc' s'.
Proof.
  intros Hc Hb HR H. eapply for_each_follows; [| |done..].
  - intros d. eapply parses_weaken;
      [by apply (field_parses depth d (fun _ => True)); [apply decode_value_parses|]|lia|done].
  - intros d t c0 d' c2 Hc0 Hb0 HR0 (k & c1 & Hk & H1)%reader_bind_ok.
    destruct (parses_ok _ _ _ _ _ _ r_string_parses Hc0 Hk) as (Hc1 & _ & [_ Hu] & Hb1).
    apply reader_bind_ok in H1 as (v & c3 & Hv & [= <- <-]).
    destruct (parses_ok _ _ _ _ _ _ (decode_value_parses _) Hc1 Hv) as (_ & _ & Hw & _).
    apply decode_at_ok in Hv; [|done]. eapply step_field; eauto. congruence.
Qed.

(** Wherever the bytes decode to a document, the partial reader's walk
    succeeds and relates to that document. *)
Lemma document_follow e checked doc s :
  is_slice bs -> decode bs = Ok (VDocument doc) -> R [] s ->
  exists s', read_all trailing (n ← document_header e checked; for_each n step s) bs = Ok s'
             /\ R doc s'.
Proof.
  intros Hs (c & H & Hpos)%read_all_ok HR. unfold decode_at in H. cbn [decode_value] in H.
  apply reader_bind_ok in H as (t & c1 & Ht & H).
  pose proof (cursor_new_ok bs Hs) as Hc0.
  destruct (parses_ok _ _ _ _ _ _ r_u8_parses Hc0 Ht) as (Hc1 & _ & _ & Hb1).
  repeat (case_decide; [try discriminate H;
    try (apply reader_bind_ok in H as (? & ? & _ & H); try discriminate H;
         apply reader_bind_ok in H as (? & ? & _ & H); try discriminate H;
         apply reader_bind_ok in H as (? & ? & _ & H); discriminate H)|]); [|discriminate H].
  apply reader_bind_ok in H as (n & c2 & Hn & H).
  destruct (parses_ok _ _ _ _ _ _ r_u32_parses Hc1 Hn) as (Hc2 & _ & _ & Hb2).
  apply reader_bind_ok in H as ([] & c3 & He & H).
  assert (c3 = c2) as ->.
  { unfold ensure in He. destruct (_ <? _); [done|]. by injection He. }
  apply reader_bind_ok in H as (d & c4 & Hd & [= -> <-]).
  destruct (fields_follow _ _ _ _ _ _ _ Hc2 ltac:(by rewrite Hb2, Hb1) HR Hd) as (s' & Hs' & HR').
  exists s'. split; [|done]. apply read_all_ok. exists c4. split; [|done].
  apply reader_bind_ok. exists n, c2. split; [|done]. unfold document_header.
  apply reader_bind_ok. exists t, c1. split; [done|]. rewrite decide_True by done.
  apply reader_bind_ok. exists n, c2. split; [done|].
  apply reader_bind_ok. exists tt, c2. split; [by destruct checked|done].
Qed.

End follow.

(** A document seen through a choice of fields and a change of their values. *)
Definition view (keep : bytes -> bool) (g : bytes -> Value -> Value) (d : Document) : Document :=
  map (fun kv => (kv.1, g kv.1 kv.2)) (bt_retain (fun k _ => keep k) d).

Lemma view_get keep g d k :
  sorted d = true -> bt_get k (view keep g d) = if keep k then g k <$> bt_get k d else None.
Proof.
  intros Hs. unfold view. rewrite bt_get_map, bt_get_retain by done.
  destruct (bt_get k d); by destruct (keep k).
Qed.

Lemma view_sorted keep g d : sorted d = true -> sorted (view keep g d) = true.
Proof. intros Hs. unfold view. rewrite sorted_map. by apply sorted_retain. Qed.

Lemma view_insert keep g k v d :
  sorted d = true ->
  view keep g (doc_insert k v d) =
  if keep k then doc_insert k (g k v) (view keep g d) else view keep g d.
Proof.
  intros Hs. assert (Hi : sorted (doc_insert k v d) = true) by by apply sorted_insert.
  apply sorted_ext.
  - by apply view_sorted.
  - destruct (keep k); [apply sorted_insert|]; by apply view_sorted.
  - intros k'. rewrite view_get by done. unfold doc_insert. rewrite bt_get_insert.
    destruct (keep k) eqn:Hk; rewrite ?bt_get_insert, view_get by done;
      destruct (kcmp_cases k' k) as [[-> ->]|[[_ ->]|[_ ->]]]; by rewrite ?Hk.
Qed.

(** The loop of a reader that builds such a view. *)
Lemma view_follow (keep : bytes -> bool) (g : bytes -> Value -> Value)
    (step : Document -> reader ValueError Document) e checked bs doc :
  (forall d c k c1 v c2, cursor_ok c -> cursor_ok c1 ->
     r_string c = Ok (k, c1) -> utf8_valid k = true -> decode_at c1 = Ok (v, c2) ->
     step d c = Ok (if keep k then doc_insert k (g k v) d else d, c2)) ->
  is_slice bs -> decode bs = Ok (VDocument doc) ->
  read_all trailing (n ← document_header e checked; for_each n step doc_new) bs
  = Ok (view keep g doc).
Proof.
  intros Hstep Hs Hd.
  assert (H : exists s', read_all trailing (n ← document_header e checked; for_each n step doc_new) bs
                         = Ok s' /\ s' = view keep g doc /\ sorted doc = true).
  { apply (@document_follow Document (fun d s => s = view keep g d /\ sorted d = true)); [|done..].
    intros d s c k c1 v c2 Hc Hc1 _ [-> Hsd] Hk Hu Hv _. exists (view keep g (doc_insert k v d)).
    rewrite view_insert by done. split; [by eapply Hstep|]. split; [done|by apply sorted_insert]. }
  by destruct H as (s' & -> & -> & _).
Qed.

(** ** Projection and probes *)

Lemma find_elements (k : bytes) (wanted : gset bytes) :
  List.find (name_is k) (elements wanted) = if bool_decide (k ∈ wanted) then Some k else None.
Proof.
  destruct (List.find (name_is k) (elements wanted)) as [w|] eqn:E.
  - apply find_some in E as [Hin Hw]. unfold name_is in Hw. apply bool_decide_eq_true in Hw as ->.
    rewrite bool_decide_true; [done|]. apply elem_of_elements. by apply list_elem_of_In.
  - rewrite bool_decide_false; [done|]. intros Hin. apply elem_of_elements, list_elem_of_In in Hin.
    apply (find_none _ _ E) in Hin. unfold name_is in Hin. by rewrite bool_decide_true in Hin.
Qed.

(** A raw name and a skipped value, from a decoded field. *)
Lemma raw_name_ok c k c1 : cursor_ok c -> r_string c = Ok (k, c1) -> raw_name c = Ok (k, c1).
Proof. intros Hc H. by destruct (raw_name_follows _ _ _ Hc H) as (? & ? & ->). Qed.

Lemma skip_at_ok c v c1 : cursor_ok c -> decode_at c = Ok (v, c1) -> skip_at c = Ok (tt, c1).
Proof. intros Hc H. by destruct (skip_at_follows _ _ _ Hc H) as ([] & ? & _). Qed.

(** Run a field's reader, given what its name and value decode to. *)
Ltac run_field :=
  repeat match goal with
  | H : ?r ?c = Ok _ |- context [(?r ≫= _) ?c] =>
      unfold mbind at 1, reader_bind at 1; rewrite H; cbn beta iota
  | |- context [(mret ?a ≫= ?f) ?c] => change ((mret a ≫= f) c) with (f a c); cbn beta iota
  end.

Definition kept (wanted : gset bytes) (k : bytes) : bool :=
  bool_decide (k ∈ wanted) || reserved_name k.

Definition project (wanted : gset bytes) (doc : Document) : Document :=
  view (fun k => kept wanted k || bool_decide (FIELD_NAMES_MARKER ∈ wanted))
       (fun k v => if kept wanted k then v else VNull) doc.

Definition probe (wanted probed : gset bytes) (doc : Document) : Document :=
  view (fun k => bool_decide (k ∈ probed) || kept wanted k)
       (fun k v => if bool_decide (k ∈ probed) then if is_null v then VNull else VBool true else v)
       doc.

Lemma projected_small_field wanted d c k c1 v c2 :
  let names := bool_decide (FIELD_NAMES_MARKER ∈ wanted) in
  cursor_ok c -> cursor_ok c1 -> r_string c = Ok (k, c1) -> utf8_valid k = true ->
  decode_at c1 = Ok (v, c2) ->
  projected_small wanted names d c =
  Ok (if kept wanted k || names then doc_insert k (if kept wanted k then v else VNull) d else d, c2).
Proof.
  intros names Hc Hc1 Hk Hu Hv. unfold projected_small, kept.
  pose proof (raw_name_ok _ _ _ Hc Hk) as Hr. pose proof (skip_at_ok _ _ _ Hc1 Hv) as Hskip.
  run_field. rewrite find_elements. unfold from_utf8. rewrite Hu.
  destruct (bool_decide (k ∈ wanted)), (reserved_name k), names; cbn [orb]; cbn beta iota; by run_field.
Qed.

Lemma projected_large_field wanted d c k c1 v c2 :
  let names := bool_decide (FIELD_NAMES_MARKER ∈ wanted) in
  cursor_ok c -> cursor_ok c1 -> r_string c = Ok (k, c1) -> utf8_valid k = true ->
  decode_at c1 = Ok (v, c2) ->
  projected_large wanted names d c =
  Ok (if kept wanted k || names then doc_insert k (if kept wanted k then v else VNull) d else d, c2).
Proof.
  intros names Hc Hc1 Hk Hu Hv. unfold projected_large, kept, str_ref.
  pose proof (skip_at_ok _ _ _ Hc1 Hv) as Hskip. run_field.
  destruct (_ || reserved_name k), names; by run_field.
Qed.

Lemma null_tag_decode c v c2 :
  cursor_ok c -> decode_at c = Ok (v, c2) ->
  bool_decide (head (rest c) = Some tag.NULL) = is_null v.
Proof.
  intros Hc H. unfold decode_at in H. cbn [decode_value] in H.
  apply reader_bind_ok in H as (t & c1 & Ht & H).
  destruct (r_u8_parses _ _ _ Hc Ht) as (s & l & Hs & -> & Hl & _ & Hrb).
  destruct s as [|b s]; [by cbn in Hl|].
  pose proof (r_u8_reads b c (s ++ l) Hc Hs) as Hb. rewrite Ht in Hb. injection Hb as <- _.
  rewrite Hs. cbn [app head].
  case_decide; [subst t; by injection H as <- _|].
  rewrite bool_decide_false by congruence.
  repeat (case_decide; [repeat (apply reader_bind_ok in H as (? & ? & _ & H));
                        injection H as <- _; done|]).
  discriminate H.
Qed.

Lemma probed_field_ok wanted probed d c k c1 v c2 :
  cursor_ok c -> cursor_ok c1 -> r_string c = Ok (k, c1) -> utf8_valid k = true ->
  decode_at c1 = Ok (v, c2) ->
  probed_field wanted probed d c =
  Ok (if bool_decide (k ∈ probed) || kept wanted k
      then doc_insert k (if bool_decide (k ∈ probed)
                         then if is_null v then VNull else VBool true else v) d
      else d, c2).
Proof.
  intros Hc Hc1 Hk Hu Hv. unfold probed_field, str_ref, kept.
  pose proof (skip_at_ok _ _ _ Hc1 Hv) as Hskip. run_field.
  destruct (bool_decide (k ∈ probed)); cbn [orb].
  - unfold mbind at 1, reader_bind at 1, at_null. rewrite (null_tag_decode _ _ _ Hc1 Hv).
    cbn beta iota. destruct v; cbn [is_null]; by run_field.
  - destruct (_ || reserved_name k); by run_field.
Qed.

(** ** Positional scans *)

Lemma position_lt {A} (p : A -> bool) l i : position p l = Some i -> (i < length l)%nat.
Proof.
  revert i. induction l as [|x l IH]; intros i; cbn; [done|]. destruct (p x); [intros [= <-]; lia|].
  destruct (position p l) as [j|]; [|done]. intros [= <-]. specialize (IH j eq_refl). lia.
Qed.

(** The value [scan_fields] gives at each position: a name listed twice is
    answered at its first position alone. *)
Definition scanned (doc : Document) (wanted : list bytes) : list (option Value) :=
  imap (fun i w => if bool_decide (position (name_is w) wanted = Some i) then doc_get doc w else None)
       wanted.

Definition has_reserved (doc : Document) : bool := existsb (fun kv => reserved_name kv.1) doc.

Lemma scanned_nil wanted : scanned [] wanted = replicate (length wanted) None.
Proof.
  unfold scanned. apply list_eq. intros i. rewrite list_lookup_imap.
  destruct (wanted !! i) as [w|] eqn:E; cbn.
  - rewrite lookup_replicate_2 by (by eapply lookup_lt_Some). by case_bool_decide.
  - apply lookup_ge_None in E. symmetry. apply lookup_ge_None. by rewrite length_replicate.
Qed.

Lemma position_name k wanted i :
  position (name_is k) wanted = Some i -> wanted !! i = Some k.
Proof.
  revert i. induction wanted as [|w l IH]; intros i; cbn; [done|]. unfold name_is at 1.
  case_bool_decide as E; [intros [= <-]; by subst|].
  destruct (position (name_is k) l) as [j|]; [|done]. intros [= <-]. by apply IH.
Qed.

Lemma scanned_insert k v doc wanted :
  scanned (doc_insert k v doc) wanted =
  match position (name_is k) wanted with
  | Some i => <[i := Some v]> (scanned doc wanted)
  | None => scanned doc wanted
  end.
Proof.
  apply list_eq. intros j. unfold scanned at 1. rewrite list_lookup_imap.
  assert (Hold : forall w, wanted !! j = Some w -> scanned doc wanted !! j =
    Some (if bool_decide (position (name_is w) wanted = Some j) then doc_get doc w else None)).
  { intros w Hw. unfold scanned. by rewrite list_lookup_imap, Hw. }
  assert (Hlen : length (scanned doc wanted) = length wanted) by apply length_imap.
  destruct (wanted !! j) as [w|] eqn:Hw; cbn.
  - specialize (Hold w eq_refl). pose proof (lookup_lt_Some _ _ _ Hw) as Hj.
    unfold doc_get, doc_insert in *. rewrite bt_get_insert.
    destruct (kcmp_cases w k) as [[-> ->]|[[Hne ->]|[Hne ->]]].
    + destruct (position (name_is k) wanted) as [i|] eqn:Hp.
      * case_bool_decide as E.
        -- injection E as ->. rewrite list_lookup_insert_eq by lia. done.
        -- rewrite list_lookup_insert_ne by congruence. rewrite Hold. done.
      * rewrite Hold. done.
    + assert (w <> k) by (intros ->; exact (klt_irrefl _ Hne)).
      destruct (position (name_is k) wanted) as [i|] eqn:Hp; [|by rewrite Hold].
      rewrite list_lookup_insert_ne; [by rewrite Hold|]. intros ->.
      apply position_name in Hp. congruence.
    + assert (w <> k) by (intros ->; exact (klt_irrefl _ Hne)).
      destruct (position (name_is k) wanted) as [i|] eqn:Hp; [|by rewrite Hold].
      rewrite list_lookup_insert_ne; [by rewrite Hold|]. intros ->.
      apply position_name in Hp. congruence.
  - apply lookup_ge_None in Hw. symmetry. apply lookup_ge_None.
    destruct (position _ _); rewrite ?length_insert; lia.
Qed.

Lemma existsb_insert {V} (p : bytes -> bool) k (v : V) m :
  existsb (fun kv => p kv.1) (bt_insert k v m) = existsb (fun kv => p kv.1) m || p k.
Proof.
  induction m as [|[k1 v1] m IH]; cbn; [by rewrite orb_false_r|].
  destruct (kcmp_cases k k1) as [[-> E]|[[_ E]|[_ E]]]; cbn in E; rewrite E; cbn.
  - destruct (p k1), (existsb _ m); done.
  - destruct (p k1), (p k), (existsb _ m); done.
  - rewrite IH. destruct (p k1), (p k), (existsb _ m); done.
Qed.

Lemma scan_field_ok wanted doc c k c1 v c2 :
  cursor_ok c -> cursor_ok c1 -> r_string c = Ok (k, c1) -> decode_at c1 = Ok (v, c2) ->
  scan_field wanted (scanned doc wanted, has_reserved doc) c
  = Ok ((scanned (doc_insert k v doc) wanted, has_reserved (doc_insert k v doc)), c2).
Proof.
  intros Hc Hc1 Hk Hv. unfold scan_field, has_reserved, doc_insert. rewrite existsb_insert.
  pose proof (scanned_insert k v doc wanted) as E. unfold doc_insert in E. rewrite E.
  pose proof (raw_name_ok _ _ _ Hc Hk) as Hr. pose proof (skip_at_ok _ _ _ Hc1 Hv) as Hskip.
  run_field. destruct (position (name_is k) wanted); by run_field.
Qed.

(** ** Group keys from stored bytes *)

(** The transcoder agrees with decode-then-encode on every value. *)
Lemma transcode_tag_ok `{Powi} bs c v c' x :
  cursor_ok c -> decode_at c = Ok (v, c') -> decode_at (cursor_new bs) = Ok (v, x) ->
  exists c'', (t ← r_u8; transcode_tag bs t) c = Ok (encode_into v, c'').
Proof.
  intros Hc Hv Hbs. unfold decode_at in Hv. cbn [decode_value] in Hv.
  apply reader_bind_ok in Hv as (t & c1 & Ht & Hv). run_field. unfold transcode_tag.
  assert (Hnested : exists c'', lift ('(v, _) ← decode_at (cursor_new bs); Ok (encode_into v)) c1
                                = Ok (encode_into v, c'') :> res ValueError (bytes * Cursor)).
  { exists c1. unfold lift. by rewrite Hbs. }
  repeat (case_decide; [subst t; pick_tag|]); try discriminate Hv; try exact Hnested.
  - injection Hv as <- <-. by eexists.
  - apply reader_bind_ok in Hv as (b & c2 & Hb & [= <- <-]). run_field. by eexists.
  - apply reader_bind_ok in Hv as (b & c2 & Hb & [= <- <-]). run_field. by eexists.
  - apply reader_bind_ok in Hv as (b & c2 & Hb & [= <- <-]). run_field. by eexists.
  - apply reader_bind_ok in Hv as (m & c2 & Hm & Hv).
    apply reader_bind_ok in Hv as (s & c3 & Hs & [= <- <-]). run_field. by eexists.
  - apply reader_bind_ok in Hv as (s & c2 & Hs & [= <- <-]).
    apply reader_bind_ok in Hs as (s0 & c3 & Hs & Hu).
    destruct (utf8_valid s0) eqn:Eu; [|done]. injection Hu as -> ->.
    apply reader_bind_ok in Hs as (n & c4 & Hn & Hs). fold r_u32 in Hn. fold (r_take n) in Hs.
    unfold r_u32 in *. run_field. unfold r_take in *. run_field. rewrite Eu. by eexists.
  - apply reader_bind_ok in Hv as (s & c2 & Hs & [= <- <-]).
    apply reader_bind_ok in Hs as (n & c4 & Hn & Hs).
    unfold r_u32 in *. run_field. unfold r_take in *. run_field. by eexists.
  - apply reader_bind_ok in Hv as (b & c2 & Hb & [= <- <-]). run_field. by eexists.
  - apply reader_bind_ok in Hv as (b & c2 & Hb & [= <- <-]). run_field. by eexists.
Qed.

Lemma transcode_slice `{Powi} bs c v c' :
  cursor_ok c -> cur_bytes c = bs -> decode_at c = Ok (v, c') ->
  transcode_key_value (slice bs (cur_pos c) (cur_pos c')) = Ok (encode_into v).
Proof.
  intros Hc Hb Hv. destruct (decode_at_parses _ _ _ Hc Hv) as (s & l & Hs & -> & _ & _ & Hr).
  assert (E : slice bs (cur_pos c) (cur_pos (advance c (len s))) = s).
  { unfold slice, advance. cbn. replace (cur_pos c + len s - cur_pos c) with (len s) by lia.
    unfold rest in Hs. rewrite Hb in Hs. rewrite Hs. unfold len. rewrite Nat2Z.id. apply take_app_length. }
  rewrite E. assert (Hsl : is_slice s).
  { destruct (rest_advance c s l Hc Hs) as (_ & _ & _ & Hle). destruct Hc as [Hp Hbs].
    unfold is_slice, remaining in *. lia. }
  assert (Hn : decode_at (cursor_new s) = Ok (v, advance (cursor_new s) (len s))).
  { apply (Hr _ []); [by apply cursor_new_ok|by rewrite app_nil_r]. }
  destruct (transcode_tag_ok s _ _ _ _ (cursor_new_ok s Hsl) Hn Hn) as [c'' Ht].
  unfold transcode_key_value. by rewrite Ht.
Qed.

Section group_follow.
Context `{Powi} (bs : bytes) (key_fields val_fields : list bytes).

Definition span_ok (doc : Document) (w : bytes) (span : option (Z * Z)) : Prop :=
  match doc_get doc w with
  | None => span = None
  | Some v => exists a b, span = Some (a, b) /\ transcode_key_value (slice bs a b) = Ok (encode_into v)
  end.

Definition group_rel (doc : Document) (st : group_state) : Prop :=
  st.(g_vals) = scanned doc val_fields /\ st.(g_reserved) = has_reserved doc
  /\ Forall2 (span_ok doc) key_fields st.(g_spans).

Lemma span_ok_ne doc k v w span : w <> k -> span_ok doc w span -> span_ok (doc_insert k v doc) w span.
Proof. intros Hne. unfold span_ok, doc_get, doc_insert. by rewrite bt_get_insert_ne. Qed.

Lemma spans_miss doc k v spans :
  existsb (name_is k) key_fields = false ->
  Forall2 (span_ok doc) key_fields spans -> Forall2 (span_ok (doc_insert k v doc)) key_fields spans.
Proof.
  intros Hk Hs. revert Hk. induction Hs as [|w sp ks sps Hw _ IH]; [constructor|].
  cbn. unfold name_is at 1. case_bool_decide; [done|]. intros Hk. constructor; [by apply span_ok_ne|].
  by apply IH.
Qed.

Lemma spans_hit doc k v spans a b :
  transcode_key_value (slice bs a b) = Ok (encode_into v) ->
  Forall2 (span_ok doc) key_fields spans ->
  Forall2 (span_ok (doc_insert k v doc)) key_fields
    (zip_with (fun w span => if name_is k w then Some (a, b) else span) key_fields spans).
Proof.
  intros Hk Hs. induction Hs as [|w sp ks sps Hw _ IH]; cbn; constructor; [|done].
  unfold name_is. case_bool_decide as E; [subst w|by apply span_ok_ne].
  unfold span_ok, doc_get, doc_insert. rewrite bt_get_insert_eq. eauto.
Qed.

Lemma group_field_ok doc st c k c1 v c2 :
  cursor_ok c -> cursor_ok c1 -> cur_bytes c1 = bs -> group_rel doc st ->
  r_string c = Ok (k, c1) -> decode_at c1 = Ok (v, c2) ->
  exists st', group_field key_fields val_fields st c = Ok (st', c2)
              /\ group_rel (doc_insert k v doc) st'.
Proof.
  intros Hc Hc1 Hb (Hvals & Hres & Hspans) Hk Hv.
  pose proof (raw_name_ok _ _ _ Hc Hk) as Hr. pose proof (skip_at_ok _ _ _ Hc1 Hv) as Hskip.
  pose proof (transcode_slice _ _ _ _ Hc1 Hb Hv) as Htr.
  pose proof (scanned_insert k v doc val_fields) as Esc.
  assert (Eres : has_reserved (doc_insert k v doc) = has_reserved doc || reserved_name k).
  { unfold has_reserved, doc_insert. apply existsb_insert. }
  unfold group_field, group_rel. run_field.
  rewrite Hvals, Hres, Eres, Esc.
  destruct (position (name_is k) val_fields) as [i|],
           (existsb (name_is k) key_fields) eqn:Hkey; run_field;
    try (change ((tell ≫= ?f) c1) with (f (cur_pos c1) c1); cbn beta).
  all: eexists; (split; [unfold mbind, reader_bind, tell; rewrite ?Hv, ?Hskip; reflexivity|]).
  all: cbn [g_vals g_spans g_reserved]; split_and!; try done.
  all: first [by apply spans_hit | by apply spans_miss].
Qed.

Lemma span_keys_ok doc spans ks :
  Forall2 (span_ok doc) ks spans ->
  span_keys bs spans
  = Ok (flat_map (fun w => encode_into (default VNull (doc_get doc w))) ks).
Proof.
  induction 1 as [|w sp ks sps Hw _ IH]; [done|]. cbn [span_keys flat_map]. unfold span_ok in Hw.
  destruct (doc_get doc w) as [v|].
  - destruct Hw as (a & b & -> & ->). cbn. by rewrite IH.
  - subst sp. cbn. by rewrite IH.
Qed.

End group_follow.

(** ** The reserved-field gate *)

Definition encode_field (kv : bytes * Value) : bytes := write_bytes kv.1 ++ encode_value kv.2.

Lemma skip_at_encode v : wf_value v = true -> reads_back skip_at (encode_value v) tt.
Proof.
  intros W c l Hc Hl. eapply skip_at_ok; [done|]. by eapply decode_at_encode.
Qed.

Lemma raw_name_reads k : len k < 2 ^ 32 -> reads_back raw_name (write_bytes k) k.
Proof.
  intros Hk. unfold raw_name, write_bytes, prefixed.
  eapply reads_back_bind; [apply r_u32_reads; pose proof (len_nonneg k); lia|]. by apply r_take_reads.
Qed.

(** Past a name that starts above 1, no name is reserved. *)
Lemma above_not_reserved k m :
  sorted_above (Some k) m = true -> (forall b, head k = Some b -> 1 < u8 b) -> k <> [] ->
  existsb (fun kv : bytes * Value => reserved_name kv.1) m = false.
Proof.
  intros Hs Hk Hne. apply not_true_iff_false. intros ([k' v] & Hin & Hr)%existsb_exists.
  unfold reserved_name in Hr. apply bool_decide_eq_true in Hr. cbn in Hr.
  apply list_elem_of_In in Hin. pose proof (sorted_above_elem _ _ _ _ Hs Hin) as Hlt.
  destruct k as [|b k]; [done|]. destruct k' as [|b' k']; [done|]. injection Hr as ->.
  specialize (Hk b eq_refl). unfold klt in Hlt. cbn in Hlt. change (u8 x01) with 1 in Hlt.
  by rewrite (proj2 (Z.compare_gt_iff _ _)) in Hlt by lia.
Qed.

Lemma reserved_walk_ok doc fuel c l :
  sorted doc = true ->
  Forall (fun kv => len kv.1 < 2 ^ 32 /\ wf_value kv.2 = true) doc ->
  (length doc < fuel)%nat -> cursor_ok c -> rest c = flat_map encode_field doc ++ l ->
  exists c', reserved_walk fuel (Z.of_nat (length doc)) c = Ok (has_reserved doc, c').
Proof.
  revert fuel c. induction doc as [|[k v] doc IH]; intros fuel c Hs Hw Hf Hc Hl.
  { exists c. destruct fuel; done. }
  apply Forall_cons in Hw as [[Hk Hv] Hw]. cbn [fst snd] in Hk, Hv.
  destruct fuel as [|fuel]; [lia|]. cbn [reserved_walk].
  rewrite (proj2 (Z.leb_gt _ _)) by (cbn [length]; lia).
  cbn [flat_map] in Hl. unfold encode_field in Hl at 1. cbn [fst snd] in Hl.
  rewrite <- !app_assoc in Hl.
  pose proof (raw_name_reads k Hk c _ Hc Hl) as Hr. run_field.
  destruct (rest_advance c _ _ Hc Hl) as (Hl1 & Hc1 & _).
  pose proof (skip_at_encode v Hv _ _ Hc1 Hl1) as Hskip.
  destruct (rest_advance _ _ _ Hc1 Hl1) as (Hl2 & Hc2 & _).
  replace (Z.of_nat (length ((k, v) :: doc)) - 1) with (Z.of_nat (length doc)) by (cbn [length]; lia).
  assert (Hnext : exists c', (_ ← skip_at; reserved_walk fuel (Z.of_nat (length doc))) (advance c (len (write_bytes k)))
               = Ok (has_reserved doc, c')).
  { run_field. apply IH; [by eapply sorted_tail|done|cbn in Hf; lia|done|done]. }
  unfold has_reserved at 1. cbn [existsb fst]. unfold reserved_name at 1.
  destruct k as [|b k]; cbn [head] in *.
  - rewrite bool_decide_false by done. exact Hnext.
  - case_decide as E; [subst b; rewrite bool_decide_true by done; by eexists|].
    rewrite bool_decide_false by congruence. destruct (Z.ltb_spec 1 (u8 b)).
    + eexists. cbn [orb]. unfold has_reserved. rewrite (above_not_reserved (b :: k)); [reflexivity| |by intros ? [= <-]|done].
      by apply sorted_cons in Hs.
    + exact Hnext.
Qed.

(** ** Every partial reader comes back *)

Lemma header_ok e checked c n c' :
  cursor_ok c -> document_header e checked c = Ok (n, c') -> cursor_ok c' /\ cur_bytes c' = cur_bytes c.
Proof.
  intros Hc (t & c1 & Ht & H)%reader_bind_ok.
  destruct (parses_ok _ _ _ _ _ _ r_u8_parses Hc Ht) as (Hc1 & _ & _ & Hb1).
  case_decide; [|done]. apply reader_bind_ok in H as (m & c2 & Hn & H).
  destruct (parses_ok _ _ _ _ _ _ r_u32_parses Hc1 Hn) as (Hc2 & _ & _ & Hb2).
  apply reader_bind_ok in H as (u & c3 & He & [= <- <-]).
  assert (c3 = c2) as ->; [|split; [done|congruence]].
  destruct checked; [|by injection He].
  unfold ensure in He. destruct (_ <? _); [done|]. by injection He.
Qed.

Lemma header_total e checked : reader_total (document_header e checked).
Proof.
  eapply total_bind; [apply r_u8_total|apply r_u8_parses|]. intros t _. case_decide; [|done].
  eapply total_bind; [apply r_u32_total|apply r_u32_parses|]. intros n _. destruct checked; [|done].
  apply total_ensure. done.
Qed.

Lemma document_walk_total {A} e checked (f : Z -> reader ValueError A) :
  (forall n, reader_total (f n)) -> reader_total (n ← document_header e checked; f n).
Proof.
  intros Hf c Hc. pose proof (header_total e checked c Hc) as Ht. unfold mbind, reader_bind.
  destruct (document_header e checked c) as [[n c1]| | |] eqn:E; try done.
  apply Hf. by apply (header_ok _ _ _ _ _ Hc E).
Qed.

Lemma document_loop_total {S} e checked (step : S -> reader ValueError S) s :
  (forall s, moves 1 (step s)) -> (forall s, reader_total (step s)) ->
  reader_total (n ← document_header e checked; for_each n step s).
Proof. intros. apply document_walk_total. intros n. by apply for_each_total. Qed.

Lemma tell_moves {E} : moves 0 (tell : reader E Z).
Proof. intros c a c' Hc [= <- <-]. split_and!; [done|lia|done]. Qed.

Lemma at_null_moves : moves 0 at_null.
Proof. intros c a c' Hc [= <- <-]. split_and!; [done|lia|done]. Qed.

Lemma from_utf8_moves k : moves 0 (from_utf8 k).
Proof. unfold from_utf8. destruct (utf8_valid k); [apply moves_ret|apply moves_fail]. Qed.

Lemma from_utf8_total k : reader_total (from_utf8 k).
Proof. intros c _. unfold from_utf8. by destruct (utf8_valid k). Qed.

Lemma moves_total_bind {A B} k (r : reader ValueError A) (f : A -> reader ValueError B) :
  reader_total r -> moves k r -> (forall a, reader_total (f a)) -> reader_total (r ≫= f).
Proof.
  intros Ht Hm Hf c Hc. specialize (Ht c Hc). unfold mbind, reader_bind.
  destruct (r c) as [[a c1]| | |] eqn:E; try done. apply Hf. by apply (Hm _ _ _ Hc E).
Qed.

Lemma moves_weaken {A} k k' (r : reader ValueError A) : moves k r -> k' <= k -> moves k' r.
Proof. intros Hr Hk c a c' Hc H. destruct (Hr _ _ _ Hc H) as (? & ? & ?). split_and!; [done|lia|done]. Qed.

(** The pieces the loop bodies are made of. *)
Lemma pieces :
  moves 1 raw_name /\ moves 1 str_ref /\ moves 1 decode_at /\ moves 1 skip_at
  /\ reader_total raw_name /\ reader_total str_ref /\ reader_total decode_at /\ reader_total skip_at.
Proof.
  split_and!; try apply raw_name_total; try apply r_string_total; try apply decode_at_total;
    try apply skip_at_total.
  - eapply parses_moves, parses_weaken; [apply raw_name_parses|lia|done].
  - eapply parses_moves, parses_weaken; [apply r_string_parses|lia|done].
  - eapply parses_moves, decode_at_parses.
  - eapply parses_moves, skip_at_parses.
Qed.

Ltac piece := first [apply pieces | apply tell_moves | apply at_null_moves | apply from_utf8_moves
                    | apply from_utf8_total | done].
Ltac body_moves :=
  lazymatch goal with
  | |- moves _ (let _ := _ in _) => cbv zeta; body_moves
  | |- moves _ (match ?x with _ => _ end) => destruct x; body_moves
  | |- moves _ (match ?x with _ => _ end ≫= _) => destruct x; body_moves
  | |- moves _ (mret _) => apply moves_ret
  | |- moves _ ((_ ≫= _) ≫= _) => eapply (moves_bind 0 0); [body_moves|intros ?; body_moves|lia]
  | |- moves _ (mret _ ≫= _) => eapply (moves_bind 0 0); [apply moves_ret|intros ?; body_moves|lia]
  | |- moves 0 (_ ≫= _) => eapply (moves_bind 0 0);
      [first [piece | eapply moves_weaken; [piece|lia]]|intros ?; body_moves|lia]
  | |- moves 1 (_ ≫= _) => eapply (moves_bind 1 0); [piece|intros ?; body_moves|lia]
  end.
Ltac body_total :=
  lazymatch goal with
  | |- reader_total (let _ := _ in _) => cbv zeta; body_total
  | |- reader_total (match ?x with _ => _ end) => destruct x; body_total
  | |- reader_total (match ?x with _ => _ end ≫= _) => destruct x; body_total
  | |- reader_total (mret _) => done
  | |- reader_total ((_ ≫= _) ≫= _) =>
      eapply (moves_total_bind 0); [body_total|body_moves|intros ?; body_total]
  | |- reader_total (_ ≫= _) =>
      eapply moves_total_bind; [piece|first [piece|apply moves_ret]|intros ?; body_total]
  end.

Lemma projected_small_body wanted names d :
  moves 1 (projected_small wanted names d) /\ reader_total (projected_small wanted names d).
Proof. unfold projected_small. split; [body_moves|body_total]. Qed.

Lemma projected_large_body wanted names d :
  moves 1 (projected_large wanted names d) /\ reader_total (projected_large wanted names d).
Proof. unfold projected_large. split; [body_moves|body_total]. Qed.

Lemma probed_field_body wanted probed d :
  moves 1 (probed_field wanted probed d) /\ reader_total (probed_field wanted probed d).
Proof. unfold probed_field. split; [body_moves|body_total]. Qed.

Lemma scan_field_body wanted st :
  moves 1 (scan_field wanted st) /\ reader_total (scan_field wanted st).
Proof. destruct st. unfold scan_field. split; [body_moves|body_total]. Qed.

Lemma group_field_body kf vf st :
  moves 1 (group_field kf vf st) /\ reader_total (group_field kf vf st).
Proof. unfold group_field. split; [body_moves|body_total]. Qed.

Lemma name_body (names : list bytes) :
  moves 1 (k ← str_ref; _ ← skip_at; mret (names ++ [k]))
  /\ reader_total (k ← str_ref; _ ← skip_at; mret (names ++ [k])).
Proof. split; [body_moves|body_total]. Qed.

Lemma reserved_walk_total fuel n c :
  cursor_ok c -> remaining c < Z.of_nat fuel -> returns (reserved_walk fuel n c).
Proof.
  revert n c. induction fuel as [|fuel IH]; intros n c Hc Hf; [pose proof (remaining_nonneg c); lia|].
  cbn [reserved_walk]. destruct (n <=? 0); [done|].
  destruct pieces as (Hm & _ & _ & Hms & Ht & _ & _ & Hts).
  specialize (Ht c Hc). unfold mbind at 1, reader_bind at 1.
  destruct (raw_name c) as [[raw c1]| | |] eqn:Er; try done.
  destruct (Hm _ _ _ Hc Er) as (Hc1 & Hr1 & _).
  assert (Hnext : returns ((_ ← skip_at; reserved_walk fuel (n - 1)) c1)).
  { specialize (Hts c1 Hc1). unfold mbind, reader_bind.
    destruct (skip_at c1) as [[u c2]| | |] eqn:Es; try done.
    destruct (Hms _ _ _ Hc1 Es) as (Hc2 & Hr2 & _). apply IH; [done|lia]. }
  destruct (head raw) as [b|]; [|done]. case_decide; [done|]. by destruct (1 <? u8 b).
Qed.

Lemma slice_is_slice bs a b : is_slice bs -> is_slice (slice bs a b).
Proof.
  unfold is_slice, slice, len. intros H. rewrite length_take, length_drop. lia.
Qed.

Lemma transcode_total `{Powi} bs : is_slice bs -> returns (transcode_key_value bs).
Proof.
  intros Hs. pose proof (cursor_new_ok bs Hs) as Hc. unfold transcode_key_value.
  assert (Ht : reader_total (t ← r_u8; transcode_tag bs t)).
  { eapply total_bind; [apply r_u8_total|apply r_u8_parses|]. intros t _. unfold transcode_tag.
    repeat (case_decide; [try done|]); try done.
    all: try (eapply total_bind;
      [solve [auto with skaidb]|solve [auto with skaidb | apply r_take_parses; lia]|]; intros ? ?); try done.
    - by eapply total_bind; [apply r_u32_total|apply r_u32_parses|].
    - cbv beta in *. eapply total_bind; [apply r_take_total|apply r_take_parses; lia|].
      intros raw _. by destruct (utf8_valid raw).
    - cbv beta in *. by eapply total_bind; [apply r_take_total|apply r_take_parses; lia|].
    - apply total_lift. apply returns_bind; [by apply decode_at_total|]. by intros [v ?] _. }
  apply returns_bind; [by apply Ht|]. by intros [v ?] _.
Qed.

Lemma span_keys_total `{Powi} bs spans : is_slice bs -> returns (span_keys bs spans).
Proof.
  intros Hs. induction spans as [|[[a b]|] spans IH]; [done|..]; cbn [span_keys].
  - apply returns_bind; [by apply transcode_total, slice_is_slice|]. intros k _.
    apply returns_bind; [done|]. done.
  - cbn. apply returns_bind; [done|]. done.
Qed.

(** ** Properties *)

(** Wherever the bytes decode to a document, the projected decode gives
    that document restricted to the wanted and the reserved fields — the
    other fields kept as [NULL] placeholders when every name is asked for —
    by the byte-comparing path of small projections and by the hashed path of
    large ones alike. *)
Theorem projected_is_projection bs doc wanted :
  is_slice bs -> decode bs = Ok (VDocument doc) ->
  decode_document_projected bs wanted = Ok (project wanted doc).
Proof.
  intros Hs Hd. unfold decode_document_projected.
  pose proof (view_follow (fun k => kept wanted k || bool_decide (FIELD_NAMES_MARKER ∈ wanted))
    (fun k v => if kept wanted k then v else VNull)) as Hv. unfold project.
  destruct (size wanted <=? 8)%nat; (eapply Hv; [|done..]); intros.
  - by eapply (projected_small_field wanted).
  - by eapply (projected_large_field wanted).
Qed.

Definition sample_doc : Document :=
  [(x01 :: str "toast", VBool true); (str "a", VArray [VInt (-7); VNull]); (str "b", VNull);
   (str "c", VString (str "x"))].

Lemma sample_slice : is_slice (encode_document sample_doc).
Proof. apply Z.ltb_lt. vm_compute. reflexivity. Defined.

Lemma projected_is_projection_witness :
  decode_document_projected (encode_document sample_doc) {[str "c"]}
  = Ok [(x01 :: str "toast", VBool true); (str "c", VString (str "x"))].
Proof.
  rewrite (projected_is_projection _ sample_doc {[str "c"]} sample_slice);
    [vm_compute; reflexivity|vm_compute; reflexivity].
Defined.

(** The probed decode gives the document restricted to the probed, wanted
    and reserved fields, a probed field reduced to its nullness. *)
Theorem probed_is_probe bs doc wanted probed :
  is_slice bs -> decode bs = Ok (VDocument doc) ->
  decode_document_probed bs wanted probed = Ok (probe wanted probed doc).
Proof.
  intros Hs Hd. unfold decode_document_probed, probe.
  eapply view_follow; [|done..]. intros. by eapply probed_field_ok.
Qed.

Lemma probed_is_probe_witness :
  decode_document_probed (encode_document sample_doc) {[str "c"]} {[str "a"; str "b"]}
  = Ok [(x01 :: str "toast", VBool true); (str "a", VBool true); (str "b", VNull);
        (str "c", VString (str "x"))].
Proof.
  rewrite (probed_is_probe _ sample_doc {[str "c"]} {[str "a"; str "b"]} sample_slice);
    [vm_compute; reflexivity|vm_compute; reflexivity].
Defined.

(** Wherever the bytes decode to a document, [scan_fields] answers each
    wanted name with the document's value for it (at the first position that
    lists the name) and reports whether any reserved field is present. *)
Theorem scan_fields_lookup bs doc wanted :
  is_slice bs -> decode bs = Ok (VDocument doc) ->
  scan_fields bs wanted = Ok (scanned doc wanted, has_reserved doc)
  /\ (NoDup wanted -> scanned doc wanted = map (doc_get doc) wanted).
Proof.
  intros Hs Hd. split.
  - unfold scan_fields, scan_fields_into.
    assert (H : exists st, read_all trailing
        (n ← document_header (unrep "scan_fields: not a document") false;
         for_each n (scan_field wanted) (replicate (length wanted) None, false)) bs = Ok st
        /\ st = (scanned doc wanted, has_reserved doc)).
    { apply (@document_follow _ (fun d st => st = (scanned d wanted, has_reserved d))); [|done..|].
      - intros d st c k c1 v c2 Hc Hc1 _ -> Hk _ Hv _. eexists. split; [by eapply scan_field_ok|done].
      - by rewrite scanned_nil. }
    by destruct H as (st & -> & ->).
  - intros Hnd. unfold scanned. apply list_eq. intros i. rewrite list_lookup_imap.
    rewrite list_lookup_fmap. destruct (wanted !! i) as [w|] eqn:Hw; [|done]. cbn. f_equal.
    rewrite bool_decide_true; [done|]. destruct (position (name_is w) wanted) as [j|] eqn:Hj.
    + apply position_name in Hj. f_equal. by eapply NoDup_lookup.
    + exfalso. revert i Hw Hj. clear. induction wanted as [|x l IH]; intros i Hw Hj; [done|].
      cbn in Hj. unfold name_is at 1 in Hj. case_bool_decide; [done|].
      destruct (position (name_is w) l) eqn:E; [done|]. destruct i; cbn in Hw; [congruence|eauto].
Qed.

Lemma scan_fields_lookup_witness :
  scan_fields (encode_document sample_doc) [str "c"; str "z"]
  = Ok ([Some (VString (str "x")); None], true).
Proof.
  destruct (scan_fields_lookup _ sample_doc [str "c"; str "z"] sample_slice) as [E _];
    [vm_compute; reflexivity|]. rewrite E. vm_compute. reflexivity.
Defined.

(** C17: the streamed GROUP BY row: wherever the bytes decode to a document,
    [scan_group_row] appends the array key of the decoded group values (a
    missing field counts as [NULL]), transcoded from the stored bytes, and
    answers the aggregate arguments as [scan_fields] does. *)
Theorem scan_group_row_key `{Powi} bs doc key_fields val_fields :
  is_slice bs -> decode bs = Ok (VDocument doc) ->
  scan_group_row bs key_fields val_fields =
  Ok (match key_fields with
      | [] => []
      | _ => encode_array_key_into (map (fun w => default VNull (doc_get doc w)) key_fields)
      end, scanned doc val_fields, has_reserved doc).
Proof.
  intros Hs Hd. unfold scan_group_row.
  edestruct (@document_follow group_state (group_rel bs key_fields val_fields)
    (group_field key_fields val_fields) bs) as (st & E & Hvals & Hres & Hspans);
    [|done|exact Hd| |rewrite E].
  - intros. by eapply group_field_ok.
  - split; cbn; [by rewrite scanned_nil|]. split; [done|].
    clear. induction key_fields; cbn; by constructor.
  - cbn. rewrite Hvals, Hres. destruct key_fields as [|w ks]; [done|].
    rewrite (span_keys_ok bs doc _ (w :: ks)) by done. cbn [mbind res_bind].
    unfold encode_array_key_into. rewrite (flat_map_concat_map _ (map _ _)), map_map.
    by rewrite <- flat_map_concat_map.
Qed.

Lemma scan_group_row_key_witness :
  @scan_group_row powi_by_squaring (encode_document sample_doc) [str "c"; str "z"] [str "a"]
  = Ok ([ARRAY; STRING; x78; x00; x00; NULL; END], [Some (VArray [VInt (-7); VNull])], true).
Proof.
  rewrite (@scan_group_row_key powi_by_squaring _ sample_doc [str "c"; str "z"] [str "a"]
             sample_slice); vm_compute; reflexivity.
Defined.

(** On stored rows (documents as [encode_document] writes them) the gate
    [doc_has_reserved], which stops at the first deciding name, says exactly
    whether some field is reserved. *)
Theorem doc_has_reserved_exact doc :
  wf_doc doc = true -> is_slice (encode_document doc) ->
  doc_has_reserved (encode_document doc) = Ok (has_reserved doc).
Proof.
  intros W Hs. pose proof W as W'. cbn in W. apply andb_true_iff in W as [[Hl Hsd]%andb_true_iff _].
  pose proof (cursor_new_ok _ Hs) as Hc. pose proof (rest_new (encode_document doc)) as Hr.
  unfold doc_has_reserved. set (c := cursor_new (encode_document doc)) in *.
  unfold encode_document in Hr. pose proof (r_u8_reads tag.DOCUMENT c _ Hc Hr) as E1.
  destruct (rest_advance c _ _ Hc Hr) as (Hr1 & Hc1 & _).
  pose proof (count32_reads doc Hl _ _ Hc1 Hr1) as E2.
  destruct (rest_advance _ _ _ Hc1 Hr1) as (Hr2 & Hc2 & Hrem & _).
  set (c2 := advance _ (len (count32 doc))) in *.
  destruct (reserved_walk_ok doc (S (Z.to_nat (remaining c2))) c2 []) as [c' Hw]; [done| | |done| |].
  - apply Forall_forall. intros [k v] Hin. cbn.
    destruct (wf_doc_field doc k v W' Hin) as (_ & ?%Z.ltb_lt & ?). done.
  - pose proof (rest_length c2 Hc2) as Hlen. rewrite Hr2 in Hlen.
    pose proof (len_flat_map encode_field 1 doc) as Hmin. fold encode_field in Hlen.
    assert (1 * Z.of_nat (length doc) <= len (flat_map encode_field doc)).
    { apply Hmin. intros kv. unfold encode_field. rewrite len_app.
      pose proof (write_bytes_min kv.1). pose proof (encode_value_min kv.2). lia. }
    unfold encode_field in *. lia.
  - by rewrite Hr2, app_nil_r.
  - assert (E : (n ← document_header (unrep "doc_has_reserved: not a document") false;
                 reserved_from n) c = Ok (has_reserved doc, c')); [|by rewrite E].
    apply reader_bind_ok. exists (Z.of_nat (length doc)), c2. split; [|done].
    apply reader_bind_ok. eexists _, _. split; [exact E1|]. rewrite decide_True by done.
    apply reader_bind_ok. eexists _, _. split; [exact E2|done].
Qed.

Lemma doc_has_reserved_exact_witness :
  doc_has_reserved (encode_document sample_doc) = Ok true.
Proof.
  rewrite (doc_has_reserved_exact sample_doc); [reflexivity|vm_compute; reflexivity|apply sample_slice].
Defined.

(** The partial readers are safe on any bytes: each comes back with a
    result or an error, whatever the counts, lengths and nesting claim. *)
Theorem partial_readers_return `{Powi} bs wanted probed names kf vf :
  is_slice bs ->
  returns (decode_document_projected bs wanted) /\ returns (decode_document_probed bs wanted probed)
  /\ returns (scan_field_names bs) /\ returns (scan_fields bs names)
  /\ returns (scan_group_row bs kf vf) /\ returns (doc_has_reserved bs).
Proof.
  intros Hs. split_and!.
  - apply read_all_returns; [done|]. apply document_walk_total. intros n.
    case_match; apply for_each_total; intros; apply projected_small_body || apply projected_large_body.
  - apply read_all_returns; [done|]. apply document_loop_total; intros; apply probed_field_body.
  - apply read_all_returns; [done|]. apply document_loop_total; intros; apply name_body.
  - apply read_all_returns; [done|]. apply document_loop_total; intros; apply scan_field_body.
  - unfold scan_group_row. apply returns_bind.
    + apply read_all_returns; [done|]. apply document_loop_total; intros; apply group_field_body.
    + intros st _. apply returns_bind; [|done]. destruct kf; [done|].
      apply returns_bind; [by apply span_keys_total|done].
  - unfold doc_has_reserved. apply returns_bind; [|by intros [r c] _].
    apply document_walk_total; [|by apply cursor_new_ok]. intros n c Hc.
    apply reserved_walk_total; [done|]. pose proof (remaining_nonneg c). lia.
Qed.

Lemma partial_readers_return_witness :
  returns (scan_fields (tag.DOCUMENT :: replicate 12 xff) []).
Proof.
  apply (@partial_readers_return powi_by_squaring (tag.DOCUMENT :: replicate 12 xff) ∅ ∅ [] [] []).
  apply Z.ltb_lt. vm_compute. reflexivity.
Defined.
