(* ===== verification/Rbac.v ===== *)
(** * Role-based access control

    [crates/skaidb-auth/src/rbac.rs]: roles, their grants and inheritance, the
    operations of the [RoleStore], and the three traversals of the
    inheritance graph, compared with reachability. *)
From S2P Require Import Prelude Bytes Text BTree.
From Stdlib Require Import Sorted.
From stdpp Require Import relations.
#[local] Open Scope Z_scope.

Inductive Privilege :=
| Select | Insert | Update | Delete | Create | Drop | Grant | Monitor | Advisor | Publish
| Subscribe | Execute | Bi | Admin.

Inductive Object :=
| Global
| Table (name : bytes)
| Database (name : bytes)
| MqttTopic (filter : bytes)
| Procedure (name : bytes)
| Column (table column : bytes).

#[export] Instance privilege_eq_dec : EqDecision Privilege.
Proof. solve_decision. Defined.
#[export] Instance object_eq_dec : EqDecision Object.
Proof. solve_decision. Defined.

(** The derived orders: the variants in declaration order, then the fields. *)
Definition privilege_index (p : Privilege) : Z :=
  match p with
  | Select => 0 | Insert => 1 | Update => 2 | Delete => 3 | Create => 4 | Drop => 5 | Grant => 6
  | Monitor => 7 | Advisor => 8 | Publish => 9 | Subscribe => 10 | Execute => 11 | Bi => 12
  | Admin => 13
  end.

Definition object_fields (o : Object) : Z * (bytes * bytes) :=
  match o with
  | Global => (0, ([], []))
  | Table t => (1, (t, []))
  | Database d => (2, (d, []))
  | MqttTopic f => (3, (f, []))
  | Procedure p => (4, (p, []))
  | Column t c => (5, (t, c))
  end.

#[export] Instance privilege_index_inj : Inj (=) (=) privilege_index.
Proof. by intros [] []. Qed.
#[export] Instance object_fields_inj : Inj (=) (=) object_fields.
Proof. intros [] []; cbn; congruence. Qed.

#[export] Instance privilege_ord : OrdKey Privilege := inj_ord privilege_index _.
#[export] Instance object_ord : OrdKey Object := inj_ord object_fields _.

Record Role := {
  grants_of : list (Object * btset Privilege);
  inherits : btset bytes;
}.

Definition role_default : Role := {| grants_of := []; inherits := [] |}.

Definition privilege_name (p : Privilege) : bytes :=
  match p with
  | Select => str "select"
  | Insert => str "insert"
  | Update => str "update"
  | Delete => str "delete"
  | Create => str "create"
  | Drop => str "drop"
  | Grant => str "grant"
  | Monitor => str "monitor"
  | Advisor => str "advisor"
  | Publish => str "publish"
  | Subscribe => str "subscribe"
  | Execute => str "execute"
  | Bi => str "bi"
  | Admin => str "admin"
  end.

(** [str::to_ascii_lowercase]. *)
Definition to_ascii_lowercase (s : bytes) : bytes :=
  map (fun b => if in_range 65 90 b then byte_of (u8 b + 32) else b) s.

Definition privilege_from_name (s : bytes) : option Privilege :=
  let s := to_ascii_lowercase s in
  if decide (s = str "select") then Some Select
  else if decide (s = str "insert") then Some Insert
  else if decide (s = str "update") then Some Update
  else if decide (s = str "delete") then Some Delete
  else if decide (s = str "create") then Some Create
  else if decide (s = str "drop") then Some Drop
  else if decide (s = str "grant") then Some Grant
  else if decide (s = str "monitor") then Some Monitor
  else if decide (s = str "advisor") then Some Advisor
  else if decide (s = str "publish") then Some Publish
  else if decide (s = str "subscribe") then Some Subscribe
  else if decide (s = str "execute") then Some Execute
  else if decide (s = str "bi") then Some Bi
  else if decide (s = str "admin") then Some Admin
  else None.

Inductive RbacError :=
| NoSuchRole (name : bytes)
| RoleExists (name : bytes).

(** The store: [BTreeMap<String, Role>]. *)
Abbreviation RoleStore := (list (bytes * Role)).

Definition store_new : RoleStore := [].

(** ** Operations; an error leaves the store as it was *)

Definition create_role (name : bytes) (s : RoleStore) : res RbacError RoleStore :=
  if bt_contains name s then Err (RoleExists name) else Ok (bt_insert name role_default s).

(** [grants.entry(object).or_default().insert(privilege)]. *)
Definition add_grant (p : Privilege) (o : Object) (r : Role) : Role :=
  {| grants_of := bt_insert o (bs_insert p (default [] (bt_get o r.(grants_of)))) r.(grants_of);
     inherits := r.(inherits) |}.

Definition create_superuser (name : bytes) (s : RoleStore) : RoleStore :=
  bt_insert name (add_grant Admin Global (default role_default (bt_get name s))) s.

Definition drop_role (name : bytes) (s : RoleStore) : res RbacError RoleStore :=
  if bt_contains name s then Ok (bt_remove name s) else Err (NoSuchRole name).

Definition role_exists (name : bytes) (s : RoleStore) : bool := bt_contains name s.

Definition grant (role : bytes) (p : Privilege) (o : Object) (s : RoleStore)
    : res RbacError RoleStore :=
  r ← ok_or (NoSuchRole role) (bt_get role s);
  Ok (bt_insert role (add_grant p o r) s).

Definition revoke (role : bytes) (p : Privilege) (o : Object) (s : RoleStore)
    : res RbacError RoleStore :=
  r ← ok_or (NoSuchRole role) (bt_get role s);
  Ok (bt_insert role
        {| grants_of := bt_update (bs_remove p) o r.(grants_of); inherits := r.(inherits) |} s).

Definition grant_role (member parent : bytes) (s : RoleStore) : res RbacError RoleStore :=
  if negb (bt_contains parent s) then Err (NoSuchRole parent)
  else
    m ← ok_or (NoSuchRole member) (bt_get member s);
    Ok (bt_insert member
          {| grants_of := m.(grants_of); inherits := bs_insert parent m.(inherits) |} s).

Definition revoke_role (member parent : bytes) (s : RoleStore) : RoleStore :=
  bt_update (fun m => {| grants_of := m.(grants_of); inherits := bs_remove parent m.(inherits) |})
            member s.

(** The object column of [SHOW GRANTS]. *)
Definition object_text (o : Object) : bytes :=
  match o with
  | Global => str "*"
  | Table t => t
  | Database d => str "db:" ++ d
  | MqttTopic f => str "topic:" ++ f
  | Procedure p => str "proc:" ++ p
  | Column t c => str "col:" ++ t ++ [x1e] ++ c
  end.

Definition grants (only : option bytes) (s : RoleStore) : list (bytes * bytes * bytes) :=
  flat_map (fun nr =>
    let '(name, role) := nr in
    if match only with Some o => negb (bool_decide (o = name)) | None => false end then []
    else
      flat_map (fun og => map (fun p => (name, privilege_name p, object_text og.1)) (bs_elems og.2))
               role.(grants_of)
      ++ map (fun parent => (name, str "ROLE", parent)) (bs_elems role.(inherits))) s.

(** ** The traversals

    Each carries the set of roles already visited; a role enters it once, so
    the recursion is at most as deep as the store has roles ([fuel]). *)

Definition grants_contains (g : list (Object * btset Privilege)) (o : Object) (p : Privilege) : bool :=
  match bt_get o g with Some set => bs_contains p set | None => false end.

(** The conditions [check] tries on one role, in order. *)
Definition holds (r : Role) (p : Privilege) (o : Object) : bool :=
  grants_contains r.(grants_of) Global Admin
  || (grants_contains r.(grants_of) o p || grants_contains r.(grants_of) Global p)
  || grants_contains r.(grants_of) o Admin.

Section any.
Context (check : bytes -> btset bytes -> option (bool * btset bytes)).

(** [iter().any], the visited set threaded through. *)
Fixpoint any (parents : list bytes) (visited : btset bytes) : option (bool * btset bytes) :=
  match parents with
  | [] => Some (false, visited)
  | p :: parents =>
      bv ← check p visited;
      if bv.1 : bool then Some (true, bv.2) else any parents bv.2
  end.
End any.

Fixpoint check (fuel : nat) (s : RoleStore) (p : Privilege) (o : Object) (role : bytes)
    (visited : btset bytes) : option (bool * btset bytes) :=
  match fuel with
  | O => None
  | S fuel =>
      if bs_contains role visited then Some (false, visited)
      else
        let visited := bs_insert role visited in
        match bt_get role s with
        | None => Some (false, visited)
        | Some r =>
            if holds r p o then Some (true, visited)
            else any (check fuel s p o) (bs_elems r.(inherits)) visited
        end
  end.

Definition has_privilege (s : RoleStore) (role : bytes) (p : Privilege) (o : Object) : option bool :=
  fst <$> check (S (length s)) s p o role [].

Section each.
Context {A : Type} (collect : bytes -> btset bytes -> A -> option (btset bytes * A)).

Fixpoint each (parents : list bytes) (visited : btset bytes) (out : A) : option (btset bytes * A) :=
  match parents with
  | [] => Some (visited, out)
  | p :: parents => vo ← collect p visited out; each parents vo.1 vo.2
  end.
End each.

(** [collect_columns] and [collect_mqtt_filters] walk alike; [gather] is what
    they do with a role's own grants. *)
Fixpoint collect {A} (gather : Role -> A -> A) (fuel : nat) (s : RoleStore) (role : bytes)
    (visited : btset bytes) (out : A) : option (btset bytes * A) :=
  match fuel with
  | O => None
  | S fuel =>
      if bs_contains role visited then Some (visited, out)
      else
        let visited := bs_insert role visited in
        match bt_get role s with
        | None => Some (visited, out)
        | Some r => each (collect gather fuel s) (bs_elems r.(inherits)) visited (gather r out)
        end
  end.

Definition role_columns (p : Privilege) (table : bytes) (r : Role) : list bytes :=
  omap (fun og => match og.1 with
                  | Column t c => if bool_decide (t = table) && bs_contains p og.2 then Some c else None
                  | _ => None
                  end) r.(grants_of).

Definition role_filters (p : Privilege) (r : Role) : list bytes :=
  omap (fun og => match og.1 with
                  | MqttTopic f => if bs_contains p og.2 then Some f else None
                  | _ => None
                  end) r.(grants_of).

Definition columns (s : RoleStore) (role : bytes) (p : Privilege) (table : bytes)
    : option (btset bytes) :=
  snd <$> collect (fun r out => bs_extend (role_columns p table r) out) (S (length s)) s role [] [].

Definition mqtt_filters (s : RoleStore) (role : bytes) (p : Privilege) : option (list bytes) :=
  (fun vo => vec_dedup (vec_sort vo.2))
  <$> collect (fun r out => out ++ role_filters p r) (S (length s)) s role [] [].

(** ** Reachability *)

Definition edge (s : RoleStore) (a b : bytes) : Prop :=
  exists r, bt_get a s = Some r /\ b ∈ bs_elems r.(inherits).

(** [r] is the role of a name reachable from [role]. *)
Definition reaches (s : RoleStore) (role : bytes) (r : Role) : Prop :=
  exists name, rtc (edge s) role name /\ bt_get name s = Some r.

(** ** Well-formed stores *)

Definition wf_role (r : Role) : bool :=
  sorted r.(grants_of) && forallb (fun og => sorted og.2) r.(grants_of) && sorted r.(inherits).
Definition wf_store (s : RoleStore) : bool := sorted s && forallb (fun nr => wf_role nr.2) s.

(** ** The depth-first walks *)

Section walk.
Context (s : RoleStore).
Implicit Types (visited V : btset bytes).

Abbreviation seen n V := (bs_contains n V = true).

Definition sub V V' : Prop := forall n, seen n V -> seen n V'.

(** Store entries still to visit: what the depth of the recursion is bounded by. *)
Definition fresh visited : nat := length (List.filter (fun nr => negb (bs_contains nr.1 visited)) s).

(** Every edge out of a role entered between [V] and [V'] leads into [V']. *)
Definition closed V V' : Prop :=
  forall n r m, seen n V' -> ~ seen n V -> bt_get n s = Some r -> m ∈ bs_elems r.(inherits) -> seen m V'.

Lemma fresh_mono V V' : sub V V' -> (fresh V' <= fresh V)%nat.
Proof.
  intros Hs. unfold fresh. induction s as [|[n r] s' IH]; [done|]. cbn. specialize (Hs n).
  destruct (bs_contains n V), (bs_contains n V'); cbn; first [lia | by destruct (Hs eq_refl)].
Qed.

Lemma fresh_insert n r V :
  bt_get n s = Some r -> ~ seen n V -> (fresh (bs_insert n V) < fresh V)%nat.
Proof.
  intros Hg Hn. apply bt_get_elem in Hg. unfold fresh.
  assert (Hsub : forall l : RoleStore, (length (List.filter (fun nr => negb (bs_contains nr.1 (bs_insert n V))) l)
                 <= length (List.filter (fun nr => negb (bs_contains nr.1 V)) l))%nat).
  { induction l as [|[n1 r1] l IH]; [done|]. cbn. pose proof (bs_contains_insert n n1 V) as Hi.
    destruct (bs_contains n1 V), (bs_contains n1 (bs_insert n V)); cbn; first [lia |
      by destruct (proj2 Hi (or_intror eq_refl))]. }
  apply list_elem_of_split in Hg as (l1 & l2 & ->). rewrite !List.filter_app, !length_app. cbn.
  pose proof (Hsub l1). pose proof (Hsub l2).
  assert (E1 : bs_contains n (bs_insert n V) = true) by (apply bs_contains_insert; by left).
  rewrite E1. destruct (bs_contains n V); [done|]. cbn. lia.
Qed.

Lemma fresh_le V : (fresh V <= length s)%nat.
Proof. unfold fresh. induction s as [|nr l IH]; [done|]. cbn. destruct (negb _); cbn; lia. Qed.

Lemma sub_refl V : sub V V.
Proof. by intros n. Qed.

Lemma sub_trans V1 V2 V3 : sub V1 V2 -> sub V2 V3 -> sub V1 V3.
Proof. unfold sub. auto. Qed.

Lemma sub_insert n V : sub V (bs_insert n V).
Proof. intros m Hm. apply bs_contains_insert. by right. Qed.

Lemma closed_trans V1 V2 V3 : closed V1 V2 -> closed V2 V3 -> sub V2 V3 -> closed V1 V3.
Proof.
  intros H12 H23 Hs n r m Hn Hn1 Hg Hm. destruct (bs_contains n V2) eqn:E.
  - apply Hs. by eapply H12.
  - eapply H23; [done|by rewrite E|done..].
Qed.

(** From a set closed under edges, nothing outside it can be reached. *)
Lemma closed_reach V a b : closed [] V -> seen a V -> rtc (edge s) a b -> seen b V.
Proof.
  intros Hc Ha. induction 1 as [|a x b (r & Hr & Hx) _ IH]; [done|]. apply IH. by eapply Hc.
Qed.

(** *** The check *)

Section check.
Context (p : Privilege) (o : Object).

Definition clean V V' : Prop :=
  forall n r, seen n V' -> ~ seen n V -> bt_get n s = Some r -> holds r p o = false.

Definition check_post (start : bytes -> Prop) V (bv : bool * btset bytes) : Prop :=
  sub V bv.2
  /\ if bv.1 then exists n r, start n /\ reaches s n r /\ holds r p o = true
     else closed V bv.2 /\ clean V bv.2 /\ forall n, start n -> seen n bv.2.

Lemma any_spec fuel parents V :
  (forall role V, (fresh V < fuel)%nat ->
     exists bv, check fuel s p o role V = Some bv /\ check_post (eq role) V bv) ->
  (fresh V < fuel)%nat ->
  exists bv, any (check fuel s p o) parents V = Some bv /\ check_post (fun n => n ∈ parents) V bv.
Proof.
  intros Hck. revert V. induction parents as [|q ps IH]; intros V Hf; cbn [any].
  - exists (false, V). split; [done|]. split; [apply sub_refl|]. cbn. split_and!.
    + intros n r m Hn Hn'. done.
    + intros n r Hn Hn'. done.
    + by intros n ?%elem_of_nil.
  - destruct (Hck q V Hf) as ([b V1] & -> & Hsub & Hpost). cbn in *. destruct b.
    + exists (true, V1). split; [done|]. split; [done|]. destruct Hpost as (n & r & <- & ?).
      exists q, r. split; [by left|done].
    + destruct Hpost as (Hcl & Hcn & Hq).
      destruct (IH V1) as ([b V2] & -> & Hsub2 & Hpost2); [pose proof (fresh_mono _ _ Hsub); lia|].
      exists (b, V2). split; [done|]. cbn in *. split; [by eapply sub_trans|]. cbn. destruct b.
      * destruct Hpost2 as (n & r & Hn & ?). exists n, r. split; [by right|done].
      * destruct Hpost2 as (Hcl2 & Hcn2 & Hps). split_and!.
        -- by eapply closed_trans.
        -- intros n r Hn Hn' Hg. destruct (bs_contains n V1) eqn:E; [by eapply Hcn|].
           eapply Hcn2; [done|by rewrite E|done].
        -- intros n [->|Hin]%elem_of_cons; [apply Hsub2; by apply Hq|by apply Hps].
Qed.

Lemma check_spec fuel role V :
  (fresh V < fuel)%nat -> exists bv, check fuel s p o role V = Some bv /\ check_post (eq role) V bv.
Proof.
  revert role V. induction fuel as [|fuel IH]; intros role V Hf; [lia|]. cbn [check].
  destruct (bs_contains role V) eqn:Ev.
  { exists (false, V). split; [done|]. split; [apply sub_refl|]. cbn.
    split_and!; [by intros ? ? ? ? []|by intros ? ? ? []|by intros n <-]. }
  set (V0 := bs_insert role V).
  assert (Hin : seen role V0) by (apply bs_contains_insert; by left).
  assert (Hnew : forall n, seen n V0 -> ~ seen n V -> n = role).
  { intros n Hn Hn'. by apply bs_contains_insert in Hn as [?|?]. }
  destruct (bt_get role s) as [r|] eqn:Hr.
  - destruct (holds r p o) eqn:Hh.
    + exists (true, V0). split; [done|]. split; [apply sub_insert|]. cbn.
      exists role, r. split_and!; [done|by exists role|done].
    + destruct (any_spec fuel (bs_elems r.(inherits)) V0 IH) as ([b V1] & -> & Hsub & Hpost).
      { pose proof (fresh_insert role r V Hr ltac:(by rewrite Ev)). fold V0 in H. lia. }
      exists (b, V1). split; [done|]. cbn in *. split; [eapply sub_trans; [apply sub_insert|done]|].
      cbn. destruct b.
      * destruct Hpost as (n & r' & Hn & (n' & Hrt & Hg) & Hh'). exists role, r'. split_and!; try done.
        exists n'. split; [|done]. eapply rtc_l; [|done]. by exists r.
      * destruct Hpost as (Hcl & Hcn & Hps). split_and!.
        -- intros n r' m Hn Hn' Hg Hm. destruct (bs_contains n V0) eqn:E0.
           ++ apply Hnew in E0; [subst n|done]. rewrite Hr in Hg. injection Hg as <-. by apply Hps.
           ++ eapply Hcl; [done|by rewrite E0|done..].
        -- intros n r' Hn Hn' Hg. destruct (bs_contains n V0) eqn:E0.
           ++ apply Hnew in E0; [subst n|done]. rewrite Hr in Hg. by injection Hg as <-.
           ++ eapply Hcn; [done|by rewrite E0|done].
        -- intros n <-. by apply Hsub.
  - exists (false, V0). split; [done|]. split; [apply sub_insert|]. cbn. split_and!.
    + intros n r m Hn Hn' Hg. apply Hnew in Hn; [subst n|done]. by rewrite Hr in Hg.
    + intros n r Hn Hn' Hg. apply Hnew in Hn; [subst n|done]. by rewrite Hr in Hg.
    + by intros n <-.
Qed.

End check.

(** *** The collectors *)

Section collect.
Context {A X : Type} (gather : Role -> A -> A) (has : A -> X -> Prop) (own : Role -> X -> Prop).
Hypothesis gather_has : forall r out x, has (gather r out) x <-> has out x \/ own r x.

Definition collect_post (start : bytes -> Prop) V out (vo : btset bytes * A) : Prop :=
  sub V vo.1 /\ closed V vo.1 /\ (forall n, start n -> seen n vo.1)
  /\ (forall x, has vo.2 x <->
        has out x \/ exists n r, seen n vo.1 /\ ~ seen n V /\ bt_get n s = Some r /\ own r x)
  /\ (forall n, seen n vo.1 -> ~ seen n V -> exists q, start q /\ rtc (edge s) q n).

Lemma collect_post_refl start V out :
  (forall n, start n -> seen n V) -> collect_post start V out (V, out).
Proof.
  intros Hs. split_and!; cbn; [apply sub_refl|by intros ? ? ? ? []|done| |by intros ? ? []].
  intros x. split; [by left|]. intros [?|(n & r & H1 & H2 & _)]; done.
Qed.

Lemma each_spec fuel parents V out :
  (forall role V out, (fresh V < fuel)%nat ->
     exists vo, collect gather fuel s role V out = Some vo /\ collect_post (eq role) V out vo) ->
  (fresh V < fuel)%nat ->
  exists vo, each (collect gather fuel s) parents V out = Some vo
             /\ collect_post (fun n => n ∈ parents) V out vo.
Proof.
  intros Hc. revert V out. induction parents as [|q ps IH]; intros V out Hf; cbn [each].
  - exists (V, out). split; [done|]. apply collect_post_refl. by intros n ?%elem_of_nil.
  - destruct (Hc q V out Hf) as ([V1 out1] & -> & Hs1 & Hc1 & Hq & Hx1 & Hr1). cbn in *.
    destruct (IH V1 out1) as ([V2 out2] & -> & Hs2 & Hc2 & Hps & Hx2 & Hr2);
      [pose proof (fresh_mono _ _ Hs1); lia|]. cbn in *.
    exists (V2, out2). split; [done|]. split_and!; cbn.
    + by eapply sub_trans.
    + by eapply closed_trans.
    + intros n [->|Hin]%elem_of_cons; [apply Hs2; by apply Hq|by apply Hps].
    + intros x. rewrite Hx2, Hx1. split.
      * intros [[?|(n & r & ? & ? & ? & ?)]|(n & r & ? & Hn & ? & ?)]; [by left|right..].
        -- exists n, r. auto.
        -- exists n, r. split_and!; auto.
      * intros [?|(n & r & ? & Hn & ? & ?)]; [by left; left|].
        destruct (bs_contains n V1) eqn:E1; [left; right|right]; exists n, r; split_and!; auto.
        by rewrite E1.
    + intros n Hn Hn'. destruct (bs_contains n V1) eqn:E1.
      * destruct (Hr1 n E1 Hn') as (q' & <- & ?). exists q. split; [by left|done].
      * destruct (Hr2 n Hn ltac:(by rewrite E1)) as (q' & Hq' & ?). exists q'. split; [by right|done].
Qed.

Lemma collect_spec fuel role V out :
  (fresh V < fuel)%nat ->
  exists vo, collect gather fuel s role V out = Some vo /\ collect_post (eq role) V out vo.
Proof.
  revert role V out. induction fuel as [|fuel IH]; intros role V out Hf; [lia|]. cbn [collect].
  destruct (bs_contains role V) eqn:Ev.
  { exists (V, out). split; [done|]. apply collect_post_refl. by intros n <-. }
  set (V0 := bs_insert role V).
  assert (Hin : seen role V0) by (apply bs_contains_insert; by left).
  assert (Hnew : forall n, seen n V0 -> ~ seen n V -> n = role).
  { intros n Hn Hn'. by apply bs_contains_insert in Hn as [?|?]. }
  destruct (bt_get role s) as [r|] eqn:Hr.
  - destruct (each_spec fuel (bs_elems r.(inherits)) V0 (gather r out) IH)
      as ([V1 out1] & -> & Hs & Hcl & Hps & Hx & Hrt).
    { pose proof (fresh_insert role r V Hr ltac:(by rewrite Ev)). fold V0 in H. lia. }
    cbn in *. exists (V1, out1). split; [done|]. split_and!; cbn.
    + eapply sub_trans; [apply sub_insert|done].
    + intros n r' m Hn Hn' Hg Hm. destruct (bs_contains n V0) eqn:E0.
      * apply Hnew in E0; [subst n|done]. rewrite Hr in Hg. injection Hg as <-. by apply Hps.
      * eapply Hcl; [done|by rewrite E0|done..].
    + intros n <-. by apply Hs.
    + intros x. rewrite Hx, gather_has. split.
      * intros [[?|?]|(n & r' & ? & Hn & ? & ?)]; [by left|right..].
        -- exists role, r. split_and!; auto. by rewrite Ev.
        -- exists n, r'. split_and!; auto. intros Hn'. apply Hn. by apply sub_insert.
      * intros [?|(n & r' & ? & Hn & Hg & ?)]; [by left; left|].
        destruct (bs_contains n V0) eqn:E0.
        -- apply Hnew in E0; [subst n|done]. rewrite Hr in Hg. injection Hg as <-. left. by right.
        -- right. exists n, r'. split_and!; auto. by rewrite E0.
    + intros n Hn Hn'. exists role. split; [done|]. destruct (bs_contains n V0) eqn:E0.
      * apply Hnew in E0; [subst n|done]. apply rtc_refl.
      * destruct (Hrt n Hn ltac:(by rewrite E0)) as (q & Hq & ?). eapply rtc_l; [|done]. by exists r.
  - exists (V0, out). split; [done|]. split_and!; cbn.
    + apply sub_insert.
    + intros n r' m Hn Hn' Hg. apply Hnew in Hn; [subst n|done]. by rewrite Hr in Hg.
    + by intros n <-.
    + intros x. split; [by left|]. intros [?|(n & r' & Hn & Hn' & Hg & _)]; [done|].
      apply Hnew in Hn; [subst n|done]. by rewrite Hr in Hg.
    + intros n Hn Hn'. apply Hnew in Hn; [subst n|done]. exists role. split; [done|apply rtc_refl].
Qed.

(** From the empty set: exactly what reachable roles own. *)
Lemma collect_all out role :
  exists vo, collect gather (S (length s)) s role [] out = Some vo
  /\ forall x, has vo.2 x <-> has out x \/ exists r, reaches s role r /\ own r x.
Proof.
  destruct (collect_spec (S (length s)) role [] out) as ([V o] & E & Hs & Hcl & Hst & Hx & Hrt);
    [pose proof (fresh_le []); lia|]. cbn in *.
  exists (V, o). split; [done|]. intros x. cbn. rewrite Hx. split.
  - intros [?|(n & r & Hn & Hn' & Hg & ?)]; [by left|right]. exists r. split; [|done].
    destruct (Hrt n Hn Hn') as (q & <- & ?). by exists n.
  - intros [?|(r & (n & Hrtc & Hg) & ?)]; [by left|right]. exists n, r. split_and!; try done.
    by eapply closed_reach; [done|by apply Hst|].
Qed.

End collect.
End walk.

(** ** Grants, precisely *)

Definition granted (s : RoleStore) (role : bytes) (p : Privilege) (o : Object) : bool :=
  match bt_get role s with Some r => grants_contains r.(grants_of) o p | None => false end.

Definition is_member (s : RoleStore) (member parent : bytes) : bool :=
  match bt_get member s with Some r => bs_contains parent r.(inherits) | None => false end.

Lemma bs_contains_remove {K} `{OrdKey K} (k k' : K) (st : btset K) :
  sorted st = true ->
  bs_contains k' (bs_remove k st) = match kcmp k' k with Eq => false | _ => bs_contains k' st end.
Proof.
  intros Hs. unfold bs_contains, bs_remove, bt_contains.
  destruct (kcmp_cases k' k) as [[-> ->]|[[Hl ->]|[Hl ->]]].
  - by rewrite bt_get_remove_eq.
  - rewrite bt_get_remove_ne; [done|]. intros ->. by apply klt_irrefl in Hl.
  - rewrite bt_get_remove_ne; [done|]. intros ->. by apply klt_irrefl in Hl.
Qed.

Lemma bs_contains_insert_bool {K} `{OrdKey K} (k k' : K) (st : btset K) :
  bs_contains k' (bs_insert k st) = match kcmp k' k with Eq => true | _ => bs_contains k' st end.
Proof.
  unfold bs_contains, bs_insert, bt_contains. rewrite bt_get_insert. by destruct (kcmp k' k).
Qed.

Lemma wf_store_get s n r : wf_store s = true -> bt_get n s = Some r -> wf_role r = true.
Proof.
  intros [_ Hw]%andb_true_iff Hg%bt_get_elem. rewrite forallb_forall in Hw.
  by apply (Hw (n, r)), list_elem_of_In.
Qed.

Lemma wf_role_set r o set : wf_role r = true -> bt_get o r.(grants_of) = Some set -> sorted set = true.
Proof.
  intros [[_ Hw]%andb_true_iff _]%andb_true_iff Hg%bt_get_elem. rewrite forallb_forall in Hw.
  by apply (Hw (o, set)), list_elem_of_In.
Qed.

Lemma forallb_bt_insert {K V} `{OrdKey K} (q : K * V -> bool) k v m :
  q (k, v) = true -> forallb q m = true -> forallb q (bt_insert k v m) = true.
Proof.
  intros Hq Hm. rewrite forallb_forall in *. intros [k' v'] Hin%list_elem_of_In.
  apply bt_elem_insert in Hin as [[= -> ->]|Hin]; [done|]. by apply Hm, list_elem_of_In.
Qed.

Lemma forallb_bt_remove {K V} `{OrdKey K} (q : K * V -> bool) k m :
  forallb q m = true -> forallb q (bt_remove k m) = true.
Proof.
  intros Hm. rewrite forallb_forall in *. intros kv Hin%list_elem_of_In.
  apply bt_elem_remove in Hin. by apply Hm, list_elem_of_In.
Qed.

Lemma wf_store_insert s n r : wf_store s = true -> wf_role r = true -> wf_store (bt_insert n r s) = true.
Proof.
  intros [Hs Hw]%andb_true_iff Hr. apply andb_true_iff. split; [by apply sorted_insert|].
  by apply forallb_bt_insert.
Qed.

Lemma wf_add_grant p o r : wf_role r = true -> wf_role (add_grant p o r) = true.
Proof.
  intros W. pose proof W as [[Hs Hw]%andb_true_iff Hi]%andb_true_iff. unfold wf_role, add_grant. cbn.
  rewrite !andb_true_iff. split_and!; [by apply sorted_insert| |done].
  apply forallb_bt_insert; [|done]. cbn. apply sorted_insert.
  destruct (bt_get o (grants_of r)) eqn:E; [by eapply wf_role_set|done].
Qed.

Lemma wf_revoke p o r :
  wf_role r = true ->
  wf_role {| grants_of := bt_update (bs_remove p) o r.(grants_of); inherits := r.(inherits) |} = true.
Proof.
  intros W. pose proof W as [[Hs Hw]%andb_true_iff Hi]%andb_true_iff. unfold wf_role, bt_update. cbn.
  rewrite !andb_true_iff. destruct (bt_get o (grants_of r)) eqn:E; [|done].
  split_and!; [by apply sorted_insert| |done]. apply forallb_bt_insert; [|done]. cbn.
  apply sorted_remove. by eapply wf_role_set.
Qed.

Lemma wf_inherits f r :
  (forall st, sorted st = true -> sorted (f st) = true) -> wf_role r = true ->
  wf_role {| grants_of := r.(grants_of); inherits := f r.(inherits) |} = true.
Proof.
  intros Hf [[Hs Hw]%andb_true_iff Hi]%andb_true_iff. unfold wf_role. cbn [grants_of inherits].
  rewrite Hs, Hw. by apply Hf.
Qed.

(** One operation of the store, successful. *)
Inductive store_step : RoleStore -> RoleStore -> Prop :=
| step_create name s s' : create_role name s = Ok s' -> store_step s s'
| step_superuser name s : store_step s (create_superuser name s)
| step_drop name s s' : drop_role name s = Ok s' -> store_step s s'
| step_grant role p o s s' : grant role p o s = Ok s' -> store_step s s'
| step_revoke role p o s s' : revoke role p o s = Ok s' -> store_step s s'
| step_grant_role m q s s' : grant_role m q s = Ok s' -> store_step s s'
| step_revoke_role m q s : store_step s (revoke_role m q s).

Lemma store_step_wf s s' : store_step s s' -> wf_store s = true -> wf_store s' = true.
Proof.
  destruct 1 as [name s s' H|name s|name s s' H|role p o s s' H|role p o s s' H|m q s s' H|m q s];
    intros W; try unfold create_role, drop_role, grant, revoke, grant_role in H.
  - destruct (bt_contains name s); [done|]. injection H as <-. by apply wf_store_insert.
  - apply wf_store_insert; [done|]. apply wf_add_grant.
    destruct (bt_get name s) eqn:E; [by eapply wf_store_get|done].
  - destruct (bt_contains name s); [|done]. injection H as <-.
    apply andb_true_iff in W as [Hs Hw]. apply andb_true_iff. split; [by apply sorted_remove|].
    by apply forallb_bt_remove.
  - destruct (bt_get role s) eqn:E; [|done]. injection H as <-.
    apply wf_store_insert; [done|]. by eapply wf_add_grant, wf_store_get.
  - destruct (bt_get role s) eqn:E; [|done]. injection H as <-.
    apply wf_store_insert; [done|]. by eapply wf_revoke, wf_store_get.
  - destruct (negb _); [done|]. destruct (bt_get m s) eqn:E; [|done]. injection H as <-.
    apply wf_store_insert; [done|]. apply (wf_inherits (bs_insert q)); [|by eapply wf_store_get].
    intros. by apply sorted_insert.
  - unfold revoke_role, bt_update. destruct (bt_get m s) eqn:E; [|done].
    apply wf_store_insert; [done|]. apply (wf_inherits (bs_remove q)); [|by eapply wf_store_get].
    intros. by apply sorted_remove.
Qed.

Lemma granted_insert s role r role' p o :
  granted (bt_insert role r s) role' p o =
  match kcmp role' role with Eq => grants_contains r.(grants_of) o p | _ => granted s role' p o end.
Proof. unfold granted. rewrite bt_get_insert. by destruct (kcmp role' role). Qed.

Lemma is_member_insert s role r role' parent :
  is_member (bt_insert role r s) role' parent =
  match kcmp role' role with Eq => bs_contains parent r.(inherits) | _ => is_member s role' parent end.
Proof. unfold is_member. rewrite bt_get_insert. by destruct (kcmp role' role). Qed.

Lemma keys_decide {K A} `{OrdKey K} `{EqDecision K} (a b : K) (x y : A) :
  match kcmp a b with Eq => x | _ => y end = if decide (a = b) then x else y.
Proof.
  destruct (kcmp_cases a b) as [[-> ->]|[[Hl ->]|[Hl ->]]].
  - by rewrite decide_True.
  - rewrite decide_False; [done|]. intros ->. by apply klt_irrefl in Hl.
  - rewrite decide_False; [done|]. intros ->. by apply klt_irrefl in Hl.
Qed.

Lemma grants_contains_add p o r p' o' :
  grants_contains (add_grant p o r).(grants_of) o' p' =
  grants_contains r.(grants_of) o' p' || bool_decide (p' = p /\ o' = o).
Proof.
  unfold grants_contains, add_grant. cbn [grants_of]. rewrite bt_get_insert, keys_decide.
  destruct (decide (o' = o)) as [->|Hne].
  - rewrite bs_contains_insert_bool, keys_decide. destruct (decide (p' = p)) as [->|Hp].
    + rewrite bool_decide_true by done. by rewrite orb_true_r.
    + rewrite bool_decide_false by tauto. rewrite orb_false_r. by destruct (bt_get o _).
  - rewrite bool_decide_false by tauto. by rewrite orb_false_r.
Qed.

Lemma grants_contains_revoke p o r p' o' :
  wf_role r = true ->
  grants_contains (bt_update (bs_remove p) o r.(grants_of)) o' p' =
  grants_contains r.(grants_of) o' p' && negb (bool_decide (p' = p /\ o' = o)).
Proof.
  intros W. unfold grants_contains, bt_update. destruct (bt_get o (grants_of r)) as [set|] eqn:E.
  - rewrite bt_get_insert, keys_decide. destruct (decide (o' = o)) as [->|Hne].
    + rewrite bs_contains_remove, keys_decide, E by by eapply wf_role_set.
      destruct (decide (p' = p)) as [->|Hp].
      * rewrite bool_decide_true by done. by rewrite andb_false_r.
      * rewrite bool_decide_false by tauto. by rewrite andb_true_r.
    + rewrite bool_decide_false by tauto. by rewrite andb_true_r.
  - destruct (decide (o' = o)) as [->|Hne]; [by rewrite E|].
    rewrite bool_decide_false by tauto. by rewrite andb_true_r.
Qed.

Lemma role_columns_elem p t r c :
  wf_role r = true ->
  c ∈ role_columns p t r <-> grants_contains r.(grants_of) (Column t c) p = true.
Proof.
  intros W. pose proof W as [[Hs _]%andb_true_iff _]%andb_true_iff.
  unfold role_columns, grants_contains. rewrite list_elem_of_omap. split.
  - intros ([o set] & Hin & Ho). cbn in Ho. destruct o; try done.
    destruct (bool_decide_reflect (table = t)) as [->|]; [|done]. cbn in Ho.
    destruct (bs_contains p set) eqn:Ep; [|done]. injection Ho as ->.
    by rewrite (bt_elem_get _ set).
  - destruct (bt_get (Column t c) (grants_of r)) as [set|] eqn:E; [|done]. intros Hp.
    exists (Column t c, set). split; [by apply bt_get_elem|]. cbn. rewrite bool_decide_true by done.
    by rewrite Hp.
Qed.

Lemma role_filters_elem p r f :
  wf_role r = true ->
  f ∈ role_filters p r <-> grants_contains r.(grants_of) (MqttTopic f) p = true.
Proof.
  intros W. pose proof W as [[Hs _]%andb_true_iff _]%andb_true_iff.
  unfold role_filters, grants_contains. rewrite list_elem_of_omap. split.
  - intros ([o set] & Hin & Ho). cbn in Ho. destruct o; try done.
    destruct (bs_contains p set) eqn:Ep; [|done]. injection Ho as ->.
    by rewrite (bt_elem_get _ set).
  - destruct (bt_get (MqttTopic f) (grants_of r)) as [set|] eqn:E; [|done]. intros Hp.
    exists (MqttTopic f, set). split; [by apply bt_get_elem|]. cbn. by rewrite Hp.
Qed.

Lemma reaches_wf s role r : wf_store s = true -> reaches s role r -> wf_role r = true.
Proof. intros W (n & _ & Hg). by eapply wf_store_get. Qed.

(** ** Properties *)

(** C7: authorization is reachability: on any store, inheritance cycles and
    edges to dropped roles included, [has_privilege] comes back, and says yes
    exactly when some role reachable along inheritance holds the privilege —
    on the object, globally, or through [Admin] on either. *)
Theorem has_privilege_reachable s role p o :
  exists b, has_privilege s role p o = Some b
  /\ (b = true <-> exists r, reaches s role r /\ holds r p o = true).
Proof.
  destruct (check_spec s p o (S (length s)) role []) as ([b V] & E & Hs & Hpost);
    [pose proof (fresh_le s []); lia|].
  exists b. unfold has_privilege. rewrite E. split; [done|]. cbn in Hpost. destruct b.
  - split; [|done]. destruct Hpost as (n & r & <- & ? & ?). eauto.
  - split; [done|]. destruct Hpost as (Hcl & Hcn & Hst). intros (r & (n & Hrt & Hg) & Hh).
    rewrite (Hcn n r) in Hh; [done| |done|done]. by eapply closed_reach; [done|by apply Hst|].
Qed.

(** The column set and the topic filters a role holds are those of every
    role reachable from it; the filters come back in strictly ascending
    order, each once. *)
Theorem collected_grants_reachable s role p table :
  wf_store s = true ->
  (exists cols, columns s role p table = Some cols /\ forall c, bs_contains c cols = true <->
     exists r, reaches s role r /\ grants_contains r.(grants_of) (Column table c) p = true)
  /\ (exists fs, mqtt_filters s role p = Some fs /\ StronglySorted klt fs /\ forall f, f ∈ fs <->
     exists r, reaches s role r /\ grants_contains r.(grants_of) (MqttTopic f) p = true).
Proof.
  intros W. split.
  - destruct (collect_all s (fun r out => bs_extend (role_columns p table r) out)
      (fun out c => bs_contains c out = true) (fun r c => c ∈ role_columns p table r)) with
      (out := ([] : btset bytes)) (role := role) as ([V o] & E & Hx).
    { intros r out c. rewrite bs_extend_contains. tauto. }
    exists o. unfold columns. rewrite E. split; [done|]. intros c. rewrite Hx. split.
    + intros [?|(r & Hr & Hc)]; [done|]. exists r. split; [done|].
      apply role_columns_elem; [by eapply reaches_wf|done].
    + intros (r & Hr & Hc). right. exists r. split; [done|].
      apply role_columns_elem; [by eapply reaches_wf|done].
  - destruct (collect_all s (fun r out => out ++ role_filters p r)
      (fun out f => f ∈ out) (fun r f => f ∈ role_filters p r)) with
      (out := ([] : list bytes)) (role := role) as ([V o] & E & Hx).
    { intros r out f. apply elem_of_app. }
    exists (vec_dedup (vec_sort o)). unfold mqtt_filters. rewrite E. split; [done|]. split.
    + apply vec_dedup_strict, vec_sort_sorted.
    + intros f. rewrite vec_dedup_elem, vec_sort_elem, Hx, elem_of_nil. split.
      * intros [[]|(r & Hr & Hc)]. exists r. split; [done|].
        apply role_filters_elem; [by eapply reaches_wf|done].
      * intros (r & Hr & Hc). right. exists r. split; [done|].
        apply role_filters_elem; [by eapply reaches_wf|done].
Qed.

Definition sample_store : RoleStore :=
  [(str "app", {| grants_of := [(Column (str "t") (str "a"), [(Select, tt)])];
                  inherits := [(str "base", tt)] |});
   (str "base", {| grants_of := [(MqttTopic (str "home/#"), [(Publish, tt)])];
                   inherits := [(str "app", tt)] |})].

Lemma collected_grants_reachable_witness :
  mqtt_filters sample_store (str "app") Publish = Some [str "home/#"].
Proof.
  destruct (collected_grants_reachable sample_store (str "app") Publish (str "t"))
    as [_ (fs & E & _)]; [vm_compute; reflexivity|]. rewrite E. rewrite <- E. vm_compute. reflexivity.
Defined.

(** Every store reached from the empty one by the store's operations is
    well-formed (each map in strict key order), and each mutation changes
    exactly what it names: a grant adds one grant, a revoke removes that one
    (inherited or global grants stay), and neither touches membership. *)
Theorem store_operations_exact s :
  rtc store_step store_new s ->
  wf_store s = true
  /\ (forall role p o s', grant role p o s = Ok s' ->
        (forall r' p' o', granted s' r' p' o' =
           granted s r' p' o' || bool_decide (r' = role /\ p' = p /\ o' = o))
        /\ (forall m q, is_member s' m q = is_member s m q))
  /\ (forall role p o s', revoke role p o s = Ok s' ->
        (forall r' p' o', granted s' r' p' o' =
           granted s r' p' o' && negb (bool_decide (r' = role /\ p' = p /\ o' = o)))
        /\ (forall m q, is_member s' m q = is_member s m q)).
Proof.
  intros Hr. assert (W : wf_store s = true).
  { remember store_new as s0. assert (W0 : wf_store s0 = true) by by subst. clear Heqs0.
    induction Hr as [|s0 s1 s2 Hst _ IH]; [done|]. by eapply IH, store_step_wf. }
  split; [done|]. split; intros role p o s' H; unfold grant, revoke in H;
    destruct (bt_get role s) as [r|] eqn:Hg; try done; cbn in H; injection H as <-; split.
  - intros r' p' o'. rewrite granted_insert, keys_decide.
    destruct (decide (r' = role)) as [->|Hne].
    + unfold granted. rewrite Hg, grants_contains_add. f_equal. apply bool_decide_ext. tauto.
    + rewrite bool_decide_false by tauto. by rewrite orb_false_r.
  - intros m q. rewrite is_member_insert, keys_decide.
    destruct (decide (m = role)) as [->|]; [|done]. unfold is_member. by rewrite Hg.
  - intros r' p' o'. rewrite granted_insert, keys_decide.
    destruct (decide (r' = role)) as [->|Hne].
    + unfold granted. rewrite Hg. cbn [grants_of].
      rewrite grants_contains_revoke by by eapply wf_store_get.
      do 2 f_equal. apply bool_decide_ext. tauto.
    + rewrite bool_decide_false by tauto. by rewrite andb_true_r.
  - intros m q. rewrite is_member_insert, keys_decide.
    destruct (decide (m = role)) as [->|]; [|done]. unfold is_member. by rewrite Hg.
Qed.

Lemma store_operations_exact_witness :
  let s := create_superuser (str "root") store_new in
  exists s', grant (str "root") Select (Table (str "t")) s = Ok s'
             /\ granted s' (str "root") Select (Table (str "t")) = true.
Proof.
  intros s. eexists. split; [vm_compute; reflexivity|].
  destruct (store_operations_exact s) as (_ & H & _); [apply rtc_once, step_superuser|].
  destruct (H (str "root") Select (Table (str "t")) _ eq_refl) as [E _].
  rewrite E. vm_compute. reflexivity.
Defined.

(** Membership outlives the role: [drop_role] removes the role and not the
    edges into it, so a role created again under the name is inherited by the
    members of the dropped one. *)
Theorem dropped_role_edges_survive name s s1 s2 m :
  drop_role name s = Ok s1 -> create_role name s1 = Ok s2 ->
  m <> name -> is_member s2 m name = is_member s m name.
Proof.
  unfold drop_role, create_role. destruct (bt_contains name s); [|done]. intros [= <-].
  destruct (bt_contains name (bt_remove name s)); [done|]. intros [= <-] Hne.
  rewrite is_member_insert, keys_decide, decide_False by done.
  unfold is_member. by rewrite bt_get_remove_ne.
Qed.

Lemma dropped_role_edges_survive_witness :
  exists s1 s2, drop_role (str "base") sample_store = Ok s1 /\ create_role (str "base") s1 = Ok s2
  /\ is_member s2 (str "app") (str "base") = true.
Proof.
  destruct (drop_role (str "base") sample_store) as [s1| | |] eqn:E1; try discriminate E1.
  destruct (create_role (str "base") s1) as [s2| | |] eqn:E2;
    try (vm_compute in E1; injection E1 as <-; discriminate E2).
  exists s1, s2. split; [reflexivity|]. split; [exact E2|].
  rewrite (dropped_role_edges_survive (str "base") sample_store s1 s2 (str "app") E1 E2);
    [vm_compute; reflexivity|discriminate].
Defined.

(** Privilege names are read back in any case, and nothing else is. *)
Theorem privilege_name_roundtrip s p :
  privilege_from_name s = Some p <-> to_ascii_lowercase s = privilege_name p.
Proof.
  unfold privilege_from_name. split.
  - repeat case_decide; intros [= <-]; done.
  - intros ->. destruct p; reflexivity.
Qed.
