(* ===== verification/Rng.v ===== *)
(** * Member choice: the pool's random numbers

    [Rng] of [src/lib.rs]: an xorshift generator on a 64-bit state, a bounded
    draw and the Fisher-Yates shuffle.  Seeding ([Rng::new]) reads the
    process's random keys and is not modelled; any state is allowed. *)
From S2P Require Import Prelude.
From stdpp Require Import list.
#[local] Open Scope Z_scope.

(** The state is the [u64]; shifts to the left drop the high bits. *)
Definition next_u64 (x : Z) : Z :=
  let x := Z.lxor x (wrap 64 (Z.shiftl x 13)) in
  let x := Z.lxor x (Z.shiftr x 7) in
  Z.lxor x (wrap 64 (Z.shiftl x 17)).

(** A draw in [0..n] and the new state. *)
Definition below (n : nat) (rng : Z) : nat * Z :=
  let x := next_u64 rng in (Z.to_nat (x mod Z.of_nat n), x).

Section shuffle.
Context {A : Type}.

(** [v.swap(i, j)]; both indices are in range wherever it is called. *)
Definition swap (i j : nat) (v : list A) : list A :=
  match v !! i, v !! j with
  | Some a, Some b => <[i := b]> (<[j := a]> v)
  | _, _ => v
  end.

(** [for i in (1..v.len()).rev()]. *)
Fixpoint shuffle_from (i : nat) (v : list A) (rng : Z) : list A * Z :=
  match i with
  | O => (v, rng)
  | S i' =>
      let '(j, rng) := below (S i) rng in
      shuffle_from i' (swap i j v) rng
  end.

Definition shuffle (v : list A) (rng : Z) : list A * Z := shuffle_from (length v - 1) v rng.

Lemma swap_Permutation i j v : swap i j v ≡ₚ v.
Proof.
  unfold swap. destruct (v !! i) as [a|] eqn:Hi; [|done]. destruct (v !! j) as [b|] eqn:Hj; [|done].
  destruct (decide (i = j)) as [->|Hne].
  - rewrite Hi in Hj. injection Hj as <-. by rewrite list_insert_insert_eq, list_insert_id.
  - apply lookup_lt_Some in Hi as Hil. pose proof (lookup_lt_Some _ _ _ Hj) as Hjl.
    apply Permutation_inj. split; [by rewrite !length_insert|].
    exists (fun k => if decide (k = i) then j else if decide (k = j) then i else k). split.
    + intros x y. repeat case_decide; naive_solver.
    + intros k. case_decide as E1; [subst k|case_decide as E2; [subst k|]].
      * by rewrite list_lookup_insert_eq by (rewrite length_insert; done).
      * by rewrite list_lookup_insert_ne, list_lookup_insert_eq by done.
      * by rewrite !list_lookup_insert_ne by done.
Qed.

Lemma shuffle_from_Permutation i v rng : (shuffle_from i v rng).1 ≡ₚ v.
Proof.
  revert v rng. induction i as [|i IH]; intros v rng; [done|]. cbn [shuffle_from].
  destruct (below (S (S i)) rng) as [j rng']. by rewrite IH, swap_Permutation.
Qed.

Lemma shuffle_Permutation v rng : (shuffle v rng).1 ≡ₚ v.
Proof. apply shuffle_from_Permutation. Qed.

End shuffle.

Lemma lxor_range w a b : 0 <= w -> 0 <= a < 2 ^ w -> 0 <= b < 2 ^ w -> 0 <= Z.lxor a b < 2 ^ w.
Proof.
  intros Hw Ha Hb. split; [apply Z.lxor_nonneg; lia|].
  destruct (Z.eq_dec (Z.lxor a b) 0) as [->|Hne]; [lia|].
  assert (0 <= Z.lxor a b) by (apply Z.lxor_nonneg; lia).
  apply Z.log2_lt_pow2; [lia|]. pose proof (Z.log2_lxor a b ltac:(lia) ltac:(lia)) as Hl.
  assert (Hlog : forall x, 0 <= x < 2 ^ w -> Z.log2 x < w \/ w = 0).
  { intros x Hx. destruct (Z.eq_dec x 0) as [->|]; [cbn; lia|]. left. apply Z.log2_lt_pow2; lia. }
  destruct (Hlog a Ha), (Hlog b Hb); try lia.
  all: subst w; change (2 ^ 0) with 1 in *; assert (a = 0) by lia; assert (b = 0) by lia; subst; by cbn in *.
Qed.

Lemma next_u64_range x : 0 <= x < 2 ^ 64 -> 0 <= next_u64 x < 2 ^ 64.
Proof.
  intros Hx. unfold next_u64, wrap.
  set (y := Z.lxor x (Z.shiftl x 13 mod 2 ^ 64)).
  assert (Hy : 0 <= y < 2 ^ 64) by (apply lxor_range; [lia|done|by apply Z.mod_pos_bound]).
  set (z := Z.lxor y (Z.shiftr y 7)).
  assert (Hz : 0 <= z < 2 ^ 64).
  { apply lxor_range; [lia|done|]. rewrite Z.shiftr_div_pow2 by lia.
    split; [apply Z.div_pos; lia|]. apply Z.div_lt_upper_bound; lia. }
  apply lxor_range; [lia|done|by apply Z.mod_pos_bound].
Qed.

Lemma below_lt n rng : (0 < n)%nat -> 0 <= rng < 2 ^ 64 -> ((below n rng).1 < n)%nat.
Proof.
  intros Hn Hr. cbn. pose proof (next_u64_range rng Hr).
  pose proof (Z.mod_pos_bound (next_u64 rng) (Z.of_nat n)). lia.
Qed.

(** The generator never gets stuck: a non-zero state stays non-zero.  (Each
    of the three xor-shifts is a bijection that fixes zero.) *)
Lemma lxor_shiftr_nonzero x n : 0 < n -> 0 <= x -> Z.lxor x (Z.shiftr x n) = 0 -> x = 0.
Proof.
  intros Hn Hx E. apply Z.lxor_eq in E. rewrite Z.shiftr_div_pow2 in E by lia.
  pose proof (proj1 (Z.pow_gt_1 2 n ltac:(lia)) Hn).
  destruct (Z.eq_dec x 0); [done|].
  pose proof (Z.div_lt x (2 ^ n) ltac:(lia) ltac:(lia)). lia.
Qed.


Lemma lxor_shiftl_nonzero x n :
  0 < n -> 0 <= x < 2 ^ 64 -> Z.lxor x (wrap 64 (Z.shiftl x n)) = 0 -> x = 0.
Proof.
  intros Hn Hx E. apply Z.lxor_eq in E. unfold wrap in E.
  assert (H : forall i, 0 <= i -> Z.testbit x i = false).
  { apply (Z_lt_induction (fun i => Z.testbit x i = false)). intros i IH.
    rewrite E. destruct (Z.lt_ge_cases i 64).
    - rewrite Z.mod_pow2_bits_low by lia. destruct (Z.lt_ge_cases i 0); [by apply Z.testbit_neg_r|].
      rewrite Z.shiftl_spec by lia. destruct (Z.lt_ge_cases (i - n) 0); [by apply Z.testbit_neg_r|].
      apply IH. lia.
    - by apply Z.mod_pow2_bits_high. }
  apply Z.bits_inj'. intros i Hi. rewrite Z.testbit_0_l. by apply H.
Qed.

Lemma next_u64_nonzero x : 0 < x < 2 ^ 64 -> next_u64 x <> 0.
Proof.
  intros Hx. unfold next_u64.
  set (y := Z.lxor x (wrap 64 (Z.shiftl x 13))).
  assert (Hy : 0 <= y < 2 ^ 64) by (apply lxor_range; [lia|lia|by apply Z.mod_pos_bound]).
  assert (y <> 0) by (intros E; apply lxor_shiftl_nonzero in E; lia).
  set (z := Z.lxor y (Z.shiftr y 7)).
  assert (Hz : 0 <= z < 2 ^ 64).
  { apply lxor_range; [lia|done|]. rewrite Z.shiftr_div_pow2 by lia.
    split; [apply Z.div_pos; lia|]. apply Z.div_lt_upper_bound; lia. }
  assert (z <> 0) by (intros E; apply lxor_shiftr_nonzero in E; lia).
  intros E. apply lxor_shiftl_nonzero in E; lia.
Qed.

(** The generator behind member choice is sound: a seeded state (it is
    odd, so not zero) never falls into the all-zero fixed point, a draw below
    [n] is in range, and a shuffle rearranges its list, losing and
    duplicating nothing. *)
Theorem rng_sound {A} (v : list A) n rng :
  0 < rng < 2 ^ 64 -> (0 < n)%nat ->
  (0 < next_u64 rng < 2 ^ 64) /\ ((below n rng).1 < n)%nat /\ (shuffle v rng).1 ≡ₚ v.
Proof.
  intros Hr Hn. pose proof (next_u64_range rng ltac:(lia)). pose proof (next_u64_nonzero rng Hr).
  split_and!; [lia..|apply below_lt; lia|apply shuffle_Permutation].
Qed.

Lemma rng_sound_witness : (shuffle [1; 2; 3; 4] 88172645463325252).1 ≡ₚ [1; 2; 3; 4].
Proof. apply (rng_sound [1; 2; 3; 4] 3 88172645463325252); lia. Defined.
