(* ===== verification/Balancer.v ===== *)
(** * The balanced connection pool

    [Balancer] of [src/lib.rs]: members and their health, the choice of a
    member, the idle connections, ejection and re-admission, and member
    discovery.  Each method is what it does under the pool's lock; the clock
    and the outcomes of dials and statements are arguments.  [Discovery] and
    [BalancerSteps] go on from here. *)
From stdpp Require Import gmap.
From S2P Require Import Prelude Bytes Text BTree Float64 Decimal Value Rng.
#[local] Open Scope Z_scope.

(** ** Settings *)

Inductive LoadBalancing := Random | RoundRobin | LeastLatency.
Inductive IdleOrder := Lifo | Fifo.
Inductive MemberState := Ready | Ejected | Resyncing | Unreachable | Unlisted.

#[export] Instance lb_eq_dec : EqDecision LoadBalancing.
Proof. solve_decision. Defined.
#[export] Instance idle_order_eq_dec : EqDecision IdleOrder.
Proof. solve_decision. Defined.
#[export] Instance member_state_eq_dec : EqDecision MemberState.
Proof. solve_decision. Defined.

Definition load_balancing_as_str (p : LoadBalancing) : bytes :=
  match p with
  | Random => str "random"
  | RoundRobin => str "round_robin"
  | LeastLatency => str "least_latency"
  end.

(** [FromStr]; [None] is the [InvalidInput] error. *)
Definition load_balancing_from_str (s : bytes) : option LoadBalancing :=
  if decide (s = str "random") then Some Random
  else if decide (s = str "round_robin") then Some RoundRobin
  else if decide (s = str "least_latency") then Some LeastLatency
  else None.

Definition idle_order_as_str (o : IdleOrder) : bytes :=
  match o with Lifo => str "lifo" | Fifo => str "fifo" end.

Definition idle_order_from_str (s : bytes) : option IdleOrder :=
  if decide (s = str "lifo") then Some Lifo
  else if decide (s = str "fifo") then Some Fifo
  else None.

Definition member_state_as_str (s : MemberState) : bytes :=
  match s with
  | Ready => str "ready"
  | Ejected => str "ejected"
  | Resyncing => str "resyncing"
  | Unreachable => str "unreachable"
  | Unlisted => str "unlisted"
  end.

(** Durations and instants are nanoseconds. *)
Definition MILLI : Z := 1000000.
Definition SEC : Z := 1000000000.
Definition DURATION_MAX : Z := (2 ^ 64 - 1) * SEC + (SEC - 1).

(** [Duration::try_from_secs_f64]: to the nearest nanosecond, ties to even. *)
Definition half_even (a b : Z) : Z :=
  let q := a / b in
  match Z.compare (2 * (a mod b)) b with
  | Lt => q
  | Gt => q + 1
  | Eq => if Z.even q then q else q + 1
  end.

Definition try_from_secs_f64 (x : Z) : option Z :=
  match sf_of_bits x with
  | SpecFloat.S754_zero _ => Some 0
  | SpecFloat.S754_finite false m e =>
      let ns := if 0 <=? e then Z.shiftl (Zpos m) e * SEC else half_even (Zpos m * SEC) (2 ^ (- e)) in
      if ns <=? DURATION_MAX then Some ns else None
  | _ => None
  end.

(** [Duration::as_secs_f64]. *)
Definition as_secs_f64 (d : Z) : Z :=
  f64_add (f64_of_int (d / SEC)) (f64_div (f64_of_int (d mod SEC)) (f64_of_int SEC)).

Record PoolOptions := {
  maxsize : nat;
  load_balancing : LoadBalancing;
  idle_order : IdleOrder;
  discover : bool;
  refresh_interval : Z;
  read_your_writes : Z;
  eject_errors : Z;
  eject_latency_factor : Z;
  eject_latency_floor : Z;
  eject_backoff : Z;
  eject_backoff_max : Z;
}.

Definition pool_options_default : PoolOptions := {|
  maxsize := 10;
  load_balancing := Random;
  idle_order := Lifo;
  discover := false;
  refresh_interval := 60 * SEC;
  read_your_writes := 0;
  eject_errors := 3;
  eject_latency_factor := f64_of_int 3;
  eject_latency_floor := 50 * MILLI;
  eject_backoff := 5 * SEC;
  eject_backoff_max := 60 * SEC;
|}.

Definition EWMA_SEED_SAMPLES : nat := 3.
(** [0.05]. *)
Definition EWMA_WEIGHT : Z := f64_div (f64_of_int 1) (f64_of_int 20).
Definition EWMA_CLAMP : Z := f64_of_int 10.
Definition EWMA_MIN_SAMPLES : Z := 10.
Definition STALE_SAMPLE : Z := 2 * SEC.
Definition REFRESH_NOT_READY : Z := 5 * SEC.
Definition AFFINITY_CAP : nat := Z.to_nat 4096.
Definition CHECKOUT_ATTEMPTS : nat := 3.

(** ** Members *)

Record Member := {
  m_seed : bool;
  m_canonical : option bytes;
  m_listed : MemberState;
  m_ewma : option Z;
  m_firsts : list Z;
  m_samples : Z;
  m_last_sample : option Z;
  m_errors : Z;
  m_ejected_until : option Z;
  m_ejections : Z;
  m_readmitted_at : option Z;
  m_in_use : nat;
  m_probing : bool;
}.

Definition member_new (seed : bool) : Member := {|
  m_seed := seed; m_canonical := None; m_listed := Ready; m_ewma := None; m_firsts := [];
  m_samples := 0; m_last_sample := None; m_errors := 0; m_ejected_until := None;
  m_ejections := 0; m_readmitted_at := None; m_in_use := 0; m_probing := false;
|}.

(** Field updates. *)
Definition set_canonical c m := {|
  m_seed := m.(m_seed); m_canonical := c; m_listed := m.(m_listed); m_ewma := m.(m_ewma);
  m_firsts := m.(m_firsts); m_samples := m.(m_samples); m_last_sample := m.(m_last_sample);
  m_errors := m.(m_errors); m_ejected_until := m.(m_ejected_until);
  m_ejections := m.(m_ejections); m_readmitted_at := m.(m_readmitted_at);
  m_in_use := m.(m_in_use); m_probing := m.(m_probing) |}.
Definition set_listed l m := {|
  m_seed := m.(m_seed); m_canonical := m.(m_canonical); m_listed := l; m_ewma := m.(m_ewma);
  m_firsts := m.(m_firsts); m_samples := m.(m_samples); m_last_sample := m.(m_last_sample);
  m_errors := m.(m_errors); m_ejected_until := m.(m_ejected_until);
  m_ejections := m.(m_ejections); m_readmitted_at := m.(m_readmitted_at);
  m_in_use := m.(m_in_use); m_probing := m.(m_probing) |}.
Definition set_latency ewma firsts samples last m := {|
  m_seed := m.(m_seed); m_canonical := m.(m_canonical); m_listed := m.(m_listed);
  m_ewma := ewma; m_firsts := firsts; m_samples := samples; m_last_sample := last;
  m_errors := m.(m_errors); m_ejected_until := m.(m_ejected_until);
  m_ejections := m.(m_ejections); m_readmitted_at := m.(m_readmitted_at);
  m_in_use := m.(m_in_use); m_probing := m.(m_probing) |}.
Definition set_errors e m := {|
  m_seed := m.(m_seed); m_canonical := m.(m_canonical); m_listed := m.(m_listed);
  m_ewma := m.(m_ewma); m_firsts := m.(m_firsts); m_samples := m.(m_samples);
  m_last_sample := m.(m_last_sample); m_errors := e; m_ejected_until := m.(m_ejected_until);
  m_ejections := m.(m_ejections); m_readmitted_at := m.(m_readmitted_at);
  m_in_use := m.(m_in_use); m_probing := m.(m_probing) |}.
Definition set_ejection until ejections readmitted m := {|
  m_seed := m.(m_seed); m_canonical := m.(m_canonical); m_listed := m.(m_listed);
  m_ewma := m.(m_ewma); m_firsts := m.(m_firsts); m_samples := m.(m_samples);
  m_last_sample := m.(m_last_sample); m_errors := m.(m_errors); m_ejected_until := until;
  m_ejections := ejections; m_readmitted_at := readmitted;
  m_in_use := m.(m_in_use); m_probing := m.(m_probing) |}.
Definition set_in_use n m := {|
  m_seed := m.(m_seed); m_canonical := m.(m_canonical); m_listed := m.(m_listed);
  m_ewma := m.(m_ewma); m_firsts := m.(m_firsts); m_samples := m.(m_samples);
  m_last_sample := m.(m_last_sample); m_errors := m.(m_errors);
  m_ejected_until := m.(m_ejected_until); m_ejections := m.(m_ejections);
  m_readmitted_at := m.(m_readmitted_at); m_in_use := n; m_probing := m.(m_probing) |}.
Definition set_probing b m := {|
  m_seed := m.(m_seed); m_canonical := m.(m_canonical); m_listed := m.(m_listed);
  m_ewma := m.(m_ewma); m_firsts := m.(m_firsts); m_samples := m.(m_samples);
  m_last_sample := m.(m_last_sample); m_errors := m.(m_errors);
  m_ejected_until := m.(m_ejected_until); m_ejections := m.(m_ejections);
  m_readmitted_at := m.(m_readmitted_at); m_in_use := m.(m_in_use); m_probing := b |}.

Definition reset_latency (m : Member) : Member := set_latency None [] 0 m.(m_last_sample) m.

Definition is_none {A} (o : option A) : bool := match o with None => true | Some _ => false end.

Definition usable (m : Member) : bool :=
  is_none m.(m_ejected_until) && bool_decide (m.(m_listed) = Ready).

(** [duration_since] saturates at zero. *)
Definition duration_since (now at_ : Z) : Z := Z.max 0 (now - at_).

Definition score (now : Z) (m : Member) : Z :=
  match m.(m_ewma), m.(m_last_sample) with
  | Some ewma, Some at_ =>
      if duration_since now at_ <=? STALE_SAMPLE
      then f64_mul ewma (f64_add (f64_of_int (Z.of_nat m.(m_in_use))) (f64_of_int 1))
      else 0
  | _, _ => 0
  end.

(** ** Connections and the pool's state *)

(** A pooled connection's tie to its pool ([l_pool] identifies the pool). *)
Record PoolLink := {
  l_pool : Z;
  l_member : bytes;
  l_out : bool;
  l_affinity : option bytes;
  l_broken : bool;
}.

Definition link_new (pool : Z) : PoolLink :=
  {| l_pool := pool; l_member := []; l_out := false; l_affinity := None; l_broken := false |}.

(** Of a connection the pool looks at its link alone; [c_id] tells sockets apart. *)
Record Client := { c_id : Z; c_link : option PoolLink }.

Record BalancerState := {
  b_members : list (bytes * Member);
  b_idle : list Client;
  b_rr : Z;
  b_affinity : gmap (option bytes) (bytes * Z);
  b_discovery_off : bool;
  b_next_refresh : Z;
  b_closed : bool;
  b_maintainer : bool;
  b_rng : Z;
}.

Definition with_members ms st := {|
  b_members := ms; b_idle := st.(b_idle); b_rr := st.(b_rr); b_affinity := st.(b_affinity);
  b_discovery_off := st.(b_discovery_off); b_next_refresh := st.(b_next_refresh);
  b_closed := st.(b_closed); b_maintainer := st.(b_maintainer); b_rng := st.(b_rng) |}.
Definition with_idle l st := {|
  b_members := st.(b_members); b_idle := l; b_rr := st.(b_rr); b_affinity := st.(b_affinity);
  b_discovery_off := st.(b_discovery_off); b_next_refresh := st.(b_next_refresh);
  b_closed := st.(b_closed); b_maintainer := st.(b_maintainer); b_rng := st.(b_rng) |}.
Definition with_rr rr st := {|
  b_members := st.(b_members); b_idle := st.(b_idle); b_rr := rr; b_affinity := st.(b_affinity);
  b_discovery_off := st.(b_discovery_off); b_next_refresh := st.(b_next_refresh);
  b_closed := st.(b_closed); b_maintainer := st.(b_maintainer); b_rng := st.(b_rng) |}.
Definition with_affinity a st := {|
  b_members := st.(b_members); b_idle := st.(b_idle); b_rr := st.(b_rr); b_affinity := a;
  b_discovery_off := st.(b_discovery_off); b_next_refresh := st.(b_next_refresh);
  b_closed := st.(b_closed); b_maintainer := st.(b_maintainer); b_rng := st.(b_rng) |}.
Definition with_discovery off next st := {|
  b_members := st.(b_members); b_idle := st.(b_idle); b_rr := st.(b_rr);
  b_affinity := st.(b_affinity); b_discovery_off := off; b_next_refresh := next;
  b_closed := st.(b_closed); b_maintainer := st.(b_maintainer); b_rng := st.(b_rng) |}.
Definition with_closed c mt st := {|
  b_members := st.(b_members); b_idle := st.(b_idle); b_rr := st.(b_rr);
  b_affinity := st.(b_affinity); b_discovery_off := st.(b_discovery_off);
  b_next_refresh := st.(b_next_refresh); b_closed := c; b_maintainer := mt; b_rng := st.(b_rng) |}.
Definition with_rng r st := {|
  b_members := st.(b_members); b_idle := st.(b_idle); b_rr := st.(b_rr);
  b_affinity := st.(b_affinity); b_discovery_off := st.(b_discovery_off);
  b_next_refresh := st.(b_next_refresh); b_closed := st.(b_closed);
  b_maintainer := st.(b_maintainer); b_rng := r |}.

(** An update of one member through [get_mut]. *)
Definition update_member (f : Member -> Member) (ep : bytes) (st : BalancerState) : BalancerState :=
  with_members (bt_update f ep st.(b_members)) st.

Definition set_broken (b : bool) (l : PoolLink) : PoolLink := {|
  l_pool := l.(l_pool); l_member := l.(l_member); l_out := l.(l_out);
  l_affinity := l.(l_affinity); l_broken := b |}.

Section balancer.
Context (opts : PoolOptions) (self : Z).

(** ** Choosing a member *)

Definition is_usable (kv : bytes * Member) : bool := usable kv.2.

(** The endpoints of the usable members, in endpoint order. *)
Definition usable_eps (ms : list (bytes * Member)) : list bytes := (List.filter is_usable ms).*1.

Definition score_of (now : Z) (ms : list (bytes * Member)) (ep : bytes) : Z :=
  match bt_get ep ms with Some m => score now m | None => 0 end.

(** The read-your-writes part of [pick]: the member to stick to, and the
    state with an expired (or orphaned) entry dropped. *)
Definition pick_affinity (now : Z) (affinity : option bytes) (st : BalancerState)
    : option bytes * BalancerState :=
  if opts.(read_your_writes) =? 0 then (None, st)
  else
    match st.(b_affinity) !! affinity with
    | None => (None, st)
    | Some (ep, until) =>
        match bt_get ep st.(b_members) with
        | Some m =>
            if now <? until then (if usable m then Some ep else None, st)
            else (None, with_affinity (delete affinity st.(b_affinity)) st)
        | None => (None, with_affinity (delete affinity st.(b_affinity)) st)
        end
    end.

Definition nth_ep (eps : list bytes) (i : nat) : bytes := default [] (eps !! i).

Definition pick (now : Z) (affinity : option bytes) (st : BalancerState)
    : option bytes * BalancerState :=
  let '(sticky, st) := pick_affinity now affinity st in
  match sticky with
  | Some ep => (Some ep, st)
  | None =>
      if decide (opts.(load_balancing) = Random) then (None, st)
      else
        let eps := usable_eps st.(b_members) in
        let n := length eps in
        if (n =? 0)%nat then (None, st)
        else if decide (opts.(load_balancing) = RoundRobin) then
          let rr := wrap 64 (st.(b_rr) + 1) mod Z.of_nat n in
          (Some (nth_ep eps (Z.to_nat rr)), with_rr rr st)
        else if (n =? 1)%nat then (Some (nth_ep eps 0), st)
        else
          let '(i, rng) := below n st.(b_rng) in
          let '(j, rng) := below (n - 1) rng in
          let j := if (i <=? j)%nat then S j else j in
          let a := nth_ep eps i in
          let b := nth_ep eps j in
          let best := if f64_le (score_of now st.(b_members) a) (score_of now st.(b_members) b)
                      then a else b in
          (Some best, with_rng rng st)
  end.

(** The endpoint an idle connection counts against. *)
Definition idle_ep (c : Client) : bytes :=
  match c.(c_link) with Some l => l.(l_member) | None => [] end.

Definition idle_usable (ms : list (bytes * Member)) (c : Client) : bool :=
  match bt_get (idle_ep c) ms with Some m => usable m | None => false end.

(** The scan of [take_idle]: the index found, and the stale ones passed on the
    way. *)
Fixpoint scan_idle (ms : list (bytes * Member)) (idle : list Client) (target : option bytes)
    (order : list nat) (stale : list nat) : option nat * list nat :=
  match order with
  | [] => (None, stale)
  | i :: order =>
      match idle !! i with
      | None => (None, stale)
      | Some c =>
          if idle_usable ms c then
            if match target with None => true | Some t => bool_decide (t = idle_ep c) end
            then (Some i, stale)
            else scan_idle ms idle target order stale
          else scan_idle ms idle target order (stale ++ [i])
      end
  end.

(** The indices in the order they are tried. *)
Definition idle_indices (n : nat) : list nat :=
  match opts.(idle_order) with Fifo => seq 0 n | Lifo => rev (seq 0 n) end.

Definition take_idle (target : option bytes) (st : BalancerState)
    : option Client * list Client * BalancerState :=
  let idle := st.(b_idle) in
  let '(found, stale) := scan_idle st.(b_members) idle target (idle_indices (length idle)) [] in
  let is_found i := bool_decide (found = Some i) in
  let is_stale i := bool_decide (i ∈ stale) in
  let numbered := zip (seq 0 (length idle)) idle in
  let picked := found ≫= fun i => idle !! i in
  let dropped := (List.filter (fun ic => negb (is_found ic.1) && is_stale ic.1) numbered).*2 in
  let kept := (List.filter (fun ic => negb (is_found ic.1) && negb (is_stale ic.1)) numbered).*2 in
  (picked, dropped, with_idle kept st).

(** [rest.sort_by_key(|(until, _)| (until.is_some(), *until))]. *)
Definition until_cmp (a b : option Z * bytes) : comparison :=
  match a.1, b.1 with
  | None, None => Eq
  | None, Some _ => Lt
  | Some _, None => Gt
  | Some x, Some y => Z.compare x y
  end.

(** [iter().position] and [remove]: the list without the first [x]. *)
Fixpoint remove_first (x : bytes) (eps : list bytes) : option (list bytes) :=
  match eps with
  | [] => None
  | e :: eps => if bool_decide (e = x) then Some eps else (cons e) <$> remove_first x eps
  end.

Definition move_last (x : bytes) (eps : list bytes) : list bytes :=
  if (1 <? length eps)%nat
  then match remove_first x eps with Some eps' => eps' ++ [x] | None => eps end
  else eps.

Definition order (first exclude : option bytes) (st : BalancerState) : list bytes * BalancerState :=
  let others := List.filter (fun em => negb (bool_decide (Some em.1 = first))) st.(b_members) in
  let usable_l := (List.filter is_usable others).*1 in
  let rest := map (fun em => (em.2.(m_ejected_until), em.1))
                  (List.filter (fun em => negb (is_usable em)) others) in
  let '(usable_l, rng) := shuffle usable_l st.(b_rng) in
  let rest := sort_by until_cmp rest in
  let eps := (match first with Some f => [f] | None => [] end) ++ usable_l ++ rest.*2 in
  let eps := match exclude with Some x => move_last x eps | None => eps end in
  (eps, with_rng rng st).

(** ** What connections report *)

Definition in_use_dec (m : Member) : Member := set_in_use (m.(m_in_use) - 1) m.
Definition in_use_inc (m : Member) : Member := set_in_use (S m.(m_in_use)) m.

Definition set_member (ep : bytes) (l : PoolLink) : PoolLink := {|
  l_pool := l.(l_pool); l_member := ep; l_out := l.(l_out); l_affinity := l.(l_affinity);
  l_broken := l.(l_broken) |}.

Definition reattribute (st : BalancerState) (link : PoolLink) (connected : bytes)
    : BalancerState * PoolLink :=
  if bool_decide (link.(l_member) = connected) then (st, link)
  else
    let st := if link.(l_out)
              then update_member in_use_inc connected (update_member in_use_dec link.(l_member) st)
              else st in
    (st, set_member connected link).

Definition dial_order (lost : bytes) (st : BalancerState) : list bytes * BalancerState :=
  order None (Some lost) st.

Definition moved (st : BalancerState) (link : PoolLink) (connected : bytes)
    : BalancerState * PoolLink := reattribute st link connected.

Definition sat_inc32 (x : Z) : Z := Z.min (x + 1) (2 ^ 32 - 1).

(** [Duration::saturating_mul] and [u32::saturating_pow]. *)
Definition backoff_for (ejections : Z) : Z :=
  let doublings := Z.min (2 ^ Z.max 0 (ejections - 1)) (2 ^ 32 - 1) in
  Z.min (Z.min (opts.(eject_backoff) * doublings) DURATION_MAX) opts.(eject_backoff_max).

(** [spawned]: whether the thread could be started. *)
Definition ensure_maintainer (spawned : bool) (st : BalancerState) : BalancerState :=
  if st.(b_maintainer) || st.(b_closed) then st
  else if spawned then with_closed st.(b_closed) true st else st.

Definition eject_member (now : Z) (m : Member) : Member :=
  let ejections :=
    match m.(m_readmitted_at) with
    | Some t => if opts.(eject_backoff_max) <? duration_since now t then 0 else m.(m_ejections)
    | None => 0
    end in
  let ejections := sat_inc32 ejections in
  set_ejection (Some (now + backoff_for ejections)) ejections m.(m_readmitted_at) m.

Definition eject (spawned : bool) (now : Z) (ep : bytes) (st : BalancerState) : BalancerState :=
  if negb (existsb (fun km => negb (bool_decide (km.1 = ep)) && usable km.2) st.(b_members)) then st
  else
    match bt_get ep st.(b_members) with
    | None => st
    | Some _ => ensure_maintainer spawned (update_member (eject_member now) ep st)
    end.

(** [f64::min] ([NaN] is ignored) and [f64::max]. *)
Definition f64_min (a b : Z) : Z :=
  if is_nan a then b else if is_nan b then a else if f64_lt b a then b else a.
Definition f64_max (a b : Z) : Z :=
  if is_nan a then b else if is_nan b then a else if f64_lt a b then b else a.

(** The latency bookkeeping of one round trip. *)
Definition record_sample (now sample : Z) (m : Member) : Member :=
  let floor := as_secs_f64 opts.(eject_latency_floor) in
  let '(ewma, firsts) :=
    match m.(m_ewma) with
    | None =>
        let firsts := m.(m_firsts) ++ [sample] in
        if (EWMA_SEED_SAMPLES <=? length firsts)%nat then
          (match firsts with [] => None | x :: l => Some (fold_left f64_min l x) end, [])
        else (None, firsts)
    | Some avg =>
        (Some (f64_add avg
                 (f64_mul EWMA_WEIGHT
                    (f64_sub (f64_min sample (f64_mul EWMA_CLAMP (f64_max avg floor))) avg))),
         m.(m_firsts))
    end in
  set_errors 0 (set_latency ewma firsts (sat_inc32 m.(m_samples)) (Some now) m).

(** [f64::total_cmp]. *)
Definition f64_total_cmp (a b : Z) : comparison := Z.compare (f64_ord a) (f64_ord b).

(** The averages the ejection test compares with. *)
Definition other_averages (connected : bytes) (ms : list (bytes * Member)) : list Z :=
  omap (fun km => m_ewma km.2)
    (List.filter (fun km => negb (bool_decide (km.1 = connected)) && usable km.2
                            && (EWMA_MIN_SAMPLES <=? km.2.(m_samples))) ms).

Definition median (l : list Z) : Z :=
  default 0 (sort_by f64_total_cmp l !! ((length l - 1) / 2)%nat).

(** Whether the member's average is far above the others'. *)
Definition too_slow (ewma : Z) (others : list Z) : bool :=
  let factor := opts.(eject_latency_factor) in
  let floor := as_secs_f64 opts.(eject_latency_floor) in
  match others with
  | [] => false
  | _ =>
      let med := median others in
      f64_lt (f64_mul factor med) ewma && f64_lt floor (f64_sub ewma med)
  end.

Definition round_trip (spawned : bool) (now : Z) (link : PoolLink) (connected : bytes) (elapsed : Z)
    (st : BalancerState) : BalancerState * PoolLink :=
  let '(st, link) := reattribute st link connected in
  match bt_get connected st.(b_members) with
  | None => (st, link)
  | Some m =>
      let m := record_sample now (as_secs_f64 elapsed) m in
      let st := with_members (bt_insert connected m st.(b_members)) st in
      match m.(m_ewma) with
      | None => (st, link)
      | Some ewma =>
          if negb (usable m) || (m.(m_samples) <? EWMA_MIN_SAMPLES)
             || f64_le opts.(eject_latency_factor) 0
          then (st, link)
          else if too_slow ewma (other_averages connected st.(b_members))
          then (eject spawned now connected st, link)
          else (st, link)
      end
  end.

Definition failed (spawned : bool) (now : Z) (ep : bytes) (st : BalancerState) : BalancerState :=
  match bt_get ep st.(b_members) with
  | None => st
  | Some m =>
      let m := set_errors (sat_inc32 m.(m_errors)) m in
      let st := with_members (bt_insert ep m st.(b_members)) st in
      if (opts.(eject_errors) <=? m.(m_errors)) && is_none m.(m_ejected_until)
      then eject spawned now ep st else st
  end.

Definition closed_out (member : bytes) (st : BalancerState) : BalancerState :=
  update_member in_use_dec member st.

Definition wrote (now : Z) (affinity : option bytes) (connected : bytes) (st : BalancerState)
    : BalancerState :=
  let a := st.(b_affinity) in
  let a := if (AFFINITY_CAP <=? size a)%nat then filter (fun kv => now < kv.2.2) a else a in
  with_affinity (<[affinity := (connected, now + opts.(read_your_writes))]> a) st.

(** ** Checkout and checkin

    [checkout] holds the lock twice: to plan (an idle connection, or the
    order to dial), and to count the connection it hands out; the dial and
    the discovery between them are other steps. *)
Inductive plan :=
| Closed
| UseIdle (c : Client) (stale : list Client)
| Dial (order : list bytes) (stale : list Client).

Definition checkout_plan (now : Z) (affinity : option bytes) (st : BalancerState)
    : plan * BalancerState :=
  if st.(b_closed) then (Closed, st)
  else
    let '(target, st) := pick now affinity st in
    let '(idle, stale, st) := take_idle target st in
    match idle with
    | Some c => (UseIdle c stale, st)
    | None => let '(eps, st) := order target None st in (Dial eps stale, st)
    end.

Definition set_out (out : bool) (affinity : option bytes) (l : PoolLink) : PoolLink := {|
  l_pool := l.(l_pool); l_member := l.(l_member); l_out := out; l_affinity := affinity;
  l_broken := l.(l_broken) |}.

Definition checkout_commit (affinity : option bytes) (c : Client) (st : BalancerState)
    : Client * BalancerState :=
  match c.(c_link) with
  | None => (c, st)
  | Some l =>
      ({| c_id := c.(c_id); c_link := Some (set_out true affinity l) |},
       update_member in_use_inc l.(l_member) st)
  end.

(** [checkin] keeps the connection idle or drops it (the second result). *)
Definition checkin (c : Client) (st : BalancerState) : BalancerState * option Client :=
  match c.(c_link) with
  | Some l =>
      if l.(l_pool) =? self then
        let st' := if l.(l_out) then update_member in_use_dec l.(l_member) st else st in
        let usable_ := match bt_get l.(l_member) st'.(b_members) with
                       | Some m => usable m | None => false end in
        let c := {| c_id := c.(c_id); c_link := Some (set_out false l.(l_affinity) l) |} in
        if negb st.(b_closed) && negb l.(l_broken) && usable_
           && (length st'.(b_idle) <? opts.(maxsize))%nat
        then (with_idle (st'.(b_idle) ++ [c]) st', None)
        else (st', Some c)
      else (st, Some c)
  | None => (st, Some c)
  end.

Definition close (st : BalancerState) : BalancerState * list Client :=
  (with_closed true false (with_idle [] st), st.(b_idle)).

(** ** The background thread *)

(** The ejected members due a probe (marked), and whether discovery is due;
    [None] once the pool is closed. *)
Definition probe_due (now : Z) (m : Member) : bool :=
  match m.(m_ejected_until) with
  | Some t => (t <=? now) && negb m.(m_probing)
  | None => false
  end.

Definition tick (now : Z) (st : BalancerState) : option (list bytes * bool * BalancerState) :=
  if st.(b_closed) then None
  else
    Some ((List.filter (fun km => probe_due now km.2) st.(b_members)).*1,
          opts.(discover) && negb st.(b_discovery_off) && (st.(b_next_refresh) <=? now),
          with_members
            (map (fun km => (km.1, if probe_due now km.2 then set_probing true km.2 else km.2))
                 st.(b_members)) st).

(** [probed]: the connection the probe made, if it succeeded. *)
Definition probe (now : Z) (probed : option Z) (ep : bytes) (st : BalancerState) : BalancerState :=
  let room := (length st.(b_idle) <? opts.(maxsize))%nat in
  match bt_get ep st.(b_members) with
  | None => st
  | Some m =>
      let m := set_probing false m in
      match probed, st.(b_closed) with
      | Some id, false =>
          let m := set_ejection None m.(m_ejections) (Some now) (reset_latency (set_errors 0 m)) in
          let st := with_members (bt_insert ep m st.(b_members)) st in
          if room
          then with_idle (st.(b_idle)
                 ++ [{| c_id := id; c_link := Some (set_member ep (link_new self)) |}]) st
          else st
      | _, _ =>
          let ejections := sat_inc32 m.(m_ejections) in
          let m := set_ejection (Some (now + backoff_for ejections)) ejections
                                m.(m_readmitted_at) m in
          with_members (bt_insert ep m st.(b_members)) st
      end
  end.

(** ** Discovery *)

(** A state this driver does not know reads as ready. *)
Definition listed_state (s : bytes) : MemberState :=
  if decide (s = str "resyncing") then Resyncing
  else if decide (s = str "unreachable") then Unreachable
  else Ready.

Fixpoint listed_put (endpoint : bytes) (state : MemberState) (listed : list (bytes * MemberState))
    : list (bytes * MemberState) :=
  match listed with
  | [] => [(endpoint, state)]
  | (e, s) :: l =>
      if bool_decide (e = endpoint) then (e, state) :: l else (e, s) :: listed_put endpoint state l
  end.

(** One row of the answer: the listing so far and the members (the answering
    member learns its own name). *)
Definition apply_row (dialed : bytes) (acc : list (bytes * MemberState) * list (bytes * Member))
    (row : list Value) : list (bytes * MemberState) * list (bytes * Member) :=
  let '(listed, members) := acc in
  match row !! 0%nat, row !! 1%nat with
  | Some (VString endpoint), Some (VString state) =>
      let listed := listed_put endpoint (listed_state state) listed in
      let members :=
        match row !! 2%nat with
        | Some (VBool true) => bt_update (set_canonical (Some endpoint)) dialed members
        | _ => members
        end in
      (listed, members)
  | _, _ => acc
  end.

(** Which endpoint stands for each canonical name. *)
Definition by_name_step (by_name : gmap bytes bytes) (em : bytes * Member) : gmap bytes bytes :=
  match em.2.(m_canonical) with
  | Some name =>
      if em.2.(m_seed) || is_none (by_name !! name) then <[name := em.1]> by_name else by_name
  | None => by_name
  end.

Definition by_name_of (members : list (bytes * Member)) : gmap bytes bytes :=
  fold_left by_name_step members ∅.

Definition stands (by_name : gmap bytes bytes) (ep : bytes) (m : Member) : bool :=
  match m.(m_canonical) with
  | None => true
  | Some name => bool_decide (by_name !! name = Some ep)
  end.

Definition relist (state : MemberState) (m : Member) : Member :=
  let m := if bool_decide (state = Ready) && negb (bool_decide (m.(m_listed) = Ready))
           then set_errors 0 (reset_latency m) else m in
  set_listed state m.

Definition apply_listed (by_name : gmap bytes bytes)
    (acc : list (bytes * Member) * gset bytes) (es : bytes * MemberState)
    : list (bytes * Member) * gset bytes :=
  let '(members, seen) := acc in
  let '(endpoint, state) := es in
  let '(ep, members) :=
    match by_name !! endpoint with
    | Some ep => (ep, members)
    | None =>
        let m := default (member_new false) (bt_get endpoint members) in
        (endpoint, bt_insert endpoint (set_canonical (Some endpoint) m) members)
    end in
  match bt_get ep members with
  | None => (members, seen)
  | Some m => (bt_insert ep (relist state m) members, {[ep]} ∪ seen)
  end.

(** The final [retain]: listed members and unidentified seeds stay, other
    seeds are kept as unlisted, the rest goes. *)
Definition keep_listed (seen : gset bytes) (ep : bytes) (m : Member) : option Member :=
  if bool_decide (ep ∈ seen) || (m.(m_seed) && is_none m.(m_canonical)) then Some m
  else if m.(m_seed) then Some (set_listed Unlisted m)
  else None.

Definition retain_listed (seen : gset bytes) (members : list (bytes * Member))
    : list (bytes * Member) :=
  omap (fun em => (fun m => (em.1, m)) <$> keep_listed seen em.1 em.2) members.

Definition apply_listing (dialed : bytes) (rows : list (list Value)) (members : list (bytes * Member))
    : list (bytes * Member) :=
  let '(listed, members) := fold_left (apply_row dialed) rows ([], members) in
  let by_name := by_name_of members in
  let members := bt_retain (stands by_name) members in
  let '(members, seen) := fold_left (apply_listed by_name) listed (members, ∅) in
  retain_listed seen members.

Definition fold_listing (now : Z) (dialed : bytes) (rows : list (list Value)) (st : BalancerState)
    : BalancerState :=
  let members := apply_listing dialed rows st.(b_members) in
  let not_ready := existsb (fun em => bool_decide (em.2.(m_listed) = Resyncing)
                                      || bool_decide (em.2.(m_listed) = Unreachable)) members in
  let every := if not_ready then Z.min opts.(refresh_interval) REFRESH_NOT_READY
               else opts.(refresh_interval) in
  with_discovery st.(b_discovery_off) (now + every) (with_members members st).

(** What [SHOW ENDPOINTS] came back with. *)
Inductive listing :=
| ListRows (rows : list (list Value))
| ListOther
| ListServerError
| ListFailed.

Definition list_through (now : Z) (dialed : bytes) (l : listing) (st : BalancerState)
    : BalancerState :=
  match l with
  | ListRows (r :: rows) => fold_listing now dialed (r :: rows) st
  | ListRows [] | ListOther | ListServerError => with_discovery true st.(b_next_refresh) st
  | ListFailed => st
  end.

(** Whether a freshly dialed connection should run discovery. *)
Definition discover_through (spawned : bool) (endpoint : bytes) (st : BalancerState)
    : bool * BalancerState :=
  if negb opts.(discover) || st.(b_discovery_off) then (false, st)
  else
    match bt_get endpoint st.(b_members) with
    | Some m => if is_none m.(m_canonical) then (true, ensure_maintainer spawned st) else (false, st)
    | None => (false, st)
    end.

(** The failed half of [refresh]: no connection to ask through. *)
Definition refresh_failed (now : Z) (st : BalancerState) : BalancerState :=
  with_discovery st.(b_discovery_off) (now + opts.(refresh_interval)) st.

(** ** The view callers get *)

Record PoolMember := {
  pm_endpoint : bytes;
  pm_canonical : option bytes;
  pm_state : MemberState;
  pm_latency : option Z;
  pm_in_use : nat;
  pm_idle : nat;
  pm_seed : bool;
}.

Definition idle_count (ep : bytes) (idle : list Client) : nat :=
  length (List.filter (fun c => match c.(c_link) with
                                | Some l => bool_decide (l.(l_member) = ep)
                                | None => false end) idle).

Definition members (st : BalancerState) : list PoolMember :=
  map (fun em => {|
    pm_endpoint := em.1;
    pm_canonical := em.2.(m_canonical);
    pm_state := if negb (is_none em.2.(m_ejected_until)) then Ejected else em.2.(m_listed);
    pm_latency := em.2.(m_ewma) ≫= try_from_secs_f64;
    pm_in_use := em.2.(m_in_use);
    pm_idle := idle_count em.1 st.(b_idle);
    pm_seed := em.2.(m_seed);
  |}) st.(b_members).

End balancer.

(** ** Building a pool *)

Inductive BuildError := NoEndpoints | InvalidOption (message : bytes).

Fixpoint dedup_from (seen endpoints : list bytes) : list bytes :=
  match endpoints with
  | [] => seen
  | e :: endpoints =>
      dedup_from (if bool_decide (e ∈ seen) then seen else seen ++ [e]) endpoints
  end.

Definition dedup (endpoints : list bytes) : list bytes := dedup_from [] endpoints.

Definition seed_members (seeds : list bytes) : list (bytes * Member) :=
  fold_left (fun ms ep => bt_insert ep (member_new true) ms) seeds [].

(** [now] and [rng] are the clock and the generator's seed. *)
Definition build (o : PoolOptions) (endpoints : list bytes) (now rng : Z)
    : res BuildError BalancerState :=
  let seeds := dedup endpoints in
  match seeds with
  | [] => Err NoEndpoints
  | _ =>
      if (o.(maxsize) <? 1)%nat then Err (InvalidOption (str "maxsize must be >= 1"))
      else if o.(eject_errors) <? 1 then Err (InvalidOption (str "eject_errors must be >= 1"))
      else if negb (is_finite o.(eject_latency_factor) && f64_le 0 o.(eject_latency_factor))
      then Err (InvalidOption (str "eject_latency_factor must be a finite number >= 0"))
      else Ok {|
        b_members := seed_members seeds; b_idle := []; b_rr := 2 ^ 64 - 1; b_affinity := ∅;
        b_discovery_off := false; b_next_refresh := now; b_closed := false;
        b_maintainer := false; b_rng := Z.lor rng 1 |}
  end.

(** ** Lemmas: updates of the member map *)

Section lemmas.
Context (opts : PoolOptions) (self : Z).
Implicit Types (ms : list (bytes * Member)) (st : BalancerState).

(** Some member can take connections. *)
Definition some_usable ms : Prop := exists ep m, bt_get ep ms = Some m /\ usable m = true.

Lemma bt_get_update (f : Member -> Member) ep ep' ms :
  bt_get ep' (bt_update f ep ms) =
  if decide (ep' = ep) then f <$> bt_get ep ms else bt_get ep' ms.
Proof.
  unfold bt_update. destruct (bt_get ep ms) as [m|] eqn:E.
  - destruct (decide (ep' = ep)) as [->|Hne]; [by rewrite bt_get_insert_eq|by rewrite bt_get_insert_ne].
  - destruct (decide (ep' = ep)) as [->|Hne]; done.
Qed.

Lemma sorted_update (f : Member -> Member) ep ms : sorted ms = true -> sorted (bt_update f ep ms) = true.
Proof. intros Hs. unfold bt_update. destruct (bt_get ep ms); [by apply sorted_insert|done]. Qed.

Lemma some_usable_update f ep ms :
  (forall m, usable (f m) = usable m) -> some_usable ms -> some_usable (bt_update f ep ms).
Proof.
  intros Hf (k & m & Hk & Hu). destruct (decide (k = ep)) as [->|Hne].
  - exists ep, (f m). rewrite bt_get_update, decide_True, Hk by done. by rewrite Hf.
  - exists k, m. by rewrite bt_get_update, decide_False.
Qed.

Lemma some_usable_insert m m' ep ms :
  bt_get ep ms = Some m -> usable m' = usable m -> some_usable ms -> some_usable (bt_insert ep m' ms).
Proof.
  intros Hm Hu (k & m0 & Hk & Hu0). destruct (decide (k = ep)) as [->|Hne].
  - exists ep, m'. rewrite bt_get_insert_eq. split; [done|]. congruence.
  - exists k, m0. by rewrite bt_get_insert_ne.
Qed.

Lemma ensure_maintainer_members spawned st :
  b_members (ensure_maintainer spawned st) = b_members st
  /\ b_idle (ensure_maintainer spawned st) = b_idle st
  /\ b_closed (ensure_maintainer spawned st) = b_closed st.
Proof. unfold ensure_maintainer. destruct (_ || _); [done|]. by destruct spawned. Qed.

(** What [eject] does to the members: one of them changes, if another is usable. *)
Lemma eject_members spawned now ep st :
  b_members (eject opts spawned now ep st) = b_members st
  \/ (exists k m, k <> ep /\ (k, m) ∈ b_members st /\ usable m = true)
     /\ b_members (eject opts spawned now ep st) = bt_update (eject_member opts now) ep (b_members st).
Proof.
  unfold eject. destruct (existsb _ _) eqn:E; cbn [negb]; [|by left].
  destruct (bt_get ep (b_members st)) as [m0|] eqn:Hg; [|by left]. right. split.
  - apply existsb_exists in E as ([k m] & Hin & Hk). cbn in Hk. apply andb_true_iff in Hk as [Hne Hu].
    exists k, m. destruct (bool_decide_reflect (k = ep)); [done|]. split_and!; [done| |done].
    by apply list_elem_of_In.
  - by rewrite (proj1 (ensure_maintainer_members _ _)).
Qed.

Lemma eject_usable spawned now ep st :
  sorted (b_members st) = true -> some_usable (b_members st) ->
  some_usable (b_members (eject opts spawned now ep st)).
Proof.
  intros Hs Hu. destruct (eject_members spawned now ep st) as [->|((k & m & Hne & Hin & Hk) & ->)]; [done|].
  exists k, m. rewrite bt_get_update, decide_False by done. split; [|done]. by apply bt_elem_get.
Qed.

Lemma reattribute_members st l connected :
  b_members (reattribute st l connected).1 =
  if negb (bool_decide (l_member l = connected)) && l_out l
  then bt_update in_use_inc connected (bt_update in_use_dec (l_member l) (b_members st))
  else b_members st.
Proof. unfold reattribute. destruct (bool_decide _), (l_out l); done. Qed.

Lemma reattribute_usable st l connected :
  some_usable (b_members st) -> some_usable (b_members (reattribute st l connected).1).
Proof.
  intros Hu. rewrite reattribute_members. destruct (_ && _); [|done].
  by apply some_usable_update; [|apply some_usable_update].
Qed.

Lemma reattribute_sorted st l connected :
  sorted (b_members st) = true -> sorted (b_members (reattribute st l connected).1) = true.
Proof.
  intros Hs. rewrite reattribute_members. destruct (_ && _); [|done]. by apply sorted_update, sorted_update.
Qed.

Lemma record_sample_usable now s m : usable (record_sample opts now s m) = usable m.
Proof. unfold record_sample. destruct (m_ewma m); [done|]. by case_match. Qed.

Lemma record_sample_fields now s m :
  let m' := record_sample opts now s m in
  m_ejected_until m' = m_ejected_until m /\ m_ejections m' = m_ejections m
  /\ m_in_use m' = m_in_use m /\ m_seed m' = m_seed m /\ m_listed m' = m_listed m.
Proof. unfold record_sample. destruct (m_ewma m); [done|]. by case_match. Qed.

(** [round_trip]: the members are those of [reattribute] with a sample
    recorded, and possibly one ejection. *)
Lemma round_trip_members spawned now l connected elapsed st :
  let st1 := (reattribute st l connected).1 in
  let r := round_trip opts spawned now l connected elapsed st in
  let st2 := with_members
    (bt_update (record_sample opts now (as_secs_f64 elapsed)) connected (b_members st1)) st1 in
  r.2 = (reattribute st l connected).2
  /\ (r.1 = st1 \/ r.1 = st2
      \/ r.1 = eject opts spawned now connected st2
         /\ exists m, bt_get connected (b_members st1) = Some m /\ usable m = true).
Proof.
  unfold round_trip. destruct (reattribute st l connected) as [st1 l1]. cbn [fst snd].
  unfold bt_update. destruct (bt_get connected (b_members st1)) as [m|] eqn:Hg; [|by auto].
  destruct (m_ewma (record_sample _ _ _ m)); [|by auto].
  destruct (negb (usable (record_sample opts now (as_secs_f64 elapsed) m))) eqn:Hu; cbn [orb]; [by auto|].
  destruct (_ || _); [by auto|]. destruct (too_slow _ _ _); [|by auto].
  split; [done|]. do 2 right. split; [done|]. exists m. split; [done|].
  apply negb_false_iff in Hu. by rewrite record_sample_usable in Hu.
Qed.

Lemma failed_members spawned now ep st :
  let f := fun m => set_errors (sat_inc32 (m_errors m)) m in
  let st1 := with_members (bt_update f ep (b_members st)) st in
  failed opts spawned now ep st = st \/ failed opts spawned now ep st = st1
  \/ failed opts spawned now ep st = eject opts spawned now ep st1
     /\ exists m, bt_get ep (b_members st) = Some m /\ m_ejected_until m = None.
Proof.
  unfold failed, bt_update. destruct (bt_get ep (b_members st)) as [m|] eqn:Hg; [|by left]. right.
  destruct (_ && _) eqn:E; [|by left]. right. split; [done|]. exists m. split; [done|].
  apply andb_true_iff in E as [_ E]. cbn in E. by destruct (m_ejected_until m).
Qed.

(** *** Orders *)

Lemma filter_partition {A} (p : A -> bool) (l : list A) :
  List.filter p l ++ List.filter (fun x => negb (p x)) l ≡ₚ l.
Proof.
  induction l as [|x l IH]; [done|]. cbn. destruct (p x); cbn.
  - by rewrite IH.
  - rewrite <- Permutation_middle. by rewrite IH.
Qed.

Lemma remove_first_spec x l l' : remove_first x l = Some l' -> l ≡ₚ x :: l'.
Proof.
  revert l'. induction l as [|y l IH]; intros l'; cbn; [done|].
  case_bool_decide as E; [intros [= <-]; by subst|].
  destruct (remove_first x l) as [l0|]; [|done]. intros [= <-].
  rewrite (IH l0) by done. apply Permutation_swap.
Qed.

Lemma remove_first_None x l : remove_first x l = None -> x ∉ l.
Proof.
  induction l as [|y l IH]; cbn; [intros _; apply not_elem_of_nil|].
  case_bool_decide as E; [done|]. destruct (remove_first x l); [done|]. intros _.
  rewrite elem_of_cons. intros [->|Hin]; [done|]. by apply IH.
Qed.

Lemma move_last_Permutation x l : move_last x l ≡ₚ l.
Proof.
  unfold move_last. destruct (_ <? _)%nat; [|done]. destruct (remove_first x l) as [l'|] eqn:E; [|done].
  rewrite (remove_first_spec _ _ _ E). by rewrite Permutation_app_comm.
Qed.

Lemma order_parts first exclude st :
  let others := List.filter (fun em => negb (bool_decide (Some em.1 = first))) (b_members st) in
  exists us rs : list bytes,
    us ≡ₚ (List.filter is_usable others).*1
    /\ rs ≡ₚ (List.filter (fun em => negb (is_usable em)) others).*1
    /\ (order first exclude st).1 =
       let eps := (match first with Some f => [f] | None => [] end) ++ us ++ rs in
       match exclude with Some x => move_last x eps | None => eps end.
Proof.
  intros others. unfold order. fold others.
  pose proof (shuffle_Permutation (List.filter is_usable others).*1 (b_rng st)) as Hs.
  destruct (shuffle _ _) as [us rng] eqn:E. cbn [fst] in Hs. exists us. eexists. split; [done|].
  split; [|cbn [fst]; reflexivity].
  rewrite (sort_by_Permutation until_cmp). rewrite <- list_fmap_compose.
  reflexivity.
Qed.

Lemma others_keys first ms :
  sorted ms = true ->
  (match first with Some f => [f] | None => [] end)
  ++ (List.filter (fun em : bytes * Member => negb (bool_decide (Some em.1 = first))) ms).*1
  ≡ₚ match first with
     | Some f => if bt_contains f ms then ms.*1 else f :: ms.*1
     | None => ms.*1
     end.
Proof.
  intros Hs. destruct first as [f|]; cbn [app].
  - unfold bt_contains. induction ms as [|[k m] ms IH]; [done|].
    pose proof (sorted_tail _ _ _ Hs) as Hs'. specialize (IH Hs'). cbn [List.filter bt_get fst].
    rewrite (bool_decide_ext (Some k = Some f) (k = f)) by naive_solver.
    destruct (bool_decide_reflect (k = f)) as [->|Hne]; cbn [negb].
    + rewrite kcmp_refl. cbn. apply sorted_cons in Hs. rewrite (bt_get_above f ms) in IH by done.
      assert (Hf : (List.filter (fun em : bytes * Member => negb (bool_decide (Some em.1 = Some f))) ms).*1 ≡ₚ ms.*1).
      { by eapply Permutation_cons_inv. }
      by rewrite Hf.
    + destruct (kcmp f k) eqn:Ek; [apply kcmp_eq in Ek; by subst|..]; cbn;
        rewrite Permutation_swap, IH; destruct (bt_get f ms); try done; apply Permutation_swap.
  - match goal with |- context [List.filter ?q ms] => assert (E : List.filter q ms = ms) end.
    { clear Hs. induction ms as [|em ms IH]; [done|]. cbn [List.filter].
      rewrite bool_decide_false by done. cbn [negb]. f_equal. exact IH. }
    by rewrite E.
Qed.

End lemmas.

(** ** Properties of member choice and ejection *)

Section props.
Context (opts : PoolOptions) (self : Z).
Implicit Types (st : BalancerState).

(** C18: a slow or flaky member beats none: while some member can take
    connections, no failure report, no round trip and no ejection leaves the
    pool without one. *)
Theorem never_ejects_last spawned now link ep elapsed st :
  sorted (b_members st) = true -> some_usable (b_members st) ->
  some_usable (b_members (eject opts spawned now ep st))
  /\ some_usable (b_members (failed opts spawned now ep st))
  /\ some_usable (b_members (round_trip opts spawned now link ep elapsed st).1).
Proof.
  intros Hs Hu. split_and!.
  - by apply eject_usable.
  - destruct (failed_members opts spawned now ep st) as [->|[->|[-> _]]]; [done|..];
      [|apply eject_usable; [by apply sorted_update|]]; by apply some_usable_update.
  - pose proof (reattribute_usable st link ep Hu) as Hu1.
    pose proof (reattribute_sorted st link ep Hs) as Hs1.
    destruct (round_trip_members opts spawned now link ep elapsed st) as (_ & [->|[->|[-> _]]]);
      [done|..]; [|apply eject_usable; [by apply sorted_update|]];
      (apply some_usable_update; [apply record_sample_usable|done]).
Qed.

(** An ejection is decided once: reports about a member already ejected
    (late round trips and failures on connections checked out before) change
    neither its deadline nor its backoff count. *)
Theorem ejected_left_alone spawned now link ep elapsed st m :
  bt_get ep (b_members st) = Some m -> m_ejected_until m <> None ->
  let until_and_count st' := (fun m => (m_ejected_until m, m_ejections m)) <$> bt_get ep (b_members st') in
  until_and_count (failed opts spawned now ep st) = Some (m_ejected_until m, m_ejections m)
  /\ until_and_count (round_trip opts spawned now link ep elapsed st).1
     = Some (m_ejected_until m, m_ejections m).
Proof.
  intros Hm Hne uc. split.
  - destruct (failed_members opts spawned now ep st) as [->|[->|[_ (m' & Hm' & E)]]]; unfold uc.
    + by rewrite Hm.
    + cbn. rewrite bt_get_update, decide_True, Hm by done. done.
    + congruence.
  - set (st1 := (reattribute st link ep).1).
    assert (H1 : exists m1, bt_get ep (b_members st1) = Some m1 /\ usable m1 = false
                 /\ (m_ejected_until m1, m_ejections m1) = (m_ejected_until m, m_ejections m)).
    { assert (Hu : usable m = false) by (unfold usable; by destruct (m_ejected_until m)).
      unfold st1. rewrite reattribute_members. destruct (_ && _); [|by exists m].
      rewrite !bt_get_update, decide_True by done. destruct (decide (ep = l_member link)).
      - rewrite <- e, Hm. eexists. by split.
      - rewrite Hm. eexists. by split. }
    destruct H1 as (m1 & Hm1 & Hu1 & E1).
    destruct (round_trip_members opts spawned now link ep elapsed st)
      as (_ & [->|[->|[_ (m' & Hm' & Hu')]]]); unfold uc.
    + fold st1. by rewrite Hm1, <- E1.
    + fold st1. cbn. rewrite bt_get_update, decide_True, Hm1 by done. cbn.
      pose proof (record_sample_fields opts now (as_secs_f64 elapsed) m1) as (-> & -> & _). by rewrite E1.
    + fold st1 in Hm'. congruence.
Qed.

(** The backoff doubles with each ejection from the configured start, is
    never above the configured maximum, and never shrinks as ejections
    accumulate. *)
Theorem backoff_doubles n :
  0 <= eject_backoff opts -> 0 <= eject_backoff_max opts <= DURATION_MAX ->
  backoff_for opts n <= eject_backoff_max opts
  /\ (1 <= n <= 32 -> backoff_for opts n = Z.min (eject_backoff opts * 2 ^ (n - 1)) (eject_backoff_max opts))
  /\ (forall m, n <= m -> backoff_for opts n <= backoff_for opts m).
Proof.
  intros Hb Hm. unfold backoff_for. split_and!.
  - lia.
  - intros Hn. rewrite (Z.max_r 0) by lia.
    assert (2 ^ (n - 1) <= 2 ^ 31) by (apply Z.pow_le_mono_r; lia).
    rewrite (Z.min_l (2 ^ (n - 1))) by lia. lia.
  - intros m Hnm. assert (2 ^ Z.max 0 (n - 1) <= 2 ^ Z.max 0 (m - 1)) by (apply Z.pow_le_mono_r; lia).
    assert (Z.min (2 ^ Z.max 0 (n - 1)) (2 ^ 32 - 1) <= Z.min (2 ^ Z.max 0 (m - 1)) (2 ^ 32 - 1)) as Hle by lia.
    pose proof (Z.mul_le_mono_nonneg_l _ _ _ Hb Hle). lia.
Qed.

(** The dial order is complete: it lists every member exactly once (the
    chosen member first, or the member just lost last), and with no choice
    made, every usable member comes before every other. *)
Theorem order_complete st target lost :
  sorted (b_members st) = true ->
  (order None None st).1 ≡ₚ (b_members st).*1
  /\ (exists us rs, (order None None st).1 = us ++ rs /\ us ≡ₚ usable_eps (b_members st))
  /\ (bt_contains target (b_members st) = true ->
      (order (Some target) None st).1 ≡ₚ (b_members st).*1
      /\ head (order (Some target) None st).1 = Some target)
  /\ (dial_order lost st).1 ≡ₚ (b_members st).*1
  /\ (bt_contains lost (b_members st) = true -> (1 < length (b_members st))%nat ->
      last (dial_order lost st).1 = Some lost).
Proof.
  intros Hs.
  assert (Hperm : forall first,
    (match first with Some f => [f] | None => [] end)
    ++ (List.filter is_usable (List.filter (fun em => negb (bool_decide (Some em.1 = first))) (b_members st))).*1
    ++ (List.filter (fun em => negb (is_usable em)) (List.filter (fun em => negb (bool_decide (Some em.1 = first))) (b_members st))).*1
    ≡ₚ match first with
       | Some f => if bt_contains f (b_members st) then (b_members st).*1 else f :: (b_members st).*1
       | None => (b_members st).*1
       end).
  { intros first. rewrite <- (others_keys first) by done. apply Permutation_app_head.
    rewrite <- fmap_app. apply fmap_Permutation, filter_partition. }
  destruct (order_parts None None st) as (us & rs & Hus & Hrs & ->).
  destruct (order_parts (Some target) None st) as (us2 & rs2 & Hus2 & Hrs2 & ->).
  unfold dial_order. destruct (order_parts None (Some lost) st) as (us3 & rs3 & Hus3 & Hrs3 & ->).
  cbn zeta. split_and!.
  - rewrite Hus, Hrs. exact (Hperm None).
  - exists us, rs. split; [done|]. rewrite Hus. unfold usable_eps.
    match goal with |- context [List.filter ?q (b_members st)] =>
      assert (E : List.filter q (b_members st) = b_members st) end.
    { clear. induction (b_members st) as [|em ms IH]; [done|]. cbn [List.filter].
      rewrite bool_decide_false by done. cbn [negb]. f_equal. exact IH. }
    by rewrite E.
  - intros Ht. split; [|done]. rewrite Hus2, Hrs2. pose proof (Hperm (Some target)) as Hp.
    cbv beta iota in Hp. rewrite Ht in Hp. exact Hp.
  - rewrite move_last_Permutation, Hus3, Hrs3. exact (Hperm None).
  - intros Hl Hlen.
    assert (Hp3 : [] ++ us3 ++ rs3 ≡ₚ (b_members st).*1) by (rewrite Hus3, Hrs3; exact (Hperm None)).
    unfold move_last. rewrite Hp3 at 1. rewrite length_fmap.
    rewrite (proj2 (Nat.ltb_lt _ _)) by done.
    destruct (remove_first lost ([] ++ us3 ++ rs3)) as [l'|] eqn:E; [by rewrite last_snoc|].
    apply remove_first_None in E. exfalso. apply E. rewrite Hp3.
    unfold bt_contains in Hl. destruct (bt_get lost (b_members st)) as [m|] eqn:Hg; [|done].
    apply bt_get_elem in Hg. apply list_elem_of_fmap. by exists (lost, m).
Qed.

(** Whatever the policy, a picked member is one of the pool's usable
    members; with none usable, or under the random policy, the pick leaves the
    choice to the dial order. *)
Theorem pick_usable now affinity st ep st' :
  sorted (b_members st) = true -> 0 <= b_rng st < 2 ^ 64 ->
  pick opts now affinity st = (Some ep, st') ->
  exists m, bt_get ep (b_members st) = Some m /\ usable m = true.
Proof.
  intros Hs Hr. unfold pick. destruct (pick_affinity opts now affinity st) as [sticky st1] eqn:Ea.
  assert (Hst : b_members st1 = b_members st /\ b_rng st1 = b_rng st
    /\ forall ep, sticky = Some ep -> exists m, bt_get ep (b_members st) = Some m /\ usable m = true).
  { unfold pick_affinity in Ea. destruct (read_your_writes opts =? 0); [by injection Ea as <- <-|].
    destruct (b_affinity st !! affinity) as [[e until]|]; [|by injection Ea as <- <-].
    destruct (bt_get e (b_members st)) as [m|] eqn:Hm; [|by injection Ea as <- <-].
    destruct (now <? until); [|by injection Ea as <- <-]. injection Ea as <- <-.
    split_and!; [done..|]. intros ep0. destruct (usable m) eqn:Hu; [|done]. intros [= <-]. eauto. }
  destruct Hst as (Hms & Hrng & Hsticky).
  destruct sticky as [e|]; [intros [= -> _]; by apply Hsticky|].
  assert (Hnth : forall i, (i < length (usable_eps (b_members st)))%nat ->
    exists m, bt_get (nth_ep (usable_eps (b_members st)) i) (b_members st) = Some m /\ usable m = true).
  { intros i Hi. unfold nth_ep. destruct (lookup_lt_is_Some_2 _ _ Hi) as [e He]. rewrite He. cbn.
    apply list_elem_of_lookup_2 in He. unfold usable_eps in He.
    apply list_elem_of_fmap in He as ([k m] & -> & Hin). apply list_elem_of_In, filter_In in Hin as [Hin Hu].
    exists m. split; [|done]. apply bt_elem_get; [done|by apply list_elem_of_In]. }
  case_decide; [done|]. rewrite Hms, Hrng. set (n := length _) in *.
  destruct (Nat.eqb_spec n 0) as [|Hn]; [done|]. case_decide.
  - intros [= <- _]. apply Hnth.
    pose proof (Z.mod_pos_bound (wrap 64 (b_rr st1 + 1)) (Z.of_nat n)). lia.
  - destruct (Nat.eqb_spec n 1); [intros [= <- _]; apply Hnth; lia|].
    pose proof (below_lt n (b_rng st) ltac:(lia) Hr) as Hi.
    pose proof (next_u64_range (b_rng st) Hr) as Hr2.
    destruct (below n (b_rng st)) as [i rng1] eqn:E1. cbn [fst] in Hi.
    assert (rng1 = next_u64 (b_rng st)) as -> by (unfold below in E1; by injection E1 as _ <-).
    pose proof (below_lt (n - 1) (next_u64 (b_rng st)) ltac:(lia) Hr2) as Hj.
    destruct (below (n - 1) (next_u64 (b_rng st))) as [j rng2]. cbn [fst] in Hj.
    intros [= <- _]. destruct (f64_le _ _); apply Hnth; [lia|].
    destruct (i <=? j)%nat; lia.
Qed.

(** Read-your-writes: after a write through a member, checkouts with the
    same affinity key go to that member until the window ends, as long as it
    is usable. *)
Theorem reads_follow_writes affinity ep t now m st :
  read_your_writes opts <> 0 -> bt_get ep (b_members st) = Some m -> usable m = true ->
  now < t + read_your_writes opts ->
  (pick opts now affinity (wrote opts t affinity ep st)).1 = Some ep.
Proof.
  intros Hr Hm Hu Hnow. unfold pick, pick_affinity, wrote. cbn [b_affinity b_members with_affinity].
  rewrite (proj2 (Z.eqb_neq _ _)) by done. rewrite lookup_insert_eq, Hm.
  rewrite (proj2 (Z.ltb_lt _ _)) by done. by rewrite Hu.
Qed.

(** [n] checkouts under round robin, one after another. *)
Fixpoint picks (now : Z) (n : nat) (st : BalancerState) : list (option bytes) :=
  match n with
  | O => []
  | S n => let '(ep, st) := pick opts now None st in ep :: picks now n st
  end.

Lemma picks_in_order now n st i :
  let eps := usable_eps (b_members st) in
  load_balancing opts = RoundRobin -> read_your_writes opts = 0 ->
  (i < length eps)%nat -> Z.of_nat (length eps) < 2 ^ 64 ->
  Z.to_nat (wrap 64 (b_rr st + 1) mod Z.of_nat (length eps)) = i ->
  picks now n st = map (fun j => eps !! ((i + j) mod length eps)%nat) (seq 0 n).
Proof.
  intros eps Hlb Hryw Hi Hmax Hrr. unfold eps in *. clear eps. revert st i Hi Hmax Hrr.
  induction n as [|n IH]; intros st i Hi Hmax Hrr; [done|]. cbn [picks].
  unfold pick, pick_affinity. rewrite Hryw. cbn [Z.eqb]. rewrite Hlb. cbn [decide].
  rewrite (decide_False (P := RoundRobin = Random)) by done.
  set (eps := usable_eps (b_members st)) in *. rewrite (proj2 (Nat.eqb_neq _ 0)) by lia.
  rewrite decide_True by done. rewrite Hrr. cbn [seq map]. f_equal.
  - rewrite Nat.add_0_r, Nat.mod_small by done. unfold nth_ep.
    destruct (lookup_lt_is_Some_2 _ _ Hi) as [e He]. by rewrite He.
  - rewrite (IH (with_rr (wrap 64 (b_rr st + 1) mod Z.of_nat (length eps)) st) ((i + 1) mod length eps)%nat);
      change (usable_eps (b_members (with_rr _ st))) with eps; [|by apply Nat.mod_upper_bound; lia|done|].
    + rewrite <- seq_shift, map_map. apply map_ext. intros j. f_equal.
      rewrite Nat.Div0.add_mod_idemp_l. f_equal. lia.
    + cbn [b_rr with_rr]. pose proof (Z.mod_pos_bound (wrap 64 (b_rr st + 1)) (Z.of_nat (length eps)) ltac:(lia)) as Hb.
      assert (E : wrap 64 (b_rr st + 1) mod Z.of_nat (length eps) = Z.of_nat i) by lia.
      rewrite E. unfold wrap. rewrite (Z.mod_small _ (2 ^ 64)) by lia.
      replace (Z.of_nat i + 1) with (Z.of_nat (i + 1)) by lia. by rewrite <- Nat2Z.inj_mod, Nat2Z.id.
Qed.

(** Counting once round a list from [k]. *)
Lemma rotation {A} (l : list A) k :
  (k < length l)%nat ->
  map (fun j => l !! ((k + j) mod length l)%nat) (seq 0 (length l)) = map Some (drop k l ++ take k l).
Proof.
  intros Hk. apply list_eq. intros j. rewrite !list_lookup_fmap. destruct (decide (j < length l)%nat) as [Hj|Hj].
  - rewrite lookup_seq_lt by done. cbn. destruct (decide (j < length l - k)%nat) as [Hjs|Hjs].
    + rewrite lookup_app_l by (rewrite length_drop; lia). rewrite lookup_drop, Nat.mod_small by lia.
      destruct (lookup_lt_is_Some_2 l (k + j) ltac:(lia)) as [e He]. by rewrite He.
    + rewrite lookup_app_r by (rewrite length_drop; lia). rewrite length_drop, lookup_take_lt by lia.
      replace ((k + j) mod length l)%nat with (j - (length l - k))%nat by (apply (Nat.mod_unique _ _ 1); lia).
      destruct (lookup_lt_is_Some_2 l (j - (length l - k)) ltac:(lia)) as [e He]. by rewrite He.
  - rewrite lookup_seq_ge by lia. cbn. symmetry. apply fmap_None, lookup_ge_None.
    rewrite length_app, length_drop, length_take. lia.
Qed.

(** C31: round robin is fair: as many checkouts as there are usable members
    reach each of them exactly once, in endpoint order from where the pool
    stands (a new pool, whose position is [usize::MAX], starts at the first). *)
Theorem round_robin_fair now st :
  let eps := usable_eps (b_members st) in
  load_balancing opts = RoundRobin -> read_your_writes opts = 0 ->
  (0 < length eps)%nat -> Z.of_nat (length eps) < 2 ^ 64 ->
  exists k, picks now (length eps) st = map Some (drop k eps ++ take k eps)
            /\ (b_rr st = 2 ^ 64 - 1 -> k = 0%nat).
Proof.
  intros eps Hlb Hryw Hn Hmax. set (k := Z.to_nat (wrap 64 (b_rr st + 1) mod Z.of_nat (length eps))).
  assert (Hk : (k < length eps)%nat).
  { unfold k. pose proof (Z.mod_pos_bound (wrap 64 (b_rr st + 1)) (Z.of_nat (length eps))). lia. }
  exists k. split; [by rewrite (picks_in_order now (length eps) st k), rotation|].
  intros E. unfold k. rewrite E. by rewrite Z.mod_0_l by lia.
Qed.

End props.

(** ** Idle connections *)

Section idle.
Context (opts : PoolOptions) (self : Z).
Implicit Types (st : BalancerState).

Lemma scan_idle_spec ms idle target idxs stale found stale' :
  (forall i, i ∈ idxs -> (i < length idle)%nat) ->
  (forall i, i ∈ stale -> exists c, idle !! i = Some c /\ idle_usable ms c = false) ->
  scan_idle ms idle target idxs stale = (found, stale') ->
  (forall i, i ∈ stale' -> exists c, idle !! i = Some c /\ idle_usable ms c = false)
  /\ match found with
     | Some i => exists c, idle !! i = Some c /\ idle_usable ms c = true
                           /\ (forall t, target = Some t -> idle_ep c = t)
     | None => forall i c, i ∈ idxs -> idle !! i = Some c ->
                 if idle_usable ms c then exists t, target = Some t /\ idle_ep c <> t else i ∈ stale'
     end
  /\ (forall i, i ∈ stale -> i ∈ stale').
Proof.
  revert stale. induction idxs as [|i idxs IH]; intros stale Hidx Hst H; cbn in H.
  - injection H as <- <-. split_and!; [done| |done]. by intros i c ?%elem_of_nil.
  - destruct (lookup_lt_is_Some_2 idle i) as [c Hc]; [apply Hidx; by left|]. rewrite Hc in H.
    assert (Hidx' : forall i, i ∈ idxs -> (i < length idle)%nat) by (intros; apply Hidx; by right).
    destruct (idle_usable ms c) eqn:Hu.
    + destruct target as [t|].
      * destruct (bool_decide_reflect (t = idle_ep c)) as [->|Hne].
        -- injection H as <- <-. split_and!; [done| |done]. exists c. split_and!; [done..|].
           by intros ? [= <-].
        -- destruct (IH stale Hidx' Hst H) as (H1 & H2 & H3). split_and!; [done| |done].
           destruct found; [done|]. intros i' c' Hin Hc'. apply elem_of_cons in Hin as [->|Hin].
           ++ rewrite Hc in Hc'. injection Hc' as <-. rewrite Hu. exists t. split; [done|congruence].
           ++ by apply H2.
      * injection H as <- <-. split_and!; [done| |done]. by exists c.
    + destruct (IH (stale ++ [i]) Hidx') as (H1 & H2 & H3); [|exact H|].
      { intros j [Hj|Hj]%elem_of_app; [by apply Hst|].
        apply list_elem_of_singleton in Hj as ->. by exists c. }
      split_and!; [done| |].
      * destruct found; [done|]. intros i' c' Hin Hc'. apply elem_of_cons in Hin as [->|Hin].
        -- rewrite Hc in Hc'. injection Hc' as <-. rewrite Hu. apply H3, elem_of_app. right. by left.
        -- by apply H2.
      * intros j Hj. apply H3, elem_of_app. by left.
Qed.

Lemma idle_indices_elem n i : i ∈ idle_indices opts n <-> (i < n)%nat.
Proof.
  unfold idle_indices. destruct (idle_order opts).
  - rewrite list_elem_of_In, <- in_rev, in_seq. lia.
  - rewrite list_elem_of_In, in_seq. lia.
Qed.

Lemma zip_snd {A} (l : list A) k : (zip (seq k (length l)) l).*2 = l.
Proof. revert k. induction l as [|x l IH]; intros k; cbn; [done|]. f_equal. apply IH. Qed.

Lemma filter_number {A} (l : list A) i k c :
  l !! i = Some c ->
  List.filter (fun ic => bool_decide (Some (k + i)%nat = Some ic.1)) (zip (seq k (length l)) l)
  = [((k + i)%nat, c)].
Proof.
  revert i k. induction l as [|x l IH]; intros i k; [done|].
  cbn [length seq zip zip_with List.filter fst].
  assert (Hlater : forall (l : list A) j m, (j < m)%nat ->
    List.filter (fun ic => bool_decide (Some j = Some ic.1)) (zip (seq m (length l)) l) = []).
  { clear. induction l as [|x l IH]; intros j m Hj; [done|]. cbn [length seq zip zip_with List.filter fst].
    rewrite bool_decide_false by (intros [=]; lia). apply IH. lia. }
  destruct i as [|i]; cbn [lookup list_lookup].
  - intros [= ->]. rewrite bool_decide_true by (f_equal; lia). f_equal; [f_equal; lia|].
    apply Hlater. lia.
  - intros Hi. rewrite bool_decide_false by (intros [=]; lia).
    replace (k + S i)%nat with (S k + i)%nat by lia. by apply IH.
Qed.

Lemma filter_none {A} (l : list (nat * A)) :
  List.filter (fun ic => bool_decide (None = Some ic.1)) l = [].
Proof. induction l as [|ic l IH]; cbn [List.filter]; [done|]. by rewrite bool_decide_false. Qed.

Lemma filter_three {A} (p q : A -> bool) (l : list A) :
  List.filter p l ++ List.filter (fun x => negb (p x) && q x) l
  ++ List.filter (fun x => negb (p x) && negb (q x)) l ≡ₚ l.
Proof.
  induction l as [|x l IH]; [done|]. cbn. destruct (p x), (q x); cbn.
  - by rewrite IH.
  - by rewrite IH.
  - rewrite <- Permutation_middle. by rewrite IH.
  - rewrite app_assoc, <- Permutation_middle, <- app_assoc. by rewrite IH.
Qed.

Lemma take_idle_parts target st picked dropped st' :
  take_idle opts target st = (picked, dropped, st') ->
  b_idle st ≡ₚ (match picked with Some c => [c] | None => [] end) ++ dropped ++ b_idle st'
  /\ st' = with_idle (b_idle st') st
  /\ (forall c, picked = Some c -> idle_usable (b_members st) c = true
                                 /\ (forall t, target = Some t -> idle_ep c = t))
  /\ (picked = None -> forall c, c ∈ b_idle st' -> exists t, target = Some t /\ idle_ep c <> t).
Proof.
  unfold take_idle. destruct (scan_idle _ _ _ _ _) as [found stale] eqn:E.
  destruct (scan_idle_spec (b_members st) (b_idle st) target
    (idle_indices opts (length (b_idle st))) [] found stale) as (Hstale & Hfound & _); [| |exact E|].
  { intros i Hi. by apply idle_indices_elem in Hi. }
  { by intros i ?%elem_of_nil. }
  set (numbered := zip (seq 0 (length (b_idle st))) (b_idle st)).
  intros [= <- <- <-]. split_and!.
  - cbn [b_idle with_idle]. rewrite <- (zip_snd (b_idle st) 0) at 1. fold numbered.
    rewrite <- (filter_three (fun ic => bool_decide (found = Some ic.1))
                  (fun ic => bool_decide (ic.1 ∈ stale)) numbered) at 1.
    rewrite !fmap_app. apply Permutation_app_tail. destruct found as [i|].
    + destruct Hfound as (c & Hc & _). cbn [mbind option_bind]. rewrite Hc.
      unfold numbered.
      pose proof (filter_number (b_idle st) i 0 c Hc) as Hf. cbn [Nat.add] in Hf. rewrite Hf. done.
    + cbn [mbind option_bind]. by rewrite filter_none.
  - done.
  - intros c Hc. destruct found as [i|]; [|done]. cbn [mbind option_bind] in Hc.
    destruct Hfound as (c' & Hc' & Hu & Ht). rewrite Hc in Hc'. injection Hc' as <-. done.
  - intros Hnone c Hc. cbn [b_idle with_idle] in Hc. destruct found as [i|].
    { destruct Hfound as (c' & Hc' & _). cbn in Hnone. congruence. }
    apply list_elem_of_fmap in Hc as ([i c'] & -> & Hin). apply list_elem_of_In, filter_In in Hin.
    destruct Hin as [Hin Hp]. apply andb_true_iff in Hp as [_ Hp]. cbn [fst snd] in *.
    assert (Hi : b_idle st !! i = Some c').
    { clear - Hin. unfold numbered in Hin. assert (Hgen : forall (l : list Client) k,
        In (i, c') (zip (seq k (length l)) l) -> exists j, i = (k + j)%nat /\ l !! j = Some c').
      { induction l as [|x l IH]; intros k; cbn; [done|]. intros [[= <- <-]|Hl].
        - exists 0%nat. split; [lia|done].
        - destruct (IH _ Hl) as (j & -> & ?). exists (S j). split; [lia|done]. }
      by destruct (Hgen _ _ Hin) as (j & -> & ?). }
    specialize (Hfound i c' ltac:(apply idle_indices_elem; by eapply lookup_lt_Some) Hi).
    destruct (idle_usable (b_members st) c'); [done|].
    by rewrite bool_decide_true in Hp.
Qed.

(** Taking an idle connection loses none: the connections idle before are
    the one handed out, the stale ones to close, and those still idle; the one
    handed out reaches a usable member (the chosen one, when one was chosen),
    and when none is handed out no idle connection would have done. *)
Theorem take_idle_partition target st picked dropped st' :
  take_idle opts target st = (picked, dropped, st') ->
  b_idle st ≡ₚ (match picked with Some c => [c] | None => [] end) ++ dropped ++ b_idle st'
  /\ b_members st' = b_members st
  /\ match picked with
     | Some c => idle_usable (b_members st) c = true /\ (forall t, target = Some t -> idle_ep c = t)
     | None => forall c, c ∈ b_idle st' -> exists t, target = Some t /\ idle_ep c <> t
     end.
Proof.
  intros H. destruct (take_idle_parts _ _ _ _ _ H) as (Hp & -> & Hc & Hn).
  split_and!; [done..|]. destruct picked; auto.
Qed.

End idle.

(** ** Witnesses: a pool of three members, one of them ejected *)

Definition A : bytes := str "a:7000".
Definition B : bytes := str "b:7000".
Definition C : bytes := str "c:7000".

Definition sample_options : PoolOptions := {|
  maxsize := 2; load_balancing := RoundRobin; idle_order := Lifo; discover := true;
  refresh_interval := 60 * SEC; read_your_writes := 0; eject_errors := 1;
  eject_latency_factor := f64_of_int 3; eject_latency_floor := 50 * MILLI;
  eject_backoff := 5 * SEC; eject_backoff_max := 60 * SEC |}.

Definition sticky_options : PoolOptions := {|
  maxsize := 2; load_balancing := RoundRobin; idle_order := Lifo; discover := true;
  refresh_interval := 60 * SEC; read_your_writes := SEC; eject_errors := 1;
  eject_latency_factor := f64_of_int 3; eject_latency_floor := 50 * MILLI;
  eject_backoff := 5 * SEC; eject_backoff_max := 60 * SEC |}.

Definition sample_ejected : Member := set_ejection (Some (5 * SEC)) 1 None (member_new true).

Definition sample_members : list (bytes * Member) :=
  [(A, member_new true); (B, sample_ejected); (C, member_new true)].

Definition idle_to (id : Z) (ep : bytes) : Client :=
  {| c_id := id; c_link := Some (set_member ep (link_new 1)) |}.

Definition sample_state : BalancerState := {|
  b_members := sample_members; b_idle := [idle_to 1 A; idle_to 2 B]; b_rr := 2 ^ 64 - 1;
  b_affinity := ∅; b_discovery_off := false; b_next_refresh := 0; b_closed := false;
  b_maintainer := false; b_rng := 88172645463325253 |}.

Example half_second : try_from_secs_f64 (f64_div (f64_of_int 1) (f64_of_int 2)) = Some (500 * MILLI).
Proof. by vm_compute. Qed.
Example no_negative : try_from_secs_f64 (f64_of_int (-1)) = None.
Proof. by vm_compute. Qed.

Lemma never_ejects_last_witness :
  some_usable (b_members (failed sample_options true 0 A sample_state)).
Proof.
  apply (never_ejects_last sample_options true 0 (link_new 1) A 0 sample_state); [by vm_compute|].
  exists A, (member_new true). by vm_compute.
Defined.

Lemma ejected_left_alone_witness :
  (fun m => (m_ejected_until m, m_ejections m))
    <$> bt_get B (b_members (failed sample_options true 0 B sample_state)) = Some (Some (5 * SEC), 1).
Proof.
  apply (ejected_left_alone sample_options true 0 (link_new 1) B 0 sample_state sample_ejected);
    [by vm_compute|done].
Defined.

Lemma backoff_doubles_witness : backoff_for sample_options 3 = 20 * SEC.
Proof.
  destruct (backoff_doubles sample_options 3) as (_ & H & _); [by vm_compute|by vm_compute|].
  rewrite H by lia. by vm_compute.
Defined.

Lemma order_complete_witness : last (dial_order C sample_state).1 = Some C.
Proof.
  destruct (order_complete sample_state A C) as (_ & _ & _ & _ & H); [by vm_compute|].
  apply H; vm_compute; [done|lia].
Defined.

Lemma pick_usable_witness :
  exists m, bt_get A (b_members sample_state) = Some m /\ usable m = true.
Proof.
  apply (pick_usable sample_options 0 None sample_state A (pick sample_options 0 None sample_state).2);
    by vm_compute.
Defined.

Lemma reads_follow_writes_witness :
  (pick sticky_options 10 None (wrote sticky_options 0 None C sample_state)).1 = Some C.
Proof. by apply (reads_follow_writes sticky_options None C 0 10 (member_new true)). Defined.

Lemma round_robin_fair_witness :
  picks sample_options 0 2 sample_state = [Some A; Some C].
Proof.
  destruct (round_robin_fair sample_options 0 sample_state) as (k & H & Hk); [done|done|by vm_compute; lia|by vm_compute|].
  rewrite (Hk eq_refl) in H. exact H.
Defined.

Lemma take_idle_partition_witness :
  b_idle sample_state ≡ₚ [idle_to 1 A] ++ [idle_to 2 B] ++ [].
Proof.
  apply (take_idle_partition sample_options (Some A) sample_state (Some (idle_to 1 A)) [idle_to 2 B]
           (with_idle [] sample_state)).
  by vm_compute.
Defined.
