(* ===== verification/Discovery.v ===== *)
(** * Member discovery

    What [apply_listing] of [src/lib.rs] makes of the members when the answer
    to [SHOW ENDPOINTS] is folded in: who stays, under which state, and what a
    seed can lose. *)
From stdpp Require Import gmap.
From S2P Require Import Prelude Bytes Text BTree Float64 Decimal Value Rng Balancer.
#[local] Open Scope Z_scope.

Section listing.
Implicit Types (ms : list (bytes * Member)).

Lemma bt_get_omap {V W} (g : bytes -> V -> option W) k (m : list (bytes * V)) :
  sorted m = true ->
  bt_get k (omap (fun kv => (fun w => (kv.1, w)) <$> g kv.1 kv.2) m) = bt_get k m ≫= g k.
Proof.
  induction m as [|[k1 v1] m IH]; intros Hs; [done|]. pose proof (sorted_tail _ _ _ Hs) as Hs'.
  apply sorted_cons in Hs. cbn [omap list_omap fst snd bt_get].
  destruct (g k1 v1) as [w|] eqn:Eg; cbn [fmap option_fmap option_map bt_get].
  - destruct (kcmp_cases k k1) as [[-> ->]|[[_ ->]|[_ ->]]]; [by cbn|by apply IH..].
  - destruct (kcmp_cases k k1) as [[-> ->]|[[_ ->]|[_ ->]]]; [|by apply IH..].
    cbn. rewrite Eg. change (list_omap _ _ _ m) with (omap (fun kv => (fun w => (kv.1, w)) <$> g kv.1 kv.2) m).
    rewrite IH by done. by rewrite bt_get_above.
Qed.

Lemma sorted_above_omap {V W} (g : bytes -> V -> option W) lo (m : list (bytes * V)) :
  sorted_above lo m = true ->
  sorted_above lo (omap (fun kv => (fun w => (kv.1, w)) <$> g kv.1 kv.2) m) = true.
Proof.
  revert lo. induction m as [|[k v] m IH]; intros lo; [done|].
  rewrite sorted_above_cons. intros [Hlo Hm]. cbn [omap list_omap fst snd].
  destruct (g k v) as [w|]; cbn [fmap option_fmap option_map].
  - apply sorted_above_cons. split; [done|]. by apply IH.
  - apply IH. destruct lo as [k0|]; [|by eapply sorted_above_None].
    eapply sorted_above_weaken; [by apply Hlo|done].
Qed.

(** The members once every row is read (some learn their name). *)
Definition learned (dialed : bytes) (rows : list (list Value)) ms :=
  fold_left (apply_row dialed) rows ([], ms).

Lemma apply_row_members dialed acc row :
  (apply_row dialed acc row).2 = acc.2
  \/ exists name, (apply_row dialed acc row).2 = bt_update (set_canonical (Some name)) dialed acc.2.
Proof.
  destruct acc as [l ms]. unfold apply_row.
  destruct (row !! 0%nat) as [[]|]; try (by left). destruct (row !! 1%nat) as [[]|]; try (by left).
  destruct (row !! 2%nat) as [[| [] | | | | | | | | |]|]; cbn; eauto.
Qed.

(** A property of the members that discovery's own updates keep. *)
Section keeps.
Context (P : list (bytes * Member) -> Prop).
Hypothesis P_canonical : forall name ep ms, P ms -> P (bt_update (set_canonical (Some name)) ep ms).
Hypothesis P_retain : forall by_name ms, P ms -> P (bt_retain (stands by_name) ms).
Hypothesis P_new : forall ep ms, P ms -> bt_get ep ms = None ->
  P (bt_insert ep (set_canonical (Some ep) (member_new false)) ms).
Hypothesis P_relist : forall state ep ms, P ms -> P (bt_update (relist state) ep ms).
Hypothesis P_final : forall seen ms, P ms -> P (retain_listed seen ms).

Lemma learned_keeps dialed rows ms : P ms -> P (learned dialed rows ms).2.
Proof.
  unfold learned. change ms with (([] : list (bytes * MemberState)), ms).2 at 1.
  generalize (([] : list (bytes * MemberState)), ms). induction rows as [|r rows IH]; intros acc H; [done|].
  cbn. apply IH. destruct (apply_row_members dialed acc r) as [->|[name ->]]; auto.
Qed.

Lemma apply_listed_members by_name acc es :
  P acc.1 -> P (apply_listed by_name acc es).1.
Proof.
  destruct acc as [ms seen], es as [endpoint state]. cbn [fst]. intros H. unfold apply_listed.
  assert (Hrel : forall ep ms (seen : gset bytes), P ms ->
    P ((match bt_get ep ms with
       | Some m => (bt_insert ep (relist state m) ms, {[ep]} ∪ seen)
       | None => (ms, seen)
       end : list (bytes * Member) * gset bytes).1)).
  { intros ep ms0 seen0 H0. specialize (P_relist state ep ms0 H0). unfold bt_update in P_relist.
    by destruct (bt_get ep ms0). }
  destruct (by_name !! endpoint) as [ep|]; [by apply Hrel|]. apply Hrel.
  specialize (P_canonical endpoint endpoint ms H). unfold bt_update in P_canonical.
  destruct (bt_get endpoint ms) as [m|] eqn:E; [done|]. by apply P_new.
Qed.

Lemma apply_listing_keeps dialed rows ms : P ms -> P (apply_listing dialed rows ms).
Proof.
  intros H. unfold apply_listing. pose proof (learned_keeps dialed rows ms H) as H1. unfold learned in H1.
  destruct (fold_left (apply_row dialed) rows ([], ms)) as [listed ms1]. cbn [snd] in H1.
  set (by_name := by_name_of ms1).
  assert (Hfold : forall l acc, P acc.1 -> P (fold_left (apply_listed by_name) l acc).1).
  { induction l as [|es l IH]; intros acc Hacc; [done|]. cbn. by apply IH, apply_listed_members. }
  specialize (Hfold listed (bt_retain (stands by_name) ms1, ∅) (P_retain _ _ H1)).
  destruct (fold_left _ _ _) as [ms2 seen]. by apply P_final.
Qed.
End keeps.

Lemma relist_fields state m :
  m_seed (relist state m) = m_seed m /\ m_in_use (relist state m) = m_in_use m
  /\ m_canonical (relist state m) = m_canonical m.
Proof. unfold relist. by destruct (_ && _). Qed.

Lemma retain_listed_get seen ms ep :
  sorted ms = true -> bt_get ep (retain_listed seen ms) = bt_get ep ms ≫= keep_listed seen ep.
Proof. apply bt_get_omap. Qed.

Lemma keep_listed_fields seen ep m m' :
  keep_listed seen ep m = Some m' ->
  m_seed m' = m_seed m /\ m_in_use m' = m_in_use m /\ m_canonical m' = m_canonical m.
Proof. unfold keep_listed. repeat case_match; intros [= <-]; done. Qed.

Lemma apply_listing_sorted dialed rows ms :
  sorted ms = true -> sorted (apply_listing dialed rows ms) = true.
Proof.
  apply (apply_listing_keeps (fun ms => sorted ms = true)).
  - intros. by apply sorted_update.
  - intros. by apply sorted_retain.
  - intros. by apply sorted_insert.
  - intros. by apply sorted_update.
  - intros seen ms0. apply sorted_above_omap.
Qed.

(** *** Names *)

Lemma by_name_step_get (b : gmap bytes bytes) em name ep :
  by_name_step b em !! name = Some ep ->
  b !! name = Some ep \/ (ep = em.1 /\ m_canonical em.2 = Some name).
Proof.
  unfold by_name_step. destruct (m_canonical em.2) as [n|]; [|by left].
  destruct (_ || _); [|by left]. destruct (decide (name = n)) as [->|Hne].
  - rewrite lookup_insert_eq. intros [= <-]. by right.
  - rewrite lookup_insert_ne by done. by left.
Qed.

Lemma by_name_of_canonical ms name ep :
  by_name_of ms !! name = Some ep -> exists m, (ep, m) ∈ ms /\ m_canonical m = Some name.
Proof.
  unfold by_name_of. assert (H : forall ms (b : gmap bytes bytes), fold_left by_name_step ms b !! name = Some ep ->
    b !! name = Some ep \/ exists m, (ep, m) ∈ ms /\ m_canonical m = Some name).
  { clear. induction ms as [|em ms IH]; intros b H; [by left|]. cbn in H.
    apply IH in H as [H|(m & Hin & Hm)].
    - apply by_name_step_get in H as [H|[-> Hm]]; [by left|right]. exists em.2. split; [|done].
      rewrite <- surjective_pairing. by left.
    - right. exists m. split; [by right|done]. }
  intros Hb. apply H in Hb as [Hb|Hb]; [by rewrite lookup_empty in Hb|done].
Qed.

(** A seed no other seed shares its name with stands for that name. *)
Lemma by_name_of_seed ms ep m name :
  (ep, m) ∈ ms -> m_seed m = true -> m_canonical m = Some name ->
  (forall ep' m', (ep', m') ∈ ms -> m_seed m' = true -> m_canonical m' = Some name -> ep' = ep) ->
  by_name_of ms !! name = Some ep.
Proof.
  intros Hin Hseed Hname Huniq. apply list_elem_of_split in Hin as (l1 & l2 & ->).
  unfold by_name_of. rewrite fold_left_app. cbn [fold_left].
  assert (H0 : by_name_step (fold_left by_name_step l1 ∅) (ep, m) !! name = Some ep).
  { unfold by_name_step. cbn. rewrite Hname, Hseed. cbn. by rewrite lookup_insert_eq. }
  revert H0. generalize (by_name_step (fold_left by_name_step l1 ∅) (ep, m)) as b.
  assert (Hu : forall ep' m', (ep', m') ∈ l2 -> m_seed m' = true -> m_canonical m' = Some name -> ep' = ep).
  { intros ep' m' Hin. apply Huniq. rewrite elem_of_app, elem_of_cons. by right; right. }
  clear - Hu. induction l2 as [|[e m2] l2 IH]; intros b Hb; [done|]. cbn [fold_left]. apply IH.
  { intros ep' m' Hin. apply Hu. by right. }
  unfold by_name_step. cbn. destruct (m_canonical m2) as [n|] eqn:Hn; [|done].
  destruct (decide (name = n)) as [->|Hne].
  - destruct (m_seed m2) eqn:Hs2; cbn.
    + rewrite lookup_insert_eq. f_equal. eapply Hu; [by left|done|done].
    + by rewrite Hb.
  - destruct (_ || _); [by rewrite lookup_insert_ne|done].
Qed.

Lemma apply_listed_keeps_seed by_name acc es ep m :
  bt_get ep acc.1 = Some m -> m_seed m = true ->
  exists m', bt_get ep (apply_listed by_name acc es).1 = Some m' /\ m_seed m' = true.
Proof.
  destruct acc as [ms seen], es as [endpoint state]. cbn [fst]. intros Hm Hs. unfold apply_listed.
  assert (Hrel : forall e ms (seen : gset bytes), (exists m, bt_get ep ms = Some m /\ m_seed m = true) ->
    exists m', bt_get ep (match bt_get e ms with
       | Some m => (bt_insert e (relist state m) ms, {[e]} ∪ seen)
       | None => (ms, seen)
       end : list (bytes * Member) * gset bytes).1 = Some m' /\ m_seed m' = true).
  { intros e ms0 seen0 (m0 & Hm0 & Hs0). destruct (bt_get e ms0) as [me|] eqn:E; [|by exists m0].
    cbn. destruct (decide (ep = e)) as [->|Hne].
    - rewrite bt_get_insert_eq. eexists. split; [done|]. rewrite Hm0 in E. injection E as <-.
      destruct (relist_fields state m0) as (-> & _). done.
    - rewrite bt_get_insert_ne by done. by exists m0. }
  destruct (by_name !! endpoint) as [e|]; apply Hrel; [by exists m|].
  destruct (decide (ep = endpoint)) as [->|Hne].
  - rewrite bt_get_insert_eq, Hm. eexists. by split.
  - rewrite bt_get_insert_ne by done. by exists m.
Qed.


(** *** What a listing leaves *)

Definition names (listed : list (bytes * MemberState)) : list bytes := listed.*1.

Lemma listed_put_names endpoint state listed :
  names (listed_put endpoint state listed) =
  if bool_decide (endpoint ∈ names listed) then names listed else names listed ++ [endpoint].
Proof.
  induction listed as [|[e s] l IH]; [done|]. cbn [listed_put].
  change (names ((e, s) :: l)) with (e :: names l).
  destruct (bool_decide_reflect (e = endpoint)) as [->|E].
  - change (names ((endpoint, state) :: l)) with (endpoint :: names l).
    rewrite bool_decide_true by (apply elem_of_cons; by left). done.
  - change (names ((e, s) :: listed_put endpoint state l)) with (e :: names (listed_put endpoint state l)).
    rewrite IH, (bool_decide_ext (endpoint ∈ e :: names l) (endpoint ∈ names l)).
    + by case_bool_decide.
    + rewrite elem_of_cons. naive_solver.
Qed.

Lemma learned_names_NoDup dialed rows ms : NoDup (names (learned dialed rows ms).1).
Proof.
  unfold learned.
  assert (H : forall rows (acc : list (bytes * MemberState) * list (bytes * Member)),
    NoDup (names acc.1) -> NoDup (names (fold_left (apply_row dialed) rows acc).1)).
  { clear. induction rows as [|r rows IH]; intros acc H; [done|]. cbn. apply IH.
    destruct acc as [l ms]. unfold apply_row.
    destruct (r !! 0%nat) as [[]|]; try done. destruct (r !! 1%nat) as [[]|]; try done.
    cbn [fst] in *. rewrite listed_put_names. case_bool_decide; [done|].
    apply NoDup_app. split_and!; [done| |apply NoDup_singleton].
    by intros x Hx ->%list_elem_of_singleton. }
  apply H. apply NoDup_nil_2.
Qed.

(** Every member that has a name is the one its name stands for. *)
Lemma by_name_step_mono (b : gmap bytes bytes) em name :
  is_Some (b !! name) -> is_Some (by_name_step b em !! name).
Proof.
  unfold by_name_step. intros H. destruct (m_canonical em.2) as [n|]; [|done].
  destruct (_ || _); [|done]. destruct (decide (name = n)) as [->|];
    [by rewrite lookup_insert_eq|by rewrite lookup_insert_ne].
Qed.

Record applied (by_name : gmap bytes bytes) (acc : list (bytes * Member) * gset bytes)
    (done_ : list (bytes * MemberState)) : Prop := {
  ap_sorted : sorted acc.1 = true;
  ap_named : forall ep m n, bt_get ep acc.1 = Some m -> m_canonical m = Some n ->
    by_name !! n = Some ep \/ (n = ep /\ n ∈ names done_);
  ap_stands : forall n ep, by_name !! n = Some ep ->
    exists m, bt_get ep acc.1 = Some m /\ m_canonical m = Some n;
  ap_done : forall n s, (n, s) ∈ done_ ->
    exists ep m, ep ∈ acc.2 /\ bt_get ep acc.1 = Some m /\ m_canonical m = Some n /\ m_listed m = s;
  ap_seen : forall ep, ep ∈ acc.2 ->
    exists m n, bt_get ep acc.1 = Some m /\ m_canonical m = Some n /\ (n, m_listed m) ∈ done_;
}.

(** The endpoint a listed name is kept under. *)
Definition kept_under (by_name : gmap bytes bytes) (n : bytes) : bytes :=
  match by_name !! n with Some ep => ep | None => n end.

Lemma relist_listed state m : m_listed (relist state m) = state.
Proof. unfold relist. by destruct (_ && _). Qed.

(** One listed name: the member kept under it changes, the others do not. *)
Lemma apply_listed_get by_name acc n s done_ :
  applied by_name acc done_ ->
  let ep := kept_under by_name n in
  let acc' := apply_listed by_name acc (n, s) in
  acc'.2 = {[ep]} ∪ acc.2 /\ sorted acc'.1 = true
  /\ (exists m, bt_get ep acc'.1 = Some m /\ m_canonical m = Some n /\ m_listed m = s)
  /\ (forall e, e <> ep -> bt_get e acc'.1 = bt_get e acc.1).
Proof.
  intros H. destruct acc as [ms seen]. pose proof (ap_sorted _ _ _ H) as Hs. cbn [fst] in Hs.
  unfold apply_listed, kept_under. cbn [fst snd]. destruct (by_name !! n) as [ep|] eqn:Hb.
  - destruct (ap_stands _ _ _ H _ _ Hb) as (m & Hm & Hn). cbn [fst] in Hm. rewrite Hm. cbn [fst snd].
    split_and!; [done|by apply sorted_insert| |].
    + rewrite bt_get_insert_eq. eexists. split; [done|]. rewrite relist_listed.
      by destruct (relist_fields s m) as (_ & _ & ->).
    + intros e He. by apply bt_get_insert_ne.
  - rewrite bt_get_insert_eq. cbn [fst snd].
    split_and!; [done|by apply sorted_insert, sorted_insert| |].
    + rewrite bt_get_insert_eq. eexists. split; [done|]. rewrite relist_listed.
      by destruct (relist_fields s (set_canonical (Some n) (default (member_new false) (bt_get n ms))))
        as (_ & _ & ->).
    + intros e He. by rewrite !bt_get_insert_ne by done.
Qed.

(** Under the name's endpoint no other listed name is kept. *)
Lemma kept_under_fresh by_name acc done_ n m n' :
  applied by_name acc done_ -> n ∉ names done_ ->
  (by_name !! n = None -> forall n', by_name !! n' <> Some n) ->
  bt_get (kept_under by_name n) acc.1 = Some m -> m_canonical m = Some n' ->
  by_name !! n = Some (kept_under by_name n) /\ n' = n.
Proof.
  intros H Hn Hfree Hm Hn'. unfold kept_under in *. destruct (by_name !! n) as [ep|] eqn:Hb.
  - split; [done|]. destruct (ap_stands _ _ _ H _ _ Hb) as (m0 & Hm0 & Hc). congruence.
  - exfalso. destruct (ap_named _ _ _ H _ _ _ Hm Hn') as [Hb'|[-> Hin]]; [|done].
    by apply (Hfree eq_refl n').
Qed.

Lemma applied_step by_name acc n s done_ :
  applied by_name acc done_ -> n ∉ names done_ ->
  (by_name !! n = None -> forall n', by_name !! n' <> Some n) ->
  applied by_name (apply_listed by_name acc (n, s)) (done_ ++ [(n, s)]).
Proof.
  intros H Hn Hfree.
  pose proof (fun m n' => kept_under_fresh by_name acc done_ n m n' H Hn Hfree) as Hfresh.
  destruct (apply_listed_get by_name acc n s done_ H) as (Eseen & Hs' & (m0 & Hm0 & Hc0 & Hl0) & Hother).
  set (ep0 := kept_under by_name n) in *. set (acc' := apply_listed by_name acc (n, s)) in *.
  assert (Hnames : forall x, x ∈ names (done_ ++ [(n, s)]) <-> x ∈ names done_ \/ x = n).
  { intros x. unfold names. rewrite fmap_app, elem_of_app. cbn. by rewrite list_elem_of_singleton. }
  constructor; [done|..].
  - intros ep m n' Hm Hc. destruct (decide (ep = ep0)) as [->|Hne].
    + assert (n' = n) as -> by congruence. unfold ep0, kept_under.
      destruct (by_name !! n); [by left|]. right. split; [done|]. apply Hnames. by right.
    + rewrite Hother in Hm by done. destruct (ap_named _ _ _ H _ _ _ Hm Hc) as [?|[-> ?]]; [by left|right].
      split; [done|]. apply Hnames. by left.
  - intros n' ep Hb. destruct (decide (ep = ep0)) as [->|Hne].
    + exists m0. split; [done|]. destruct (ap_stands _ _ _ H _ _ Hb) as (m & Hm & Hc).
      destruct (Hfresh _ _ Hm Hc) as [_ ->]. done.
    + rewrite Hother by done. by apply (ap_stands _ _ _ H).
  - intros n' s' [Hd|Hd]%elem_of_app.
    + destruct (ap_done _ _ _ H _ _ Hd) as (ep & m & Hseen & Hm & Hc & Hl).
      exists ep, m. assert (ep <> ep0).
      { intros ->. destruct (Hfresh _ _ Hm Hc) as [_ ->]. apply Hn. apply list_elem_of_fmap. by exists (n, s'). }
      rewrite Eseen, Hother by done. split; [set_solver|done].
    + apply list_elem_of_singleton in Hd as [= -> ->]. exists ep0, m0. split; [rewrite Eseen; set_solver|done].
  - intros ep. rewrite Eseen. intros Hin. destruct (decide (ep = ep0)) as [->|Hne].
    + exists m0, n. split_and!; [done..|]. rewrite Hl0. apply elem_of_app. right. by apply list_elem_of_singleton.
    + rewrite Hother by done. destruct (ap_seen _ _ _ H ep) as (m & n' & Hm & Hc & Hd); [set_solver|].
      exists m, n'. split_and!; [done..|]. apply elem_of_app. by left.
Qed.

(** No member goes by a listed address while answering to another name. *)
Definition unaliased (listed : list (bytes * MemberState)) ms : Prop :=
  forall ep m n, (ep, m) ∈ ms -> m_canonical m = Some n -> n <> ep -> ep ∉ names listed.

Lemma applied_start ms :
  sorted ms = true ->
  applied (by_name_of ms) (bt_retain (stands (by_name_of ms)) ms, ∅) [].
Proof.
  intros Hs. constructor; cbn [fst snd].
  - by apply sorted_retain.
  - intros ep m n. rewrite bt_get_retain by done. destruct (bt_get ep ms) as [m0|]; [|done].
    destruct (stands _ ep m0) eqn:E; [|done]. intros [= ->] Hc. unfold stands in E. rewrite Hc in E.
    left. by apply bool_decide_eq_true in E.
  - intros n ep Hb. destruct (by_name_of_canonical _ _ _ Hb) as (m & Hin & Hc). exists m. split; [|done].
    rewrite bt_get_retain, (bt_elem_get ep m) by done. unfold stands. rewrite Hc.
    by rewrite bool_decide_true.
  - by intros n s ?%elem_of_nil.
  - intros ep. set_solver.
Qed.

Lemma applied_fold by_name listed acc done_ :
  applied by_name acc done_ -> NoDup (names (done_ ++ listed)) ->
  (forall n, n ∈ names listed -> by_name !! n = None -> forall n', by_name !! n' <> Some n) ->
  applied by_name (fold_left (apply_listed by_name) listed acc) (done_ ++ listed).
Proof.
  revert acc done_. induction listed as [|[n s] listed IH]; intros acc done_ H Hnd Hfree.
  { by rewrite app_nil_r. }
  cbn [fold_left]. rewrite cons_middle, app_assoc. apply IH.
  - apply applied_step; [done| |].
    + unfold names in Hnd. rewrite fmap_app in Hnd. apply NoDup_app in Hnd as (_ & Hd & _).
      intros Hin. apply (Hd n Hin). by left.
    + apply Hfree. by left.
  - by rewrite <- app_assoc.
  - intros n' Hin. apply Hfree. by right.
Qed.


(** A configured member survives discovery, unless another configured
    member turned out to answer to the same name. *)
Theorem listing_keeps_seeds dialed rows ms ep m :
  let named := (learned dialed rows ms).2 in
  sorted ms = true -> bt_get ep named = Some m -> m_seed m = true ->
  (forall ep' m' n, (ep', m') ∈ named -> m_seed m' = true ->
     m_canonical m = Some n -> m_canonical m' = Some n -> ep' = ep) ->
  exists m', bt_get ep (apply_listing dialed rows ms) = Some m' /\ m_seed m' = true.
Proof.
  intros named Hs Hm Hseed Huniq.
  pose proof (learned_keeps (fun ms => sorted ms = true)
    (fun name ep ms H => sorted_update _ ep ms H) dialed rows ms Hs) as Hs1.
  unfold apply_listing. unfold named, learned in *.
  destruct (fold_left (apply_row dialed) rows ([], ms)) as [listed named']. cbn [fst snd] in *.
  clear named. rename named' into named. set (b := by_name_of named).
  assert (Hm0 : bt_get ep (bt_retain (stands b) named) = Some m).
  { rewrite bt_get_retain, Hm by done. unfold stands.
    destruct (m_canonical m) as [n|] eqn:Hc; [|done].
    rewrite bool_decide_true; [done|]. eapply by_name_of_seed; [by eapply bt_get_elem|done..|].
    intros ep' m' Hin Hs' Hc'. by eapply Huniq. }
  assert (Hfold : forall l acc, sorted acc.1 = true ->
    (exists m, bt_get ep acc.1 = Some m /\ m_seed m = true) ->
    sorted (fold_left (apply_listed b) l acc).1 = true
    /\ exists m, bt_get ep (fold_left (apply_listed b) l acc).1 = Some m /\ m_seed m = true).
  { induction l as [|es l IH]; intros acc Ha (m1 & Hm1 & Hs'); [split; [done|by exists m1]|].
    cbn. apply IH; [|by eapply apply_listed_keeps_seed].
    apply (apply_listed_members (fun ms => sorted ms = true)); [..|done];
      intros; by (apply sorted_update || apply sorted_insert). }
  destruct (Hfold listed (bt_retain (stands b) named, ∅)) as (Hs2 & m2 & Hm2 & Hseed2);
    [by apply sorted_retain|by exists m|].
  destruct (fold_left _ _ _) as [ms2 seen]. cbn [fst] in *.
  rewrite retain_listed_get, Hm2 by done. cbn. unfold keep_listed.
  destruct (_ || _); [by exists m2|]. rewrite Hseed2. eexists. by split.
Qed.

Definition row_of (endpoint state : bytes) (own : bool) : list Value :=
  [VString endpoint; VString state; VBool own].

(** Two configured members that answer to one name (a host name and its
    address, say) are not both kept: discovery drops the first of them, though
    it is a configured one. *)
Theorem seed_dropped_for_its_alias :
  exists dialed rows ms m,
    sorted ms = true /\ bt_get (str "10.0.0.1:7000") ms = Some m /\ m_seed m = true
    /\ bt_get (str "10.0.0.1:7000") (apply_listing dialed rows ms) = None.
Proof.
  exists (str "db1:7000"), [row_of (str "db1.internal:7000") (str "ready") true].
  exists [(str "10.0.0.1:7000", set_canonical (Some (str "db1.internal:7000")) (member_new true));
          (str "db1:7000", member_new true)].
  exists (set_canonical (Some (str "db1.internal:7000")) (member_new true)).
  by vm_compute.
Qed.

End listing.

(** ** Witnesses *)

Definition sample_rows : list (list Value) :=
  [row_of (str "a.internal:7000") (str "ready") true;
   row_of (str "d:7000") (str "resyncing") false].


Lemma listing_keeps_seeds_witness :
  exists m', bt_get B (apply_listing A sample_rows sample_members) = Some m' /\ m_seed m' = true.
Proof.
  apply (listing_keeps_seeds A sample_rows sample_members B sample_ejected); [by vm_compute..|done].
Defined.
