(* ===== verification/BalancerSteps.v ===== *)
(** * Every interleaving of a balanced pool

    The critical sections of [Balancer]'s methods as the steps of one relation,
    and the invariant every reachable state has: the pool's books. *)
From stdpp Require Import gmap.
From S2P Require Import Prelude Bytes Text BTree Float64 Decimal Value Rng Balancer Discovery.
#[local] Open Scope Z_scope.

(** ** The pool and its callers

    A world is the pool's state and the connections callers hold.  Steps are
    the critical sections of every method, in any interleaving. *)
Section world.
Context (opts : PoolOptions) (self : Z).

Record World := { w_state : BalancerState; w_out : list Client }.

(** A connection this pool dialed: tied to it, not counted yet. *)
Definition fresh_client (c : Client) : Prop :=
  exists l, c.(c_link) = Some l /\ l.(l_pool) = self /\ l.(l_out) = false.

Definition with_link (l : PoolLink) (c : Client) : Client := {| c_id := c.(c_id); c_link := Some l |}.

Inductive world_step : World -> World -> Prop :=
| w_checkout_idle now aff st c stale st1 out :
    checkout_plan opts now aff st = (UseIdle c stale, st1) ->
    world_step {| w_state := st; w_out := out |}
               {| w_state := (checkout_commit aff c st1).2;
                  w_out := (checkout_commit aff c st1).1 :: out |}
| w_checkout_plan now aff st eps stale st1 out :
    checkout_plan opts now aff st = (Dial eps stale, st1) ->
    world_step {| w_state := st; w_out := out |} {| w_state := st1; w_out := out |}
| w_checkout_dialed aff c st out :
    fresh_client c ->
    world_step {| w_state := st; w_out := out |}
               {| w_state := (checkout_commit aff c st).2;
                  w_out := (checkout_commit aff c st).1 :: out |}
| w_checkin c out out' st :
    out ≡ₚ c :: out' ->
    world_step {| w_state := st; w_out := out |}
               {| w_state := (checkin opts self c st).1; w_out := out' |}
| w_drop c l out out' st :
    out ≡ₚ c :: out' -> c.(c_link) = Some l ->
    world_step {| w_state := st; w_out := out |}
               {| w_state := closed_out l.(l_member) st; w_out := out' |}
| w_round_trip spawned now c l connected elapsed out out' st :
    out ≡ₚ c :: out' -> c.(c_link) = Some l ->
    world_step {| w_state := st; w_out := out |}
               {| w_state := (round_trip opts spawned now l connected elapsed st).1;
                  w_out := with_link (round_trip opts spawned now l connected elapsed st).2 c :: out' |}
| w_round_trip_fresh spawned now l connected elapsed out st :
    l.(l_out) = false ->
    world_step {| w_state := st; w_out := out |}
               {| w_state := (round_trip opts spawned now l connected elapsed st).1; w_out := out |}
| w_moved c l connected out out' st :
    out ≡ₚ c :: out' -> c.(c_link) = Some l ->
    world_step {| w_state := st; w_out := out |}
               {| w_state := (moved st l connected).1;
                  w_out := with_link (moved st l connected).2 c :: out' |}
| w_broken b c l out out' st :
    out ≡ₚ c :: out' -> c.(c_link) = Some l ->
    world_step {| w_state := st; w_out := out |}
               {| w_state := st; w_out := with_link (set_broken b l) c :: out' |}
| w_redial lost st out :
    world_step {| w_state := st; w_out := out |} {| w_state := (dial_order lost st).2; w_out := out |}
| w_failed spawned now ep st out :
    world_step {| w_state := st; w_out := out |}
               {| w_state := failed opts spawned now ep st; w_out := out |}
| w_wrote now aff ep st out :
    world_step {| w_state := st; w_out := out |} {| w_state := wrote opts now aff ep st; w_out := out |}
| w_tick now st due refresh st1 out :
    tick opts now st = Some (due, refresh, st1) ->
    world_step {| w_state := st; w_out := out |} {| w_state := st1; w_out := out |}
| w_probe now probed ep st out :
    world_step {| w_state := st; w_out := out |}
               {| w_state := probe opts self now probed ep st; w_out := out |}
| w_discover spawned ep st out :
    world_step {| w_state := st; w_out := out |}
               {| w_state := (discover_through opts spawned ep st).2; w_out := out |}
| w_listing now dialed l st out :
    world_step {| w_state := st; w_out := out |}
               {| w_state := list_through opts now dialed l st; w_out := out |}
| w_refresh_failed now st out :
    world_step {| w_state := st; w_out := out |}
               {| w_state := refresh_failed opts now st; w_out := out |}
| w_close st out :
    world_step {| w_state := st; w_out := out |} {| w_state := (close st).1; w_out := out |}
| w_reorder st out out' :
    out ≡ₚ out' -> world_step {| w_state := st; w_out := out |} {| w_state := st; w_out := out' |}.

(** How many of the connections held count against [ep]. *)
Definition count_out (ep : bytes) (out : list Client) : nat :=
  length (List.filter (fun c => bool_decide (idle_ep c = ep)) out).

Definition counts_ok (ms : list (bytes * Member)) (out : list Client) : Prop :=
  forall ep m, bt_get ep ms = Some m -> (m.(m_in_use) <= count_out ep out)%nat.

Record world_inv (w : World) : Prop := {
  inv_counts : counts_ok w.(w_state).(b_members) w.(w_out);
  inv_out : forall c, c ∈ w.(w_out) ->
    exists l, c.(c_link) = Some l /\ l.(l_pool) = self /\ l.(l_out) = true;
  inv_idle : forall c, c ∈ w.(w_state).(b_idle) -> fresh_client c;
  inv_maxsize : (length w.(w_state).(b_idle) <= opts.(maxsize))%nat;
  inv_sorted : sorted w.(w_state).(b_members) = true;
  inv_closed : w.(w_state).(b_closed) = true -> w.(w_state).(b_idle) = [];
}.

Lemma count_out_cons ep c out :
  count_out ep (c :: out) = ((if bool_decide (idle_ep c = ep) then 1 else 0) + count_out ep out)%nat.
Proof. unfold count_out. cbn. by destruct (bool_decide _). Qed.

Lemma count_out_Permutation ep out out' : out ≡ₚ out' -> count_out ep out = count_out ep out'.
Proof. intros Hp. unfold count_out. induction Hp; cbn; repeat case_match; cbn; lia. Qed.

(** *** Counts *)

Lemma counts_mono ms out out' :
  (forall ep, (count_out ep out <= count_out ep out')%nat) -> counts_ok ms out -> counts_ok ms out'.
Proof. intros H Hc ep m Hm. specialize (Hc ep m Hm). specialize (H ep). lia. Qed.

Lemma counts_update f ep ms out :
  (forall m, m_in_use (f m) = m_in_use m) -> counts_ok ms out -> counts_ok (bt_update f ep ms) out.
Proof.
  intros Hf Hc e m. rewrite bt_get_update. destruct (decide (e = ep)) as [->|]; [|apply Hc].
  destruct (bt_get ep ms) as [m0|] eqn:E; [|done]. intros [= <-]. rewrite Hf. by apply Hc.
Qed.

Lemma counts_inc ms c out :
  counts_ok ms out -> counts_ok (bt_update in_use_inc (idle_ep c) ms) (c :: out).
Proof.
  intros Hc e m. rewrite bt_get_update, count_out_cons. destruct (decide (e = idle_ep c)) as [->|Hne].
  - destruct (bt_get (idle_ep c) ms) as [m0|] eqn:E; [|done]. intros [= <-].
    rewrite bool_decide_true by done. specialize (Hc _ _ E). cbn. lia.
  - intros Hm. specialize (Hc _ _ Hm). lia.
Qed.

Lemma counts_dec ms c out :
  counts_ok ms (c :: out) -> counts_ok (bt_update in_use_dec (idle_ep c) ms) out.
Proof.
  intros Hc e m. rewrite bt_get_update. destruct (decide (e = idle_ep c)) as [->|Hne].
  - destruct (bt_get (idle_ep c) ms) as [m0|] eqn:E; [|done]. intros [= <-].
    specialize (Hc _ _ E). rewrite count_out_cons, bool_decide_true in Hc by done. cbn. lia.
  - intros Hm. specialize (Hc _ _ Hm). rewrite count_out_cons, bool_decide_false in Hc by congruence. lia.
Qed.

Lemma counts_Permutation ms out out' : out ≡ₚ out' -> counts_ok ms out -> counts_ok ms out'.
Proof. intros Hp Hc ep m Hm. rewrite <- (count_out_Permutation ep _ _ Hp). by apply Hc. Qed.

Lemma counts_eject spawned now ep st out :
  counts_ok (b_members st) out -> counts_ok (b_members (eject opts spawned now ep st)) out.
Proof.
  intros Hc. destruct (eject_members opts spawned now ep st) as [->|[_ ->]]; [done|].
  by apply counts_update.
Qed.

(** *** Parts of the state each operation leaves alone *)

Definition same_idle (st st' : BalancerState) : Prop :=
  b_idle st' = b_idle st /\ b_closed st' = b_closed st.

Lemma eject_same spawned now ep st : same_idle st (eject opts spawned now ep st).
Proof.
  unfold eject, same_idle. destruct (negb _); [done|]. destruct (bt_get ep _); [|done].
  destruct (ensure_maintainer_members spawned (update_member (eject_member opts now) ep st)) as (_ & -> & ->).
  done.
Qed.

Lemma eject_sorted spawned now ep st :
  sorted (b_members st) = true -> sorted (b_members (eject opts spawned now ep st)) = true.
Proof.
  intros Hs. destruct (eject_members opts spawned now ep st) as [->|[_ ->]]; [done|by apply sorted_update].
Qed.

Lemma reattribute_same st l connected : same_idle st (reattribute st l connected).1.
Proof. unfold reattribute. destruct (bool_decide _), (l_out l); done. Qed.

Lemma round_trip_same spawned now l connected elapsed st :
  same_idle st (round_trip opts spawned now l connected elapsed st).1
  /\ (sorted (b_members st) = true ->
      sorted (b_members (round_trip opts spawned now l connected elapsed st).1) = true).
Proof.
  pose proof (reattribute_same st l connected) as H1.
  pose proof (reattribute_sorted st l connected) as H2.
  destruct (round_trip_members opts spawned now l connected elapsed st) as (_ & [->|[->|[-> _]]]).
  - done.
  - split; [done|]. intros Hs. by apply sorted_update, H2.
  - split.
    + destruct (eject_same spawned now connected (with_members
        (bt_update (record_sample opts now (as_secs_f64 elapsed)) connected
           (b_members (reattribute st l connected).1)) (reattribute st l connected).1)) as [E1 E2].
      destruct H1 as [E3 E4]. split; [by rewrite E1|by rewrite E2].
    + intros Hs. apply eject_sorted. by apply sorted_update, H2.
Qed.

Lemma failed_same spawned now ep st :
  same_idle st (failed opts spawned now ep st)
  /\ (sorted (b_members st) = true -> sorted (b_members (failed opts spawned now ep st)) = true).
Proof.
  destruct (failed_members opts spawned now ep st) as [->|[->|[-> _]]].
  - done.
  - split; [done|]. intros Hs. by apply sorted_update.
  - split; [|intros Hs; by apply eject_sorted, sorted_update].
    match goal with |- same_idle _ (eject _ _ _ _ ?s1) =>
      destruct (eject_same spawned now ep s1) as [E1 E2] end. by split.
Qed.

(** A reattributed connection moves its count along with itself. *)
Lemma reattribute_counts st c l connected out :
  c.(c_link) = Some l -> l.(l_out) = true ->
  counts_ok (b_members st) (c :: out) ->
  counts_ok (b_members (reattribute st l connected).1)
            (with_link (reattribute st l connected).2 c :: out)
  /\ l_pool (reattribute st l connected).2 = l_pool l /\ l_out (reattribute st l connected).2 = true.
Proof.
  intros Hl Ho Hc. assert (Ec : idle_ep c = l_member l) by (unfold idle_ep; by rewrite Hl).
  rewrite reattribute_members. unfold reattribute. case_bool_decide as E; cbn [negb andb fst snd].
  - split; [|done]. eapply counts_mono; [|exact Hc]. intros ep. rewrite !count_out_cons, Ec. done.
  - rewrite Ho. cbn [fst snd]. split; [|done].
    apply (counts_inc _ (with_link (set_member connected l) c)). rewrite <- Ec. by apply counts_dec.
Qed.

Lemma update_counts_with_link st c l l' out :
  c.(c_link) = Some l -> l_member l' = l_member l ->
  counts_ok st (c :: out) -> counts_ok st (with_link l' c :: out).
Proof.
  intros Hl Hm. apply counts_mono. intros ep. rewrite !count_out_cons. unfold idle_ep at 2, with_link. cbn.
  unfold idle_ep. rewrite Hl. cbn. by rewrite Hm.
Qed.

Lemma counts_round_trip spawned now l connected elapsed st out :
  counts_ok (b_members (reattribute st l connected).1) out ->
  counts_ok (b_members (round_trip opts spawned now l connected elapsed st).1) out.
Proof.
  intros Hc.
  assert (Hr : forall m, m_in_use (record_sample opts now (as_secs_f64 elapsed) m) = m_in_use m).
  { intros m. apply (record_sample_fields opts now (as_secs_f64 elapsed) m). }
  destruct (round_trip_members opts spawned now l connected elapsed st) as (_ & [->|[->|[-> _]]]).
  - done.
  - by apply counts_update.
  - by apply counts_eject, counts_update.
Qed.

Lemma counts_failed spawned now ep st out :
  counts_ok (b_members st) out -> counts_ok (b_members (failed opts spawned now ep st)) out.
Proof.
  intros Hc. destruct (failed_members opts spawned now ep st) as [->|[->|[-> _]]]; [done|..].
  - by apply counts_update.
  - by apply counts_eject, counts_update.
Qed.

Lemma apply_listing_counts dialed rows ms out :
  sorted ms = true -> counts_ok ms out -> counts_ok (apply_listing dialed rows ms) out.
Proof.
  intros Hs Hc.
  apply (apply_listing_keeps (fun ms => sorted ms = true /\ counts_ok ms out)).
  - intros name ep ms0 [Hs0 Hc0]. split; [by apply sorted_update|by apply counts_update].
  - intros b ms0 [Hs0 Hc0]. split; [by apply sorted_retain|]. intros ep m.
    rewrite bt_get_retain by done. destruct (bt_get ep ms0) as [m0|] eqn:E; [|done].
    destruct (stands b ep m0); [|done]. intros [= <-]. by apply Hc0.
  - intros ep ms0 [Hs0 Hc0] _. split; [by apply sorted_insert|]. intros e m.
    destruct (decide (e = ep)) as [->|Hne].
    + rewrite bt_get_insert_eq. intros [= <-]. cbn. lia.
    + rewrite bt_get_insert_ne by done. apply Hc0.
  - intros st ep ms0 [Hs0 Hc0]. split; [by apply sorted_update|]. apply counts_update; [|done].
    intros m. apply relist_fields.
  - intros seen ms0 [Hs0 Hc0]. split; [by apply sorted_above_omap|]. intros ep m.
    rewrite retain_listed_get by done. destruct (bt_get ep ms0) as [m0|] eqn:E; [|done]. cbn.
    intros Hk. destruct (keep_listed_fields _ _ _ _ Hk) as (_ & -> & _). by apply Hc0.
  - done.
Qed.
End world.

(** ** Every reachable world *)

Section reach.
Context (opts : PoolOptions) (self : Z).
Implicit Types (st : BalancerState) (out : list Client).

(** The connections callers hold are this pool's, and counted. *)
Definition out_ok out : Prop :=
  forall c, c ∈ out -> exists l, c.(c_link) = Some l /\ l.(l_pool) = self /\ l.(l_out) = true.

(** A part of the invariant that holds. *)
Ltac part H :=
  first [exact (inv_sorted _ _ _ H) | exact (inv_counts _ _ _ H) | exact (inv_out _ _ _ H)
        | exact (inv_idle _ _ _ H) | exact (inv_maxsize _ _ _ H) | exact (inv_closed _ _ _ H)].

(** The idle connections after are among those before. *)
Definition idle_le (st st' : BalancerState) : Prop :=
  b_closed st' = b_closed st /\ exists l, b_idle st ≡ₚ l ++ b_idle st'.

Lemma same_idle_le st st' : same_idle st st' -> idle_le st st'.
Proof. intros [E1 E2]. split; [done|]. exists []. by rewrite E1. Qed.

Lemma inv_idle_le st st' out out' :
  world_inv opts self {| w_state := st; w_out := out |} -> idle_le st st' ->
  sorted (b_members st') = true -> counts_ok (b_members st') out' -> out_ok out' ->
  world_inv opts self {| w_state := st'; w_out := out' |}.
Proof.
  intros [_ _ Hidle Hmax _ Hclosed] [Ec [l Hp]] Hs Hc Ho. cbn [w_state w_out] in *.
  constructor; cbn [w_state w_out]; [done..| | |done|].
  - intros c Hin. apply Hidle. rewrite Hp, elem_of_app. by right.
  - apply Permutation_length in Hp. rewrite length_app in Hp. lia.
  - rewrite Ec. intros E. apply Hclosed in E. rewrite E in Hp. apply Permutation_nil in Hp.
    by apply app_eq_nil in Hp as [_ ->].
Qed.

Lemma inv_same st st' out :
  world_inv opts self {| w_state := st; w_out := out |} -> idle_le st st' ->
  b_members st' = b_members st ->
  world_inv opts self {| w_state := st'; w_out := out |}.
Proof.
  intros H Hle E. eapply inv_idle_le; [done..| | |]; rewrite ?E;
    part H.
Qed.

Lemma out_ok_Permutation out out' : out ≡ₚ out' -> out_ok out -> out_ok out'.
Proof. intros Hp Ho c Hc. apply Ho. by rewrite Hp. Qed.

Lemma out_ok_cons c out : out_ok (c :: out) <->
  (exists l, c.(c_link) = Some l /\ l.(l_pool) = self /\ l.(l_out) = true) /\ out_ok out.
Proof.
  split.
  - intros H. split; [apply H; by left|]. intros c' Hc'. apply H. by right.
  - intros [Hc H] c'. rewrite elem_of_cons. intros [->|?]; auto.
Qed.

(** A connection held, taken out of the list. *)
Lemma inv_take st out c out' :
  world_inv opts self {| w_state := st; w_out := out |} -> out ≡ₚ c :: out' ->
  counts_ok (b_members st) (c :: out')
  /\ (exists l, c.(c_link) = Some l /\ l.(l_pool) = self /\ l.(l_out) = true) /\ out_ok out'.
Proof.
  intros H Hp. split.
  - eapply counts_Permutation; [done|]. part H.
  - apply out_ok_cons. eapply out_ok_Permutation; [done|]. part H.
Qed.

Lemma pick_same now aff st : 
  b_members (pick opts now aff st).2 = b_members st /\ same_idle st (pick opts now aff st).2.
Proof.
  unfold pick, pick_affinity, same_idle. repeat (case_match; simplify_eq/=); done.
Qed.

(** Planning a checkout changes no member and takes at most idle connections. *)
Lemma plan_idle now aff st p st' :
  checkout_plan opts now aff st = (p, st') ->
  b_members st' = b_members st
  /\ match p with
     | UseIdle c stale => b_closed st' = b_closed st /\ b_idle st ≡ₚ c :: stale ++ b_idle st'
     | Dial _ stale => b_closed st' = b_closed st /\ b_idle st ≡ₚ stale ++ b_idle st'
     | Closed => st' = st
     end.
Proof.
  unfold checkout_plan. destruct (b_closed st) eqn:Hcl.
  { by intros [= <- <-]. }
  pose proof (pick_same now aff st) as [Em [Ei Ec]].
  destruct (pick opts now aff st) as [target st1]. cbn [snd] in *.
  destruct (take_idle opts target st1) as [[idle stale] st2] eqn:Et.
  destruct (take_idle_parts _ _ _ _ _ _ Et) as (Hp & E2 & _).
  assert (Em2 : b_members st2 = b_members st) by (rewrite E2; done).
  assert (Ec2 : b_closed st2 = b_closed st) by (rewrite E2; done).
  destruct idle as [c|].
  - intros [= <- <-]. split; [done|]. split; [congruence|]. rewrite <- Ei. exact Hp.
  - unfold order. destruct (shuffle _ _) as [us rng]. intros [= <- <-]. split; [done|].
    split; [cbn; congruence|]. rewrite <- Ei. exact Hp.
Qed.

(** Handing out a fresh connection counts it. *)
Lemma commit_inv aff c st out :
  fresh_client self c ->
  world_inv opts self {| w_state := st; w_out := out |} ->
  world_inv opts self {| w_state := (checkout_commit aff c st).2;
                         w_out := (checkout_commit aff c st).1 :: out |}.
Proof.
  intros (l & El & Ep & Eo) H. unfold checkout_commit. rewrite El. cbn [fst snd].
  eapply inv_idle_le; [done|by apply same_idle_le|by apply sorted_update; part H| |].
  - apply (counts_inc _ {| c_id := c_id c; c_link := Some (set_out true aff l) |}). part H.
  - apply out_ok_cons. split; [|part H]. eexists. split; [done|]. done.
Qed.

Lemma checkin_inv c st out out' :
  out ≡ₚ c :: out' ->
  world_inv opts self {| w_state := st; w_out := out |} ->
  world_inv opts self {| w_state := (checkin opts self c st).1; w_out := out' |}.
Proof.
  intros Hp H. destruct (inv_take _ _ _ _ H Hp) as (Hc & (l & El & Epool & Eout) & Hok).
  unfold checkin. rewrite El, Eout, (proj2 (Z.eqb_eq _ _)) by done.
  set (st' := update_member in_use_dec (l_member l) st).
  assert (H' : world_inv opts self {| w_state := st'; w_out := out' |}).
  { eapply inv_idle_le; [done|by apply same_idle_le|by apply sorted_update; part H| |done].
    assert (E : l_member l = idle_ep c) by (unfold idle_ep; by rewrite El).
    cbn. rewrite E. by apply counts_dec. }
  destruct (_ && _ && _ && _) eqn:Hkeep; [|done]. cbn [fst].
  apply andb_true_iff in Hkeep as [Hkeep Hroom]. apply Nat.ltb_lt in Hroom.
  apply andb_true_iff in Hkeep as [Hkeep _]. apply andb_true_iff in Hkeep as [Hopen _].
  constructor; cbn [w_state w_out]; [part H'|part H'| | |part H'|].
  - cbn. intros c' [Hin|Hin]%elem_of_app; [by apply H'|].
    apply list_elem_of_singleton in Hin as ->. eexists. split; [done|]. done.
  - cbn. rewrite length_app. cbn in *. lia.
  - cbn. destruct (b_closed st); done.
Qed.

Lemma round_trip_inv spawned now c l connected elapsed st out out' :
  out ≡ₚ c :: out' -> c.(c_link) = Some l ->
  world_inv opts self {| w_state := st; w_out := out |} ->
  world_inv opts self {| w_state := (round_trip opts spawned now l connected elapsed st).1;
    w_out := with_link (round_trip opts spawned now l connected elapsed st).2 c :: out' |}.
Proof.
  intros Hp El H. destruct (inv_take _ _ _ _ H Hp) as (Hc & (l0 & El0 & Epool & Eout) & Hok).
  assert (l0 = l) as -> by congruence.
  destruct (round_trip_same opts spawned now l connected elapsed st) as [Hsame Hs].
  destruct (round_trip_members opts spawned now l connected elapsed st) as [E2 _].
  destruct (reattribute_counts st c l connected out' El Eout Hc) as (Hc' & Hpool' & Hout').
  eapply inv_idle_le; [done|by apply same_idle_le|by apply Hs; part H| |].
  - rewrite E2. by apply counts_round_trip.
  - apply out_ok_cons. split; [|done]. eexists. split; [done|]. rewrite E2. by split; [rewrite Hpool'|].
Qed.

Lemma probe_inv now probed ep st out :
  world_inv opts self {| w_state := st; w_out := out |} ->
  world_inv opts self {| w_state := probe opts self now probed ep st; w_out := out |}.
Proof.
  intros H. unfold probe. destruct (bt_get ep (b_members st)) as [m|] eqn:Hm; [|done].
  assert (Hset : forall m', m_in_use m' = m_in_use m ->
    world_inv opts self {| w_state := with_members (bt_insert ep m' (b_members st)) st; w_out := out |}).
  { intros m' Em. eapply inv_idle_le; [done|by apply same_idle_le|by apply sorted_insert; part H| |part H].
    cbn. intros e m0. destruct (decide (e = ep)) as [->|Hne].
    - rewrite bt_get_insert_eq. intros [= <-]. rewrite Em. by apply H.
    - rewrite bt_get_insert_ne by done. by apply H. }
  destruct probed as [id|], (b_closed st) eqn:Hcl; try (by apply Hset).
  destruct (_ <? _)%nat eqn:Hroom; [|by apply Hset]. apply Nat.ltb_lt in Hroom.
  match goal with |- context [bt_insert ep ?m' _] => specialize (Hset m' eq_refl) end.
  constructor; cbn [w_state w_out]; [part Hset|part H| | |part Hset|].
  - cbn. intros c [Hin|Hin]%elem_of_app; [by apply H|].
    apply list_elem_of_singleton in Hin as ->. eexists. split; [done|]. done.
  - cbn. rewrite length_app. cbn. lia.
  - cbn. by rewrite Hcl.
Qed.

Lemma listing_inv now dialed rows st out :
  world_inv opts self {| w_state := st; w_out := out |} ->
  world_inv opts self {| w_state := list_through opts now dialed rows st; w_out := out |}.
Proof.
  intros H. destruct rows as [[|r rows]| | |]; cbn [list_through];
    try (eapply inv_same; [exact H|by apply same_idle_le|done]).
  eapply inv_idle_le; [done|by apply same_idle_le| | |part H].
  - apply apply_listing_sorted; part H.
  - apply apply_listing_counts; part H.
Qed.

Lemma tick_inv now st due refresh st1 out :
  tick opts now st = Some (due, refresh, st1) ->
  world_inv opts self {| w_state := st; w_out := out |} ->
  world_inv opts self {| w_state := st1; w_out := out |}.
Proof.
  unfold tick. destruct (b_closed st) eqn:Hcl; [done|]. intros [= _ _ <-] H.
  set (f := fun m => if probe_due now m then set_probing true m else m).
  eapply inv_idle_le; [done|by apply same_idle_le| | |part H]; cbn [b_members with_members];
    change (map _ (b_members st)) with (map (fun km => (km.1, f km.2)) (b_members st)).
  - rewrite (sorted_map (fun _ => f)). part H.
  - intros ep m. rewrite (bt_get_map (fun _ => f)). destruct (bt_get ep (b_members st)) as [m0|] eqn:E; [|done].
    cbn. intros [= <-]. apply (inv_counts _ _ _ H) in E. cbn in E. unfold f. by destruct (probe_due now m0).
Qed.

Lemma world_step_inv w w' :
  world_step opts self w w' -> world_inv opts self w -> world_inv opts self w'.
Proof.
  intros Hstep. destruct Hstep as
    [now aff st c stale st1 out Hplan|now aff st eps stale st1 out Hplan|aff c st out Hfresh
    |c out out' st Hp|c l out out' st Hp Hl|spawned now c l connected elapsed out out' st Hp Hl
    |spawned now l connected elapsed out st Hl|c l connected out out' st Hp Hl
    |b c l out out' st Hp Hl|lost st out|spawned now ep st out|now aff ep st out
    |now st due refresh st1 out Htick|now probed ep st out|spawned ep st out|now dialed l st out
    |now st out|st out|st out out' Hp]; intros H.
  - destruct (plan_idle _ _ _ _ _ Hplan) as (Em & Ec & Hp). apply commit_inv.
    { apply (inv_idle _ _ _ H). cbn. rewrite Hp. by left. }
    eapply inv_same; [exact H| |done]. split; [done|]. by exists (c :: stale).
  - destruct (plan_idle _ _ _ _ _ Hplan) as (Em & Ec & Hp). eapply inv_same; [exact H| |done].
    split; [done|]. by exists stale.
  - by apply commit_inv.
  - by eapply checkin_inv.
  - destruct (inv_take _ _ _ _ H Hp) as (Hc & _ & Hok).
    eapply inv_idle_le; [done|by apply same_idle_le|apply sorted_update; part H| |done].
    replace (l_member l) with (idle_ep c) by (unfold idle_ep; by rewrite Hl). by apply counts_dec.
  - by eapply round_trip_inv.
  - destruct (round_trip_same opts spawned now l connected elapsed st) as [Hsame Hs].
    eapply inv_idle_le; [done|by apply same_idle_le|apply Hs; part H| |part H].
    apply counts_round_trip. rewrite reattribute_members, Hl, andb_false_r. part H.
  - destruct (inv_take _ _ _ _ H Hp) as (Hc & (l0 & El0 & Epool & Eout) & Hok).
    assert (l0 = l) as -> by congruence. unfold moved.
    destruct (reattribute_counts st c l connected out' Hl Eout Hc) as (Hc' & Hpool' & Hout').
    eapply inv_idle_le; [done|apply same_idle_le, reattribute_same
      |apply reattribute_sorted; part H|done|].
    apply out_ok_cons. split; [|done]. eexists. split; [done|]. by rewrite Hpool'.
  - destruct (inv_take _ _ _ _ H Hp) as (Hc & (l0 & El0 & Epool & Eout) & Hok).
    assert (l0 = l) as -> by congruence.
    eapply inv_idle_le; [done|by apply same_idle_le|part H|by eapply update_counts_with_link|].
    apply out_ok_cons. split; [|done]. eexists. by split.
  - unfold dial_order, order. destruct (shuffle _ _) as [us rng].
    eapply inv_same; [exact H|by apply same_idle_le|done].
  - destruct (failed_same opts spawned now ep st) as [Hsame Hs].
    eapply inv_idle_le; [done|by apply same_idle_le|apply Hs; part H| |part H].
    apply counts_failed; part H.
  - eapply inv_same; [exact H|by apply same_idle_le|done].
  - by eapply tick_inv.
  - by apply probe_inv.
  - unfold discover_through. destruct (_ || _); [done|]. destruct (bt_get ep (b_members st)) as [m|]; [|done].
    destruct (is_none _); [|done]. cbn [snd].
    destruct (ensure_maintainer_members spawned st) as (Em & Ei & Ec).
    eapply inv_same; [exact H|by apply same_idle_le|done].
  - by apply listing_inv.
  - eapply inv_same; [exact H|by apply same_idle_le|done].
  - constructor; cbn; [part H|part H| |lia|part H|done]. by intros c ?%elem_of_nil.
  - eapply inv_idle_le; [done|by apply same_idle_le|part H| |].
    + eapply counts_Permutation; [done|part H].
    + eapply out_ok_Permutation; [done|part H].
Qed.

Lemma dedup_fresh (seeds : list bytes) (ms : list (bytes * Member)) :
  (forall ep m, bt_get ep ms = Some m -> m_in_use m = 0%nat) -> sorted ms = true ->
  let ms' := fold_left (fun ms ep => bt_insert ep (member_new true) ms) seeds ms in
  (forall ep m, bt_get ep ms' = Some m -> m_in_use m = 0%nat) /\ sorted ms' = true.
Proof.
  revert ms. induction seeds as [|s seeds IH]; intros ms Hu Hs; [done|]. apply IH; [|by apply sorted_insert].
  intros ep m. destruct (decide (ep = s)) as [->|Hne].
  - rewrite bt_get_insert_eq. by intros [= <-].
  - rewrite bt_get_insert_ne by done. apply Hu.
Qed.

Lemma built_inv endpoints now rng st :
  build opts endpoints now rng = Ok st -> world_inv opts self {| w_state := st; w_out := [] |}.
Proof.
  intros Hb. unfold build in Hb. destruct (dedup endpoints) as [|s0 seeds]; [done|].
  destruct (_ <? _)%nat; [done|]. destruct (_ <? _); [done|]. destruct (negb _); [done|].
  injection Hb as <-.
  destruct (dedup_fresh (s0 :: seeds) []) as [Hu Hs]; [done..|].
  constructor; cbn [w_state w_out b_members b_idle b_closed]; [|..|cbn; lia|done|done].
  - intros ep m Hm. specialize (Hu ep m Hm). lia.
  - by intros c ?%elem_of_nil.
  - by intros c ?%elem_of_nil.
Qed.

Lemma rtc_inv w w' : rtc (world_step opts self) w w' -> world_inv opts self w -> world_inv opts self w'.
Proof. induction 1 as [w|w1 w2 w3 Hstep _ IH]; [done|]. intros H. by apply IH, world_step_inv with w1. Qed.

(** C3: however callers, their connections and the background thread
    interleave, a pool that was built keeps its books: no member counts more
    connections in use than callers hold to it; everything callers hold is
    theirs and counted; the idle connections are the pool's own, uncounted,
    at most [maxsize], and none once the pool is closed. *)
Theorem pool_keeps_its_books endpoints now rng st w :
  build opts endpoints now rng = Ok st ->
  rtc (world_step opts self) {| w_state := st; w_out := [] |} w ->
  world_inv opts self w.
Proof. intros Hb Hr. eapply rtc_inv; [exact Hr|by eapply built_inv]. Qed.

End reach.

(** ** A pool just built *)

Lemma pool_keeps_its_books_witness :
  exists st, build sample_options [A; B; C] 0 7 = Ok st
  /\ world_inv sample_options 1 {| w_state := failed sample_options true 0 A st; w_out := [] |}.
Proof.
  assert (E : exists st, build sample_options [A; B; C] 0 7 = Ok st) by (eexists; vm_compute; reflexivity).
  destruct E as [st E].
  exists st. split; [done|].
  apply (pool_keeps_its_books sample_options 1 [A; B; C] 0 7 st); [done|].
  apply rtc_once, w_failed.
Defined.
