(* ===== verification/Message.v ===== *)
(** * Protocol messages

    [crates/skaidb-proto/src/message.rs]: the requests and responses of the
    binary protocol, their encodings, the pipelining wrapper, and the
    incremental encoder of a chunk of rows. *)
From S2P Require Import Prelude Bytes Text BTree Float64 Decimal Value KeyCodec Cursor Codec.
#[local] Open Scope Z_scope.

Inductive Consistency := One | Quorum | All.

#[export] Instance consistency_eq_dec : EqDecision Consistency.
Proof. solve_decision. Defined.

Definition to_u8 (c : Consistency) : byte :=
  match c with One => x00 | Quorum => x01 | All => x02 end.

Definition from_u8 (b : byte) : option Consistency :=
  match b with x00 => Some One | x01 => Some Quorum | x02 => Some All | _ => None end.

Record Request := { r_sql : bytes; r_consistency : Consistency }.

Inductive ClientRequest :=
| Query (sql : bytes) (consistency : Consistency)
| Prepare (sql : bytes)
| Execute (id : Z) (params : list Value) (consistency : Consistency)
| Close (id : Z)
| QueryStream (sql : bytes) (params : list Value) (consistency : Consistency)
| ExecuteBatch (id : Z) (rows : list (list Value)) (consistency : Consistency)
| Hello (client_name client_version : bytes).

Inductive Response :=
| Rows (columns : list bytes) (rows : list (list Value))
| Mutation (affected : Z)
| Ddl
| Error (msg : bytes)
| Prepared (id params : Z)
| RowsHeader (columns : list bytes)
| RowsChunk (rows : list (list Value))
| RowsEnd
| ResultSets (sets : list (list bytes * list (list Value))).

Inductive ProtoError := Malformed (what : bytes).

Definition malformed (s : String.string) : ProtoError := Malformed (str s).
Arguments malformed s%_string_scope.

Definition OP_QUERY : byte := x01.
Definition OP_PREPARE : byte := x02.
Definition OP_EXECUTE : byte := x03.
Definition OP_CLOSE : byte := x04.
Definition OP_QUERY_STREAM : byte := x05.
Definition OP_TAGGED : byte := x06.
Definition OP_EXECUTE_BATCH : byte := x07.
Definition OP_HELLO : byte := x08.
Definition OP_QUERY_STREAM_PARAMS : byte := x09.

Definition RESP_ROWS : byte := x00.
Definition RESP_MUTATION : byte := x01.
Definition RESP_DDL : byte := x02.
Definition RESP_ERROR : byte := x03.
Definition RESP_PREPARED : byte := x04.
Definition RESP_ROWS_HEADER : byte := x05.
Definition RESP_ROWS_CHUNK : byte := x06.
Definition RESP_ROWS_END : byte := x07.
Definition RESP_RESULT_SETS : byte := x08.
Definition RESP_TAGGED : byte := x08.

(** ** Encoding

    Encoders append to a buffer; a length not known yet is written as four
    zeros and backfilled. *)

(** [out[pos..pos + w.len()].copy_from_slice(w)]. *)
Definition backfill (pos : nat) (w out : bytes) : bytes :=
  take pos out ++ w ++ drop (pos + length w) out.

Definition zeros4 : bytes := [x00; x00; x00; x00].

(** [params.len() as u16], little-endian. *)
Definition count16 {A} (l : list A) : bytes := le_bytes 2 (Z.of_nat (length l)).

Definition encode_cell_into (out : bytes) (v : Value) : bytes :=
  let len_pos := length out in
  let out := out ++ zeros4 ++ encode_value v in
  backfill len_pos (le_bytes 4 (Z.of_nat (length out - len_pos - 4))) out.

Definition encode_row_into (out : bytes) (row : list Value) : bytes :=
  fold_left encode_cell_into row (out ++ count32 row).

Definition encode_params_into (out : bytes) (params : list Value) : bytes :=
  fold_left encode_cell_into params (out ++ count16 params).

Definition encode_columns (out : bytes) (columns : list bytes) : bytes :=
  fold_left (fun out col => out ++ write_bytes col) columns (out ++ count32 columns).

Definition encode_rows_into (out : bytes) (rows : list (list Value)) : bytes :=
  fold_left encode_row_into rows (out ++ count32 rows).

Definition request_encode (r : Request) : bytes :=
  [OP_QUERY; to_u8 r.(r_consistency)] ++ write_bytes r.(r_sql).

Definition encode_request_into (out : bytes) (q : ClientRequest) : bytes :=
  match q with
  | Query sql consistency => out ++ [OP_QUERY; to_u8 consistency] ++ write_bytes sql
  | Prepare sql => out ++ [OP_PREPARE] ++ write_bytes sql
  | Execute id params consistency =>
      encode_params_into (out ++ [OP_EXECUTE; to_u8 consistency] ++ le_bytes 4 id) params
  | Close id => out ++ [OP_CLOSE] ++ le_bytes 4 id
  | QueryStream sql params consistency =>
      let op := match params with [] => OP_QUERY_STREAM | _ => OP_QUERY_STREAM_PARAMS end in
      let out := out ++ [op; to_u8 consistency] ++ write_bytes sql in
      match params with [] => out | _ => encode_params_into out params end
  | Hello client_name client_version =>
      out ++ [OP_HELLO] ++ write_bytes client_name ++ write_bytes client_version
  | ExecuteBatch id rows consistency =>
      fold_left encode_params_into rows
        (out ++ [OP_EXECUTE_BATCH; to_u8 consistency] ++ le_bytes 4 id ++ count32 rows)
  end.

Definition encode_request (q : ClientRequest) : bytes := encode_request_into [] q.

Definition encode_tagged_request (id : Z) (q : ClientRequest) (out : bytes) : bytes :=
  encode_request_into (out ++ [OP_TAGGED] ++ le_bytes 4 id) q.

Definition encode_set_into (out : bytes) (set : list bytes * list (list Value)) : bytes :=
  encode_rows_into (encode_columns out set.1) set.2.

Definition encode_response_into (out : bytes) (r : Response) : bytes :=
  match r with
  | Rows columns rows => encode_rows_into (encode_columns (out ++ [RESP_ROWS]) columns) rows
  | Mutation affected => out ++ [RESP_MUTATION] ++ le_bytes 8 affected
  | Ddl => out ++ [RESP_DDL]
  | Error msg => out ++ [RESP_ERROR] ++ write_bytes msg
  | Prepared id params => out ++ [RESP_PREPARED] ++ le_bytes 4 id ++ le_bytes 2 params
  | RowsHeader columns => encode_columns (out ++ [RESP_ROWS_HEADER]) columns
  | RowsChunk rows => encode_rows_into (out ++ [RESP_ROWS_CHUNK]) rows
  | RowsEnd => out ++ [RESP_ROWS_END]
  | ResultSets sets => fold_left encode_set_into sets (out ++ [RESP_RESULT_SETS] ++ count32 sets)
  end.

Definition encode_response (r : Response) : bytes := encode_response_into [] r.

Definition tag_response (out : bytes) (id : Z) : bytes := out ++ [RESP_TAGGED] ++ le_bytes 4 id.

(** Every result set of a reply. *)
Definition result_sets (r : Response) : list (list bytes * list (list Value)) :=
  match r with
  | Rows columns rows => [(columns, rows)]
  | ResultSets sets => sets
  | _ => []
  end.

(** The incremental encoder; [count += 1] panics past [u32::MAX] in a debug
    build. *)
Record RowsChunkEncoder := { count_pos : nat; count : Z }.

Definition chunk_begin (out : bytes) : RowsChunkEncoder * bytes :=
  let out := out ++ [RESP_ROWS_CHUNK] in
  ({| count_pos := length out; count := 0 |}, out ++ zeros4).

Definition chunk_push_row (enc : RowsChunkEncoder) (out : bytes) (row : list Value)
    : RowsChunkEncoder * bytes :=
  ({| count_pos := enc.(count_pos); count := wrap 32 (enc.(count) + 1) |}, encode_row_into out row).

Definition chunk_finish (enc : RowsChunkEncoder) (out : bytes) : bytes :=
  backfill enc.(count_pos) (le_bytes 4 enc.(count)) out.

(** ** Decoding; bytes after the message are ignored *)

Section decode.
Abbreviation rd := (reader ProtoError).

Definition p_take (n : Z) : rd bytes :=
  take_with (malformed "length overflow") (malformed "unexpected end") n.
Definition p_u8 : rd byte := u8_with (malformed "length overflow") (malformed "unexpected end").
Definition p_uint (n : nat) : rd Z :=
  uint_with (malformed "length overflow") (malformed "unexpected end") n.
Definition p_bytes : rd bytes := bytes_with (malformed "length overflow") (malformed "unexpected end").
Definition p_string : rd bytes :=
  string_with (malformed "length overflow") (malformed "unexpected end") (malformed "invalid utf-8").

Definition p_consistency : rd Consistency :=
  b ← p_u8; lift (ok_or (malformed "bad consistency") (from_u8 b)).

Definition p_value : rd Value :=
  b ← p_bytes; lift (map_err (fun _ => malformed "bad value encoding") (Codec.decode b)).

(** [n] elements, pushed one after another. *)
Definition p_list {A} (n : Z) (elem : rd A) : rd (list A) :=
  for_each n (fun l => a ← elem; mret (l ++ [a])) [].

Definition p_params : rd (list Value) := n ← p_uint 2; p_list n p_value.
Definition decode_columns : rd (list bytes) := n ← p_uint 4; p_list n p_string.
Definition decode_row : rd (list Value) := n ← p_uint 4; p_list n p_value.
Definition decode_rows : rd (list (list Value)) := n ← p_uint 4; p_list n decode_row.

Definition decode_set : rd (list bytes * list (list Value)) :=
  columns ← decode_columns; rows ← decode_rows; mret (columns, rows).

Definition read_request : rd ClientRequest :=
  op ← p_u8;
  if decide (op = OP_QUERY) then c ← p_consistency; sql ← p_string; mret (Query sql c)
  else if decide (op = OP_PREPARE) then sql ← p_string; mret (Prepare sql)
  else if decide (op = OP_EXECUTE) then
    c ← p_consistency; id ← p_uint 4; params ← p_params; mret (Execute id params c)
  else if decide (op = OP_CLOSE) then id ← p_uint 4; mret (Close id)
  else if decide (op = OP_HELLO) then n ← p_string; v ← p_string; mret (Hello n v)
  else if decide (op = OP_EXECUTE_BATCH) then
    c ← p_consistency; id ← p_uint 4; n ← p_uint 4; rows ← p_list n p_params;
    mret (ExecuteBatch id rows c)
  else if decide (op = OP_QUERY_STREAM) then
    c ← p_consistency; sql ← p_string; mret (QueryStream sql [] c)
  else if decide (op = OP_QUERY_STREAM_PARAMS) then
    c ← p_consistency; sql ← p_string; params ← p_params; mret (QueryStream sql params c)
  else fail (malformed "unknown opcode").

Definition read_response : rd Response :=
  t ← p_u8;
  if decide (t = RESP_ROWS) then columns ← decode_columns; rows ← decode_rows; mret (Rows columns rows)
  else if decide (t = RESP_MUTATION) then n ← p_uint 8; mret (Mutation n)
  else if decide (t = RESP_DDL) then mret Ddl
  else if decide (t = RESP_ERROR) then s ← p_string; mret (Error s)
  else if decide (t = RESP_PREPARED) then id ← p_uint 4; n ← p_uint 2; mret (Prepared id n)
  else if decide (t = RESP_ROWS_HEADER) then columns ← decode_columns; mret (RowsHeader columns)
  else if decide (t = RESP_ROWS_CHUNK) then rows ← decode_rows; mret (RowsChunk rows)
  else if decide (t = RESP_ROWS_END) then mret RowsEnd
  else if decide (t = RESP_RESULT_SETS) then
    n ← p_uint 4; sets ← p_list n decode_set; mret (ResultSets sets)
  else fail (malformed "unknown response tag").

Definition read_query : rd Request :=
  op ← p_u8;
  if decide (op = OP_QUERY) then
    c ← p_consistency; sql ← p_string; mret {| r_sql := sql; r_consistency := c |}
  else fail (malformed "unknown opcode").

End decode.

(** Run a reader on a message. *)
Definition run {A} (r : reader ProtoError A) (buf : bytes) : res ProtoError A :=
  '(a, _) ← r (cursor_new buf); Ok a.

Definition request_decode (buf : bytes) : res ProtoError Request := run read_query buf.
Definition decode_request (buf : bytes) : res ProtoError ClientRequest := run read_request buf.
Definition decode_response (buf : bytes) : res ProtoError Response := run read_response buf.

(** The pipelining wrapper: [buf.first()], [buf.len() < 6], [buf[1..5]]. *)
Definition decode_client_request (buf : bytes) : res ProtoError (option Z * ClientRequest) :=
  if decide (buf !! 0%nat = Some OP_TAGGED) then
    if (length buf <? 6)%nat then Err (malformed "unexpected end")
    else
      let id := le_val (take 4 (drop 1 buf)) in
      if decide (buf !! 5%nat = Some OP_TAGGED) then Err (malformed "nested tagged request")
      else q ← decode_request (drop 5 buf); Ok (Some id, q)
  else q ← decode_request buf; Ok (None, q).

Definition decode_tagged_response (buf : bytes) : res ProtoError (option Z * Response) :=
  if decide (buf !! 0%nat = Some RESP_TAGGED) then
    if (length buf <? 6)%nat then Err (malformed "unexpected end")
    else
      let id := le_val (take 4 (drop 1 buf)) in
      r ← decode_response (drop 5 buf); Ok (Some id, r)
  else r ← decode_response buf; Ok (None, r).

Example request_ex :
  decode_client_request (encode_tagged_request 7 (Execute 3 [VInt 5; VNull] Quorum) [])
  = Ok (Some 7, Execute 3 [VInt 5; VNull] Quorum).
Proof. vm_compute. reflexivity. Qed.

(** ** What the encoders append *)

Lemma fold_append {X} (f : bytes -> X -> bytes) (e : X -> bytes) l out :
  (forall out x, f out x = out ++ e x) -> fold_left f l out = out ++ flat_map e l.
Proof.
  intros Hf. revert out. induction l as [|x l IH]; intros out; cbn; [by rewrite app_nil_r|].
  by rewrite Hf, IH, <- app_assoc.
Qed.

Lemma backfill_app pre w mid post :
  length w = length mid -> backfill (length pre) w (pre ++ mid ++ post) = pre ++ w ++ post.
Proof.
  intros Hl. unfold backfill. rewrite take_app_length. do 2 f_equal.
  rewrite app_assoc. apply drop_app_length'. rewrite length_app. lia.
Qed.

Definition cell_bytes (v : Value) : bytes := prefixed (encode_value v).
Definition row_bytes (row : list Value) : bytes := count32 row ++ flat_map cell_bytes row.
Definition params_bytes (params : list Value) : bytes := count16 params ++ flat_map cell_bytes params.
Definition columns_bytes (columns : list bytes) : bytes := count32 columns ++ flat_map prefixed columns.
Definition rows_bytes (rows : list (list Value)) : bytes := count32 rows ++ flat_map row_bytes rows.
Definition set_bytes (set : list bytes * list (list Value)) : bytes :=
  columns_bytes set.1 ++ rows_bytes set.2.

Lemma encode_cell_app out v : encode_cell_into out v = out ++ cell_bytes v.
Proof.
  unfold encode_cell_into. rewrite backfill_app by done. unfold cell_bytes, prefixed, len.
  do 3 f_equal. rewrite !length_app. cbn [length zeros4]. lia.
Qed.

Lemma encode_row_app out row : encode_row_into out row = out ++ row_bytes row.
Proof.
  unfold encode_row_into. rewrite (fold_append _ _ _ _ encode_cell_app). by rewrite <- app_assoc.
Qed.

Lemma encode_params_app out params : encode_params_into out params = out ++ params_bytes params.
Proof.
  unfold encode_params_into. rewrite (fold_append _ _ _ _ encode_cell_app). by rewrite <- app_assoc.
Qed.

Lemma encode_columns_app out columns : encode_columns out columns = out ++ columns_bytes columns.
Proof.
  unfold encode_columns. rewrite (fold_append _ prefixed) by done. by rewrite <- app_assoc.
Qed.

Lemma encode_rows_app out rows : encode_rows_into out rows = out ++ rows_bytes rows.
Proof.
  unfold encode_rows_into. rewrite (fold_append _ _ _ _ encode_row_app). by rewrite <- app_assoc.
Qed.

Lemma encode_set_app out set : encode_set_into out set = out ++ set_bytes set.
Proof. unfold encode_set_into. by rewrite encode_rows_app, encode_columns_app, <- app_assoc. Qed.

(** An encoder appends to its buffer what it writes into an empty one. *)
Lemma encode_request_app out q : encode_request_into out q = out ++ encode_request q.
Proof.
  unfold encode_request. destruct q as [| | | |sql [|v params] c| |]; cbn [encode_request_into];
    rewrite ?encode_params_app, ?(fold_append _ _ _ _ encode_params_app), <- ?app_assoc; done.
Qed.

Lemma encode_response_app out r : encode_response_into out r = out ++ encode_response r.
Proof.
  unfold encode_response. destruct r; cbn [encode_response_into];
    rewrite ?encode_rows_app, ?encode_columns_app, ?(fold_append _ _ _ _ encode_set_app), <- ?app_assoc; done.
Qed.

(** ** Messages that travel

    Strings are UTF-8, counts and lengths fit their fields. *)

Definition text_ok (s : bytes) : bool := utf8_valid s && (len s <? 2 ^ 32).
Definition cell_ok (v : Value) : bool := wf_value v && (len (encode_value v) <? 2 ^ 32).
Definition count_ok {A} (w : Z) (l : list A) : bool := Z.of_nat (length l) <? 2 ^ w.
Definition params_ok (l : list Value) : bool := count_ok 16 l && forallb cell_ok l.
Definition row_ok (l : list Value) : bool := count_ok 32 l && forallb cell_ok l.
Definition columns_ok (l : list bytes) : bool := count_ok 32 l && forallb text_ok l.
Definition rows_ok (l : list (list Value)) : bool := count_ok 32 l && forallb row_ok l.
Definition set_ok (s : list bytes * list (list Value)) : bool := columns_ok s.1 && rows_ok s.2.

Definition request_ok (q : ClientRequest) : bool :=
  match q with
  | Query sql _ | Prepare sql => text_ok sql
  | Execute id params _ => is_uint 32 id && params_ok params
  | Close id => is_uint 32 id
  | QueryStream sql params _ => text_ok sql && params_ok params
  | ExecuteBatch id rows _ => is_uint 32 id && (count_ok 32 rows && forallb params_ok rows)
  | Hello name version => text_ok name && text_ok version
  end.

Definition response_ok (r : Response) : bool :=
  match r with
  | Rows columns rows => columns_ok columns && rows_ok rows
  | Mutation n => is_uint 64 n
  | Ddl | RowsEnd => true
  | Error msg => text_ok msg
  | Prepared id n => is_uint 32 id && is_uint 16 n
  | RowsHeader columns => columns_ok columns
  | RowsChunk rows => rows_ok rows
  | ResultSets sets => count_ok 32 sets && forallb set_ok sets
  end.

(** ** What the readers read back *)

Abbreviation reads := (reads_back (E := ProtoError)).
Abbreviation some := (fun _ => True).

Lemma uint_reads_eq n z :
  0 <= z < 256 ^ Z.of_nat n -> reads (p_uint n) (le_bytes n z) z.
Proof.
  intros Hz. pose proof (uint_reads (malformed "length overflow") (malformed "unexpected end") n z) as H.
  by rewrite Z.mod_small in H.
Qed.

Lemma text_reads s : text_ok s = true -> reads p_string (prefixed s) s.
Proof. intros [Hu Hl%Z.ltb_lt]%andb_true_iff. by apply string_reads. Qed.

Lemma value_reads v : cell_ok v = true -> reads p_value (cell_bytes v) v.
Proof.
  intros [Hw Hl%Z.ltb_lt]%andb_true_iff. unfold cell_bytes. rewrite <- (app_nil_r (prefixed _)).
  eapply reads_back_bind; [by apply bytes_reads|]. apply reads_back_lift.
  assert (Hs : is_slice (encode v)) by (unfold is_slice, encode; lia).
  unfold Codec.decode. change (encode_value v) with (encode v).
  by rewrite (read_all_reads trailing decode_at (encode v) v Hs (decode_at_encode v Hw)).
Qed.

Lemma consistency_reads c : reads p_consistency [to_u8 c] c.
Proof.
  change [to_u8 c] with ([to_u8 c] ++ []). eapply reads_back_bind; [apply u8_reads|].
  apply reads_back_lift. by destruct c.
Qed.

(** Readers of lists. *)
Section lists.
Context {A : Type} (elem : reader ProtoError A).
Hypothesis elem_parses : parses 1 some elem.

Lemma push_parses (l : list A) : parses 1 some (a ← elem; mret (l ++ [a])).
Proof. eapply (parses_bind 1 0); [done|intros; by apply parses_ret|lia]. Qed.

Lemma list_parses n : 0 <= n -> parses 0 some (p_list n elem).
Proof.
  intros Hn. unfold p_list. eapply parses_weaken.
  - apply (for_each_parses 1 _ n [] (fun _ _ => True) ltac:(lia) Hn) with (m := 0); [| |done];
      intros; apply push_parses.
  - lia.
  - done.
Qed.

Lemma list_total n : reader_total elem -> reader_total (p_list n elem).
Proof.
  intros Ht. apply for_each_total.
  - intros s. eapply parses_moves. apply push_parses.
  - intros s. eapply total_bind; [done|exact elem_parses|done].
Qed.

Lemma list_reads (enc : A -> bytes) xs :
  (forall x, x ∈ xs -> reads elem (enc x) x) ->
  reads (p_list (Z.of_nat (length xs)) elem) (flat_map enc xs) xs.
Proof.
  intros Hx. unfold p_list.
  assert (E : xs = fold_left (fun l a => l ++ [a]) xs []).
  { assert (H : forall (l acc : list A), fold_left (fun l a => l ++ [a]) l acc = acc ++ l).
    { induction l as [|x l IH]; intros acc; cbn; [by rewrite app_nil_r|]. by rewrite IH, <- app_assoc. }
    by rewrite H. }
  rewrite E at 3. apply for_each_reads_back; [apply push_parses|].
  intros s x Hin. rewrite <- (app_nil_r (enc x)). eapply reads_back_bind; [by apply Hx|].
  apply reads_back_ret.
Qed.

(** A counted list, the count [k] bytes wide. *)
Lemma counted_reads k (enc : A -> bytes) xs :
  Z.of_nat (length xs) < 256 ^ Z.of_nat k -> (forall x, x ∈ xs -> reads elem (enc x) x) ->
  reads (n ← p_uint k; p_list n elem) (le_bytes k (Z.of_nat (length xs)) ++ flat_map enc xs) xs.
Proof.
  intros Hk Hx. eapply reads_back_bind; [apply uint_reads_eq; lia|]. by apply list_reads.
Qed.

Lemma counted_parses k : parses (Z.of_nat k) some (n ← p_uint k; p_list n elem).
Proof.
  eapply (parses_bind (Z.of_nat k) 0); [apply uint_parses| |lia]. intros n Hn. apply list_parses. apply Hn.
Qed.

Lemma counted_total k : reader_total elem -> reader_total (n ← p_uint k; p_list n elem).
Proof.
  intros Ht. eapply total_bind; [apply uint_total|apply uint_parses|]. intros n _. by apply list_total.
Qed.
End lists.

Lemma forallb_elem {A} (p : A -> bool) l x : forallb p l = true -> x ∈ l -> p x = true.
Proof. intros Hf Hx. rewrite forallb_forall in Hf. apply Hf. by apply list_elem_of_In. Qed.

Lemma value_parses : parses 1 some p_value.
Proof.
  eapply (parses_bind 4 0); [apply bytes_parses| |lia]. intros b _. by apply parses_lift.
Qed.

Lemma value_total : reader_total p_value.
Proof.
  eapply total_bind; [apply bytes_total|apply bytes_parses|]. intros b Hb. cbv beta in Hb. apply total_lift.
  apply returns_map_err. apply read_all_returns; [unfold is_slice; lia|apply decode_at_total].
Qed.

Lemma text_parses : parses 1 some p_string.
Proof. eapply parses_weaken; [apply string_parses|lia|done]. Qed.

(** ** Rows, columns and sets *)

Lemma row_parses : parses 1 some decode_row.
Proof. eapply parses_weaken; [apply (counted_parses _ value_parses 4)|lia|done]. Qed.

Lemma params_parses : parses 1 some p_params.
Proof. eapply parses_weaken; [apply (counted_parses _ value_parses 2)|lia|done]. Qed.

Lemma columns_parses : parses 1 some decode_columns.
Proof. eapply parses_weaken; [apply (counted_parses _ text_parses 4)|lia|done]. Qed.

Lemma rows_parses : parses 1 some decode_rows.
Proof. eapply parses_weaken; [apply (counted_parses _ row_parses 4)|lia|done]. Qed.

Lemma set_parses : parses 1 some decode_set.
Proof.
  eapply (parses_bind 1 1); [apply columns_parses|intros ? _|lia].
  eapply (parses_bind 1 0); [apply rows_parses|intros; by apply parses_ret|lia].
Qed.

Lemma row_total : reader_total decode_row.
Proof. apply (counted_total _ value_parses 4), value_total. Qed.

Lemma params_total : reader_total p_params.
Proof. apply (counted_total _ value_parses 2), value_total. Qed.

Lemma columns_total : reader_total decode_columns.
Proof. apply (counted_total _ text_parses 4), string_total. Qed.

Lemma rows_total : reader_total decode_rows.
Proof. apply (counted_total _ row_parses 4), row_total. Qed.

Lemma set_total : reader_total decode_set.
Proof.
  eapply total_bind; [apply columns_total|apply columns_parses|intros ? _].
  eapply total_bind; [apply rows_total|apply rows_parses|done].
Qed.

Lemma consistency_parses : parses 1 some p_consistency.
Proof. eapply (parses_bind 1 0); [apply u8_parses|intros; by apply parses_lift|lia]. Qed.

Lemma consistency_total : reader_total p_consistency.
Proof.
  eapply total_bind; [apply u8_total|apply u8_parses|intros b _]. apply total_lift.
  by destruct (from_u8 b).
Qed.

Lemma row_reads l : row_ok l = true -> reads decode_row (row_bytes l) l.
Proof.
  intros [Hn%Z.ltb_lt Hl]%andb_true_iff. apply (counted_reads _ value_parses 4); [done|].
  intros v Hv. apply value_reads. by eapply forallb_elem.
Qed.

Lemma params_reads l : params_ok l = true -> reads p_params (params_bytes l) l.
Proof.
  intros [Hn%Z.ltb_lt Hl]%andb_true_iff. apply (counted_reads _ value_parses 2); [done|].
  intros v Hv. apply value_reads. by eapply forallb_elem.
Qed.

Lemma columns_reads l : columns_ok l = true -> reads decode_columns (columns_bytes l) l.
Proof.
  intros [Hn%Z.ltb_lt Hl]%andb_true_iff. apply (counted_reads _ text_parses 4); [done|].
  intros s Hs. apply text_reads. by eapply forallb_elem.
Qed.

Lemma rows_reads l : rows_ok l = true -> reads decode_rows (rows_bytes l) l.
Proof.
  intros [Hn%Z.ltb_lt Hl]%andb_true_iff. apply (counted_reads _ row_parses 4); [done|].
  intros r Hr. apply row_reads. by eapply forallb_elem.
Qed.

Lemma set_reads s : set_ok s = true -> reads decode_set (set_bytes s) s.
Proof.
  intros [Hc Hr]%andb_true_iff. destruct s as [columns rows]. unfold set_bytes. cbn [fst snd] in *.
  eapply reads_back_bind; [by apply columns_reads|]. rewrite <- (app_nil_r (rows_bytes _)).
  eapply reads_back_bind; [by apply rows_reads|]. apply reads_back_ret.
Qed.

Create HintDb reads.
#[local] Hint Resolve text_reads value_reads consistency_reads row_reads params_reads columns_reads
  rows_reads set_reads : reads.
#[local] Hint Resolve consistency_parses params_parses columns_parses rows_parses text_parses
  consistency_total params_total columns_total rows_total : skaidb.

(** Read the parts of a message, one bind at a time. *)
Lemma reads_opcode {A} (op : byte) (k : byte -> reader ProtoError A) s a :
  reads (k op) s a -> reads (p_u8 ≫= k) (op :: s) a.
Proof. intros Hk. change (op :: s) with ([op] ++ s). eapply reads_back_bind; [apply u8_reads|done]. Qed.

Lemma reads_consistency {A} c (k : Consistency -> reader ProtoError A) s a :
  reads (k c) s a -> reads (p_consistency ≫= k) (to_u8 c :: s) a.
Proof.
  intros Hk. change (to_u8 c :: s) with ([to_u8 c] ++ s).
  eapply reads_back_bind; [apply consistency_reads|done].
Qed.

Lemma reads_end {A B} (r : reader ProtoError A) (k : A -> reader ProtoError B) s a b :
  reads r s a -> k a = mret b -> reads (r ≫= k) s b.
Proof.
  intros Hr Hk. rewrite <- (app_nil_r s). eapply reads_back_bind; [done|]. rewrite Hk. apply reads_back_ret.
Qed.

Lemma reads_uint32 z : is_uint 32 z = true -> reads (p_uint 4) (le_bytes 4 z) z.
Proof. intros Hz%is_uint_spec. by apply uint_reads_eq. Qed.

Ltac reads_part := solve [eauto with reads | by apply reads_uint32].

Ltac reads_parts :=
  repeat match goal with
  | H : (_ && _)%bool = true |- _ => apply andb_true_iff in H as [? ?]
  end;
  unfold write_bytes;
  repeat first
    [ apply reads_back_ret
    | apply reads_consistency
    | eapply reads_end; [reads_part|reflexivity]
    | eapply reads_back_bind; [reads_part|] ].

(** Skip the branches of the other opcodes. *)
Ltac opcode := apply reads_opcode; rewrite ?decide_False, decide_True by done.

Lemma request_reads q : request_ok q = true -> reads read_request (encode_request q) q.
Proof.
  unfold encode_request, read_request.
  destruct q as [sql c|sql|id params c|id|sql params c|id rows c|name version];
    cbn [encode_request_into request_ok app]; intros Hq.
  - opcode. reads_parts.
  - opcode. reads_parts.
  - rewrite encode_params_app, <- ?app_assoc. cbn [app]. opcode. reads_parts.
  - opcode. reads_parts.
  - apply andb_true_iff in Hq as [Hs Hp]. destruct params as [|v params].
    + opcode. reads_parts.
    + rewrite encode_params_app, <- ?app_assoc. cbn [app]. opcode. reads_parts.
  - rewrite (fold_append _ _ _ _ encode_params_app), <- ?app_assoc. cbn [app]. opcode.
    apply andb_true_iff in Hq as [Hid Hq]. apply andb_true_iff in Hq as [Hn%Z.ltb_lt Hq].
    apply reads_consistency. rewrite <- ?app_assoc. eapply reads_back_bind; [reads_part|].
    eapply reads_back_bind; [apply uint_reads_eq; split; [lia|exact Hn]|]. eapply reads_end; [|done].
    apply (list_reads _ params_parses). intros r Hr. apply params_reads. by eapply forallb_elem.
  - opcode. reads_parts.
Qed.

Lemma response_reads r : response_ok r = true -> reads read_response (encode_response r) r.
Proof.
  unfold encode_response, read_response.
  destruct r as [columns rows|n| |msg|id n|columns|rows| |sets];
    cbn [encode_response_into response_ok app]; intros Hr;
    rewrite ?encode_rows_app, ?encode_columns_app, ?(fold_append _ _ _ _ encode_set_app), <- ?app_assoc;
    cbn [app]; opcode.
  - reads_parts.
  - apply is_uint_spec in Hr. eapply reads_end; [by apply uint_reads_eq|done].
  - reads_parts.
  - reads_parts.
  - apply andb_true_iff in Hr as [Hid Hn%is_uint_spec]. eapply reads_back_bind; [reads_part|].
    eapply reads_end; [by apply uint_reads_eq|done].
  - reads_parts.
  - reads_parts.
  - reads_parts.
  - apply andb_true_iff in Hr as [Hn%Z.ltb_lt Hr]. eapply reads_back_bind; [apply uint_reads_eq; split; [lia|exact Hn]|].
    eapply reads_end; [|done]. apply (list_reads _ set_parses). intros x Hx. apply set_reads.
    by eapply forallb_elem.
Qed.

(** ** The readers come back *)

Lemma total_uint_bind {B} n (k : Z -> reader ProtoError B) :
  (forall z, 0 <= z -> reader_total (k z)) -> reader_total (p_uint n ≫= k).
Proof. intros Hk. eapply total_bind; [apply uint_total|apply uint_parses|]. intros z Hz. apply Hk, Hz. Qed.

Lemma total_list_bind {A B} n (elem : reader ProtoError A) (k : list A -> reader ProtoError B) :
  parses 1 some elem -> reader_total elem -> 0 <= n -> (forall l, reader_total (k l)) ->
  reader_total (p_list n elem ≫= k).
Proof.
  intros Hp Ht Hn Hk. eapply total_bind; [by apply list_total|by apply list_parses|]. intros l _. apply Hk.
Qed.

Lemma total_bind_some {A B} (r : reader ProtoError A) (k : A -> reader ProtoError B) :
  parses 1 some r -> reader_total r -> (forall a, reader_total (k a)) -> reader_total (r ≫= k).
Proof. intros Hp Ht Hk. eapply total_bind; [done|exact Hp|]. intros a _. apply Hk. Qed.

Create HintDb totals.
#[local] Hint Resolve consistency_total params_total columns_total rows_total set_total string_total
  consistency_parses params_parses columns_parses rows_parses set_parses text_parses
  total_ret total_fail total_uint_bind total_list_bind total_bind_some : totals.

Ltac total_parts :=
  repeat first
    [ apply total_ret | apply total_fail
    | apply total_uint_bind; intros ? ?
    | apply total_list_bind; [solve [eauto with totals]..|lia|intros ?]
    | apply total_bind_some; [solve [eauto with totals]..|intros ?]
    | case_decide ].

Lemma read_request_total : reader_total read_request.
Proof. unfold read_request. apply total_bind_some; [apply u8_parses|apply u8_total|intros op]. total_parts. Qed.

Lemma read_response_total : reader_total read_response.
Proof. unfold read_response. apply total_bind_some; [apply u8_parses|apply u8_total|intros t]. total_parts. Qed.

(** ** Properties *)

Lemma run_reads {A} (r : reader ProtoError A) s l a :
  is_slice (s ++ l) -> reads r s a -> run r (s ++ l) = Ok a.
Proof.
  intros Hs Hr. unfold run. rewrite (Hr (cursor_new (s ++ l)) l); [done| |done].
  by apply cursor_new_ok.
Qed.

Lemma run_returns {A} (r : reader ProtoError A) bs :
  is_slice bs -> reader_total r -> returns (run r bs).
Proof.
  intros Hs Hr. specialize (Hr _ (cursor_new_ok _ Hs)). unfold run.
  by destruct (r (cursor_new bs)) as [[a c]| | |].
Qed.

(** The wrapper, read off the front of a buffer. *)
Lemma tag_front (t : byte) id s :
  let buf := (t :: le_bytes 4 id) ++ s in
  s <> [] -> is_uint 32 id = true ->
  buf !! 0%nat = Some t /\ (length buf <? 6)%nat = false /\ le_val (take 4 (drop 1 buf)) = id
  /\ drop 5 buf = s.
Proof.
  intros buf Hs Hid%is_uint_spec. unfold buf. cbn [app drop lookup list_lookup].
  assert (Hl : length (le_bytes 4 id) = 4%nat) by apply le_bytes_length.
  split_and!; [done| | |].
  - apply Nat.ltb_ge. cbn [length]. rewrite length_app, Hl. destruct s; [done|]. cbn. lia.
  - rewrite drop_0, take_app_length' by done. rewrite le_val_bytes. by apply Z.mod_small.
  - by apply drop_app_length'.
Qed.

Lemma request_front q l : exists op s, encode_request q ++ l = op :: s /\ op <> OP_TAGGED.
Proof.
  unfold encode_request. destruct q as [| | | |sql [|] c|id rows c|]; cbn [encode_request_into];
    rewrite ?encode_params_app, ?(fold_append _ _ _ _ encode_params_app); cbn [app]; eauto.
  all: eexists _, _; split; [done|]; done.
Qed.

Lemma response_front r l :
  exists t s, encode_response r ++ l = t :: s
              /\ (match r with ResultSets _ => False | _ => True end -> t <> RESP_TAGGED).
Proof.
  unfold encode_response. destruct r; cbn [encode_response_into];
    rewrite ?encode_rows_app, ?encode_columns_app, ?(fold_append _ _ _ _ encode_set_app); cbn [app].
  all: eexists _, _; split; [done|]; done.
Qed.

Lemma untagged_request q l :
  request_ok q = true -> is_slice (encode_request q ++ l) -> decode_client_request (encode_request q ++ l) = Ok (None, q).
Proof.
  intros Hq Hs. pose proof (run_reads _ _ _ _ Hs (request_reads q Hq)) as Hrun.
  destruct (request_front q l) as (op & s & Eq & Hop). rewrite Eq in *. unfold decode_client_request.
  rewrite decide_False by (cbn; congruence). unfold decode_request. by rewrite Hrun.
Qed.



(** What a 16-bit count says of the parameters. *)
Definition counted (params : list Value) : list Value :=
  take (Z.to_nat (Z.of_nat (length params) mod 2 ^ 16)) params.

Lemma counted_length params : Z.of_nat (length (counted params)) = Z.of_nat (length params) mod 2 ^ 16.
Proof.
  unfold counted. rewrite length_take. pose proof (Z.mod_pos_bound (Z.of_nat (length params)) (2 ^ 16) ltac:(lia)).
  pose proof (Z.mod_le (Z.of_nat (length params)) (2 ^ 16) ltac:(lia) ltac:(lia)). lia.
Qed.

Lemma params_bytes_counted params : exists rest, params_bytes params = params_bytes (counted params) ++ rest.
Proof.
  exists (flat_map cell_bytes (drop (length (counted params)) params)). unfold params_bytes, count16.
  rewrite counted_length, (le_bytes_mod 2), <- app_assoc. f_equal. rewrite <- flat_map_app. f_equal.
  unfold counted. rewrite length_take. symmetry.
  set (n := Z.to_nat _). destruct (decide (n <= length params)%nat).
  - rewrite Nat.min_l by done. apply take_drop.
  - rewrite Nat.min_r, take_ge, drop_ge by lia. apply app_nil_r.
Qed.

(** C23: an [EXECUTE] carries its parameters' number in 16 bits: it is read
    back as one with the first [n mod 65536] of its [n] parameters, the others
    being taken for what follows it, so it is read back as it was sent exactly
    when it has fewer than 65536. *)
Theorem parameters_counted_in_16_bits id params k l :
  is_uint 32 id = true -> forallb cell_ok params = true -> is_slice (encode_request (Execute id params k) ++ l) ->
  decode_client_request (encode_request (Execute id params k) ++ l) = Ok (None, Execute id (counted params) k)
  /\ (counted params = params <-> Z.of_nat (length params) < 2 ^ 16).
Proof.
  intros Hid Hp Hs. pose proof (counted_length params) as Hn.
  pose proof (Z.mod_pos_bound (Z.of_nat (length params)) (2 ^ 16) ltac:(lia)) as Hb. split.
  - destruct (params_bytes_counted params) as [rest Er].
    assert (E : encode_request (Execute id params k) ++ l = encode_request (Execute id (counted params) k) ++ rest ++ l).
    { unfold encode_request. cbn [encode_request_into]. by rewrite !encode_params_app, Er, <- !app_assoc. }
    rewrite E in Hs |- *. apply untagged_request; [|done]. cbn [request_ok]. unfold params_ok, count_ok.
    rewrite Hid, Hn. cbn [andb]. apply andb_true_iff. split; [apply Z.ltb_lt, Hb|]. apply forallb_forall. intros v Hv.
    rewrite forallb_forall in Hp. apply Hp, list_elem_of_In. apply list_elem_of_In in Hv. unfold counted in Hv.
    by eapply subseteq_take.
  - split; [intros E; rewrite E in Hn; lia|]. intros Hlt. unfold counted. rewrite Z.mod_small by lia.
    rewrite Nat2Z.id. by apply take_ge.
Qed.

Lemma nulls_slice n : Z.of_nat n < 2 ^ 32 -> is_slice (encode_request (Execute 3 (replicate n VNull) Quorum) ++ []).
Proof.
  intros Hn. assert (E : length (flat_map cell_bytes (replicate n VNull)) = (5 * n)%nat).
  { clear Hn. induction n as [|n IH]; [done|]. cbn [replicate flat_map]. rewrite length_app, IH. change (length (cell_bytes VNull)) with 5%nat. lia. }
  unfold encode_request. cbn [encode_request_into]. rewrite app_nil_r, encode_params_app. unfold is_slice, len, params_bytes.
  rewrite !length_app, E. unfold count16. rewrite !le_bytes_length. cbn [length]. lia.
Qed.

Lemma parameters_counted_in_16_bits_witness :
  exists rest, let params := replicate (Z.to_nat 65537) VNull in
    decode_client_request (encode_request (Execute 3 params Quorum) ++ rest) = Ok (None, Execute 3 [VNull] Quorum).
Proof.
  exists []. destruct (parameters_counted_in_16_bits 3 (replicate (Z.to_nat 65537) VNull) Quorum []) as [E _].
  - reflexivity.
  - by vm_compute.
  - apply nulls_slice. by vm_compute.
  - exact E.
Defined.

(** C22: responses survive the wire, tagged ones with the id they echo; a plain
    response is told from a tagged one, with the exception of [ResultSets]. *)
Theorem response_roundtrip r id l :
  response_ok r = true -> is_uint 32 id = true -> is_slice (tag_response [] id ++ encode_response r ++ l) ->
  decode_response (encode_response r ++ l) = Ok r
  /\ decode_tagged_response (encode_response_into (tag_response [] id) r ++ l) = Ok (Some id, r)
  /\ (match r with ResultSets _ => False | _ => True end ->
      decode_tagged_response (encode_response r ++ l) = Ok (None, r)).
Proof.
  intros Hr Hid Hs. rewrite encode_response_app, <- app_assoc.
  assert (Hs' : is_slice (encode_response r ++ l)).
  { unfold is_slice in *. rewrite len_app in Hs. pose proof (len_nonneg (tag_response [] id)). lia. }
  pose proof (run_reads _ _ _ _ Hs' (response_reads r Hr)) as Hrun.
  destruct (response_front r l) as (t & s & Er & Ht). rewrite Er in *.
  unfold decode_tagged_response, tag_response, decode_response. cbn [app]. split_and!.
  - exact Hrun.
  - destruct (tag_front RESP_TAGGED id (t :: s) ltac:(done) Hid) as (H0 & H6 & Hv & Hd).
    cbn [app] in *. rewrite H0, H6, Hv, Hd. rewrite decide_True by done. by rewrite Hrun.
  - intros Hns. rewrite decide_False; [by rewrite Hrun|]. cbn. intros [= ->]. by apply Ht.
Qed.

Lemma response_roundtrip_witness :
  decode_tagged_response (encode_response_into (tag_response [] 7)
    (Rows [str "a"; str "b"] [[VInt 1; VBool true]])) = Ok (Some 7, Rows [str "a"; str "b"] [[VInt 1; VBool true]]).
Proof.
  rewrite <- (app_nil_r (encode_response_into _ _)).
  apply (response_roundtrip (Rows [str "a"; str "b"] [[VInt 1; VBool true]]) 7 []);
    [by vm_compute|done|by vm_compute].
Defined.

(** An untagged [ResultSets] reply is taken for a tagged one, although
    [decode_tagged_response] is documented to give no id for a plain response:
    the two share tag 8.  With two columns in the first set the whole reply
    reads as the acknowledgement [Ddl] of a request numbered by the count of
    sets, and its rows are lost. *)
Theorem result_sets_read_as_tagged c1 c2 rows sets :
  let reply := ResultSets (([c1; c2], rows) :: sets) in
  Z.of_nat (length sets) + 1 < 2 ^ 32 -> is_slice (encode_response reply) ->
  decode_tagged_response (encode_response reply) = Ok (Some (Z.of_nat (length sets) + 1), Ddl).
Proof.
  intros reply Hn Hs. unfold reply, encode_response in *. cbn [encode_response_into] in *.
  rewrite (fold_append _ _ _ _ encode_set_app) in *. cbn [app flat_map] in *.
  set (s := set_bytes ([c1; c2], rows) ++ flat_map set_bytes sets) in *.
  assert (Es : exists s', s = RESP_DDL :: s').
  { unfold s, set_bytes, columns_bytes, count32. cbn [fst length]. eexists. cbn. reflexivity. }
  destruct Es as [s' Es].
  destruct (tag_front RESP_TAGGED (Z.of_nat (length sets) + 1) s) as (H0 & H6 & Hv & Hd).
  { by rewrite Es. }
  { apply is_uint_spec. lia. }
  replace (count32 (([c1; c2], rows) :: sets)) with (le_bytes 4 (Z.of_nat (length sets) + 1)) in *
    by (unfold count32; f_equal; cbn [length]; lia).
  change (RESP_RESULT_SETS :: le_bytes 4 (Z.of_nat (length sets) + 1) ++ s)
    with ((RESP_TAGGED :: le_bytes 4 (Z.of_nat (length sets) + 1)) ++ s) in *.
  unfold decode_tagged_response. rewrite H0, H6, Hv, Hd. rewrite decide_True by done.
  unfold decode_response. rewrite Es. change (RESP_DDL :: s') with ([RESP_DDL] ++ s').
  rewrite (run_reads read_response [RESP_DDL] s' Ddl); [done| |].
  - unfold is_slice in *. change ([RESP_DDL] ++ s') with (RESP_DDL :: s'). rewrite <- Es.
    rewrite len_app in Hs. pose proof (len_nonneg (RESP_TAGGED :: le_bytes 4 (Z.of_nat (length sets) + 1))). lia.
  - by apply (response_reads Ddl).
Qed.

Lemma result_sets_read_as_tagged_witness :
  decode_tagged_response (encode_response (ResultSets [([str "k"; str "v"], [[VInt 1; VInt 2]])]))
  = Ok (Some 1, Ddl).
Proof.
  apply (result_sets_read_as_tagged (str "k") (str "v") [[VInt 1; VInt 2]] []); by vm_compute.
Defined.

(** Message decoding is safe on any bytes, tagged or not: it comes back
    with a message or an error. *)
Theorem messages_safe buf :
  is_slice buf -> returns (decode_client_request buf) /\ returns (decode_tagged_response buf).
Proof.
  intros Hs. assert (Hd : is_slice (drop 5 buf)).
  { unfold is_slice, len in *. rewrite length_drop. lia. }
  assert (Hb : forall {A B} (m : res ProtoError A) (f : A -> B), returns m -> returns (a ← m; Ok (f a))).
  { intros A B m f. by destruct m. }
  unfold decode_client_request, decode_tagged_response. split.
  - case_decide; [|apply Hb, run_returns; [done|apply read_request_total]].
    destruct (_ <? _)%nat; [done|]. case_decide; [done|].
    apply Hb, run_returns; [done|apply read_request_total].
  - case_decide; [|apply Hb, run_returns; [done|apply read_response_total]].
    destruct (_ <? _)%nat; [done|]. apply Hb, run_returns; [done|apply read_response_total].
Qed.

Lemma messages_safe_witness : returns (decode_client_request (OP_EXECUTE_BATCH :: replicate 12 xff)).
Proof. apply (messages_safe (OP_EXECUTE_BATCH :: replicate 12 xff)). by vm_compute. Defined.

Definition push_rows (eo : RowsChunkEncoder * bytes) (rows : list (list Value)) :=
  fold_left (fun eo row => chunk_push_row eo.1 eo.2 row) rows eo.

(** The incremental encoder of a chunk writes, in front of anything already
    in the buffer, the bytes of the [RowsChunk] response holding the rows
    pushed, the count backfilled. *)
Theorem rows_chunk_encoder_exact out rows :
  Z.of_nat (length rows) < 2 ^ 32 ->
  let '(enc, out') := push_rows (chunk_begin out) rows in
  chunk_finish enc out' = out ++ encode_response (RowsChunk rows).
Proof.
  intros Hn.
  assert (H : forall rows enc o, 0 <= count enc -> count enc + Z.of_nat (length rows) < 2 ^ 32 ->
    push_rows (enc, o) rows
    = ({| count_pos := count_pos enc; count := count enc + Z.of_nat (length rows) |},
       o ++ flat_map row_bytes rows)).
  { clear. induction rows as [|r rows IH]; intros [p n] o Hn0 Hn; cbn [count count_pos length] in *.
    - cbn. by rewrite Z.add_0_r, app_nil_r.
    - unfold push_rows. cbn [fold_left fst snd chunk_push_row count count_pos].
      change (push_rows ({| count_pos := p; count := wrap 32 (n + 1) |}, encode_row_into o r) rows = 
        ({| count_pos := p; count := n + Z.of_nat (S (length rows)) |}, o ++ flat_map row_bytes (r :: rows))).
      unfold wrap. rewrite Z.mod_small by lia.
      rewrite IH by (cbn [count]; lia). cbn [count count_pos flat_map].
      rewrite encode_row_app, <- app_assoc.
      by replace (n + 1 + Z.of_nat (length rows)) with (n + Z.of_nat (S (length rows))) by lia. }
  unfold chunk_begin. cbv zeta. rewrite H by (cbn; lia). cbn [count count_pos].
  unfold chunk_finish. cbn [count_pos count]. rewrite <- app_assoc, backfill_app by done.
  unfold encode_response. cbn [encode_response_into app]. rewrite encode_rows_app.
  unfold rows_bytes, count32. rewrite <- app_assoc. by rewrite Z.add_0_l.
Qed.

Lemma rows_chunk_encoder_exact_witness :
  let '(enc, out') := push_rows (chunk_begin [x2a]) [[VInt 1]; [VNull]] in
  chunk_finish enc out' = [x2a] ++ encode_response (RowsChunk [[VInt 1]; [VNull]]).
Proof. by apply (rows_chunk_encoder_exact [x2a] [[VInt 1]; [VNull]]). Defined.
