(* ===== verification/Frame.v ===== *)
(** * Framing

    [crates/skaidb-proto/src/frame.rs]: length-prefixed frames, over a writer
    that may take a part of what it is given, be interrupted or fail, and a
    reader that gives bytes in order. *)
From S2P Require Import Prelude Bytes Cursor Message.
#[local] Open Scope Z_scope.

Inductive IoError := InvalidInput | InvalidData | WriteZero | UnexpectedEof | Interrupted | OtherIo.

(** What successive calls of a [Write] do; [Accepts n] takes at most [n] bytes. *)
Inductive outcome := Accepts (n : nat) | Interrupts | Fails.

Definition MAX_FRAME_LEN : Z := 64 * 1024 * 1024.
Definition COALESCE_LIMIT : Z := 8 * 1024.

(** The result, the bytes that left, the calls not made yet; [OutOfFuel] when
    the writer's behaviour is not told any further. *)
Abbreviation io A := (res IoError A * bytes * list outcome)%type.

(** The standard library's [Write::write_all]. *)
Fixpoint write_all (script : list outcome) (buf : bytes) : io unit :=
  match buf with
  | [] => (Ok tt, [], script)
  | _ =>
      match script with
      | [] => (OutOfFuel, [], [])
      | Accepts 0 :: script => (Err WriteZero, [], script)
      | Accepts n :: script =>
          let '(r, sent, script) := write_all script (drop n buf) in (r, take n buf ++ sent, script)
      | Interrupts :: script => write_all script buf
      | Fails :: script => (Err OtherIo, [], script)
      end
  end.

(** [write_all_vectored]: [?] gives an interruption back to the caller. *)
Fixpoint write_all_vectored (script : list outcome) (head body : bytes) : io unit :=
  match head ++ body with
  | [] => (Ok tt, [], script)
  | _ =>
      match script with
      | [] => (OutOfFuel, [], [])
      | Accepts 0 :: script => (Err WriteZero, [], script)
      | Accepts n :: script =>
          let sent := take n (head ++ body) in
          let n := length sent in
          let '(r, sent', script) :=
            if (length head <=? n)%nat
            then write_all_vectored script [] (drop (n - length head) body)
            else write_all_vectored script (drop n head) body in
          (r, sent ++ sent', script)
      | Interrupts :: script => (Err Interrupted, [], script)
      | Fails :: script => (Err OtherIo, [], script)
      end
  end.

Definition flush (script : list outcome) : io unit :=
  match script with
  | [] => (OutOfFuel, [], [])
  | Fails :: script => (Err OtherIo, [], script)
  | Interrupts :: script => (Err Interrupted, [], script)
  | _ :: script => (Ok tt, [], script)
  end.

Definition then_flush (m : io unit) : io unit :=
  match m with
  | (Ok _, sent, script) => let '(r, sent', script) := flush script in (r, sent ++ sent', script)
  | m => m
  end.

Definition write_frame (script : list outcome) (payload : bytes) : io unit :=
  if MAX_FRAME_LEN <? len payload then (Err InvalidInput, [], script)
  else
    let prefix := be_bytes 4 (len payload) in
    then_flush
      (if len payload <=? COALESCE_LIMIT
       then write_all script (prefix ++ payload)
       else write_all_vectored script prefix payload).

(** [Read::read_exact] over the bytes still to come. *)
Definition read_exact (n : nat) (r : bytes) : res IoError (bytes * bytes) :=
  if (length r <? n)%nat then Err UnexpectedEof else Ok (take n r, drop n r).

(** [read_frame_into] leaves the buffer and the rest of the stream. *)
Definition read_frame_into (r buf : bytes) : res IoError (bytes * bytes) :=
  '(len_buf, r) ← read_exact 4 r;
  let n := be_val len_buf in
  if MAX_FRAME_LEN <? n then Err InvalidData
  else
    let n := Z.to_nat n in
    let buf := if (length buf <? n)%nat then buf ++ replicate (n - length buf) x00 else buf in
    let buf := take n buf in
    read_exact (length buf) r.

Definition read_frame (r : bytes) : res IoError (bytes * bytes) := read_frame_into r [].

Definition begin_frame : bytes := zeros4.

(** [buf.len() - 4] panics below four bytes. *)
Definition finish_frame (script : list outcome) (buf : bytes) : io unit :=
  if (length buf <? 4)%nat then (Panic, [], script)
  else
    let payload_len := len buf - 4 in
    if MAX_FRAME_LEN <? payload_len then (Err InvalidInput, [], script)
    else then_flush (write_all script (backfill 0 (be_bytes 4 payload_len) buf)).

(** One frame on the wire. *)
Definition frame (payload : bytes) : bytes := be_bytes 4 (len payload) ++ payload.

(** ** Writing *)

(** What left is a prefix of what should, all of it after a success; and
    a writer that takes something at each of enough calls lets it all out. *)
Definition exact (m : io unit) (s : bytes) : Prop :=
  let '(r, sent, _) := m in sent `prefix_of` s /\ (r = Ok tt -> sent = s).

Definition takes (o : outcome) : bool := match o with Accepts (S _) => true | _ => false end.

Lemma write_all_exact script buf : exact (write_all script buf) buf.
Proof.
  revert buf. induction script as [|o script IH]; intros buf; destruct buf as [|b buf]; cbn [write_all];
    try by split; [apply prefix_nil|].
  destruct o as [[|n]| |]; try by split; [apply prefix_nil|].
  - specialize (IH (drop (S n) (b :: buf))).
    destruct (write_all script (drop (S n) (b :: buf))) as [[r sent] rest]. destruct IH as [Hp Hok].
    split.
    + rewrite <- (take_drop (S n) (b :: buf)) at 2. by apply prefix_app.
    + intros Hr. rewrite Hok by done. apply take_drop.
  - apply IH.
Qed.

Lemma write_all_vectored_exact script head body :
  exact (write_all_vectored script head body) (head ++ body).
Proof.
  revert head body. induction script as [|o script IH]; intros head body; cbn [write_all_vectored];
    destruct (head ++ body) as [|b l] eqn:E; try by split; [apply prefix_nil|].
  destruct o as [[|n]| |]; try by split; [apply prefix_nil|].
  set (sent := take (S n) (b :: l)).
  assert (Hs : head ++ body = sent ++ drop (length sent) (head ++ body)).
  { rewrite E. unfold sent. rewrite length_take. rewrite <- (take_drop (S n) (b :: l)) at 1. f_equal.
    destruct (Nat.le_gt_cases (S n) (length (b :: l))) as [Hle|Hgt].
    - by rewrite Nat.min_l.
    - rewrite Nat.min_r by lia. by rewrite !drop_ge by lia. }
  assert (Hrest : exact (if (length head <=? length sent)%nat
     then write_all_vectored script [] (drop (length sent - length head) body)
     else write_all_vectored script (drop (length sent) head) body)
     (drop (length sent) (head ++ body))).
  { destruct (Nat.leb_spec (length head) (length sent)) as [Hle|Hgt].
    - rewrite drop_app_ge by done. apply (IH []).
    - rewrite drop_app_le by lia. apply IH. }
  revert Hrest. match goal with |- exact ?m _ -> _ => destruct m as [[r sent'] rest] end.
  intros [Hp Hok]. rewrite <- E, Hs. split.
  - by apply prefix_app.
  - intros Hr. by rewrite Hok.
Qed.

Lemma then_flush_exact m s : exact m s -> exact (then_flush m) s.
Proof.
  destruct m as [[[[]| | |] sent] script]; cbn; intros [Hp Hok]; try done.
  rewrite <- (Hok eq_refl). unfold flush. destruct script as [|[| |] script]; rewrite app_nil_r; done.
Qed.

(** A writer that takes something at each of at least [n] calls. *)
Definition keen (n : nat) (script : list outcome) : Prop :=
  forallb takes script = true /\ (n <= length script)%nat.

Lemma keen_weaken n m script : keen n script -> (m <= n)%nat -> keen m script.
Proof. unfold keen. intros [Ht Hl] Hle. split; [done|lia]. Qed.

Lemma keen_cons n o script : keen (S n) (o :: script) -> takes o = true /\ keen n script.
Proof. intros [[Ho Ht]%andb_true_iff Hl]. cbn in Hl. split; [done|]. split; [done|lia]. Qed.

(** Enough calls that take something finish the job, with calls to spare. *)
Lemma write_all_done script buf n :
  keen (length buf + n) script ->
  exists rest, write_all script buf = (Ok tt, buf, rest) /\ keen n rest.
Proof.
  revert buf n. induction script as [|o script IH]; intros buf n Hk.
  { destruct buf; [by exists []|]. destruct Hk as [_ Hl]. cbn in Hl. lia. }
  destruct buf as [|b buf]; [by exists (o :: script)|].
  cbn [length Nat.add] in Hk. apply keen_cons in Hk as [Ho Hk].
  destruct o as [[|k]| |]; try done. cbn [write_all].
  destruct (IH (drop (S k) (b :: buf)) n) as (rest & -> & Hr).
  { eapply keen_weaken; [exact Hk|]. rewrite length_drop. cbn [length]. lia. }
  exists rest. by rewrite take_drop.
Qed.

Lemma write_all_vectored_done script head body n :
  keen (length (head ++ body) + n) script ->
  exists rest, write_all_vectored script head body = (Ok tt, head ++ body, rest) /\ keen n rest.
Proof.
  revert head body n. induction script as [|o script IH]; intros head body n Hk.
  { cbn [write_all_vectored]. destruct (head ++ body); [by exists []|]. destruct Hk as [_ Hl]. cbn in Hl. lia. }
  pose proof (write_all_vectored_exact (o :: script) head body) as Hex.
  cbn [write_all_vectored] in *. destruct (head ++ body) as [|b l] eqn:E; [by exists (o :: script)|].
  cbn [length Nat.add] in Hk. apply keen_cons in Hk as [Ho Hk]. destruct o as [[|k]| |]; try done.
  set (sent := take (S k) (b :: l)) in *.
  assert (Hsent : (0 < length sent)%nat) by (unfold sent; cbn; lia).
  assert (El : (length head + length body = S (length l))%nat) by (rewrite <- length_app, E; done).
  assert (Hrest : exists w rest, (if (length head <=? length sent)%nat
     then write_all_vectored script [] (drop (length sent - length head) body)
     else write_all_vectored script (drop (length sent) head) body) = (Ok tt, w, rest) /\ keen n rest).
  { destruct (Nat.leb_spec (length head) (length sent)) as [Hle|Hgt].
    - destruct (IH [] (drop (length sent - length head) body) n) as (rest & -> & Hr); [|by eauto].
      eapply keen_weaken; [exact Hk|]. cbn [app]. rewrite length_drop. lia.
    - destruct (IH (drop (length sent) head) body n) as (rest & -> & Hr); [|by eauto].
      eapply keen_weaken; [exact Hk|]. rewrite length_app, length_drop. lia. }
  destruct Hrest as (w & rest & Hw & Hr). rewrite Hw in *. destruct Hex as [_ Hok].
  exists rest. rewrite (Hok eq_refl). done.
Qed.

Lemma write_frame_done script payload n :
  len payload <= MAX_FRAME_LEN -> keen (length (frame payload) + S n) script ->
  exists rest, write_frame script payload = (Ok tt, frame payload, rest) /\ keen n rest.
Proof.
  intros Hl Hk. unfold write_frame. rewrite (proj2 (Z.ltb_ge _ _)) by done.
  assert (H : exists rest, (if len payload <=? COALESCE_LIMIT
      then write_all script (be_bytes 4 (len payload) ++ payload)
      else write_all_vectored script (be_bytes 4 (len payload)) payload)
    = (Ok tt, frame payload, rest) /\ keen (S n) rest).
  { destruct (_ <=? _); [by apply write_all_done|by apply write_all_vectored_done]. }
  destruct H as (rest & -> & Hr). cbn [then_flush]. destruct rest as [|o rest].
  { destruct Hr as [_ Hr]. cbn in Hr. lia. }
  apply keen_cons in Hr as [Ho Hr]. destruct o as [[|k]| |]; try done.
  cbn [flush]. rewrite app_nil_r. by exists rest.
Qed.

Lemma write_frame_sends script payload :
  len payload <= MAX_FRAME_LEN -> exact (write_frame script payload) (frame payload).
Proof.
  intros Hl. unfold write_frame. rewrite (proj2 (Z.ltb_ge _ _)) by done. apply then_flush_exact.
  destruct (_ <=? _); [apply write_all_exact|apply write_all_vectored_exact].
Qed.

Lemma be_val_bytes4 z : 0 <= z < 2 ^ 32 -> be_val (be_bytes 4 z) = z.
Proof.
  intros Hz. unfold be_val, be_bytes. rewrite rev_involutive, le_val_bytes. by apply Z.mod_small.
Qed.

Lemma read_exact_app s l n : length s = n -> read_exact n (s ++ l) = Ok (s, l).
Proof.
  intros <-. unfold read_exact. rewrite (proj2 (Nat.ltb_ge _ _)) by (rewrite length_app; lia).
  by rewrite take_app_length, drop_app_length.
Qed.

Lemma read_frame_reads payload l buf :
  len payload <= MAX_FRAME_LEN -> read_frame_into (frame payload ++ l) buf = Ok (payload, l).
Proof.
  intros Hl. unfold read_frame_into, frame. rewrite <- app_assoc.
  rewrite read_exact_app by apply be_bytes_length. cbn [mbind res_bind].
  pose proof (len_nonneg payload) as H0.
  rewrite be_val_bytes4 by (unfold MAX_FRAME_LEN in *; lia).
  rewrite (proj2 (Z.ltb_ge _ _)) by done. apply read_exact_app. unfold len. rewrite Nat2Z.id.
  rewrite length_take. destruct (Nat.ltb_spec (length buf) (length payload)).
  - rewrite length_app, length_replicate. lia.
  - lia.
Qed.

(** Read frame after frame into one buffer. *)
Fixpoint read_frames (n : nat) (r buf : bytes) : res IoError (list bytes * bytes) :=
  match n with
  | O => Ok ([], r)
  | S n =>
      '(payload, r) ← read_frame_into r buf;
      '(payloads, r) ← read_frames n r payload;
      Ok (payload :: payloads, r)
  end.

(** ** Properties *)



(** Writing a frame, over a writer that takes as little as it likes: what
    leaves is a prefix of the frame, and all of it when the call succeeds (both
    the coalesced and the vectored path, and a frame built in place); a writer
    that always takes something gets it all; an oversized payload is refused
    with nothing sent. *)
Theorem write_frame_exact script payload :
  (MAX_FRAME_LEN < len payload -> write_frame script payload = (Err InvalidInput, [], script))
  /\ (len payload <= MAX_FRAME_LEN ->
      exact (write_frame script payload) (frame payload)
      /\ exact (finish_frame script (begin_frame ++ payload)) (frame payload)
      /\ (forallb takes script = true -> (length (frame payload) < length script)%nat ->
          exists rest, write_frame script payload = (Ok tt, frame payload, rest))).
Proof.
  unfold write_frame. split; [intros Hl; by rewrite (proj2 (Z.ltb_lt _ _))|].
  intros Hl. rewrite (proj2 (Z.ltb_ge _ _)) by done. split_and!.
  - pose proof (write_frame_sends script payload Hl) as H. unfold write_frame in H.
    by rewrite (proj2 (Z.ltb_ge _ _)) in H.
  - unfold finish_frame. assert (El : len (begin_frame ++ payload) - 4 = len payload).
    { rewrite len_app. change (len begin_frame) with 4. lia. }
    destruct (Nat.ltb_spec (length (begin_frame ++ payload)) 4) as [Hlt|_].
    { rewrite length_app in Hlt. cbn in Hlt. lia. }
    rewrite El, (proj2 (Z.ltb_ge _ _)) by done. apply then_flush_exact.
    change (begin_frame ++ payload) with ([] ++ begin_frame ++ payload).
    rewrite (backfill_app []) by (by rewrite be_bytes_length). apply write_all_exact.
  - intros Ht Hlen. destruct (write_frame_done script payload 0 Hl) as (rest & Hw & _).
    + split; [done|]. lia.
    + unfold write_frame in Hw. rewrite (proj2 (Z.ltb_ge _ _)) in Hw by done. by exists rest.
Qed.

Lemma write_frame_exact_witness :
  exists rest, write_frame (replicate 8 (Accepts 1)) [x2a; x2b] = (Ok tt, frame [x2a; x2b], rest).
Proof.
  apply (write_frame_exact (replicate 8 (Accepts 1)) [x2a; x2b]); [by vm_compute|done|vm_compute; lia].
Defined.

(** An interrupted call is retried for a small frame, as [write_all] does,
    and ends the write for a large one, although [write_all_vectored] is
    documented as [write_all] over two buffers: the caller sees an error, and
    after a first partial write the peer a broken frame. *)
Theorem interrupted_write_fails script payload :
  len payload <= MAX_FRAME_LEN ->
  write_frame (Interrupts :: script) payload
  = if len payload <=? COALESCE_LIMIT then write_frame script payload
    else (Err Interrupted, [], script).
Proof.
  intros Hl. unfold write_frame. rewrite (proj2 (Z.ltb_ge _ _)) by done.
  destruct (Z.leb_spec (len payload) COALESCE_LIMIT) as [Hs|Hs].
  - f_equal.
  - destruct (be_bytes 4 (len payload)) as [|b l] eqn:E; [by apply (f_equal length) in E|]. done.
Qed.

Lemma interrupted_write_fails_witness :
  write_frame [Interrupts; Accepts 8] [x2a] = write_frame [Accepts 8] [x2a].
Proof. by apply (interrupted_write_fails [Accepts 8] [x2a]). Defined.
