(* ===== verification/Handshake.v ===== *)
(** * Handshake messages

    [crates/skaidb-proto/src/handshake.rs]: the frames of the authentication
    exchange and the message both sides sign. *)
From S2P Require Import Prelude Bytes Text Cursor Message.
#[local] Open Scope Z_scope.

Definition T_START : byte := x0a.
Definition T_CHALLENGE : byte := x0b.
Definition T_FINISH : byte := x0c.
Definition T_OUTCOME : byte := x0d.
Definition T_TOKEN : byte := x0e.

Inductive AuthMechanism := ScramSha256 | Gssapi | External.

Definition mechanism_default : AuthMechanism := ScramSha256.

Definition to_byte (m : AuthMechanism) : byte :=
  match m with ScramSha256 => x00 | Gssapi => x01 | External => x02 end.

Definition from_byte (b : byte) : res ProtoError AuthMechanism :=
  match b with
  | x00 => Ok ScramSha256
  | x01 => Ok Gssapi
  | x02 => Ok External
  | _ => Err (malformed "unknown auth mechanism")
  end.

Record AuthStart := { username : bytes; client_nonce : bytes; mechanism : AuthMechanism }.
Record AuthToken := { token : bytes }.
Record AuthChallenge := { salt : bytes; iterations : Z; server_nonce : bytes }.
Record AuthFinish := { client_proof : bytes }.
Inductive AuthOutcome := Granted (server_signature : bytes) | Denied (reason : bytes).

(** [format!], with NUL bytes between the parts. *)
Definition auth_message (username client_nonce server_nonce salt : bytes) (iterations : Z) : bytes :=
  username ++ [x00] ++ client_nonce ++ [x00] ++ server_nonce ++ [x00] ++ to_hex salt ++ [x00]
  ++ to_dec iterations.

(** ** Encoding *)

Definition put_bytes (b : bytes) : bytes := le_bytes 4 (len b) ++ b.
Definition put_str (s : bytes) : bytes := put_bytes s.

Definition start_encode (a : AuthStart) : bytes :=
  [T_START] ++ put_str a.(username) ++ put_str a.(client_nonce) ++ [to_byte a.(mechanism)].

Definition token_encode (a : AuthToken) : bytes := [T_TOKEN] ++ put_bytes a.(token).

Definition challenge_encode (a : AuthChallenge) : bytes :=
  [T_CHALLENGE] ++ put_bytes a.(salt) ++ le_bytes 4 a.(iterations) ++ put_str a.(server_nonce).

Definition finish_encode (a : AuthFinish) : bytes := [T_FINISH] ++ a.(client_proof).

Definition outcome_encode (a : AuthOutcome) : bytes :=
  match a with
  | Granted signature => [T_OUTCOME; x01] ++ signature
  | Denied reason => [T_OUTCOME; x00] ++ put_str reason
  end.

(** What a client that predates mechanisms sends. *)
Definition old_start_encode (username client_nonce : bytes) : bytes :=
  [T_START] ++ put_str username ++ put_str client_nonce.

(** ** Decoding *)

Section decode.
Abbreviation rd := (reader ProtoError).

Definition overflow := malformed "overflow".
Definition short := malformed "short handshake message".

Definition h_take (n : Z) : rd bytes := take_with overflow short n.
Definition h_u8 : rd byte := u8_with overflow short.
Definition h_u32 : rd Z := uint_with overflow short 4.
Definition h_bytes : rd bytes := bytes_with overflow short.
Definition h_string : rd bytes := string_with overflow short (malformed "bad utf-8").

(** [Reader::new]: the message's tag. *)
Definition expect (tag : byte) : rd unit :=
  b ← h_u8; if decide (b = tag) then mret tt else fail (malformed "unexpected handshake tag").

(** [c.remaining() > 0]. *)
Definition more : rd bool := fun c => Ok (0 <? remaining c, c).

Definition read_start : rd AuthStart :=
  _ ← expect T_START;
  u ← h_string;
  n ← h_string;
  left ← more;
  m ← (if left : bool then b ← h_u8; lift (from_byte b) else mret mechanism_default);
  mret {| username := u; client_nonce := n; mechanism := m |}.

Definition read_token : rd AuthToken := _ ← expect T_TOKEN; t ← h_bytes; mret {| token := t |}.

Definition read_challenge : rd AuthChallenge :=
  _ ← expect T_CHALLENGE;
  s ← h_bytes;
  i ← h_u32;
  n ← h_string;
  mret {| salt := s; iterations := i; server_nonce := n |}.

Definition read_finish : rd AuthFinish :=
  _ ← expect T_FINISH; p ← h_take 32; mret {| client_proof := p |}.

Definition read_outcome : rd AuthOutcome :=
  _ ← expect T_OUTCOME;
  b ← h_u8;
  if decide (b = x01) then s ← h_take 32; mret (Granted s)
  else if decide (b = x00) then r ← h_string; mret (Denied r)
  else fail (malformed "bad outcome tag").

End decode.

Definition start_decode (buf : bytes) : res ProtoError AuthStart := run read_start buf.
Definition token_decode (buf : bytes) : res ProtoError AuthToken := run read_token buf.
Definition challenge_decode (buf : bytes) : res ProtoError AuthChallenge := run read_challenge buf.
Definition finish_decode (buf : bytes) : res ProtoError AuthFinish := run read_finish buf.
Definition outcome_decode (buf : bytes) : res ProtoError AuthOutcome := run read_outcome buf.

Example start_ex :
  start_decode (start_encode {| username := str "bob"; client_nonce := str "n"; mechanism := Gssapi |})
  = Ok {| username := str "bob"; client_nonce := str "n"; mechanism := Gssapi |}.
Proof. vm_compute. reflexivity. Qed.

(** ** What the readers read back *)

Definition data_ok (b : bytes) : bool := len b <? 2 ^ 32.

Lemma string_reads_back s : text_ok s = true -> reads h_string (put_str s) s.
Proof. intros [Hu Hl%Z.ltb_lt]%andb_true_iff. by apply string_reads. Qed.

Lemma bytes_reads_back b : data_ok b = true -> reads h_bytes (put_bytes b) b.
Proof. intros Hl%Z.ltb_lt. by apply bytes_reads. Qed.

Lemma expect_reads {A} tag (k : unit -> reader ProtoError A) s a :
  reads (k tt) s a -> reads (expect tag ≫= k) (tag :: s) a.
Proof.
  intros Hk. change (tag :: s) with ([tag] ++ s). eapply reads_back_bind; [|exact Hk].
  change [tag] with ([tag] ++ []). eapply reads_back_bind; [apply u8_reads|].
  rewrite decide_True by done. apply reads_back_ret.
Qed.

Lemma fixed_reads n s : len s = n -> reads (h_take n) s s.
Proof. apply take_reads. Qed.

Lemma u32_reads z : is_uint 32 z = true -> reads h_u32 (le_bytes 4 z) z.
Proof.
  intros Hz%is_uint_spec. pose proof (uint_reads overflow short 4 z) as H.
  by rewrite Z.mod_small in H.
Qed.

Lemma mechanism_reads (f : AuthMechanism -> AuthStart) m :
  reads (left ← more; x ← (if left : bool then b ← h_u8; lift (from_byte b) else mret mechanism_default);
         mret (f x)) [to_byte m] (f m).
Proof.
  intros c l Hc Hl.
  assert (E : 0 < remaining c).
  { pose proof (rest_length c Hc) as Hlen. rewrite Hl, len_app in Hlen.
    pose proof (len_nonneg l). change (len [to_byte m]) with 1 in Hlen. lia. }
  unfold mbind at 1, reader_bind at 1, more. rewrite (proj2 (Z.ltb_lt _ _)) by done.
  assert (H : reads (x ← (b ← h_u8; lift (from_byte b)); mret (f x)) [to_byte m] (f m)).
  { eapply reads_end; [|done]. change [to_byte m] with ([to_byte m] ++ []).
    eapply reads_back_bind; [apply u8_reads|]. apply reads_back_lift. by destruct m. }
  by apply (H c l).
Qed.

Lemma start_reads a :
  text_ok a.(username) = true -> text_ok a.(client_nonce) = true -> reads read_start (start_encode a) a.
Proof.
  intros Hu Hn. destruct a as [u n m]. cbn [username client_nonce mechanism] in *.
  unfold start_encode, read_start. cbn [username client_nonce mechanism app].
  apply expect_reads. eapply reads_back_bind; [by apply string_reads_back|].
  eapply reads_back_bind; [by apply string_reads_back|].
  apply (mechanism_reads (fun m => {| username := u; client_nonce := n; mechanism := m |})).
Qed.

Lemma token_reads a : data_ok a.(token) = true -> reads read_token (token_encode a) a.
Proof.
  intros Ht. destruct a as [t]. apply expect_reads. eapply reads_end; [by apply bytes_reads_back|done].
Qed.

Lemma challenge_reads a :
  data_ok a.(salt) = true -> is_uint 32 a.(iterations) = true -> text_ok a.(server_nonce) = true ->
  reads read_challenge (challenge_encode a) a.
Proof.
  intros Hs Hi Hn. destruct a as [s i n]. apply expect_reads. cbn [salt iterations server_nonce] in *.
  eapply reads_back_bind; [by apply bytes_reads_back|].
  eapply reads_back_bind; [by apply u32_reads|]. eapply reads_end; [by apply string_reads_back|done].
Qed.

Lemma finish_reads a : len a.(client_proof) = 32 -> reads read_finish (finish_encode a) a.
Proof. intros Hl. destruct a as [p]. apply expect_reads. eapply reads_end; [by apply fixed_reads|done]. Qed.

Definition outcome_ok (a : AuthOutcome) : bool :=
  match a with Granted s => len s =? 32 | Denied r => text_ok r end.

Lemma outcome_reads a : outcome_ok a = true -> reads read_outcome (outcome_encode a) a.
Proof.
  intros Ha. destruct a as [s|r]; apply expect_reads; cbn [app].
  - apply Z.eqb_eq in Ha. change (x01 :: s) with ([x01] ++ s).
    eapply reads_back_bind; [apply u8_reads|]. rewrite decide_True by done.
    eapply reads_end; [by apply fixed_reads|done].
  - change (x00 :: put_str r) with ([x00] ++ put_str r).
    eapply reads_back_bind; [apply u8_reads|]. rewrite decide_False, decide_True by done.
    eapply reads_end; [by apply string_reads_back|done].
Qed.

(** ** The five kinds of message *)

Inductive message :=
| Start (a : AuthStart)
| Token (a : AuthToken)
| Challenge (a : AuthChallenge)
| Finish (a : AuthFinish)
| Outcome (a : AuthOutcome).

Definition message_encode (m : message) : bytes :=
  match m with
  | Start a => start_encode a
  | Token a => token_encode a
  | Challenge a => challenge_encode a
  | Finish a => finish_encode a
  | Outcome a => outcome_encode a
  end.

(** Strings are UTF-8, lengths fit, proofs and signatures have 32 bytes. *)
Definition message_ok (m : message) : bool :=
  match m with
  | Start a => text_ok a.(username) && text_ok a.(client_nonce)
  | Token a => data_ok a.(token)
  | Challenge a => data_ok a.(salt) && is_uint 32 a.(iterations) && text_ok a.(server_nonce)
  | Finish a => len a.(client_proof) =? 32
  | Outcome a => outcome_ok a
  end.

(** The decoder of the message's own kind. *)
Definition message_decode (like : message) (buf : bytes) : res ProtoError message :=
  match like with
  | Start _ => Start <$> start_decode buf
  | Token _ => Token <$> token_decode buf
  | Challenge _ => Challenge <$> challenge_decode buf
  | Finish _ => Finish <$> finish_decode buf
  | Outcome _ => Outcome <$> outcome_decode buf
  end.

Definition message_tag (m : message) : byte :=
  match m with
  | Start _ => T_START | Token _ => T_TOKEN | Challenge _ => T_CHALLENGE
  | Finish _ => T_FINISH | Outcome _ => T_OUTCOME
  end.

Lemma message_front m : exists s, message_encode m = message_tag m :: s.
Proof. destruct m as [| | | |[]]; eexists; reflexivity. Qed.

(** Another kind's decoder looks at the tag and refuses. *)
Lemma expect_other {A} tag b s (k : unit -> reader ProtoError A) :
  b <> tag -> is_slice (b :: s) -> run (expect tag ≫= k) (b :: s) = Err (malformed "unexpected handshake tag").
Proof.
  intros Hne Hs. unfold run, mbind, reader_bind, expect.
  pose proof (u8_reads overflow short b (cursor_new (b :: s)) s (cursor_new_ok _ Hs) eq_refl) as E.
  unfold mbind, reader_bind, h_u8. rewrite E. by rewrite decide_False.
Qed.

Lemma message_other like m l :
  message_tag like <> message_tag m -> is_slice (message_encode m ++ l) ->
  message_decode like (message_encode m ++ l) = Err (malformed "unexpected handshake tag").
Proof.
  destruct (message_front m) as [s ->]. intros Hne Hs. cbn [app] in *.
  destruct like; cbn [message_decode message_tag] in *;
    match goal with |- _ <$> ?d = _ => assert (E : d = Err (malformed "unexpected handshake tag"))
      by (by apply expect_other) end; by rewrite E.
Qed.

(** *** The readers come back *)

Lemma expect_parses tag : parses 1 some (expect tag).
Proof.
  eapply (parses_bind 1 0); [apply u8_parses| |lia]. intros b _.
  case_decide; [by apply parses_ret|apply parses_fail].
Qed.

Lemma expect_total {A} tag (k : unit -> reader ProtoError A) :
  reader_total (k tt) -> reader_total (expect tag ≫= k).
Proof.
  intros Hk. eapply total_bind; [|apply expect_parses|by intros []].
  eapply total_bind; [apply u8_total|apply u8_parses|]. intros b _. by case_decide.
Qed.

Lemma string_bind_total {A} (k : bytes -> reader ProtoError A) :
  (forall s, reader_total (k s)) -> reader_total (h_string ≫= k).
Proof. intros Hk. eapply total_bind; [apply string_total|apply string_parses|]. intros s _. apply Hk. Qed.

Lemma bytes_bind_total {A} (k : bytes -> reader ProtoError A) :
  (forall s, reader_total (k s)) -> reader_total (h_bytes ≫= k).
Proof. intros Hk. eapply total_bind; [apply bytes_total|apply bytes_parses|]. intros s _. apply Hk. Qed.

Lemma take32_bind_total {A} (k : bytes -> reader ProtoError A) :
  (forall s, reader_total (k s)) -> reader_total (h_take 32 ≫= k).
Proof. intros Hk. eapply total_bind; [apply take_total|by apply take_parses|]. intros s _. apply Hk. Qed.

Lemma start_total : reader_total read_start.
Proof.
  apply expect_total, string_bind_total. intros u. apply string_bind_total. intros n c Hc.
  unfold mbind at 1, reader_bind at 1, more. destruct (0 <? remaining c); [|done].
  revert c Hc. eapply total_bind; [| |done].
  - eapply total_bind; [apply u8_total|apply u8_parses|]. intros b _. apply total_lift. by destruct b.
  - eapply (parses_bind 1 0 0); [apply u8_parses| |lia]. intros b _. by apply (parses_lift _ some).
Qed.

Lemma message_total like buf : is_slice buf -> returns (message_decode like buf).
Proof.
  intros Hs. assert (H : forall {A} (r : reader ProtoError A) (f : A -> message),
    reader_total r -> returns (f <$> run r buf)).
  { intros A r f Hr. pose proof (run_returns r buf Hs Hr) as H. by destruct (run r buf). }
  destruct like; apply H.
  - apply start_total.
  - by apply expect_total, bytes_bind_total.
  - apply expect_total, bytes_bind_total. intros s. eapply total_bind; [apply uint_total|apply uint_parses|].
    intros i _. by apply string_bind_total.
  - by apply expect_total, take32_bind_total.
  - apply expect_total. eapply total_bind; [apply u8_total|apply u8_parses|]. intros b _.
    case_decide; [by apply take32_bind_total|]. case_decide; [by apply string_bind_total|done].
Qed.

Lemma message_back m l :
  message_ok m = true -> is_slice (message_encode m ++ l) -> message_decode m (message_encode m ++ l) = Ok m.
Proof.
  intros Hm Hs.
  destruct m as [a|a|a|a|a]; cbn [message_ok message_encode message_decode] in *.
  - apply andb_true_iff in Hm as []. unfold start_decode. by rewrite (run_reads _ _ _ a) by auto using start_reads.
  - unfold token_decode. by rewrite (run_reads _ _ _ a) by auto using token_reads.
  - apply andb_true_iff in Hm as [[]%andb_true_iff ?]. unfold challenge_decode.
    by rewrite (run_reads _ _ _ a) by auto using challenge_reads.
  - apply Z.eqb_eq in Hm. unfold finish_decode. by rewrite (run_reads _ _ _ a) by auto using finish_reads.
  - unfold outcome_decode. by rewrite (run_reads _ _ _ a) by auto using outcome_reads.
Qed.

(** ** Properties *)

(** The handshake survives the wire: each message of the exchange is read
    back by its own decoder from its encoding, whatever follows it, and refused
    by the decoders of the other kinds; on any bytes a decoder comes back. *)
Theorem handshake_roundtrip m l :
  message_ok m = true -> is_slice (message_encode m ++ l) ->
  message_decode m (message_encode m ++ l) = Ok m
  /\ (forall like, message_tag like <> message_tag m ->
        message_decode like (message_encode m ++ l) = Err (malformed "unexpected handshake tag"))
  /\ (forall like buf, is_slice buf -> returns (message_decode like buf)).
Proof.
  intros Hm Hs. split_and!; [|by intros; apply message_other|apply message_total].
  by apply message_back.
Qed.

Lemma handshake_roundtrip_witness :
  message_decode (Challenge {| salt := [x2a]; iterations := 15000; server_nonce := str "n" |})
    (challenge_encode {| salt := [x2a]; iterations := 15000; server_nonce := str "n" |} ++ [x01])
  = Ok (Challenge {| salt := [x2a]; iterations := 15000; server_nonce := str "n" |}).
Proof.
  apply (handshake_roundtrip (Challenge {| salt := [x2a]; iterations := 15000; server_nonce := str "n" |}) [x01]);
    by vm_compute.
Defined.

(** A client that predates mechanisms, and so sends no selector, is read as
    asking for SCRAM-SHA-256. *)
Theorem old_client_scram u n :
  text_ok u = true -> text_ok n = true -> is_slice (old_start_encode u n) ->
  start_decode (old_start_encode u n)
  = Ok {| username := u; client_nonce := n; mechanism := ScramSha256 |}.
Proof.
  intros Hu Hn Hs. unfold start_decode, run, read_start.
  set (c := cursor_new (old_start_encode u n)).
  assert (Hc : cursor_ok c) by by apply cursor_new_ok.
  assert (Hfront : reads (_ ← expect T_START; u ← h_string; n ← h_string; mret (u, n))
                     (old_start_encode u n) (u, n)).
  { apply expect_reads. eapply reads_back_bind; [by apply string_reads_back|].
    eapply reads_end; [by apply string_reads_back|done]. }
  pose proof (Hfront c [] Hc) as E. rewrite app_nil_r in E. specialize (E eq_refl).
  assert (Hend : rest (advance c (len (old_start_encode u n))) = []
                 /\ cursor_ok (advance c (len (old_start_encode u n)))).
  { destruct (rest_advance c (old_start_encode u n) [] Hc) as (Hr & Hc' & _);
      [by rewrite app_nil_r|done]. }
  destruct Hend as [Hr Hc'].
  unfold mbind, reader_bind in E |- *.
  destruct (expect T_START c) as [[[] c1]| | |]; try done.
  destruct (h_string c1) as [[u1 c2]| | |]; try done.
  destruct (h_string c2) as [[n1 c3]| | |]; try done.
  injection E as -> -> ->.
  assert (Er : remaining (advance c (len (old_start_encode u n))) = 0).
  { pose proof (rest_length _ Hc') as Hl. by rewrite Hr in Hl. }
  unfold more. by rewrite Er.
Qed.

Lemma old_client_scram_witness :
  start_decode (old_start_encode (str "bob") (str "n"))
  = Ok {| username := str "bob"; client_nonce := str "n"; mechanism := ScramSha256 |}.
Proof. by apply (old_client_scram (str "bob") (str "n")). Defined.

Lemma nul_split a a' s s' :
  x00 ∉ a -> x00 ∉ a' -> a ++ [x00] ++ s = a' ++ [x00] ++ s' -> a = a' /\ s = s'.
Proof.
  intros Ha Ha' E. pose proof (split_once_app x00 a s Ha) as H1.
  pose proof (split_once_app x00 a' s' Ha') as H2. cbn [app] in E. rewrite E, H2 in H1.
  by injection H1 as <- <-.
Qed.

Lemma hex_no_nul s : x00 ∉ to_hex s.
Proof. intros Hin%to_hex_u8. change (u8 x00) with 0 in Hin. lia. Qed.

(** The signed message binds what the two sides agreed on: without NUL
    bytes in the names, two exchanges sign the same message only if user,
    nonces, salt and iteration count all agree; a NUL shifts the boundary
    between the user name and the client's nonce. *)
Theorem auth_message_binds u n s salt i u' n' s' salt' i' :
  x00 ∉ u -> x00 ∉ n -> x00 ∉ s -> x00 ∉ u' -> x00 ∉ n' -> x00 ∉ s' -> 0 <= i -> 0 <= i' ->
  (auth_message u n s salt i = auth_message u' n' s' salt' i' ->
   u = u' /\ n = n' /\ s = s' /\ salt = salt' /\ i = i')
  /\ auth_message (u ++ [x00] ++ u') n s salt i = auth_message u (u' ++ [x00] ++ n) s salt i.
Proof.
  intros. unfold auth_message. split; [|by rewrite <- !app_assoc].
  intros E. apply nul_split in E as [-> E]; [|done..]. apply nul_split in E as [-> E]; [|done..].
  apply nul_split in E as [-> E]; [|done..]. apply nul_split in E as [E1 E2]; [|apply hex_no_nul..].
  split_and!; try done; [by apply to_hex_inj|by apply to_dec_inj].
Qed.

Lemma auth_message_binds_witness :
  auth_message (str "a") (str "n") (str "s") [x01] 1 <> auth_message (str "b") (str "n") (str "s") [x01] 1.
Proof.
  assert (Hn : forall b, b <> x00 -> x00 ∉ [b]).
  { intros b Hb. apply not_elem_of_cons. split; [congruence|apply not_elem_of_nil]. }
  destruct (auth_message_binds (str "a") (str "n") (str "s") [x01] 1 (str "b") (str "n") (str "s") [x01] 1)
    as [H _]; [by apply Hn|by apply Hn|by apply Hn|by apply Hn|by apply Hn|by apply Hn|lia|lia|].
  intros E. by destruct (H E).
Defined.
