(* ===== verification/Crypto.v ===== *)
(** * Cryptographic primitives

    [crates/skaidb-auth/src/crypto.rs]: SHA-256, HMAC-SHA-256, PBKDF2 and the
    constant-time comparison, executable; [Entropy] has its random bytes. *)
From S2P Require Import Prelude Bytes Text Cursor.
#[local] Open Scope Z_scope.

(** ** Words of 32 bits *)

Definition H0 : list Z :=
  [0x6a09e667; 0xbb67ae85; 0x3c6ef372; 0xa54ff53a; 0x510e527f; 0x9b05688c;
   0x1f83d9ab; 0x5be0cd19].

Definition K : list Z :=
  [0x428a2f98; 0x71374491; 0xb5c0fbcf; 0xe9b5dba5]
  ++ [0x3956c25b; 0x59f111f1; 0x923f82a4; 0xab1c5ed5]
  ++ [0xd807aa98; 0x12835b01; 0x243185be; 0x550c7dc3]
  ++ [0x72be5d74; 0x80deb1fe; 0x9bdc06a7; 0xc19bf174]
  ++ [0xe49b69c1; 0xefbe4786; 0x0fc19dc6; 0x240ca1cc]
  ++ [0x2de92c6f; 0x4a7484aa; 0x5cb0a9dc; 0x76f988da]
  ++ [0x983e5152; 0xa831c66d; 0xb00327c8; 0xbf597fc7]
  ++ [0xc6e00bf3; 0xd5a79147; 0x06ca6351; 0x14292967]
  ++ [0x27b70a85; 0x2e1b2138; 0x4d2c6dfc; 0x53380d13]
  ++ [0x650a7354; 0x766a0abb; 0x81c2c92e; 0x92722c85]
  ++ [0xa2bfe8a1; 0xa81a664b; 0xc24b8b70; 0xc76c51a3]
  ++ [0xd192e819; 0xd6990624; 0xf40e3585; 0x106aa070]
  ++ [0x19a4c116; 0x1e376c08; 0x2748774c; 0x34b0bcb5]
  ++ [0x391c0cb3; 0x4ed8aa4a; 0x5b9cca4f; 0x682e6ff3]
  ++ [0x748f82ee; 0x78a5636f; 0x84c87814; 0x8cc70208]
  ++ [0x90befffa; 0xa4506ceb; 0xbef9a3f7; 0xc67178f2].

(** [u32::rotate_right], [u32::wrapping_add] and [!]. *)
Definition rotate_right (x n : Z) : Z := Z.lor (Z.shiftr x n) (wrap 32 (Z.shiftl x (32 - n))).
Definition wrapping_add (a b : Z) : Z := wrap 32 (a + b).
Definition not32 (x : Z) : Z := Z.lxor x (2 ^ 32 - 1).

(** ** SHA-256 *)

(** [while data.len() % 64 != 56 { data.push(0) }]. *)
Fixpoint pad_zeros (fuel : nat) (data : bytes) : bytes :=
  match fuel with
  | O => data
  | S fuel => if len data mod 64 =? 56 then data else pad_zeros fuel (data ++ [x00])
  end.

Definition padded (msg : bytes) : bytes :=
  pad_zeros 64 (msg ++ [x80]) ++ be_bytes 8 (wrap 64 (len msg * 8)).

(** [chunks_exact(64)]; the remainder, if any, is left out. *)
Fixpoint chunks_exact (fuel : nat) (n : nat) (l : bytes) : list bytes :=
  match fuel with
  | O => []
  | S fuel => if (length l <? n)%nat then [] else take n l :: chunks_exact fuel n (drop n l)
  end.

Definition word (l : list Z) (i : nat) : Z := nth i l 0.

(** The first sixteen words of the schedule. *)
Definition block_words (chunk : bytes) : list Z :=
  map (fun i => be_val (take 4 (drop (i * 4) chunk))) (seq 0 16).

Definition schedule_step (w : list Z) (i : nat) : list Z :=
  let x := word w (i - 15) in
  let y := word w (i - 2) in
  let s0 := Z.lxor (Z.lxor (rotate_right x 7) (rotate_right x 18)) (Z.shiftr x 3) in
  let s1 := Z.lxor (Z.lxor (rotate_right y 17) (rotate_right y 19)) (Z.shiftr y 10) in
  w ++ [wrapping_add (wrapping_add (wrapping_add (word w (i - 16)) s0) (word w (i - 7))) s1].

Definition schedule (chunk : bytes) : list Z := fold_left schedule_step (seq 16 48) (block_words chunk).

Record regs := { ra : Z; rb : Z; rc : Z; rd : Z; re : Z; rf : Z; rg : Z; rh : Z }.

Definition regs_of (h : list Z) : regs := {|
  ra := word h 0; rb := word h 1; rc := word h 2; rd := word h 3;
  re := word h 4; rf := word h 5; rg := word h 6; rh := word h 7 |}.

Definition round (w : list Z) (r : regs) (i : nat) : regs :=
  let '(Build_regs a b c d e f g hh) := r in
  let s1 := Z.lxor (Z.lxor (rotate_right e 6) (rotate_right e 11)) (rotate_right e 25) in
  let ch := Z.lxor (Z.land e f) (Z.land (not32 e) g) in
  let t1 := wrapping_add (wrapping_add (wrapping_add (wrapping_add hh s1) ch) (word K i)) (word w i) in
  let s0 := Z.lxor (Z.lxor (rotate_right a 2) (rotate_right a 13)) (rotate_right a 22) in
  let maj := Z.lxor (Z.lxor (Z.land a b) (Z.land a c)) (Z.land b c) in
  let t2 := wrapping_add s0 maj in
  {| ra := wrapping_add t1 t2; rb := a; rc := b; rd := c; re := wrapping_add d t1; rf := e; rg := f;
     rh := g |}.

Definition compress (h : list Z) (chunk : bytes) : list Z :=
  let r := fold_left (round (schedule chunk)) (seq 0 64) (regs_of h) in
  [wrapping_add (word h 0) r.(ra); wrapping_add (word h 1) r.(rb);
   wrapping_add (word h 2) r.(rc); wrapping_add (word h 3) r.(rd);
   wrapping_add (word h 4) r.(re); wrapping_add (word h 5) r.(rf);
   wrapping_add (word h 6) r.(rg); wrapping_add (word h 7) r.(rh)].

Definition sha256 (msg : bytes) : bytes :=
  let data := padded msg in
  flat_map (be_bytes 4) (fold_left compress (chunks_exact (length data) 64 data) H0).

(** ** HMAC and PBKDF2 *)

Definition BLOCK : nat := 64.

Definition xor_bytes (a b : bytes) : bytes :=
  zip_with (fun x y => byte_of (Z.lxor (u8 x) (u8 y))) a b.

Definition hmac_block (key : bytes) : bytes :=
  let key := if (BLOCK <? length key)%nat then sha256 key else key in
  key ++ replicate (BLOCK - length key) x00.

Definition hmac_sha256 (key msg : bytes) : bytes :=
  let block := hmac_block key in
  let ipad := xor_bytes (replicate BLOCK x36) block in
  let opad := xor_bytes (replicate BLOCK x5c) block in
  sha256 (opad ++ sha256 (ipad ++ msg)).

(** The loop of [pbkdf2_hmac_sha256]: [u] and [result], [n] turns left. *)
Fixpoint pbkdf2_loop (n : nat) (password u result : bytes) : bytes :=
  match n with
  | O => result
  | S n =>
      let u := hmac_sha256 password u in
      pbkdf2_loop n password u (xor_bytes result u)
  end.

Definition pbkdf2_hmac_sha256 (password salt : bytes) (iterations : Z) : bytes :=
  let u := hmac_sha256 password (salt ++ be_bytes 4 1) in
  pbkdf2_loop (Z.to_nat (iterations - 1)) password u u.

Definition ct_eq (a b : bytes) : bool :=
  if negb (length a =? length b)%nat then false
  else
    fold_left (fun diff xy => Z.lor diff (Z.lxor (u8 xy.1) (u8 xy.2))) (zip a b) 0 =? 0.

Definition hex (bytes : bytes) : Bytes.bytes := to_hex bytes.

(** ** The published vectors *)

Example sha256_abc :
  hex (sha256 (str "abc")) = str "ba7816bf8f01cfea414140de5dae2223b00361a396177a9cb410ff61f20015ad".
Proof. vm_compute. reflexivity. Qed.

Example sha256_empty :
  hex (sha256 []) = str "e3b0c44298fc1c149afbf4c8996fb92427ae41e4649b934ca495991b7852b855".
Proof. vm_compute. reflexivity. Qed.

Example hmac_rfc4231_2 :
  hex (hmac_sha256 (str "Jefe") (str "what do ya want for nothing?"))
  = str "5bdcc146bf60754e6a042426089575c75a003f089d2739839dec58b964ec3843".
Proof. vm_compute. reflexivity. Qed.

Example pbkdf2_2 :
  hex (pbkdf2_hmac_sha256 (str "password") (str "salt") 2)
  = str "ae4d0c95af6b46d32d0adff928f06dd02a303f8ef3c251dfd6e2d85a95474c43".
Proof. vm_compute. reflexivity. Qed.

(** ** Padding *)

Lemma mod_pred x : x mod 64 <> 0 -> (x - 1) mod 64 = x mod 64 - 1.
Proof.
  intros Hx. pose proof (Z.mod_pos_bound x 64 ltac:(lia)). pose proof (Z.div_mod x 64 ltac:(lia)).
  symmetry. apply (Z.mod_unique _ _ (x / 64)); lia.
Qed.

Lemma pad_done n : n mod 64 = 56 <-> (56 - n) mod 64 = 0.
Proof.
  pose proof (Z.div_mod n 64 ltac:(lia)) as E. pose proof (Z.div_mod (56 - n) 64 ltac:(lia)) as E'.
  split; intros H; rewrite H in *; symmetry.
  - apply (Z.mod_unique _ _ (- (n / 64))); lia.
  - apply (Z.mod_unique _ _ (- ((56 - n) / 64))); lia.
Qed.

Lemma pad_zeros_spec fuel data :
  (Z.to_nat ((56 - len data) mod 64) < fuel)%nat ->
  pad_zeros fuel data = data ++ replicate (Z.to_nat ((56 - len data) mod 64)) x00.
Proof.
  revert data. induction fuel as [|fuel IH]; intros data Hf; [lia|]. cbn [pad_zeros].
  pose proof (Z.mod_pos_bound (56 - len data) 64 ltac:(lia)) as Hb.
  destruct (Z.eqb_spec (len data mod 64) 56) as [E|Hne].
  - apply pad_done in E. rewrite E. by rewrite app_nil_r.
  - rewrite pad_done in Hne.
    assert (Es : (56 - len (data ++ [x00])) mod 64 = (56 - len data) mod 64 - 1).
    { rewrite <- mod_pred by done. rewrite len_app. change (len [x00]) with 1. f_equal. lia. }
    revert Hf Hne Hb Es. generalize ((56 - len data) mod 64) as z. intros z Hf Hne Hb Es.
    rewrite IH by lia. rewrite Es, <- app_assoc.
    by replace (Z.to_nat z) with (S (Z.to_nat (z - 1))) by lia.
Qed.

(** How many zeros a message of [n] bytes gets. *)
Definition pad_count (n : Z) : nat := Z.to_nat ((55 - n) mod 64).

Lemma padded_spec msg :
  padded msg = msg ++ x80 :: replicate (pad_count (len msg)) x00 ++ be_bytes 8 (wrap 64 (len msg * 8)).
Proof.
  unfold padded. rewrite pad_zeros_spec.
  - rewrite len_app. change (len [x80]) with 1. unfold pad_count.
    replace (56 - (len msg + 1)) with (55 - len msg) by lia. by rewrite <- !app_assoc.
  - pose proof (Z.mod_pos_bound (56 - len (msg ++ [x80])) 64). lia.
Qed.

Lemma padded_length msg : (64 | len (padded msg)).
Proof.
  rewrite padded_spec, len_app. unfold len. cbn [length].
  rewrite length_app, length_replicate, be_bytes_length.
  assert (E : Z.of_nat (length msg) + Z.of_nat (S (pad_count (Z.of_nat (length msg)) + 8))
    = Z.of_nat (length msg) + 9 + (55 - Z.of_nat (length msg)) mod 64).
  { unfold pad_count. pose proof (Z.mod_pos_bound (55 - Z.of_nat (length msg)) 64). lia. }
  rewrite E. apply Z.mod_divide; [lia|]. rewrite Z.add_mod_idemp_r by lia.
  replace (Z.of_nat (length msg) + 9 + (55 - Z.of_nat (length msg))) with (1 * 64) by lia.
  by apply Z.mod_mul.
Qed.

Lemma chunks_exact_concat fuel n l :
  (0 < n)%nat -> (length l <= fuel)%nat -> (n | length l)%nat ->
  concat (chunks_exact fuel n l) = l /\ Forall (fun c => length c = n) (chunks_exact fuel n l).
Proof.
  intros Hn. revert l. induction fuel as [|fuel IH]; intros l Hl [k Hk]; cbn [chunks_exact].
  { destruct l; [done|cbn in Hl; lia]. }
  destruct (Nat.ltb_spec (length l) n) as [Hlt|Hge].
  - destruct k as [|k]; [|nia]. destruct l; [done|]. cbn in Hk. lia.
  - destruct (IH (drop n l)) as [Hc Hf].
    + rewrite length_drop. lia.
    + exists (k - 1)%nat. rewrite length_drop, Hk. nia.
    + split; [cbn; by rewrite Hc, take_drop|]. constructor; [rewrite length_take; lia|done].
Qed.

Lemma padded_inj m m' :
  len m < 2 ^ 61 -> len m' < 2 ^ 61 -> padded m = padded m' -> m = m'.
Proof.
  intros Hm Hm'. rewrite !padded_spec. intros E.
  assert (Hlen : len m = len m').
  { rewrite !(app_comm_cons _ _ x80), !app_assoc in E.
    apply app_inj_2 in E as [_ E]; [|by rewrite !be_bytes_length].
    apply (f_equal be_val) in E. unfold be_val, be_bytes in E.
    rewrite !rev_involutive, !le_val_bytes in E. pose proof (len_nonneg m). pose proof (len_nonneg m').
    change (256 ^ Z.of_nat 8) with (2 ^ 64) in E. unfold wrap in E.
    rewrite !(Z.mod_small (_ mod _)) in E by (apply Z.mod_pos_bound; lia).
    rewrite !Z.mod_small in E by lia. lia. }
  apply app_inj_1 in E as [E _]; [done|]. unfold len in Hlen. lia.
Qed.

Lemma compress_length h chunk : length (compress h chunk) = 8%nat.
Proof. done. Qed.

Lemma flat_map_length_eq {A} (f : A -> bytes) n l :
  (forall x, length (f x) = n) -> length (flat_map f l) = (n * length l)%nat.
Proof. intros Hf. induction l as [|x l IH]; cbn; [lia|]. rewrite length_app, Hf, IH. lia. Qed.

Lemma sha256_length msg : length (sha256 msg) = 32%nat.
Proof.
  unfold sha256. rewrite (flat_map_length_eq _ 4) by (intros; apply be_bytes_length).
  assert (H : forall cs h, length h = 8%nat -> length (fold_left compress cs h) = 8%nat).
  { induction cs as [|c cs IH]; intros h Hh; [done|]. by apply IH. }
  by rewrite H.
Qed.

Lemma hmac_length key msg : length (hmac_sha256 key msg) = 32%nat.
Proof. apply sha256_length. Qed.

(** ** The message schedule *)

Lemma schedule_loop k n w0 w :
  length w0 = k -> w = fold_left schedule_step (seq k n) w0 ->
  length w = (k + n)%nat /\ take k w = w0
  /\ (forall t, (k <= t < k + n)%nat -> word w t = word (schedule_step (take t w) t) t).
Proof.
  revert k w0. induction n as [|n IH]; intros k w0 Hk Ew; cbn [seq fold_left] in Ew.
  { subst w. split_and!; [lia|by rewrite take_ge by lia|lia]. }
  assert (Hs : length (schedule_step w0 k) = S k).
  { unfold schedule_step. rewrite length_app. cbn. lia. }
  destruct (IH (S k) (schedule_step w0 k) Hs Ew) as (Hl & Ht & Hw). clear Ew.
  assert (Hk0 : take k w = w0).
  { transitivity (take k (take (S k) w)); [by rewrite take_take, Nat.min_l by lia|]. rewrite Ht.
    unfold schedule_step. by apply take_app_length'. }
  split_and!; [lia|done|]. intros t Htr. destruct (decide (t = k)) as [->|Hne]; [|apply Hw; lia].
  rewrite Hk0. assert (Hn : forall l : list Z, word l k = word (take (S k) l) k).
  { intros l. unfold word. rewrite <- (take_drop (S k) l) at 1.
    destruct (Nat.le_gt_cases (S k) (length l)).
    - rewrite app_nth1; [done|]. rewrite length_take. lia.
    - by rewrite drop_ge, app_nil_r by lia. }
  by rewrite Hn, Ht.
Qed.

Lemma word_take w t i : (i < t)%nat -> word (take t w) i = word w i.
Proof.
  intros Hi. unfold word. destruct (Nat.le_gt_cases t (length w)).
  - rewrite <- (take_drop t w) at 2. rewrite app_nth1; [done|]. rewrite length_take. lia.
  - by rewrite take_ge by lia.
Qed.

Definition sigma0 (x : Z) : Z := Z.lxor (Z.lxor (rotate_right x 7) (rotate_right x 18)) (Z.shiftr x 3).
Definition sigma1 (x : Z) : Z := Z.lxor (Z.lxor (rotate_right x 17) (rotate_right x 19)) (Z.shiftr x 10).

Lemma schedule_words chunk :
  length (schedule chunk) = 64%nat
  /\ (forall t, (t < 16)%nat -> word (schedule chunk) t = be_val (take 4 (drop (t * 4) chunk)))
  /\ (forall t, (16 <= t < 64)%nat ->
        word (schedule chunk) t
        = (sigma1 (word (schedule chunk) (t - 2)) + word (schedule chunk) (t - 7)
           + sigma0 (word (schedule chunk) (t - 15)) + word (schedule chunk) (t - 16)) mod 2 ^ 32).
Proof.
  destruct (schedule_loop 16 48 (block_words chunk) (schedule chunk)) as (Hl & Ht & Hw).
  { unfold block_words. by rewrite length_map, length_seq. }
  { reflexivity. }
  revert Hl Ht Hw. generalize (schedule chunk) as w. intros w Hl Ht Hw. split_and!; [done| |].
  - intros t Hlt. rewrite <- (word_take _ 16) by done. rewrite Ht. unfold word, block_words.
    rewrite nth_lookup, list_lookup_fmap, lookup_seq_lt by done. done.
  - intros t Htr. rewrite Hw by done. unfold schedule_step.
    rewrite !word_take by lia. unfold word at 1. rewrite app_nth2; [|rewrite length_take; lia].
    rewrite length_take, Hl, Nat.min_l by lia. rewrite Nat.sub_diag. cbn [nth].
    fold (sigma0 (word w (t - 15))). fold (sigma1 (word w (t - 2))).
    generalize (word w (t - 16)) (sigma0 (word w (t - 15))) (word w (t - 7)) (sigma1 (word w (t - 2))).
    intros a b c d.
    unfold wrapping_add, wrap. rewrite !Z.add_mod_idemp_l, <- Z.add_assoc, Z.add_mod_idemp_l by lia.
    f_equal. lia.
Qed.

(** ** Comparison and PBKDF2 *)

Lemma lor_fold_zero l d :
  0 <= d -> Forall (fun x => 0 <= x) l -> fold_left Z.lor l d = 0 <-> d = 0 /\ Forall (fun x => x = 0) l.
Proof.
  revert d. induction l as [|x l IH]; intros d Hd Hl; cbn [fold_left]; [by rewrite Forall_nil; tauto|].
  inversion_clear Hl. rewrite IH; [|apply Z.lor_nonneg; by split|done]. rewrite Forall_cons, Z.lor_eq_0_iff. tauto.
Qed.

Lemma ct_eq_spec a b : ct_eq a b = true <-> a = b.
Proof.
  unfold ct_eq.
  destruct (Nat.eqb_spec (length a) (length b)) as [Hl|Hl]; cbn [negb]; [|by split; [|intros ->]].
  rewrite Z.eqb_eq.
  assert (H : forall l d, fold_left (fun diff xy => Z.lor diff (Z.lxor (u8 xy.1) (u8 xy.2))) l d
    = fold_left Z.lor (map (fun xy => Z.lxor (u8 xy.1) (u8 xy.2)) l) d).
  { induction l as [|x l IH]; intros d; [done|]. apply IH. }
  rewrite H, lor_fold_zero; [|done|].
  - split; [|intros ->].
    + intros [_ Hz]. apply list_eq_same_length with (length a); [done..|]. intros i x y Hi Hx Hy.
      rewrite Forall_forall in Hz. specialize (Hz (Z.lxor (u8 x) (u8 y))).
      apply (inj u8), Z.lxor_eq, Hz. apply list_elem_of_fmap. exists (x, y). split; [done|].
      apply list_elem_of_lookup. exists i. by apply lookup_zip_with_Some; eauto.
    + split; [done|]. clear H. induction b as [|x b IH]; cbn; constructor; [apply Z.lxor_nilpotent|].
      by apply IH.
  - rewrite Forall_forall. intros z ((x & y) & -> & _)%list_elem_of_fmap.
    apply Z.lxor_nonneg. pose proof (u8_range x). pose proof (u8_range y). cbn. lia.
Qed.

(** The [k]th of the values PBKDF2 combines. *)
Definition iterate (password salt : bytes) (k : nat) : bytes :=
  Nat.iter k (hmac_sha256 password) (hmac_sha256 password (salt ++ be_bytes 4 1)).

Lemma pbkdf2_loop_spec password salt n k acc :
  pbkdf2_loop n password (iterate password salt k) acc
  = fold_left xor_bytes (map (iterate password salt) (seq (S k) n)) acc.
Proof.
  revert k acc. induction n as [|n IH]; intros k acc; [done|]. cbn [pbkdf2_loop seq map fold_left].
  change (hmac_sha256 password (iterate password salt k)) with (iterate password salt (S k)). apply IH.
Qed.

(** ** Properties *)

(** SHA-256 hashes the whole message: the padding makes whole blocks of it,
    differs for different messages, and is cut into blocks without loss; each
    block's schedule satisfies the recurrence of the standard modulo [2^32];
    and the digest has 32 bytes. *)
Theorem sha256_blocks msg msg' chunk t :
  len msg < 2 ^ 61 -> len msg' < 2 ^ 61 -> (16 <= t < 64)%nat ->
  (padded msg = padded msg' -> msg = msg')
  /\ concat (chunks_exact (length (padded msg)) 64 (padded msg)) = padded msg
  /\ (let w := schedule chunk in
      word w t = (sigma1 (word w (t - 2)) + word w (t - 7) + sigma0 (word w (t - 15)) + word w (t - 16))
                 mod 2 ^ 32)
  /\ length (sha256 msg) = 32%nat.
Proof.
  intros Hm Hm' Ht. split_and!; [by apply padded_inj| |by apply schedule_words|apply sha256_length].
  apply chunks_exact_concat; [lia|done|]. destruct (padded_length msg) as [k Hk]. unfold len in Hk.
  exists (Z.to_nat k). lia.
Qed.

Lemma sha256_blocks_witness : length (sha256 (str "abc")) = 32%nat.
Proof. apply (sha256_blocks (str "abc") (str "abd") [] 16); [done|done|lia]. Defined.

(** PBKDF2 combines exactly the first [iterations] iterates (one, when
    asked for none), and the comparison that takes the same time wherever two
    digests differ says exactly whether they are equal. *)
Theorem pbkdf2_and_ct_eq_exact password salt n a b :
  pbkdf2_hmac_sha256 password salt n
  = fold_left xor_bytes (map (iterate password salt) (seq 1 (Z.to_nat (n - 1)))) (iterate password salt 0)
  /\ (ct_eq a b = true <-> a = b).
Proof.
  split; [apply (pbkdf2_loop_spec password salt _ 0)|apply ct_eq_spec].
Qed.
