(* ===== verification/Entropy.v ===== *)
(** * Random bytes

    [crates/skaidb-auth/src/crypto.rs]: the entropy source of the process and
    what stands in for it. *)
From S2P Require Import Prelude Bytes Text Crypto.
From Stdlib Require Import Znumtheory.
#[local] Open Scope Z_scope.

(** What each coming read of a device gives, byte by byte; a read fails at
    [None], and past the list. *)
Definition device := list (option (nat -> byte)).

(** The process: the source opened once ([Some None]: there is none), what
    opening each device would give, the flag, the counter of degraded draws,
    what the clock will say (nanoseconds since 1970, [None] before) and the
    process id.  No holder of the source's mutex panics, so it is never
    poisoned. *)
Record Entropy := {
  SOURCE : option (option device);
  dev_urandom : option device;
  dev_random : option device;
  ENTROPY_DEGRADED : bool;
  CTR : Z;
  nanos : list (option Z);
  pid : Z;
}.

Definition with_source s e := {|
  SOURCE := Some s; dev_urandom := e.(dev_urandom); dev_random := e.(dev_random);
  ENTROPY_DEGRADED := e.(ENTROPY_DEGRADED); CTR := e.(CTR); nanos := e.(nanos); pid := e.(pid) |}.

Definition entropy_degraded (e : Entropy) : bool := e.(ENTROPY_DEGRADED).

(** [SOURCE.get_or_init]. *)
Definition source (e : Entropy) : option device :=
  match e.(SOURCE) with
  | Some s => s
  | None => match e.(dev_urandom) with Some d => Some d | None => e.(dev_random) end
  end.

(** [read_exact] of no bytes asks the device for nothing. *)
Definition try_fill_random (n : nat) (e : Entropy) : res bytes bytes * Entropy :=
  match source e with
  | None => (Err (str "no OS entropy source (/dev/urandom, /dev/random)"), with_source None e)
  | Some d =>
      match n, d with
      | O, _ => (Ok [], with_source (Some d) e)
      | _, Some f :: d => (Ok (map f (seq 0 n)), with_source (Some d) e)
      | _, None :: d => (Err (str "OS entropy source read failed"), with_source (Some d) e)
      | _, [] => (Err (str "OS entropy source read failed"), with_source (Some []) e)
      end
  end.

(** ** The stand-in *)

Definition rotate_left (x k : Z) : Z := Z.lor (wrap 64 (Z.shiftl x k)) (Z.shiftr x (64 - k)).

Definition GOLDEN : Z := 0x9E3779B97F4A7C15.

(** [t ^ pid.rotate_left(32) ^ CTR]. *)
Definition seed_of (t p c : Z) : Z := Z.lxor (Z.lxor t (rotate_left p 32)) c.

(** The chunks of 32 bytes, the last one cut, from the [i]th on. *)
Fixpoint blocks (fuel : nat) (seed i : Z) (n : nat) : bytes :=
  match fuel with
  | O => []
  | S fuel =>
      match n with
      | O => []
      | _ => take (Nat.min 32 n) (hmac_sha256 (le_bytes 8 seed) (le_bytes 8 i)) ++ blocks fuel seed (i + 1) (n - 32)
      end
  end.

Definition now (e : Entropy) : Z := match e.(nanos) with Some t :: _ => wrap 64 t | _ => 0 end.

(** One draw without a source: the flag, the clock, the counter. *)
Definition degraded_seed (e : Entropy) : Z * Entropy :=
  (seed_of (now e) e.(pid) e.(CTR),
   {| SOURCE := e.(SOURCE); dev_urandom := e.(dev_urandom); dev_random := e.(dev_random);
      ENTROPY_DEGRADED := true; CTR := wrap 64 (e.(CTR) + GOLDEN); nanos := tail e.(nanos); pid := e.(pid) |}).

Definition fill_random (n : nat) (e : Entropy) : bytes * Entropy :=
  match try_fill_random n e with
  | (Ok b, e) => (b, e)
  | (_, e) => let '(seed, e) := degraded_seed e in (blocks (S n) seed 0 n, e)
  end.

Definition random_bytes (n : nat) (e : Entropy) : bytes * Entropy := fill_random n e.

(** ** What a draw gives *)

Lemma blocks_length fuel seed i n : (n < fuel)%nat -> length (blocks fuel seed i n) = n.
Proof.
  revert i n. induction fuel as [|fuel IH]; intros i n Hn; [lia|]. cbn [blocks]. destruct n as [|n]; [done|].
  rewrite length_app, length_take, hmac_length, IH by lia. lia.
Qed.

Lemma try_fill_cases n e :
  match try_fill_random n e with
  | (Ok b, e') => length b = n /\ ENTROPY_DEGRADED e' = ENTROPY_DEGRADED e /\ CTR e' = CTR e
  | (Err _, e') => e' = with_source (source e') e
  | _ => False
  end.
Proof.
  unfold try_fill_random. destruct (source e) as [d|]; [|done].
  destruct n as [|n]; [done|]. destruct d as [|[f|] d]; try done. cbn [fst snd].
  by rewrite length_map, length_seq.
Qed.

Lemma no_source n e : source e = None -> try_fill_random n e = (Err (str "no OS entropy source (/dev/urandom, /dev/random)"), with_source None e).
Proof. intros E. unfold try_fill_random. by rewrite E. Qed.

(** The state after [k] draws of [n] bytes. *)
Definition drawn (n k : nat) (e : Entropy) : Entropy := Nat.iter k (fun e => (fill_random n e).2) e.

Lemma drawn_degraded n k e :
  source e = None -> 0 <= e.(CTR) < 2 ^ 64 ->
  source (drawn n k e) = None /\ CTR (drawn n k e) = wrap 64 (e.(CTR) + Z.of_nat k * GOLDEN) /\ pid (drawn n k e) = pid e.
Proof.
  intros Hs Hc. induction k as [|k (IH1 & IH2 & IH3)].
  { cbn. split_and!; [done| |done]. unfold wrap. rewrite Z.add_0_r. by rewrite Z.mod_small. }
  change (drawn n (S k) e) with (fill_random n (drawn n k e)).2. unfold fill_random. rewrite (no_source n _ IH1).
  cbn [degraded_seed with_source SOURCE source CTR pid fst snd]. split_and!; [done| |done]. rewrite IH2. unfold wrap.
  rewrite Zplus_mod_idemp_l. f_equal. lia.
Qed.

(** The step of the counter is odd, so it takes [2 ^ 64] draws to come back. *)
Lemma counters_differ c i j :
  0 <= i < j -> j - i < 2 ^ 64 -> wrap 64 (c + i * GOLDEN) <> wrap 64 (c + j * GOLDEN).
Proof.
  intros Hij Hd E. unfold wrap in E.
  assert (Hdiv : (2 ^ 64 | (j - i) * GOLDEN)).
  { apply Z.mod_divide; [lia|]. replace ((j - i) * GOLDEN) with (c + j * GOLDEN - (c + i * GOLDEN)) by lia.
    rewrite Zminus_mod, E, Z.sub_diag. done. }
  rewrite Z.mul_comm in Hdiv. apply Gauss in Hdiv.
  - apply Z.divide_pos_le in Hdiv; lia.
  - apply Zgcd_1_rel_prime. vm_compute. done.
Qed.

Lemma lxor_inj_r a b c : Z.lxor a b = Z.lxor a c -> b = c.
Proof. intros E. rewrite <- (Z.lxor_0_l b), <- (Z.lxor_0_l c), <- (Z.lxor_nilpotent a), !Z.lxor_assoc. by rewrite E. Qed.

(** ** Properties *)


(** A process without [/dev]. *)
Definition wit_entropy : Entropy := {|
  SOURCE := None; dev_urandom := None; dev_random := None; ENTROPY_DEGRADED := false; CTR := 0;
  nanos := [Some 5; Some 5]; pid := 7 |}.

