(* ===== verification/Scram.v ===== *)
(** * SCRAM-SHA-256 credentials

    [crates/skaidb-auth/src/scram.rs]: the stored verifier, its two text forms,
    and the two sides of the exchange.  [Option] results are [res unit], [Err]
    standing for [None]: the hexadecimal decoders can also panic. *)
From S2P Require Import Prelude Bytes Text Cursor Crypto Entropy.
#[local] Open Scope Z_scope.

Definition DEFAULT_ITERATIONS : Z := 15000.

Definition SALT_LEN : nat := 16.
Definition random_salt (e : Entropy) : bytes * Entropy := random_bytes SALT_LEN e.

Record ScramCredential := {
  salt : bytes;
  iterations : Z;
  stored_key : bytes;
  server_key : bytes;
}.

#[export] Instance ScramCredential_eq_dec : EqDecision ScramCredential.
Proof. solve_decision. Defined.

(** The type's own bounds: [u32] and [[u8; 32]]. *)
Definition credential_ok (c : ScramCredential) : bool :=
  is_uint 32 c.(iterations) && (length c.(stored_key) =? 32)%nat && (length c.(server_key) =? 32)%nat.

Definition colon : byte := byte_of 58.
Definition dollar : byte := byte_of 36.
Definition scheme : bytes := str "SCRAM-SHA-256".

(** ** Text forms *)

Definition encode (c : ScramCredential) : bytes :=
  to_dec c.(iterations) ++ [colon] ++ hex c.(salt) ++ [colon] ++ hex c.(stored_key) ++ [colon]
  ++ hex c.(server_key).

Definition to_storage_string (c : ScramCredential) : bytes :=
  scheme ++ [dollar] ++ to_dec c.(iterations) ++ [dollar] ++ hex c.(salt) ++ [dollar]
  ++ hex c.(stored_key) ++ [dollar] ++ hex c.(server_key).

(** [(0..s.len()).step_by(2)], [n] pairs from byte [i]. *)
Fixpoint hex_pairs (s : bytes) (i n : nat) : res unit bytes :=
  match n with
  | O => Ok []
  | S n =>
      p ← str_slice s i (i + 2);
      b ← ok_or tt (u8_from_hex p);
      bs ← hex_pairs s (i + 2) n;
      Ok (b :: bs)
  end.

Definition unhex (s : bytes) : res unit bytes :=
  if negb (length s mod 2 =? 0)%nat then Err tt else hex_pairs s 0 (length s / 2).

Definition from_hex (s : bytes) : res unit bytes :=
  if negb (length s mod 2 =? 0)%nat then Err tt else hex_pairs s 0 (length s / 2).

(** [try_into] a [[u8; 32]]. *)
Definition key32 (b : bytes) : res unit bytes := if (length b =? 32)%nat then Ok b else Err tt.

(** [parts.next()?]. *)
Definition next_part (parts : list bytes) : res unit (bytes * list bytes) :=
  match parts with p :: parts => Ok (p, parts) | [] => Err tt end.

(** The parts both forms share, read by [unhex'] from what is left. *)
Definition decode (s : bytes) : res unit ScramCredential :=
  '(p, parts) ← next_part (split_on colon s);
  iterations ← ok_or tt (parse_u32 p);
  '(p, parts) ← next_part parts;
  salt ← unhex p;
  '(p, parts) ← next_part parts;
  p ← unhex p;
  stored_key ← key32 p;
  '(p, parts) ← next_part parts;
  p ← unhex p;
  server_key ← key32 p;
  if negb (bool_decide (parts = [])) then Err tt
  else Ok {| salt := salt; iterations := iterations; stored_key := stored_key; server_key := server_key |}.

Definition from_storage_string (s : bytes) : res unit ScramCredential :=
  '(p, parts) ← next_part (split_on dollar s);
  if negb (bool_decide (p = scheme)) then Err tt
  else
    '(p, parts) ← next_part parts;
    iterations ← ok_or tt (parse_u32 p);
    '(p, parts) ← next_part parts;
    salt ← from_hex p;
    '(p, parts) ← next_part parts;
    p ← from_hex p;
    stored_key ← key32 p;
    '(p, parts) ← next_part parts;
    p ← from_hex p;
    server_key ← key32 p;
    if negb (bool_decide (parts = [])) then Err tt
    else Ok {| salt := salt; iterations := iterations; stored_key := stored_key; server_key := server_key |}.

(** ** The exchange *)

Definition CLIENT_KEY : bytes := str "Client Key".
Definition SERVER_KEY : bytes := str "Server Key".

(** [ScramCredential::new]. *)
Definition credential_new (password salt : bytes) (iterations : Z) : ScramCredential :=
  let salted := pbkdf2_hmac_sha256 password salt iterations in
  let client_key := hmac_sha256 salted CLIENT_KEY in
  let stored_key := sha256 client_key in
  let server_key := hmac_sha256 salted SERVER_KEY in
  {| salt := salt; iterations := iterations; stored_key := stored_key; server_key := server_key |}.

Definition verify (c : ScramCredential) (auth_message client_proof : bytes) : option bytes :=
  let client_signature := hmac_sha256 c.(stored_key) auth_message in
  let client_key := xor_bytes client_proof client_signature in
  if ct_eq (sha256 client_key) c.(stored_key) then Some (hmac_sha256 c.(server_key) auth_message)
  else None.

Definition salted_password (password salt : bytes) (iterations : Z) : bytes :=
  pbkdf2_hmac_sha256 password salt iterations.

Definition client_proof_salted (salted auth_message : bytes) : bytes :=
  let client_key := hmac_sha256 salted CLIENT_KEY in
  let stored_key := sha256 client_key in
  let client_signature := hmac_sha256 stored_key auth_message in
  xor_bytes client_key client_signature.

Definition server_signature_salted (salted auth_message : bytes) : bytes :=
  let server_key := hmac_sha256 salted SERVER_KEY in
  hmac_sha256 server_key auth_message.

Definition client_proof (password salt : bytes) (iterations : Z) (auth_message : bytes) : bytes :=
  client_proof_salted (salted_password password salt iterations) auth_message.

Definition server_signature (password salt : bytes) (iterations : Z) (auth_message : bytes) : bytes :=
  server_signature_salted (salted_password password salt iterations) auth_message.

Example unhex_ex : unhex (str "00ff+a") = Ok (map byte_of [0; 255; 10]).
Proof. vm_compute. reflexivity. Qed.

Example verify_ex :
  verify (credential_new (str "pw") (str "salt") 2) (str "m") (client_proof (str "pw") (str "salt") 2 (str "m"))
  = Some (server_signature (str "pw") (str "salt") 2 (str "m")).
Proof. vm_compute. reflexivity. Qed.

Example verify_wrong :
  verify (credential_new (str "pw") (str "salt") 2) (str "m") (client_proof (str "px") (str "salt") 2 (str "m"))
  = None.
Proof. vm_compute. reflexivity. Qed.

(** ** Reading the text forms back *)

Lemma hex_pairs_to_hex pre bs :
  hex_pairs (to_hex (pre ++ bs)) (length (to_hex pre)) (length bs) = Ok bs.
Proof.
  revert pre. induction bs as [|b bs IH]; intros pre; cbn [length hex_pairs]; [done|].
  rewrite str_slice_ascii by
    (apply to_hex_ascii || (rewrite !to_hex_length, length_app; cbn [length]; lia)).
  replace (length (to_hex pre) + 2 - length (to_hex pre))%nat with 2%nat by lia.
  rewrite to_hex_app, drop_app_length, to_hex_cons, take_app_length' by done.
  cbn [mbind res_bind]. rewrite u8_from_hex_byte. cbn [ok_or mbind res_bind].
  specialize (IH (pre ++ [b])). rewrite <- app_assoc in IH. cbn [app] in IH.
  rewrite !to_hex_app, length_app, (to_hex_cons b bs) in IH.
  change (length (to_hex [b])) with 2%nat in IH. by rewrite IH.
Qed.

Lemma unhex_hex bs : unhex (hex bs) = Ok bs.
Proof.
  unfold unhex, hex. rewrite to_hex_length, Nat.mul_comm, Nat.Div0.mod_mul, Nat.div_mul by lia.
  exact (hex_pairs_to_hex [] bs).
Qed.

Lemma from_hex_hex bs : from_hex (hex bs) = Ok bs.
Proof. apply unhex_hex. Qed.

(** A pair that ends inside a character. *)
Lemma hex_pairs_panic pre bs x y z tl n :
  is_cont z = true -> (length bs < n)%nat ->
  hex_pairs (to_hex (pre ++ bs) ++ x :: y :: z :: tl) (length (to_hex pre)) n = Panic.
Proof.
  intros Hz. revert pre n. induction bs as [|b bs IH]; intros pre [|n] Hn; cbn [length] in Hn; try lia;
    cbn [hex_pairs].
  - rewrite app_nil_r. unfold str_slice. rewrite (andb_comm (_ && _)).
    replace (is_char_boundary _ (length (to_hex pre) + 2)) with false; [done|].
    unfold is_char_boundary. rewrite lookup_app_r by lia.
    replace (length (to_hex pre) + 2 - length (to_hex pre))%nat with 2%nat by lia. cbn. by rewrite Hz.
  - unfold str_slice. destruct (_ && _ && _); [|done].
    replace (length (to_hex pre) + 2 - length (to_hex pre))%nat with 2%nat by lia.
    rewrite to_hex_app, <- app_assoc, drop_app_length, to_hex_cons, <- app_assoc, take_app_length' by done.
    cbn [mbind res_bind]. rewrite u8_from_hex_byte. cbn [ok_or mbind res_bind].
    specialize (IH (pre ++ [b]) n). rewrite <- app_assoc in IH. cbn [app] in IH.
    rewrite !to_hex_app, length_app, <- !app_assoc, (to_hex_cons b bs), <- app_assoc in IH.
    change (length (to_hex [b])) with 2%nat in IH.
    by rewrite IH by lia.
Qed.

Lemma unhex_panics bs x y z tl :
  is_cont z = true -> (length tl mod 2 = 1)%nat -> unhex (hex bs ++ x :: y :: z :: tl) = Panic.
Proof.
  intros Hz Hl. unfold unhex, hex. pose proof (Nat.div_mod (length tl) 2) as Hd.
  assert (El : length (to_hex bs ++ x :: y :: z :: tl) = ((length bs + length tl / 2 + 2) * 2)%nat).
  { rewrite length_app, to_hex_length. cbn [length]. lia. }
  rewrite El, Nat.Div0.mod_mul, Nat.div_mul by lia. by apply (hex_pairs_panic []); [|lia].
Qed.

Lemma from_hex_panics bs x y z tl :
  is_cont z = true -> (length tl mod 2 = 1)%nat -> from_hex (hex bs ++ x :: y :: z :: tl) = Panic.
Proof. apply unhex_panics. Qed.

Lemma sep_free (sep : byte) (s : bytes) :
  (forall c, c ∈ s -> 48 <= u8 c <= 57 \/ 97 <= u8 c <= 102) ->
  ~ (48 <= u8 sep <= 57 \/ 97 <= u8 sep <= 102) -> sep ∉ s.
Proof. intros Hs Hsep Hin. by apply Hsep, Hs. Qed.

Lemma sep_dec sep n : 0 <= n -> ~ (48 <= u8 sep <= 57 \/ 97 <= u8 sep <= 102) -> sep ∉ to_dec n.
Proof.
  intros Hn. apply sep_free. intros c Hc.
  pose proof (proj1 (Forall_forall _ _) (to_dec_digits n Hn) c Hc) as Hd. cbv beta in Hd.
  unfold is_dec_digit, in_range in Hd. lia.
Qed.

Lemma sep_hex sep b : ~ (48 <= u8 sep <= 57 \/ 97 <= u8 sep <= 102) -> sep ∉ hex b.
Proof. apply sep_free. intros c. apply to_hex_u8. Qed.

Lemma dollar_scheme : dollar ∉ scheme.
Proof. by apply (bool_decide_unpack (dollar ∉ scheme)). Qed.

(** The four parts of both forms, split again. *)
Lemma split_parts sep n a b c :
  0 <= n -> ~ (48 <= u8 sep <= 57 \/ 97 <= u8 sep <= 102) ->
  split_on sep (to_dec n ++ [sep] ++ hex a ++ [sep] ++ hex b ++ [sep] ++ hex c)
  = [to_dec n; hex a; hex b; hex c].
Proof.
  intros Hn Hs. cbn [app]. rewrite !split_on_app, split_on_nosep by auto using sep_dec, sep_hex. done.
Qed.

Lemma key32_ok b : length b = 32%nat -> key32 b = Ok b.
Proof. unfold key32. by intros ->. Qed.

(** ** Algebra of the exchange *)

Lemma testbit_high z n : 0 <= z < 256 -> 8 <= n -> Z.testbit z n = false.
Proof.
  intros Hz Hn. apply Z.testbit_false; [lia|].
  assert (2 ^ 8 <= 2 ^ n) by (apply Z.pow_le_mono_r; lia). by rewrite Z.div_small by lia.
Qed.

Lemma xor_bytes_involutive a b : length a = length b -> xor_bytes (xor_bytes a b) b = a.
Proof.
  revert b. induction a as [|x a IH]; intros [|y b] Hl; cbn; try done. injection Hl as Hl.
  change (byte_of (Z.lxor (u8 (byte_of (Z.lxor (u8 x) (u8 y)))) (u8 y)) :: xor_bytes (xor_bytes a b) b
          = x :: a).
  rewrite IH by done. f_equal. rewrite u8_byte_of.
  pose proof (u8_range x) as Hx. pose proof (u8_range y) as Hy.
  assert (H : Z.lxor (u8 x) (u8 y) mod 256 = Z.lxor (u8 x) (u8 y)).
  { change 256 with (2 ^ 8). rewrite <- Z.land_ones by lia. apply Z.bits_inj'. intros n Hn.
    rewrite Z.land_spec, Z.lxor_spec, Z.testbit_ones_nonneg by lia.
    destruct (Z.ltb_spec n 8) as [Hlt|Hge]; [by rewrite andb_true_r|].
    by rewrite andb_false_r, !testbit_high. }
  rewrite H, Z.lxor_assoc, Z.lxor_nilpotent, Z.lxor_0_r. apply byte_of_u8.
Qed.

Lemma xor_bytes_length a b : length a = length b -> length (xor_bytes a b) = length a.
Proof. intros Hl. unfold xor_bytes. rewrite length_zip_with. lia. Qed.

(** What the server accepts: a proof that, with the signature taken off, is a
    preimage of the stored key. *)
Lemma verify_spec c m proof :
  verify c m proof
  = if bool_decide (sha256 (xor_bytes proof (hmac_sha256 c.(stored_key) m)) = c.(stored_key))
    then Some (hmac_sha256 c.(server_key) m) else None.
Proof.
  unfold verify. match goal with |- (if ?b then _ else _) = _ => destruct b eqn:E end.
  - apply ct_eq_spec in E. by rewrite bool_decide_true.
  - rewrite bool_decide_false; [done|]. intros E'%ct_eq_spec. congruence.
Qed.

(** The key a proof for [m] was made from, as the server takes it off. *)
Definition proof_key (c : ScramCredential) (m proof : bytes) : bytes :=
  xor_bytes proof (hmac_sha256 c.(stored_key) m).

Lemma verify_accepts c m proof : verify c m proof <> None <-> sha256 (proof_key c m proof) = c.(stored_key).
Proof.
  rewrite verify_spec. unfold proof_key.
  generalize (sha256 (xor_bytes proof (hmac_sha256 c.(stored_key) m))) as a. intros a.
  destruct (bool_decide_reflect (a = c.(stored_key))); naive_solver.
Qed.

Lemma verify_answer c m proof :
  verify c m proof = None \/ verify c m proof = Some (hmac_sha256 c.(server_key) m).
Proof. unfold verify. destruct (ct_eq _ _); auto. Qed.

Lemma proof_key_xor c m k :
  length k = 32%nat -> proof_key c m (xor_bytes k (hmac_sha256 c.(stored_key) m)) = k.
Proof. intros Hk. unfold proof_key. apply xor_bytes_involutive. by rewrite hmac_length. Qed.

(** A proof is determined by its key. *)
Lemma proof_of_key c m proof :
  length proof = 32%nat -> xor_bytes (proof_key c m proof) (hmac_sha256 c.(stored_key) m) = proof.
Proof. intros Hl. unfold proof_key. apply xor_bytes_involutive. by rewrite hmac_length. Qed.

Lemma proof_eq password s it m :
  client_proof password s it m
  = xor_bytes (hmac_sha256 (salted_password password s it) CLIENT_KEY)
      (hmac_sha256 (sha256 (hmac_sha256 (salted_password password s it) CLIENT_KEY)) m).
Proof. unfold client_proof, client_proof_salted. cbv zeta. reflexivity. Qed.

Lemma new_stored password s it :
  (credential_new password s it).(stored_key)
  = sha256 (hmac_sha256 (salted_password password s it) CLIENT_KEY).
Proof. unfold credential_new, salted_password. cbn [stored_key]. reflexivity. Qed.

Lemma new_server password s it m :
  hmac_sha256 (credential_new password s it).(server_key) m = server_signature password s it m.
Proof.
  unfold credential_new, server_signature, server_signature_salted, salted_password.
  cbn [server_key]. reflexivity.
Qed.

(** The server accepts its user's proof, and answers what the user expects. *)
Lemma verify_own password s it m :
  verify (credential_new password s it) m (client_proof password s it m) = Some (server_signature password s it m).
Proof.
  rewrite <- new_server, proof_eq. pose proof (new_stored password s it) as Hst.
  revert Hst. generalize (credential_new password s it). intros c Hst. rewrite <- Hst.
  pose proof (hmac_length (salted_password password s it) CLIENT_KEY) as Hk.
  revert Hst Hk. generalize (hmac_sha256 (salted_password password s it) CLIENT_KEY). intros k Hst Hk.
  match goal with |- verify c m ?proof = _ => destruct (verify_answer c m proof) as [Hn|Ha] end; [|done].
  destruct (proj2 (verify_accepts c m (xor_bytes k (hmac_sha256 (stored_key c) m)))); [|done].
  by rewrite proof_key_xor.
Qed.

(** ** Properties *)

(** A verifier survives both of its text forms, the replicated and the
    stored one, exactly. *)
Theorem credential_roundtrip c :
  credential_ok c = true -> decode (encode c) = Ok c /\ from_storage_string (to_storage_string c) = Ok c.
Proof.
  unfold credential_ok. intros [[Hi Hs%Nat.eqb_eq]%andb_true_iff Hk%Nat.eqb_eq]%andb_true_iff.
  destruct c as [sa it st se]. apply is_uint_spec in Hi. cbn [salt iterations stored_key server_key] in *.
  unfold decode, encode, from_storage_string, to_storage_string.
  cbn [salt iterations stored_key server_key].
  rewrite split_parts by (lia || (vm_compute; intuition congruence)). split.
  - cbn [next_part mbind res_bind]. rewrite parse_u32_to_dec by done. cbn [ok_or mbind res_bind].
    rewrite !unhex_hex. cbn [mbind res_bind]. rewrite !key32_ok by done. done.
  - change (scheme ++ [dollar] ++ to_dec it ++ [dollar] ++ hex sa ++ [dollar] ++ hex st ++ [dollar] ++ hex se)
      with (scheme ++ dollar :: (to_dec it ++ [dollar] ++ hex sa ++ [dollar] ++ hex st ++ [dollar] ++ hex se)).
    rewrite split_on_app by apply dollar_scheme.
    rewrite split_parts by (lia || (vm_compute; intuition congruence)).
    cbn [next_part mbind res_bind]. rewrite bool_decide_true by done. cbn [negb].
    rewrite parse_u32_to_dec by done. cbn [ok_or mbind res_bind].
    rewrite !from_hex_hex. cbn [mbind res_bind]. rewrite !key32_ok by done. done.
Qed.

Lemma credential_roundtrip_witness :
  decode (encode {| salt := [x01]; iterations := 4096; stored_key := replicate 32 xab;
                    server_key := replicate 32 xcd |})
  = Ok {| salt := [x01]; iterations := 4096; stored_key := replicate 32 xab;
          server_key := replicate 32 xcd |}.
Proof.
  apply (credential_roundtrip {| salt := [x01]; iterations := 4096; stored_key := replicate 32 xab;
                                 server_key := replicate 32 xcd |}). by vm_compute.
Defined.

(** A malformed verifier is not always [None]: both parsers panic on a text
    whose salt has, after whole pairs of digits, a pair that ends inside a
    character, at an even length. *)
Theorem credential_parsers_panic it bs x y z tl t :
  0 <= it < 2 ^ 32 -> is_cont z = true -> (length tl mod 2 = 1)%nat ->
  colon ∉ x :: y :: tl -> dollar ∉ x :: y :: tl ->
  decode (to_dec it ++ colon :: (hex bs ++ x :: y :: z :: tl) ++ colon :: t) = Panic
  /\ from_storage_string
       (scheme ++ dollar :: to_dec it ++ dollar :: (hex bs ++ x :: y :: z :: tl) ++ dollar :: t) = Panic.
Proof.
  intros Hit Hz Hl Hc Hd.
  assert (Hsep : forall sep, is_cont sep = false -> sep ∉ hex bs -> sep ∉ x :: y :: tl ->
            sep ∉ hex bs ++ x :: y :: z :: tl).
  { intros sep Hs Hh Hx. rewrite elem_of_app, !elem_of_cons in *. intros [?|[?|[?|[->|?]]]]; try tauto.
    congruence. }
  unfold decode, from_storage_string. rewrite !split_on_app; cycle 1.
  all: try (apply sep_dec; [lia|]; vm_compute; intuition congruence).
  all: try apply dollar_scheme.
  1, 2: apply Hsep; [done|apply sep_hex; vm_compute; intuition congruence|done].
  cbn [next_part mbind res_bind]. rewrite bool_decide_true by done. cbn [negb].
  rewrite !parse_u32_to_dec by done. cbn [ok_or mbind res_bind].
  by rewrite (unhex_panics bs x y z tl), (from_hex_panics bs x y z tl).
Qed.

Lemma credential_parsers_panic_witness :
  utf8_valid [x31; x3a; x61; xc3; xa9; x62; x3a] = true
  /\ decode [x31; x3a; x61; xc3; xa9; x62; x3a] = Panic.
Proof.
  split; [by vm_compute|].
  apply (credential_parsers_panic 1 [] x61 xc3 xa9 [x62] []); try by vm_compute.
  all: by rewrite !not_elem_of_cons; split_and!; [..|apply not_elem_of_nil].
Defined.

(** C26: mutual authentication: the verifier made from a password accepts the
    proof made from that password and answers with the signature the client
    expects; whatever it accepts is a proof whose key hashes to the stored key,
    and the answer depends on the server key and the message alone; so an
    accepted proof that is not the password's own exhibits two preimages of the
    stored key. *)
Theorem scram_mutual_auth password s it m proof :
  let c := credential_new password s it in
  verify c m (client_proof password s it m) = Some (server_signature password s it m)
  /\ (verify c m proof = None \/ verify c m proof = Some (server_signature password s it m))
  /\ (verify c m proof <> None <-> sha256 (proof_key c m proof) = c.(stored_key))
  /\ (length proof = 32%nat -> verify c m proof <> None -> proof <> client_proof password s it m ->
      let k := hmac_sha256 (salted_password password s it) CLIENT_KEY in
      proof_key c m proof <> k /\ sha256 (proof_key c m proof) = sha256 k).
Proof.
  cbv zeta. pose proof (new_server password s it m) as Hsrv. pose proof (new_stored password s it) as Hst.
  pose proof (proof_eq password s it m) as Hpf.
  pose proof (verify_own password s it m) as Hown.
  revert Hsrv Hst Hpf Hown. generalize (credential_new password s it) (client_proof password s it m)
    (server_signature password s it m) (salted_password password s it). intros c own sig salted Hsrv Hst Hpf Hown.
  pose proof (hmac_length salted CLIENT_KEY) as Hk.
  revert Hst Hpf Hk. generalize (hmac_sha256 salted CLIENT_KEY) as k. intros k Hst Hpf Hk.
  split; [|split; [|split]].
  - exact Hown.
  - rewrite <- Hsrv. apply verify_answer.
  - apply verify_accepts.
  - intros Hl Hv%verify_accepts Hne. split; [|by rewrite <- Hst]. intros E. apply Hne.
    rewrite Hpf, <- Hst, <- E. symmetry. by apply proof_of_key.
Qed.
