(* ===== verification/Sql.v ===== *)
(** * Statements the driver reads or writes

    [src/lib.rs]: which statements count as writes for read-your-writes
    ([is_write]), and the statements the driver composes itself: the session's
    database, its scan budget and the poll of a stream's log, with their
    quoting. *)
From S2P Require Import Prelude Bytes Text Cursor.
#[local] Open Scope Z_scope.

(** ** Leading keywords *)

Definition READ_KEYWORDS : list bytes :=
  [str "select"; str "show"; str "explain"; str "describe"; str "desc"; str "values"; str "with"; str "use"].

(** [u8::is_ascii_whitespace], [u8::is_ascii_alphabetic] and [u8::to_ascii_lowercase]. *)
Definition is_ws (b : byte) : bool :=
  let x := u8 b in (x =? 32) || (x =? 9) || (x =? 10) || (x =? 12) || (x =? 13).
Definition is_alpha (b : byte) : bool := in_range 65 90 b || in_range 97 122 b.
Definition to_lower (b : byte) : byte := if in_range 65 90 b then byte_of (u8 b + 32) else b.

Definition paren : byte := byte_of 40.
Definition newline : byte := byte_of 10.
Definition underscore : byte := byte_of 95.
Definition dash2 : bytes := [x2d; x2d].
Definition open_comment : bytes := [x2f; x2a].
Definition close_comment : bytes := [x2a; x2f].

(** [slice::starts_with] and [iter().position]. *)
Fixpoint starts_with (p s : bytes) : bool :=
  match p, s with
  | [], _ => true
  | x :: p, y :: s => bool_decide (x = y) && starts_with p s
  | _, [] => false
  end.

Fixpoint position (f : byte -> bool) (s : bytes) : option nat :=
  match s with
  | [] => None
  | b :: s => if f b then Some 0%nat else S <$> position f s
  end.

(** [windows(2).position(|w| w == pat)] for a pattern of two bytes. *)
Fixpoint find2 (pat s : bytes) : option nat :=
  match s with
  | [] => None
  | b :: s' => if starts_with pat s then Some 0%nat else S <$> find2 pat s'
  end.

(** The loop over [i]; one turn moves on or stops. *)
Fixpoint skip_trivia (fuel : nat) (b : bytes) (i : nat) : res unit nat :=
  match fuel with
  | O => OutOfFuel
  | S fuel =>
      if (i <? length b)%nat then
        let s := drop i b in
        if match s with x :: _ => is_ws x || bool_decide (x = paren) | [] => false end
        then skip_trivia fuel b (i + 1)
        else if starts_with dash2 s then
          skip_trivia fuel b
            (match position (fun c => bool_decide (c = newline)) s with
             | Some j => (i + j + 1)%nat | None => length b end)
        else if starts_with open_comment s then
          skip_trivia fuel b
            (match find2 close_comment (drop (i + 2) b) with
             | Some j => (i + 2 + j + 2)%nat | None => length b end)
        else Ok i
      else Ok i
  end.

Definition word_byte (c : byte) : bool := is_alpha c || bool_decide (c = underscore).

Definition eq_ignore_ascii_case (a b : bytes) : bool := bool_decide (map to_lower a = map to_lower b).

Definition is_write (sql : bytes) : res unit bool :=
  i ← skip_trivia (S (length sql)) sql 0;
  let end_ := match position (fun c => negb (word_byte c)) (drop i sql) with
              | Some j => (i + j)%nat | None => length sql end in
  word ← str_slice sql i end_;
  Ok (negb (existsb (eq_ignore_ascii_case word) READ_KEYWORDS)).

Example is_write_1 : is_write (str " -- a SELECT
  /* (insert */ ( Select 1)") = Ok false.
Proof. vm_compute. reflexivity. Qed.
Example is_write_2 : is_write (str "selection") = Ok true.
Proof. vm_compute. reflexivity. Qed.
Example is_write_3 : is_write (str "/*/ select 1") = Ok true.
Proof. vm_compute. reflexivity. Qed.

(** ** Statements the driver composes *)

Definition dquote : byte := byte_of 34.
Definition squote : byte := byte_of 39.

(** [s.replace(q, "qq")] for a one-byte [q]. *)
Definition double (q : byte) (s : bytes) : bytes :=
  flat_map (fun b => if bool_decide (b = q) then [q; q] else [b]) s.

(** [apply_database]'s statement. *)
Definition use_sql (db : bytes) : bytes := str "USE " ++ [dquote] ++ double dquote db ++ [dquote].

(** [set_scan_budget_rows] and [apply_scan_budget]. *)
Definition budget_sql (rows : Z) : bytes := str "SET SCAN BUDGET ROWS " ++ to_dec rows.
Definition set_budget_sql (rows : Z) : bytes :=
  if rows =? 0 then str "SET SCAN BUDGET DEFAULT" else budget_sql rows.

(** [stream_poll]'s statement. *)
Definition poll_sql (stream after : bytes) (limit : Z) : bytes :=
  let log := str "_stream_" ++ stream in
  match after with
  | [] => str "SELECT id, op, k, ts, doc FROM " ++ log ++ str " ORDER BY id LIMIT " ++ to_dec limit
  | _ =>
      str "SELECT id, op, k, ts, doc FROM " ++ log ++ str " WHERE id > '" ++ double squote after
      ++ str "' ORDER BY id LIMIT " ++ to_dec limit
  end.

(** A quoted token of SQL, from just after its opening quote: what it stands
    for and what follows its closing quote. *)
Fixpoint quoted (q : byte) (s : bytes) : option (bytes * bytes) :=
  match s with
  | [] => None
  | b :: s =>
      if bool_decide (b = q) then
        match s with
        | b' :: s' =>
            if bool_decide (b' = q) then
              match quoted q s' with Some (t, r) => Some (q :: t, r) | None => None end
            else Some ([], s)
        | [] => Some ([], [])
        end
      else match quoted q s with Some (t, r) => Some (b :: t, r) | None => None end
  end.

(** ** Quoting *)

Lemma quoted_double q s r :
  (forall b r', r = b :: r' -> b <> q) -> quoted q (double q s ++ q :: r) = Some (s, r).
Proof.
  intros Hr. induction s as [|b s IH]; cbn [double flat_map app quoted].
  - rewrite bool_decide_true by done. destruct r as [|b r]; [done|].
    by rewrite bool_decide_false by eauto.
  - change (flat_map _ s) with (double q s). destruct (bool_decide_reflect (b = q)) as [->|Hb]; cbn [app quoted].
    + by rewrite !bool_decide_true, IH.
    + by rewrite bool_decide_false, IH.
Qed.

(** ** UTF-8 boundaries *)

Lemma utf8_after_ascii p a t :
  utf8_valid (p ++ a :: t) = true -> is_ascii a = true -> utf8_valid t = true.
Proof.
  remember (length p) as n eqn:Hn. revert p Hn. induction n as [n IH] using lt_wf_ind.
  intros p -> Hv Ha. unfold is_ascii in Ha.
  assert (Hna : forall lo hi, 128 <= lo -> in_range lo hi a = false) by (unfold in_range; lia).
  destruct p as [|b0 p]; cbn [app utf8_valid] in Hv.
  { unfold in_range at 1 in Hv. pose proof (u8_range a).
    destruct ((0 <=? u8 a) && (u8 a <=? 127)) eqn:E; [done|lia]. }
  destruct (in_range 0 127 b0); [apply (IH (length p)) with p; cbn; [lia|done..]|].
  destruct (in_range 194 223 b0).
  { destruct p as [|b1 p]; cbn [app] in Hv; apply andb_true_iff in Hv as [H1 Hv].
    - unfold is_cont in H1. by rewrite Hna in H1 by lia.
    - apply (IH (length p)) with p; cbn; [lia|done..]. }
  destruct (in_range 224 239 b0).
  { destruct p as [|b1 [|b2 p]]; cbn [app] in Hv.
    - destruct t; [done|]. rewrite Hna in Hv by (destruct (_ =? _); lia). done.
    - apply andb_true_iff in Hv as [[_ H2]%andb_true_iff _]. unfold is_cont in H2. by rewrite Hna in H2 by lia.
    - apply andb_true_iff in Hv as [_ Hv]. apply (IH (length p)) with p; cbn; [lia|done..]. }
  destruct (in_range 240 244 b0); [|done].
  destruct p as [|b1 [|b2 [|b3 p]]]; cbn [app] in Hv.
  - destruct t as [|? [|? ?]]; try done. rewrite Hna in Hv by (destruct (_ =? _); lia). done.
  - destruct t as [|? ?]; try done. apply andb_true_iff in Hv as [[[_ H2]%andb_true_iff _]%andb_true_iff _].
    unfold is_cont in H2. by rewrite Hna in H2 by lia.
  - apply andb_true_iff in Hv as [[_ H2]%andb_true_iff _]. unfold is_cont in H2. by rewrite Hna in H2 by lia.
  - apply andb_true_iff in Hv as [_ Hv]. apply (IH (length p)) with p; cbn; [lia|done..].
Qed.

(** An index just after an ASCII byte, or at either end, is a boundary. *)
Definition after_ascii (s : bytes) (i : nat) : Prop :=
  i = 0%nat \/ i = length s \/ exists j a, i = S j /\ s !! j = Some a /\ is_ascii a = true.

Lemma utf8_head_boundary b s : utf8_valid (b :: s) = true -> is_cont b = false.
Proof.
  cbn [utf8_valid]. unfold is_cont, in_range. intros H.
  destruct ((0 <=? u8 b) && (u8 b <=? 127)) eqn:E0; [lia|].
  destruct ((194 <=? u8 b) && (u8 b <=? 223)) eqn:E1; [lia|].
  destruct ((224 <=? u8 b) && (u8 b <=? 239)) eqn:E2; [lia|].
  destruct ((240 <=? u8 b) && (u8 b <=? 244)) eqn:E3; [lia|done].
Qed.

Lemma after_ascii_boundary s i :
  utf8_valid s = true -> after_ascii s i -> is_char_boundary s i = true.
Proof.
  intros Hv Hi. unfold is_char_boundary. destruct (s !! i) as [b|] eqn:E.
  - apply negb_true_iff. destruct Hi as [->|[->|(j & a & -> & Ha & Hasc)]].
    + destruct s as [|b0 s]; [done|]. injection E as ->. by eapply utf8_head_boundary.
    + by rewrite lookup_ge_None_2 in E by lia.
    + rewrite <- (take_drop_middle s j a Ha) in Hv. apply utf8_after_ascii in Hv; [|done].
      rewrite <- (Nat.add_0_r (S j)), <- lookup_drop in E.
      destruct (drop (S j) s) as [|b0 l]; [done|]. injection E as ->. by eapply utf8_head_boundary.
  - apply lookup_ge_None in E. apply Nat.eqb_eq.
    destruct Hi as [->|[->|(j & a & -> & Ha%lookup_lt_Some & _)]]; lia.
Qed.

(** ** Searches *)

Lemma position_Some f s j :
  position f s = Some j ->
  (exists x, s !! j = Some x /\ f x = true) /\ (forall k x, (k < j)%nat -> s !! k = Some x -> f x = false).
Proof.
  revert j. induction s as [|b s IH]; intros j; cbn [position]; [done|]. destruct (f b) eqn:E.
  - intros [= <-]. split; [by exists b|]. intros; lia.
  - destruct (position f s) as [j'|]; [|done]. intros [= <-]. destruct (IH j' eq_refl) as [Hx Hk].
    split; [done|]. intros [|k] x Hlt Hl; [injection Hl as <-; done|]. apply (Hk k); [lia|done].
Qed.

Lemma position_app f s x t : Forall (fun b => f b = false) s -> f x = true ->
  position f (s ++ x :: t) = Some (length s).
Proof. intros Hs Hx. induction Hs as [|b s Hb _ IH]; cbn; [by rewrite Hx|]. by rewrite Hb, IH. Qed.

Lemma position_none f s : Forall (fun b => f b = false) s -> position f s = None.
Proof. induction 1 as [|b s Hb _ IH]; cbn; [done|]. by rewrite Hb, IH. Qed.

Lemma find2_Some pat s j : find2 pat s = Some j -> starts_with pat (drop j s) = true.
Proof.
  revert j. induction s as [|b s IH]; intros j; cbn [find2]; [done|].
  destruct (starts_with pat (b :: s)) eqn:E; [by intros [= <-]|].
  destruct (find2 pat s) as [j'|]; [|done]. intros [= <-]. by apply IH.
Qed.

Lemma starts_with_app p s : starts_with p s = true <-> exists t, s = p ++ t.
Proof.
  revert s. induction p as [|x p IH]; intros [|y s]; cbn; try by (split; eauto).
  - split; [done|by intros [t ?]].
  - rewrite andb_true_iff, bool_decide_eq_true, IH. split.
    + intros [-> [t ->]]. by exists t.
    + intros [t [= -> ->]]. eauto.
Qed.

(** A first occurrence is not moved by what follows it. *)
Lemma find2_app pat s t j : find2 pat s = Some j -> find2 pat (s ++ t) = Some j.
Proof.
  revert j. induction s as [|b s IH]; intros j; cbn [find2 app]; [done|].
  destruct (starts_with pat (b :: s)) eqn:E.
  - intros [= <-]. apply starts_with_app in E as [u Eu].
    by rewrite (proj2 (starts_with_app pat (b :: s ++ t))) by (exists (u ++ t); rewrite app_assoc, <- Eu; done).
  - destruct (find2 pat s) as [j'|] eqn:Ef; [|done]. intros [= <-].
    destruct (starts_with pat (b :: s ++ t)) eqn:E'; [|by rewrite (IH j')].
    exfalso. apply starts_with_app in E' as [u Eu].
    assert (Hl : (length pat <= length (b :: s))%nat).
    { apply find2_Some, starts_with_app in Ef as [v Ev]. apply (f_equal length) in Ev.
      rewrite length_drop, length_app in Ev. cbn. destruct (length pat); lia. }
    assert (Ht : take (length pat) (b :: s) = pat).
    { apply (f_equal (take (length pat))) in Eu. rewrite take_app_length in Eu.
      change (b :: s ++ t) with ((b :: s) ++ t) in Eu. by rewrite take_app_le in Eu by done. }
    rewrite (proj2 (starts_with_app pat (b :: s))) in E; [done|].
    exists (drop (length pat) (b :: s)). rewrite <- Ht at 1. by rewrite take_drop.
Qed.

(** ** Skipping *)

Lemma at_index (b : bytes) i : (i < length b)%nat -> exists x t, drop i b = x :: t /\ b !! i = Some x.
Proof.
  intros Hi. destruct (lookup_lt_is_Some_2 b i Hi) as [x Hx]. exists x, (drop (S i) b).
  split; [by apply drop_S|done].
Qed.

Lemma skip_total fuel b i :
  (i <= length b)%nat -> after_ascii b i -> (length b - i < fuel)%nat ->
  exists i', skip_trivia fuel b i = Ok i' /\ after_ascii b i' /\ (i <= i' <= length b)%nat.
Proof.
  revert i. induction fuel as [|fuel IH]; intros i Hi Ha Hf; [lia|]. cbn [skip_trivia].
  destruct (Nat.ltb_spec i (length b)) as [Hlt|Hge]; [|by exists i].
  assert (Hnext : forall i1, (i < i1 <= length b)%nat -> after_ascii b i1 ->
    exists i', skip_trivia fuel b i1 = Ok i' /\ after_ascii b i' /\ (i <= i' <= length b)%nat).
  { intros i1 H1 Ha1. destruct (IH i1) as (i' & ? & ? & ?); [lia|done|lia|]. exists i'. split_and!; auto; lia. }
  destruct (at_index b i Hlt) as (x & t & Ed & Hx). rewrite Ed.
  destruct (is_ws x || bool_decide (x = paren)) eqn:Ews.
  { apply Hnext; [lia|]. right. right. exists i, x. split_and!; [lia|done|].
    unfold is_ws, is_ascii in *. destruct (bool_decide_reflect (x = paren)) as [->|_]; [done|lia]. }
  rewrite <- Ed. destruct (starts_with dash2 (drop i b)).
  { destruct (position _ _) as [j|] eqn:Ep; apply Hnext.
    - apply position_Some in Ep as [(y & Hy%lookup_lt_Some & _) _]. rewrite length_drop in Hy. lia.
    - apply position_Some in Ep as [(y & Hy & Hn%bool_decide_eq_true) _]. subst y. right. right.
      exists (i + j)%nat, newline. rewrite lookup_drop in Hy. split_and!; [lia|done|done].
    - lia.
    - right. by left. }
  destruct (starts_with open_comment (drop i b)); [|by exists i].
  destruct (find2 _ _) as [j|] eqn:Ep; apply Hnext.
  - apply find2_Some, starts_with_app in Ep as [u Eu]. apply (f_equal length) in Eu.
    rewrite !length_drop, length_app in Eu. cbn in Eu. lia.
  - apply find2_Some, starts_with_app in Ep as [u Eu]. rewrite drop_drop in Eu. right. right.
    exists (i + 2 + j + 1)%nat, (byte_of 47). split_and!; [lia| |done].
    rewrite <- lookup_drop, Eu. done.
  - lia.
  - right. by left.
Qed.

Lemma word_ascii c : word_byte c = true -> is_ascii c = true.
Proof.
  unfold word_byte, is_alpha, in_range, is_ascii.
  destruct (bool_decide_reflect (c = underscore)) as [->|_]; [done|]. lia.
Qed.

(** The end of the word that starts at [i]. *)
Definition word_end (sql : bytes) (i : nat) : nat :=
  match position (fun c => negb (word_byte c)) (drop i sql) with
  | Some j => (i + j)%nat | None => length sql end.

Lemma position_all f s : position f s = None -> Forall (fun b => f b = false) s.
Proof.
  induction s as [|b s IH]; cbn [position]; [constructor|]. destruct (f b) eqn:E; [done|].
  destruct (position f s); [done|]. constructor; auto.
Qed.

Lemma word_end_ok sql i :
  (i <= length sql)%nat -> after_ascii sql i ->
  (i <= word_end sql i <= length sql)%nat /\ after_ascii sql (word_end sql i).
Proof.
  intros Hi Ha. unfold word_end. destruct (position _ _) as [j|] eqn:Ep.
  - apply position_Some in Ep as [(x & Hx & _) Hk]. pose proof (lookup_lt_Some _ _ _ Hx) as Hl.
    rewrite length_drop in Hl. split; [lia|]. destruct j as [|j]; [by rewrite Nat.add_0_r|].
    destruct (lookup_lt_is_Some_2 (drop i sql) j) as [y Hy]; [rewrite length_drop; lia|].
    specialize (Hk j y ltac:(lia) Hy). right. right. exists (i + j)%nat, y.
    rewrite lookup_drop in Hy. split_and!; [lia|done|]. apply word_ascii. by destruct (word_byte y).
  - split; [lia|]. right. by left.
Qed.

Lemma is_write_total sql : utf8_valid sql = true -> exists b, is_write sql = Ok b.
Proof.
  intros Hv. unfold is_write.
  destruct (skip_total (S (length sql)) sql 0) as (i & -> & Ha & Hi); [lia|by left|lia|].
  cbn [mbind res_bind]. fold (word_end sql i). destruct (word_end_ok sql i) as [He Ha']; [lia|done|].
  unfold str_slice. rewrite !after_ascii_boundary, (proj2 (Nat.leb_le _ _)) by (done || lia). by eexists.
Qed.

(** What may come before the first keyword. *)
Inductive trivia : bytes -> Prop :=
| trivia_byte b : is_ws b || bool_decide (b = paren) = true -> trivia [b]
| trivia_line s : newline ∉ s -> trivia (dash2 ++ s ++ [newline])
| trivia_block s :
    find2 close_comment (s ++ close_comment) = Some (length s) ->
    trivia (open_comment ++ s ++ close_comment).

Lemma skip_one fuel pre p t :
  trivia p -> (length (pre ++ p ++ t) - length pre < fuel)%nat ->
  exists fuel', skip_trivia fuel (pre ++ p ++ t) (length pre)
                = skip_trivia fuel' (pre ++ p ++ t) (length (pre ++ p))
                /\ (length (pre ++ p ++ t) - length (pre ++ p) < fuel')%nat.
Proof.
  intros Hp Hf. destruct fuel as [|fuel]; [lia|]. exists fuel.
  assert (Hpl : (0 < length p)%nat) by (destruct Hp; cbn; lia).
  rewrite !length_app in *. split; [|lia]. cbn [skip_trivia].
  rewrite (proj2 (Nat.ltb_lt _ _)) by (rewrite !length_app; lia). rewrite drop_app_length.
  destruct Hp as [b Hb|s Hs|s Hs].
  - cbn [app]. by rewrite Hb.
  - change ((dash2 ++ s ++ [newline]) ++ t) with (dash2 ++ (s ++ [newline]) ++ t).
    rewrite <- !app_assoc. unfold dash2. cbn [app].
    change (is_ws _ || bool_decide _) with false. cbv iota.
    rewrite (proj2 (starts_with_app [x2d; x2d] (x2d :: x2d :: s ++ newline :: t))) by by eexists.
    match goal with |- context [position ?f ?l] =>
      replace (position f l) with (Some (2 + length s)%nat) end.
    + f_equal. cbn [length]. rewrite length_app. cbn. lia.
    + symmetry. change (2 + length s)%nat with (length (dash2 ++ s)).
      change (?a :: ?b :: s ++ newline :: t) with ((dash2 ++ s) ++ newline :: t). apply position_app; [|done].
      apply Forall_app. split; [by repeat constructor|]. apply Forall_forall. intros x Hx.
      apply bool_decide_eq_false. by intros ->.
  - rewrite <- !app_assoc. unfold open_comment. cbn [app].
    change (is_ws _ || bool_decide _) with false. change (starts_with dash2 _) with false.
    cbv iota.
    rewrite (proj2 (starts_with_app [x2f; x2a] (x2f :: x2a :: s ++ close_comment ++ t))) by by eexists.
    rewrite <- drop_drop, drop_app_length. cbn [drop].
    assert (Hf2 : find2 close_comment (s ++ close_comment ++ t) = Some (length s))
      by (rewrite app_assoc; by apply find2_app). rewrite drop_0, Hf2.
    f_equal. cbn [length]. rewrite !length_app. cbn. lia.
Qed.

Lemma skip_pieces pieces pre t fuel :
  Forall trivia pieces -> (length (pre ++ concat pieces ++ t) - length pre < fuel)%nat ->
  exists fuel', skip_trivia fuel (pre ++ concat pieces ++ t) (length pre)
                = skip_trivia fuel' (pre ++ concat pieces ++ t) (length (pre ++ concat pieces))
                /\ (length t < fuel')%nat.
Proof.
  intros Hp. revert pre fuel. induction Hp as [|p ps Hp _ IH]; intros pre fuel Hf.
  - exists fuel. cbn [concat app] in *. rewrite app_nil_r. rewrite length_app in Hf. split; [done|lia].
  - cbn [concat] in *. rewrite <- app_assoc in *.
    destruct (skip_one fuel pre p (concat ps ++ t) Hp Hf) as (f1 & -> & Hf1).
    destruct (IH (pre ++ p) f1) as (f2 & E & Hf2); rewrite <- !app_assoc in *; [done|].
    by exists f2.
Qed.

Lemma skip_stops fuel pre word rest :
  word <> [] -> Forall (fun c => word_byte c = true) word ->
  skip_trivia (S fuel) (pre ++ word ++ rest) (length pre) = Ok (length pre).
Proof.
  intros Hne Hw. destruct Hw as [|c word Hc Hw]; [done|]. cbn [skip_trivia].
  rewrite (proj2 (Nat.ltb_lt _ _)) by (rewrite !length_app; cbn; lia). rewrite drop_app_length.
  cbn [app]. assert (H : is_ws c || bool_decide (c = paren) = false
    /\ starts_with dash2 (c :: word ++ rest) = false /\ starts_with open_comment (c :: word ++ rest) = false).
  { cbn [starts_with dash2 open_comment].
    unfold word_byte, is_alpha, in_range, is_ws in *.
    assert (Hu : forall z, word_byte z = false -> bool_decide (z = c) = false).
    { intros z Hz. apply bool_decide_eq_false. intros ->. unfold word_byte, is_alpha, in_range in Hz. congruence. }
    rewrite (Hu x2d), (Hu x2f) by done.
    split_and!; [|done|done].
    destruct (bool_decide_reflect (c = paren)) as [->|_]; [done|].
    destruct (bool_decide_reflect (c = underscore)) as [->|_]; [done|]. lia. }
  destruct H as (-> & -> & ->). done.
Qed.

(** ** Properties *)

(** [is_write] ends and returns on every string; it goes by the first
    keyword alone: past any white space, opening parentheses and closed
    comments it says no for the read keywords, in any case, and yes for every
    other word. *)
Theorem is_write_leading_word sql :
  utf8_valid sql = true ->
  (exists b, is_write sql = Ok b)
  /\ (forall pieces word rest,
        sql = concat pieces ++ word ++ rest -> Forall trivia pieces ->
        word <> [] -> Forall (fun c => word_byte c = true) word ->
        match rest with c :: _ => word_byte c = false | [] => True end ->
        is_write sql = Ok (negb (existsb (eq_ignore_ascii_case word) READ_KEYWORDS))).
Proof.
  intros Hv. split; [by apply is_write_total|]. intros pieces word rest E Hp Hne Hw Hr.
  destruct (is_write_total sql Hv) as [b Hb]. revert Hb. unfold is_write. rewrite E.
  destruct (skip_pieces pieces [] (word ++ rest) (S (length (concat pieces ++ word ++ rest))) Hp)
    as (f & Ef & Hf); [cbn; lia|]. cbn [app length] in Ef. rewrite Ef.
  destruct f as [|f]; [lia|]. rewrite skip_stops by done. cbn [mbind res_bind].
  rewrite drop_app_length.
  assert (Ew : match position (fun c => negb (word_byte c)) (word ++ rest) with
    | Some j => (length (concat pieces) + j)%nat | None => length (concat pieces ++ word ++ rest) end
    = (length (concat pieces) + length word)%nat).
  { assert (Hf' : Forall (fun c => negb (word_byte c) = false) word).
    { eapply Forall_impl; [exact Hw|]. intros c Hc. cbv beta. by rewrite Hc. }
    destruct rest as [|c rest].
    - rewrite app_nil_r, position_none by done. by rewrite length_app.
    - rewrite (position_app _ word c rest) by (done || by rewrite Hr). done. }
  rewrite Ew. unfold str_slice. destruct (_ && _ && _); [|done].
  cbn [mbind res_bind]. rewrite drop_app_length, Nat.add_comm, Nat.add_sub, take_app_length. done.
Qed.

Lemma is_write_leading_word_witness :
  is_write (str " /* with */(sELECt 1)") = Ok false /\ exists b, is_write (str "drop") = Ok b.
Proof.
  split; [|by apply (is_write_leading_word (str "drop"))].
  apply (proj2 (is_write_leading_word (str " /* with */(sELECt 1)") eq_refl)
    [str " "; open_comment ++ str " with " ++ close_comment; str "("] (str "sELECt") (str " 1)")); try done.
  - constructor; [by constructor|]. constructor; [by constructor|]. constructor; [by constructor|constructor].
  - by repeat constructor.
Defined.

