(* ===== verification/Effect.v ===== *)
(** * Stateful calls that can fail

    A method that takes [&mut self] and returns a [Result]: a function of the
    state to a result and the state it leaves, which a failure keeps. *)
From S2P Require Import Prelude.

Definition eff (E S A : Type) : Type := S -> res E A * S.

#[export] Instance eff_ret {E S} : MRet (eff E S) := fun A a s => (Ok a, s).
#[export] Instance eff_bind {E S} : MBind (eff E S) := fun A B k m s =>
  match m s with
  | (Ok a, s) => k a s
  | (Err e, s) => (Err e, s)
  | (Panic, s) => (Panic, s)
  | (OutOfFuel, s) => (OutOfFuel, s)
  end.

Section eff.
Context {E S : Type}.
Abbreviation M := (eff E S).

Definition raise {A} (e : E) : M A := fun s => (Err e, s).
Definition of_res {A} (r : res E A) : M A := fun s => (r, s).
Definition reads_state {A} (f : S -> A) : M A := fun s => (Ok (f s), s).
Definition changes (f : S -> S) : M unit := fun s => (Ok tt, f s).

(** [match m { Err(e) => handler(e), other => other }]. *)
Definition handle {A} (m : M A) (handler : E -> M A) : M A := fun s =>
  match m s with
  | (Err e, s) => handler e s
  | out => out
  end.

(** The result as a value, an [Err] included. *)
Definition attempt {A} (m : M A) : M (A + E) := fun s =>
  match m s with
  | (Ok a, s) => (Ok (inl a), s)
  | (Err e, s) => (Ok (inr e), s)
  | (Panic, s) => (Panic, s)
  | (OutOfFuel, s) => (OutOfFuel, s)
  end.

Lemma bind_step {A B} (m : M A) (k : A -> M B) s a s' : m s = (Ok a, s') -> (m ≫= k) s = k a s'.
Proof. unfold mbind, eff_bind. by intros ->. Qed.

Lemma bind_fails {A B} (m : M A) (k : A -> M B) s e s' : m s = (Err e, s') -> (m ≫= k) s = (Err e, s').
Proof. unfold mbind, eff_bind. by intros ->. Qed.

Lemma bind_done {A B} (m : M A) (k : A -> M B) s b s' :
  (m ≫= k) s = (Ok b, s') <-> exists a s1, m s = (Ok a, s1) /\ k a s1 = (Ok b, s').
Proof.
  unfold mbind, eff_bind. destruct (m s) as [[a|e| |] s1] eqn:Em; split; try done; try by intros (? & ? & [= ] & _).
  - eauto.
  - by intros (? & ? & [= <- <-] & ?).
Qed.

(** The call comes back, whatever the state. *)
Definition safe {A} (m : M A) : Prop := forall s, returns (m s).1.

Lemma safe_ret {A} (a : A) : safe (mret a).
Proof. done. Qed.

Lemma safe_raise {A} (e : E) : safe (raise (A:=A) e).
Proof. done. Qed.

Lemma safe_of_res {A} (r : res E A) : returns r -> safe (of_res r).
Proof. by intros Hr s. Qed.

Lemma safe_bind {A B} (m : M A) (k : A -> M B) :
  safe m -> (forall a s s', m s = (Ok a, s') -> returns (k a s').1) -> safe (m ≫= k).
Proof.
  intros Hm Hk s. specialize (Hm s). specialize (Hk). unfold mbind, eff_bind.
  destruct (m s) as [[a|e| |] s1] eqn:Em; try done. by eapply Hk.
Qed.

Lemma safe_bind' {A B} (m : M A) (k : A -> M B) : safe m -> (forall a, safe (k a)) -> safe (m ≫= k).
Proof. intros Hm Hk. apply safe_bind; [done|]. intros. apply Hk. Qed.

Lemma safe_handle {A} (m : M A) (h : E -> M A) : safe m -> (forall e, safe (h e)) -> safe (handle m h).
Proof.
  intros Hm Hh s. specialize (Hm s). unfold handle. destruct (m s) as [[a|e| |] s1]; try done. apply Hh.
Qed.

(** What the call does not break, whether it succeeds or fails. *)
Definition keeps {A} (I : S -> Prop) (m : M A) : Prop := forall s, I s -> I (m s).2.

Lemma keeps_ret {A} I (a : A) : keeps I (mret a).
Proof. by intros s. Qed.

Lemma keeps_raise {A} I (e : E) : keeps I (raise (A:=A) e).
Proof. by intros s. Qed.

Lemma keeps_of_res {A} I (r : res E A) : keeps I (of_res r).
Proof. by intros s. Qed.

Lemma keeps_reads {A} I (f : S -> A) : keeps I (reads_state f).
Proof. by intros s. Qed.

Lemma keeps_changes (I : S -> Prop) (f : S -> S) : (forall s, I s -> I (f s)) -> keeps I (changes f).
Proof. intros Hf s. apply Hf. Qed.

Lemma keeps_bind {A B} I (m : M A) (k : A -> M B) : keeps I m -> (forall a, keeps I (k a)) -> keeps I (m ≫= k).
Proof.
  intros Hm Hk s Hs. specialize (Hm s Hs). unfold mbind, eff_bind.
  destruct (m s) as [[a|e| |] s1]; try exact Hm. by apply Hk.
Qed.

Lemma keeps_handle {A} I (m : M A) (h : E -> M A) : keeps I m -> (forall e, keeps I (h e)) -> keeps I (handle m h).
Proof.
  intros Hm Hh s Hs. specialize (Hm s Hs). unfold handle. destruct (m s) as [[a|e| |] s1]; try exact Hm. by apply Hh.
Qed.

Lemma keeps_attempt {A} I (m : M A) : keeps I m -> keeps I (attempt m).
Proof.
  intros Hm s Hs. specialize (Hm s Hs). unfold attempt. by destruct (m s) as [[a|e| |] s1].
Qed.

Lemma safe_attempt {A} (m : M A) : safe m -> safe (attempt m).
Proof. intros Hm s. specialize (Hm s). unfold attempt. by destruct (m s) as [[a|e| |] s1]. Qed.

Lemma safe_reads {A} (f : S -> A) : safe (reads_state f).
Proof. done. Qed.

Lemma safe_changes (f : S -> S) : safe (changes f).
Proof. done. Qed.

Lemma handle_done {A} (m : M A) (h : E -> M A) s a s' :
  handle m h s = (Ok a, s') <-> m s = (Ok a, s') \/ exists e s1, m s = (Err e, s1) /\ h e s1 = (Ok a, s').
Proof.
  unfold handle. destruct (m s) as [[b|e| |] s1]; split; intros Hx; try (by left); try (by right; eauto).
  - by destruct Hx as [Hx|(e & s2 & [=] & _)].
  - by destruct Hx as [[=]|(e' & s2 & [= <- <-] & Hx)].
  - by destruct Hx as [Hx|(e & s2 & [=] & _)].
  - by destruct Hx as [Hx|(e & s2 & [=] & _)].
Qed.

Lemma attempt_done {A} (m : M A) s x s' :
  attempt m s = (Ok x, s') <-> match x with inl a => m s = (Ok a, s') | inr e => m s = (Err e, s') end.
Proof.
  unfold attempt. destruct (m s) as [[b|e| |] s1], x; split; intros Hx; try done; by injection Hx as -> ->.
Qed.

Lemma attempt_Ok {A} (m : M A) s a s' : m s = (Ok a, s') -> attempt m s = (Ok (inl a), s').
Proof. unfold attempt. by intros ->. Qed.

End eff.

(** A method of a field of the state. *)
Definition zoom {E S T A} (get : T -> S) (put : S -> T -> T) (m : eff E S A) : eff E T A :=
  fun t => let '(r, s) := m (get t) in (r, put s t).

Lemma zoom_step {E S T A} (get : T -> S) (put : S -> T -> T) (m : eff E S A) t r s :
  m (get t) = (r, s) -> zoom get put m t = (r, put s t).
Proof. unfold zoom. by intros ->. Qed.

Lemma safe_zoom {E S T A} (get : T -> S) (put : S -> T -> T) (m : eff E S A) : safe m -> safe (zoom get put m).
Proof. intros Hm t. specialize (Hm (get t)). unfold zoom. by destruct (m (get t)). Qed.

#[export] Hint Resolve safe_ret safe_raise safe_of_res safe_bind' safe_handle safe_zoom safe_attempt safe_reads
  safe_changes : skaidb.
#[export] Hint Resolve keeps_ret keeps_raise keeps_of_res keeps_reads keeps_bind keeps_handle keeps_attempt : skaidb.

Lemma keeps_zoom {E S T A} (I : T -> Prop) (get : T -> S) (put : S -> T -> T) (m : eff E S A) :
  (forall s t, I t -> I (put s t)) -> keeps I (zoom get put m).
Proof. intros Hp t Ht. unfold zoom. destruct (m (get t)) as [r s]. by apply Hp. Qed.

(** Run one action per element, first to last. *)
Fixpoint for_all {E S A} (f : A -> eff E S unit) (l : list A) : eff E S unit :=
  match l with
  | [] => mret tt
  | a :: l => _ ← f a; for_all f l
  end.
