(* ===== verification/Tls.v ===== *)
(** * TLS channel binding

    [crates/skaidb-net/src/lib.rs]: the [tls-server-end-point] binding of a
    server certificate, with its walk over the certificate's DER.  SHA-384 and
    SHA-512 are another library's and are parameters. *)
From S2P Require Import Prelude Bytes Text Cursor Crypto.
#[local] Open Scope Z_scope.

Inductive SigHash := Sha256 | Sha384 | Sha512.

#[export] Instance sig_hash_eq_dec : EqDecision SigHash.
Proof. solve_decision. Defined.

(** The loop of the long form, [n] bytes of [l] still to shift in. *)
Fixpoint long_length (n : nat) (len : Z) (l : bytes) : option Z :=
  match n with
  | O => Some len
  | S n =>
      match l with
      | b :: l => long_length n (Z.lor (wrap 64 (Z.shiftl len 8)) (u8 b)) l
      | [] => None
      end
  end.

(** One element: its tag, its content and what follows it. *)
Definition tlv (b : bytes) : option (byte * bytes * bytes) :=
  match b with
  | tag :: first :: l =>
      let header :=
        if Z.land (u8 first) 128 =? 0 then Some (u8 first, 2)
        else
          let n := Z.land (u8 first) 127 in
          if (n =? 0) || (4 <? n) then None
          else (fun v => (v, 2 + n)) <$> long_length (Z.to_nat n) 0 l in
      match header with
      | Some (n, hdr) =>
          let end_ := hdr + n in
          if 2 ^ 64 <=? end_ then None
          else if len b <? end_ then None
          else Some (tag, drop (Z.to_nat hdr) (take (Z.to_nat end_) b), drop (Z.to_nat end_) b)
      | None => None
      end
  | _ => None
  end.

Definition sha384_rsa : bytes := map byte_of [0x2A; 0x86; 0x48; 0x86; 0xF7; 0x0D; 0x01; 0x01; 0x0C].
Definition sha384_ecdsa : bytes := map byte_of [0x2A; 0x86; 0x48; 0xCE; 0x3D; 0x04; 0x03; 0x03].
Definition sha512_rsa : bytes := map byte_of [0x2A; 0x86; 0x48; 0x86; 0xF7; 0x0D; 0x01; 0x01; 0x0D].
Definition sha512_ecdsa : bytes := map byte_of [0x2A; 0x86; 0x48; 0xCE; 0x3D; 0x04; 0x03; 0x04].

Definition signature_oid (der : bytes) : option bytes :=
  '(_, cert, _) ← tlv der;
  '(_, _, rest) ← tlv cert;
  '(_, alg, _) ← tlv rest;
  '(tag, oid, _) ← tlv alg;
  if bool_decide (tag = x06) then Some oid else None.

Definition signature_hash (der : bytes) : SigHash :=
  match signature_oid der with
  | Some oid =>
      if bool_decide (oid = sha384_rsa) || bool_decide (oid = sha384_ecdsa) then Sha384
      else if bool_decide (oid = sha512_rsa) || bool_decide (oid = sha512_ecdsa) then Sha512
      else Sha256
  | None => Sha256
  end.

Section binding.
Context (sha384 sha512 : bytes -> bytes).

Definition digest (alg : SigHash) (b : bytes) : bytes :=
  match alg with Sha256 => sha256 b | Sha384 => sha384 b | Sha512 => sha512 b end.

Definition tls_server_end_point (cert_der : bytes) : bytes :=
  str "tls-server-end-point:" ++ digest (signature_hash cert_der) cert_der.

End binding.

(** ** The encoding the walk reads *)

(** DER's definite lengths: one byte below 128, else the byte count and the
    [k] big-endian bytes. *)
Definition der_len (k : nat) (n : Z) : bytes :=
  match k with
  | O => [byte_of n]
  | _ => byte_of (128 + Z.of_nat k) :: be_bytes k n
  end.

(** The forms [tlv] takes: up to four length bytes, minimal or not. *)
Definition len_ok (k : nat) (n : Z) : bool :=
  match k with
  | O => (0 <=? n) && (n <? 128)
  | _ => (k <=? 4)%nat && (0 <=? n) && (n <? 256 ^ Z.of_nat k)
  end.

Definition der_tlv (tag : byte) (k : nat) (content : bytes) : bytes :=
  tag :: der_len k (len content) ++ content.

Example signature_hash_ex :
  signature_hash
    (der_tlv x30 1 (der_tlv x30 0 [x01; x02] ++ der_tlv x30 2 (der_tlv x06 0 sha384_ecdsa) ++ [x03]))
  = Sha384.
Proof. vm_compute. reflexivity. Qed.

(** ** What the walk finds *)

Lemma long_length_app l1 l2 acc :
  long_length (length l1) acc (l1 ++ l2) = long_length (length l1) acc l1.
Proof. revert acc. induction l1 as [|b l1 IH]; intros acc; cbn; auto. Qed.

Lemma long_length_snoc l1 b acc :
  long_length (S (length l1)) acc (l1 ++ [b])
  = (fun v => Z.lor (wrap 64 (Z.shiftl v 8)) (u8 b)) <$> long_length (length l1) acc l1.
Proof. revert acc. induction l1 as [|c l1 IH]; intros acc; [done|]. apply (IH (Z.lor _ _)). Qed.

(** Shifting a byte in. *)
Lemma shift_byte v b : 0 <= v < 2 ^ 32 -> 0 <= b < 256 -> Z.lor (wrap 64 (Z.shiftl v 8)) b = v * 256 + b.
Proof.
  intros Hv Hb. unfold wrap. rewrite Z.shiftl_mul_pow2 by lia. change (2 ^ 8) with 256.
  rewrite Z.mod_small by lia.
  assert (H : Z.land (v * 256) b = 0).
  { change 256 with (2 ^ 8). rewrite <- Z.shiftl_mul_pow2 by lia. apply Z.bits_inj'. intros n Hn.
    rewrite Z.land_spec, Z.bits_0. destruct (Z.lt_ge_cases n 8) as [Hlt|Hge].
    - by rewrite Z.shiftl_spec_low by done.
    - rewrite (proj2 (Z.testbit_false b n Hn)), andb_false_r; [done|]. assert (2 ^ 8 <= 2 ^ n) by (apply Z.pow_le_mono_r; lia).
      by rewrite Z.div_small by lia. }
  pose proof (Z.add_lor_land (v * 256) b) as E. rewrite H in E. lia.
Qed.

Lemma long_length_be k n l :
  (k <= 4)%nat -> 0 <= n < 256 ^ Z.of_nat k -> long_length k 0 (be_bytes k n ++ l) = Some n.
Proof.
  intros Hk Hn. rewrite <- (be_bytes_length k n) at 1. rewrite long_length_app, be_bytes_length.
  revert n Hk Hn. induction k as [|k IH]; intros n Hk Hn; [cbn in *; f_equal; lia|].
  rewrite pow256 in Hn.
  change (be_bytes (S k) n) with (be_bytes k (n / 256) ++ [byte_of n]).
  pose proof (long_length_snoc (be_bytes k (n / 256)) (byte_of n) 0) as E.
  rewrite be_bytes_length in E. rewrite E.
  assert (Hd : 0 <= n / 256 < 256 ^ Z.of_nat k).
  { split; [apply Z.div_pos; lia|apply Z.div_lt_upper_bound; lia]. }
  rewrite (IH (n / 256)) by (done || lia). cbn [fmap option_fmap option_map]. f_equal.
  rewrite u8_byte_of, shift_byte.
  - pose proof (Z.div_mod n 256). lia.
  - assert (256 ^ Z.of_nat k <= 256 ^ 3) by (apply Z.pow_le_mono_r; lia). lia.
  - apply Z.mod_pos_bound. lia.
Qed.

Lemma tlv_der tag k content rest :
  len_ok k (len content) = true -> tlv (der_tlv tag k content ++ rest) = Some (tag, content, rest).
Proof.
  intros Hk. unfold der_tlv, tlv.
  assert (Hh : exists first l, der_len k (len content) = first :: l
    /\ (if Z.land (u8 first) 128 =? 0 then Some (u8 first, 2)
        else if (Z.land (u8 first) 127 =? 0) || (4 <? Z.land (u8 first) 127) then None
        else (fun v => (v, 2 + Z.land (u8 first) 127))
             <$> long_length (Z.to_nat (Z.land (u8 first) 127)) 0 (l ++ content ++ rest))
       = Some (len content, 2 + Z.of_nat k) /\ length (first :: l) = S k).
  { destruct k as [|k]; cbn [der_len len_ok] in *.
    - apply andb_true_iff in Hk as [H0 H1]. exists (byte_of (len content)), []. split; [done|]. split; [|done].
      rewrite u8_byte_of, Z.mod_small by lia. pose proof (len_nonneg content).
      assert (E : Z.land (len content) 128 = 0).
      { assert (Hc : 0 <= len content < 2 ^ 7) by lia. clear -Hc. change 128 with (2 ^ 7).
        apply Z.bits_inj'. intros n Hn. rewrite Z.land_spec, Z.bits_0, Z.pow2_bits_eqb by lia.
        destruct (Z.eqb_spec 7 n) as [<-|_]; [|by rewrite andb_false_r].
        apply andb_false_intro1, Z.testbit_false; [lia|]. by rewrite Z.div_small by lia. }
      by rewrite E.
    - apply andb_true_iff in Hk as [[H4%Nat.leb_le H0]%andb_true_iff H1].
      exists (byte_of (128 + Z.of_nat (S k))), (be_bytes (S k) (len content)). split; [done|].
      split; [|cbn [length]; by rewrite be_bytes_length].
      rewrite u8_byte_of.
      assert (Hs : forall n, (n = 1 \/ n = 2 \/ n = 3 \/ n = 4)%nat ->
        Z.land ((128 + Z.of_nat n) mod 256) 128 = 128 /\ Z.land ((128 + Z.of_nat n) mod 256) 127 = Z.of_nat n).
      { intros n [->|[->|[->| ->]]]; done. }
      destruct (Hs (S k)) as [-> ->]; [lia|].
      rewrite (proj2 (Z.eqb_neq (Z.of_nat (S k)) 0)), (proj2 (Z.ltb_ge _ _)) by lia.
      change (128 =? 0) with false. cbn [orb]. rewrite Nat2Z.id, long_length_be by (lia || (split; [by apply Z.leb_le|by apply Z.ltb_lt])).
      done. }
  destruct Hh as (first & l & -> & E & Hl).
  cbn [app]. rewrite <- app_assoc. cbv zeta. rewrite E.
  pose proof (len_nonneg content) as Hn.
  assert (Hb : len content < 2 ^ 32).
  { destruct k as [|k]; cbn [len_ok] in Hk; [lia|].
    apply andb_true_iff in Hk as [[H4%Nat.leb_le H0]%andb_true_iff H1].
    apply Z.ltb_lt in H1. eapply Z.lt_le_trans; [exact H1|]. change (2 ^ 32) with (256 ^ 4).
    apply Z.pow_le_mono_r; lia. }
  assert (Hk4 : (k <= 4)%nat).
  { destruct k as [|k]; [lia|]. cbn [len_ok] in Hk.
    by apply andb_true_iff in Hk as [[H4%Nat.leb_le _]%andb_true_iff _]. }
  set (hdr := tag :: first :: l). assert (Hh : length hdr = (2 + k)%nat) by (cbn in *; lia).
  change (tag :: first :: l ++ content ++ rest) with (hdr ++ content ++ rest).
  assert (Hlen : length content = Z.to_nat (len content)) by (unfold len; lia).
  rewrite (proj2 (Z.leb_gt _ _)), (proj2 (Z.ltb_ge _ _)) by (rewrite ?len_app; pose proof (len_nonneg rest); unfold len in *; lia).
  replace (Z.to_nat (2 + Z.of_nat k + len content)) with (length hdr + length content)%nat by lia.
  replace (Z.to_nat (2 + Z.of_nat k)) with (length hdr) by lia.
  rewrite app_assoc, <- length_app, take_app_length, drop_app_length. by rewrite drop_app_length.
Qed.

(** What is inside an element is inside the input. *)
Lemma tlv_inside b tag c r : tlv b = Some (tag, c, r) -> exists hdr, b = hdr ++ c ++ r.
Proof.
  unfold tlv. destruct b as [|t [|first l]]; try done. cbv zeta.
  match goal with |- context [match ?h with Some _ => _ | None => _ end] => destruct h as [[n hdr]|] eqn:Eh end;
    [|done].
  assert (Hh : 0 <= n /\ 0 <= hdr).
  { destruct (_ =? 0); [injection Eh as <- <-; pose proof (u8_range first); lia|].
    destruct (_ || _); [done|]. destruct (long_length _ _ _) as [v|] eqn:El; [|done]. injection Eh as <- <-.
    split; [|pose proof (proj2 (Z.land_nonneg (u8 first) 127)); lia].
    assert (H : forall m acc l v, 0 <= acc -> long_length m acc l = Some v -> 0 <= v).
    { induction m as [|m IH]; intros acc l' v' Ha; cbn [long_length]; [by intros [= <-]|].
      destruct l' as [|x l']; [done|]. apply IH. apply Z.lor_nonneg. unfold wrap.
      pose proof (Z.mod_pos_bound (Z.shiftl acc 8) (2 ^ 64)). pose proof (u8_range x). lia. }
    by eapply H; [|exact El]. }
  destruct (2 ^ 64 <=? hdr + n); [done|]. destruct (_ <? hdr + n); [done|]. intros [= <- <- <-].
  exists (take (Z.to_nat hdr) (t :: first :: l)).
  replace (take (Z.to_nat hdr) (t :: first :: l))
    with (take (Z.to_nat hdr) (take (Z.to_nat (hdr + n)) (t :: first :: l)))
    by (rewrite take_take, Nat.min_l by lia; done).
  by rewrite app_assoc, take_drop, take_drop.
Qed.

(** ** Properties *)

(** The certificate of an algorithm. *)
Definition hash_of (oid : bytes) : SigHash :=
  if bool_decide (oid = sha384_rsa) || bool_decide (oid = sha384_ecdsa) then Sha384
  else if bool_decide (oid = sha512_rsa) || bool_decide (oid = sha512_ecdsa) then Sha512 else Sha256.


