(* ===== verification/Login.v ===== *)
(** * Reaching a member

    [src/lib.rs]: the driver's errors, the order in which endpoints are tried,
    the cache of derived keys, the client's side of the three login exchanges
    and the dial that ends in one of them.  A connection is what its peer will
    send and how its writer behaves; the network and the system's Kerberos
    library are arguments. *)
From stdpp Require Import gmap.
From S2P Require Import Prelude Bytes Text Cursor Message Frame Handshake Crypto Scram Tls Effect.
#[local] Open Scope Z_scope.

(** ** Errors *)

Inductive io_error :=
| Wire (e : IoError)
| ConnectionRefused (reason : bytes)
| Unreached.

(** [NoEndpoint text (Some e)] is the message ["{text}: {e}"]. *)
Inductive DriverError :=
| Io (e : io_error)
| Proto (e : ProtoError)
| Server (msg : bytes)
| Auth (msg : bytes)
| NoEndpoint (text : bytes) (cause : option DriverError).

Definition CAPACITY_DENIAL_PREFIX : bytes := str "too many connections:".

Definition has_prefix (p s : bytes) : bool := bool_decide (take (length p) s = p).

Definition denied (reason : bytes) : DriverError :=
  if has_prefix CAPACITY_DENIAL_PREFIX reason then Io (ConnectionRefused reason) else Auth reason.

Definition member_fault (e : DriverError) : bool :=
  match e with Io _ | Proto _ => true | _ => false end.

(** ** Endpoints *)

Fixpoint dedup_from (seen endpoints : list bytes) : list bytes :=
  match endpoints with
  | [] => seen
  | e :: l => dedup_from (if bool_decide (e ∈ seen) then seen else seen ++ [e]) l
  end.

Definition dedup (endpoints : list bytes) : list bytes := dedup_from [] endpoints.

Definition latency_cmp (a b : option Z * bytes) : comparison :=
  match a.1, b.1 with
  | Some x, Some y => Z.compare x y
  | Some _, None => Lt
  | None, Some _ => Gt
  | None, None => Eq
  end.

(** [probe] gives the latency of each endpoint that could be reached. *)
Definition order_by_latency (probe : bytes -> option Z) (endpoints : list bytes) : list bytes :=
  if (length endpoints <=? 1)%nat then endpoints
  else (sort_by latency_cmp (map (fun e => (probe e, e)) endpoints)).*2.

(** ** A connection *)

(** [st_in] is all the peer will send before it closes; [st_cert] the peer's
    certificate under TLS. *)
Record Stream := {
  st_out : list outcome;
  st_in : bytes;
  st_sent : bytes;
  st_cert : option bytes;
}.

Definition after_write (out : list outcome) (sent : bytes) (s : Stream) : Stream :=
  {| st_out := out; st_in := s.(st_in); st_sent := s.(st_sent) ++ sent; st_cert := s.(st_cert) |}.
Definition after_read (rest : bytes) (s : Stream) : Stream :=
  {| st_out := s.(st_out); st_in := rest; st_sent := s.(st_sent); st_cert := s.(st_cert) |}.

(** [write_frame] and [read_frame] on the connection.  Past the calls
    [st_out] tells of, the writer fails.  A read that fails has taken the
    length it refused, or all there was. *)
Definition send (payload : bytes) : eff DriverError Stream unit := fun s =>
  let '(r, sent, out) := write_frame s.(st_out) payload in
  (match r with
   | Ok _ => Ok tt
   | Err e => Err (Io (Wire e))
   | Panic => Panic
   | OutOfFuel => Err (Io (Wire OtherIo))
   end, after_write out sent s).

Definition recv : eff DriverError Stream bytes := fun s =>
  match read_frame s.(st_in) with
  | Ok (payload, rest) => (Ok payload, after_read rest s)
  | Err e => (Err (Io (Wire e)), after_read (match e with InvalidData => drop 4 s.(st_in) | _ => [] end) s)
  | Panic => (Panic, s)
  | OutOfFuel => (OutOfFuel, s)
  end.

Definition decoded {A} (r : res ProtoError A) : eff DriverError Stream A := of_res (map_err Proto r).

(** ** The process

    The nonce counters of the two handshakes ([fetch_add] wraps) and the cache
    of derived keys. *)
Record Process := {
  p_id : Z;
  p_nonce : Z;
  p_gss_nonce : Z;
  p_cache : gmap (bytes * bytes * Z) bytes;
}.

Definition with_nonce n p := {|
  p_id := p.(p_id); p_nonce := n; p_gss_nonce := p.(p_gss_nonce); p_cache := p.(p_cache) |}.
Definition with_gss_nonce n p := {|
  p_id := p.(p_id); p_nonce := p.(p_nonce); p_gss_nonce := n; p_cache := p.(p_cache) |}.
Definition with_cache c p := {|
  p_id := p.(p_id); p_nonce := p.(p_nonce); p_gss_nonce := p.(p_gss_nonce); p_cache := c |}.

Definition nonce_text (pid n : Z) : bytes := str "c" ++ to_dec pid ++ str "." ++ to_dec n.

Definition CACHE_MAX : nat := 64.

Definition cached_salted_password (password salt : bytes) (iterations : Z) (p : Process)
    : bytes * Process :=
  let key := (password, salt, iterations) in
  match p.(p_cache) !! key with
  | Some hit => (hit, p)
  | None =>
      let salted := salted_password password salt iterations in
      let map := if (CACHE_MAX <=? size p.(p_cache))%nat then ∅ else p.(p_cache) in
      (salted, with_cache (<[key := salted]> map) p)
  end.

(** ** The exchanges *)

Abbreviation login A := (eff DriverError (Stream * Process) A).

Definition on_stream {A} (m : eff DriverError Stream A) : login A := zoom fst (fun s t => (s, t.2)) m.

(** [NONCE.fetch_add(1)], in the text of the nonce. *)
Definition next_nonce : login bytes := fun '(s, p) =>
  (Ok (nonce_text p.(p_id) p.(p_nonce)), (s, with_nonce (wrap 64 (p.(p_nonce) + 1)) p)).
Definition next_gss_nonce : login bytes := fun '(s, p) =>
  (Ok (nonce_text p.(p_id) p.(p_gss_nonce)), (s, with_gss_nonce (wrap 64 (p.(p_gss_nonce) + 1)) p)).

Definition derive (password salt : bytes) (iterations : Z) : login bytes := fun '(s, p) =>
  let '(salted, p) := cached_salted_password password salt iterations p in (Ok salted, (s, p)).

Definition handshake (username password : bytes) : login unit :=
  client_nonce ← next_nonce;
  let start := {| username := username; client_nonce := client_nonce; mechanism := ScramSha256 |} in
  _ ← on_stream (send (start_encode start));
  payload ← on_stream recv;
  challenge ← on_stream (decoded (challenge_decode payload));
  let am := auth_message username client_nonce challenge.(server_nonce) challenge.(Handshake.salt)
              challenge.(Handshake.iterations) in
  salted ← derive password challenge.(Handshake.salt) challenge.(Handshake.iterations);
  let proof := client_proof_salted salted am in
  _ ← on_stream (send (finish_encode {| Handshake.client_proof := proof |}));
  payload ← on_stream recv;
  outcome ← on_stream (decoded (outcome_decode payload));
  match outcome with
  | Granted signature =>
      if negb (bool_decide (password = [])) then
        let expected := server_signature_salted salted am in
        if bool_decide (expected = signature) then mret tt
        else raise (Auth (str "server signature mismatch"))
      else mret tt
  | Denied reason => raise (denied reason)
  end.

Definition handshake_external (username : bytes) : eff DriverError Stream unit :=
  _ ← send (start_encode {| username := username; client_nonce := []; mechanism := External |});
  payload ← recv;
  outcome ← decoded (outcome_decode payload);
  match outcome with
  | Granted _ => mret tt
  | Denied reason => raise (denied reason)
  end.

(** The Kerberos library: a client context and its first token, and a step on
    the server's token. *)
Inductive ClientStep (G : Type) :=
| Continue (next : G) (token : bytes)
| Done (token : option bytes).
Arguments Continue {G} next token.
Arguments Done {G} token.

Section gssapi.
Context {G : Type} (kerberos : bool)
  (gss_new : bytes -> option bytes -> res bytes (G * bytes))
  (gss_step : G -> bytes -> res bytes (ClientStep G))
  (sha384 sha512 : bytes -> bytes).

Definition send_token (t : bytes) : eff DriverError Stream unit := send (token_encode {| token := t |}).

(** One turn per frame: a token, the outcome, or neither. *)
Fixpoint gss_loop (fuel : nat) (client : option G) : eff DriverError Stream unit :=
  match fuel with
  | O => fun s => (OutOfFuel, s)
  | S fuel =>
      frame ← recv;
      match token_decode frame with
      | Ok tok =>
          match client with
          | None => raise (Auth (str "gssapi: unexpected server token"))
          | Some c =>
              step ← of_res (map_err Auth (gss_step c tok.(token)));
              match step with
              | Continue next token => _ ← send_token token; gss_loop fuel (Some next)
              | Done token =>
                  _ ← match token with Some t => send_token t | None => mret tt end;
                  gss_loop fuel None
              end
          end
      | _ =>
          match outcome_decode frame with
          | Ok (Granted _) => mret tt
          | Ok (Denied reason) => raise (denied reason)
          | _ => raise (Auth (str "gssapi: unexpected handshake frame"))
          end
      end
  end.

Definition handshake_gssapi (username target_spn : bytes) : login unit :=
  if kerberos then
    bindings ← on_stream (reads_state (fun s => tls_server_end_point sha384 sha512 <$> s.(st_cert)));
    client_nonce ← next_gss_nonce;
    '(client, token0) ← of_res (map_err (fun e => Auth (str "gssapi init failed (did you kinit?): " ++ e))
                              (gss_new target_spn bindings));
    _ ← on_stream (send (start_encode
          {| username := username; client_nonce := client_nonce; mechanism := Gssapi |}));
    _ ← on_stream (send_token token0);
    n ← on_stream (reads_state (fun s => length s.(st_in)));
    on_stream (gss_loop (S n) (Some client))
  else raise (Auth (str "this driver was built without Kerberos (GSSAPI) support")).

(** ** Dialing *)

Record Login := {
  l_username : bytes;
  l_password : bytes;
  l_gssapi_spn : option bytes;
  l_cert_auth : bool;
}.

(** What a dial needs of the world: the network at each coming attempt (the
    TLS handshake included), and the process. *)
Record World := {
  w_net : list (bytes -> res io_error Stream);
  w_probe : list (bytes -> option Z);
  w_process : Process;
}.

Definition with_net n w := {| w_net := n; w_probe := w.(w_probe); w_process := w.(w_process) |}.
Definition with_probe n w := {| w_net := w.(w_net); w_probe := n; w_process := w.(w_process) |}.
Definition with_process p w := {| w_net := w.(w_net); w_probe := w.(w_probe); w_process := p |}.

(** [TcpStream::connect] and [connect_tls]; past the told attempts nothing
    answers. *)
Definition connect (endpoint : bytes) : eff DriverError World Stream := fun w =>
  match w.(w_net) with
  | [] => (Err (Io Unreached), w)
  | net :: l => (map_err Io (net endpoint), with_net l w)
  end.

Definition login_of (l : Login) : login unit :=
  match l.(l_gssapi_spn) with
  | Some spn => handshake_gssapi l.(l_username) spn
  | None =>
      if l.(l_cert_auth) then on_stream (handshake_external l.(l_username))
      else handshake l.(l_username) l.(l_password)
  end.

(** The match of [dial]; the stream is dropped when the login fails. *)
Definition log_in (l : Login) (stream : Stream) : eff DriverError World Stream := fun w =>
  let '(r, (stream, p)) := login_of l (stream, w.(w_process)) in
  ((fun _ => stream) <$> r, with_process p w).

(** [order_by_latency] with the next round of probes. *)
Definition probed (endpoints : list bytes) : eff DriverError World (list bytes) := fun w =>
  if (length endpoints <=? 1)%nat then (Ok endpoints, w)
  else
    match w.(w_probe) with
    | [] => (Ok (order_by_latency (fun _ => None) endpoints), w)
    | probe :: l => (Ok (order_by_latency probe endpoints), with_probe l w)
    end.

Definition dial (endpoint : bytes) (l : Login) : eff DriverError World Stream :=
  stream ← connect endpoint; log_in l stream.

End gssapi.

(** Hashes are never computed below. *)
#[local] Opaque sha256 hmac_sha256 pbkdf2_hmac_sha256.

(** ** Sending and receiving *)

Lemma send_done payload n s :
  len payload <= MAX_FRAME_LEN -> keen (length (frame payload) + S n) s.(st_out) ->
  exists out, send payload s = (Ok tt, after_write out (frame payload) s) /\ keen n out.
Proof.
  intros Hl Hk. destruct (write_frame_done s.(st_out) payload n Hl Hk) as (out & E & Ho).
  exists out. unfold send. by rewrite E.
Qed.

Lemma recv_frame payload l s :
  len payload <= MAX_FRAME_LEN -> s.(st_in) = frame payload ++ l -> recv s = (Ok payload, after_read l s).
Proof. intros Hl E. unfold recv, read_frame. rewrite E, read_frame_reads by done. done. Qed.

(** What was read is a frame of what the peer sends. *)
Lemma read_exact_Ok n r s l : read_exact n r = Ok (s, l) -> r = s ++ l /\ length s = n.
Proof.
  unfold read_exact. destruct (Nat.ltb_spec (length r) n); [done|]. intros [= <- <-].
  by rewrite take_drop, length_take, Nat.min_l.
Qed.

Lemma read_frame_Ok r payload l :
  read_frame r = Ok (payload, l) -> r = frame payload ++ l /\ len payload <= MAX_FRAME_LEN.
Proof.
  unfold read_frame, read_frame_into. intros H. inv_ok. apply read_exact_Ok in Ha as [-> Hx].
  destruct (Z.ltb_spec MAX_FRAME_LEN (be_val x)) as [|Hle]; [done|].
  set (n := Z.to_nat (be_val x)) in *.
  apply read_exact_Ok in H as [-> Hp]. cbn [length] in Hp.
  assert (Hn : length payload = n).
  { rewrite Hp, length_take. destruct (Nat.ltb_spec 0 n); [|cbn; lia].
    rewrite length_app, length_replicate. cbn [length]. lia. }
  assert (Hb : 0 <= be_val x) by (unfold be_val; apply le_val_range).
  assert (Hlen : len payload = be_val x) by (unfold len; lia).
  split; [|lia]. unfold frame. rewrite Hlen, <- Hx, be_bytes_val, <- app_assoc. done.
Qed.

Lemma recv_Ok s payload s' :
  recv s = (Ok payload, s') ->
  s.(st_in) = frame payload ++ s'.(st_in) /\ len payload <= MAX_FRAME_LEN /\ s' = after_read s'.(st_in) s.
Proof.
  unfold recv. destruct (read_frame s.(st_in)) as [[p l]|e| |] eqn:E; try done. intros [= <- <-].
  by apply read_frame_Ok in E as [-> Hl].
Qed.

Lemma send_Ok payload s s' :
  send payload s = (Ok tt, s') ->
  s' = after_write s'.(st_out) (frame payload) s /\ len payload <= MAX_FRAME_LEN.
Proof.
  unfold send. destruct (write_frame s.(st_out) payload) as [[r sent] out] eqn:E.
  destruct r as [[]| | |]; try done. intros [= <-]. cbn [st_out after_write].
  assert (Hl : len payload <= MAX_FRAME_LEN).
  { unfold write_frame in E. destruct (Z.ltb_spec MAX_FRAME_LEN (len payload)); [done|lia]. }
  split; [|done]. f_equal. pose proof (write_frame_sends s.(st_out) payload Hl) as Hx.
  rewrite E in Hx. by apply Hx.
Qed.

Lemma write_frame_safe script payload : (write_frame script payload).1.1 <> Panic.
Proof.
  unfold write_frame. destruct (_ <? _); [by cbn|].
  assert (H : forall m : io unit, m.1.1 <> Panic -> (then_flush m).1.1 <> Panic).
  { intros [[[[]| | |] sent] out]; cbn; try done. intros _. unfold flush. by destruct out as [|[]]; cbn. }
  apply H. destruct (_ <=? _).
  - generalize (be_bytes 4 (len payload) ++ payload) as buf. induction script as [|o script IH];
      intros [|b buf]; try (by cbn). cbn [write_all]. destruct o as [[|n]| |]; try (by cbn).
    specialize (IH (drop (S n) (b :: buf))). by destruct (write_all script _) as [[r ?] ?].
  - generalize (be_bytes 4 (len payload)) as head. generalize payload as body.
    induction script as [|o script IH]; intros body head; cbn [write_all_vectored];
      destruct (head ++ body) as [|b l]; try (by cbn).
    destruct o as [[|n]| |]; try (by cbn). set (sent := take (S n) (b :: l)).
    pose proof (IH (drop (length sent - length head) body) []) as H1.
    pose proof (IH body (drop (length sent) head)) as H2.
    destruct (_ <=? _)%nat; [revert H1|revert H2];
      match goal with |- context [write_all_vectored script ?h ?b] =>
        by destruct (write_all_vectored script h b) as [[r ?] ?] end.
Qed.

Lemma send_safe payload : safe (send payload).
Proof.
  intros s. unfold send. pose proof (write_frame_safe s.(st_out) payload) as H.
  by destruct (write_frame s.(st_out) payload) as [[[] ?] ?].
Qed.

Lemma recv_safe : safe recv.
Proof.
  intros s. unfold recv, read_frame, read_frame_into, read_exact.
  destruct (_ <? 4)%nat; [done|]. cbn [mbind res_bind]. destruct (_ <? _); [done|].
  by destruct (_ <? _)%nat.
Qed.

Lemma frame_slice payload : len payload <= MAX_FRAME_LEN -> is_slice payload.
Proof. unfold is_slice, MAX_FRAME_LEN. lia. Qed.

#[export] Hint Resolve send_safe recv_safe frame_slice : skaidb.

(** A read and what is done with it. *)
Lemma recv_then {A} (k : bytes -> eff DriverError Stream A) :
  (forall payload, len payload <= MAX_FRAME_LEN -> safe (k payload)) -> safe (recv ≫= k).
Proof.
  intros Hk. apply safe_bind; [apply recv_safe|]. intros payload s s' (_ & Hl & _)%recv_Ok. by apply Hk.
Qed.

(** A message as a frame's payload. *)
Lemma decoded_back m :
  message_ok m = true -> len (message_encode m) <= MAX_FRAME_LEN ->
  message_decode m (message_encode m) = Ok m.
Proof.
  intros Hm Hl. rewrite <- (app_nil_r (message_encode m)) at 1. apply message_back; [done|].
  rewrite app_nil_r. by apply frame_slice.
Qed.

Lemma challenge_back ch :
  message_ok (Challenge ch) = true -> len (challenge_encode ch) <= MAX_FRAME_LEN ->
  challenge_decode (challenge_encode ch) = Ok ch.
Proof.
  intros Hm Hl. pose proof (decoded_back (Challenge ch) Hm Hl) as H. cbn [message_decode message_encode] in H.
  destruct (challenge_decode _); try done. by injection H as ->.
Qed.

Lemma outcome_back o :
  message_ok (Outcome o) = true -> len (outcome_encode o) <= MAX_FRAME_LEN ->
  outcome_decode (outcome_encode o) = Ok o.
Proof.
  intros Hm Hl. pose proof (decoded_back (Outcome o) Hm Hl) as H. cbn [message_decode message_encode] in H.
  destruct (outcome_decode _); try done. by injection H as ->.
Qed.

(** ** The cache of derived keys *)

Definition cache_ok (p : Process) : Prop :=
  (forall password salt it k, p.(p_cache) !! (password, salt, it) = Some k -> k = salted_password password salt it)
  /\ (size p.(p_cache) <= CACHE_MAX)%nat.

Lemma cached_ok password salt it p :
  cache_ok p ->
  exists p', cached_salted_password password salt it p = (salted_password password salt it, p')
             /\ cache_ok p' /\ p'.(p_id) = p.(p_id) /\ p'.(p_nonce) = p.(p_nonce).
Proof.
  intros [Hc Hs]. unfold cached_salted_password.
  destruct (p_cache p !! (password, salt, it)) as [hit|] eqn:E.
  { exists p. rewrite (Hc _ _ _ _ E). done. }
  eexists. split; [reflexivity|]. split; [|done]. cbn [p_cache with_cache].
  set (map := if (CACHE_MAX <=? size (p_cache p))%nat then ∅ else p_cache p).
  assert (Hm : (forall pw s i k, map !! (pw, s, i) = Some k -> k = salted_password pw s i)
               /\ (S (size map) <= CACHE_MAX)%nat).
  { unfold map. destruct (Nat.leb_spec CACHE_MAX (size (p_cache p))); [|split; [done|lia]].
    split; [by intros; rewrite lookup_empty in *|]. rewrite map_size_empty. unfold CACHE_MAX. lia. }
  destruct Hm as [Hm Hsz]. split.
  - unfold with_cache. cbn [p_cache]. intros pw s i k.
    destruct (decide ((password, salt, it) = (pw, s, i))) as [[= <- <- <-]|Hne].
    + rewrite lookup_insert_eq. by intros [= <-].
    + rewrite lookup_insert_ne by done. apply Hm.
  - unfold with_cache. cbn [p_cache]. rewrite map_size_insert. destruct (map !! _); cbn; lia.
Qed.

(** ** SCRAM, step by step *)

Section scram.
Context (user password : bytes) (s : Stream) (p : Process).

Definition start_of : bytes :=
  start_encode {| username := user; client_nonce := nonce_text p.(p_id) p.(p_nonce); mechanism := ScramSha256 |}.

(** The message both sides sign, given the server's challenge. *)
Definition signed (ch : AuthChallenge) : bytes :=
  auth_message user (nonce_text p.(p_id) p.(p_nonce)) ch.(server_nonce) ch.(Handshake.salt) ch.(Handshake.iterations).

Definition proof_of (ch : AuthChallenge) : bytes :=
  finish_encode {| Handshake.client_proof :=
    client_proof password ch.(Handshake.salt) ch.(Handshake.iterations) (signed ch) |}.

Definition signature_of (ch : AuthChallenge) : bytes :=
  server_signature password ch.(Handshake.salt) ch.(Handshake.iterations) (signed ch).

(** How the exchange ends, once the server has granted it. *)
Definition granted (ch : AuthChallenge) (signature : bytes) : res DriverError unit :=
  if bool_decide (password = []) || bool_decide (signature_of ch = signature) then Ok tt
  else Err (Auth (str "server signature mismatch")).

End scram.

Lemma on_stream_step {A} (m : eff DriverError Stream A) s p r s1 :
  m s = (r, s1) -> on_stream m (s, p) = (r, (s1, p)).
Proof. apply (zoom_step fst (fun s t => (s, t.2)) m (s, p)). Qed.

(** The two halves of [handshake], around the server's challenge and its verdict. *)
Lemma handshake_run user password s p ch signature l out1 out2 s1 s2 :
  cache_ok p ->
  send (start_of user p) s = (Ok tt, s1) ->
  s1.(st_in) = frame (challenge_encode ch) ++ frame (outcome_encode (Granted signature)) ++ l ->
  message_ok (Challenge ch) = true -> len (challenge_encode ch) <= MAX_FRAME_LEN -> len signature = 32 ->
  s2 = after_read (frame (outcome_encode (Granted signature)) ++ l) s1 ->
  send (proof_of user password p ch) s2 = (Ok tt, out1) -> out2 = after_read l out1 ->
  exists p', handshake user password (s, p) = (granted user password p ch signature, (out2, p'))
             /\ cache_ok p' /\ p'.(p_nonce) = wrap 64 (p.(p_nonce) + 1).
Proof.
  intros Hc Hs1 Hin Hch Hlch Hsig -> Hs2 ->. unfold handshake.
  erewrite bind_step by reflexivity.
  erewrite bind_step; [|apply on_stream_step; exact Hs1].
  erewrite bind_step; [|apply on_stream_step; apply (recv_frame (challenge_encode ch) _ _ Hlch Hin)].
  erewrite bind_step; [|apply on_stream_step; unfold decoded, of_res; by rewrite challenge_back].
  set (p1 := with_nonce _ p). assert (Hc1 : cache_ok p1) by exact Hc.
  destruct (cached_ok password (Handshake.salt ch) (Handshake.iterations ch) p1 Hc1) as (p' & Ek & Hc' & _ & Hn).
  erewrite bind_step; [|unfold derive; by rewrite Ek].
  erewrite bind_step; [|apply on_stream_step; exact Hs2].
  assert (Hlo : len (outcome_encode (Granted signature)) <= MAX_FRAME_LEN).
  { cbn [outcome_encode]. rewrite len_app, Hsig. change (len [T_OUTCOME; x01]) with 2. unfold MAX_FRAME_LEN. lia. }
  apply send_Ok in Hs2 as [Es2 _].
  erewrite bind_step; [|apply on_stream_step; apply (recv_frame _ l _ Hlo); by rewrite Es2].
  erewrite bind_step; [|apply on_stream_step; unfold decoded, of_res; rewrite outcome_back; [done|cbn; lia|done]].
  exists p'. split; [|by rewrite Hn]. unfold granted, signature_of, server_signature.
  destruct (bool_decide (password = [])); cbn [negb orb]; [done|].
  fold (signed user p ch). by destruct (bool_decide _).
Qed.

Lemma on_stream_Ok {A} (m : eff DriverError Stream A) s p a t :
  on_stream m (s, p) = (Ok a, t) -> exists s1, m s = (Ok a, s1) /\ t = (s1, p).
Proof. unfold on_stream, zoom. cbn [fst]. destruct (m s) as [r s1]. intros [= -> <-]. eauto. Qed.

Lemma proof_frame user password p ch : len (proof_of user password p ch) <= MAX_FRAME_LEN.
Proof.
  assert (H : len (proof_of user password p ch) = 33); [|rewrite H; unfold MAX_FRAME_LEN; lia].
  unfold proof_of, finish_encode. cbn [Handshake.client_proof]. rewrite proof_eq, len_app.
  unfold len at 2. rewrite xor_bytes_length by by rewrite !hmac_length. by rewrite hmac_length.
Qed.

(** What a login that succeeds has received. *)
Lemma handshake_Ok user password s p t :
  cache_ok p -> handshake user password (s, p) = (Ok tt, t) ->
  exists payload1 ch payload2 signature,
    s.(st_in) = frame payload1 ++ frame payload2 ++ t.1.(st_in)
    /\ challenge_decode payload1 = Ok ch
    /\ outcome_decode payload2 = Ok (Granted signature)
    /\ granted user password p ch signature = Ok tt
    /\ t.1.(st_sent) = s.(st_sent) ++ frame (start_of user p) ++ frame (proof_of user password p ch).
Proof.
  intros Hc H. unfold handshake in H.
  apply bind_done in H as (nonce & t1 & [= <- <-] & H). cbv beta zeta in H.
  apply bind_done in H as ([] & t2 & (s2 & Hsend & ->)%on_stream_Ok & H).
  apply bind_done in H as (payload1 & t3 & (s3 & Hrecv & ->)%on_stream_Ok & H).
  apply bind_done in H as (ch & t4 & (s4 & Hdec & ->)%on_stream_Ok & H).
  apply bind_done in H as (salted & t5 & Hder & H). unfold derive in Hder.
  set (p1 := with_nonce _ p) in *.
  destruct (cached_ok password (Handshake.salt ch) (Handshake.iterations ch) p1 Hc) as (p' & Ek & _).
  rewrite Ek in Hder. injection Hder as <- <-.
  apply bind_done in H as ([] & t6 & (s6 & Hsend2 & ->)%on_stream_Ok & H).
  apply bind_done in H as (payload2 & t7 & (s7 & Hrecv2 & ->)%on_stream_Ok & H).
  apply bind_done in H as (outcome & t8 & (s8 & Hdec2 & ->)%on_stream_Ok & H).
  apply send_Ok in Hsend as [E2 _]. apply recv_Ok in Hrecv as (E3 & _ & E3').
  apply send_Ok in Hsend2 as [E6 _]. apply recv_Ok in Hrecv2 as (E7 & _ & E7').
  unfold decoded, of_res in Hdec, Hdec2. injection Hdec as Hdec <-. injection Hdec2 as Hdec2 <-.
  destruct (challenge_decode payload1) as [ch'|e| |] eqn:Ech; try done. injection Hdec as ->.
  destruct (outcome_decode payload2) as [o|e| |] eqn:Eo; try done. injection Hdec2 as ->.
  destruct outcome as [signature|reason]; [|done].
  exists payload1, ch, payload2, signature.
  assert (Et : t = (s7, p') /\ granted user password p ch signature = Ok tt).
  { unfold granted. destruct (bool_decide (password = [])); cbn [negb orb] in *; [by injection H as <-|].
    unfold signature_of, server_signature. fold (signed user p ch) in H.
    destruct (bool_decide _); [by injection H as <-|done]. }
  destruct Et as [-> Hg]. cbn [fst]. split_and!; try done.
  - rewrite E2 in E3. cbn [st_in after_write] in E3. rewrite E3. f_equal.
    rewrite E6 in E7. exact E7.
  - rewrite E7', E6, E3', E2. cbn [st_sent after_read after_write]. by rewrite <- app_assoc.
Qed.

(** ** Every exchange comes back *)

Lemma on_stream_safe {A} (m : eff DriverError Stream A) : safe m -> safe (on_stream m).
Proof. apply safe_zoom. Qed.
#[export] Hint Resolve on_stream_safe : skaidb.

Lemma next_nonce_safe : safe next_nonce.
Proof. by intros [s p]. Qed.

Lemma next_gss_nonce_safe : safe next_gss_nonce.
Proof. by intros [s p]. Qed.

Lemma derive_safe password salt it : safe (derive password salt it).
Proof. intros [s p]. unfold derive. by destruct (cached_salted_password _ _ _ p). Qed.

Lemma decode_returns {A} (r : res ProtoError A) (f : A -> message) : returns (f <$> r) -> returns r.
Proof. by destruct r. Qed.

Lemma challenge_decode_returns buf : is_slice buf -> returns (challenge_decode buf).
Proof.
  intros Hs. eapply (decode_returns _ Challenge).
  apply (message_total (Challenge {| Handshake.salt := []; Handshake.iterations := 0; server_nonce := [] |}) buf Hs).
Qed.

Lemma outcome_decode_returns buf : is_slice buf -> returns (outcome_decode buf).
Proof. intros Hs. eapply (decode_returns _ Outcome). apply (message_total (Outcome (Denied [])) buf Hs). Qed.

#[export] Hint Resolve next_nonce_safe next_gss_nonce_safe derive_safe challenge_decode_returns
  outcome_decode_returns : skaidb.

Lemma decoded_safe {A} (r : res ProtoError A) : returns r -> safe (decoded r).
Proof. intros Hr. apply safe_of_res. by apply returns_map_err. Qed.

(** A read, and the rest of a login. *)
Lemma on_recv_then {A} (k : bytes -> login A) :
  (forall payload, len payload <= MAX_FRAME_LEN -> safe (k payload)) -> safe (on_stream recv ≫= k).
Proof.
  intros Hk. apply safe_bind; [apply safe_zoom, recv_safe|]. intros payload [s p] t Ht.
  apply on_stream_Ok in Ht as (s1 & (_ & Hl & _)%recv_Ok & ->). by apply Hk.
Qed.

Lemma handshake_safe user password : safe (handshake user password).
Proof.
  unfold handshake. apply safe_bind'; [auto with skaidb|]. intros nonce. cbv zeta.
  apply safe_bind'; [auto with skaidb|]. intros []. apply on_recv_then. intros payload Hl.
  apply safe_bind'; [apply on_stream_safe, decoded_safe; auto with skaidb|]. intros ch. apply safe_bind'; [auto with skaidb|].
  intros salted. apply safe_bind'; [auto with skaidb|]. intros []. apply on_recv_then. intros payload2 Hl2.
  apply safe_bind'; [apply on_stream_safe, decoded_safe; auto with skaidb|]. intros [sig|reason]; [|done].
  by repeat destruct (negb _) || destruct (bool_decide _).
Qed.

Lemma handshake_external_safe user : safe (handshake_external user).
Proof.
  apply safe_bind'; [auto with skaidb|]. intros []. apply recv_then. intros payload Hl.
  apply safe_bind'; [apply decoded_safe; auto with skaidb|]. by intros [sig|reason].
Qed.

Section gss.
Context {G : Type} (gss_new : bytes -> option bytes -> res bytes (G * bytes))
  (gss_step : G -> bytes -> res bytes (ClientStep G)) (sha384 sha512 : bytes -> bytes).

(** The Kerberos library comes back, with a result or an error. *)
Context (gss_new_returns : forall spn b, returns (gss_new spn b))
  (gss_step_returns : forall g t, returns (gss_step g t)).

(** One more turn than there are bytes to read is enough: each turn reads a
    frame, four bytes at least. *)
Lemma gss_loop_returns fuel client s :
  (length s.(st_in) < fuel)%nat -> returns (gss_loop gss_step fuel client s).1.
Proof.
  revert client s. induction fuel as [|fuel IH]; intros client s Hf; [lia|]. cbn [gss_loop].
  unfold mbind at 1, eff_bind at 1. pose proof (recv_safe s) as Hr. destruct (recv s) as [[payload|e| |] s1] eqn:E; try done.
  apply recv_Ok in E as (E & _ & _). clear Hr.
  assert (Hs1 : (length s1.(st_in) < fuel)%nat).
  { apply (f_equal length) in E. unfold frame in E. rewrite !length_app, be_bytes_length in E. lia. }
  assert (Hsend : forall t c, returns ((send_token t ≫= fun _ => gss_loop gss_step fuel c) s1).1).
  { intros t c. unfold mbind, eff_bind. pose proof (send_safe (token_encode {| token := t |}) s1) as Hs.
    unfold send_token. destruct (send _ s1) as [[[]| | |] s2] eqn:Es; try done.
    apply IH. apply send_Ok in Es as [Es _]. by rewrite Es. }
  destruct (token_decode payload) as [tok|e| |].
  - destruct client as [c|]; [|done]. unfold mbind at 1, eff_bind at 1, of_res.
    pose proof (gss_step_returns c tok.(token)) as Hg. destruct (gss_step c tok.(token)) as [[next t|[t|]]|e| |]; try done.
    + apply Hsend.
    + apply Hsend.
    + apply IH. done.
  - by destruct (outcome_decode payload) as [[]|e'| |].
  - by destruct (outcome_decode payload) as [[]|e'| |].
  - by destruct (outcome_decode payload) as [[]|e'| |].
Qed.

Lemma handshake_gssapi_safe kerberos user spn :
  safe (handshake_gssapi kerberos gss_new gss_step sha384 sha512 user spn).
Proof.
  unfold handshake_gssapi. destruct kerberos; [|done].
  apply safe_bind'; [by apply safe_zoom|]. intros b. apply safe_bind'; [auto with skaidb|]. intros nonce.
  apply safe_bind'; [apply safe_of_res, returns_map_err, gss_new_returns|]. intros [client token0].
  apply safe_bind'; [auto with skaidb|]. intros []. apply safe_bind'; [apply safe_zoom, send_safe|]. intros [].
  apply safe_bind; [by apply safe_zoom|]. intros n [s p] t (s1 & [= <- <-] & ->)%on_stream_Ok.
  unfold on_stream, zoom. cbn [fst].
  pose proof (gss_loop_returns (S (length (st_in s))) (Some client) s (Nat.lt_succ_diag_r _)) as H.
  by destruct (gss_loop _ _ _ s).
Qed.

Lemma login_of_safe kerberos l : safe (login_of kerberos gss_new gss_step sha384 sha512 l).
Proof.
  unfold login_of. destruct (l_gssapi_spn l) as [spn|]; [apply handshake_gssapi_safe|].
  destruct (l_cert_auth l); [apply on_stream_safe, handshake_external_safe|apply handshake_safe].
Qed.

(** What the network says of a connection is a connection or an error. *)
Definition net_ok (w : World) : Prop := Forall (fun net => forall ep, returns (net ep)) w.(w_net).

Lemma dial_back kerberos ep l w :
  net_ok w -> returns (dial kerberos gss_new gss_step sha384 sha512 ep l w).1
              /\ net_ok (dial kerberos gss_new gss_step sha384 sha512 ep l w).2.
Proof.
  intros Hw. unfold dial, mbind, eff_bind, connect. destruct (w_net w) as [|net nets] eqn:En; [done|].
  unfold net_ok in Hw. rewrite En in Hw. inversion_clear Hw as [|? ? Hn Hns]. specialize (Hn ep).
  destruct (net ep) as [t|e| |]; try done. cbn [map_err]. unfold log_in.
  pose proof (login_of_safe kerberos l (t, w_process (with_net nets w))) as Hl.
  destruct (login_of _ _ _ _ _ l _) as [r [t' p]]. by destruct r.
Qed.

End gss.

(** ** The order of endpoints *)

Lemma latency_flip a b : latency_cmp a b = Gt -> latency_cmp b a <> Gt.
Proof.
  unfold latency_cmp. destruct (a.1) as [x|], (b.1) as [y|]; try done.
  rewrite (Z.compare_antisym x y). by destruct (x ?= y).
Qed.

Lemma latency_trans a b c : latency_cmp a b <> Gt -> latency_cmp b c <> Gt -> latency_cmp a c <> Gt.
Proof.
  unfold latency_cmp. destruct (a.1) as [x|], (b.1) as [y|], (c.1) as [z|]; try done.
  rewrite !Z.compare_le_iff. lia.
Qed.

Lemma dedup_from_spec seen l :
  NoDup seen ->
  NoDup (dedup_from seen l) /\ (forall e, e ∈ dedup_from seen l <-> e ∈ seen \/ e ∈ l)
  /\ seen `prefix_of` dedup_from seen l.
Proof.
  revert seen. induction l as [|x l IH]; intros seen Hn; cbn [dedup_from].
  { split_and!; [done| |done]. intros e. rewrite elem_of_nil. tauto. }
  destruct (bool_decide_reflect (x ∈ seen)) as [Hx|Hx].
  - destruct (IH seen Hn) as (H1 & H2 & H3). split_and!; [done| |done]. intros e. rewrite H2, elem_of_cons.
    naive_solver.
  - destruct (IH (seen ++ [x])) as (H1 & H2 & H3).
    { apply NoDup_app. split_and!; [done| |apply NoDup_singleton]. intros e He ->%list_elem_of_singleton. done. }
    split_and!; [done| |by etransitivity; [|exact H3]; exists [x]].
    intros e. rewrite H2, elem_of_app, !elem_of_cons, elem_of_nil. tauto.
Qed.

(** Sorted by latency, the unreachable ones last. *)
Definition nearer (probe : bytes -> option Z) (a b : bytes) : Prop :=
  latency_cmp (probe a, a) (probe b, b) <> Gt.

(** ** Properties *)

(** The endpoints to try are the configured ones, each once, nearest
    first, those that did not answer the probe at the end. *)
Theorem endpoints_nearest_first probe eps :
  let l := order_by_latency probe (dedup eps) in
  NoDup l /\ (forall e, e ∈ l <-> e ∈ eps) /\ StronglySorted (nearer probe) l.
Proof.
  intros l. destruct (dedup_from_spec [] eps) as (Hn & He & _); [constructor|]. fold (dedup eps) in Hn, He.
  assert (Hp : l ≡ₚ dedup eps).
  { unfold l, order_by_latency. destruct (_ <=? 1)%nat; [done|]. rewrite sort_by_Permutation.
    rewrite <- list_fmap_compose. by rewrite list_fmap_id. }
  split_and!.
  - by rewrite Hp.
  - intros e. rewrite Hp, He, elem_of_nil. tauto.
  - unfold l, order_by_latency. destruct (Nat.leb_spec (length (dedup eps)) 1) as [Hl|_].
    + destruct (dedup eps) as [|e [|e' eps']]; cbn in Hl; [constructor|repeat constructor|lia].
    + set (scored := map _ _).
      assert (Hs : Forall (fun a => a.1 = probe a.2) (sort_by latency_cmp scored)).
      { rewrite sort_by_Permutation. unfold scored. by apply Forall_map, Forall_true. }
      pose proof (sort_by_sorted latency_cmp latency_flip latency_trans scored) as Hsort.
      induction Hsort as [|a sorted Hsort IH Ha]; [constructor|]. inversion_clear Hs as [|? ? Hpa Hps].
      cbn [fmap list_fmap]. constructor; [by apply IH|]. apply Forall_map.
      rewrite Forall_forall in *. intros b Hb. unfold nearer. specialize (Ha b Hb). specialize (Hps b Hb).
      cbv beta in Hps. rewrite <- Hpa, <- Hps. by destruct a, b.
Qed.

(** C27: the password login with a server that holds the password's verifier: the
    client sends its start and the proof, nothing else; the verifier accepts
    that proof; and whatever signature the server grants the login with, it
    succeeds exactly when no password was given or the signature is the one
    the verifier answers. *)
Theorem login_completes user password s p ch signature l :
  cache_ok p ->
  s.(st_in) = frame (challenge_encode ch) ++ frame (outcome_encode (Granted signature)) ++ l ->
  message_ok (Challenge ch) = true -> len (challenge_encode ch) <= MAX_FRAME_LEN -> len signature = 32 ->
  len (start_of user p) <= MAX_FRAME_LEN ->
  keen (length (frame (start_of user p)) + S (length (frame (proof_of user password p ch)) + 1)) s.(st_out) ->
  exists s' p',
    handshake user password (s, p) = (granted user password p ch signature, (s', p'))
    /\ s'.(st_sent) = s.(st_sent) ++ frame (start_of user p) ++ frame (proof_of user password p ch)
    /\ s'.(st_in) = l /\ cache_ok p'
    /\ verify (credential_new password ch.(Handshake.salt) ch.(Handshake.iterations)) (signed user p ch)
         (client_proof password ch.(Handshake.salt) ch.(Handshake.iterations) (signed user p ch))
       = Some (signature_of user password p ch).
Proof.
  intros Hc Hin Hch Hlch Hsig Hls Hk.
  destruct (send_done (start_of user p) _ s Hls Hk) as (out1 & E1 & Hk1).
  set (s2 := after_read (frame (outcome_encode (Granted signature)) ++ l) (after_write out1 (frame (start_of user p)) s)).
  destruct (send_done (proof_of user password p ch) 0 s2 (proof_frame _ _ _ _) Hk1) as (out2 & E2 & _).
  destruct (handshake_run user password s p ch signature l _ _ _ s2 Hc E1 Hin Hch Hlch Hsig eq_refl E2 eq_refl)
    as (p' & E & Hc' & _).
  eexists _, p'. split; [exact E|]. split_and!; [|done|done|apply verify_own].
  cbn [st_sent after_read after_write s2]. by rewrite <- app_assoc.
Qed.

(** C8: a password login that succeeds has authenticated the server: whatever
    the peer sent, it was a challenge and a grant whose signature is the one
    only the keys derived from this password give on this exchange's own
    nonces, and the proof the client sent was over that same exchange. *)
Theorem login_authenticates_server user password s p t :
  cache_ok p -> password <> [] -> handshake user password (s, p) = (Ok tt, t) ->
  exists payload1 ch payload2,
    s.(st_in) = frame payload1 ++ frame payload2 ++ t.1.(st_in)
    /\ challenge_decode payload1 = Ok ch
    /\ outcome_decode payload2 = Ok (Granted (signature_of user password p ch))
    /\ t.1.(st_sent) = s.(st_sent) ++ frame (start_of user p) ++ frame (proof_of user password p ch).
Proof.
  intros Hc Hpw H. destruct (handshake_Ok user password s p t Hc H) as (p1 & ch & p2 & sig & Hin & Hch & Ho & Hg & Hs).
  exists p1, ch, p2. split_and!; try done. rewrite Ho. do 2 f_equal. unfold granted in Hg.
  rewrite bool_decide_false in Hg by done. cbn [orb] in Hg.
  by destruct (bool_decide_reflect (signature_of user password p ch = sig)) as [->|].
Qed.

(** Every login comes back, whatever the peer sends and however the writer
    behaves, provided the Kerberos library does: no exchange runs forever on a
    finite conversation and none panics. *)
Theorem logins_return {G} kerberos (gss_new : bytes -> option bytes -> res bytes (G * bytes)) gss_step
    sha384 sha512 l :
  (forall spn b, returns (gss_new spn b)) -> (forall g t, returns (gss_step g t)) ->
  forall t, returns (login_of kerberos gss_new gss_step sha384 sha512 l t).1.
Proof. intros Hnew Hstep. by apply login_of_safe. Qed.

(** A Kerberos login does not authenticate the server: whatever the Kerberos
    library would have said of it, a peer that answers the start with a grant,
    and no token, is accepted. *)
Theorem gssapi_grant_unproven {G} (gss_new : bytes -> option bytes -> res bytes (G * bytes)) gss_step
    sha384 sha512 user spn s p g token0 signature l :
  gss_new spn (tls_server_end_point sha384 sha512 <$> s.(st_cert)) = Ok (g, token0) ->
  s.(st_in) = frame (outcome_encode (Granted signature)) ++ l -> len signature = 32 ->
  let start := start_encode
    {| username := user; client_nonce := nonce_text p.(p_id) p.(p_gss_nonce); mechanism := Gssapi |} in
  let tok := token_encode {| token := token0 |} in
  len start <= MAX_FRAME_LEN -> len tok <= MAX_FRAME_LEN ->
  keen (length (frame start) + S (length (frame tok) + 1)) s.(st_out) ->
  exists t, handshake_gssapi true gss_new gss_step sha384 sha512 user spn (s, p) = (Ok tt, t).
Proof.
  intros Hnew Hin Hsig start tok Hls Hlt Hk.
  destruct (send_done start _ s Hls Hk) as (out1 & E1 & Hk1).
  destruct (send_done tok 0 (after_write out1 (frame start) s) Hlt Hk1) as (out2 & E2 & _).
  unfold handshake_gssapi. eexists.
  erewrite bind_step by reflexivity. erewrite bind_step by reflexivity.
  cbn [fst]. erewrite bind_step; [|unfold of_res; by rewrite Hnew]. cbv beta iota zeta.
  erewrite bind_step; [|apply on_stream_step; exact E1].
  erewrite bind_step; [|apply on_stream_step; exact E2]. erewrite bind_step by reflexivity.
  apply on_stream_step. cbn [gss_loop].
  assert (Hlo : len (outcome_encode (Granted signature)) <= MAX_FRAME_LEN).
  { cbn [outcome_encode]. rewrite len_app, Hsig. change (len [T_OUTCOME; x01]) with 2. unfold MAX_FRAME_LEN. lia. }
  erewrite bind_step; [|apply (recv_frame _ l _ Hlo); exact Hin].
  rewrite outcome_back; [|cbn; lia|done].
  assert (Ht : token_decode (outcome_encode (Granted signature)) = Err (malformed "unexpected handshake tag")).
  { pose proof (message_other (Token {| token := [] |}) (Outcome (Granted signature)) []) as H.
    specialize (H ltac:(discriminate)). rewrite app_nil_r in H. specialize (H (frame_slice _ Hlo)).
    cbn [message_decode message_encode] in H. destruct (token_decode _); try done. by injection H as ->. }
  by rewrite Ht.
Qed.

(** ** Witnesses *)

Definition wit_process : Process := {| p_id := 7; p_nonce := 1; p_gss_nonce := 2; p_cache := ∅ |}.
Definition wit_challenge : AuthChallenge :=
  {| Handshake.salt := str "salt"; Handshake.iterations := 2; server_nonce := str "sn" |}.
Definition wit_stream (l : bytes) : Stream :=
  {| st_out := replicate 200 (Accepts 50); st_in := l; st_sent := []; st_cert := None |}.
Definition wit_signature : bytes := signature_of (str "u") (str "pw") wit_process wit_challenge.
Definition wit_replies : bytes :=
  frame (challenge_encode wit_challenge) ++ frame (outcome_encode (Granted wit_signature)) ++ str "next".

Lemma wit_process_ok : cache_ok wit_process.
Proof. split; [done|]. vm_compute. lia. Qed.

Lemma login_completes_witness :
  exists t, handshake (str "u") (str "pw") (wit_stream wit_replies, wit_process) = (Ok tt, t).
Proof.
  destruct (login_completes (str "u") (str "pw") (wit_stream wit_replies) wit_process wit_challenge
              wit_signature (str "next")) as (s' & p' & H & _).
  - exact wit_process_ok.
  - reflexivity.
  - by vm_compute.
  - by vm_compute.
  - by vm_compute.
  - by vm_compute.
  - split; [done|]. apply Nat.leb_le. by vm_compute.
  - exists (s', p'). rewrite H. unfold granted, wit_signature. rewrite bool_decide_false by discriminate.
    rewrite bool_decide_true by reflexivity. reflexivity.
Defined.

Lemma login_authenticates_server_witness :
  exists payload1 ch rest,
    wit_replies = frame payload1 ++ rest /\ challenge_decode payload1 = Ok ch.
Proof.
  assert (E : (handshake (str "u") (str "pw") (wit_stream wit_replies, wit_process)).1 = Ok tt) by by vm_compute.
  destruct (handshake (str "u") (str "pw") (wit_stream wit_replies, wit_process)) as [r t] eqn:H.
  cbn [fst] in E. subst r.
  destruct (login_authenticates_server (str "u") (str "pw") (wit_stream wit_replies) wit_process t)
    as (p1 & ch & p2 & Hin & Hch & _).
  - exact wit_process_ok.
  - discriminate.
  - exact H.
  - exists p1, ch, (frame p2 ++ st_in t.1). split; [exact Hin|exact Hch].
Defined.

Lemma logins_return_witness :
  returns (login_of true (fun _ _ => Err (str "no ticket")) (fun (g : unit) _ => Ok (Done None)) sha256 sha256
    {| l_username := str "u"; l_password := []; l_gssapi_spn := Some (str "svc"); l_cert_auth := false |}
    (wit_stream [], wit_process)).1.
Proof.
  apply (logins_return true (fun _ _ => Err (str "no ticket")) (fun (g : unit) _ => Ok (Done None)) sha256 sha256
    {| l_username := str "u"; l_password := []; l_gssapi_spn := Some (str "svc"); l_cert_auth := false |}); done.
Defined.

Lemma gssapi_grant_unproven_witness :
  exists t, handshake_gssapi true (fun _ _ => Ok (tt, str "token")) (fun _ _ => Err (str "not the server"))
              sha256 sha256 (str "u") (str "svc")
              (wit_stream (frame (outcome_encode (Granted (replicate 32 x00)))), wit_process) = (Ok tt, t).
Proof.
  apply (gssapi_grant_unproven (fun _ _ => Ok (tt, str "token")) (fun _ _ => Err (str "not the server"))
           sha256 sha256 (str "u") (str "svc")
           (wit_stream (frame (outcome_encode (Granted (replicate 32 x00))))) wit_process tt (str "token")
           (replicate 32 x00) []).
  - done.
  - by vm_compute.
  - done.
  - by vm_compute.
  - by vm_compute.
  - split; [done|]. apply Nat.leb_le. by vm_compute.
Defined.
