(* ===== verification/Transport.v ===== *)
(** * Transports

    [crates/skaidb-net/src/lib.rs]: plain and TLS streams and the buffered
    connection, and [frame.rs] over any of them.  [Frame] writes over a list
    of outcomes and reads from the bytes to come, and [Login] gives the driver
    a connection made of these; here frames go over calls of [read] and
    [write], and what a transport promises makes the two agree. *)
From S2P Require Import Prelude Bytes Text Cursor Message Frame Effect Login.
#[local] Open Scope Z_scope.

(** ** What a transport does and promises *)

(** [std::io]'s [Read] and [Write]; [read]'s argument is the buffer's room. *)
Class Transport (X : Type) := {
  read : nat -> eff IoError X bytes;
  write : bytes -> eff IoError X nat;
  write_vectored : bytes -> bytes -> eff IoError X nat;
  flush : eff IoError X unit;
}.

(** The bytes that will still arrive, how reading ends after them, the bytes
    that have left, and a bound on the interruptions still to come. *)
Class TransportView (X : Type) := {
  to_come : X -> bytes;
  ending : X -> IoError;
  sent : X -> bytes;
  patience : X -> nat;
}.

Section laws.
Context {X : Type} `{TransportView X}.

(** A call that takes from [b] to send. *)
Definition accepted (x : X) (r : res IoError nat) (b : bytes) (x' : X) : Prop :=
  to_come x' = to_come x /\ ending x' = ending x /\ (patience x' <= patience x)%nat /\
  match r with
  | Ok k => (k <= length b)%nat /\ sent x' = sent x ++ take k b
  | Err Interrupted => sent x' = sent x /\ (patience x' < patience x)%nat
  | Err OtherIo => sent x' = sent x
  | _ => False
  end.

(** A call that reads at most [n] bytes. *)
Definition delivered (x : X) (r : res IoError bytes) (n : nat) (x' : X) : Prop :=
  sent x' = sent x /\ ending x' = ending x /\ (patience x' <= patience x)%nat /\
  match r with
  | Ok b => to_come x = b ++ to_come x' /\ (length b <= n)%nat
            /\ (b = [] -> n = O \/ to_come x = [] /\ ending x = UnexpectedEof)
  | Err Interrupted => to_come x' = to_come x /\ (patience x' < patience x)%nat
  | Err e => to_come x = [] /\ to_come x' = [] /\ e = ending x
  | _ => False
  end.

(** A call that sends what is on its way. *)
Definition flushed (x : X) (r : res IoError unit) (x' : X) : Prop :=
  to_come x' = to_come x /\ ending x' = ending x /\ sent x' = sent x /\ (patience x' <= patience x)%nat /\
  match r with Ok _ | Err Interrupted | Err OtherIo => True | _ => False end.

End laws.

Class TransportLaws (X : Type) `{Transport X} `{TransportView X} := {
  read_law n x : delivered x (read n x).1 n (read n x).2;
  write_law b x : accepted x (write b x).1 b (write b x).2;
  write_vectored_law h b x : accepted x (write_vectored h b x).1 (h ++ b) (write_vectored h b x).2;
  flush_law x : flushed x (flush x).1 (flush x).2;
}.

(** ** Frames over it: [frame.rs] with [read] and [write] as they come *)

Section frames.
Context {X : Type} `{Transport X}.

(** The default [Read::read_exact]. *)
Fixpoint read_exact (fuel n : nat) : eff IoError X bytes := fun x =>
  match n with
  | O => (Ok [], x)
  | _ =>
      match fuel with
      | O => (OutOfFuel, x)
      | S fuel =>
          match read n x with
          | (Ok [], x) => (Err UnexpectedEof, x)
          | (Ok b, x) => let '(r, x) := read_exact fuel (n - length b) x in (app b <$> r, x)
          | (Err Interrupted, x) => read_exact fuel n x
          | out => out
          end
      end
  end.

Definition read_frame_into (fuel : nat) (buf : bytes) : eff IoError X bytes :=
  len_buf ← read_exact fuel 4;
  let n := be_val len_buf in
  if MAX_FRAME_LEN <? n then raise InvalidData
  else
    let n := Z.to_nat n in
    let buf := if (length buf <? n)%nat then buf ++ replicate (n - length buf) x00 else buf in
    read_exact fuel (length (take n buf)).

Definition read_frame (fuel : nat) : eff IoError X bytes := read_frame_into fuel [].

(** The default [Write::write_all]. *)
Fixpoint write_all (fuel : nat) (buf : bytes) : eff IoError X unit := fun x =>
  match buf with
  | [] => (Ok tt, x)
  | _ =>
      match fuel with
      | O => (OutOfFuel, x)
      | S fuel =>
          match write buf x with
          | (Ok O, x) => (Err WriteZero, x)
          | (Ok n, x) => write_all fuel (drop n buf) x
          | (Err Interrupted, x) => write_all fuel buf x
          | (Err e, x) => (Err e, x)
          | (Panic, x) => (Panic, x)
          | (OutOfFuel, x) => (OutOfFuel, x)
          end
      end
  end.

Fixpoint write_all_vectored (fuel : nat) (head body : bytes) : eff IoError X unit := fun x =>
  match head ++ body with
  | [] => (Ok tt, x)
  | _ =>
      match fuel with
      | O => (OutOfFuel, x)
      | S fuel =>
          match write_vectored head body x with
          | (Ok O, x) => (Err WriteZero, x)
          | (Ok n, x) =>
              if (length head <=? n)%nat then write_all_vectored fuel [] (drop (n - length head) body) x
              else write_all_vectored fuel (drop n head) body x
          | (Err e, x) => (Err e, x)
          | (Panic, x) => (Panic, x)
          | (OutOfFuel, x) => (OutOfFuel, x)
          end
      end
  end.

Definition write_frame (fuel : nat) (payload : bytes) : eff IoError X unit :=
  if MAX_FRAME_LEN <? len payload then raise InvalidInput
  else
    let prefix := be_bytes 4 (len payload) in
    _ ← (if len payload <=? COALESCE_LIMIT then write_all fuel (prefix ++ payload)
         else write_all_vectored fuel prefix payload);
    flush.

(** The driver's calls of both. *)
Definition send (fuel : nat) (payload : bytes) : eff DriverError X unit := fun x =>
  let '(r, x) := write_frame fuel payload x in (map_err (fun e => Io (Wire e)) r, x).

Definition recv (fuel : nat) : eff DriverError X bytes := fun x =>
  let '(r, x) := read_frame fuel x in (map_err (fun e => Io (Wire e)) r, x).

End frames.

(** ** The two readings agree *)

Section agree.
Context {X : Type} `{TransportLaws X}.
Implicit Types (x : X).

Lemma read_exact_reads fuel n x :
  (length (to_come x) + patience x < fuel)%nat ->
  let '(r, x') := read_exact fuel n x in
  sent x' = sent x /\ ending x' = ending x /\ (patience x' <= patience x)%nat /\
  if (length (to_come x) <? n)%nat then r = Err (ending x) /\ to_come x' = []
  else r = Ok (take n (to_come x)) /\ to_come x' = drop n (to_come x).
Proof.
  revert n x. induction fuel as [|fuel IH]; intros n x Hf; [lia|]. destruct n as [|n]; [done|].
  cbn [read_exact]. pose proof (read_law (S n) x) as Hr. destruct (read (S n) x) as [[b|e| |] x1]; cbn [fst snd] in Hr;
    destruct Hr as (Es & Ee & Hp & Hr); try done.
  - destruct Hr as (Et & Hl & Hz). destruct b as [|c b].
    + destruct (Hz eq_refl) as [Hn|[Hz' He]]; [done|]. rewrite Hz' in Et |- *. cbn in Et |- *. rewrite Ee, He. by split_and!.
    + specialize (IH (S n - length (c :: b))%nat x1). rewrite Et, length_app in Hf. cbn [length] in Hf.
      specialize (IH ltac:(lia)). destruct (read_exact fuel _ x1) as [r x2]. destruct IH as (Es2 & Ee2 & Hp2 & IH).
      rewrite Es2, Ee2, Es, Ee. split_and!; [done|done|lia|]. rewrite Et, length_app. rewrite Ee in IH.
      cbn [length] in *. destruct (Nat.ltb_spec (length (to_come x1)) (S n - S (length b))) as [Hlt|Hge].
      * destruct IH as [-> ->]. destruct (Nat.ltb_spec (S (length b) + length (to_come x1)) (S n)); [done|lia].
      * destruct IH as [-> ->]. destruct (Nat.ltb_spec (S (length b) + length (to_come x1)) (S n)); [lia|].
        cbn [fmap res_fmap]. rewrite (take_app_ge (c :: b)), (drop_app_ge (c :: b)) by (cbn; lia). done.
  - destruct e.
    5: { destruct Hr as [Et Hlt]. specialize (IH (S n) x1). rewrite Et in IH. specialize (IH ltac:(lia)).
         destruct (read_exact fuel (S n) x1) as [r x2]. destruct IH as (Es2 & Ee2 & Hp2 & IH).
         rewrite Es2, Ee2, Es, Ee. rewrite Ee in IH. split_and!; [done|done|lia|done]. }
    all: destruct Hr as (Et & Et' & ->); rewrite Et; cbn; by split_and!.
Qed.

Lemma read_frame_over fuel buf x :
  (length (to_come x) + patience x < fuel)%nat ->
  let '(r, x') := read_frame_into fuel buf x in
  sent x' = sent x /\ ending x' = ending x /\
  match Frame.read_frame_into (to_come x) buf with
  | Ok (b, rest) => r = Ok b /\ to_come x' = rest
  | Err UnexpectedEof => r = Err (ending x) /\ to_come x' = []
  | Err e => r = Err e /\ to_come x' = drop 4 (to_come x)
  | _ => False
  end.
Proof.
  intros Hf. unfold read_frame_into, mbind, eff_bind. pose proof (read_exact_reads fuel 4 x Hf) as Hr.
  destruct (read_exact fuel 4 x) as [r1 x1]. destruct Hr as (Es & Ee & Hp & Hr).
  unfold Frame.read_frame_into. change (Frame.read_exact 4 (to_come x)) with
    (if (length (to_come x) <? 4)%nat then Err UnexpectedEof : res IoError (bytes * bytes)
     else Ok (take 4 (to_come x), drop 4 (to_come x))).
  destruct (Nat.ltb_spec (length (to_come x)) 4) as [Hlt|Hge].
  - destruct Hr as [-> Et]. cbn [mbind res_bind]. by split_and!.
  - destruct Hr as [-> Et]. cbn [mbind res_bind]. destruct (MAX_FRAME_LEN <? _); [by split_and!|].
    set (want := take _ _). assert (Hf1 : (length (to_come x1) + patience x1 < fuel)%nat) by (rewrite Et, length_drop; lia).
    pose proof (read_exact_reads fuel (length want) x1 Hf1) as Hr. destruct (read_exact fuel (length want) x1) as [r2 x2].
    destruct Hr as (Es2 & Ee2 & Hp2 & Hr). rewrite Es2, Ee2, Es, Ee. split_and!; [done|done|].
    clearbody want. unfold Frame.read_exact. rewrite Et, Ee in Hr.
    by destruct (length (drop 4 (to_come x)) <? length want)%nat; destruct Hr as [-> ->].
Qed.

(** Some outcomes of a writer explain what the calls on [x] did. *)
Definition told (x : X) (m : res IoError unit * X) (f : list outcome -> io unit) : Prop :=
  m.1 <> OutOfFuel /\ to_come m.2 = to_come x /\ ending m.2 = ending x /\ (patience m.2 <= patience x)%nat /\
  exists script s, sent m.2 = sent x ++ s /\ forall rest, f (script ++ rest) = (m.1, s, rest).

Lemma write_all_told fuel buf x :
  (length buf + patience x < fuel)%nat ->
  told x (write_all fuel buf x) (fun script => Frame.write_all script buf).
Proof.
  revert buf x. induction fuel as [|fuel IH]; intros buf x Hf; [lia|]. cbn [write_all].
  destruct buf as [|b buf].
  { split_and!; [done..|]. exists [], []. rewrite app_nil_r. split; [done|]. by intros []. }
  pose proof (write_law (b :: buf) x) as Hw. destruct (write (b :: buf) x) as [[k|e| |] x1]; cbn [fst snd] in Hw;
    destruct Hw as (Et & Ee & Hp & Hw); try done.
  - destruct Hw as [Hk Es]. destruct k as [|k].
    { split_and!; [done..|]. exists [Accepts 0], []. by split. }
    destruct (IH (drop (S k) (b :: buf)) x1) as (Hne & Et2 & Ee2 & Hp2 & script & s & Es2 & Hs).
    { rewrite length_drop. lia. }
    split_and!; [exact Hne|by rewrite Et2|by rewrite Ee2|lia|].
    exists (Accepts (S k) :: script), (take (S k) (b :: buf) ++ s). rewrite Es2, Es, <- app_assoc. split; [done|].
    intros rest. cbn [app Frame.write_all]. by rewrite Hs.
  - destruct e; try done.
    + destruct Hw as [Es Hlt]. destruct (IH (b :: buf) x1) as (Hne & Et2 & Ee2 & Hp2 & script & s & Es2 & Hs); [lia|].
      split_and!; [exact Hne|by rewrite Et2|by rewrite Ee2|lia|]. exists (Interrupts :: script), s. rewrite Es2, Es.
      split; [done|]. intros rest. cbn [app Frame.write_all]. apply Hs.
    + split_and!; [done..|]. exists [Fails], []. rewrite app_nil_r. by split.
Qed.

Lemma write_all_vectored_told fuel head body x :
  (length (head ++ body) + patience x < fuel)%nat ->
  told x (write_all_vectored fuel head body x) (fun script => Frame.write_all_vectored script head body).
Proof.
  revert head body x. induction fuel as [|fuel IH]; intros head body x Hf; [lia|]. cbn [write_all_vectored].
  pose proof (write_vectored_law head body x) as Hw. rewrite length_app in Hf.
  destruct (head ++ body) as [|b l] eqn:El.
  { unfold told; cbn [fst snd]; split_and!; [done..|]. exists [], []. rewrite app_nil_r. split; [done|].
    intros []; cbn [app Frame.write_all_vectored]; by rewrite El. }
  destruct (write_vectored head body x) as [[k|e| |] x1]; cbn [fst snd] in Hw; destruct Hw as (Et & Ee & Hp & Hw); try done.
  - destruct Hw as [Hk Es]. destruct k as [|k].
    { unfold told; cbn [fst snd]; split_and!; [done..|]. exists [Accepts 0], []. rewrite Es. split; [done|]. intros rest.
      cbn [app Frame.write_all_vectored]. by rewrite El. }
    assert (Hlen : length (take (S k) (b :: l)) = S k) by (rewrite length_take; lia).
    assert (Hl : (length head + length body = length (b :: l))%nat) by (by rewrite <- El, length_app).
    assert (Hgo : told x1 ((if (length head <=? S k)%nat then write_all_vectored fuel [] (drop (S k - length head) body)
        else write_all_vectored fuel (drop (S k) head) body) x1)
      (fun script => if (length head <=? S k)%nat then Frame.write_all_vectored script [] (drop (S k - length head) body)
        else Frame.write_all_vectored script (drop (S k) head) body)).
    { destruct (Nat.leb_spec (length head) (S k)); apply IH; rewrite ?length_app, ?length_drop; cbn [length]; lia. }
    replace ((if (length head <=? S k)%nat then _ else _) : res IoError unit * X) with
      ((if (length head <=? S k)%nat then write_all_vectored fuel [] (drop (S k - length head) body)
        else write_all_vectored fuel (drop (S k) head) body) x1) by by destruct (_ <=? _)%nat.
    destruct Hgo as (Hne & Et2 & Ee2 & Hp2 & script & s & Es2 & Hs).
    unfold told. split_and!; [exact Hne|by rewrite Et2|by rewrite Ee2|lia|].
    exists (Accepts (S k) :: script), (take (S k) (b :: l) ++ s). rewrite Es2, Es, <- app_assoc. split; [done|].
    intros rest. cbn [app Frame.write_all_vectored]. rewrite El, Hlen. by rewrite Hs.
  - destruct e; try done.
    + destruct Hw as [Es Hlt]. unfold told; cbn [fst snd]; split_and!; [done..|]. exists [Interrupts], []. rewrite app_nil_r. split; [done|].
      intros rest. cbn [app Frame.write_all_vectored]. by rewrite El.
    + unfold told; cbn [fst snd]; split_and!; [done..|]. exists [Fails], []. rewrite app_nil_r. split; [done|].
      intros rest. cbn [app Frame.write_all_vectored]. by rewrite El.
Qed.

Lemma write_frame_told fuel payload x :
  (length (frame payload) + patience x < fuel)%nat ->
  told x (write_frame fuel payload x) (fun script => Frame.write_frame script payload).
Proof.
  intros Hf. unfold write_frame, Frame.write_frame. destruct (MAX_FRAME_LEN <? len payload).
  { unfold told. split_and!; [done..|]. exists [], []. rewrite app_nil_r. by split. }
  set (m := if _ <=? _ then write_all _ _ else write_all_vectored _ _ _).
  assert (Hm : told x (m x) (fun script => if len payload <=? COALESCE_LIMIT
      then Frame.write_all script (be_bytes 4 (len payload) ++ payload)
      else Frame.write_all_vectored script (be_bytes 4 (len payload)) payload)).
  { unfold m. destruct (_ <=? _); [by apply write_all_told|by apply write_all_vectored_told]. }
  clearbody m. unfold mbind, eff_bind. destruct (m x) as [r x1].
  destruct Hm as (Hne & Et & Ee & Hp & script & s & Es & Hs). cbn [fst snd] in *.
  destruct r as [[]|e| |].
  2-4: unfold told; split_and!; [done..|]; exists script, s; split; [done|]; intros rest; by rewrite Hs.
  pose proof (flush_law x1) as Hx. destruct (flush x1) as [r x2]. destruct Hx as (Et2 & Ee2 & Es2 & Hp2 & Hr).
  cbn [fst snd] in *. unfold told. cbn [fst snd]. rewrite Et2, Ee2, Es2, Es. split_and!; [by destruct r|done|done|lia|].
  destruct r as [[]|e| |]; try done; [exists (script ++ [Accepts 1]), s|].
  - split; [done|]. intros rest. rewrite <- app_assoc, Hs. cbn. by rewrite app_nil_r.
  - destruct e; try done; [exists (script ++ [Interrupts]), s|exists (script ++ [Fails]), s];
      (split; [done|]; intros rest; rewrite <- app_assoc, Hs; cbn; by rewrite app_nil_r).
Qed.

Lemma read_frame_errors r buf e : Frame.read_frame_into r buf = Err e -> e = UnexpectedEof \/ e = InvalidData.
Proof.
  unfold Frame.read_frame_into, Frame.read_exact. destruct (_ <? 4)%nat; cbn [mbind res_bind]; [intros [= <-]; by left|].
  destruct (_ <? _); [intros [= <-]; by right|]. destruct (_ <? _)%nat; [intros [= <-]; by left|done].
Qed.

(** ** Properties *)

(** The driver's model of the connection [x]. *)
Definition view (script : list outcome) (cert : option bytes) (x : X) : Login.Stream := {|
  st_out := script; st_in := to_come x; st_sent := sent x; st_cert := cert |}.

(** An error in the place of the end. *)
Definition at_end {A} (e : IoError) (r : res DriverError A) : res DriverError A :=
  match r with Err (Io (Wire UnexpectedEof)) => Err (Io (Wire e)) | r => r end.

(** C25: frames over any transport that keeps its promises, however it cuts
    what arrives and what it takes, and wherever it is interrupted, are the
    frames of [Login]'s connection: a frame sent leaves what that connection
    sends for some outcomes of its writer, a frame received is what that
    connection receives from the bytes to come, and a transport that ends with
    an error instead gives that error. Both calls come back. *)
Theorem transports_carry_frames payload cert fuel x :
  (length (frame payload) + length (to_come x) + patience x < fuel)%nat ->
  (let '(r, x') := send fuel payload x in
   exists script, forall rest, Login.send payload (view (script ++ rest) cert x) = (r, view rest cert x'))
  /\ (let '(r, x') := recv fuel x in forall script,
      exists r0, Login.recv (view script cert x) = (r0, view script cert x') /\ r = at_end (ending x) r0).
Proof.
  intros Hf. split.
  - unfold send. pose proof (write_frame_told fuel payload x ltac:(lia)) as Hw.
    destruct (write_frame fuel payload x) as [r x']. destruct Hw as (Hne & Et & _ & _ & script & s & Es & Hs). cbn [fst snd] in *.
    assert (Hp : r <> Panic) by (pose proof (write_frame_safe (script ++ []) payload) as Hp; by rewrite Hs in Hp).
    exists script. intros rest. unfold Login.send. cbn [st_out view]. rewrite Hs.
    unfold after_write, view. cbn [st_in st_sent st_cert]. rewrite Et, Es. by destruct r as [[]|e| |].
  - unfold recv. intros. pose proof (read_frame_over fuel [] x ltac:(lia)) as Hr. unfold read_frame.
    destruct (read_frame_into fuel [] x) as [r x']. destruct Hr as (Es & _ & Hr). intros script.
    unfold Login.recv, Frame.read_frame. cbn [st_in view]. destruct (Frame.read_frame_into (to_come x) []) as [[b l]|e| |] eqn:E; try done.
    + destruct Hr as [-> Et]. eexists. unfold after_read, view. cbn. by rewrite Et, Es.
    + apply read_frame_errors in E as [-> | ->]; destruct Hr as [-> Et]; eexists; unfold after_read, view; cbn;
        by rewrite Et, Es.
Qed.

End agree.

(** ** Plain TCP

    What arrives comes in pieces, between interruptions, until the peer closes
    or resets; each write hands the kernel one piece, as much as it takes. *)
Inductive delivery := Arrives (b : bytes) | Delays | Resets.

Record TcpStream := { tcp_in : list delivery; tcp_out : list outcome; tcp_segments : list bytes }.

Fixpoint tcp_take (n : nat) (l : list delivery) : res IoError bytes * list delivery :=
  match l with
  | [] => (Ok [], [])
  | Arrives [] :: l => tcp_take n l
  | Arrives b :: l => (Ok (take n b), Arrives (drop n b) :: l)
  | Delays :: l => (Err Interrupted, l)
  | Resets :: _ => (Err OtherIo, l)
  end.

Definition tcp_read (n : nat) : eff IoError TcpStream bytes := fun s =>
  let '(r, l) := tcp_take n s.(tcp_in) in
  (r, {| tcp_in := l; tcp_out := s.(tcp_out); tcp_segments := s.(tcp_segments) |}).

Definition tcp_write (b : bytes) : eff IoError TcpStream nat := fun s =>
  match s.(tcp_out) with
  | [] => (Err OtherIo, s)
  | Accepts n :: l =>
      (Ok (Nat.min n (length b)),
       {| tcp_in := s.(tcp_in); tcp_out := l; tcp_segments := s.(tcp_segments) ++ [take n b] |})
  | Interrupts :: l => (Err Interrupted, {| tcp_in := s.(tcp_in); tcp_out := l; tcp_segments := s.(tcp_segments) |})
  | Fails :: l => (Err OtherIo, {| tcp_in := s.(tcp_in); tcp_out := l; tcp_segments := s.(tcp_segments) |})
  end.

(** The kernel takes from both buffers at once. *)
#[export] Instance tcp_transport : Transport TcpStream := {
  read := tcp_read;
  write := tcp_write;
  write_vectored := fun h b => tcp_write (h ++ b);
  flush := mret tt;
}.

Fixpoint arriving (l : list delivery) : bytes :=
  match l with Arrives b :: l => b ++ arriving l | Delays :: l => arriving l | _ => [] end.
Fixpoint tcp_end (l : list delivery) : IoError :=
  match l with [] => UnexpectedEof | Resets :: _ => OtherIo | _ :: l => tcp_end l end.
Definition delays (l : list delivery) : nat := length (List.filter (fun d => match d with Delays => true | _ => false end) l).
Definition interruptions (l : list outcome) : nat :=
  length (List.filter (fun d => match d with Interrupts => true | _ => false end) l).

#[export] Instance tcp_view : TransportView TcpStream := {
  to_come s := arriving s.(tcp_in);
  ending s := tcp_end s.(tcp_in);
  sent s := concat s.(tcp_segments);
  patience s := (delays s.(tcp_in) + interruptions s.(tcp_out))%nat;
}.

Lemma tcp_take_law n l :
  let '(r, l') := tcp_take n l in
  tcp_end l' = tcp_end l /\ (delays l' <= delays l)%nat /\
  match r with
  | Ok b => arriving l = b ++ arriving l' /\ (length b <= n)%nat
            /\ (b = [] -> n = O \/ arriving l = [] /\ tcp_end l = UnexpectedEof)
  | Err Interrupted => arriving l' = arriving l /\ (delays l' < delays l)%nat
  | Err e => arriving l = [] /\ arriving l' = [] /\ e = tcp_end l
  | _ => False
  end.
Proof.
  induction l as [|[[|c b]| |] l IH]; cbn [tcp_take]; unfold delays in *; cbn in *.
  - split_and!; try done; [lia|]. intros _. by right.
  - exact IH.
  - split_and!; [done|done|by rewrite app_assoc, take_drop|rewrite length_take; cbn; lia|].
    intros Hb. left. by destruct n.
  - split_and!; [done|lia|done|lia].
  - by split_and!.
Qed.

Lemma tcp_write_law b s : accepted s (tcp_write b s).1 b (tcp_write b s).2.
Proof.
  unfold accepted, tcp_write. destruct (tcp_out s) as [|[k| |] l] eqn:E;
    cbn [fst snd to_come ending sent patience tcp_view tcp_in tcp_out tcp_segments]; rewrite ?E;
    unfold interruptions; cbn [List.filter length].
  - by split_and!.
  - split_and!; [done|done|done|lia|]. rewrite concat_app. cbn. rewrite app_nil_r. f_equal.
    destruct (Nat.le_gt_cases k (length b)); [by rewrite Nat.min_l|].
    rewrite Nat.min_r by lia. by rewrite !take_ge by lia.
  - split_and!; [done|done|lia|done|lia].
  - by split_and!.
Qed.

#[export] Instance tcp_laws : TransportLaws TcpStream.
Proof.
  split.
  - intros n s. pose proof (tcp_take_law n (tcp_in s)) as Ht. unfold delivered. cbn [read tcp_transport]. unfold tcp_read.
    destruct (tcp_take n (tcp_in s)) as [r l]. destruct Ht as (He & Hd & Ht).
    cbn [fst snd to_come ending sent patience tcp_view tcp_in tcp_out tcp_segments]. split_and!; [done|done|lia|].
    destruct r as [b|e| |]; try done. destruct e; try done. destruct Ht. split; [done|lia].
  - intros b s. apply tcp_write_law.
  - intros h b s. apply tcp_write_law.
  - intros s. by split_and!.
Qed.

(** ** Plain or TLS

    [rustls]'s sessions over a socket are another library's: [C] and [T], what
    they promise as readers and writers of plaintext, the certificates they
    verified and their close notification. *)
Section streams.
Context {C T : Type} `{TransportLaws C} `{TransportLaws T}.
Context (client_certs : C -> option (list bytes)) (server_certs : T -> option (list bytes)).
Context (client_ref : C -> TcpStream) (server_ref : T -> TcpStream).
Context (client_close_notify : C -> C) (server_close_notify : T -> T).

Inductive Stream := Plain (s : TcpStream) | ClientTls (s : C) | ServerTls (s : T).

Definition kind (s : Stream) : bytes :=
  match s with Plain _ => str "plain" | ClientTls _ => str "client-tls" | ServerTls _ => str "server-tls" end.

Definition is_tls (s : Stream) : bool := match s with Plain _ => false | _ => true end.

(** [peer_certificates()?.first()]. *)
Definition peer_certificate_der (s : Stream) : option bytes :=
  match s with
  | ClientTls s => certs ← client_certs s; head certs
  | ServerTls s => certs ← server_certs s; head certs
  | Plain _ => None
  end.

Definition tcp (s : Stream) : TcpStream :=
  match s with Plain s => s | ClientTls s => client_ref s | ServerTls s => server_ref s end.

Definition inside {Y A} (mk : Y -> Stream) (m : eff IoError Y A) (y : Y) : res IoError A * Stream :=
  let '(r, y) := m y in (r, mk y).

Definition stream_read (n : nat) : eff IoError Stream bytes := fun s =>
  match s with
  | Plain s => inside Plain (read n) s
  | ClientTls s => inside ClientTls (read n) s
  | ServerTls s => inside ServerTls (read n) s
  end.

Definition stream_write (b : bytes) : eff IoError Stream nat := fun s =>
  match s with
  | Plain s => inside Plain (write b) s
  | ClientTls s => inside ClientTls (write b) s
  | ServerTls s => inside ServerTls (write b) s
  end.

Definition stream_flush : eff IoError Stream unit := fun s =>
  match s with
  | Plain s => inside Plain flush s
  | ClientTls s => inside ClientTls flush s
  | ServerTls s => inside ServerTls flush s
  end.

(** The default [Write::write_vectored] writes the first buffer that is not
    empty. *)
Definition first_buffer (h b : bytes) : bytes := match h with [] => b | _ => h end.

#[export] Instance stream_transport : Transport Stream := {
  read := stream_read;
  write := stream_write;
  write_vectored := fun h b => stream_write (first_buffer h b);
  flush := stream_flush;
}.

Definition of_kind {A} (p : TcpStream -> A) (c : C -> A) (v : T -> A) (s : Stream) : A :=
  match s with Plain s => p s | ClientTls s => c s | ServerTls s => v s end.

#[export] Instance stream_view : TransportView Stream := {
  to_come := of_kind to_come to_come to_come;
  ending := of_kind ending ending ending;
  sent := of_kind sent sent sent;
  patience := of_kind patience patience patience;
}.

(** What a writer takes of the first buffer it takes of both. *)
Lemma accepted_first {X} `{TransportView X} (x x' : X) r h b :
  accepted x r (first_buffer h b) x' -> accepted x r (h ++ b) x'.
Proof.
  unfold accepted. destruct h as [|c h]; [done|]. cbn [first_buffer]. intros (? & ? & ? & Hr). split_and!; [done..|].
  destruct r as [k|e| |]; try done. destruct Hr as [Hk Hs]. rewrite length_app. split; [lia|].
  by rewrite take_app_le by lia.
Qed.

#[export] Instance stream_laws : TransportLaws Stream.
Proof.
  assert (Hw : forall b s, accepted s (stream_write b s).1 b (stream_write b s).2).
  { intros b [s|s|s]; cbn [stream_write]; pose proof (write_law b s) as Hl; unfold inside, accepted in *;
      cbn [to_come ending sent patience stream_view of_kind]; by destruct (write b s). }
  split; cbn [read write write_vectored flush stream_transport].
  - intros n [s|s|s]; cbn [stream_read]; pose proof (read_law n s) as Hl; unfold inside, delivered in *;
      cbn [to_come ending sent patience stream_view of_kind]; by destruct (read n s).
  - exact Hw.
  - intros h b s. apply accepted_first, Hw.
  - intros [s|s|s]; cbn [stream_flush]; pose proof (flush_law s) as Hl; unfold inside, flushed in *;
      cbn [to_come ending sent patience stream_view of_kind]; by destruct (flush s).
Qed.

Lemma plain_write b s n l :
  s.(tcp_out) = Accepts n :: l -> (length b <= n)%nat ->
  stream_write b (Plain s)
  = (Ok (length b), Plain {| tcp_in := s.(tcp_in); tcp_out := l; tcp_segments := s.(tcp_segments) ++ [b] |}).
Proof.
  intros Ho Hn. cbn [stream_write write tcp_transport]. unfold inside, tcp_write. rewrite Ho.
  by rewrite Nat.min_r, take_ge by lia.
Qed.

(** A frame's prefix and payload are documented to leave in a single write, so
    that the prefix is never a segment of its own. A frame too large to be
    coalesced is written with [write_vectored], which the stream leaves to the
    default: the prefix is a write of its own, whatever the socket takes. *)
Theorem prefix_written_alone payload fuel s n n' l :
  COALESCE_LIMIT < len payload <= MAX_FRAME_LEN ->
  s.(tcp_out) = Accepts n :: Accepts n' :: l -> (4 <= n)%nat -> (length payload <= n')%nat ->
  write_frame (2 + fuel) payload (Plain s)
  = (Ok tt, Plain {| tcp_in := s.(tcp_in); tcp_out := l;
                     tcp_segments := s.(tcp_segments) ++ [be_bytes 4 (len payload); payload] |}).
Proof.
  intros [Hc Hm] Ho Hn Hn'. unfold write_frame. rewrite (proj2 (Z.ltb_ge _ _)), (proj2 (Z.leb_gt _ _)) by done.
  pose proof (be_bytes_length 4 (len payload)) as Hp. set (prefix := be_bytes 4 (len payload)) in *. clearbody prefix.
  destruct prefix as [|p prefix]; [done|]. destruct payload as [|b payload]; [by vm_compute in Hc|].
  unfold mbind, eff_bind. cbn [Nat.add write_all_vectored app write_vectored stream_transport first_buffer].
  rewrite (plain_write _ s n _ Ho) by (by rewrite Hp). rewrite Hp. cbn [Nat.leb Nat.sub drop].
  erewrite (plain_write (b :: payload) _ n' l); [|done|done]. cbn [length Nat.leb Nat.sub app].
  change (drop (S (length payload)) (b :: payload)) with (drop (length payload) payload).
  rewrite drop_all. cbn [tcp_in tcp_segments]. rewrite <- app_assoc. by destruct fuel.
Qed.

(** [Drop]: the end is announced and sent; the flush's result is dropped. *)
Definition drop_stream (s : Stream) : Stream :=
  match s with
  | ServerTls s => ServerTls (flush (server_close_notify s)).2
  | ClientTls s => ClientTls (flush (client_close_notify s)).2
  | Plain s => Plain s
  end.

End streams.
Arguments Stream C T : clear implicits.

(** ** A buffered connection

    [Conn]: [BufReader]'s buffer of 8 KiB before a stream that is written
    directly. *)
Section conn.
Context {X : Type} `{TransportLaws X}.

Definition CAPACITY : nat := Z.to_nat 8192.

Record Conn := { stream : X; buffered : bytes }.

Definition conn_new (s : X) : Conn := {| stream := s; buffered := [] |}.

Definition below {A} (m : eff IoError X A) : eff IoError Conn A := fun c =>
  let '(r, s) := m c.(stream) in (r, {| stream := s; buffered := c.(buffered) |}).

Definition fill_buf : eff IoError Conn bytes := fun c =>
  match c.(buffered) with
  | [] =>
      match read CAPACITY c.(stream) with
      | (Ok b, s) => (Ok b, {| stream := s; buffered := b |})
      | (Err e, s) => (Err e, {| stream := s; buffered := [] |})
      | (Panic, s) => (Panic, {| stream := s; buffered := [] |})
      | (OutOfFuel, s) => (OutOfFuel, {| stream := s; buffered := [] |})
      end
  | b => (Ok b, c)
  end.

Definition consume (amt : nat) : eff IoError Conn unit :=
  changes (fun c => {| stream := c.(stream); buffered := drop amt c.(buffered) |}).

(** [BufReader::read]: a large read with nothing buffered goes past the
    buffer. *)
Definition conn_read (n : nat) : eff IoError Conn bytes := fun c =>
  match c.(buffered) with
  | [] =>
      if (CAPACITY <=? n)%nat then below (read n) c
      else (b ← fill_buf; _ ← consume (Nat.min n (length b)); mret (take n b)) c
  | _ => (b ← fill_buf; _ ← consume (Nat.min n (length b)); mret (take n b)) c
  end.

Definition conn_write (b : bytes) : eff IoError Conn nat := below (write b).
Definition conn_flush : eff IoError Conn unit := below flush.

#[export] Instance conn_transport : Transport Conn := {
  read := conn_read;
  write := conn_write;
  write_vectored := fun h b => conn_write (first_buffer h b);
  flush := conn_flush;
}.

#[export] Instance conn_view : TransportView Conn := {
  to_come c := c.(buffered) ++ to_come c.(stream);
  ending c := ending c.(stream);
  sent c := sent c.(stream);
  patience c := patience c.(stream);
}.

(** From a buffer that is not empty. *)
Lemma buffered_read n (b : bytes) s :
  b <> [] -> delivered {| stream := s; buffered := b |} (Ok (take n b)) n {| stream := s; buffered := drop (Nat.min n (length b)) b |}.
Proof.
  intros Hb. unfold delivered. cbn [to_come ending sent patience conn_view stream buffered]. split_and!; [done..| | |].
  - rewrite app_assoc. f_equal. destruct (Nat.le_gt_cases n (length b)).
    + by rewrite Nat.min_l, take_drop.
    + rewrite Nat.min_r, take_ge, drop_ge by lia. by rewrite app_nil_r.
  - rewrite length_take. lia.
  - intros Ht. left. destruct n; [done|]. by destruct b.
Qed.

Lemma conn_read_law n c : delivered c (conn_read n c).1 n (conn_read n c).2.
Proof.
  destruct c as [s p]. unfold conn_read. cbn [buffered]. destruct p as [|a p].
  - destruct (CAPACITY <=? n)%nat.
    + unfold below. cbn [stream buffered]. pose proof (read_law n s) as Hl. unfold delivered in *.
      destruct (read n s) as [r s']. cbn [fst snd] in Hl. by cbn [fst snd to_come ending sent patience conn_view stream buffered].
    + unfold mbind, eff_bind, fill_buf. cbn [stream buffered]. pose proof (read_law CAPACITY s) as Hl.
      destruct (read CAPACITY s) as [[b|e| |] s']; cbn [fst snd] in Hl; destruct Hl as (Es & Ee & Hp & Hl); try done.
      * destruct Hl as (Et & _ & Hz). unfold consume, changes. cbn [fst snd stream buffered mret eff_ret].
        destruct (decide (b = [])) as [->|Hb].
        { destruct (Hz eq_refl) as [Hn|[Hn He]]; [done|]. unfold delivered.
          cbn [fst snd to_come ending sent patience conn_view stream buffered]. rewrite take_nil, drop_nil.
          cbn [app] in *. split_and!; [done|done|done|done|cbn; lia|]. intros _. by right. }
        destruct (buffered_read n b s' Hb) as (Hs & He & Hp' & Ht & Hl & Hn). unfold delivered.
        cbn [fst snd to_come ending sent patience conn_view stream buffered] in *. cbn [app].
        split_and!; [done|done|done|by rewrite Et|done|]. intros Hx. left. destruct n; [done|]. by destruct b.
  - unfold mbind, eff_bind, fill_buf, consume, changes. cbn [fst snd stream buffered]. by apply buffered_read.
Qed.

#[export] Instance conn_laws : TransportLaws Conn.
Proof.
  assert (Hw : forall b c, accepted c (conn_write b c).1 b (conn_write b c).2).
  { intros b [s p]. unfold conn_write, below. cbn [stream buffered]. pose proof (write_law b s) as Hl.
    unfold accepted in *. destruct (write b s) as [r s']. cbn [fst snd] in Hl.
    cbn [fst snd to_come ending sent patience conn_view stream buffered]. destruct Hl as (-> & ? & ? & ?). by split_and!. }
  split; cbn [read write write_vectored flush conn_transport].
  - apply conn_read_law.
  - exact Hw.
  - intros h b c. apply accepted_first, Hw.
  - intros [s p]. unfold conn_flush, below. cbn [stream buffered]. pose proof (flush_law s) as Hl. unfold flushed in *.
    destruct (flush s) as [r s']. cbn [fst snd] in Hl. cbn [fst snd to_come ending sent patience conn_view stream buffered].
    destruct Hl as (-> & ? & ? & ? & ?). by split_and!.
Qed.

End conn.
Arguments Conn X : clear implicits.

(** ** A frame in pieces *)

(** A buffered connection over a socket that cuts, delays and interrupts. *)
Definition wit_conn : Conn (Stream TcpStream TcpStream) := conn_new (Plain {|
  tcp_in := [Arrives [x00; x00]; Delays; Arrives [x00; x02; x2a]; Arrives [x2b; x07]];
  tcp_out := [Accepts 3; Interrupts; Accepts 9; Accepts 1]; tcp_segments := [] |}).

Lemma transports_carry_frames_witness :
  (recv 40 wit_conn).1 = Ok [x2a; x2b]
  /\ exists script, Login.send [x01] (view script None wit_conn) = (Ok tt, view [] None (send 40 [x01] wit_conn).2).
Proof.
  assert (Hf : (length (frame [x01]) + length (to_come wit_conn) + patience wit_conn < 40)%nat)
    by (apply Nat.ltb_lt; vm_compute; reflexivity).
  destruct (transports_carry_frames [x01] None 40 wit_conn Hf) as [Hs Hr].
  assert (Es : (send 40 [x01] wit_conn).1 = Ok tt) by (vm_compute; reflexivity).
  assert (Er : (recv 40 wit_conn).1 = Ok [x2a; x2b]) by (vm_compute; reflexivity). split; [exact Er|].
  destruct (send 40 [x01] wit_conn) as [r x']. cbn [fst snd] in *. subst r. destruct Hs as [script Hs].
  exists (script ++ []). apply Hs.
Defined.

Lemma prefix_written_alone_witness :
  let payload := replicate (Z.to_nat 8193) x2a in
  exists l, write_frame 2 payload (Plain (C := TcpStream) (T := TcpStream)
    {| tcp_in := []; tcp_out := [Accepts 4; Accepts (length payload)]; tcp_segments := [] |}) = (Ok tt, Plain l)
  /\ hd [] l.(tcp_segments) = [x00; x00; x20; x01].
Proof.
  intros payload. eexists. split.
  - apply (prefix_written_alone payload 0 _ 4 (length payload) []); [|reflexivity|lia|lia].
    split; [vm_compute; reflexivity|vm_compute; discriminate].
  - vm_compute. reflexivity.
Defined.
