(* ===== verification/TlsConfig.v ===== *)
(** * TLS settings and handshakes

    [crates/skaidb-net/src/lib.rs] and the driver's [TlsConfig]: certificates
    and keys from PEM files, the settings of both sides, the handshake on an
    open socket, and telling TLS from plain text by its first byte.  What
    [rustls] and [rustls-pemfile] make of it are arguments. *)
From S2P Require Import Prelude Bytes Text Frame Effect Login Transport.
#[local] Open Scope Z_scope.

(** [collect] of results: the first error, or everything. *)
Fixpoint collect {E A} (l : list (res E A)) : res E (list A) :=
  match l with
  | [] => Ok []
  | r :: l => a ← r; l ← collect l; Ok (a :: l)
  end.

Inductive ClientVerify := CaFile (path : bytes) | WebpkiDefaults | Insecure.

Section tls.
(** Files, what they hold, and the stores and settings built of it; an error
    is its text. *)
Context {File Cert Key Roots Verifier ServerConfig Builder ClientConfig : Type}.
Context (open_file : bytes -> res bytes File)
  (pem_certs : File -> list (res bytes Cert)) (pem_key : File -> res bytes (option Key))
  (no_roots webpki_roots : Roots) (add_root : Cert -> Roots -> res bytes Roots)
  (client_verifier : Roots -> bool -> res bytes Verifier)
  (single_cert : option Verifier -> list Cert -> Key -> res bytes ServerConfig)
  (without_tickets : ServerConfig -> ServerConfig)
  (trusting : Roots -> Builder) (trusting_anything : Builder)
  (client_auth_cert : list Cert -> Key -> Builder -> res bytes ClientConfig)
  (no_client_auth : Builder -> ClientConfig).

(** ** Files *)

Definition opened (path : bytes) : res bytes File := map_err (fun e => str "open " ++ path ++ str ": " ++ e) (open_file path).

Definition load_certs (path : bytes) : res bytes (list Cert) :=
  f ← opened path;
  certs ← map_err (fun e => str "parse certs " ++ path ++ str ": " ++ e) (collect (pem_certs f));
  match certs with [] => Err (str "no certificates in " ++ path) | _ => Ok certs end.

Definition load_key (path : bytes) : res bytes Key :=
  f ← opened path;
  key ← map_err (fun e => str "parse key " ++ path ++ str ": " ++ e) (pem_key f);
  match key with Some key => Ok key | None => Err (str "no private key in " ++ path) end.

Fixpoint add_roots (certs : list Cert) (roots : Roots) : res bytes Roots :=
  match certs with
  | [] => Ok roots
  | c :: certs => roots ← map_err (fun e => str "add CA cert: " ++ e) (add_root c roots); add_roots certs roots
  end.

Definition root_store (ca_path : bytes) : res bytes Roots := certs ← load_certs ca_path; add_roots certs no_roots.

(** ** Servers *)

Definition server_config (cert_path key_path : bytes) : res bytes ServerConfig :=
  certs ← load_certs cert_path;
  key ← load_key key_path;
  map_err (fun e => str "server TLS config: " ++ e) (single_cert None certs key).

Definition verifier_of (ca_path : bytes) (allow_unauthenticated : bool) : res bytes Verifier :=
  roots ← root_store ca_path;
  map_err (fun e => str "build client-cert verifier: " ++ e) (client_verifier roots allow_unauthenticated).

Definition server_config_mtls (cert_path key_path ca_path : bytes) : res bytes ServerConfig :=
  certs ← load_certs cert_path;
  key ← load_key key_path;
  verifier ← verifier_of ca_path false;
  cfg ← map_err (fun e => str "server mTLS config: " ++ e) (single_cert (Some verifier) certs key);
  Ok (without_tickets cfg).

Definition server_config_optional_client_auth (cert_path key_path ca_path : bytes) : res bytes ServerConfig :=
  certs ← load_certs cert_path;
  key ← load_key key_path;
  verifier ← verifier_of ca_path true;
  map_err (fun e => str "server TLS config: " ++ e) (single_cert (Some verifier) certs key).

(** ** Clients *)

Definition client_config (verify : ClientVerify) (client_cert : option (bytes * bytes)) : res bytes ClientConfig :=
  builder ← match verify with
            | CaFile ca => roots ← root_store ca; Ok (trusting roots)
            | WebpkiDefaults => Ok (trusting webpki_roots)
            | Insecure => Ok trusting_anything
            end;
  match client_cert with
  | Some (cert, key) =>
      certs ← load_certs cert;
      key ← load_key key;
      map_err (fun e => str "client cert: " ++ e) (client_auth_cert certs key builder)
  | None => Ok (no_client_auth builder)
  end.

(** The driver's. *)
Record TlsConfig := { cfg : ClientConfig; server_name : bytes }.

Inductive TlsVerify := VerifyCaFile (path : bytes) | VerifySystem | VerifyInsecure.

Definition verify_of (v : TlsVerify) : ClientVerify :=
  match v with VerifyCaFile p => CaFile p | VerifySystem => WebpkiDefaults | VerifyInsecure => Insecure end.

Definition settings (verify : TlsVerify) (name : bytes) (client_cert : option (bytes * bytes)) : res DriverError TlsConfig :=
  cfg ← map_err (fun _ => Io (Wire InvalidInput)) (client_config (verify_of verify) client_cert);
  Ok {| cfg := cfg; server_name := name |}.

Definition tls_config_new (verify : TlsVerify) (name : bytes) : res DriverError TlsConfig := settings verify name None.

Definition with_client_cert (verify : TlsVerify) (name cert_file key_file : bytes) : res DriverError TlsConfig :=
  settings verify name (Some (cert_file, key_file)).

(** ** Handshakes *)

(** A session in negotiation, on its socket. *)
Section handshake.
Context {K Owned : Type} (is_handshaking : K -> bool) (complete_io : K -> TcpStream -> res IoError (K * TcpStream))
  (owned : K -> TcpStream -> Owned).

(** [while conn.is_handshaking() { conn.complete_io(&mut tcp)?; }]. *)
Fixpoint shake (fuel : nat) (conn : K) (tcp : TcpStream) : res IoError (K * TcpStream) :=
  if is_handshaking conn then
    match fuel with
    | O => OutOfFuel
    | S fuel => '(conn, tcp) ← complete_io conn tcp; shake fuel conn tcp
    end
  else Ok (conn, tcp).

Definition shaken (fuel : nat) (conn : K) (tcp : TcpStream) : res IoError Owned :=
  '(conn, tcp) ← shake fuel conn tcp; Ok (owned conn tcp).

(** Each successful [complete_io] of a session in negotiation brings it nearer
    to its end, so the loop ends. *)
Lemma shake_ends (left : K -> nat) fuel conn tcp :
  (forall conn tcp, is_handshaking conn = true -> returns (complete_io conn tcp)) ->
  (forall conn tcp conn' tcp', is_handshaking conn = true -> complete_io conn tcp = Ok (conn', tcp') ->
     (left conn' < left conn)%nat) ->
  (left conn < fuel)%nat -> returns (shake fuel conn tcp).
Proof.
  intros Hr Hd. revert conn tcp. induction fuel as [|fuel IH]; intros conn tcp Hf; [lia|]. cbn [shake].
  destruct (is_handshaking conn) eqn:E; [|done]. specialize (Hr conn tcp E).
  destruct (complete_io conn tcp) as [[c t]|e| |] eqn:Ec; try done.
  cbn [mbind res_bind]. apply IH. specialize (Hd _ _ _ _ E Ec). lia.
Qed.

End handshake.

(** The sessions of both sides; a refused name is a bad argument, and errors
    of the library are of no other kind. *)
Section sessions.
Context {C T Kc Ks Name : Type}
  (server_new : ServerConfig -> res bytes Ks) (server_shaking : Ks -> bool)
  (server_io : Ks -> TcpStream -> res IoError (Ks * TcpStream)) (server_owned : Ks -> TcpStream -> T)
  (name_of : bytes -> res bytes Name) (client_new : ClientConfig -> Name -> res bytes Kc) (client_shaking : Kc -> bool)
  (client_io : Kc -> TcpStream -> res IoError (Kc * TcpStream)) (client_owned : Kc -> TcpStream -> C).

Definition accept_tls (fuel : nat) (tcp : TcpStream) (c : ServerConfig) : res IoError (Stream C T) :=
  conn ← map_err (fun _ => OtherIo) (server_new c);
  s ← shaken server_shaking server_io server_owned fuel conn tcp;
  Ok (ServerTls s).

Definition connect_tls (fuel : nat) (tcp : TcpStream) (c : ClientConfig) (server_name : bytes) : res IoError (Stream C T) :=
  name ← map_err (fun _ => InvalidInput) (name_of server_name);
  conn ← map_err (fun _ => OtherIo) (client_new c name);
  s ← shaken client_shaking client_io client_owned fuel conn tcp;
  Ok (ClientTls s).

(** [dial]'s stream. *)
Definition dial_stream (fuel : nat) (tcp : TcpStream) (t : option TlsConfig) : res DriverError (Stream C T) :=
  match t with
  | Some t => map_err (fun e => Io (Wire e)) (connect_tls fuel tcp t.(cfg) t.(server_name))
  | None => Ok (Plain tcp)
  end.

End sessions.

(** ** What loading promises *)

Lemma collect_ok {E A} (l : list (res E A)) xs : collect l = Ok xs <-> l = map Ok xs.
Proof.
  revert xs. induction l as [|r l IH]; intros xs; cbn [collect].
  { split; [by intros [= <-]|]. by destruct xs. }
  destruct r as [a|e| |]; cbn [mbind res_bind]; try (by destruct xs).
  destruct (collect l) as [l'|e| |] eqn:E1; cbn [mbind res_bind].
  2-4: split; [done|]; destruct xs as [|x xs]; [done|]; intros [= -> Hl]; apply IH in Hl; done.
  split.
  - intros [= <-]. cbn. f_equal. by apply IH.
  - destruct xs as [|x xs]; [done|]. intros [= -> Hl]. apply IH in Hl. by injection Hl as ->.
Qed.

(** A file's certificates are all of them, in order, and some: one that does
    not parse is never left out of a chain or of the trusted roots. *)
Lemma load_certs_all path certs :
  load_certs path = Ok certs <-> exists f, open_file path = Ok f /\ pem_certs f = map Ok certs /\ certs <> [].
Proof.
  unfold load_certs, opened. destruct (open_file path) as [f|e| |]; cbn [mbind res_bind map_err].
  2-4: split; [done|]; by intros (? & ? & _).
  destruct (collect (pem_certs f)) as [l|e| |] eqn:E; cbn [mbind res_bind map_err].
  - assert (El : pem_certs f = map Ok l) by by apply collect_ok. split.
    + intros Hl. exists f. destruct l; [done|]. by injection Hl as <-.
    + intros (f' & [= <-] & Hc & Hne). apply collect_ok in Hc. rewrite E in Hc. injection Hc as ->. by destruct certs.
  - split; [done|]. intros (f' & [= <-] & Hc & _). apply collect_ok in Hc. congruence.
  - split; [done|]. intros (f' & [= <-] & Hc & _). apply collect_ok in Hc. congruence.
  - split; [done|]. intros (f' & [= <-] & Hc & _). apply collect_ok in Hc. congruence.
Qed.

End tls.

(** ** One port for both *)

(** [TcpStream::peek] with room for one byte: what it sees stays. *)
Definition peek1 : eff IoError TcpStream bytes := fun s =>
  match tcp_take 1 s.(tcp_in) with
  | (Ok b, _) => (Ok b, s)
  | (Err e, l) => (Err e, {| tcp_in := l; tcp_out := s.(tcp_out); tcp_segments := s.(tcp_segments) |})
  | (Panic, _) => (Panic, s)
  | (OutOfFuel, _) => (OutOfFuel, s)
  end.

(** A TLS handshake record starts with 22. *)
Definition peek_is_tls : eff IoError TcpStream bool := b ← peek1; mret (bool_decide (b = [x16])).

(** The byte that decides is the first to come, and all are still to come. *)
Lemma peek_is_tls_exact s :
  match peek_is_tls s with
  | (Ok tls, s') => s' = s /\ tls = bool_decide (head (to_come s) = Some x16)
  | (Err _, s') => to_come s' = to_come s
  | _ => False
  end.
Proof.
  unfold peek_is_tls, peek1, mbind, eff_bind. pose proof (tcp_take_law 1 (tcp_in s)) as Ht.
  destruct (tcp_take 1 (tcp_in s)) as [[b|e| |] l] eqn:E; destruct Ht as (_ & _ & Ht); try done.
  - cbn [mret eff_ret]. split; [done|]. cbn [to_come tcp_view]. destruct Ht as (Ha & Hl & Hz).
    destruct b as [|c [|? ?]]; [|rewrite Ha; apply bool_decide_ext; cbn; naive_solver|cbn in Hl; lia].
    destruct (Hz eq_refl) as [?|[-> _]]; done.
  - cbn [to_come tcp_view tcp_in]. destruct e; first [by destruct Ht as (-> & -> & _)|by destruct Ht].
Qed.
