(* ===== verification/Sockets.v ===== *)
(** * The socket under a stream

    [crates/skaidb-net/src/lib.rs]: what [Stream] and [Conn] do with their
    socket besides reading and writing: its peer, its read timeout, and a
    second handle on it for a prober.  Here a socket is a handle into the
    process's table, since two handles may name one open socket. *)
From stdpp Require Import gmap.
From S2P Require Import Prelude Bytes Text Frame Effect Login.
#[local] Open Scope Z_scope.

(** ** The process's table *)

(** An open socket ("open file description"): who is at its other end, when it
    has one, and its options. *)
Record OpenSocket := { o_peer : option bytes; o_read_timeout : option Z; o_nodelay : bool; o_nonblocking : bool }.

(** Which open socket each handle names; [spare]: whether the coming
    duplications find a free handle. *)
Record Table := { handles : gmap Z Z; sockets : gmap Z OpenSocket; spare : list bool }.

Abbreviation sys A := (eff IoError Table A).

Definition with_sockets ss t := {| handles := t.(handles); sockets := ss; spare := t.(spare) |}.

(** The open socket behind a handle; in Rust a handle in use is always good. *)
Definition opened (h : Z) : sys (Z * OpenSocket) := fun t =>
  match t.(handles) !! h with
  | Some d => match t.(sockets) !! d with Some o => (Ok (d, o), t) | None => (Err OtherIo, t) end
  | None => (Err OtherIo, t)
  end.

Definition on_open (h : Z) (f : OpenSocket -> OpenSocket) : sys unit :=
  '(d, o) ← opened h; changes (fun t => with_sockets (<[d := f o]> t.(sockets)) t).

Definition set_timeout (dur : option Z) (o : OpenSocket) : OpenSocket :=
  {| o_peer := o.(o_peer); o_read_timeout := dur; o_nodelay := o.(o_nodelay); o_nonblocking := o.(o_nonblocking) |}.
Definition set_nonblock (b : bool) (o : OpenSocket) : OpenSocket :=
  {| o_peer := o.(o_peer); o_read_timeout := o.(o_read_timeout); o_nodelay := o.(o_nodelay); o_nonblocking := b |}.

(** [TcpStream]'s: a zero timeout is refused. *)
Definition tcp_set_read_timeout (h : Z) (dur : option Z) : sys unit :=
  if bool_decide (dur = Some 0) then raise InvalidInput else on_open h (set_timeout dur).

Definition tcp_set_nonblocking (h : Z) (b : bool) : sys unit := on_open h (set_nonblock b).

Definition tcp_peer_addr (h : Z) : sys bytes :=
  '(_, o) ← opened h; match o.(o_peer) with Some a => mret a | None => raise OtherIo end.

(** [dup]: a new handle on the open socket [d]. *)
Definition dup (d : Z) : sys Z := fun t =>
  let h := fresh (dom t.(handles)) in
  match t.(spare) with
  | true :: l => (Ok h, {| handles := <[h := d]> t.(handles); sockets := t.(sockets); spare := l |})
  | l => (Err OtherIo, {| handles := t.(handles); sockets := t.(sockets); spare := tail l |})
  end.

Definition tcp_try_clone (h : Z) : sys Z := '(d, _) ← opened h; dup d.

(** Dropping a handle; the socket closes with its last one. *)
Definition tcp_drop (h : Z) (t : Table) : Table :=
  let hs := delete h t.(handles) in
  {| handles := hs;
     sockets := match t.(handles) !! h with
                | Some d => if bool_decide (map_Forall (fun _ d' => d' <> d) hs) then delete d t.(sockets) else t.(sockets)
                | None => t.(sockets)
                end;
     spare := t.(spare) |}.

(** ** Streams

    [Transport]'s streams with their socket by its handle. *)
Section streams.
Context {C T : Type} (client_ref : C -> Z) (server_ref : T -> Z).

Inductive Stream := Plain (s : Z) | ClientTls (s : C) | ServerTls (s : T).

Definition get_ref (s : Stream) : Z :=
  match s with Plain h => h | ClientTls s => client_ref s | ServerTls s => server_ref s end.

(** [.ok()]. *)
Definition peer_addr (s : Stream) : sys (option bytes) :=
  r ← attempt (tcp_peer_addr (get_ref s)); mret (match r with inl a => Some a | inr _ => None end).

Definition probe_socket (s : Stream) : sys Z := tcp_try_clone (get_ref s).

Definition set_read_timeout (s : Stream) (dur : option Z) : sys unit := tcp_set_read_timeout (get_ref s) dur.

(** What a handle's socket looks like. *)
Definition seen (h : Z) (t : Table) : option OpenSocket := d ← t.(handles) !! h; t.(sockets) !! d.

Lemma opened_ok h d o t : opened h t = (Ok (d, o), t) <-> t.(handles) !! h = Some d /\ t.(sockets) !! d = Some o.
Proof. unfold opened. destruct (_ !! h) as [d'|]; [destruct (_ !! d') as [o'|] eqn:E|]; naive_solver. Qed.

(** A prober's handle is a second one on the stream's socket: what is set
    through either is seen through both, in whichever order, and dropping the
    prober's leaves the stream's socket open, as it was. *)
Theorem probe_shares_socket s h t t' o dur b :
  probe_socket s t = (Ok h, t') -> seen (get_ref s) t = Some o -> dur <> Some 0 ->
  h <> get_ref s /\ seen h t' = Some o
  /\ (exists t1, set_read_timeout s dur t' = (Ok tt, t1)
       /\ seen h t1 = Some (set_timeout dur o) /\ seen (get_ref s) t1 = seen h t1)
  /\ (exists t2, tcp_set_nonblocking h b t' = (Ok tt, t2)
       /\ seen (get_ref s) t2 = Some (set_nonblock b o) /\ seen h t2 = seen (get_ref s) t2)
  /\ seen (get_ref s) (tcp_drop h t') = Some o.
Proof.
  unfold probe_socket, set_read_timeout, tcp_set_nonblocking, tcp_try_clone, dup, seen. set (g := get_ref s).
  intros Hp Ho Hd. destruct (handles t !! g) as [d|] eqn:Eg; [cbn [mbind option_bind] in Ho|done].
  unfold mbind at 1, eff_bind at 1 in Hp. rewrite (proj2 (opened_ok g d o t)) in Hp by done.
  destruct (spare t) as [|[|] l]; try done. injection Hp as Eh Et. rewrite Eh in Et.
  assert (Hne : h <> g).
  { intros ->. apply (is_fresh (dom (handles t))). rewrite Eh. apply elem_of_dom. by eexists. }
  assert (Hg' : handles t' !! g = Some d) by (rewrite <- Et; cbn; by rewrite lookup_insert_ne).
  assert (Hh' : handles t' !! h = Some d) by (rewrite <- Et; cbn; by rewrite lookup_insert_eq).
  assert (Ho' : sockets t' !! d = Some o) by by rewrite <- Et. clear Et.
  split_and!; [done|by rewrite Hh'| | |].
  - unfold tcp_set_read_timeout. rewrite bool_decide_false by done. unfold on_open, mbind, eff_bind.
    rewrite (proj2 (opened_ok g d o t')) by done. eexists. split; [done|]. cbn [handles sockets with_sockets].
    rewrite Hg', Hh'. cbn [option_bind]. by rewrite lookup_insert_eq.
  - unfold on_open, mbind, eff_bind. rewrite (proj2 (opened_ok h d o t')) by done. eexists. split; [done|].
    cbn [handles sockets with_sockets]. rewrite Hg', Hh'. cbn [option_bind]. by rewrite lookup_insert_eq.
  - unfold tcp_drop. cbn [handles sockets]. rewrite Hh', lookup_delete_ne, Hg' by done. cbn [mbind option_bind].
    rewrite bool_decide_false; [done|]. intros Hf. by apply (Hf g d); [rewrite lookup_delete_ne|].
Qed.

End streams.

(** A plain stream's socket, a probe of it, and a timeout of one second. *)
Definition wit_table : Table := {|
  handles := {[ 3 := 0 ]};
  sockets := {[ 0 := {| o_peer := Some (str "10.0.0.1:7000"); o_read_timeout := None; o_nodelay := true; o_nonblocking := false |} ]};
  spare := [true] |}.

Lemma probe_shares_socket_witness :
  exists h t', probe_socket (C := unit) (T := unit) (fun _ => 0) (fun _ => 0) (Plain 3) wit_table = (Ok h, t')
  /\ h <> 3 /\ seen 3 (tcp_drop h t') = seen 3 wit_table.
Proof.
  eexists _, _. split; [reflexivity|].
  destruct (probe_shares_socket (C := unit) (T := unit) (fun _ => 0) (fun _ => 0) (Plain 3) _ wit_table _ _ (Some 1) true
              eq_refl eq_refl ltac:(discriminate)) as (Hn & _ & _ & _ & Hs).
  split; [exact Hn|exact Hs].
Defined.
