(* ===== verification/Gssapi.v ===== *)
(** * Kerberos contexts

    [crates/skaidb-gssapi/src/lib.rs]: both sides of a GSSAPI negotiation, a
    step at a time, over the contexts of the Kerberos library ([cross-krb5]),
    which are arguments. *)
From S2P Require Import Prelude Bytes Text Effect Login.
#[local] Open Scope Z_scope.

Inductive GssError := NotSupported | Krb5 (text : bytes).

Definition gss_text (e : GssError) : bytes :=
  match e with
  | NotSupported => str "GSSAPI authentication is not supported in this build"
  | Krb5 t => str "kerberos: " ++ t
  end.

(** The library's [Step]: what goes on and its token, or a finished context
    and the last token, if there is one. *)
Inductive Step (P C : Type) :=
| StepContinue (next : P) (token : bytes)
| StepFinished (ctx : C) (token : option bytes).
Arguments StepContinue {P C} next token.
Arguments StepFinished {P C} ctx token.

Section contexts.
Context {PendingClient Client PendingServer Server : Type}.
Context (client_new : option bytes -> bytes -> option bytes -> res bytes (PendingClient * bytes))
  (client_step : PendingClient -> bytes -> res bytes (Step PendingClient Client))
  (server_new : option bytes -> option bytes -> res bytes PendingServer)
  (server_step : PendingServer -> bytes -> res bytes (Step PendingServer Server))
  (server_client : Server -> res bytes bytes).

(** ** The client *)

Definition ClientHandshake_new (target_spn : bytes) (principal bindings : option bytes)
    : res GssError (PendingClient * bytes) :=
  map_err Krb5 (client_new principal target_spn bindings).

Definition ClientHandshake_step (h : PendingClient) (server_token : bytes) : res GssError (ClientStep PendingClient) :=
  s ← map_err Krb5 (client_step h server_token);
  Ok match s with
     | StepContinue next token => Continue next token
     | StepFinished _ token => Done token
     end.

(** ** The server *)

Inductive ServerStep :=
| ServerContinue (next : PendingServer) (token : bytes)
| ServerDone (principal : bytes) (token : option bytes).

Definition ServerHandshake_new (spn bindings : option bytes) : res GssError PendingServer :=
  map_err Krb5 (server_new spn bindings).

Definition ServerHandshake_step (h : PendingServer) (client_token : bytes) : res GssError ServerStep :=
  s ← map_err Krb5 (server_step h client_token);
  match s with
  | StepContinue next token => Ok (ServerContinue next token)
  | StepFinished ctx token => principal ← map_err Krb5 (server_client ctx); Ok (ServerDone principal token)
  end.

(** ** What the driver's login makes of them *)

(** The ambient ticket's identity; errors as their text. *)
Definition gss_new (target_spn : bytes) (bindings : option bytes) : res bytes (PendingClient * bytes) :=
  map_err gss_text (ClientHandshake_new target_spn None bindings).

Definition gss_step (h : PendingClient) (token : bytes) : res bytes (ClientStep PendingClient) :=
  map_err gss_text (ClientHandshake_step h token).

(** A library that comes back makes the driver's Kerberos login come back. *)
Lemma kerberos_login_safe sha384 sha512 user spn :
  (forall principal target bindings, returns (client_new principal target bindings)) ->
  (forall h token, returns (client_step h token)) ->
  safe (handshake_gssapi true gss_new gss_step sha384 sha512 user spn).
Proof.
  intros Hn Hs. apply handshake_gssapi_safe.
  - intros target bindings. unfold gss_new, ClientHandshake_new. by apply returns_map_err, returns_map_err.
  - intros h token. apply returns_map_err. apply returns_bind; [by apply returns_map_err|]. by intros.
Qed.

End contexts.

(** [set_keytab]: the environment's [KRB5_KTNAME], for the whole process. *)
Definition set_keytab (path : bytes) (env : bytes -> option bytes) : bytes -> option bytes :=
  fun name => if bool_decide (name = str "KRB5_KTNAME") then Some path else env name.

(** [is_supported]: whether the library was built in. *)
Definition is_supported (kerberos : bool) : bool := kerberos.
