(* ===== verification/Session.v ===== *)
(** * A client's session

    [Client] of [src/lib.rs]: one live connection, its failover targets, the
    session settings it replays after a re-dial, and the statements it runs.
    The balanced pool a connection may belong to is an interface; [Balancer]
    implements it. *)
From stdpp Require Import gmap.
From S2P Require Import Prelude Bytes Text Cursor Value Message Frame Handshake Crypto Effect Sql Balancer Login.
#[local] Open Scope Z_scope.

(** ** What a connection tells its pool *)

Class Pool (P : Type) := {
  pool_round_trip : PoolLink -> bytes -> Z -> P -> P * PoolLink;
  pool_failed : Z -> bytes -> P -> P;
  pool_moved : PoolLink -> bytes -> P -> P * PoolLink;
  pool_dial_order : Z -> bytes -> P -> list bytes * P;
  pool_read_your_writes : Z -> P -> bool;
  pool_wrote : Z -> option bytes -> bytes -> P -> P;
  pool_closed_out : PoolLink -> P -> P;
}.

(** What the client relies on: a report leaves the link on the member the
    connection is to, and nothing else of it changed. *)
Class PoolLaws (P : Type) `{Pool P} := {
  round_trip_link : forall l ep d p, (pool_round_trip l ep d p).2 = set_member ep l;
  moved_link : forall l ep p, (pool_moved l ep p).2 = set_member ep l;
}.

(** ** The client *)

Record Client := {
  endpoints : list bytes;
  credentials : Login;
  connected : bytes;
  stream : Stream;
  default_consistency : Consistency;
  database : option bytes;
  scan_budget_rows : Z;
  link : option PoolLink;
}.

Definition with_stream s c := {|
  endpoints := c.(endpoints); credentials := c.(credentials); connected := c.(connected); stream := s;
  default_consistency := c.(default_consistency); database := c.(database);
  scan_budget_rows := c.(scan_budget_rows); link := c.(link) |}.
Definition with_connected eps ep s c := {|
  endpoints := eps; credentials := c.(credentials); connected := ep; stream := s;
  default_consistency := c.(default_consistency); database := c.(database);
  scan_budget_rows := c.(scan_budget_rows); link := c.(link) |}.
Definition with_endpoints eps c := {|
  endpoints := eps; credentials := c.(credentials); connected := c.(connected); stream := c.(stream);
  default_consistency := c.(default_consistency); database := c.(database);
  scan_budget_rows := c.(scan_budget_rows); link := c.(link) |}.
Definition with_consistency k c := {|
  endpoints := c.(endpoints); credentials := c.(credentials); connected := c.(connected);
  stream := c.(stream); default_consistency := k; database := c.(database);
  scan_budget_rows := c.(scan_budget_rows); link := c.(link) |}.
Definition bind_database db c := {|
  endpoints := c.(endpoints); credentials := c.(credentials); connected := c.(connected);
  stream := c.(stream); default_consistency := c.(default_consistency); database := db;
  scan_budget_rows := c.(scan_budget_rows); link := c.(link) |}.
Definition with_budget rows c := {|
  endpoints := c.(endpoints); credentials := c.(credentials); connected := c.(connected);
  stream := c.(stream); default_consistency := c.(default_consistency); database := c.(database);
  scan_budget_rows := rows; link := c.(link) |}.
Definition with_link l c := {|
  endpoints := c.(endpoints); credentials := c.(credentials); connected := c.(connected);
  stream := c.(stream); default_consistency := c.(default_consistency); database := c.(database);
  scan_budget_rows := c.(scan_budget_rows); link := l |}.

(** [Prepared]; [stmt_params] is how many [?] the statement has. *)
Record Prepared := { stmt_id : Z; stmt_params : Z; stmt_sql : bytes }.

(** How each way to connect logs in. *)
Definition password_login (username password : bytes) : Login :=
  {| l_username := username; l_password := password; l_gssapi_spn := None; l_cert_auth := false |}.
Definition gssapi_login (principal target_spn : bytes) : Login :=
  {| l_username := principal; l_password := []; l_gssapi_spn := Some target_spn; l_cert_auth := false |}.
Definition certificate_login (username : bytes) : Login :=
  {| l_username := username; l_password := []; l_gssapi_spn := None; l_cert_auth := true |}.

Definition CLIENT_NAME : bytes := str "rust".
Definition CLIENT_VERSION : bytes := str "0.335.5".

Section session.
Context {P : Type} `{Pool P}.
Context {G : Type} (kerberos : bool)
  (gss_new : bytes -> option bytes -> res bytes (G * bytes))
  (gss_step : G -> bytes -> res bytes (ClientStep G))
  (sha384 sha512 : bytes -> bytes).

(** A client in the world: what the network and the clock will do ([elapsed]
    of the coming round trips), its pool, and the connections it has dropped. *)
Record Session := {
  client : Client;
  world : World;
  pool : P;
  clock : list Z;
  dropped : list Stream;
}.

Definition with_client c s := {|
  client := c; world := s.(world); pool := s.(pool); clock := s.(clock); dropped := s.(dropped) |}.
Definition with_world w s := {|
  client := s.(client); world := w; pool := s.(pool); clock := s.(clock); dropped := s.(dropped) |}.
Definition with_pool p s := {|
  client := s.(client); world := s.(world); pool := p; clock := s.(clock); dropped := s.(dropped) |}.
Definition with_clock k s := {|
  client := s.(client); world := s.(world); pool := s.(pool); clock := k; dropped := s.(dropped) |}.
Definition drop_stream s := {|
  client := s.(client); world := s.(world); pool := s.(pool); clock := s.(clock);
  dropped := s.(dropped) ++ [s.(client).(stream)] |}.

Abbreviation session A := (eff DriverError Session A).

Definition on_client (f : Client -> Client) : session unit :=
  changes (fun s => with_client (f s.(client)) s).
Definition ask {A} (f : Client -> A) : session A := reads_state (fun s => f s.(client)).

(** An operation on the live connection. *)
Definition on_conn {A} (m : eff DriverError Stream A) : session A :=
  zoom (fun s => s.(client).(stream)) (fun t s => with_client (with_stream t s.(client)) s) m.

(** ** Reports to the pool *)

Definition report_round_trip (s : Session) : Session :=
  match s.(client).(link) with
  | Some l =>
      let d := hd 0 s.(clock) in
      let '(p, l) := pool_round_trip (set_broken false l) s.(client).(connected) d s.(pool) in
      with_clock (tl s.(clock)) (with_pool p (with_client (with_link (Some l) s.(client)) s))
  | None => s
  end.

Definition report_failure (s : Session) : Session :=
  match s.(client).(link) with
  | Some l =>
      with_pool (pool_failed l.(l_pool) s.(client).(connected) s.(pool))
        (with_client (with_link (Some (set_broken true l)) s.(client)) s)
  | None => s
  end.

(** [transport] and [observed], around the step whose outcome they report. *)
Definition transport {A} (m : eff DriverError Stream A) : session A :=
  handle (on_conn m) (fun e s => (Err e, report_failure s)).

Definition observed {A} (m : eff DriverError Stream A) : session A :=
  a ← transport m; _ ← changes report_round_trip; mret a.

Definition observe_statement (sql : bytes) : session unit := fun s =>
  match s.(client).(link) with
  | Some l =>
      if l.(l_out) && pool_read_your_writes l.(l_pool) s.(pool) then
        match is_write sql with
        | Ok true => (Ok tt, with_pool (pool_wrote l.(l_pool) l.(l_affinity) s.(client).(connected) s.(pool)) s)
        | Ok false => (Ok tt, s)
        | Err _ => (Ok tt, s)
        | Panic => (Panic, s)
        | OutOfFuel => (OutOfFuel, s)
        end
      else (Ok tt, s)
  | None => (Ok tt, s)
  end.

(** ** One request and its response *)

(** [Response::decode] and its [match]: an error frame is a server error. *)
Definition response_of (payload : bytes) : session Response :=
  r ← of_res (map_err Proto (decode_response payload));
  match r with Error msg => raise (Server msg) | other => mret other end.

Definition exchange (request : bytes) : eff DriverError Stream bytes := _ ← send request; recv.

Definition roundtrip (q : ClientRequest) : session Response :=
  payload ← observed (exchange (encode_request q)); response_of payload.

Definition try_execute (sql : bytes) (k : Consistency) : session Response :=
  payload ← observed (exchange (request_encode {| r_sql := sql; r_consistency := k |}));
  response_of payload.

(** ** The session's own statements *)

Definition hello : bytes := encode_request (Hello CLIENT_NAME CLIENT_VERSION).

(** Whatever happens, the client goes on. *)
Definition send_hello : session unit :=
  sent ← attempt (on_conn (send hello));
  match sent with
  | inl _ => _ ← attempt (on_conn recv); mret tt
  | inr _ => mret tt
  end.

Definition apply_database : session unit :=
  c ← ask id;
  match c.(database) with
  | None => mret tt
  | Some db => _ ← roundtrip (Query (use_sql db) c.(default_consistency)); mret tt
  end.

Definition use_database (db : bytes) : session unit :=
  previous ← ask database;
  _ ← on_client (bind_database (Some db));
  handle apply_database (fun e => _ ← on_client (bind_database previous); raise e).

Definition apply_scan_budget : session unit :=
  c ← ask id;
  if c.(scan_budget_rows) =? 0 then mret tt
  else _ ← roundtrip (Query (budget_sql c.(scan_budget_rows)) c.(default_consistency)); mret tt.

Definition set_scan_budget_rows (rows : Z) : session unit :=
  k ← ask default_consistency;
  _ ← roundtrip (Query (set_budget_sql rows) k);
  on_client (with_budget rows).

Definition add_endpoints (more : list bytes) : session unit :=
  on_client (fun c => with_endpoints
    (fold_left (fun eps e => if bool_decide (e ∈ eps) then eps else eps ++ [e]) more c.(endpoints)) c).

Definition set_consistency (k : Consistency) : session unit := on_client (with_consistency k).

(** ** Dialing again *)

Definition in_world {A} (m : eff DriverError World A) : session A := zoom world with_world m.

Definition dial_member (ep : bytes) (l : Login) : session Stream :=
  in_world (dial kerberos gss_new gss_step sha384 sha512 ep l).

Definition probed_order (eps : list bytes) : session (list bytes) := in_world (probed eps).

Definition connected_last (c : bytes) (eps : list bytes) : list bytes :=
  sort_by (fun a b => bool_cmp (bool_decide (a = c)) (bool_decide (b = c))) eps.

Definition pooled_order (l : PoolLink) (lost : bytes) : session (list bytes) := fun s =>
  let '(eps, p) := pool_dial_order l.(l_pool) lost s.(pool) in (Ok eps, with_pool p s).

Definition redial_order : session (list bytes) :=
  c ← ask id;
  match c.(link) with
  | Some l => pooled_order l c.(connected)
  | None => eps ← probed_order c.(endpoints); mret (connected_last c.(connected) eps)
  end.

Definition report_moved (s : Session) : Session :=
  match s.(client).(link) with
  | Some l =>
      let '(p, l) := pool_moved (set_broken false l) s.(client).(connected) s.(pool) in
      with_pool p (with_client (with_link (Some l) s.(client)) s)
  | None => s
  end.

(** [l.pool.failed(ep)], for a dial that says something about the member. *)
Definition report_dial (ep : bytes) (e : DriverError) (s : Session) : Session :=
  match s.(client).(link) with
  | Some l => if member_fault e then with_pool (pool_failed l.(l_pool) ep s.(pool)) s else s
  | None => s
  end.

(** The new connection, and what runs on it before anything else. *)
Definition settle (ordered : list bytes) (ep : bytes) (t : Stream) : session unit :=
  _ ← changes drop_stream;
  _ ← on_client (with_connected ordered ep t);
  _ ← changes report_moved;
  _ ← send_hello;
  _ ← apply_database;
  apply_scan_budget.

Fixpoint redial (ordered eps : list bytes) (last : bytes * option DriverError) : session unit :=
  match eps with
  | [] => raise (NoEndpoint last.1 last.2)
  | ep :: eps =>
      c ← ask id;
      dialed ← attempt (dial_member ep c.(credentials));
      match dialed with
      | inl t => settle ordered ep t
      | inr e => _ ← changes (report_dial ep e); redial ordered eps (ep, Some e)
      end
  end.

Definition reconnect : session unit :=
  ordered ← redial_order; redial ordered ordered ([], None).

(** [Err(DriverError::Io(_)) => { self.reconnect()?; again }]. *)
Definition is_io (e : DriverError) : bool := match e with Io _ => true | _ => false end.

Definition retrying {A} (first again : session A) : session A :=
  handle first (fun e => if is_io e then _ ← reconnect; again else raise e).

(** ** Statements *)

Definition execute_with (sql : bytes) (k : Consistency) : session Response :=
  r ← retrying (try_execute sql k) (try_execute sql k);
  _ ← observe_statement sql;
  mret r.

Definition execute (sql : bytes) : session Response :=
  k ← ask default_consistency; execute_with sql k.

(** The messages for a response of the wrong kind leave its [Debug] text out. *)
Definition prepare (sql : bytes) : session Prepared :=
  resp ← retrying (roundtrip (Prepare sql)) (roundtrip (Prepare sql));
  match resp with
  | Message.Prepared id params => mret {| stmt_id := id; stmt_params := params; stmt_sql := sql |}
  | _ => raise (Server (str "unexpected response to Prepare"))
  end.

(** Calls that are given a statement to keep up to date, in a failure too. *)
Abbreviation with_stmt A := (eff DriverError (Session * Prepared) A).
Definition on_session {A} (m : session A) : with_stmt A := zoom fst (fun s t => (s, t.2)) m.
Definition the_stmt : with_stmt Prepared := reads_state snd.

(** The request for the statement's id; after a failover, for the id a new
    [prepare] gave. *)
Definition re_prepared (request : Z -> ClientRequest) : with_stmt Response :=
  handle (stmt ← the_stmt; on_session (roundtrip (request stmt.(stmt_id))))
    (fun e =>
       if is_io e then
         _ ← on_session reconnect;
         stmt ← the_stmt;
         fresh ← on_session (prepare stmt.(stmt_sql));
         _ ← changes (fun t => (t.1, fresh));
         on_session (roundtrip (request fresh.(stmt_id)))
       else raise e).

Definition observe_stmt : with_stmt unit :=
  stmt ← the_stmt; on_session (observe_statement stmt.(stmt_sql)).

Definition execute_prepared_with (params : list Value) (k : Consistency) : with_stmt Response :=
  r ← re_prepared (fun id => Execute id params k);
  _ ← observe_stmt;
  mret r.

Definition execute_prepared (params : list Value) : with_stmt Response :=
  k ← on_session (ask default_consistency); execute_prepared_with params k.

Definition execute_batch (rows : list (list Value)) : with_stmt Z :=
  k ← on_session (ask default_consistency);
  resp ← re_prepared (fun id => ExecuteBatch id rows k);
  match resp with
  | Mutation affected => _ ← observe_stmt; mret affected
  | Error e => raise (Server e)
  | _ => raise (Server (str "unexpected response to ExecuteBatch"))
  end.

(** [v.as_str()] of the first cell of the last row. *)
Definition next_cursor (rows : list (list Value)) (after : bytes) : bytes :=
  match last rows with
  | Some (VString s :: _) => s
  | _ => after
  end.

Definition stream_poll (log after : bytes) (limit : Z) : session (list (list Value) * bytes) :=
  resp ← execute (poll_sql log after limit);
  let rows := match resp with Rows _ rows => rows | _ => [] end in
  mret (rows, next_cursor rows after).

(** ** Pipelining *)

Fixpoint send_all (i : Z) (stmts : list bytes) (k : Consistency) : session unit :=
  match stmts with
  | [] => mret tt
  | sql :: stmts =>
      _ ← transport (send (encode_tagged_request (wrap 32 i) (Query sql k) []));
      send_all (i + 1) stmts k
  end.

(** [match out.get_mut(id)]: a slot is filled once. *)
Definition put_slot (out : list (option Response)) (id : Z) (r : Response)
    : option (list (option Response)) :=
  match out !! Z.to_nat id with
  | Some None => Some (<[Z.to_nat id := Some r]> out)
  | _ => None
  end.

Fixpoint recv_all (n : nat) (first : bool) (out : list (option Response))
    : session (list (option Response)) :=
  match n with
  | O => mret out
  | S n =>
      payload ← (if first then observed recv else transport recv);
      '(id, resp) ← of_res (map_err Proto (decode_tagged_response payload));
      match id with
      | None => raise (Server (str "server does not support pipelined requests (upgrade the server)"))
      | Some id =>
          match put_slot out id resp with
          | Some out => recv_all n false out
          | None => raise (Server (str "unexpected response id " ++ to_dec id ++ str " in pipeline"))
          end
      end
  end.

(** [expect("all ids seen")]. *)
Fixpoint all_seen (out : list (option Response)) : res DriverError (list Response) :=
  match out with
  | [] => Ok []
  | Some r :: out => rs ← all_seen out; Ok (r :: rs)
  | None :: _ => Panic
  end.

Definition try_pipeline (stmts : list bytes) (k : Consistency) : session (list Response) :=
  _ ← send_all 0 stmts k;
  out ← recv_all (length stmts) true (replicate (length stmts) None);
  of_res (all_seen out).

Definition is_error (r : Response) : bool := match r with Error _ => true | _ => false end.

Definition pipeline_with (stmts : list bytes) (k : Consistency) : session (list Response) :=
  match stmts with
  | [] => mret []
  | _ =>
      responses ← retrying (try_pipeline stmts k) (try_pipeline stmts k);
      _ ← for_all (fun sr => if is_error sr.2 then mret tt else observe_statement sr.1)
            (zip stmts responses);
      mret responses
  end.

Definition pipeline (stmts : list bytes) : session (list Response) :=
  k ← ask default_consistency; pipeline_with stmts k.

(** ** Opening *)

(** [Client::open]; a member that refuses is reported when there is a pool
    ([lk]).  The client does not exist before the dial that succeeds. *)
Definition client_new (ordered : list bytes) (l : Login) (lk : option PoolLink) (ep : bytes) (t : Stream)
    : Client := {|
  endpoints := ordered; credentials := l; connected := ep; stream := t;
  default_consistency := Quorum; database := None; scan_budget_rows := 0;
  link := set_member ep <$> lk |}.

Definition report_open (lk : option PoolLink) (ep : bytes) (e : DriverError) (p : P) : P :=
  match lk with Some l => if member_fault e then pool_failed l.(l_pool) ep p else p | None => p end.

(** Run a new client's first call. *)
Definition start_session (c : Client) (m : session unit) : eff DriverError (World * P) Session :=
  fun '(w, p) =>
    let '(r, s) := m {| client := c; world := w; pool := p; clock := []; dropped := [] |} in
    ((fun _ => s) <$> r, (s.(world), s.(pool))).

Fixpoint open_from (ordered eps : list bytes) (l : Login) (lk : option PoolLink)
    (last : bytes * option DriverError) : eff DriverError (World * P) Session :=
  match eps with
  | [] => raise (NoEndpoint last.1 last.2)
  | ep :: eps =>
      dialed ← attempt (zoom fst (fun w t => (w, t.2)) (dial kerberos gss_new gss_step sha384 sha512 ep l));
      match dialed with
      | inl t => start_session (client_new ordered l lk ep t) send_hello
      | inr e =>
          _ ← changes (fun t => (t.1, report_open lk ep e t.2));
          open_from ordered eps l lk (ep, Some e)
      end
  end.

Definition open (ordered : list bytes) (l : Login) (lk : option PoolLink) : eff DriverError (World * P) Session :=
  open_from ordered ordered l lk ([], None).

(** [connect_mode]: a client outside any pool; its TLS settings are the
    world's. *)
Definition connect_mode (eps : list bytes) (l : Login) : eff DriverError (World * P) Session :=
  ordered ← zoom fst (fun w t => (w, t.2)) (probed (dedup eps));
  match ordered with
  | [] => raise (NoEndpoint (str "no endpoints given") None)
  | _ => open ordered l None
  end.

(** The ways to connect; [resolve] is what an address resolves to.  The TLS
    settings a caller gives shape the connections the world answers with. *)
Definition connect_many_tls (eps : list bytes) (username password : bytes) : eff DriverError (World * P) Session :=
  connect_mode eps (password_login username password).

Definition connect_many := connect_many_tls.

Definition connect_with (resolve : bytes -> res io_error (list bytes)) (addr username password : bytes)
    : eff DriverError (World * P) Session :=
  eps ← of_res (map_err Io (resolve addr));
  match eps with
  | [] => raise (NoEndpoint (str "address did not resolve") None)
  | _ => connect_many eps username password
  end.

Definition client_connect resolve (addr : bytes) := connect_with resolve addr (str "anonymous") [].

Definition connect_gssapi_tls (eps : list bytes) (principal target_spn : bytes) : eff DriverError (World * P) Session :=
  connect_mode eps (gssapi_login principal target_spn).

Definition connect_gssapi := connect_gssapi_tls.

Definition connect_certificate (eps : list bytes) (username : bytes) : eff DriverError (World * P) Session :=
  connect_mode eps (certificate_login username).

End session.
Arguments Session P : clear implicits.

(** ** The balanced pool as a client's pool

    The instant of each report, and whether the background thread can start,
    are the world's. *)
Record PoolWorld := {
  pw_opts : PoolOptions;
  pw_state : BalancerState;
  pw_now : list Z;
  pw_spawns : bool;
}.

Definition pool_step (f : Z -> BalancerState -> BalancerState) (w : PoolWorld) : PoolWorld := {|
  pw_opts := w.(pw_opts); pw_state := f (hd 0 w.(pw_now)) w.(pw_state); pw_now := tl w.(pw_now);
  pw_spawns := w.(pw_spawns) |}.

#[export] Instance balancer_pool : Pool PoolWorld := {
  pool_round_trip l ep d w :=
    let now := hd 0 w.(pw_now) in
    (pool_step (fun now st => (round_trip w.(pw_opts) w.(pw_spawns) now l ep d st).1) w,
     (round_trip w.(pw_opts) w.(pw_spawns) now l ep d w.(pw_state)).2);
  pool_failed _ ep w := pool_step (fun now st => failed w.(pw_opts) w.(pw_spawns) now ep st) w;
  pool_moved l ep w :=
    (pool_step (fun _ st => (moved st l ep).1) w, (moved w.(pw_state) l ep).2);
  pool_dial_order _ lost w :=
    ((dial_order lost w.(pw_state)).1, pool_step (fun _ st => (dial_order lost st).2) w);
  pool_read_your_writes _ w := negb (w.(pw_opts).(read_your_writes) =? 0);
  pool_wrote _ a ep w := pool_step (fun now st => wrote w.(pw_opts) now a ep st) w;
  pool_closed_out l w := if l.(l_out) then pool_step (fun _ st => closed_out l.(l_member) st) w else w;
}.

Lemma set_member_same ep l : l.(l_member) = ep -> set_member ep l = l.
Proof. intros <-. by destruct l. Qed.

Lemma reattribute_link st l ep : (reattribute st l ep).2 = set_member ep l.
Proof.
  unfold reattribute. destruct (bool_decide_reflect (l_member l = ep)); [|done]. symmetry. by apply set_member_same.
Qed.

#[export] Instance balancer_pool_laws : PoolLaws PoolWorld.
Proof.
  split; intros; cbn [pool_round_trip pool_moved balancer_pool snd]; [|apply reattribute_link].
  unfold round_trip. pose proof (reattribute_link (pw_state p) l ep) as E.
  destruct (reattribute (pw_state p) l ep) as [st l']. cbn [snd] in E. subst l'.
  destruct (BTree.bt_get ep (b_members st)) as [m|]; [|done]. destruct (m_ewma _); [|done].
  destruct (_ || _); [done|]. by destruct (too_slow _ _ _).
Qed.

(** ** What every call keeps *)

Section keeping.
Context {P : Type} `{Pool P}.
Context {G : Type} (kerberos : bool)
  (gss_new : bytes -> option bytes -> res bytes (G * bytes))
  (gss_step : G -> bytes -> res bytes (ClientStep G))
  (sha384 sha512 : bytes -> bytes).
Abbreviation session A := (eff DriverError (Session P) A).
Abbreviation reconnect := (reconnect kerberos gss_new gss_step sha384 sha512).

(** The steps calls are made of keep [I]: bytes on the connection, what changes
    in the world, the reports to the pool, the caller's settings, and a re-dial
    that reached one of its targets. *)
Record stable (I : Session P -> Prop) : Prop := {
  stable_stream t s : I s -> I (with_client (with_stream t s.(client)) s);
  stable_world w s : I s -> I (with_world w s);
  stable_failure s : I s -> I (report_failure s);
  stable_round_trip s : I s -> I (report_round_trip s);
  stable_dial ep e s : I s -> I (report_dial ep e s);
  stable_order n lost s : I s -> I (with_pool (pool_dial_order n lost s.(pool)).2 s);
  stable_wrote n a ep s : I s -> I (with_pool (pool_wrote n a ep s.(pool)) s);
  stable_settled ordered ep t s : ep ∈ ordered -> I s ->
    I (report_moved (with_client (with_connected ordered ep t (drop_stream s).(client)) (drop_stream s)));
  stable_database db s : I s -> I (with_client (bind_database db s.(client)) s);
  stable_budget rows s : I s -> I (with_client (with_budget rows s.(client)) s);
  stable_consistency k s : I s -> I (with_client (with_consistency k s.(client)) s);
  stable_endpoints eps s : (forall e, e ∈ s.(client).(endpoints) -> e ∈ eps) -> I s ->
    I (with_client (with_endpoints eps s.(client)) s);
}.

(** A call made of such steps. *)
Definition ordinary {A} (m : session A) : Prop := forall I, stable I -> keeps I m.

Context (I : Session P -> Prop) (HI : stable I).

Lemma on_conn_keeps {A} (m : eff DriverError Stream A) : keeps I (on_conn m : session A).
Proof. apply keeps_zoom. intros t s. by apply stable_stream. Qed.

Lemma transport_keeps {A} (m : eff DriverError Stream A) : keeps I (transport m : session A).
Proof. apply keeps_handle; [apply on_conn_keeps|]. intros e s. by apply stable_failure. Qed.

Lemma observed_keeps {A} (m : eff DriverError Stream A) : keeps I (observed m : session A).
Proof.
  apply keeps_bind; [apply transport_keeps|]. intros a.
  apply keeps_bind; [by apply keeps_changes, stable_round_trip|]. intros []. apply keeps_ret.
Qed.

Lemma ask_keeps {A} (f : Client -> A) : keeps I (ask f : session A).
Proof. apply keeps_reads. Qed.

Lemma observe_statement_keeps sql : keeps I (observe_statement sql : session unit).
Proof.
  intros s Hs. unfold observe_statement. destruct (link (client s)) as [l|]; [|done].
  destruct (_ && _); [|done]. destruct (is_write sql) as [[]|[]| |]; try done. by apply stable_wrote.
Qed.

Lemma response_of_keeps payload : keeps I (response_of payload : session Response).
Proof. apply keeps_bind; [apply keeps_of_res|]. intros []; first [apply keeps_ret|apply keeps_raise]. Qed.

Lemma roundtrip_keeps q : keeps I (roundtrip q : session Response).
Proof. apply keeps_bind; [apply observed_keeps|apply response_of_keeps]. Qed.

Lemma try_execute_keeps sql k : keeps I (try_execute sql k : session Response).
Proof. apply keeps_bind; [apply observed_keeps|apply response_of_keeps]. Qed.

Hint Resolve on_conn_keeps transport_keeps observed_keeps ask_keeps observe_statement_keeps
  response_of_keeps roundtrip_keeps try_execute_keeps : skaidb.

Lemma send_hello_keeps : keeps I (send_hello : session unit).
Proof.
  apply keeps_bind; [auto with skaidb|]. intros [[]|e]; [|apply keeps_ret].
  apply keeps_bind; [auto with skaidb|]. intros x. apply keeps_ret.
Qed.

Lemma apply_database_keeps : keeps I (apply_database : session unit).
Proof. apply keeps_bind; [auto with skaidb|]. intros c. destruct (database c); auto with skaidb. Qed.

Lemma apply_scan_budget_keeps : keeps I (apply_scan_budget : session unit).
Proof. apply keeps_bind; [auto with skaidb|]. intros c. destruct (_ =? 0); auto with skaidb. Qed.

Hint Resolve send_hello_keeps apply_database_keeps apply_scan_budget_keeps : skaidb.

Lemma settle_keeps ordered ep t : ep ∈ ordered -> keeps I (settle ordered ep t : session unit).
Proof.
  intros Hin s Hs. unfold settle. do 3 (erewrite bind_step by reflexivity).
  match goal with |- I (?m ?s).2 => assert (Hk : keeps I m) by auto with skaidb end.
  apply Hk. by apply stable_settled.
Qed.

Lemma redial_keeps ordered eps last :
  (forall e, e ∈ eps -> e ∈ ordered) ->
  keeps I (redial kerberos gss_new gss_step sha384 sha512 ordered eps last : session unit).
Proof.
  revert last. induction eps as [|ep eps IH]; intros last Hin; cbn [redial]; [apply keeps_raise|].
  apply keeps_bind; [auto with skaidb|]. intros c.
  apply keeps_bind; [apply keeps_attempt, keeps_zoom; intros w s; by apply stable_world|].
    intros [t|e].
  - apply settle_keeps, Hin. by left.
  - apply keeps_bind.
    + apply keeps_changes. intros s. by apply stable_dial.
    + intros []. apply IH. intros e' He'. apply Hin. by right.
Qed.

Lemma reconnect_keeps : keeps I (reconnect : session unit).
Proof.
  apply keeps_bind; [|intros ordered; by apply redial_keeps].
  apply keeps_bind; [auto with skaidb|]. intros c. destruct (link c).
  - intros s Hs. unfold pooled_order. pose proof (stable_order I HI (l_pool p) (connected c) s Hs) as Ho.
    by destruct (pool_dial_order _ _ _).
  - apply keeps_bind; [|intros; apply keeps_ret]. apply keeps_zoom. intros w s. by apply stable_world.
Qed.
Hint Resolve reconnect_keeps : skaidb.

Lemma retrying_keeps {A} (m1 m2 : session A) :
  keeps I m1 -> keeps I m2 ->
  keeps I (retrying kerberos gss_new gss_step sha384 sha512 m1 m2).
Proof. intros Hm1 Hm2. apply keeps_handle; [done|]. intros e. destruct (is_io e); auto with skaidb. Qed.
Hint Resolve retrying_keeps : skaidb.

Lemma on_session_keeps {A} (m : session A) : keeps I m -> keeps (fun t => I t.1) (on_session m).
Proof. intros Hm [s stmt] Hs. unfold on_session, zoom. cbn [fst]. specialize (Hm s Hs). by destruct (m s). Qed.
Hint Resolve on_session_keeps : skaidb.

Lemma prepare_keeps sql : keeps I (prepare kerberos gss_new gss_step sha384 sha512 sql : session _).
Proof.
  apply keeps_bind; [auto with skaidb|]. intros []; first [apply keeps_ret|apply keeps_raise].
Qed.
Hint Resolve prepare_keeps : skaidb.

Lemma re_prepared_keeps request :
  keeps (fun t => I t.1) (re_prepared kerberos gss_new gss_step sha384 sha512 request).
Proof.
  apply keeps_handle.
  - apply keeps_bind; [apply keeps_reads|]. intros stmt. auto with skaidb.
  - intros e. destruct (is_io e); [|apply keeps_raise]. apply keeps_bind; [auto with skaidb|]. intros [].
    apply keeps_bind; [apply keeps_reads|]. intros stmt. apply keeps_bind; [auto with skaidb|]. intros fresh.
    apply keeps_bind; [by apply keeps_changes|]. intros []. auto with skaidb.
Qed.

Lemma observe_stmt_keeps : keeps (fun t : Session P * Prepared => I t.1) observe_stmt.
Proof. apply keeps_bind; [apply keeps_reads|]. auto with skaidb. Qed.

Lemma send_all_keeps i stmts k : keeps I (send_all i stmts k : session unit).
Proof.
  revert i. induction stmts as [|sql stmts IH]; intros i; cbn [send_all]; [apply keeps_ret|].
  apply keeps_bind; [auto with skaidb|]. intros []. apply IH.
Qed.

Lemma recv_all_keeps n first out : keeps I (recv_all n first out : session _).
Proof.
  revert first out. induction n as [|n IH]; intros first out; cbn [recv_all]; [apply keeps_ret|].
  apply keeps_bind; [destruct first; auto with skaidb|]. intros payload. apply keeps_bind; [apply keeps_of_res|].
  intros [[id|] r]; [|apply keeps_raise]. destruct (put_slot out id r); [apply IH|apply keeps_raise].
Qed.

Lemma for_all_keeps {A} (f : A -> session unit) l : (forall a, keeps I (f a)) -> keeps I (for_all f l).
Proof. intros Hf. induction l as [|a l IH]; [apply keeps_ret|]. apply keeps_bind; [apply Hf|]. by intros []. Qed.

Lemma try_pipeline_keeps stmts k : keeps I (try_pipeline stmts k : session _).
Proof.
  apply keeps_bind; [apply send_all_keeps|]. intros []. apply keeps_bind; [apply recv_all_keeps|].
  intros out. apply keeps_of_res.
Qed.
Hint Resolve try_pipeline_keeps : skaidb.

(** ** Sequences of calls *)

Inductive call :=
| CallExecute (sql : bytes) (k : Consistency)
| CallPrepare (sql : bytes)
| CallExecutePrepared (stmt : Prepared) (params : list Value) (k : Consistency)
| CallExecuteBatch (stmt : Prepared) (rows : list (list Value))
| CallPipeline (stmts : list bytes) (k : Consistency)
| CallStreamPoll (log after : bytes) (limit : Z)
| CallUse (db : bytes)
| CallBudget (rows : Z)
| CallEndpoints (more : list bytes)
| CallConsistency (k : Consistency)
| CallReconnect.

(** A call on a statement the caller holds. *)
Definition on_stmt {A} (stmt : Prepared) (m : eff DriverError (Session P * Prepared) A) : session A :=
  fun s => let '(r, (s, _)) := m (s, stmt) in (r, s).

Definition run_call (c : call) : session unit :=
  match c with
  | CallExecute sql k => _ ← execute_with kerberos gss_new gss_step sha384 sha512 sql k; mret tt
  | CallPrepare sql => _ ← prepare kerberos gss_new gss_step sha384 sha512 sql; mret tt
  | CallExecutePrepared stmt params k =>
      _ ← on_stmt stmt (execute_prepared_with kerberos gss_new gss_step sha384 sha512 params k); mret tt
  | CallExecuteBatch stmt rows =>
      _ ← on_stmt stmt (execute_batch kerberos gss_new gss_step sha384 sha512 rows); mret tt
  | CallPipeline stmts k => _ ← pipeline_with kerberos gss_new gss_step sha384 sha512 stmts k; mret tt
  | CallStreamPoll log after limit =>
      _ ← stream_poll kerberos gss_new gss_step sha384 sha512 log after limit; mret tt
  | CallUse db => use_database db
  | CallBudget rows => set_scan_budget_rows rows
  | CallEndpoints more => add_endpoints more
  | CallConsistency k => set_consistency k
  | CallReconnect => reconnect
  end.

(** Failed or not, one call after another. *)
Definition run_calls (calls : list call) (s : Session P) : Session P :=
  fold_left (fun s c => (run_call c s).2) calls s.

Lemma on_stmt_keeps {A} stmt (m : eff DriverError (Session P * Prepared) A) :
  keeps (fun t => I t.1) m -> keeps I (on_stmt stmt m).
Proof. intros Hm s Hs. unfold on_stmt. specialize (Hm (s, stmt) Hs). by destruct (m (s, stmt)) as [r [s1 ?]]. Qed.

Lemma add_endpoints_grows (more eps : list bytes) (e : bytes) :
  e ∈ eps -> e ∈ fold_left (fun eps e => if bool_decide (e ∈ eps) then eps else eps ++ [e]) more eps.
Proof.
  revert eps. induction more as [|x more IH]; intros eps He; [done|]. cbn [fold_left]. apply IH.
  destruct (bool_decide (x ∈ eps)); [done|]. apply elem_of_app. by left.
Qed.

Lemma execute_with_keeps sql k :
  keeps I (execute_with kerberos gss_new gss_step sha384 sha512 sql k : session _).
Proof.
  apply keeps_bind; [auto with skaidb|]. intros r. apply keeps_bind; [auto with skaidb|]. intros []. apply keeps_ret.
Qed.
Hint Resolve execute_with_keeps : skaidb.

Lemma execute_keeps sql : keeps I (execute kerberos gss_new gss_step sha384 sha512 sql : session _).
Proof. apply keeps_bind; [apply ask_keeps|]. intros k. auto with skaidb. Qed.

Lemma discard_keeps {A} (m : session A) : keeps I m -> keeps I (_ ← m; mret tt).
Proof. intros Hm. apply keeps_bind; [done|]. intros a. apply keeps_ret. Qed.

Lemma run_call_keeps c : keeps I (run_call c).
Proof.
  destruct c; cbn [run_call]; try apply discard_keeps; auto with skaidb.
  - apply on_stmt_keeps, keeps_bind; [apply re_prepared_keeps|]. intros r.
    apply keeps_bind; [apply observe_stmt_keeps|]. intros []. apply keeps_ret.
  - apply on_stmt_keeps, keeps_bind; [apply on_session_keeps, ask_keeps|]. intros k.
    apply keeps_bind; [apply re_prepared_keeps|].
    intros []; try apply keeps_raise. apply keeps_bind; [apply observe_stmt_keeps|]. intros []. apply keeps_ret.
  - unfold pipeline_with. destruct stmts as [|sql stmts]; [apply keeps_ret|].
    apply keeps_bind; [auto with skaidb|]. intros rs. apply keeps_bind; [|intros []; apply keeps_ret].
    apply for_all_keeps. intros [s r]. destruct (is_error _); auto with skaidb.
  - apply keeps_bind; [|intros r; apply keeps_ret]. apply keeps_bind; [auto with skaidb|]. intros k. auto with skaidb.
  - apply keeps_bind; [auto with skaidb|]. intros previous.
    apply keeps_bind; [apply keeps_changes; intros s; by apply stable_database|]. intros [].
    apply keeps_handle; [apply apply_database_keeps|]. intros e.
    apply keeps_bind; [apply keeps_changes; intros s; by apply stable_database|]. intros []. apply keeps_raise.
  - apply keeps_bind; [auto with skaidb|]. intros k. apply keeps_bind; [auto with skaidb|]. intros r.
    apply keeps_changes. intros s. by apply stable_budget.
  - apply keeps_changes. intros s. apply stable_endpoints; [done|]. intros e. apply add_endpoints_grows.
  - apply keeps_changes. intros s. by apply stable_consistency.
Qed.

End keeping.

(** ** Where the connection is *)

Section tracking.
Context {P : Type} `{PoolLaws P}.
Context {G : Type} (kerberos : bool)
  (gss_new : bytes -> option bytes -> res bytes (G * bytes))
  (gss_step : G -> bytes -> res bytes (ClientStep G))
  (sha384 sha512 : bytes -> bytes).
Abbreviation session A := (eff DriverError (Session P) A).
Abbreviation reconnect := (reconnect kerberos gss_new gss_step sha384 sha512).

(** The pool counts the connection on the member it is to, and that member
    is one of the failover targets. *)
Definition placed (c : Client) : Prop :=
  c.(connected) ∈ c.(endpoints)
  /\ match c.(link) with Some l => l.(l_member) = c.(connected) | None => True end.

Definition tracked (s : Session P) : Prop := placed s.(client).

Lemma tracked_same (s s' : Session P) :
  s'.(client).(connected) = s.(client).(connected) ->
  (forall e, e ∈ s.(client).(endpoints) -> e ∈ s'.(client).(endpoints)) ->
  s'.(client).(link) = s.(client).(link) -> tracked s -> tracked s'.
Proof. unfold tracked, placed. intros -> He -> [Hc Hl]. auto. Qed.

Lemma report_failure_tracked s : tracked s -> tracked (report_failure s).
Proof.
  unfold report_failure, tracked, placed. destruct (link (client s)) as [l|] eqn:E; [|by rewrite E].
  by cbn [client with_pool with_client with_link connected endpoints link l_member set_broken].
Qed.

Lemma report_round_trip_tracked s : tracked s -> tracked (report_round_trip s).
Proof.
  unfold report_round_trip, tracked, placed. destruct (link (client s)) as [l|] eqn:E; [|by rewrite E].
  pose proof (round_trip_link (set_broken false l) (connected (client s)) (hd 0 (clock s)) (pool s)) as El.
  destruct (pool_round_trip _ _ _ _) as [p l']. cbn [snd] in El. subst l'. intros [Hin _].
  cbn [client with_pool with_client with_link with_clock connected endpoints link l_member set_member]. done.
Qed.

Lemma report_moved_tracked s :
  connected (client s) ∈ endpoints (client s) -> tracked (report_moved s).
Proof.
  intros Hin. unfold report_moved, tracked, placed. destruct (link (client s)) as [l|] eqn:E; [|by rewrite E].
  pose proof (moved_link (set_broken false l) (connected (client s)) (pool s)) as El.
  destruct (pool_moved _ _ _) as [p l']. cbn [snd] in El. by subst l'.
Qed.

Lemma tracked_stable : stable tracked.
Proof.
  split; try (intros; eapply tracked_same; [..|eassumption]; done).
  - apply report_failure_tracked.
  - apply report_round_trip_tracked.
  - intros ep e s Hs. unfold report_dial. destruct (link (client s)); [|done]. by destruct (member_fault e).
  - intros ordered ep t s Hin _. by apply report_moved_tracked.
Qed.

Lemma open_from_tracked ordered eps l lk last t s t' :
  (forall e, e ∈ eps -> e ∈ ordered) ->
  open_from kerberos gss_new gss_step sha384 sha512 ordered eps l lk last t = (Ok s, t') -> tracked s.
Proof.
  revert last t. induction eps as [|ep eps IH]; intros last t Hin; cbn [open_from]; [done|].
  intros ([st|e] & t1 & _ & Ho)%bind_done.
  - unfold start_session in Ho. destruct t1 as [w p].
    match type of Ho with (let '(r, s) := ?m ?s0 in _) = _ =>
      assert (Hs0 : tracked (m s0).2) end.
    { apply (send_hello_keeps _ tracked_stable). split; [by apply Hin; left|]. cbn. by destruct lk. }
    destruct (send_hello _) as [r s1]. destruct r; try done. by injection Ho as <- _.
  - apply bind_done in Ho as ([] & t2 & _ & Ho). eapply IH; [|exact Ho]. intros e' He'. apply Hin. by right.
Qed.

(** C13: however a session goes, its connection is on one of its own failover
    targets and the pool counts it on that very member: from [open], through
    any calls, failures and failovers. *)
Theorem session_tracks_member ordered l lk t s t' calls :
  open kerberos gss_new gss_step sha384 sha512 ordered l lk t = (Ok s, t') ->
  placed (run_calls kerberos gss_new gss_step sha384 sha512 calls s).(client).
Proof.
  intros Ho. assert (Hs : tracked s) by by eapply open_from_tracked; [|exact Ho].
  clear Ho. revert s Hs. induction calls as [|c calls IH]; intros s Hs; [exact Hs|].
  apply IH. by apply (run_call_keeps _ _ _ _ _ _ tracked_stable).
Qed.

End tracking.

(** ** Witnesses *)

Definition wit_pool : PoolWorld :=
  {| pw_opts := sample_options; pw_state := sample_state; pw_now := [SEC; SEC]; pw_spawns := false |}.
Definition wit_login : Login :=
  {| l_username := str "u"; l_password := []; l_gssapi_spn := None; l_cert_auth := true |}.

(** A member that grants the login, then sends [l]. *)
Definition wit_peer (l : bytes) : Stream := wit_stream (frame (outcome_encode (Granted (replicate 32 x00))) ++ l).
Definition wit_world (peers : list Stream) : World :=
  {| w_net := map (fun t _ => Ok t) peers; w_probe := []; w_process := wit_process |}.

Definition no_gss_new (spn : bytes) (b : option bytes) : res bytes (unit * bytes) := Err (str "no ticket").
Definition no_gss_step (g : unit) (t : bytes) : res bytes (ClientStep unit) := Ok (Done None).

(** What a member sends: its answer to the greeting, then these. *)
Definition wit_answers (rs : list Response) : bytes :=
  frame (encode_response Ddl) ++ concat (map (fun r => frame (encode_response r)) rs).

Definition wit_open : res DriverError (Session PoolWorld) * (World * PoolWorld) :=
  open false no_gss_new no_gss_step sha256 sha256 [A; C] wit_login (Some (link_new 1))
    (wit_world [wit_peer (wit_answers []); wit_peer (wit_answers [Mutation 1])], wit_pool).

Lemma session_tracks_member_witness :
  exists s t', wit_open = (Ok s, t')
    /\ placed (run_calls false no_gss_new no_gss_step sha256 sha256
                 [CallExecute (str "DELETE FROM t") Quorum; CallReconnect] s).(client).
Proof.
  destruct wit_open as [[s|e| |] t'] eqn:E; [|vm_compute in E; discriminate..]. exists s, t'. split; [reflexivity|].
  apply (session_tracks_member false no_gss_new no_gss_step sha256 sha256 [A; C] wit_login (Some (link_new 1))
           (wit_world [wit_peer (wit_answers []); wit_peer (wit_answers [Mutation 1])], wit_pool) s t').
  exact E.
Defined.

(** A session outside any pool, on this connection, with these peers to dial. *)
Definition wit_session (t : Stream) (peers : list Stream) : Session PoolWorld := {|
  client := client_new [A] wit_login None A t; world := wit_world peers; pool := wit_pool; clock := [];
  dropped := [] |}.
