(* ===== verification/SessionSpec.v ===== *)
(** * What a session does on its connection

    Theorems about [Session]: the bytes a statement, a pipelined batch and a
    re-dial put on the wire, how responses are matched to statements, what a
    failover replays, and that every call comes back. *)
From stdpp Require Import gmap.
From S2P Require Import Prelude Bytes Text Cursor Value Message Frame Handshake Crypto Effect Sql Balancer Login Session.
#[local] Open Scope Z_scope.

Section wire.
Context {P : Type} `{Pool P}.
Context {G : Type} (kerberos : bool)
  (gss_new : bytes -> option bytes -> res bytes (G * bytes))
  (gss_step : G -> bytes -> res bytes (ClientStep G))
  (sha384 sha512 : bytes -> bytes).
Abbreviation session A := (eff DriverError (Session P) A).
Abbreviation reconnect := (reconnect kerberos gss_new gss_step sha384 sha512).
Abbreviation dial := (dial kerberos gss_new gss_step sha384 sha512).

(** Everything but the connection's own state and its reports to the pool. *)
Definition steady (s s' : Session P) : Prop :=
  s'.(world) = s.(world) /\ s'.(dropped) = s.(dropped)
  /\ s'.(client).(endpoints) = s.(client).(endpoints)
  /\ s'.(client).(credentials) = s.(client).(credentials)
  /\ s'.(client).(connected) = s.(client).(connected)
  /\ s'.(client).(default_consistency) = s.(client).(default_consistency)
  /\ s'.(client).(database) = s.(client).(database)
  /\ s'.(client).(scan_budget_rows) = s.(client).(scan_budget_rows).

Lemma steady_refl s : steady s s.
Proof. done. Qed.

Lemma steady_trans s1 s2 s3 : steady s1 s2 -> steady s2 s3 -> steady s1 s3.
Proof. unfold steady. intros (?&?&?&?&?&?&?&?) (?&?&?&?&?&?&?&?). split_and!; congruence. Qed.

Abbreviation conn s := (s.(client).(stream)).

(** The connection after [m], everything else as it was but for the pool. *)
Definition acts {A} (m : session A) (t : Stream -> res DriverError A * Stream) : Prop :=
  forall s, (m s).1 = (t (conn s)).1 /\ conn (m s).2 = (t (conn s)).2 /\ steady s (m s).2.

Lemma report_round_trip_steady s :
  steady s (report_round_trip s) /\ conn (report_round_trip s) = conn s.
Proof.
  unfold report_round_trip. destruct (link (client s)) as [l|]; [|done].
  destruct (pool_round_trip _ _ _ _) as [p l']. done.
Qed.

Lemma report_failure_steady s : steady s (report_failure s) /\ conn (report_failure s) = conn s.
Proof. unfold report_failure. by destruct (link (client s)). Qed.

Lemma on_conn_acts {A} (m : eff DriverError Stream A) : acts (on_conn m) m.
Proof. intros s. unfold on_conn, zoom. by destruct (m (conn s)). Qed.

Lemma transport_acts {A} (m : eff DriverError Stream A) : acts (transport m) m.
Proof.
  intros s. unfold transport, handle. destruct (on_conn_acts m s) as (E1 & E2 & E3).
  destruct (on_conn m s) as [[a|e| |] s1]; cbn [fst snd] in *; try done.
  destruct (report_failure_steady s1) as [Hs Hc]. split_and!; [done|by rewrite Hc|by eapply steady_trans].
Qed.

Lemma observed_acts {A} (m : eff DriverError Stream A) : acts (observed m) m.
Proof.
  intros s. unfold observed, mbind, eff_bind. destruct (transport_acts m s) as (E1 & E2 & E3).
  destruct (transport m s) as [[a|e| |] s1]; cbn [fst snd] in *; try done.
  destruct (report_round_trip_steady s1) as [Hs Hc]. cbn. split_and!; [done|by rewrite Hc|by eapply steady_trans].
Qed.

Lemma acts_step {A} (m : session A) t s r c :
  acts m t -> t (conn s) = (r, c) -> exists s', m s = (r, s') /\ conn s' = c /\ steady s s'.
Proof.
  intros Hm Ht. destruct (Hm s) as (E1 & E2 & E3). rewrite Ht in E1, E2. exists (m s).2.
  cbn [fst snd] in *. subst r c. by destruct (m s).
Qed.

Lemma acts_done {A} (m : session A) t s r s' :
  acts m t -> m s = (r, s') -> t (conn s) = (r, conn s') /\ steady s s'.
Proof.
  intros Hm Em. destruct (Hm s) as (E1 & E2 & E3). rewrite Em in *. cbn [fst snd] in *. subst r.
  rewrite E2. by destruct (t (conn s)).
Qed.

(** ** One exchange *)

Lemma exchange_Ok request t payload t' :
  exchange request t = (Ok payload, t') ->
  t.(st_in) = frame payload ++ t'.(st_in) /\ t'.(st_sent) = t.(st_sent) ++ frame request
  /\ len payload <= MAX_FRAME_LEN.
Proof.
  intros ([] & t1 & [E1 _]%send_Ok & (E2 & Hl & E3)%recv_Ok)%bind_done.
  rewrite E3, E1 in *. cbn [st_sent st_in after_read after_write] in *. done.
Qed.

Lemma exchange_done request payload l n t :
  len request <= MAX_FRAME_LEN -> len payload <= MAX_FRAME_LEN ->
  keen (length (frame request) + S n) t.(st_out) -> t.(st_in) = frame payload ++ l ->
  exists out, exchange request t = (Ok payload, after_read l (after_write out (frame request) t)) /\ keen n out.
Proof.
  intros Hr Hp Hk Hin. destruct (send_done request n t Hr Hk) as (out & E & Ho). exists out. split; [|done].
  unfold exchange. rewrite (bind_step _ _ _ _ _ E). by apply (recv_frame payload).
Qed.

(** What may be on the wire of a request that did not get through. *)
Lemma send_prefix request t :
  exists part, (send request t).2.(st_sent) = t.(st_sent) ++ part /\ part `prefix_of` frame request
               /\ (send request t).2.(st_in) = t.(st_in).
Proof.
  unfold send. destruct (Z.le_gt_cases (len request) MAX_FRAME_LEN) as [Hl|Hl].
  - pose proof (write_frame_sends (st_out t) request Hl) as Hx.
    destruct (write_frame (st_out t) request) as [[r sent] out]. destruct Hx as [Hp _].
    exists sent. by destruct r.
  - exists []. unfold write_frame. rewrite (proj2 (Z.ltb_lt _ _)) by lia. cbn.
    split_and!; [by rewrite app_nil_r|apply prefix_nil|done].
Qed.

Lemma exchange_prefix request t :
  exists part, (exchange request t).2.(st_sent) = t.(st_sent) ++ part /\ part `prefix_of` frame request.
Proof.
  destruct (send_prefix request t) as (part & E & Hp & _). exists part. split; [|done].
  unfold exchange, mbind, eff_bind. destruct (send request t) as [[[]| | |] t1] eqn:Es; cbn [snd] in *; try done.
  rewrite <- E. unfold recv. by destruct (read_frame (st_in t1)) as [[]|[]| |].
Qed.

Lemma response_of_acts payload : acts (response_of payload) (fun t =>
  (match map_err Proto (decode_response payload) with
   | Ok (Error msg) => Err (Server msg)
   | r => r end, t)).
Proof.
  intros s. unfold response_of, mbind, eff_bind, of_res.
  by destruct (decode_response payload) as [[]|e| |]; cbn.
Qed.

(** A request, and the response to it. *)
Definition answered (request : bytes) : eff DriverError Stream Response := fun t =>
  match exchange request t with
  | (Ok payload, t) =>
      (match map_err Proto (decode_response payload) with
       | Ok (Error msg) => Err (Server msg)
       | r => r end, t)
  | (Err e, t) => (Err e, t)
  | (Panic, t) => (Panic, t)
  | (OutOfFuel, t) => (OutOfFuel, t)
  end.

Lemma acts_answered request :
  acts (payload ← observed (exchange request); response_of payload) (answered request).
Proof.
  intros s. destruct (observed_acts (exchange request) s) as (E1 & E2 & E3).
  unfold answered. unfold mbind, eff_bind. destruct (observed (exchange request) s) as [r1 s1].
  destruct (exchange request (conn s)) as [r t]. cbn [fst snd] in *. subst r1 t.
  destruct r as [payload|e| |]; try done.
  destruct (response_of_acts payload s1) as (F1 & F2 & F3).
  split_and!; [done|done|by eapply steady_trans].
Qed.

Lemma try_execute_acts sql k :
  acts (try_execute sql k) (answered (request_encode {| r_sql := sql; r_consistency := k |})).
Proof. apply acts_answered. Qed.

Lemma roundtrip_acts q : acts (roundtrip q) (answered (encode_request q)).
Proof. apply acts_answered. Qed.

Lemma answered_Ok request t r t' :
  answered request t = (Ok r, t') ->
  exists payload, decode_response payload = Ok r /\ t.(st_in) = frame payload ++ t'.(st_in)
    /\ t'.(st_sent) = t.(st_sent) ++ frame request.
Proof.
  unfold answered. destruct (exchange request t) as [[payload|e| |] t1] eqn:E; try done.
  intros [= Hr <-]. apply exchange_Ok in E as (Hin & Hs & _). exists payload. split_and!; try done.
  by destruct (decode_response payload) as [[]|e| |]; try (injection Hr as <-).
Qed.

Lemma answered_prefix request t :
  exists part, (answered request t).2.(st_sent) = t.(st_sent) ++ part /\ part `prefix_of` frame request.
Proof.
  destruct (exchange_prefix request t) as (part & E & Hp). exists part. split; [|done].
  unfold answered. by destruct (exchange request t) as [[]].
Qed.

(** An answer that is there is given back. *)
Lemma answered_done request r l n t :
  len request <= MAX_FRAME_LEN -> len (encode_response r) <= MAX_FRAME_LEN ->
  decode_response (encode_response r) = Ok r ->
  keen (length (frame request) + S n) t.(st_out) -> t.(st_in) = frame (encode_response r) ++ l ->
  exists out, answered request t
    = (match r with Error msg => Err (Server msg) | r => Ok r end,
       after_read l (after_write out (frame request) t)) /\ keen n out.
Proof.
  intros Hq Hr Hd Hk Hin. destruct (exchange_done request _ l n t Hq Hr Hk Hin) as (out & E & Ho).
  exists out. split; [|done]. unfold answered. rewrite E, Hd. by destruct r.
Qed.

(** ** Re-dialing *)

Lemma observe_statement_steady sql s :
  steady s (observe_statement sql s).2 /\ conn (observe_statement sql s).2 = conn s.
Proof.
  unfold observe_statement. destruct (link (client s)) as [l|]; [|done]. destruct (_ && _); [|done].
  by destruct (is_write sql) as [[]|[]| |].
Qed.

(** The frames a re-dialed connection starts with, after its greeting. *)
Definition replay (c : Client) : bytes :=
  match c.(database) with
  | Some db => frame (encode_request (Query (use_sql db) c.(default_consistency)))
  | None => []
  end ++
  (if c.(scan_budget_rows) =? 0 then []
   else frame (encode_request (Query (budget_sql c.(scan_budget_rows)) c.(default_consistency)))).

Lemma recv_sent t : (recv t).2.(st_sent) = t.(st_sent).
Proof. unfold recv. by destruct (read_frame (st_in t)) as [[]|[]| |]. Qed.

Lemma send_hello_done s :
  exists s' part, send_hello s = (Ok tt, s') /\ steady s s' /\ part `prefix_of` frame hello
    /\ (conn s').(st_sent) = (conn s).(st_sent) ++ part.
Proof.
  unfold send_hello. destruct (send_prefix hello (conn s)) as (part & Ep & Hp & _).
  destruct (on_conn_acts (send hello) s) as (E1 & E2 & E3). pose proof (send_safe hello (conn s)) as Hs.
  unfold mbind at 1, eff_bind at 1. unfold attempt at 1.
  destruct (on_conn (send hello) s) as [r s1]. cbn [fst snd] in *. subst r.
  destruct (send hello (conn s)) as [[[]|e| |] t1]; try done; cbn [fst snd] in *; subst t1.
  - destruct (on_conn_acts recv s1) as (F1 & F2 & F3). pose proof (recv_safe (conn s1)) as Hr.
    pose proof (recv_sent (conn s1)) as Hrs. unfold mbind, eff_bind, attempt.
    destruct (on_conn recv s1) as [r s2]. cbn [fst snd] in *. subst r.
    exists s2, part. rewrite F2, Hrs, Ep. destruct (recv (conn s1)) as [[]]; try done;
      (split_and!; [done|by eapply steady_trans|done|done]).
  - exists s1, part. rewrite Ep. done.
Qed.

Lemma apply_database_Ok s s' :
  apply_database s = (Ok tt, s') ->
  steady s s' /\ (conn s').(st_sent) = (conn s).(st_sent) ++
    match (client s).(database) with
    | Some db => frame (encode_request (Query (use_sql db) (client s).(default_consistency)))
    | None => []
    end.
Proof.
  unfold apply_database. intros (c & s1 & [= <- <-] & Hd)%bind_done. unfold id in Hd.
  destruct (database (client s)) as [db|]; [|injection Hd as <-; by rewrite app_nil_r].
  apply bind_done in Hd as (r & s2 & Hd & [= <-]). apply (acts_done _ _ _ _ _ (roundtrip_acts _)) in Hd as [Hd Hs].
  apply answered_Ok in Hd as (_ & _ & _ & Hd). done.
Qed.

Lemma apply_scan_budget_Ok s s' :
  apply_scan_budget s = (Ok tt, s') ->
  steady s s' /\ (conn s').(st_sent) = (conn s).(st_sent) ++
    (if (client s).(scan_budget_rows) =? 0 then []
     else frame (encode_request (Query (budget_sql (client s).(scan_budget_rows)) (client s).(default_consistency)))).
Proof.
  unfold apply_scan_budget. intros (c & s1 & [= <- <-] & Hd)%bind_done. unfold id in Hd.
  destruct (_ =? 0); [injection Hd as <-; by rewrite app_nil_r|].
  apply bind_done in Hd as (r & s2 & Hd & [= <-]). apply (acts_done _ _ _ _ _ (roundtrip_acts _)) in Hd as [Hd Hs].
  apply answered_Ok in Hd as (_ & _ & _ & Hd). done.
Qed.

(** A round trip comes back, with an answer or an error. *)
Lemma response_returns payload : len payload <= MAX_FRAME_LEN -> returns (decode_response payload).
Proof. intros Hl. apply run_returns; [by apply frame_slice|apply read_response_total]. Qed.

Lemma answered_safe request : safe (answered request).
Proof.
  intros t. unfold answered, exchange. unfold mbind, eff_bind.
  pose proof (send_safe request t) as Hs. destruct (send request t) as [[[]|e| |] t1]; try done.
  pose proof (recv_safe t1) as Hr. destruct (recv t1) as [[payload|e| |] t2] eqn:E; try done.
  apply recv_Ok in E as (_ & Hl & _). pose proof (response_returns payload Hl) as Hd.
  by destruct (decode_response payload) as [[]|e| |].
Qed.

Lemma acts_safe {A} (m : session A) t : acts m t -> safe t -> safe m.
Proof. intros Hm Ht s. destruct (Hm s) as (E & _). rewrite E. apply Ht. Qed.

Lemma roundtrip_safe q : safe (roundtrip q : session Response).
Proof. eapply acts_safe; [apply roundtrip_acts|apply answered_safe]. Qed.

Lemma try_execute_safe sql k : safe (try_execute sql k : session Response).
Proof. eapply acts_safe; [apply try_execute_acts|apply answered_safe]. Qed.

Lemma apply_database_back : safe (apply_database : session unit).
Proof.
  apply safe_bind'; [done|]. intros c. destruct (database c); [|done].
  apply safe_bind'; [apply roundtrip_safe|done].
Qed.

Lemma apply_scan_budget_back : safe (apply_scan_budget : session unit).
Proof.
  apply safe_bind'; [done|]. intros c. destruct (_ =? 0); [done|]. apply safe_bind'; [apply roundtrip_safe|done].
Qed.

(** What a re-dial leaves: the old connection as it was, the new one with the
    greeting and the session's settings on it, and the settings unchanged. *)
Definition redialed (s s' : Session P) (ordered : list bytes) (ep : bytes) (t : Stream) : Prop :=
  s'.(dropped) = s.(dropped) ++ [conn s]
  /\ s'.(client).(endpoints) = ordered /\ s'.(client).(connected) = ep
  /\ s'.(client).(credentials) = s.(client).(credentials)
  /\ s'.(client).(default_consistency) = s.(client).(default_consistency)
  /\ s'.(client).(database) = s.(client).(database)
  /\ s'.(client).(scan_budget_rows) = s.(client).(scan_budget_rows)
  /\ exists greeting, greeting `prefix_of` frame hello
       /\ (conn s').(st_sent) = t.(st_sent) ++ greeting ++ replay s.(client).

(** The state in which the settings are replayed. *)
Lemma settle_start ordered ep t s :
  exists s3 greeting,
    settle ordered ep t s = (_ ← apply_database; apply_scan_budget) s3
    /\ greeting `prefix_of` frame hello /\ (conn s3).(st_sent) = t.(st_sent) ++ greeting
    /\ s3.(dropped) = s.(dropped) ++ [conn s]
    /\ s3.(client).(endpoints) = ordered /\ s3.(client).(connected) = ep
    /\ s3.(client).(credentials) = s.(client).(credentials)
    /\ s3.(client).(default_consistency) = s.(client).(default_consistency)
    /\ s3.(client).(database) = s.(client).(database)
    /\ s3.(client).(scan_budget_rows) = s.(client).(scan_budget_rows)
    /\ s3.(world) = s.(world).
Proof.
  unfold settle. do 3 (erewrite bind_step by reflexivity).
  match goal with |- context [(send_hello ≫= _) ?s1] => set (s2 := s1) end.
  assert (Hc : conn s2 = t /\ dropped s2 = dropped s ++ [conn s]
    /\ endpoints (client s2) = ordered /\ connected (client s2) = ep
    /\ credentials (client s2) = credentials (client s)
    /\ default_consistency (client s2) = default_consistency (client s)
    /\ database (client s2) = database (client s)
    /\ scan_budget_rows (client s2) = scan_budget_rows (client s) /\ world s2 = world s).
  { unfold s2, report_moved. cbn [link client drop_stream with_client with_connected].
    destruct (link (client s)); [|done]. by destruct (pool_moved _ _ _). }
  clearbody s2. destruct Hc as (Ht & Hd & He & Hcn & Hcr & Hk & Hdb & Hb & Hw).
  destruct (send_hello_done s2) as (s3 & part & E & (Ew & Ed & Ee & Ecr & Ec & Ek & Edb & Eb) & Hp & Hs).
  exists s3, part. rewrite (bind_step _ _ _ _ _ E). by split_and!; try congruence.
Qed.

Lemma settle_Ok ordered ep t s s' :
  settle ordered ep t s = (Ok tt, s') -> redialed s s' ordered ep t.
Proof.
  destruct (settle_start ordered ep t s) as (s3 & part & -> & Hp & Hs & Hd & He & Hc & Hcr & Hk & Hdb & Hb & Hw).
  intros ([] & s4 & [(Ew & Ed & Ee & Ecr & Ec & Ek & Edb & Eb) Hs4]%apply_database_Ok
    & [(Fw & Fd & Fe & Fcr & Fc & Fk & Fdb & Fb) Hs5]%apply_scan_budget_Ok)%bind_done.
  unfold redialed, replay. split_and!; try congruence. exists part. split; [done|].
  rewrite Hs5, Hs4, Hs, Eb, Ek, Hb, Hk, Hdb. by rewrite <- !app_assoc.
Qed.

(** Until a member is reached, a re-dial leaves the session as it is. *)
Lemma redial_Ok ordered eps last s s' :
  redial kerberos gss_new gss_step sha384 sha512 ordered eps last s = (Ok tt, s') ->
  exists s1 ep w t,
    s1.(client) = s.(client) /\ s1.(dropped) = s.(dropped) /\ ep ∈ eps
    /\ (dial ep s.(client).(credentials) w).1 = Ok t /\ redialed s1 s' ordered ep t.
Proof.
  revert last s. induction eps as [|ep eps IH]; intros last s; cbn [redial]; [done|].
  intros (c & s1 & [= <- <-] & ([t|e] & s2 & Hd%attempt_done & Hx)%bind_done)%bind_done; unfold id in Hd.
  - unfold dial_member, in_world, zoom in Hd.
    destruct (dial ep (credentials (client s)) (world s)) as [r w] eqn:Ed. injection Hd as -> <-.
    exists (with_world w s), ep, (world s), t. split_and!; [done|done|by left|by rewrite Ed|by apply settle_Ok].
  - unfold dial_member, in_world, zoom in Hd.
    destruct (dial ep (credentials (client s)) (world s)) as [r w] eqn:Ed. injection Hd as -> <-.
    apply bind_done in Hx as ([] & s3 & [= <-] & Hx).
    set (s3 := report_dial ep e (with_world w s)) in *.
    assert (H3 : client s3 = client s /\ dropped s3 = dropped s).
    { unfold s3, report_dial. destruct (link _); [|done]. by destruct (member_fault e). }
    destruct H3 as [Hc3 Hd3].
    destruct (IH _ _ Hx) as (s4 & ep' & w' & t & Hc & Hdr & Hin & Hdial & Hr).
    exists s4, ep', w', t. rewrite Hc3, Hd3 in *. split_and!; try done. by right.
Qed.

Lemma redial_order_keeps s eps s' :
  redial_order s = (Ok eps, s') -> s'.(client) = s.(client) /\ s'.(dropped) = s.(dropped).
Proof.
  unfold redial_order. intros (c & s1 & [= <- <-] & Hx)%bind_done. unfold id in Hx.
  destruct (link (client s)).
  - unfold pooled_order in Hx. destruct (pool_dial_order _ _ _). by injection Hx as _ <-.
  - apply bind_done in Hx as (l & s2 & Hp & [= _ <-]). unfold probed_order, in_world, zoom in Hp.
    destruct (probed _ _). by injection Hp as _ <-.
Qed.

Lemma reconnect_Ok s s' :
  reconnect s = (Ok tt, s') ->
  exists s1 ordered ep w t,
    s1.(client) = s.(client) /\ s1.(dropped) = s.(dropped) /\ ep ∈ ordered
    /\ (dial ep s.(client).(credentials) w).1 = Ok t /\ redialed s1 s' ordered ep t.
Proof.
  intros (ordered & s0 & Ho & Hr)%bind_done. apply redial_order_keeps in Ho as [Hc Hd].
  destruct (redial_Ok _ _ _ _ _ Hr) as (s1 & ep & w & t & Hc1 & Hd1 & Hin & Hdial & Hrd).
  exists s1, ordered, ep, w, t. rewrite Hc1, Hd1, Hc in *. by split_and!.
Qed.

(** A statement that fails over and one that does not. *)
Lemma retrying_Ok {A} (m : session A) s a s' :
  retrying kerberos gss_new gss_step sha384 sha512 m m s = (Ok a, s') ->
  m s = (Ok a, s')
  \/ exists e s1 s2, m s = (Err (Io e), s1) /\ reconnect s1 = (Ok tt, s2) /\ m s2 = (Ok a, s').
Proof.
  intros [Hx|(e & s1 & Hm & Hx)]%handle_done; [by left|]. destruct e; try done.
  apply bind_done in Hx as ([] & s2 & Hr & Hx). right. by eexists _, s1, s2.
Qed.

(** ** Pipelining *)

(** The frames of a batch, in order. *)
Definition batch_frames (i : Z) (stmts : list bytes) (k : Consistency) : bytes :=
  concat (imap (fun j sql => frame (encode_tagged_request (wrap 32 (i + Z.of_nat j)) (Query sql k) [])) stmts).

Lemma batch_frames_cons i sql stmts k :
  batch_frames i (sql :: stmts) k
  = frame (encode_tagged_request (wrap 32 i) (Query sql k) []) ++ batch_frames (i + 1) stmts k.
Proof.
  unfold batch_frames. cbn [imap concat]. rewrite Z.add_0_r. do 2 f_equal. apply imap_ext. intros j x _.
  unfold compose. by replace (i + Z.of_nat (S j)) with (i + 1 + Z.of_nat j) by lia.
Qed.

Lemma send_all_Ok i stmts k s s' :
  send_all i stmts k s = (Ok tt, s') ->
  steady s s' /\ (conn s').(st_in) = (conn s).(st_in)
  /\ (conn s').(st_sent) = (conn s).(st_sent) ++ batch_frames i stmts k.
Proof.
  revert i s. induction stmts as [|sql stmts IH]; intros i s; cbn [send_all].
  { intros [= <-]. by rewrite app_nil_r. }
  intros ([] & s1 & Hs & Hx)%bind_done.
  apply (acts_done _ _ _ _ _ (transport_acts _)) in Hs as [[E _]%send_Ok Hst].
  destruct (IH _ _ Hx) as (Hst' & Hin & Hsent). rewrite Hin, Hsent, E, batch_frames_cons.
  cbn [st_in st_sent after_write]. rewrite <- app_assoc. split_and!; [by eapply steady_trans|done|done].
Qed.

(** Responses put in their slots, one after another. *)
Fixpoint filled (out : list (option Response)) (arrivals : list (Z * Response))
    (out' : list (option Response)) : Prop :=
  match arrivals with
  | [] => out' = out
  | (id, r) :: arrivals => exists out1, put_slot out id r = Some out1 /\ filled out1 arrivals out'
  end.

Definition nones (out : list (option Response)) : nat :=
  length (List.filter (fun x => match x with None => true | Some _ => false end) out).

Lemma put_slot_Some out id r out1 :
  put_slot out id r = Some out1 -> out !! Z.to_nat id = Some None /\ out1 = <[Z.to_nat id := Some r]> out.
Proof. unfold put_slot. destruct (out !! Z.to_nat id) as [[x|]|]; try done. by intros [= <-]. Qed.

Lemma nones_put (out : list (option Response)) i r :
  out !! i = Some None -> nones out = S (nones (<[i := Some r]> out)).
Proof.
  unfold nones. revert i. induction out as [|x out IH]; intros [|i]; cbn; try done.
  - by intros [= ->].
  - intros Hi. destruct x; cbn; by rewrite (IH i Hi).
Qed.

Lemma filled_count out arrivals out' :
  filled out arrivals out' -> length out' = length out /\ nones out = (length arrivals + nones out')%nat.
Proof.
  revert out. induction arrivals as [|[id r] arrivals IH]; intros out; cbn [filled]; [by intros ->|].
  intros (out1 & [Hl ->]%put_slot_Some & Hf). destruct (IH _ Hf) as [E1 E2]. rewrite length_insert in E1.
  split; [done|]. rewrite (nones_put _ _ r Hl), E2. done.
Qed.

Lemma filled_lookup out arrivals out' i r :
  filled out arrivals out' ->
  out' !! i = Some (Some r) <-> out !! i = Some (Some r) \/ exists id, Z.to_nat id = i /\ (id, r) ∈ arrivals.
Proof.
  revert out. induction arrivals as [|[id r0] arrivals IH]; intros out; cbn [filled].
  { intros ->. split; [by left|]. by intros [?|(? & _ & []%elem_of_nil)]. }
  intros (out1 & [Hl ->]%put_slot_Some & Hf). rewrite (IH _ Hf).
  destruct (decide (Z.to_nat id = i)) as [<-|Hne].
  - rewrite list_lookup_insert_eq by by eapply lookup_lt_Some. split.
    + intros [[= <-]|(id' & E & Hin)]; right; [exists id|exists id']; rewrite elem_of_cons; auto.
    + rewrite Hl. intros [[=]|(id' & E & [[= -> ->]|Hin]%elem_of_cons)]; [by left|right; eauto].
  - rewrite list_lookup_insert_ne by done. split.
    + intros [?|(id' & E & Hin)]; [by left|right; exists id'; rewrite elem_of_cons; auto].
    + intros [?|(id' & E & [[= -> ->]|Hin]%elem_of_cons)]; [by left|done|right; eauto].
Qed.

Lemma all_seen_full out : nones out = 0%nat -> exists rs, all_seen out = Ok rs /\ out = map Some rs.
Proof.
  induction out as [|[r|] out IH]; cbn; [by exists []| |done].
  intros Hn. destruct (IH Hn) as (rs & -> & ->). by exists (r :: rs).
Qed.

Lemma decode_tagged_id payload id r : decode_tagged_response payload = Ok (Some id, r) -> 0 <= id.
Proof.
  unfold decode_tagged_response. destruct (decide _).
  - destruct (_ <? 6)%nat; [done|]. intros Hx. inv_ok. injection E as <-. apply le_val_range.
  - intros Hx. inv_ok. done.
Qed.

Lemma recv_step_acts (first : bool) : acts (if first then observed recv else transport recv : session bytes) recv.
Proof. destruct first; [apply observed_acts|apply transport_acts]. Qed.

Lemma recv_all_Ok n first out s out' s' :
  recv_all n first out s = (Ok out', s') ->
  exists payloads arrivals,
    length arrivals = n /\ filled out arrivals out'
    /\ (conn s).(st_in) = concat (map frame payloads) ++ (conn s').(st_in)
    /\ map decode_tagged_response payloads = map (fun a => Ok (Some a.1, a.2)) arrivals
    /\ Forall (fun a => 0 <= a.1) arrivals
    /\ steady s s' /\ (conn s').(st_sent) = (conn s).(st_sent).
Proof.
  revert first out s. induction n as [|n IH]; intros first out s; cbn [recv_all].
  { intros [= <- <-]. by exists [], []. }
  intros (payload & s1 & Hr & Hx)%bind_done.
  apply (acts_done _ _ _ _ _ (recv_step_acts first)) in Hr as [(Hin & _ & Et)%recv_Ok Hs1].
  apply bind_done in Hx as ([id r] & s2 & Hd & Hx). unfold of_res in Hd.
  destruct (decode_tagged_response payload) as [[id' r']|e| |] eqn:Ed; try done. injection Hd as -> -> <-.
  destruct id as [id|]; [|done]. destruct (put_slot out id r) as [out1|] eqn:Ep; [|done].
  destruct (IH _ _ _ Hx) as (ps & arr & Hl & Hf & Hin' & Hm & Hpos & Hst & Hsent).
  exists (payload :: ps), ((id, r) :: arr). split_and!.
  - cbn. by rewrite Hl.
  - by exists out1.
  - cbn [map concat]. rewrite <- app_assoc, <- Hin'. exact Hin.
  - cbn [map]. by rewrite Hm, Ed.
  - constructor; [by eapply decode_tagged_id|done].
  - by eapply steady_trans.
  - rewrite Hsent, Et. done.
Qed.

Lemma nones_replicate n : nones (replicate n None) = n.
Proof. unfold nones. induction n as [|n IH]; [done|]. cbn. by rewrite IH. Qed.

Lemma send_all_back i stmts k : safe (send_all i stmts k : session unit).
Proof.
  revert i. induction stmts as [|sql stmts IH]; intros i; cbn [send_all]; [done|].
  apply safe_bind'; [eapply acts_safe; [apply transport_acts|apply send_safe]|]. intros []. apply IH.
Qed.

Lemma decode_tagged_returns payload :
  len payload <= MAX_FRAME_LEN -> returns (decode_tagged_response payload).
Proof.
  intros Hl. unfold decode_tagged_response.
  assert (Hd : len (drop 5 payload) <= MAX_FRAME_LEN) by (unfold len in *; rewrite length_drop; lia).
  pose proof (response_returns _ Hl) as H1. pose proof (response_returns _ Hd) as H2.
  destruct (decide _).
  - destruct (_ <? 6)%nat; [done|]. by destruct (decode_response (drop 5 payload)).
  - by destruct (decode_response payload).
Qed.

Lemma recv_all_back n first out : safe (recv_all n first out : session _).
Proof.
  revert first out. induction n as [|n IH]; intros first out; cbn [recv_all]; [done|].
  apply safe_bind; [eapply acts_safe; [apply recv_step_acts|apply recv_safe]|].
  intros payload s s1 Hr. apply (acts_done _ _ _ _ _ (recv_step_acts first)) in Hr as [(_ & Hl & _)%recv_Ok _].
  revert s1. apply safe_bind'.
  - apply safe_of_res, returns_map_err. by apply decode_tagged_returns.
  - intros [[id|] r]; [|done]. destruct (put_slot out id r); [apply IH|done].
Qed.

(** The [expect] at the end never fires. *)
Lemma try_pipeline_back stmts k : safe (try_pipeline stmts k : session _).
Proof.
  apply safe_bind'; [apply send_all_back|]. intros []. apply safe_bind; [apply recv_all_back|].
  intros out s s1 (ps & arr & Hl & [_ Hc]%filled_count & _)%recv_all_Ok. rewrite nones_replicate in Hc.
  destruct (all_seen_full out ltac:(lia)) as (rs & E & _). unfold of_res. by rewrite E.
Qed.

Lemma transport_link {A} (m : eff DriverError Stream A) s :
  link (client s) = None -> link (client (transport m s).2) = None.
Proof.
  intros Hl. unfold transport, handle, on_conn, zoom. destruct (m (conn s)) as [[]]; cbn; try done.
  unfold report_failure. cbn. by rewrite Hl.
Qed.

Lemma observed_link {A} (m : eff DriverError Stream A) s :
  link (client s) = None -> link (client (observed m s).2) = None.
Proof.
  intros Hl. pose proof (transport_link m s Hl) as Ht. unfold observed, mbind, eff_bind.
  destruct (transport m s) as [[a|e| |] s1]; try done. cbn. unfold report_round_trip.
  cbn [snd] in Ht. by rewrite Ht.
Qed.

Lemma answered_link request s :
  link (client s) = None ->
  link (client ((payload ← observed (exchange request); response_of payload) s : _ * Session P).2) = None.
Proof.
  intros Hl. pose proof (observed_link (exchange request) s Hl) as Ho. unfold mbind, eff_bind.
  destruct (observed _ s) as [[p|e| |] s1]; cbn [snd] in Ho; try done.
  unfold response_of, mbind, eff_bind, of_res. by destruct (map_err Proto (decode_response p)) as [[]| | |].
Qed.

Lemma roundtrip_link q s : link (client s) = None -> link (client (roundtrip q s).2) = None.
Proof. apply answered_link. Qed.

Lemma try_execute_link sql k s r s' :
  try_execute sql k s = (r, s') -> link (client s) = None -> link (client s') = None.
Proof.
  intros E Hl. pose proof (answered_link (request_encode {| r_sql := sql; r_consistency := k |}) s Hl) as Hx.
  unfold try_execute in E. by rewrite E in Hx.
Qed.

Lemma send_all_link i stmts k s s' :
  send_all i stmts k s = (Ok tt, s') -> link (client s) = None -> link (client s') = None.
Proof.
  revert i s. induction stmts as [|sql stmts IH]; intros i s; cbn [send_all]; [by intros [= <-]|].
  intros ([] & s1 & Hs & Hx)%bind_done Hl. apply (IH _ _ Hx).
  pose proof (transport_link (send (encode_tagged_request (wrap 32 i) (Query sql k) [])) s Hl) as Ht.
  by rewrite Hs in Ht.
Qed.

(** A step that succeeds, on a connection outside any pool. *)
Lemma observed_done {A} (m : eff DriverError Stream A) s a t :
  link (client s) = None -> m (conn s) = (Ok a, t) ->
  exists s', observed m s = (Ok a, s') /\ conn s' = t /\ link (client s') = None.
Proof.
  intros Hl Hm. destruct (acts_step _ _ _ _ _ (observed_acts m) Hm) as (s' & E & Hc & _).
  exists s'. pose proof (observed_link m s Hl) as Ho. by rewrite E in Ho.
Qed.

(** ** Requests that reach a server that answers *)

Lemma send_all_done i stmts k n s :
  Forall (fun sql => forall j, len (encode_tagged_request j (Query sql k) []) <= MAX_FRAME_LEN) stmts ->
  keen (length (batch_frames i stmts k) + length stmts + n) (conn s).(st_out) ->
  exists s', send_all i stmts k s = (Ok tt, s') /\ steady s s' /\ (conn s').(st_in) = (conn s).(st_in)
             /\ keen n (conn s').(st_out).
Proof.
  intros Hf. revert i s. induction Hf as [|sql stmts Hsql Hf IH]; intros i s Hk; cbn [send_all].
  { exists s. split_and!; [done|done|done|]. eapply keen_weaken; [exact Hk|cbn; lia]. }
  rewrite batch_frames_cons, length_app in Hk. cbn [length] in Hk.
  destruct (send_done (encode_tagged_request (wrap 32 i) (Query sql k) [])
              (length (batch_frames (i + 1) stmts k) + length stmts + n) (conn s) (Hsql _)) as (out & E & Ho).
  { eapply keen_weaken; [exact Hk|]. lia. }
  destruct (acts_step _ _ _ _ _ (transport_acts _) E) as (s1 & E1 & Hc & Hst).
  destruct (IH (i + 1) s1) as (s2 & E2 & Hst2 & Hin & Ho2); [by rewrite Hc|].
  exists s2. rewrite (bind_step _ _ _ _ _ E1). split_and!; [done|by eapply steady_trans|by rewrite Hin, Hc|done].
Qed.

(** A statement whose answer is the next frame. *)
Lemma execute_answered sql k r l s n :
  s.(client).(link) = None ->
  len (request_encode {| r_sql := sql; r_consistency := k |}) <= MAX_FRAME_LEN ->
  len (encode_response r) <= MAX_FRAME_LEN -> decode_response (encode_response r) = Ok r ->
  keen (length (frame (request_encode {| r_sql := sql; r_consistency := k |})) + S n) (conn s).(st_out) ->
  (conn s).(st_in) = frame (encode_response r) ++ l ->
  exists s', execute_with kerberos gss_new gss_step sha384 sha512 sql k s
    = (match r with Error msg => Err (Server msg) | r => Ok r end, s')
    /\ steady s s' /\ (conn s').(st_in) = l
    /\ (conn s').(st_sent) = (conn s).(st_sent) ++ frame (request_encode {| r_sql := sql; r_consistency := k |}).
Proof.
  intros Hl Hq Hr Hd Hk Hin. destruct (answered_done _ r l n (conn s) Hq Hr Hd Hk Hin) as (out & E & _).
  destruct (acts_step _ _ _ _ _ (try_execute_acts sql k) E) as (s1 & E1 & Hc & Hst).
  assert (Hl1 : link (client s1) = None) by by eapply try_execute_link.
  exists s1. split; [|by rewrite Hc]. unfold execute_with, retrying, handle, mbind, eff_bind. rewrite E1.
  destruct r; try (by unfold observe_statement; rewrite Hl1); done.
Qed.

(** ** Properties *)

(** C5: a statement that succeeds was sent once, in full, on the connection its
    response came from, after everything sent there before; when that is a
    new connection, reached by a dial with the session's own credentials, the
    statement follows the greeting and the session's database and scan
    budget, and the connection it replaces had carried at most one copy more,
    possibly cut short. *)
Theorem statement_sent_at_most_twice sql k s r s' :
  execute_with kerberos gss_new gss_step sha384 sha512 sql k s = (Ok r, s') ->
  let q := frame (request_encode {| r_sql := sql; r_consistency := k |}) in
  (s'.(dropped) = s.(dropped) /\ (conn s').(st_sent) = (conn s).(st_sent) ++ q)
  \/ exists first part t ep w greeting,
       s'.(dropped) = s.(dropped) ++ [first]
       /\ first.(st_sent) = (conn s).(st_sent) ++ part /\ part `prefix_of` q
       /\ (dial ep s.(client).(credentials) w).1 = Ok t
       /\ greeting `prefix_of` frame hello
       /\ (conn s').(st_sent) = t.(st_sent) ++ greeting ++ replay s.(client) ++ q.
Proof.
  unfold execute_with. intros (r0 & s0 & Hx & ([] & s1 & Ho & [= <- <-])%bind_done)%bind_done.
  destruct (observe_statement_steady sql s0) as [(_ & Hd & _) Hc]. rewrite Ho in Hd, Hc. cbn [snd] in Hd, Hc.
  rewrite Hd, Hc. clear Ho Hd Hc. apply retrying_Ok in Hx as [Hx|(e & s1' & s2 & Hf & Hr & Hx)].
  - left. apply (acts_done _ _ _ _ _ (try_execute_acts sql k)) in Hx as [Hx Hs].
    apply answered_Ok in Hx as (_ & _ & _ & Hx). destruct Hs as (_ & Hd & _). done.
  - right. apply (acts_done _ _ _ _ _ (try_execute_acts sql k)) in Hf as [Hf Hs1].
    apply (acts_done _ _ _ _ _ (try_execute_acts sql k)) in Hx as [Hx Hs2].
    apply answered_Ok in Hx as (_ & _ & _ & Hx).
    destruct (answered_prefix (request_encode {| r_sql := sql; r_consistency := k |}) (conn s)) as (part & Ep & Hp).
    rewrite Hf in Ep. cbn [snd] in Ep.
    destruct (reconnect_Ok _ _ Hr) as (s3 & ordered & ep & w & t & Hc3 & Hd3 & _ & Hdial & Hrd).
    destruct Hrd as (Hd & _ & _ & _ & _ & _ & _ & greeting & Hg & Hsent).
    destruct Hs1 as (_ & Hd1 & _ & Hcr & _ & Hk & Hdb & Hb). destruct Hs2 as (_ & Hd2 & _).
    exists (conn s1'), part, t, ep, w, greeting. split_and!; [congruence|done|done|by rewrite <- Hcr|done|].
    rewrite Hx, Hsent. replace (replay (client s)) with (replay (client s3)); [by rewrite <- !app_assoc|].
    rewrite Hc3. unfold replay. by rewrite Hdb, Hb, Hk.
Qed.


(** C9: pipelining pairs responses with statements by their ids: whatever the
    server sends, a batch that succeeds sent every statement in order and read
    exactly one response frame for each, in any order, and the response given
    back for the [i]th statement is the one tagged [i]; and no batch panics. *)
Theorem pipeline_pairs_by_id stmts k s :
  returns (try_pipeline stmts k s).1
  /\ (forall rs s', try_pipeline stmts k s = (Ok rs, s') ->
      length rs = length stmts
      /\ (conn s').(st_sent) = (conn s).(st_sent) ++ batch_frames 0 stmts k
      /\ exists payloads arrivals,
           (conn s).(st_in) = concat (map frame payloads) ++ (conn s').(st_in)
           /\ map decode_tagged_response payloads = map (fun a => Ok (Some a.1, a.2)) arrivals
           /\ length arrivals = length stmts
           /\ (forall i r, rs !! i = Some r <-> (Z.of_nat i, r) ∈ arrivals)).
Proof.
  split; [apply try_pipeline_back|].
  intros rs s' ([] & s1 & (Hst1 & Hin1 & Hs1)%send_all_Ok & (out & s2 & Hr & Hx)%bind_done)%bind_done.
  destruct (recv_all_Ok _ _ _ _ _ _ Hr) as (ps & arr & Hl & Hf & Hin & Hm & Hpos & Hst & Hsent).
  destruct (filled_count _ _ _ Hf) as [Hlen Hc]. rewrite nones_replicate in Hc. rewrite length_replicate in Hlen.
  destruct (all_seen_full out ltac:(lia)) as (rs' & E & Eo). unfold of_res in Hx. rewrite E in Hx.
  injection Hx as -> <-. subst out. rewrite length_map in Hlen. split_and!; [done|by rewrite Hsent, Hs1|].
  exists ps, arr. split_and!; [by rewrite <- Hin1|done|done|]. intros i r.
  pose proof (filled_lookup _ _ _ i r Hf) as Hfl. rewrite list_lookup_fmap in Hfl.
  transitivity (Some <$> rs !! i = Some (Some r)); [destruct (rs !! i); naive_solver|]. rewrite Hfl.
  rewrite Forall_forall in Hpos. split.
  - intros [[[=] _]%lookup_replicate|(id & <- & Hin')]. specialize (Hpos _ Hin'). cbn in Hpos.
    by rewrite Z2Nat.id.
  - intros Hin'. right. exists (Z.of_nat i). by rewrite Nat2Z.id.
Qed.

End wire.

(** ** Witnesses *)

(** The connection has been closed; the statement is sent again on the next. *)
Definition wit_lost : Session PoolWorld :=
  wit_session (wit_stream []) [wit_peer (wit_answers [Mutation 1])].

Lemma statement_sent_at_most_twice_witness :
  exists s', execute_with false no_gss_new no_gss_step sha256 sha256 (str "DELETE FROM t") Quorum wit_lost
               = (Ok (Mutation 1), s')
             /\ exists first, s'.(dropped) = [first].
Proof.
  destruct (execute_with false no_gss_new no_gss_step sha256 sha256 (str "DELETE FROM t") Quorum wit_lost)
    as [r s'] eqn:E.
  assert (Er : r = Ok (Mutation 1)).
  { change r with (r, s').1. rewrite <- E. vm_compute. reflexivity. }
  rewrite Er in *. exists s'. split; [reflexivity|].
  destruct (statement_sent_at_most_twice false no_gss_new no_gss_step sha256 sha256 _ _ _ _ _ E)
    as [[Hd _]|(first & part & t & ep & w & greeting & Hd & _)].
  - exfalso. assert (Ed : dropped (r, s').2 <> []).
    { rewrite Er, <- E. vm_compute. discriminate. }
    apply Ed. exact Hd.
  - exists first. exact Hd.
Defined.
