(* ===== verification/SessionCalls.v ===== *)
(** * Calls of a session

    Theorems about [Session]: that every call comes back, and what follows a
    call that failed: the answers a refused batch leaves, the database a
    refused [USE] leaves, the strikes of a statement too long to send, and the
    statement ids that outlive their connection. *)
From stdpp Require Import gmap.
From S2P Require Import Prelude Bytes Text Cursor Value Message Frame Handshake Crypto Effect Sql Balancer Login Session SessionSpec.
#[local] Open Scope Z_scope.

(** ** Coming back *)

Section calls.
Context {P : Type} `{Pool P}.
Context {G : Type} (kerberos : bool)
  (gss_new : bytes -> option bytes -> res bytes (G * bytes))
  (gss_step : G -> bytes -> res bytes (ClientStep G))
  (sha384 sha512 : bytes -> bytes).
Abbreviation session A := (eff DriverError (Session P) A).
Abbreviation with_stmt A := (eff DriverError (Session P * Prepared) A).
Abbreviation reconnect := (reconnect kerberos gss_new gss_step sha384 sha512).
Abbreviation dial := (dial kerberos gss_new gss_step sha384 sha512).
Abbreviation execute_with := (execute_with kerberos gss_new gss_step sha384 sha512).
Abbreviation pipeline_with := (pipeline_with kerberos gss_new gss_step sha384 sha512).
Abbreviation prepare := (prepare kerberos gss_new gss_step sha384 sha512).
Abbreviation execute_prepared_with := (execute_prepared_with kerberos gss_new gss_step sha384 sha512).
Abbreviation retrying := (retrying kerberos gss_new gss_step sha384 sha512).
Abbreviation run_call := (run_call kerberos gss_new gss_step sha384 sha512).
Abbreviation run_calls := (run_calls kerberos gss_new gss_step sha384 sha512).
Abbreviation conn s := (s.(client).(stream)).

Implicit Types s : Session P.

Section back.
Hypothesis gss_new_returns : forall spn b, returns (gss_new spn b).
Hypothesis gss_step_returns : forall g t, returns (gss_step g t).

(** Comes back, in a world whose dials still do. *)
Definition back {A} (m : session A) : Prop :=
  forall s, net_ok s.(world) -> returns (m s).1 /\ net_ok (m s).2.(world).

Lemma back_bind {A B} (m : session A) (k : A -> session B) : back m -> (forall a, back (k a)) -> back (m ≫= k).
Proof.
  intros Hm Hk s Hs. destruct (Hm s Hs) as [Hr Hw]. unfold mbind, eff_bind.
  destruct (m s) as [[a|e| |] s1]; try done. by apply Hk.
Qed.

Lemma back_handle {A} (m : session A) h : back m -> (forall e, back (h e)) -> back (handle m h).
Proof.
  intros Hm Hh s Hs. destruct (Hm s Hs) as [Hr Hw]. unfold handle.
  destruct (m s) as [[a|e| |] s1]; try done. by apply Hh.
Qed.

Lemma back_attempt {A} (m : session A) : back m -> back (attempt m).
Proof. intros Hm s Hs. destruct (Hm s Hs) as [Hr Hw]. unfold attempt. by destruct (m s) as [[a|e| |] s1]. Qed.

Lemma back_changes f : (forall s, world (f s) = world s) -> back (changes f).
Proof. intros Hf s Hs. split; [done|]. cbn. by rewrite Hf. Qed.

Lemma back_acts {A} (m : session A) t : acts m t -> safe t -> back m.
Proof.
  intros Hm Ht s Hs. destruct (Hm s) as (E & _ & (Ew & _)). rewrite E, Ew. split; [apply Ht|done].
Qed.

Lemma back_ret {A} (a : A) : back (mret a).
Proof. done. Qed.

Lemma back_raise {A} e : back (raise (A:=A) e).
Proof. done. Qed.

Lemma back_of_res {A} (r : res DriverError A) : returns r -> back (of_res r).
Proof. done. Qed.

Lemma back_ask {A} (f : Client -> A) : back (ask f).
Proof. done. Qed.

Hint Resolve back_bind back_handle back_attempt back_changes back_ret back_raise back_ask : skaidb.

Lemma roundtrip_back q : back (roundtrip q).
Proof. eapply back_acts; [apply roundtrip_acts|apply answered_safe]. Qed.

Lemma try_execute_back sql k : back (try_execute sql k).
Proof. eapply back_acts; [apply try_execute_acts|apply answered_safe]. Qed.

Lemma on_conn_back {A} (m : eff DriverError Stream A) : safe m -> back (on_conn m).
Proof. intros Hm. eapply back_acts; [apply on_conn_acts|done]. Qed.

Lemma transport_back {A} (m : eff DriverError Stream A) : safe m -> back (transport m).
Proof. intros Hm. eapply back_acts; [apply transport_acts|done]. Qed.
Hint Resolve roundtrip_back try_execute_back on_conn_back transport_back send_safe recv_safe : skaidb.

Lemma observe_statement_back sql : utf8_valid sql = true -> back (observe_statement sql).
Proof.
  intros Hu s Hs. unfold observe_statement. destruct (link (client s)); [|done]. destruct (_ && _); [|done].
  destruct (is_write_total sql Hu) as [b ->]. by destruct b.
Qed.

Lemma send_hello_back : back send_hello.
Proof.
  apply back_bind; [auto with skaidb|]. intros [[]|e]; [|auto with skaidb].
  apply back_bind; [auto with skaidb|]. intros x. auto with skaidb.
Qed.

Lemma apply_database_steps : back apply_database.
Proof. apply back_bind; [done|]. intros c. destruct (database c); auto with skaidb. Qed.

Lemma apply_scan_budget_steps : back apply_scan_budget.
Proof. apply back_bind; [done|]. intros c. destruct (_ =? 0); auto with skaidb. Qed.

Lemma settle_back ordered ep t : back (settle ordered ep t).
Proof.
  apply back_bind; [by apply back_changes|]. intros []. apply back_bind; [by apply back_changes|]. intros [].
  apply back_bind.
  { apply back_changes. intros s. unfold report_moved. destruct (link (client s)); [|done].
    by destruct (pool_moved _ _ _). }
  intros []. apply back_bind; [apply send_hello_back|]. intros []. apply back_bind; [apply apply_database_steps|].
  intros []. apply apply_scan_budget_steps.
Qed.

Lemma dial_member_back ep l : back (dial_member kerberos gss_new gss_step sha384 sha512 ep l).
Proof.
  intros s Hs. destruct (dial_back gss_new gss_step sha384 sha512 gss_new_returns gss_step_returns kerberos ep l _ Hs)
    as [Hr Hw].
  unfold dial_member, in_world, zoom. by destruct (dial ep l (world s)) as [r w].
Qed.

Lemma redial_back ordered eps last : back (redial kerberos gss_new gss_step sha384 sha512 ordered eps last).
Proof.
  revert last. induction eps as [|ep eps IH]; intros last; cbn [redial]; [apply back_raise|].
  apply back_bind; [apply back_ask|]. intros c. apply back_bind; [apply back_attempt, dial_member_back|].
  intros [t|e]; [apply settle_back|]. apply back_bind; [|intros []; apply IH].
  apply back_changes. intros s. unfold report_dial. destruct (link (client s)); [|done]. by destruct (member_fault e).
Qed.

Lemma reconnect_back : back reconnect.
Proof.
  apply back_bind; [|intros ordered; apply redial_back]. apply back_bind; [apply back_ask|]. intros c.
  destruct (link c).
  - intros s Hs. unfold pooled_order. by destruct (pool_dial_order _ _ _).
  - apply back_bind; [|done]. intros s Hs. unfold probed_order, in_world, zoom, probed. destruct (_ <=? 1)%nat; [done|].
    by destruct (w_probe _).
Qed.

Lemma retrying_back {A} (m1 m2 : session A) : back m1 -> back m2 -> back (retrying m1 m2).
Proof.
  intros H1 H2. apply back_handle; [done|]. intros e. destruct (is_io e); [|apply back_raise].
  apply back_bind; [apply reconnect_back|]. by intros [].
Qed.

Lemma execute_with_back sql k : utf8_valid sql = true -> back (execute_with sql k).
Proof.
  intros Hu. apply back_bind; [by apply retrying_back; auto with skaidb|]. intros r.
  apply back_bind; [by apply observe_statement_back|]. by intros [].
Qed.

Lemma execute_back sql : utf8_valid sql = true -> back (execute kerberos gss_new gss_step sha384 sha512 sql).
Proof. intros Hu. apply back_bind; [apply back_ask|]. intros k. by apply execute_with_back. Qed.

Lemma prepare_back sql : back (prepare sql).
Proof. apply back_bind; [by apply retrying_back; auto with skaidb|]. by intros []. Qed.

Lemma prepare_sql sql s st s' : prepare sql s = (Ok st, s') -> st.(stmt_sql) = sql.
Proof. intros (r & s1 & _ & Hx)%bind_done. destruct r; try done. by injection Hx as <- _. Qed.

Lemma try_pipeline_steps stmts k : back (try_pipeline stmts k).
Proof.
  intros s Hs. split; [apply try_pipeline_back|].
  unfold try_pipeline. revert s Hs. apply (keeps_bind (fun s => net_ok s.(world))).
  - generalize 0. induction stmts as [|sql stmts IH]; intros i; cbn [send_all]; [apply keeps_ret|].
    apply keeps_bind; [|intros []; apply IH]. intros s Hs. by destruct (transport_acts
      (send (encode_tagged_request (wrap 32 i) (Query sql k) [])) s) as (_ & _ & -> & _).
  - intros []. apply keeps_bind; [|intros out; apply keeps_of_res].
    generalize true, (length stmts), (replicate (length stmts) (@None Response)).
    intros first n. revert first. induction n as [|n IH]; intros first out; cbn [recv_all]; [apply keeps_ret|].
    apply keeps_bind; [|intros payload; apply keeps_bind; [apply keeps_of_res|]].
    + intros s Hs. by destruct (recv_step_acts first s) as (_ & _ & -> & _).
    + intros [[id|] r]; [|apply keeps_raise]. destruct (put_slot out id r); [apply IH|apply keeps_raise].
Qed.

(** What the type [str] says of a call's text. *)
Definition call_text (c : call) : Prop :=
  match c with
  | CallExecute sql _ | CallPrepare sql => utf8_valid sql = true
  | CallExecutePrepared stmt _ _ | CallExecuteBatch stmt _ => utf8_valid stmt.(stmt_sql) = true
  | CallPipeline stmts _ => Forall (fun sql => utf8_valid sql = true) stmts
  | CallStreamPoll log after limit => utf8_valid (poll_sql log after limit) = true
  | _ => True
  end.

(** A call on a statement, whose text stays. *)
Definition stmt_back {A} (m : eff DriverError (Session P * Prepared) A) : Prop :=
  forall s st, net_ok s.(world) -> utf8_valid st.(stmt_sql) = true ->
    let '(r, (s', st')) := m (s, st) in
    returns r /\ net_ok s'.(world) /\ utf8_valid st'.(stmt_sql) = true.

Lemma stmt_back_bind {A B} (m : with_stmt A) (k : A -> with_stmt B) :
  stmt_back m -> (forall a, stmt_back (k a)) -> stmt_back (m ≫= k).
Proof.
  intros Hm Hk s st Hs Hu. specialize (Hm s st Hs Hu). unfold mbind, eff_bind.
  destruct (m (s, st)) as [[a|e| |] [s1 st1]]; destruct Hm as (? & ? & ?); try done. by apply Hk.
Qed.

Lemma stmt_back_on {A} (m : session A) : back m -> stmt_back (on_session m).
Proof. intros Hm s st Hs Hu. destruct (Hm s Hs). unfold on_session, zoom. cbn [fst]. by destruct (m s). Qed.

Lemma the_stmt_back {A} (k : Prepared -> with_stmt A) :
  (forall st, utf8_valid st.(stmt_sql) = true -> stmt_back (k st)) -> stmt_back (the_stmt ≫= k).
Proof. intros Hk s st Hs Hu. by apply (Hk st Hu s st). Qed.

Lemma re_prepared_back request : stmt_back (re_prepared kerberos gss_new gss_step sha384 sha512 request).
Proof.
  assert (H1 : stmt_back (stmt ← the_stmt; on_session (roundtrip (request (stmt_id stmt))))).
  { apply the_stmt_back. intros st _. apply stmt_back_on. auto with skaidb. }
  intros s st Hs Hu. specialize (H1 s st Hs Hu). unfold re_prepared, handle.
  destruct ((stmt ← the_stmt; on_session (roundtrip (request (stmt_id stmt)))) (s, st)) as [[a|e| |] [s1 st1]];
    destruct H1 as (? & Hs1 & Hu1); try done.
  destruct (is_io e); [|done]. revert s1 st1 Hs1 Hu1. change (stmt_back
    (_ ← on_session reconnect; stmt ← the_stmt; fresh ← on_session (prepare (stmt_sql stmt));
     _ ← changes (fun t => (t.1, fresh)); on_session (roundtrip (request (stmt_id fresh))))).
  apply stmt_back_bind; [apply stmt_back_on, reconnect_back|]. intros [].
  apply the_stmt_back. intros st1 Hu1 s1 st2 Hs1 Hu2. destruct (prepare_back (stmt_sql st1) s1 Hs1) as [Hr Hw].
  unfold mbind at 1, eff_bind at 1, on_session at 1, zoom at 1. cbn [fst snd].
  destruct (prepare (stmt_sql st1) s1) as [[fresh|e'| |] s2] eqn:Ep; try done.
  apply prepare_sql in Ep. unfold mbind, eff_bind, changes. cbn [fst snd].
  apply (stmt_back_on (roundtrip (request (stmt_id fresh)))); [auto with skaidb|done|by rewrite Ep].
Qed.

Lemma observe_stmt_back : stmt_back observe_stmt.
Proof. apply the_stmt_back. intros st Hu. by apply stmt_back_on, observe_statement_back. Qed.

Lemma on_stmt_back {A} stmt (m : with_stmt A) :
  utf8_valid stmt.(stmt_sql) = true -> stmt_back m -> back (on_stmt stmt m).
Proof.
  intros Hu Hm s Hs. specialize (Hm s stmt Hs Hu). unfold on_stmt.
  destruct (m (s, stmt)) as [r [s1 st1]]. by destruct Hm as (? & ? & _).
Qed.

Lemma run_call_back c : call_text c -> back (run_call c).
Proof.
  intros Hc. destruct c; cbn [Session.run_call call_text] in *.
  - apply back_bind; [by apply execute_with_back|done].
  - apply back_bind; [by apply prepare_back|done].
  - apply back_bind; [|done]. apply on_stmt_back; [done|]. apply stmt_back_bind; [apply re_prepared_back|].
    intros r. apply stmt_back_bind; [apply observe_stmt_back|]. by intros [].
  - apply back_bind; [|done]. apply on_stmt_back; [done|]. apply stmt_back_bind; [by apply stmt_back_on|].
    intros k. apply stmt_back_bind; [apply re_prepared_back|]. intros []; try done.
    apply stmt_back_bind; [apply observe_stmt_back|]. by intros [].
  - apply back_bind; [|done]. unfold Session.pipeline_with. destruct stmts as [|sql stmts]; [done|].
    apply back_bind; [apply retrying_back; apply try_pipeline_steps|]. intros rs.
    apply back_bind; [|by intros []].
    assert (Hz : Forall (fun sr => utf8_valid sr.1 = true) (zip (sql :: stmts) rs)).
    { revert rs Hc. generalize (sql :: stmts). induction l as [|x l IH]; intros [|r rs] Hl; cbn [zip zip_with];
        try constructor; inversion_clear Hl; [done|]. by apply IH. }
    clear Hc. induction Hz as [|[x r] l Hx _ IH]; cbn [for_all]; [done|]. apply back_bind; [|by intros []].
    destruct (is_error _); [done|]. by apply observe_statement_back.
  - apply back_bind; [|done]. apply back_bind; [|done]. apply back_bind; [done|]. intros k.
    by apply execute_with_back.
  - apply back_bind; [done|]. intros previous. apply back_bind; [by apply back_changes|]. intros [].
    apply back_handle; [apply apply_database_steps|]. intros e. apply back_bind; [by apply back_changes|].
    by intros [].
  - apply back_bind; [done|]. intros k. apply back_bind; [apply roundtrip_back|]. intros r. by apply back_changes.
  - by apply back_changes.
  - by apply back_changes.
  - apply reconnect_back.
Qed.

Lemma open_from_back ordered eps lg lk last w (p : P) :
  net_ok w -> let '(r, (w', _)) := open_from kerberos gss_new gss_step sha384 sha512 ordered eps lg lk last (w, p) in
              returns r /\ net_ok w'.
Proof.
  revert last w p. induction eps as [|ep eps IH]; intros last w p Hw; cbn [open_from]; [done|].
  unfold mbind, eff_bind, attempt, zoom. cbn [fst snd].
  destruct (dial_back gss_new gss_step sha384 sha512 gss_new_returns gss_step_returns kerberos ep lg w Hw) as [Hr Hw1].
  destruct (dial ep lg w) as [[t|e| |] w1]; try done; cbn [fst snd] in *.
  - unfold start_session.
    destruct (send_hello_back {| client := client_new ordered lg lk ep t; world := w1; pool := p; clock := []; dropped := [] |} Hw1)
      as [Hr2 Hw2].
    destruct (send_hello _) as [r s]. by destruct r.
  - unfold changes. cbn [fst snd]. by apply IH.
Qed.

Lemma connect_mode_back eps lg w (p : P) :
  net_ok w -> let '(r, (w', _)) := connect_mode kerberos gss_new gss_step sha384 sha512 eps lg (w, p) in
              returns r /\ net_ok w'.
Proof.
  intros Hw. unfold connect_mode, mbind, eff_bind, zoom, probed. cbn [fst snd].
  assert (Hgo : forall ordered w1, net_ok w1 ->
    let '(r, (w', _)) := match ordered with
      | [] => raise (NoEndpoint (str "no endpoints given") None)
      | _ => open kerberos gss_new gss_step sha384 sha512 ordered lg None
      end (w1, p) in returns r /\ net_ok w').
  { intros [|ep ordered] w1 Hw1; [done|]. by apply open_from_back. }
  destruct (_ <=? 1)%nat; [by apply Hgo|]. destruct (w_probe w) as [|probe l]; by apply Hgo.
Qed.

End back.


(** ** Opening *)

(** Dials that failed, one after another. *)
Fixpoint dials_fail (eps : list bytes) (l : Login) (w w' : World) : Prop :=
  match eps with
  | [] => w' = w
  | ep :: eps => exists e w1, dial ep l w = (Err e, w1) /\ dials_fail eps l w1 w'
  end.

Lemma start_session_Ok c w p :
  exists s t, start_session c (send_hello : session unit) (w, p) = (Ok s, t)
    /\ s.(client).(connected) = c.(connected) /\ s.(client).(endpoints) = c.(endpoints).
Proof.
  unfold start_session.
  destruct (send_hello_done {| client := c; world := w; pool := p; clock := []; dropped := [] |})
    as (s & part & E & (_ & _ & He & _ & Hc & _) & _). rewrite E. eauto.
Qed.

Lemma open_from_reaches ordered eps l lk last w p s t :
  open_from kerberos gss_new gss_step sha384 sha512 ordered eps l lk last (w, p) = (Ok s, t) ->
  exists pre ep post w1 w2 stream,
    eps = pre ++ ep :: post /\ dials_fail pre l w w1 /\ dial ep l w1 = (Ok stream, w2)
    /\ s.(client).(connected) = ep /\ s.(client).(endpoints) = ordered.
Proof.
  revert last w p. induction eps as [|ep eps IH]; intros last w p; cbn [open_from]; [done|].
  intros ([st|e] & [w1 p1] & Hd%attempt_done & Ho)%bind_done; unfold zoom in Hd; cbn [fst snd] in Hd;
    destruct (dial ep l w) as [r w2] eqn:Ed; injection Hd as -> <- <-.
  - destruct (start_session_Ok (client_new ordered l lk ep st) w2 p) as (s1 & t1 & E & Hc & He).
    rewrite E in Ho. injection Ho as <- _. by exists [], ep, eps, w, w2, st.
  - apply bind_done in Ho as ([] & [w3 p3] & [= <- <-] & Ho).
    destruct (IH _ _ _ Ho) as (pre & ep' & post & w4 & w5 & st & -> & Hf & Hok & Hc & He).
    exists (ep :: pre), ep', post, w4, w5, st. split_and!; try done. by exists e, w2.
Qed.

Lemma open_from_fails ordered eps l lk last w p e t :
  open_from kerberos gss_new gss_step sha384 sha512 ordered eps l lk last (w, p) = (Err e, t) ->
  dials_fail eps l w t.1 /\ exists text cause, e = NoEndpoint text cause
    /\ match list.last eps with Some ep => text = ep /\ cause <> None | None => (text, cause) = last end.
Proof.
  revert last w p. induction eps as [|ep eps IH]; intros last w p; cbn [open_from].
  { intros [= <- <-]. split; [done|]. exists last.1, last.2. by destruct last. }
  unfold mbind at 1, eff_bind at 1, attempt, zoom. cbn [fst snd]. destruct (dial ep l w) as [r w2] eqn:Ed.
  destruct r as [st|e1| |]; try done.
  - destruct (start_session_Ok (client_new ordered l lk ep st) w2 p) as (s1 & t1 & E & _). intros Ho.
    assert (Ho' : start_session (client_new ordered l lk ep st) send_hello (w2, p) = (Err e, t)) by exact Ho.
    by rewrite E in Ho'.
  - cbn. intros Ho. destruct (IH _ _ _ Ho) as (Hf & text & cause & -> & Hl). split; [by exists e1, w2|].
    exists text, cause. split; [done|]. destruct eps as [|ep' eps]; [cbn in Hl; by injection Hl as -> ->|].
    change (list.last (ep :: ep' :: eps)) with (list.last (ep' :: eps)).
    destruct (list.last (ep' :: eps)) eqn:El; [exact Hl|by apply last_None in El].
Qed.


(** ** After a call that failed *)

(** What [Client] returns for a response. *)
Definition answer (r : Response) : res DriverError Response :=
  match r with Error msg => Err (Server msg) | r => Ok r end.

(** A response a frame can hold, that reads back. *)
Definition sendable (r : Response) : Prop :=
  len (encode_response r) <= MAX_FRAME_LEN /\ decode_response (encode_response r) = Ok r.

Definition query (sql : bytes) (k : Consistency) : bytes := request_encode {| r_sql := sql; r_consistency := k |}.

Lemma retrying_fails {A} (m1 m2 : session A) s e s' :
  m1 s = (Err e, s') -> is_io e = false -> retrying m1 m2 s = (Err e, s').
Proof. intros Hm He. unfold Session.retrying, handle. by rewrite Hm, He. Qed.

Lemma roundtrip_done q r l n s :
  len (encode_request q) <= MAX_FRAME_LEN -> sendable r ->
  keen (length (frame (encode_request q)) + S n) (conn s).(st_out) ->
  (conn s).(st_in) = frame (encode_response r) ++ l ->
  exists s', roundtrip q s = (answer r, s') /\ steady s s' /\ (conn s').(st_in) = l
    /\ (conn s').(st_sent) = (conn s).(st_sent) ++ frame (encode_request q) /\ keen n (conn s').(st_out).
Proof.
  intros Hq [Hr Hd] Hk Hin. destruct (answered_done _ r l n (conn s) Hq Hr Hd Hk Hin) as (out & E & Ho).
  destruct (acts_step _ _ _ _ _ (roundtrip_acts q) E) as (s1 & E1 & Hc & Hst).
  exists s1. by rewrite Hc.
Qed.

(** A server without pipelining leaves a batch's answers behind: the batch
    stops at the first untagged response and reports it, and the statement
    after it is given the answer to the batch's second statement as its own,
    while its own answer waits for the next. *)
Theorem pipeline_leaves_answers sql1 sql2 stmts sql k first plain r l s :
  s.(client).(link) = None ->
  decode_tagged_response first = Ok (None, plain) -> len first <= MAX_FRAME_LEN -> sendable r ->
  (conn s).(st_in) = frame first ++ frame (encode_response r) ++ l ->
  Forall (fun sql => forall j, len (encode_tagged_request j (Query sql k) []) <= MAX_FRAME_LEN)
    (sql1 :: sql2 :: stmts) ->
  len (query sql k) <= MAX_FRAME_LEN ->
  keen (length (batch_frames 0 (sql1 :: sql2 :: stmts) k) + length (sql1 :: sql2 :: stmts)
        + (length (frame (query sql k)) + 1)) (conn s).(st_out) ->
  exists s1 s2,
    pipeline_with (sql1 :: sql2 :: stmts) k s
      = (Err (Server (str "server does not support pipelined requests (upgrade the server)")), s1)
    /\ execute_with sql k s1 = (answer r, s2)
    /\ (conn s2).(st_in) = l.
Proof.
  intros Hl Hd Hf [Hr Hdr] Hin Hstmts Hq Hk.
  destruct (send_all_done 0 _ k _ s Hstmts Hk) as (s1 & E1 & Hst1 & Hin1 & Hk1).
  assert (Hl1 : link (client s1) = None) by by eapply send_all_link.
  destruct (observed_done recv s1 first (after_read (frame (encode_response r) ++ l) (conn s1)) Hl1) as (s2 & E2 & Hc2 & Hl2).
  { apply (recv_frame first); [done|]. by rewrite Hin1. }
  assert (E : pipeline_with (sql1 :: sql2 :: stmts) k s
    = (Err (Server (str "server does not support pipelined requests (upgrade the server)")), s2)).
  { unfold Session.pipeline_with. apply bind_fails, retrying_fails; [|done]. unfold try_pipeline.
    rewrite (bind_step _ _ _ _ _ E1). apply bind_fails. cbn [length recv_all].
    rewrite (bind_step _ _ _ _ _ E2). unfold mbind, eff_bind, of_res. by rewrite Hd. }
  destruct (execute_answered kerberos gss_new gss_step sha384 sha512 sql k r l s2 0 Hl2 Hq Hr Hdr) as (s3 & E3 & _ & Hin3 & _).
  - by rewrite Hc2.
  - by rewrite Hc2.
  - by exists s2, s3.
Qed.

(** A greeting that is answered. *)
Lemma send_hello_answered greet l n s :
  s.(client).(link) = None -> len greet <= MAX_FRAME_LEN ->
  (conn s).(st_in) = frame greet ++ l -> keen (length (frame hello) + S n) (conn s).(st_out) ->
  exists s', send_hello s = (Ok tt, s') /\ steady s s' /\ s'.(client).(link) = None
    /\ (conn s').(st_in) = l /\ (conn s').(st_sent) = (conn s).(st_sent) ++ frame hello
    /\ keen n (conn s').(st_out).
Proof.
  intros Hl Hg Hin Hk. destruct (send_done hello n (conn s) ltac:(by vm_compute) Hk) as (out & E & Ho).
  unfold send_hello, on_conn.
  set (put := fun t s => with_client (with_stream t (client s)) s).
  erewrite bind_step; [|apply attempt_Ok; apply zoom_step; exact E]. cbv beta iota.
  erewrite bind_step; [|apply attempt_Ok; apply zoom_step; apply (recv_frame greet l _ Hg); exact Hin].
  eexists. by split_and!.
Qed.

(** The one place left to go, reached again. *)
Lemma reconnect_alone ep t w s greet l n :
  s.(client).(link) = None -> s.(client).(endpoints) = [ep] ->
  dial ep s.(client).(credentials) s.(world) = (Ok t, w) ->
  len greet <= MAX_FRAME_LEN -> t.(st_in) = frame greet ++ l -> keen (length (frame hello) + S n) t.(st_out) ->
  exists s1, reconnect s = (_ ← apply_database; apply_scan_budget) s1
    /\ s1.(client).(link) = None /\ s1.(client).(database) = s.(client).(database)
    /\ s1.(client).(default_consistency) = s.(client).(default_consistency)
    /\ s1.(client).(connected) = ep /\ (conn s1).(st_in) = l
    /\ (conn s1).(st_sent) = t.(st_sent) ++ frame hello /\ keen n (conn s1).(st_out).
Proof.
  intros Hl Hep Hd Hg Hin Hk. unfold Session.reconnect.
  assert (Eo : redial_order s = (Ok [ep], s)).
  { unfold redial_order. erewrite bind_step by reflexivity. unfold id. rewrite Hl.
    erewrite bind_step; [|rewrite Hep; unfold probed_order, in_world; apply zoom_step; reflexivity].
    by destruct s. }
  rewrite (bind_step _ _ _ _ _ Eo). cbn [redial]. erewrite bind_step by reflexivity.
  erewrite bind_step; [|apply attempt_Ok; apply zoom_step; exact Hd]. cbv beta iota. unfold settle.
  do 2 (erewrite bind_step by reflexivity).
  set (s0 := with_client _ _). assert (Em : report_moved s0 = s0) by (unfold report_moved; cbn; by rewrite Hl).
  erewrite bind_step; [|unfold changes; by rewrite Em].
  destruct (send_hello_answered greet l n s0) as (s1 & E1 & (_ & _ & _ & _ & Hc & Hdc & Hdb & _) & Hl1 & Hin1 & Hs1 & Hk1);
    [done..|].
  rewrite (bind_step _ _ _ _ _ E1). exists s1. by split_and!.
Qed.

(** A re-dial whose [USE] the server refuses reports the refusal but keeps
    the new connection: the next statement is sent there at once, with no
    [USE] before it, and runs in the server's default database while the
    client still names the bound one. *)
Theorem refused_database_left_live ep db t w greet msg sql k r l s :
  s.(client).(link) = None -> s.(client).(endpoints) = [ep] -> s.(client).(database) = Some db ->
  dial ep s.(client).(credentials) s.(world) = (Ok t, w) ->
  t.(st_in) = frame greet ++ frame (encode_response (Error msg)) ++ frame (encode_response r) ++ l ->
  len greet <= MAX_FRAME_LEN -> sendable (Error msg) -> sendable r ->
  let use := encode_request (Query (use_sql db) s.(client).(default_consistency)) in
  len use <= MAX_FRAME_LEN -> len (query sql k) <= MAX_FRAME_LEN ->
  keen (length (frame hello) + S (length (frame use) + S (length (frame (query sql k)) + 1))) t.(st_out) ->
  exists s1 s2,
    reconnect s = (Err (Server msg), s1) /\ s1.(client).(database) = Some db
    /\ execute_with sql k s1 = (answer r, s2)
    /\ (conn s2).(st_sent) = t.(st_sent) ++ frame hello ++ frame use ++ frame (query sql k).
Proof.
  intros Hl Hep Hdb Hd Hin Hg [Hm Hdm] [Hr Hdr] use Hu Hq Hk.
  destruct (reconnect_alone ep t w s greet _ _ Hl Hep Hd Hg Hin Hk)
    as (s1 & E1 & Hl1 & Hdb1 & Hk1 & _ & Hin1 & Hs1 & Ho1).
  rewrite Hdb in Hdb1.
  destruct (answered_done use (Error msg) (frame (encode_response r) ++ l) _ (conn s1) Hu Hm Hdm Ho1 Hin1)
    as (out & Ea & Ho2).
  destruct (acts_step _ _ _ _ _ (roundtrip_acts (Query (use_sql db) s.(client).(default_consistency))) Ea)
    as (s2 & E2 & Hc2 & (_ & _ & _ & _ & _ & _ & Hdb2 & _)).
  assert (Hl2 : link (client s2) = None).
  { pose proof (roundtrip_link (Query (use_sql db) s.(client).(default_consistency)) s1 Hl1) as Hx. by rewrite E2 in Hx. }
  assert (E : reconnect s = (Err (Server msg), s2)).
  { rewrite E1. apply bind_fails. unfold apply_database. erewrite bind_step by reflexivity. unfold id.
    rewrite Hdb1, Hk1. by apply bind_fails. }
  destruct (execute_answered kerberos gss_new gss_step sha384 sha512 sql k r l s2 0 Hl2 Hq Hr Hdr)
    as (s3 & E3 & _ & _ & Hs3).
  - by rewrite Hc2.
  - by rewrite Hc2.
  - exists s2, s3. split_and!; [done|by rewrite Hdb2|done|]. rewrite Hs3, Hc2. cbn [st_sent after_read after_write].
    by rewrite Hs1, <- !app_assoc.
Qed.

Lemma try_oversized sql k s lk :
  MAX_FRAME_LEN < len (query sql k) -> s.(client).(link) = Some lk ->
  exists s1,
    try_execute sql k s = (Err (Io (Wire InvalidInput)), s1)
    /\ (conn s1).(st_sent) = (conn s).(st_sent) /\ (conn s1).(st_in) = (conn s).(st_in)
    /\ s1.(pool) = pool_failed lk.(l_pool) s.(client).(connected) s.(pool)
    /\ s1.(client).(link) = Some (set_broken true lk) /\ s1.(dropped) = s.(dropped).
Proof.
  intros Hq Hl.
  assert (Ex : exchange (query sql k) (conn s)
    = (Err (Io (Wire InvalidInput)), after_write (st_out (conn s)) [] (conn s))).
  { unfold exchange. apply bind_fails. unfold send, write_frame. by rewrite (proj2 (Z.ltb_lt _ _)). }
  set (s0 := with_client (with_stream (after_write (st_out (conn s)) [] (conn s)) (client s)) s).
  exists (report_failure s0). split.
  - unfold try_execute. apply bind_fails. unfold observed. apply bind_fails.
    unfold transport, handle, on_conn, zoom. fold (query sql k). by rewrite Ex.
  - unfold report_failure. cbn [client with_client with_stream link s0]. rewrite Hl. cbn. by rewrite app_nil_r.
Qed.

(** A statement longer than a frame counts against the members: refused
    before a byte of it is sent, it is reported as a failure of the member
    the connection is to, and the connection is marked broken; a re-dial
    follows, where it fails again and counts against the member reached. *)
Theorem oversized_statement_strikes sql k s lk :
  MAX_FRAME_LEN < len (query sql k) -> s.(client).(link) = Some lk ->
  exists s1,
    try_execute sql k s = (Err (Io (Wire InvalidInput)), s1)
    /\ (conn s1).(st_sent) = (conn s).(st_sent) /\ (conn s1).(st_in) = (conn s).(st_in)
    /\ s1.(pool) = pool_failed lk.(l_pool) s.(client).(connected) s.(pool)
    /\ s1.(client).(link) = Some (set_broken true lk)
    /\ forall s2 lk2, reconnect s1 = (Ok tt, s2) -> s2.(client).(link) = Some lk2 ->
         exists s3,
           execute_with sql k s = (Err (Io (Wire InvalidInput)), s3)
           /\ s3.(dropped) = s2.(dropped) /\ (conn s3).(st_sent) = (conn s2).(st_sent)
           /\ s3.(pool) = pool_failed lk2.(l_pool) s2.(client).(connected) s2.(pool)
           /\ s3.(client).(link) = Some (set_broken true lk2).
Proof.
  intros Hq Hl. destruct (try_oversized sql k s lk Hq Hl) as (s1 & E1 & Hs1 & Hi1 & Hp1 & Hl1 & _).
  exists s1. split_and!; try done. intros s2 lk2 Hr Hl2.
  destruct (try_oversized sql k s2 lk2 Hq Hl2) as (s3 & E3 & Hs3 & _ & Hp3 & Hl3 & Hd3). exists s3. split_and!; try done.
  unfold Session.execute_with. apply bind_fails. unfold Session.retrying, handle. rewrite E1. cbn [is_io].
  by rewrite (bind_step _ _ _ _ _ Hr).
Qed.

(** After a failover a statement prepared before runs whatever the new
    connection has under its number: when another statement prepared on the
    new connection was given the same number, executing the old one sends the
    bytes of executing the new one, is given its answer, and leaves the old
    one as it was. *)
Theorem stale_statement_runs_another other params k fresh stale r l s s1 s2 :
  reconnect s = (Ok tt, s1) -> prepare other s1 = (Ok fresh, s2) -> stale.(stmt_id) = fresh.(stmt_id) ->
  s2.(client).(link) = None -> sendable r -> (conn s2).(st_in) = frame (encode_response r) ++ l ->
  let request := encode_request (Execute fresh.(stmt_id) params k) in
  len request <= MAX_FRAME_LEN -> keen (length (frame request) + 2) (conn s2).(st_out) ->
  fresh.(stmt_sql) = other
  /\ exists s3,
      execute_prepared_with params k (s2, fresh) = (answer r, (s3, fresh))
      /\ execute_prepared_with params k (s2, stale) = (answer r, (s3, stale))
      /\ (conn s3).(st_sent) = (conn s2).(st_sent) ++ frame request.
Proof.
  intros _ Hp Hid Hl Hr Hin request Hq Hk. split; [by eapply prepare_sql|].
  destruct (roundtrip_done (Execute fresh.(stmt_id) params k) r l 1 s2 Hq Hr Hk Hin) as (s3 & E & _ & _ & Hs & _).
  assert (Hl3 : link (client s3) = None).
  { pose proof (roundtrip_link (Execute (stmt_id fresh) params k) s2 Hl) as Hx. by rewrite E in Hx. }
  exists s3. assert (Hx : forall st, st.(stmt_id) = fresh.(stmt_id) ->
    execute_prepared_with params k (s2, st) = (answer r, (s3, st))).
  { intros st Hst. unfold Session.execute_prepared_with, re_prepared, mbind at 1, eff_bind at 1, handle.
    erewrite (bind_step the_stmt) by reflexivity. unfold on_session at 1, zoom. cbn [fst snd]. rewrite Hst, E.
    destruct r; cbn [answer]; try done;
      (erewrite bind_step; [done|]; unfold observe_stmt; erewrite bind_step by reflexivity;
       unfold on_session, zoom; cbn [fst snd]; unfold observe_statement; rewrite Hl3; reflexivity). }
  split_and!; [by apply Hx|by apply Hx|done].
Qed.

End calls.

(** ** Witnesses *)

Definition wit_sql : bytes := str "SELECT 1".
Definition wit_row : Response := Rows [str "a"] [[VInt 1]].

Lemma wit_row_sendable r : bool_decide (len (encode_response r) <= MAX_FRAME_LEN) = true ->
  decode_response (encode_response r) = Ok r -> sendable r.
Proof. intros Hl Hd. split; [by apply bool_decide_eq_true in Hl|done]. Qed.


(** The nearer member refuses, the other one lets the client in. *)
Definition wit_far_world : World := {|
  w_net := [fun _ => Err (Wire OtherIo); fun _ => Ok (wit_peer (wit_answers []))];
  w_probe := [fun ep => if bool_decide (ep = C) then Some 1 else Some 2]; w_process := wit_process |}.


Lemma tagged_frame_bound sql k :
  len (encode_tagged_request 0 (Query sql k) []) <= MAX_FRAME_LEN ->
  forall j, len (encode_tagged_request j (Query sql k) []) <= MAX_FRAME_LEN.
Proof.
  intros Hl j. unfold encode_tagged_request in *. rewrite encode_request_app in *.
  rewrite !len_app, !len_le_bytes in *. done.
Qed.

Definition wit_refusal : bytes := encode_response (Error (str "unknown opcode")).
Definition wit_old_server : Session PoolWorld :=
  wit_session (wit_stream (frame wit_refusal ++ frame wit_refusal ++ [])) [].

Lemma pipeline_leaves_answers_witness :
  exists s1 s2,
    pipeline_with false no_gss_new no_gss_step sha256 sha256 [wit_sql; wit_sql] Quorum wit_old_server
      = (Err (Server (str "server does not support pipelined requests (upgrade the server)")), s1)
    /\ execute_with false no_gss_new no_gss_step sha256 sha256 wit_sql Quorum s1
      = (Err (Server (str "unknown opcode")), s2).
Proof.
  assert (Hf : forall j, len (encode_tagged_request j (Query wit_sql Quorum) []) <= MAX_FRAME_LEN)
    by (apply tagged_frame_bound; by vm_compute).
  destruct (pipeline_leaves_answers false no_gss_new no_gss_step sha256 sha256 wit_sql wit_sql [] wit_sql Quorum
              wit_refusal (Error (str "unknown opcode")) (Error (str "unknown opcode")) [] wit_old_server)
    as (s1 & s2 & E1 & E2 & _).
  - reflexivity.
  - by vm_compute.
  - by vm_compute.
  - by apply wit_row_sendable; vm_compute.
  - reflexivity.
  - constructor; [exact Hf|]. constructor; [exact Hf|constructor].
  - by vm_compute.
  - split; [by vm_compute|]. apply Nat.leb_le. by vm_compute.
  - exists s1, s2. split; [exact E1|exact E2].
Defined.

(** The member to reach again refuses the database. *)
Definition wit_denial : Response := Error (str "no such database").
Definition wit_bound : Session PoolWorld :=
  let s := wit_session (wit_stream []) [wit_peer (wit_answers [wit_denial; wit_row])] in
  with_client (bind_database (Some (str "db")) (client s)) s.

Lemma refused_database_left_live_witness :
  exists s1 s2,
    reconnect false no_gss_new no_gss_step sha256 sha256 wit_bound
      = (Err (Server (str "no such database")), s1)
    /\ execute_with false no_gss_new no_gss_step sha256 sha256 wit_sql Quorum s1 = (Ok wit_row, s2).
Proof.
  destruct (dial false no_gss_new no_gss_step sha256 sha256 A wit_login (world wit_bound)) as [r w] eqn:Ed.
  destruct r as [t|e| |]; [|vm_compute in Ed; discriminate..].
  assert (Et : t = match (dial false no_gss_new no_gss_step sha256 sha256 A wit_login (world wit_bound)).1 with
                   | Ok t => t | _ => wit_stream [] end) by by rewrite Ed.
  vm_compute in Et.
  destruct (refused_database_left_live false no_gss_new no_gss_step sha256 sha256 A (str "db") t w
              (encode_response Ddl) (str "no such database") wit_sql Quorum wit_row [] wit_bound)
    as (s1 & s2 & E1 & _ & E2 & _).
  - reflexivity.
  - reflexivity.
  - reflexivity.
  - exact Ed.
  - rewrite Et. by vm_compute.
  - by vm_compute.
  - by apply wit_row_sendable; vm_compute.
  - by apply wit_row_sendable; vm_compute.
  - by vm_compute.
  - by vm_compute.
  - rewrite Et. split; [by vm_compute|]. apply Nat.leb_le. by vm_compute.
  - exists s1, s2. split; [exact E1|exact E2].
Defined.

Lemma query_longer sql k : len sql <= len (query sql k).
Proof.
  unfold query, request_encode, Codec.write_bytes. rewrite len_app, len_prefixed. cbn [r_sql].
  pose proof (len_nonneg [OP_QUERY; to_u8 k]). cbn [r_consistency] in *. lia.
Qed.

Lemma oversized_statement_strikes_witness :
  exists sql s1,
    let s := wit_session (wit_stream []) [] in
    let s := with_client (with_link (Some (set_member A (link_new 1))) (client s)) s in
    try_execute sql Quorum s = (Err (Io (Wire InvalidInput)), s1)
    /\ s1.(pool) = pool_failed 1 A wit_pool.
Proof.
  assert (Hlong : exists sql : bytes, MAX_FRAME_LEN < len sql).
  { exists (replicate (Z.to_nat (MAX_FRAME_LEN + 1)) x41). unfold len. rewrite length_replicate.
    rewrite Z2Nat.id; unfold MAX_FRAME_LEN; lia. }
  destruct Hlong as [sql Hlong]. set (s := wit_session (wit_stream []) []).
  set (s' := with_client (with_link (Some (set_member A (link_new 1))) (client s)) s).
  destruct (oversized_statement_strikes false no_gss_new no_gss_step sha256 sha256 sql Quorum s'
              (set_member A (link_new 1))) as (s1 & E & _ & _ & Hp & _).
  - eapply Z.lt_le_trans; [exact Hlong|apply query_longer].
  - reflexivity.
  - exists sql, s1. split; [exact E|exact Hp].
Defined.

(** Two statements with one number. *)
Definition wit_stale : Prepared := {| stmt_id := 1; stmt_params := 0; stmt_sql := str "DELETE FROM t" |}.
Definition wit_failed_over : Session PoolWorld :=
  wit_session (wit_stream []) [wit_peer (wit_answers [Message.Prepared 1 0; wit_row])].

Lemma stale_statement_runs_another_witness :
  exists s s',
    execute_prepared_with false no_gss_new no_gss_step sha256 sha256 [] Quorum (s, wit_stale)
      = (Ok wit_row, (s', wit_stale)).
Proof.
  destruct (reconnect false no_gss_new no_gss_step sha256 sha256 wit_failed_over) as [r1 s1] eqn:E1.
  assert (H1 : r1 = Ok tt) by (change r1 with (r1, s1).1; rewrite <- E1; by vm_compute).
  rewrite H1 in E1.
  destruct (prepare false no_gss_new no_gss_step sha256 sha256 wit_sql s1) as [r2 s2] eqn:E2.
  assert (H2 : exists fresh, r2 = Ok fresh /\ stmt_id fresh = 1).
  { eexists. change r2 with (r2, s2).1. rewrite <- E2. change s1 with (Ok (E:=DriverError) tt, s1).2. rewrite <- E1.
    split; vm_compute; reflexivity. }
  destruct H2 as (fresh & -> & Hid).
  assert (Hs2 : s2 = (prepare false no_gss_new no_gss_step sha256 sha256 wit_sql
    (reconnect false no_gss_new no_gss_step sha256 sha256 wit_failed_over).2).2) by by rewrite E1; cbn [snd]; rewrite E2.
  assert (Hc : link (client s2) = None /\ st_in (stream (client s2)) = frame (encode_response wit_row)
    /\ forallb takes (st_out (stream (client s2))) = true
    /\ (50 <=? length (st_out (stream (client s2))))%nat = true) by (rewrite Hs2; by vm_compute).
  destruct Hc as (Hl & Hin & Ho & Hlen%Nat.leb_le). clear Hs2.
  destruct (stale_statement_runs_another false no_gss_new no_gss_step sha256 sha256 wit_sql [] Quorum fresh wit_stale
              wit_row [] wit_failed_over s1 s2 E1 E2) as (_ & s3 & _ & E3 & _).
  - by rewrite Hid.
  - exact Hl.
  - by apply wit_row_sendable; vm_compute.
  - by rewrite app_nil_r.
  - rewrite Hid. by vm_compute.
  - rewrite Hid. split; [exact Ho|]. etransitivity; [|exact Hlen]. apply Nat.leb_le. by vm_compute.
  - exists s2, s3. exact E3.
Defined.
