(* ===== verification/RowStream.v ===== *)
(** * Streamed result sets

    [query_stream_params_with] and [RowStream] of [src/lib.rs]: a result read
    chunk by chunk from the session's connection, which the stream borrows
    until it is dropped. *)
From S2P Require Import Prelude Bytes Text Cursor Value Message Frame Handshake Crypto Effect Sql Balancer Login Session SessionSpec.
#[local] Open Scope Z_scope.

Record RowStream := {
  columns : list bytes;
  affected : Z;
  chunk : list (list Value);
  more : list (list bytes * list (list Value));
  done : bool;
}.

Definition set_chunk rows r := {|
  columns := r.(columns); affected := r.(affected); chunk := rows; more := r.(more); done := r.(done) |}.
Definition set_done r := {|
  columns := r.(columns); affected := r.(affected); chunk := r.(chunk); more := r.(more); done := true |}.

Section stream.
Context {P : Type} `{Pool P}.
Context {G : Type} (kerberos : bool)
  (gss_new : bytes -> option bytes -> res bytes (G * bytes))
  (gss_step : G -> bytes -> res bytes (ClientStep G))
  (sha384 sha512 : bytes -> bytes).
Abbreviation session A := (eff DriverError (Session P) A).
Abbreviation reconnect := (reconnect kerberos gss_new gss_step sha384 sha512).
Abbreviation conn s := (s.(client).(stream)).

(** ** Starting *)

(** The responses [observe_statement] is called for. *)
Definition ran (r : Response) : bool :=
  match r with RowsHeader _ | Mutation _ | Ddl | ResultSets _ => true | _ => false end.

Definition query_stream_params_with (sql : bytes) (params : list Value) (k : Consistency) : session RowStream :=
  let req := encode_request (QueryStream sql params k) in
  sent ← attempt (transport (send req));
  _ ← match sent with
      | inl _ => mret tt
      | inr _ => _ ← reconnect; transport (send req)
      end;
  payload ← observed recv;
  resp ← of_res (map_err Proto (decode_response payload));
  _ ← (if ran resp then observe_statement sql else mret tt);
  match resp with
  | Error msg => raise (Server msg)
  | RowsHeader columns =>
      mret {| columns := columns; affected := 0; chunk := []; more := []; done := false |}
  | Mutation affected => mret {| columns := []; affected := affected; chunk := []; more := []; done := true |}
  | Ddl => mret {| columns := []; affected := 0; chunk := []; more := []; done := true |}
  | ResultSets sets =>
      let '(columns, rows) := default ([], []) (head sets) in
      mret {| columns := columns; affected := 0; chunk := rows; more := tl sets; done := true |}
  | _ => raise (Server (str "unexpected response to QueryStream"))
  end.

Definition query_stream_with (sql : bytes) (k : Consistency) : session RowStream := query_stream_params_with sql [] k.

Definition query_stream_params (sql : bytes) (params : list Value) : session RowStream :=
  k ← ask default_consistency; query_stream_params_with sql params k.

Definition query_stream (sql : bytes) : session RowStream :=
  k ← ask default_consistency; query_stream_with sql k.

(** ** Reading *)

Abbreviation streaming A := (eff DriverError (Session P * RowStream) A).

Definition on_rows (f : RowStream -> RowStream) : streaming unit := changes (fun t => (t.1, f t.2)).
Definition on_client_of_rows {A} (m : session A) : streaming A := zoom fst (fun s t => (s, t.2)) m.

Definition next_result_set : streaming bool :=
  r ← reads_state snd;
  match r.(more) with
  | (columns, rows) :: more =>
      _ ← on_rows (fun r => {| columns := columns; affected := r.(affected); chunk := rows; more := more;
                               done := r.(done) |});
      mret true
  | [] => mret false
  end.

Definition next_frame : streaming unit :=
  payload ← on_client_of_rows (transport recv);
  resp ← of_res (map_err Proto (decode_response payload));
  match resp with
  | RowsChunk rows => on_rows (set_chunk rows)
  | RowsEnd => on_rows set_done
  | Error msg => _ ← on_rows set_done; raise (Server msg)
  | _ => _ ← on_rows set_done; raise (Server (str "unexpected frame in row stream"))
  end.

(** [Iterator::next]; [Some(Err(e))] is the call failing.  A turn of the loop
    that does not end it takes a frame. *)
Fixpoint next_loop (fuel : nat) : streaming (option (list Value)) :=
  match fuel with
  | O => fun t => (OutOfFuel, t)
  | S fuel =>
      r ← reads_state snd;
      match r.(chunk) with
      | row :: rows => _ ← on_rows (set_chunk rows); mret (Some row)
      | [] =>
          if r.(done) then mret None
          else
            _ ← handle next_frame (fun e => _ ← on_rows set_done; raise e);
            next_loop fuel
      end
  end.

Definition turns (t : Session P * RowStream) : nat := S (length (conn t.1).(st_in)).

Definition next : streaming (option (list Value)) := fun t => next_loop (S (turns t)) t.

(** [Drop::drop]. *)
Fixpoint drain (fuel : nat) : streaming unit :=
  match fuel with
  | O => fun t => (OutOfFuel, t)
  | S fuel =>
      r ← reads_state snd;
      if r.(done) then mret tt
      else
        read ← attempt next_frame;
        match read with
        | inl _ => drain fuel
        | inr _ => mret tt
        end
  end.

Definition drop_stream_rows : streaming unit := fun t => drain (S (turns t)) t.

(** A caller that takes at most [n] rows. *)
Fixpoint take_rows (n : nat) : streaming (list (list Value)) :=
  match n with
  | O => mret []
  | S n =>
      row ← next;
      match row with
      | Some row => rows ← take_rows n; mret (row :: rows)
      | None => mret []
      end
  end.

(** ** Frames and the connection *)

Implicit Types s : Session P.

Lemma next_frame_Ok s r s' r' :
  next_frame (s, r) = (Ok tt, (s', r')) ->
  exists payload, (conn s).(st_in) = frame payload ++ (conn s').(st_in).
Proof.
  intros (payload & [s1 r1] & Hr & Hx)%bind_done. unfold on_client_of_rows, zoom in Hr. cbn [fst snd] in Hr.
  destruct (transport recv s) as [q s2] eqn:E. injection Hr as -> -> <-.
  apply (acts_done _ _ _ _ _ (transport_acts _)) in E as [(Hin & _ & _)%recv_Ok _]. exists payload.
  apply bind_done in Hx as (resp & [s3 r3] & Hd & Hx). unfold of_res in Hd. injection Hd as _ <- <-.
  destruct resp; try done; by injection Hx as <- _.
Qed.

Lemma frame_shorter payload l l' : l = frame payload ++ l' -> (length l' < length l)%nat.
Proof. intros ->. unfold frame. rewrite !length_app, be_bytes_length. lia. Qed.

Lemma next_frame_turns s r s' r' : next_frame (s, r) = (Ok tt, (s', r')) -> (turns (s', r') < turns (s, r))%nat.
Proof. intros (payload & Hin%frame_shorter)%next_frame_Ok. unfold turns. cbn [fst]. lia. Qed.

Lemma next_frame_safe : safe next_frame.
Proof.
  apply safe_bind.
  { apply safe_zoom. eapply acts_safe; [apply transport_acts|apply recv_safe]. }
  intros payload [s r] t Hr. unfold on_client_of_rows, zoom in Hr. cbn [fst snd] in Hr.
  destruct (transport recv s) as [q s2] eqn:E. injection Hr as -> <-.
  apply (acts_done _ _ _ _ _ (transport_acts _)) in E as [(_ & Hl & _)%recv_Ok _]. generalize (s2, r).
  apply safe_bind'; [by apply safe_of_res, returns_map_err, response_returns|]. by intros [].
Qed.

(** One turn per frame, and one more. *)
Lemma next_loop_returns fuel t : (turns t < fuel)%nat -> returns (next_loop fuel t).1.
Proof.
  revert t. induction fuel as [|fuel IH]; intros [s r] Hf; [lia|]. cbn [next_loop].
  erewrite bind_step by reflexivity. cbn [snd]. destruct (chunk r); [|done]. destruct (RowStream.done r); [done|].
  pose proof (next_frame_safe (s, r)) as Hs. unfold mbind, eff_bind, handle.
  destruct (next_frame (s, r)) as [[[]|e| |] [s1 r1]] eqn:E; try done. apply IH.
  apply next_frame_turns in E. lia.
Qed.

Lemma drain_returns fuel t : (turns t < fuel)%nat -> returns (drain fuel t).1.
Proof.
  revert t. induction fuel as [|fuel IH]; intros [s r] Hf; [lia|]. cbn [drain].
  erewrite bind_step by reflexivity. cbn [snd]. destruct (RowStream.done r); [done|].
  pose proof (next_frame_safe (s, r)) as Hs. unfold mbind, eff_bind, attempt.
  destruct (next_frame (s, r)) as [[[]|e| |] [s1 r1]] eqn:E; try done. apply IH.
  apply next_frame_turns in E. lia.
Qed.

(** ** A stream of chunks *)

Definition reads_as (payload : bytes) (r : Response) : Prop :=
  len payload <= MAX_FRAME_LEN /\ decode_response payload = Ok r.

(** Chunk frames holding these rows. *)
Definition chunks (payloads : list bytes) (rowss : list (list (list Value))) : Prop :=
  Forall2 (fun p rows => reads_as p (RowsChunk rows)) payloads rowss.

(** What is left of a stream: the rows to come, then [l] on the connection. *)
Definition pending (s : Session P) (r : RowStream) (rows : list (list Value)) (l : bytes) : Prop :=
  if r.(done) then rows = r.(chunk) /\ (conn s).(st_in) = l
  else exists payloads rowss last,
    rows = r.(chunk) ++ concat rowss /\ chunks payloads rowss /\ reads_as last RowsEnd
    /\ (conn s).(st_in) = concat (map frame payloads) ++ frame last ++ l.

Definition silent (s s' : Session P) : Prop := (conn s').(st_sent) = (conn s).(st_sent).

Lemma next_frame_reads payload resp l s :
  reads_as payload resp -> (conn s).(st_in) = frame payload ++ l ->
  exists s', silent s s' /\ (conn s').(st_in) = l
    /\ forall r, next_frame (s, r)
         = (match resp with
            | RowsChunk rows => on_rows (set_chunk rows)
            | RowsEnd => on_rows set_done
            | Error msg => _ ← on_rows set_done; raise (Server msg)
            | _ => _ ← on_rows set_done; raise (Server (str "unexpected frame in row stream"))
            end) (s', r).
Proof.
  intros [Hl Hd] Hin.
  destruct (acts_step _ _ s _ _ (transport_acts _) (recv_frame payload l _ Hl Hin)) as (s' & E & Hc & _).
  exists s'. unfold silent. rewrite Hc. split_and!; [done..|]. intros r. unfold next_frame.
  erewrite bind_step; [|unfold on_client_of_rows; apply zoom_step; exact E].
  erewrite bind_step; [|unfold of_res; by rewrite Hd]. done.
Qed.

Lemma next_loop_pending fuel s r rows l :
  (turns (s, r) < fuel)%nat -> pending s r rows l ->
  exists s' r', next_loop fuel (s, r) = (Ok (head rows), (s', r')) /\ pending s' r' (tl rows) l /\ silent s s'.
Proof.
  revert s r. induction fuel as [|fuel IH]; intros s r Hf Hp; [lia|]. cbn [next_loop].
  erewrite bind_step by reflexivity. cbn [snd]. unfold pending in Hp. destruct (chunk r) as [|row rows'] eqn:Ec.
  - destruct (RowStream.done r) eqn:Ed.
    { destruct Hp as [-> Hin]. exists s, r. unfold pending. by rewrite Ed, Ec. }
    destruct Hp as (ps & rowss & last & -> & Hch & Hlast & Hin).
    destruct Hch as [|p rows1 ps rowss Hp1 Hch]; cbn [map concat app] in *.
    + destruct (next_frame_reads last RowsEnd l s Hlast Hin) as (s1 & Hs1 & Hin1 & E).
      unfold mbind at 1, eff_bind at 1, handle. rewrite E. cbn.
      destruct (IH s1 (set_done r)) as (s' & r' & E' & Hp' & Hs').
      { unfold turns in *. cbn [fst] in *. rewrite Hin1. apply frame_shorter in Hin. lia. }
      { unfold pending. cbn. by rewrite Ec. }
      exists s', r'. unfold silent in *. split_and!; [exact E'|done|congruence].
    + rewrite <- app_assoc in Hin.
      destruct (next_frame_reads p (RowsChunk rows1) _ s Hp1 Hin) as (s1 & Hs1 & Hin1 & E).
      unfold mbind at 1, eff_bind at 1, handle. rewrite E. cbn.
      destruct (IH s1 (set_chunk rows1 r)) as (s' & r' & E' & Hp' & Hs').
      { unfold turns in *. cbn [fst] in *. rewrite Hin1. apply frame_shorter in Hin. lia. }
      { unfold pending. cbn [chunk set_chunk RowStream.done]. rewrite Ed. by exists ps, rowss, last. }
      exists s', r'. unfold silent in *. split_and!; [exact E'|done|congruence].
  - exists s, (set_chunk rows' r).
    assert (E : rows = row :: tl rows /\ pending s (set_chunk rows' r) (tl rows) l).
    { unfold pending. cbn [chunk set_chunk RowStream.done]. destruct (RowStream.done r).
      - by destruct Hp as [-> Hin].
      - destruct Hp as (ps & rowss & last & -> & ?). split; [done|]. by exists ps, rowss, last. }
    destruct E as [E Hp']. split_and!; [by rewrite E|done|done].
Qed.

Lemma next_pending s r rows l :
  pending s r rows l ->
  exists s' r', next (s, r) = (Ok (head rows), (s', r')) /\ pending s' r' (tl rows) l /\ silent s s'.
Proof. intros Hp. apply next_loop_pending; [lia|done]. Qed.

Lemma drain_pending fuel s r rows l :
  (turns (s, r) < fuel)%nat -> pending s r rows l ->
  exists s' r', drain fuel (s, r) = (Ok tt, (s', r')) /\ (conn s').(st_in) = l /\ silent s s'.
Proof.
  revert s r rows. induction fuel as [|fuel IH]; intros s r rows Hf Hp; [lia|]. cbn [drain].
  erewrite bind_step by reflexivity. cbn [snd]. unfold pending in Hp. destruct (RowStream.done r) eqn:Ed.
  { destruct Hp as [-> Hin]. by exists s, r. }
  destruct Hp as (ps & rowss & last & _ & Hch & Hlast & Hin).
  destruct Hch as [|p rows1 ps rowss Hp1 Hch]; cbn [map concat app] in *; [|rewrite <- app_assoc in Hin].
  - destruct (next_frame_reads last RowsEnd l s Hlast Hin) as (s1 & Hs1 & Hin1 & E).
    unfold mbind, eff_bind, attempt. rewrite E. cbn.
    destruct (IH s1 (set_done r) (chunk r)) as (s' & r' & E' & Hp' & Hs').
    { unfold turns in *. cbn [fst] in *. rewrite Hin1. apply frame_shorter in Hin. lia. }
    { done. }
    exists s', r'. unfold silent in *. split_and!; [exact E'|done|congruence].
  - destruct (next_frame_reads p (RowsChunk rows1) _ s Hp1 Hin) as (s1 & Hs1 & Hin1 & E).
    unfold mbind, eff_bind, attempt. rewrite E. cbn.
    destruct (IH s1 (set_chunk rows1 r) (rows1 ++ concat rowss)) as (s' & r' & E' & Hp' & Hs').
    { unfold turns in *. cbn [fst] in *. rewrite Hin1. apply frame_shorter in Hin. lia. }
    { unfold pending. cbn [chunk set_chunk RowStream.done]. rewrite Ed. by exists ps, rowss, last. }
    exists s', r'. unfold silent in *. split_and!; [exact E'|done|congruence].
Qed.

Lemma take_rows_pending n s r rows l :
  pending s r rows l ->
  exists s' r', take_rows n (s, r) = (Ok (take n rows), (s', r')) /\ pending s' r' (drop n rows) l /\ silent s s'.
Proof.
  revert s r rows. induction n as [|n IH]; intros s r rows Hp; cbn [take_rows].
  { exists s, r. by rewrite drop_0. }
  destruct (next_pending s r rows l Hp) as (s1 & r1 & E & Hp1 & Hs1). rewrite (bind_step _ _ _ _ _ E).
  destruct rows as [|row rows]; cbn [head tl] in *.
  - by exists s1, r1.
  - destruct (IH s1 r1 rows Hp1) as (s2 & r2 & E2 & Hp2 & Hs2). rewrite (bind_step _ _ _ _ _ E2).
    exists s2, r2. unfold silent in *. split_and!; [done|done|congruence].
Qed.

(** ** Starting a stream *)

Lemma observe_statement_done sql s :
  utf8_valid sql = true ->
  exists s', observe_statement sql s = (Ok tt, s') /\ conn s' = conn s.
Proof.
  intros Hu. unfold observe_statement. destruct (link (client s)); [|by exists s].
  destruct (_ && _); [|by exists s]. destruct (is_write_total sql Hu) as [[] ->]; by eexists.
Qed.

Definition stream_request (sql : bytes) (params : list Value) (k : Consistency) : bytes :=
  encode_request (QueryStream sql params k).

Lemma query_stream_starts sql params k payload resp l s n :
  utf8_valid sql = true -> len (stream_request sql params k) <= MAX_FRAME_LEN ->
  keen (length (frame (stream_request sql params k)) + S n) (conn s).(st_out) ->
  reads_as payload resp -> (conn s).(st_in) = frame payload ++ l ->
  exists s',
    (query_stream_params_with sql params k s).2 = s'
    /\ (query_stream_params_with sql params k s).1
       = match resp with
         | Error msg => Err (Server msg)
         | RowsHeader columns =>
             Ok {| columns := columns; affected := 0; chunk := []; more := []; done := false |}
         | Mutation affected => Ok {| columns := []; affected := affected; chunk := []; more := []; done := true |}
         | Ddl => Ok {| columns := []; affected := 0; chunk := []; more := []; done := true |}
         | ResultSets sets =>
             let '(columns, rows) := default ([], []) (head sets) in
             Ok {| columns := columns; affected := 0; chunk := rows; more := tl sets; done := true |}
         | _ => Err (Server (str "unexpected response to QueryStream"))
         end
    /\ (conn s').(st_in) = l
    /\ (conn s').(st_sent) = (conn s).(st_sent) ++ frame (stream_request sql params k).
Proof.
  intros Hu Hq Hk [Hl Hd] Hin. destruct (send_done _ n (conn s) Hq Hk) as (out & Es & _).
  destruct (acts_step _ _ s _ _ (transport_acts _) Es) as (s1 & E1 & Hc1 & _).
  assert (Hin1 : (conn s1).(st_in) = frame payload ++ l) by by rewrite Hc1.
  destruct (acts_step _ recv s1 _ _ (observed_acts _) (recv_frame payload l _ Hl Hin1))
    as (s2 & E2 & Hc2 & _).
  destruct (observe_statement_done sql s2 Hu) as (s3 & E3 & Hc3).
  eexists. split; [reflexivity|]. unfold query_stream_params_with.
  erewrite bind_step; [|apply attempt_Ok; exact E1]. cbv beta iota. erewrite bind_step by reflexivity.
  rewrite (bind_step _ _ _ _ _ E2). erewrite bind_step; [|unfold of_res; by rewrite Hd].
  destruct resp; cbn [ran]; try (erewrite bind_step by reflexivity); try (rewrite (bind_step _ _ _ _ _ E3));
    try destruct (default _ _) as [cols rows]; cbn; rewrite ?Hc3, Hc2, Hc1; done.
Qed.

Lemma take_rows_ended n s r :
  RowStream.done r = true -> exists r', take_rows n (s, r) = (Ok (take n (chunk r)), (s, r')).
Proof.
  revert r. induction n as [|n IH]; intros r Hd; cbn [take_rows]; [by exists r|].
  destruct (chunk r) as [|row rows] eqn:Ec.
  - exists r. assert (E : next (s, r) = (Ok None, (s, r))).
    { unfold next. cbn [next_loop]. erewrite bind_step by reflexivity. cbn [snd]. by rewrite Ec, Hd. }
    by rewrite (bind_step _ _ _ _ _ E).
  - assert (E : next (s, r) = (Ok (Some row), (s, set_chunk rows r))).
    { unfold next. cbn [next_loop]. erewrite bind_step by reflexivity. cbn [snd]. by rewrite Ec. }
    rewrite (bind_step _ _ _ _ _ E). destruct (IH (set_chunk rows r) Hd) as (r' & E').
    rewrite (bind_step _ _ _ _ _ E'). by exists r'.
Qed.

(** [n] calls of [next_result_set]. *)
Fixpoint skip_sets (n : nat) : streaming unit :=
  match n with
  | O => mret tt
  | S n => _ ← next_result_set; skip_sets n
  end.

Lemma skip_sets_at sets cols rows set i s :
  (set :: sets) !! i = Some (cols, rows) ->
  exists sets', skip_sets i (s, {| columns := set.1; affected := 0; chunk := set.2; more := sets; done := true |})
    = (Ok tt, (s, {| columns := cols; affected := 0; chunk := rows; more := sets'; done := true |})).
Proof.
  revert set sets. induction i as [|i IH]; intros set sets Hi.
  - injection Hi as ->. by exists sets.
  - destruct sets as [|[cols1 rows1] sets]; [done|]. destruct (IH (cols1, rows1) sets Hi) as (sets' & E).
    exists sets'. cbn [skip_sets]. erewrite bind_step by reflexivity. exact E.
Qed.

(** ** Properties *)

(** C14: a streamed result is the concatenation of its chunks: whatever the
    chunks' sizes, empty ones included, a caller that takes [n] rows gets the
    first [n] of the result, in order; and wherever it stops, dropping the
    stream leaves the connection just after the result's last frame, with
    nothing sent but the request. *)
Theorem row_stream_yields_rows sql params k header cols payloads rowss last l n s :
  utf8_valid sql = true -> len (stream_request sql params k) <= MAX_FRAME_LEN ->
  keen (length (frame (stream_request sql params k)) + 1) (conn s).(st_out) ->
  reads_as header (RowsHeader cols) -> chunks payloads rowss -> reads_as last RowsEnd ->
  (conn s).(st_in) = frame header ++ concat (map frame payloads) ++ frame last ++ l ->
  exists r s1 t2 t3,
    query_stream_params_with sql params k s = (Ok r, s1) /\ r.(columns) = cols
    /\ take_rows n (s1, r) = (Ok (take n (concat rowss)), t2)
    /\ drop_stream_rows t2 = (Ok tt, t3)
    /\ (conn t3.1).(st_in) = l
    /\ (conn t3.1).(st_sent) = (conn s).(st_sent) ++ frame (stream_request sql params k).
Proof.
  intros Hu Hq Hk Hh Hch Hlast Hin.
  destruct (query_stream_starts sql params k header _ _ s 0 Hu Hq Hk Hh Hin) as (s1 & E2 & E1 & Hin1 & Hs1).
  destruct (query_stream_params_with sql params k s) as [q s1'] eqn:E. cbn [fst snd] in *. subst q s1'.
  set (r := {| columns := cols; affected := 0; chunk := []; more := []; done := false |}).
  assert (Hp : pending s1 r (concat rowss) l) by (exists payloads, rowss, last; done).
  destruct (take_rows_pending n s1 r _ l Hp) as (s2 & r2 & E2 & Hp2 & Hs2).
  destruct (drain_pending (S (turns (s2, r2))) s2 r2 _ l (Nat.lt_succ_diag_r _) Hp2) as (s3 & r3 & E3 & Hin3 & Hs3).
  exists r, s1, (s2, r2), (s3, r3). unfold silent in *. split_and!; [done..|]. cbn [fst]. congruence.
Qed.


(** A chunk the driver cannot read puts the connection out of step: the
    stream reports the error and counts as finished, dropping it reads nothing
    more, and the next statement is given the stream's next frame as its own
    answer. *)
Theorem unreadable_chunk_desyncs bad e answer rest sql k cols s :
  s.(client).(link) = None ->
  len bad <= MAX_FRAME_LEN -> decode_response bad = Err e -> reads_as answer (RowsChunk rest) ->
  forall l, (conn s).(st_in) = frame bad ++ frame answer ++ l ->
  let q := request_encode {| r_sql := sql; r_consistency := k |} in
  len q <= MAX_FRAME_LEN -> keen (length (frame q) + 1) (conn s).(st_out) ->
  exists t1 s2,
    next (s, {| columns := cols; affected := 0; chunk := []; more := []; done := false |}) = (Err (Proto e), t1)
    /\ drop_stream_rows t1 = (Ok tt, t1)
    /\ try_execute sql k t1.1 = (Ok (RowsChunk rest), s2) /\ (conn s2).(st_in) = l.
Proof.
  intros Hl Hb Hd [Hal Had] l Hin q Hq Hk.
  destruct (acts_step _ _ s _ _ (transport_acts _) (recv_frame bad _ _ Hb Hin)) as (s1 & E & Hc & _).
  assert (Hl1 : link (client s1) = None) by (pose proof (transport_link recv s Hl) as Hx; by rewrite E in Hx).
  set (r := {| columns := cols; affected := 0; chunk := []; more := []; done := false |}).
  assert (Ef : next_frame (s, r) = (Err (Proto e), (s1, r))).
  { unfold next_frame. erewrite bind_step; [|unfold on_client_of_rows; apply zoom_step; exact E].
    apply bind_fails. unfold of_res. by rewrite Hd. }
  destruct (send_done q 0 (conn s1) Hq) as (out & Es & _); [by rewrite Hc|].
  assert (Ex : exchange q (conn s1) = (Ok answer, after_read l (after_write out (frame q) (conn s1)))).
  { unfold exchange. rewrite (bind_step _ _ _ _ _ Es). apply (recv_frame answer); [done|]. by rewrite Hc. }
  destruct (observed_done _ s1 _ _ Hl1 Ex) as (s2 & E2 & Hc2 & _).
  exists (s1, set_done r), s2. split_and!.
  - unfold next. cbn [next_loop]. erewrite bind_step by reflexivity. cbn [snd r chunk RowStream.done].
    apply bind_fails. unfold handle. by rewrite Ef.
  - done.
  - cbn [fst]. unfold try_execute. fold q. rewrite (bind_step _ _ _ _ _ E2). unfold response_of.
    erewrite bind_step; [|unfold of_res; by rewrite Had]. done.
  - by rewrite Hc2.
Qed.

(** The result sets of a [CALL] arrive in one response and are walked in
    order: after [i] calls of [next_result_set] the stream describes the [i]th
    set and yields exactly its rows, and nothing more is read. *)
Theorem emitted_sets_walked sql params k payload sets l s :
  utf8_valid sql = true -> len (stream_request sql params k) <= MAX_FRAME_LEN ->
  keen (length (frame (stream_request sql params k)) + 1) (conn s).(st_out) ->
  reads_as payload (ResultSets sets) -> (conn s).(st_in) = frame payload ++ l ->
  exists r s1,
    query_stream_params_with sql params k s = (Ok r, s1) /\ (conn s1).(st_in) = l
    /\ forall i cols rows n, sets !! i = Some (cols, rows) ->
         exists r' r2, skip_sets i (s1, r) = (Ok tt, (s1, r')) /\ r'.(columns) = cols
           /\ take_rows n (s1, r') = (Ok (take n rows), (s1, r2)).
Proof.
  intros Hu Hq Hk Hh Hin.
  destruct (query_stream_starts sql params k payload _ l s 0 Hu Hq Hk Hh Hin) as (s1 & E2 & E1 & Hin1 & Hs1).
  destruct (query_stream_params_with sql params k s) as [q s1'] eqn:E. cbn [fst snd] in *. subst s1'.
  destruct sets as [|[cols0 rows0] sets]; cbn [head default tl] in E1; subst q; eexists _, s1;
    (split_and!; [done|done|]); [by intros i cols rows n Hi; rewrite lookup_nil in Hi|].
  intros i cols rows n Hi. destruct (skip_sets_at sets cols rows (cols0, rows0) i s1 Hi) as (sets' & Ei).
  set (r' := {| columns := cols; affected := 0; chunk := rows; more := sets'; done := true |}) in *.
  destruct (take_rows_ended n s1 r' eq_refl) as (r2 & Et). exists r', r2. by split_and!.
Qed.

End stream.

(** ** Witnesses *)

Definition wit_stream_sql : bytes := str "SELECT a FROM t".
Definition wit_chunk (n : Z) : Response := RowsChunk [[VInt n]; [VInt (n + 1)]].

Lemma wit_reads r : bool_decide (len (encode_response r) <= MAX_FRAME_LEN) = true ->
  decode_response (encode_response r) = Ok r -> reads_as (encode_response r) r.
Proof. intros Hl Hd. split; [by apply bool_decide_eq_true in Hl|done]. Qed.

Definition wit_chunk_frames : list bytes := map encode_response [wit_chunk 1; RowsChunk []; wit_chunk 3].

Lemma row_stream_yields_rows_witness :
  exists r s1 t2,
    query_stream_params_with false no_gss_new no_gss_step sha256 sha256 wit_stream_sql [] Quorum
      (wit_session (wit_stream (frame (encode_response (RowsHeader [str "a"])) ++ concat (map frame wit_chunk_frames)
         ++ frame (encode_response RowsEnd) ++ str "next")) []) = (Ok r, s1)
    /\ take_rows 3 (s1, r) = (Ok [[VInt 1]; [VInt 2]; [VInt 3]], t2).
Proof.
  destruct (row_stream_yields_rows false no_gss_new no_gss_step sha256 sha256 wit_stream_sql [] Quorum
    (encode_response (RowsHeader [str "a"])) [str "a"] wit_chunk_frames
    [[[VInt 1]; [VInt 2]]; []; [[VInt 3]; [VInt 4]]] (encode_response RowsEnd) (str "next") 3
    (wit_session (wit_stream (frame (encode_response (RowsHeader [str "a"])) ++ concat (map frame wit_chunk_frames)
         ++ frame (encode_response RowsEnd) ++ str "next")) [])) as (r & s1 & t2 & t3 & E1 & _ & E2 & _).
  - reflexivity.
  - by vm_compute.
  - split; [by vm_compute|]. apply Nat.leb_le. by vm_compute.
  - by apply wit_reads; vm_compute.
  - unfold chunks, wit_chunk_frames. cbn [map].
    constructor; [by apply wit_reads; vm_compute|]. constructor; [by apply wit_reads; vm_compute|].
    constructor; [by apply wit_reads; vm_compute|constructor].
  - by apply wit_reads; vm_compute.
  - reflexivity.
  - exists r, s1, t2. split; [exact E1|exact E2].
Defined.

(** A chunk with a tag this driver does not know, and the chunk after it. *)
Definition wit_unreadable : bytes := [xff].
Definition wit_midstream : Session PoolWorld :=
  wit_session (wit_stream (frame wit_unreadable ++ frame (encode_response (wit_chunk 1)) ++ [])) [].

Lemma unreadable_chunk_desyncs_witness :
  exists e t1 s2,
    next (wit_midstream, {| columns := [str "a"]; affected := 0; chunk := []; more := []; done := false |})
      = (Err (Proto e), t1)
    /\ try_execute wit_stream_sql Quorum t1.1 = (Ok (wit_chunk 1), s2).
Proof.
  destruct (decode_response wit_unreadable) as [r|e| |] eqn:Ed; [vm_compute in Ed; discriminate| |vm_compute in Ed; discriminate..].
  destruct (unreadable_chunk_desyncs wit_unreadable e (encode_response (wit_chunk 1)) [[VInt 1]; [VInt 2]] wit_stream_sql
              Quorum [str "a"] wit_midstream) with (l := @nil Byte.byte) as (t1 & s2 & E1 & _ & E2 & _).
  - reflexivity.
  - by vm_compute.
  - exact Ed.
  - by apply wit_reads; vm_compute.
  - reflexivity.
  - by vm_compute.
  - split; [by vm_compute|]. apply Nat.leb_le. by vm_compute.
  - exists e, t1, s2. split; [exact E1|exact E2].
Defined.

Definition wit_sets : list (list bytes * list (list Value)) :=
  [([str "a"], [[VInt 1]]); ([str "b"], [[VInt 2]; [VInt 3]])].

Lemma emitted_sets_walked_witness :
  exists r s1 r' r2,
    query_stream_params_with false no_gss_new no_gss_step sha256 sha256 (str "CALL p()") [] Quorum
      (wit_session (wit_stream (frame (encode_response (ResultSets wit_sets)) ++ [])) []) = (Ok r, s1)
    /\ skip_sets 1 (s1, r) = (Ok tt, (s1, r'))
    /\ take_rows 9 (s1, r') = (Ok [[VInt 2]; [VInt 3]], (s1, r2)).
Proof.
  destruct (emitted_sets_walked false no_gss_new no_gss_step sha256 sha256 (str "CALL p()") [] Quorum
    (encode_response (ResultSets wit_sets)) wit_sets []
    (wit_session (wit_stream (frame (encode_response (ResultSets wit_sets)) ++ [])) [])) as (r & s1 & E & _ & Hw).
  - reflexivity.
  - by vm_compute.
  - split; [by vm_compute|]. apply Nat.leb_le. by vm_compute.
  - by apply wit_reads; vm_compute.
  - reflexivity.
  - destruct (Hw 1%nat [str "b"] [[VInt 2]; [VInt 3]] 9%nat eq_refl) as (r' & r2 & E1 & _ & E2).
    exists r, s1, r', r2. split; [exact E|]. split; [exact E1|exact E2].
Defined.
