(* ===== verification/FactoryPool.v ===== *)
(** * The plain connection pool

    [Pool::new] of [src/lib.rs]: a pool that opens connections with a function
    of the caller's and keeps idle ones.  Each operation is a few steps under
    one mutex each, which other threads' steps come between; no step panics, so
    no mutex is ever poisoned. *)
From stdpp Require Import list.
From S2P Require Import Prelude Bytes Text Login.

Record Factory {client : Type} := { maxsize : nat; idle : list client; closed : bool }.
Arguments Factory : clear implicits.

Section pool.
Context {client : Type}.
Abbreviation Factory := (Factory client).

Definition with_idle l (p : Factory) : Factory := {| maxsize := p.(maxsize); idle := l; closed := p.(closed) |}.
Definition set_closed (p : Factory) : Factory := {| maxsize := p.(maxsize); idle := p.(idle); closed := true |}.

(** [assert!(maxsize >= 1)]. *)
Definition pool_new (maxsize : nat) : res DriverError Factory :=
  if (1 <=? maxsize)%nat then Ok {| maxsize := maxsize; idle := []; closed := false |} else Panic.

Definition closed_error : DriverError := NoEndpoint (str "pool is closed") None.

(** ** The steps *)

(** [idle.pop()]: the last one in. *)
Definition pop_idle (p : Factory) : option client * Factory :=
  match last p.(idle) with
  | Some c => (Some c, with_idle (removelast p.(idle)) p)
  | None => (None, p)
  end.

Definition push_idle (c : client) (p : Factory) : Factory :=
  if (length p.(idle) <? p.(maxsize))%nat then with_idle (p.(idle) ++ [c]) p else p.

Definition clear_idle (p : Factory) : Factory := with_idle [] p.

(** ** The operations, uninterrupted *)

Section operations.
Context {W : Type} (make : W -> res DriverError client * W).

Definition acquire (t : Factory * W) : res DriverError client * (Factory * W) :=
  let '(p, w) := t in
  if p.(closed) then (Err closed_error, t)
  else
    match pop_idle p with
    | (Some c, p) => (Ok c, (p, w))
    | (None, p) => let '(r, w) := make w in (r, (p, w))
    end.

Definition release (c : client) (p : Factory) : Factory := if p.(closed) then p else push_idle c p.

Definition close (p : Factory) : Factory := clear_idle (set_closed p).

Definition idle_len (p : Factory) : nat := length p.(idle).

(** [Pool::with]. *)
Definition with_client {T} (work : client -> W -> res DriverError T * W) (t : Factory * W)
    : res DriverError T * (Factory * W) :=
  match acquire t with
  | (Ok c, (p, w)) => let '(r, w) := work c w in (r, (release c p, w))
  | (Err e, t) => (Err e, t)
  | (Panic, t) => (Panic, t)
  | (OutOfFuel, t) => (OutOfFuel, t)
  end.
End operations.
End pool.

(** ** Interleavings

    A client is known by its socket. *)
#[local] Abbreviation client := nat.

(** Where each running call is: about to read [closed] or past it. *)
Inductive running :=
| Acquiring
| Popping
| Releasing (c : client)
| Pushing (c : client)
| Closing
| Clearing.

(** The pool, the calls running on it, the connections callers hold, and the
    next socket. *)
Record Threads := { shared : Factory client; calls : list running; held : list client; fresh : nat }.

Inductive step : Threads -> Threads -> Prop :=
| s_start c p cs h n :
    match c with Acquiring | Closing => True | _ => False end ->
    step {| shared := p; calls := cs; held := h; fresh := n |}
         {| shared := p; calls := c :: cs; held := h; fresh := n |}
| s_open p cs h n :
    step {| shared := p; calls := cs; held := h; fresh := n |}
         {| shared := p; calls := cs; held := n :: h; fresh := S n |}
| s_drop p cs h1 c h2 n :
    step {| shared := p; calls := cs; held := h1 ++ c :: h2; fresh := n |}
         {| shared := p; calls := cs; held := h1 ++ h2; fresh := n |}
| s_release p cs h1 c h2 n :
    step {| shared := p; calls := cs; held := h1 ++ c :: h2; fresh := n |}
         {| shared := p; calls := Releasing c :: cs; held := h1 ++ h2; fresh := n |}
| s_acquire p cs1 cs2 h n :
    step {| shared := p; calls := cs1 ++ Acquiring :: cs2; held := h; fresh := n |}
         {| shared := p; calls := (if p.(closed) then [] else [Popping]) ++ cs1 ++ cs2; held := h; fresh := n |}
| s_pop_idle p cs1 cs2 h n c p' :
    pop_idle p = (Some c, p') ->
    step {| shared := p; calls := cs1 ++ Popping :: cs2; held := h; fresh := n |}
         {| shared := p'; calls := cs1 ++ cs2; held := c :: h; fresh := n |}
| s_pop_none p cs1 cs2 h n (made : bool) p' :
    pop_idle p = (None, p') ->
    step {| shared := p; calls := cs1 ++ Popping :: cs2; held := h; fresh := n |}
         {| shared := p'; calls := cs1 ++ cs2; held := if made then n :: h else h;
            fresh := if made then S n else n |}
| s_released p cs1 c cs2 h n :
    step {| shared := p; calls := cs1 ++ Releasing c :: cs2; held := h; fresh := n |}
         {| shared := p; calls := (if p.(closed) then [] else [Pushing c]) ++ cs1 ++ cs2; held := h; fresh := n |}
| s_push p cs1 c cs2 h n :
    step {| shared := p; calls := cs1 ++ Pushing c :: cs2; held := h; fresh := n |}
         {| shared := push_idle c p; calls := cs1 ++ cs2; held := h; fresh := n |}
| s_close p cs1 cs2 h n :
    step {| shared := p; calls := cs1 ++ Closing :: cs2; held := h; fresh := n |}
         {| shared := set_closed p; calls := Clearing :: cs1 ++ cs2; held := h; fresh := n |}
| s_clear p cs1 cs2 h n :
    step {| shared := p; calls := cs1 ++ Clearing :: cs2; held := h; fresh := n |}
         {| shared := clear_idle p; calls := cs1 ++ cs2; held := h; fresh := n |}.

Inductive reachable (t0 : Threads) : Threads -> Prop :=
| r_start : reachable t0 t0
| r_step t t' : reachable t0 t -> step t t' -> reachable t0 t'.

Definition start (p : Factory client) : Threads := {| shared := p; calls := []; held := []; fresh := 0 |}.

(** The connections of calls that are giving one back. *)
Definition giving (r : running) : list client :=
  match r with Releasing c | Pushing c => [c] | _ => [] end.
Definition in_flight (cs : list running) : list client := flat_map giving cs.

Definition everywhere (t : Threads) : list client :=
  t.(shared).(idle) ++ in_flight t.(calls) ++ t.(held).

(** ** The invariant *)

Definition sound (t : Threads) : Prop :=
  (length t.(shared).(idle) <= t.(shared).(maxsize))%nat
  /\ NoDup (everywhere t) /\ Forall (fun c => (c < t.(fresh))%nat) (everywhere t).

Lemma in_flight_app cs1 cs2 : in_flight (cs1 ++ cs2) = in_flight cs1 ++ in_flight cs2.
Proof. unfold in_flight. apply flat_map_app. Qed.

Lemma in_flight_cons r cs : in_flight (r :: cs) = giving r ++ in_flight cs.
Proof. done. Qed.

(** Fewer connections, or the same ones elsewhere. *)
Lemma sound_moved t t' :
  sound t -> (length t'.(shared).(idle) <= t'.(shared).(maxsize))%nat ->
  everywhere t' ⊆+ everywhere t -> (t.(fresh) <= t'.(fresh))%nat -> sound t'.
Proof.
  intros (_ & Hn & Hf) Hl [gone Hp]%submseteq_Permutation Hle. rewrite Hp in Hn, Hf.
  apply NoDup_app in Hn as [Hn _]. apply Forall_app in Hf as [Hf _]. split_and!; [done|done|].
  eapply Forall_impl; [exact Hf|]. cbv beta. lia.
Qed.

(** One connection more, just opened. *)
Lemma sound_fresh t t' :
  sound t -> (length t'.(shared).(idle) <= t'.(shared).(maxsize))%nat ->
  everywhere t' ≡ₚ t.(fresh) :: everywhere t -> t'.(fresh) = S t.(fresh) -> sound t'.
Proof.
  intros (_ & Hn & Hf) Hl Hp Hs. rewrite Forall_forall in Hf. split_and!; [done| |].
  - rewrite Hp. constructor; [|done]. intros Hc%Hf. lia.
  - rewrite Hp, Hs. constructor; [lia|]. apply Forall_forall. intros c Hc%Hf. lia.
Qed.

Lemma pop_idle_Some (p : Factory client) c p' :
  pop_idle p = (Some c, p') -> p.(idle) = p'.(idle) ++ [c] /\ p'.(maxsize) = p.(maxsize) /\ p'.(closed) = p.(closed).
Proof.
  unfold pop_idle. destruct p as [m l cl]. cbn. destruct l as [|x l] using rev_ind; [done|].
  rewrite last_snoc, removelast_last. by intros [= <- <-].
Qed.

Lemma pop_idle_None (p p' : Factory client) : pop_idle p = (None, p') -> p' = p /\ p.(idle) = [].
Proof.
  unfold pop_idle. destruct (last (idle p)) eqn:E; [done|]. intros [= <-]. by rewrite last_None in E.
Qed.

Ltac shuffle := unfold everywhere in *; cbn [shared calls held idle fresh] in *;
  rewrite ?in_flight_app, ?in_flight_cons, ?in_flight_app; cbn [giving app];
  rewrite ?app_nil_r, ?app_nil_l.

Lemma step_sound t t' : step t t' -> sound t -> sound t'.
Proof.
  intros Hstep Hs. assert (Hl := proj1 Hs).
  destruct Hstep as [c p cs h n Hc|p cs h n|p cs h1 c h2 n|p cs h1 c h2 n|p cs1 cs2 h n
    |p cs1 cs2 h n c p' Hp|p cs1 cs2 h n made p' Hp|p cs1 c cs2 h n|p cs1 c cs2 h n|p cs1 cs2 h n|p cs1 cs2 h n];
    cbn [shared] in Hl.
  - apply (sound_moved _ _ Hs); [done| |done]. shuffle. by destruct c.
  - apply (sound_fresh _ _ Hs); [done| |done]. shuffle. solve_Permutation.
  - apply (sound_moved _ _ Hs); [done| |done]. shuffle. solve_submseteq.
  - apply (sound_moved _ _ Hs); [done| |done]. shuffle. solve_submseteq.
  - apply (sound_moved _ _ Hs); [done| |done]. shuffle. destruct (closed p); cbn [app]; shuffle; solve_submseteq.
  - apply pop_idle_Some in Hp as (Ei & Em & _). rewrite Ei, length_app in Hl. cbn in Hl.
    apply (sound_moved _ _ Hs); [cbn; lia| |done]. shuffle. rewrite Ei. solve_submseteq.
  - apply pop_idle_None in Hp as [-> _]. destruct made.
    + apply (sound_fresh _ _ Hs); [done| |done]. shuffle. solve_Permutation.
    + apply (sound_moved _ _ Hs); [done| |done]. shuffle. solve_submseteq.
  - apply (sound_moved _ _ Hs); [done| |done]. shuffle. destruct (closed p); cbn [app]; shuffle; solve_submseteq.
  - unfold push_idle. destruct (Nat.ltb_spec (length (idle p)) (maxsize p)).
    + apply (sound_moved _ _ Hs); [cbn; rewrite length_app; cbn; lia| |done]. shuffle. solve_submseteq.
    + apply (sound_moved _ _ Hs); [done| |done]. shuffle. solve_submseteq.
  - apply (sound_moved _ _ Hs); [done| |done]. shuffle. solve_submseteq.
  - apply (sound_moved _ _ Hs); [cbn; lia| |done]. shuffle. solve_submseteq.
Qed.

Lemma step_maxsize t t' : step t t' -> t'.(shared).(maxsize) = t.(shared).(maxsize).
Proof.
  destruct 1 as [| | | | |p cs1 cs2 h n c p' Hp|p cs1 cs2 h n made p' Hp| | | |]; cbn [shared]; try done.
  - by apply pop_idle_Some in Hp as (_ & ? & _).
  - by apply pop_idle_None in Hp as [-> _].
  - unfold push_idle. by destruct (_ <? _)%nat.
Qed.

Lemma reachable_sound t0 t :
  reachable t0 t -> sound t0 -> sound t /\ t.(shared).(maxsize) = t0.(shared).(maxsize).
Proof.
  intros Hr H0. induction Hr as [|t t' _ [IH1 IH2] Hstep]; [done|].
  split; [by eapply step_sound|]. by rewrite (step_maxsize _ _ Hstep).
Qed.

Lemma reachable_trans t0 t1 t2 : reachable t0 t1 -> reachable t1 t2 -> reachable t0 t2.
Proof. intros H1. induction 1; [done|]. by eapply r_step. Qed.

Lemma reachable_one t t' : step t t' -> reachable t t'.
Proof. intros Hs. eapply r_step; [apply r_start|done]. Qed.

(** ** A closed pool *)

Definition pushing (r : running) : bool := match r with Pushing _ => true | _ => false end.

(** Closed, empty, and nothing past its check. *)
Definition shut (t : Threads) : Prop :=
  t.(shared).(closed) = true /\ t.(shared).(idle) = [] /\ forallb (fun r => negb (pushing r)) t.(calls) = true.

Lemma step_shut t t' : step t t' -> shut t -> shut t'.
Proof.
  intros Hstep (Hc & Hi & Hp).
  destruct Hstep as [c p cs h n Hx| | | |p cs1 cs2 h n|p cs1 cs2 h n c p' Hpop|p cs1 cs2 h n made p' Hpop
    |p cs1 c cs2 h n|p cs1 c cs2 h n|p cs1 cs2 h n|p cs1 cs2 h n];
    unfold shut; cbn [shared calls] in *; rewrite ?forallb_app in *; cbn [forallb negb pushing] in *;
    rewrite ?forallb_app, ?andb_true_iff in *; cbn [forallb pushing negb]; rewrite ?Hc; try done.
  - split_and!; try done. by destruct c.
  - split_and!; try done; apply Hp.
  - apply pop_idle_Some in Hpop as (Ei & _). rewrite Hi in Ei. by destruct (idle p').
  - apply pop_idle_None in Hpop as [-> _]. split_and!; try done; apply Hp.
  - split_and!; try done; apply Hp.
  - by destruct Hp as (_ & ? & _).
  - split_and!; try done; apply Hp.
  - split_and!; try done; apply Hp.
Qed.

(** ** Properties *)

(** C32: whatever calls run at once, a plain pool keeps at most [maxsize] idle
    connections and never gives one connection to two holders: every
    connection is idle, held by one caller or on its way back, in one place
    only. *)
Theorem factory_pool_sound m p t :
  pool_new m = Ok p -> reachable (start p) t ->
  (length t.(shared).(idle) <= m)%nat /\ NoDup (t.(shared).(idle) ++ in_flight t.(calls) ++ t.(held)).
Proof.
  intros Hp Hr. unfold pool_new in Hp. destruct (1 <=? m)%nat; [|done]. injection Hp as <-.
  destruct (reachable_sound _ _ Hr) as [(Hl & Hn & _) Hm].
  - split_and!; [cbn; lia|constructor|constructor].
  - by rewrite Hm in Hl.
Qed.

(** An operation nothing comes between is a run of its steps: the
    interleavings refine [acquire], [release] and [close] as they are written,
    with [make] opening the next socket or failing. *)
Theorem operations_are_runs p h n :
  (forall c h1 h2, h = h1 ++ c :: h2 ->
     reachable {| shared := p; calls := []; held := h; fresh := n |}
               {| shared := release c p; calls := []; held := h1 ++ h2; fresh := n |})
  /\ reachable {| shared := p; calls := []; held := h; fresh := n |}
               {| shared := close p; calls := []; held := h; fresh := n |}
  /\ forall made e,
       let make n := if made : bool then (Ok n, S n) else (Err e, n) in
       let '(r, (p', n')) := acquire make (p, n) in
       reachable {| shared := p; calls := []; held := h; fresh := n |}
                 {| shared := p'; calls := [];
                    held := match r with Ok c => c :: h | _ => h end; fresh := n' |}.
Proof.
  split_and!.
  - intros c h1 h2 ->. eapply reachable_trans; [apply reachable_one, s_release|].
    eapply reachable_trans; [apply reachable_one, (s_released p [] c [])|]. cbn [app]. unfold release.
    destruct (closed p); [apply r_start|]. apply reachable_one, (s_push p [] c []).
  - eapply reachable_trans; [by apply reachable_one, (s_start Closing)|].
    eapply reachable_trans; [apply reachable_one, (s_close p [] [])|].
    apply reachable_one, (s_clear _ [] []).
  - intros made e make. unfold acquire.
    assert (Ha : reachable {| shared := p; calls := []; held := h; fresh := n |}
      {| shared := p; calls := if closed p then [] else [Popping]; held := h; fresh := n |}).
    { eapply reachable_trans; [by apply reachable_one, (s_start Acquiring)|].
      replace (if closed p then [] else [Popping]) with ((if closed p then [] else [Popping]) ++ [] ++ [])
        by apply app_nil_r.
      apply reachable_one, (s_acquire p [] []). }
    destruct (closed p); [exact Ha|]. destruct (pop_idle p) as [[c|] p'] eqn:Ep.
    + eapply r_step; [exact Ha|]. by apply (s_pop_idle p [] []).
    + pose proof (s_pop_none p [] [] h n made p' Ep) as Hs. unfold make.
      destruct made; (eapply r_step; [exact Ha|]; exact Hs).
Qed.

(** A closed pool keeps no connection, except one whose release had read
    [closed] before the close: once closed and empty with no such release
    under way it stays empty through every interleaving, but from any state
    with room, a release and a close can end with the connection kept in the
    closed pool. *)
Theorem closed_pool_keeps t p c h n :
  shut t -> p.(closed) = false -> (1 <= p.(maxsize))%nat ->
  (forall t', reachable t t' -> t'.(shared).(idle) = [])
  /\ reachable {| shared := p; calls := []; held := c :: h; fresh := n |}
       {| shared := with_idle [c] (set_closed p); calls := []; held := h; fresh := n |}.
Proof.
  intros Ht Hc Hm. split.
  - intros t' Hr. assert (Hs : shut t') by (induction Hr; [done|by eapply step_shut]). apply Hs.
  - eapply reachable_trans; [apply reachable_one, (s_release p [] [] c h)|].
    eapply reachable_trans; [apply reachable_one, (s_released p [] c [])|]. rewrite Hc. cbn [app].
    eapply reachable_trans; [by apply reachable_one, (s_start Closing)|].
    eapply reachable_trans; [apply reachable_one, (s_close p [] [Pushing c])|].
    eapply reachable_trans; [apply reachable_one, (s_clear _ [] [Pushing c])|].
    eapply r_step; [apply r_start|]. pose proof (s_push (clear_idle (set_closed p)) [] c [] h n) as Hs.
    unfold push_idle in Hs. cbn [clear_idle set_closed with_idle idle length maxsize app] in Hs.
    rewrite (proj2 (Nat.ltb_lt 0 (maxsize p))) in Hs by lia. exact Hs.
Qed.

(** ** Witnesses *)

Definition wit_factory : Factory client := {| maxsize := 1; idle := []; closed := false |}.

Lemma factory_pool_sound_witness :
  exists t, reachable (start wit_factory) t /\ t.(shared).(idle) = [0%nat] /\ (length t.(shared).(idle) <= 1)%nat.
Proof.
  exists {| shared := with_idle [0%nat] wit_factory; calls := []; held := []; fresh := 1 |}.
  assert (Hr : reachable (start wit_factory)
    {| shared := with_idle [0%nat] wit_factory; calls := []; held := []; fresh := 1 |}).
  { eapply reachable_trans; [apply reachable_one, s_open|].
    eapply reachable_trans; [apply reachable_one, (s_release _ _ [] _ [])|].
    eapply reachable_trans; [apply reachable_one, (s_released _ [] _ [])|].
    apply reachable_one, (s_push wit_factory [] 0%nat []). }
  split_and!; [exact Hr|reflexivity|].
  exact (proj1 (factory_pool_sound 1 wit_factory _ eq_refl Hr)).
Defined.

Lemma closed_pool_keeps_witness :
  reachable {| shared := wit_factory; calls := []; held := [7%nat]; fresh := 8 |}
    {| shared := with_idle [7%nat] (set_closed wit_factory); calls := []; held := []; fresh := 8 |}.
Proof.
  apply (closed_pool_keeps (start (close wit_factory)) wit_factory 7%nat [] 8); [|reflexivity|cbn; lia].
  repeat split.
Defined.
