(* ===== verification/Ternary.v ===== *)
(** * Three-valued logic

    [Ternary] of [ternary.rs]: SQL's conditions, where [Unknown] is the answer
    when [NULL] takes part in a comparison. *)
From S2P Require Import Prelude.

(** The library's notations take the names [True] and [False]. *)
Inductive Ternary := TTrue | TFalse | Unknown.

#[export] Instance ternary_eq_dec : EqDecision Ternary.
Proof. solve_decision. Defined.

Definition from_bool (b : bool) : Ternary := if b then TTrue else TFalse.

Definition from_option (b : option bool) : Ternary :=
  match b with Some v => from_bool v | None => Unknown end.

Definition and (a b : Ternary) : Ternary :=
  match a, b with
  | TFalse, _ | _, TFalse => TFalse
  | TTrue, TTrue => TTrue
  | _, _ => Unknown
  end.

Definition or (a b : Ternary) : Ternary :=
  match a, b with
  | TTrue, _ | _, TTrue => TTrue
  | TFalse, TFalse => TFalse
  | _, _ => Unknown
  end.

Definition not (a : Ternary) : Ternary :=
  match a with TTrue => TFalse | TFalse => TTrue | Unknown => Unknown end.

Definition is_true (a : Ternary) : bool := match a with TTrue => true | _ => false end.

(** ** Conditions

    A condition over comparisons, each of which [NULL] may leave unknown. *)
Inductive condition :=
| Atom (x : nat)
| And (a b : condition)
| Or (a b : condition)
| Not (a : condition).

Fixpoint eval (v : nat -> option bool) (c : condition) : Ternary :=
  match c with
  | Atom x => from_option (v x)
  | And a b => and (eval v a) (eval v b)
  | Or a b => or (eval v a) (eval v b)
  | Not a => not (eval v a)
  end.

(** The two-valued reading, with every comparison known. *)
Fixpoint holds (w : nat -> bool) (c : condition) : bool :=
  match c with
  | Atom x => w x
  | And a b => holds w a && holds w b
  | Or a b => holds w a || holds w b
  | Not a => negb (holds w a)
  end.

Fixpoint atoms (c : condition) : list nat :=
  match c with
  | Atom x => [x]
  | And a b | Or a b => atoms a ++ atoms b
  | Not a => atoms a
  end.

(** [w] answers every comparison [v] knows as [v] does. *)
Definition completes (v : nat -> option bool) (w : nat -> bool) : Prop :=
  forall x b, v x = Some b -> w x = b.

Lemma eval_sound v w c b : completes v w -> eval v c = from_bool b -> holds w c = b.
Proof.
  intros Hw. revert b. induction c as [x|a IHa c IHc|a IHa c IHc|a IHa]; intros b; cbn [eval holds].
  - destruct (v x) as [b'|] eqn:E; [|by destruct b]. rewrite (Hw x b' E). by destruct b', b.
  - destruct (eval v a), (eval v c), b; try done; intros _; cbn in *;
      rewrite ?(IHa true eq_refl), ?(IHa false eq_refl), ?(IHc true eq_refl), ?(IHc false eq_refl);
      by rewrite ?andb_false_r.
  - destruct (eval v a), (eval v c), b; try done; intros _; cbn in *;
      rewrite ?(IHa true eq_refl), ?(IHa false eq_refl), ?(IHc true eq_refl), ?(IHc false eq_refl);
      by rewrite ?orb_true_r.
  - destruct (eval v a), b; try done; intros _; cbn in *;
      by rewrite ?(IHa true eq_refl), ?(IHa false eq_refl).
Qed.

Lemma holds_ext w1 w2 c : (forall x, x ∈ atoms c -> w1 x = w2 x) -> holds w1 c = holds w2 c.
Proof.
  induction c as [x|a IHa b IHb|a IHa b IHb|a IHa]; cbn [atoms holds]; intros Hw.
  - apply Hw, list_elem_of_singleton. done.
  - rewrite IHa, IHb; [done|..]; intros x Hx; apply Hw, elem_of_app; auto.
  - rewrite IHa, IHb; [done|..]; intros x Hx; apply Hw, elem_of_app; auto.
  - by rewrite IHa.
Qed.

(** Completions of two conditions that share no comparison, at once. *)
Lemma complete_both v w1 w2 a b :
  completes v w1 -> completes v w2 -> (forall x, x ∈ atoms a -> x ∉ atoms b) ->
  exists w, completes v w /\ holds w a = holds w1 a /\ holds w b = holds w2 b.
Proof.
  intros H1 H2 Hd. exists (fun x => if bool_decide (x ∈ atoms a) then w1 x else w2 x). split_and!.
  - intros x r Hx. destruct (bool_decide (x ∈ atoms a)); auto.
  - apply holds_ext. intros x Hx. by rewrite bool_decide_true.
  - apply holds_ext. intros x Hx. rewrite bool_decide_false; [done|]. intros Ha. by apply (Hd x).
Qed.

(** The answers a condition can still have. *)
Definition open_to (t : Ternary) (b : bool) : Prop := t = Unknown \/ t = from_bool b.

Definition pick (t : Ternary) (b : bool) : bool :=
  match t with TTrue => true | TFalse => false | Unknown => b end.

Lemma open_pick t b : open_to t (pick t b).
Proof. destruct t; [by right|by right|by left]. Qed.

Lemma eval_complete v c b :
  NoDup (atoms c) -> open_to (eval v c) b -> exists w, completes v w /\ holds w c = b.
Proof.
  revert b. induction c as [x|a IHa c IHc|a IHa c IHc|a IHa]; intros b; cbn [atoms eval holds].
  - intros _ Hb. exists (fun y => match v y with Some r => r | None => b end). split; [by intros y r ->|].
    destruct (v x) as [r|]; [|done]. by destruct Hb as [Hb|Hb], r, b.
  - intros (Hna & Hd & Hnc)%NoDup_app Hb.
    destruct (IHa (pick (eval v a) b) Hna (open_pick _ _)) as (w1 & Hw1 & E1).
    destruct (IHc (pick (eval v c) b) Hnc (open_pick _ _)) as (w2 & Hw2 & E2).
    destruct (complete_both v w1 w2 a c Hw1 Hw2 Hd) as (w & Hw & Ea & Ec). exists w. split; [done|].
    rewrite Ea, Ec, E1, E2. by destruct Hb as [Hb|Hb], b, (eval v a), (eval v c).
  - intros (Hna & Hd & Hnc)%NoDup_app Hb.
    destruct (IHa (pick (eval v a) b) Hna (open_pick _ _)) as (w1 & Hw1 & E1).
    destruct (IHc (pick (eval v c) b) Hnc (open_pick _ _)) as (w2 & Hw2 & E2).
    destruct (complete_both v w1 w2 a c Hw1 Hw2 Hd) as (w & Hw & Ea & Ec). exists w. split; [done|].
    rewrite Ea, Ec, E1, E2. by destruct Hb as [Hb|Hb], b, (eval v a), (eval v c).
  - intros Hn Hb. destruct (IHa (negb b) Hn) as (w & Hw & E).
    + destruct Hb as [Hb|Hb]; [left|right]; by destruct (eval v a), b.
    + exists w. rewrite E. by rewrite negb_involutive.
Qed.

(** ** Properties *)

(** A [WHERE] clause keeps a row only when the condition is certain: when
    it evaluates to true, it holds however the comparisons left unknown by
    [NULL] would have come out, and the same for false; and when no
    comparison occurs twice in it, it is kept exactly when it is certain. *)
Theorem where_keeps_certain v c :
  (is_true (eval v c) = true -> forall w, completes v w -> holds w c = true)
  /\ (eval v c = TFalse -> forall w, completes v w -> holds w c = false)
  /\ (NoDup (atoms c) ->
      (is_true (eval v c) = true <-> forall w, completes v w -> holds w c = true)).
Proof.
  assert (Ht : forall t, is_true t = true <-> t = TTrue) by by intros [].
  assert (Hs : is_true (eval v c) = true -> forall w, completes v w -> holds w c = true).
  { intros He%Ht w Hw. by apply (eval_sound v). }
  split_and!; [done|intros He w Hw; by apply (eval_sound v)|]. intros Hn. split; [done|]. intros Hw.
  destruct (eval v c) eqn:E; [done|..].
  - destruct (eval_complete v c false Hn) as (w & Hcw & Hf); [by right|]. by rewrite Hw in Hf.
  - destruct (eval_complete v c false Hn) as (w & Hcw & Hf); [by left|]. by rewrite Hw in Hf.
Qed.
