(* ===== verification/Slog.v ===== *)
(** * Log lines

    [slog.rs]: the time stamp every line of the server log starts with, and its
    digits, which the code writes by hand. *)
From S2P Require Import Prelude Bytes Text.
#[local] Open Scope Z_scope.

(** ** Digits *)

Definition digit (n : Z) : byte := byte_of (48 + n mod 10).

(** The loop of [push_u64], from the last digit to the first; [buf] has room
    for 20. *)
Fixpoint last_digits (room : nat) (v : Z) (acc : bytes) : res unit bytes :=
  match room with
  | O => Panic
  | S room =>
      let acc := digit v :: acc in
      if v / 10 =? 0 then Ok acc else last_digits room (v / 10) acc
  end.

Definition push_u64 (out : bytes) (n : Z) : res unit bytes :=
  digits ← last_digits 20 n []; Ok (out ++ digits).

(** [while div > 0]. *)
Fixpoint fixed_digits (turns : nat) (div v : Z) : res unit bytes :=
  match turns with
  | O => OutOfFuel
  | S turns =>
      if 0 <? div then rest ← fixed_digits turns (div / 10) v; Ok (digit (v / div) :: rest)
      else Ok []
  end.

Definition push_padded (out : bytes) (n : Z) (width : nat) : res unit bytes :=
  if (0 <=? n) && (1 <=? width)%nat && (width <=? 4)%nat && (n <? 10 ^ Z.of_nat width) then
    digits ← fixed_digits 5 (10 ^ (Z.of_nat width - 1)) n; Ok (out ++ digits)
  else
    let out := if n <? 0 then out ++ [x2d] else out in
    digits ← last_digits 20 (Z.abs n) [];
    if (20 <? width)%nat then Panic
    else
      let start := Nat.min (20 - length digits) (20 - width) in
      Ok (out ++ drop start (replicate (20 - length digits) x30 ++ digits)).

(** ** The calendar *)

(** Years, months and days from days since 1970; [/] truncates. *)
Definition civil (days : Z) : Z * Z * Z :=
  let z := days + 719468 in
  let era := (if 0 <=? z then z else z - 146096) ÷ 146097 in
  let doe := z - era * 146097 in
  let yoe := (doe - doe ÷ 1460 + doe ÷ 36524 - doe ÷ 146096) ÷ 365 in
  let y := yoe + era * 400 in
  let doy := doe - (365 * yoe + yoe ÷ 4 - yoe ÷ 100) in
  let mp := (5 * doy + 2) ÷ 153 in
  let d := doy - (153 * mp + 2) ÷ 5 + 1 in
  let m := if mp <? 10 then mp + 3 else mp - 9 in
  (if m <=? 2 then y + 1 else y, m, d).

(** [now] is the clock's time since 1970 in milliseconds, if it is not before. *)
Definition log_timestamp_into (now : option Z) (out : bytes) : res unit bytes :=
  let ms := match now with Some t => sint 64 t | None => 0 end in
  let days := ms / 86400000 in
  let rem := ms mod 86400000 in
  let '(y, m, d) := civil days in
  let secs := rem ÷ 1000 in
  let ms_part := Z.rem rem 1000 in
  let hh := secs ÷ 3600 in
  let mm := Z.rem secs 3600 ÷ 60 in
  let ss := Z.rem secs 60 in
  out ← push_padded out y 4;
  out ← push_padded (out ++ str "-") m 2;
  out ← push_padded (out ++ str "-") d 2;
  out ← push_padded (out ++ str "T") hh 2;
  out ← push_padded (out ++ str ":") mm 2;
  out ← push_padded (out ++ str ":") ss 2;
  out ← push_padded (out ++ str ".") ms_part 3;
  Ok (out ++ str "Z").

Definition log_timestamp (now : option Z) : res unit bytes := log_timestamp_into now [].

Example stamp_1 : log_timestamp (Some 1784572933123) = Ok (str "2026-07-20T18:42:13.123Z").
Proof. vm_compute. reflexivity. Qed.

(** ** The Gregorian calendar *)

Definition leap (y : Z) : bool := (y mod 4 =? 0) && (negb (y mod 100 =? 0) || (y mod 400 =? 0)).

Definition month_days (y m : Z) : Z :=
  if m =? 2 then (if leap y then 29 else 28)
  else if (m =? 4) || (m =? 6) || (m =? 9) || (m =? 11) then 30 else 31.

Definition next_day (date : Z * Z * Z) : Z * Z * Z :=
  let '(y, m, d) := date in
  if d <? month_days y m then (y, m, d + 1)
  else if m <? 12 then (y, m + 1, 1) else (y + 1, 1, 1).

Definition is_date (date : Z * Z * Z) : Prop :=
  let '(y, m, d) := date in 1 <= m <= 12 /\ 1 <= d <= month_days y m.

(** Days from a March to the March of year [y] of an era. *)
Definition year_start (y : Z) : Z := 365 * y + y / 4 - y / 100 + y / 400.

(** The year of the era, as [civil] finds it. *)
Definition year_of (doe : Z) : Z := (doe - doe / 1460 + doe / 36524 - doe / 146096) / 365.

(** Month and day from the day of a year that starts in March. *)
Definition month_of (doy : Z) : Z := (5 * doy + 2) / 153.
Definition day_of (doy : Z) : Z := doy - (153 * month_of doy + 2) / 5 + 1.

(** [civil] on one era, from its first March. *)
Definition civil_doe (doe : Z) : Z * Z * Z :=
  let yoe := year_of doe in
  let doy := doe - year_start yoe in
  let mp := month_of doy in
  (if mp <? 10 then yoe else yoe + 1, if mp <? 10 then mp + 3 else mp - 9, day_of doy).

Fixpoint below (n : nat) (f : Z -> bool) : bool :=
  match n with O => true | S n => f (Z.of_nat n) && below n f end.

Lemma below_spec n f z : below n f = true -> 0 <= z < Z.of_nat n -> f z = true.
Proof.
  induction n as [|n IH]; intros Hb Hz; [lia|]. cbn [below] in Hb. apply andb_true_iff in Hb as [Hf Hb].
  destruct (Z.eq_dec z (Z.of_nat n)) as [->|Hne]; [done|]. apply IH; [done|lia].
Qed.

Lemma minus_div_mono k a b : 1 < k -> a <= b -> a - a / k <= b - b / k.
Proof.
  intros Hk Hab. pose proof (Z.div_mod a k ltac:(lia)). pose proof (Z.div_mod b k ltac:(lia)).
  pose proof (Z.mod_pos_bound a k ltac:(lia)). pose proof (Z.mod_pos_bound b k ltac:(lia)).
  pose proof (Z.div_le_mono a b k ltac:(lia) Hab). destruct (Z.eq_dec (a / k) (b / k)) as [E|Hne]; [lia|]. nia.
Qed.

Lemma year_of_mono a b : 0 <= a <= b -> year_of a <= year_of b.
Proof.
  intros Hab. unfold year_of. apply Z.div_le_mono; [lia|].
  pose proof (minus_div_mono 1460 a b ltac:(lia) ltac:(lia)).
  pose proof (minus_div_mono 4 (a / 36524) (b / 36524) ltac:(lia) ltac:(apply Z.div_le_mono; lia)) as H2.
  rewrite !Z.div_div in H2 by lia. change (36524 * 4) with 146096 in H2. lia.
Qed.

Lemma years_checked :
  below 400 (fun y => (year_of (year_start y) =? y) && (year_of (year_start (y + 1) - 1) =? y)) = true.
Proof. vm_compute. reflexivity. Qed.

Lemma year_of_spec y doe :
  0 <= y < 400 -> year_start y <= doe < year_start (y + 1) -> year_of doe = y.
Proof.
  intros Hy Hd. pose proof (below_spec 400 _ y years_checked ltac:(lia)) as H. cbv beta in H.
  apply andb_true_iff in H as [H1%Z.eqb_eq H2%Z.eqb_eq].
  assert (0 <= year_start y) by (unfold year_start; Z.to_euclidean_division_equations; lia).
  pose proof (year_of_mono (year_start y) doe ltac:(lia)). pose proof (year_of_mono doe (year_start (y + 1) - 1) ltac:(lia)).
  lia.
Qed.

Lemma year_found doe : 0 <= doe < 146097 -> 0 <= year_of doe < 400
  /\ year_start (year_of doe) <= doe < year_start (year_of doe + 1).
Proof.
  intros Hd. assert (Hx : forall n, Z.of_nat n <= 400 -> doe < year_start (Z.of_nat n) ->
    exists y, 0 <= y < 400 /\ year_start y <= doe < year_start (y + 1)).
  { induction n as [|n IH]; intros Hn Hlt; [change (year_start (Z.of_nat 0)) with 0 in Hlt; lia|].
    destruct (Z.lt_ge_cases doe (year_start (Z.of_nat n))) as [Hc|Hc]; [apply IH; [lia|done]|].
    exists (Z.of_nat n). replace (Z.of_nat (S n)) with (Z.of_nat n + 1) in Hlt by lia. lia. }
  destruct (Hx 400%nat) as (y & Hy & Hs); [lia|exact (proj2 Hd)|]. by rewrite (year_of_spec y doe Hy Hs).
Qed.

Lemma months_checked :
  below 365 (fun doy =>
    let mp := month_of doy in let d := day_of doy in
    let mp' := month_of (doy + 1) in let d' := day_of (doy + 1) in
    (0 <=? mp) && (mp <=? 11) && (1 <=? d)
    && (let len := month_days 4 (if mp <? 10 then mp + 3 else mp - 9) in
        if d <? len then (mp' =? mp) && (d' =? d + 1)
        else (d =? len) && (mp' =? mp + 1) && (d' =? 1))) = true.
Proof. vm_compute. reflexivity. Qed.

Lemma months_step doy :
  0 <= doy < 365 ->
  let m := fun mp => if mp <? 10 then mp + 3 else mp - 9 in
  0 <= month_of doy <= 11 /\ 1 <= day_of doy
  /\ if day_of doy <? month_days 4 (m (month_of doy)) then
       month_of (doy + 1) = month_of doy /\ day_of (doy + 1) = day_of doy + 1
     else day_of doy = month_days 4 (m (month_of doy))
          /\ month_of (doy + 1) = month_of doy + 1 /\ day_of (doy + 1) = 1.
Proof.
  intros Hd m. pose proof (below_spec 365 _ doy months_checked ltac:(lia)) as H. cbv beta zeta in H.
  fold (m (month_of doy)) in H. destruct (day_of doy <? _); lia.
Qed.

Lemma civil_shift days :
  civil days = let '(y, m, d) := civil_doe ((days + 719468) mod 146097) in
               (y + (days + 719468) / 146097 * 400, m, d).
Proof.
  unfold civil, civil_doe, day_of, month_of. set (z := days + 719468).
  assert (Ee : (if 0 <=? z then z else z - 146096) ÷ 146097 = z / 146097).
  { destruct (Z.leb_spec 0 z); [by apply Z.quot_div_nonneg; lia|].
    Z.to_euclidean_division_equations; lia. }
  rewrite Ee. replace (z - z / 146097 * 146097) with (z mod 146097) by (rewrite Z.mod_eq; lia).
  pose proof (Z.mod_pos_bound z 146097 ltac:(lia)) as Hd. set (doe := z mod 146097) in *.
  destruct (year_found doe Hd) as [Hy Hs].
  assert (Ey : (doe - doe ÷ 1460 + doe ÷ 36524 - doe ÷ 146096) ÷ 365 = year_of doe).
  { unfold year_of. rewrite !(Z.quot_div_nonneg doe) by lia. apply Z.quot_div_nonneg; [|lia].
    Z.to_euclidean_division_equations; lia. }
  rewrite Ey. clear Ey Ee. set (yoe := year_of doe) in *. rewrite !(Z.quot_div_nonneg yoe) by lia.
  assert (Es : 365 * yoe + yoe / 4 - yoe / 100 = year_start yoe).
  { unfold year_start. rewrite (Z.div_small yoe 400) by lia. lia. }
  rewrite Es. set (doy := doe - year_start yoe).
  rewrite !Z.quot_div_nonneg by (unfold doy; try apply Z.quot_pos; Z.to_euclidean_division_equations; lia).
  assert (Hmp : 0 <= (5 * doy + 2) / 153 <= 11).
  { unfold doy, year_start in *. Z.to_euclidean_division_equations; lia. }
  destruct (Z.ltb_spec ((5 * doy + 2) / 153) 10).
  - destruct (Z.leb_spec ((5 * doy + 2) / 153 + 3) 2); [lia|]. done.
  - destruct (Z.leb_spec ((5 * doy + 2) / 153 - 9) 2); [|lia]. do 2 f_equal. lia.
Qed.

(** A year that starts in March has the days of the leap February it ends in. *)
Lemma year_length yoe :
  0 <= yoe -> year_start (yoe + 1) - year_start yoe = if leap (yoe + 1) then 366 else 365.
Proof.
  intros Hy. unfold year_start, leap. set (y := yoe + 1). assert (Hy1 : y = yoe + 1) by done.
  clearbody y. assert (E : forall k, 0 < k -> y / k - yoe / k = if y mod k =? 0 then 1 else 0).
  { intros k Hk. destruct (Z.eqb_spec (y mod k) 0) as [E|E].
    - apply Z.mod_divide in E as [q E]; [|lia]. rewrite E. rewrite Z.div_mul by lia.
      replace yoe with (q * k + -1) by lia. rewrite Z.div_add_l by lia.
      replace (-1 / k) with (-1); [lia|]. apply (Z.div_unique _ _ _ (k - 1)); lia.
    - assert (Hq : yoe = k * (y / k) + (y mod k - 1)).
      { pose proof (Z.div_mod y k ltac:(lia)). lia. }
      pose proof (Z.mod_pos_bound y k Hk).
      rewrite <- (Z.div_unique yoe k (y / k) (y mod k - 1)); lia. }
  pose proof (E 4 ltac:(lia)) as E4. pose proof (E 100 ltac:(lia)) as E100. pose proof (E 400 ltac:(lia)) as E400.
  assert (H100 : y mod 100 = 0 -> y mod 4 = 0).
  { intros Hm. apply Z.mod_divide in Hm as [q Hm]; [|lia]. rewrite Hm. replace (q * 100) with ((q * 25) * 4) by lia.
    apply Z.mod_mul. lia. }
  assert (H400 : y mod 400 = 0 -> y mod 100 = 0).
  { intros Hm. apply Z.mod_divide in Hm as [q Hm]; [|lia]. rewrite Hm. replace (q * 400) with ((q * 4) * 100) by lia.
    apply Z.mod_mul. lia. }
  clear E. destruct (Z.eqb_spec (y mod 4) 0), (Z.eqb_spec (y mod 100) 0), (Z.eqb_spec (y mod 400) 0);
    cbn [negb andb orb]; try tauto; lia.
Qed.

Lemma month_days_era y m k : month_days (y + k * 400) m = month_days y m.
Proof.
  assert (E4 : (y + k * 400) mod 4 = y mod 4)
    by (replace (k * 400) with (k * 100 * 4) by lia; apply Z.mod_add; lia).
  assert (E100 : (y + k * 400) mod 100 = y mod 100)
    by (replace (k * 400) with (k * 4 * 100) by lia; apply Z.mod_add; lia).
  unfold month_days, leap. by rewrite E4, E100, Z.mod_add by lia.
Qed.

Lemma next_day_era y m d k :
  next_day (y + k * 400, m, d) = let '(y, m, d) := next_day (y, m, d) in (y + k * 400, m, d).
Proof.
  unfold next_day. rewrite month_days_era. destruct (_ <? _); [done|]. destruct (_ <? _); [done|].
  do 2 f_equal. lia.
Qed.

(** Only February is not the same in every year. *)
Lemma month_days_other y y' m : m <> 2 -> month_days y m = month_days y' m.
Proof. intros Hm. unfold month_days. by rewrite (proj2 (Z.eqb_neq m 2)). Qed.

Lemma month_days_feb y : month_days y 2 = if leap y then 29 else 28.
Proof. done. Qed.

(** The last days of a year that starts in March. *)
Lemma february_end : month_of 364 = 11 /\ day_of 364 = 28 /\ month_of 365 = 11 /\ day_of 365 = 29
  /\ month_of 0 = 0 /\ day_of 0 = 1.
Proof. by vm_compute. Qed.

(** March to February, and the year the day is in. *)
Definition in_year (yoe doy : Z) : Z * Z * Z :=
  let mp := month_of doy in (if mp <? 10 then yoe else yoe + 1, if mp <? 10 then mp + 3 else mp - 9, day_of doy).

Lemma in_year_step yoe doy :
  0 <= yoe -> 0 <= doy -> doy + 1 < year_start (yoe + 1) - year_start yoe ->
  is_date (in_year yoe doy) /\ next_day (in_year yoe doy) = in_year yoe (doy + 1).
Proof.
  intros Hy Hd. rewrite (year_length yoe Hy). intros Hlt.
  assert (Hr : 0 <= doy < 365) by (destruct (leap _); lia).
  destruct (months_step doy Hr) as (Hmp & Hday & Hstep). cbv zeta in Hstep. unfold in_year, is_date, next_day.
  set (mp := month_of doy) in *. set (d := day_of doy) in *. cbv zeta.
  set (m := if mp <? 10 then mp + 3 else mp - 9) in *. set (y := if mp <? 10 then yoe else yoe + 1).
  assert (Hm : 1 <= m <= 12) by (unfold m; destruct (Z.ltb_spec mp 10); lia).
  assert (Elen : month_days y m = month_days 4 m \/ mp = 11 /\ y = yoe + 1 /\ m = 2).
  { destruct (Z.eq_dec m 2) as [E|E]; [|left; by apply month_days_other]. right.
    unfold m, y in *. destruct (Z.ltb_spec mp 10); lia. }
  assert (Hin : d <= month_days y m /\
    (if d <? month_days y m then (y, m, d + 1) else if m <? 12 then (y, m + 1, 1) else (y + 1, 1, 1))
    = (let mp := month_of (doy + 1) in
       (if mp <? 10 then yoe else yoe + 1, if mp <? 10 then mp + 3 else mp - 9, day_of (doy + 1)))).
  { destruct Elen as [Elen|(E11 & Ey & E2)].
    - rewrite Elen. destruct (Z.ltb_spec d (month_days 4 m)) as [Hlt'|Hge].
      + destruct Hstep as [-> ->]. split; [lia|]. done.
      + destruct Hstep as (Ed & -> & ->). split; [lia|]. unfold y, m in *. cbv zeta.
        destruct (Z.ltb_spec mp 10), (Z.ltb_spec (mp + 1) 10); try lia;
          destruct (Z.ltb_spec (mp + 3) 12), (Z.ltb_spec (mp - 9) 12); try lia;
          (apply pair_equal_spec; split; [apply pair_equal_spec; split; lia|lia]).
    - assert (H28 : d < 28 \/ d = 28 /\ leap (yoe + 1) = true).
      { unfold mp, d, day_of in *. rewrite E11 in *. destruct (leap (yoe + 1)); Z.to_euclidean_division_equations; lia. }
      rewrite Ey, E2, month_days_feb in *.
      assert (Hl : d < (if leap (yoe + 1) then 29 else 28)) 
        by (destruct H28 as [H28|[H28 El]]; [destruct (leap (yoe + 1))|rewrite El]; lia).
      rewrite (proj2 (Z.ltb_lt _ _) Hl). change (leap 4) with true in Hstep. cbv iota in Hstep.
      rewrite (proj2 (Z.ltb_lt d 29)) in Hstep by (destruct (leap (yoe + 1)); lia).
      destruct Hstep as [-> ->]. split; [lia|]. by rewrite E11. }
  destruct Hin as [Hle Hnext]. split; [lia|exact Hnext].
Qed.

Lemma in_year_last yoe :
  0 <= yoe -> let last := year_start (yoe + 1) - year_start yoe - 1 in
  is_date (in_year yoe last) /\ next_day (in_year yoe last) = in_year (yoe + 1) 0.
Proof.
  intros Hy last. unfold last. rewrite (year_length yoe Hy).
  change (in_year (yoe + 1) 0) with (yoe + 1, 3, 1).
  destruct (leap (yoe + 1)) eqn:El; [change (in_year yoe (366 - 1)) with (yoe + 1, 2, 29)
    |change (in_year yoe (365 - 1)) with (yoe + 1, 2, 28)];
    unfold is_date, next_day; rewrite month_days_feb, El; (split; [lia|done]).
Qed.

(** ** Digits that stand for a number *)

(** [n] in exactly [w] digits. *)
Fixpoint padded (w : nat) (n : Z) : bytes :=
  match w with O => [] | S w => padded w (n / 10) ++ [digit n] end.

Lemma padded_len w n : length (padded w n) = w.
Proof. revert n. induction w as [|w IH]; intros n; [done|]. cbn [padded]. rewrite length_app, IH. cbn. lia. Qed.

Lemma padded_cmp w a b :
  0 <= a < 10 ^ Z.of_nat w -> 0 <= b < 10 ^ Z.of_nat w -> bytes_cmp (padded w a) (padded w b) = (a ?= b).
Proof.
  revert a b. induction w as [|w IH]; intros a b Ha Hb.
  { cbn in *. replace a with 0 by lia. replace b with 0 by lia. done. }
  rewrite Nat2Z.inj_succ, Z.pow_succ_r in Ha, Hb by lia. cbn [padded].
  rewrite bytes_cmp_app_len by by rewrite !padded_len.
  rewrite IH by (Z.to_euclidean_division_equations; lia). cbn [bytes_cmp]. unfold digit.
  rewrite !dec_digit_u8 by lia.
  assert (Em : (48 + a mod 10 ?= 48 + b mod 10) = (a mod 10 ?= b mod 10)) by by rewrite Z.add_compare_mono_l.
  rewrite Em. clear Em IH. pose proof (Z.div_mod a 10 ltac:(lia)). pose proof (Z.div_mod b 10 ltac:(lia)).
  pose proof (Z.mod_pos_bound a 10 ltac:(lia)). pose proof (Z.mod_pos_bound b 10 ltac:(lia)).
  destruct (Z.compare_spec (a / 10) (b / 10)), (Z.compare_spec (a mod 10) (b mod 10));
    destruct (Z.compare_spec a b); try done; lia.
Qed.

Lemma padded_head w n : padded (S w) n = digit (n / 10 ^ Z.of_nat w) :: padded w n.
Proof.
  revert n. induction w as [|w IH]; intros n; [cbn; by rewrite Z.div_1_r|].
  change (padded (S (S w)) n) with (padded (S w) (n / 10) ++ [digit n]). rewrite IH.
  rewrite Z.div_div, <- Z.pow_succ_r, <- Nat2Z.inj_succ by lia. done.
Qed.

Lemma fixed_digits_padded turns w n :
  (w < turns)%nat -> fixed_digits (S turns) (10 ^ Z.of_nat w) n = Ok (padded (S w) n).
Proof.
  revert w. induction turns as [|turns IH]; intros w Hw; [lia|].
  rewrite padded_head. cbn [fixed_digits]. rewrite (proj2 (Z.ltb_lt _ _)) by (apply Z.pow_pos_nonneg; lia).
  destruct w as [|w]; [done|]. rewrite Nat2Z.inj_succ, Z.pow_succ_r, Z.mul_comm, Z.div_mul by lia.
  specialize (IH w ltac:(lia)). cbn [fixed_digits] in IH. by rewrite IH.
Qed.

Lemma last_digits_dec room fuel v acc :
  0 <= v < 10 ^ Z.of_nat room -> (1 <= room)%nat -> 0 <= v < 2 ^ Z.of_nat fuel -> (1 <= fuel)%nat ->
  last_digits room v acc = Ok (dec_digits fuel v acc).
Proof.
  revert fuel v acc. induction room as [|room IH]; intros fuel v acc Hv Hr Hf H1; [lia|].
  destruct fuel as [|fuel]; [lia|]. cbn [last_digits dec_digits]. fold (digit v).
  destruct (Z.eqb_spec (v / 10) 0) as [|Hne]; [done|].
  rewrite Nat2Z.inj_succ, Z.pow_succ_r in Hv, Hf by lia. apply IH.
  - Z.to_euclidean_division_equations; lia.
  - destruct room; [cbn in Hv; Z.to_euclidean_division_equations; lia|lia].
  - Z.to_euclidean_division_equations; lia.
  - destruct fuel; [cbn in Hf; Z.to_euclidean_division_equations; lia|lia].
Qed.

Lemma last_digits_to_dec v : 0 <= v < 10 ^ 20 -> last_digits 20 v [] = Ok (to_dec v).
Proof.
  intros Hv. apply last_digits_dec; [done|lia| |lia]. split; [lia|].
  rewrite Nat2Z.inj_succ, Z2Nat.id by apply Z.log2_nonneg.
  destruct (Z.eq_dec v 0) as [->|]; [done|]. apply Z.log2_spec. lia.
Qed.

Lemma push_padded_fits out n w :
  (1 <= w <= 4)%nat -> 0 <= n < 10 ^ Z.of_nat w -> push_padded out n w = Ok (out ++ padded w n).
Proof.
  intros Hw Hn. unfold push_padded.
  rewrite (proj2 (Z.leb_le 0 n)), (proj2 (Nat.leb_le 1 w)), (proj2 (Nat.leb_le w 4)), (proj2 (Z.ltb_lt n _)) by lia.
  cbn [andb]. replace (Z.of_nat w - 1) with (Z.of_nat (w - 1)) by lia.
  rewrite (fixed_digits_padded 4 (w - 1)) by lia. by replace (S (w - 1)) with w by lia.
Qed.

Lemma push_padded_returns out n w : (w <= 20)%nat -> Z.abs n < 10 ^ 20 -> exists out', push_padded out n w = Ok out'.
Proof.
  intros Hw Hn. destruct ((0 <=? n) && (1 <=? w)%nat && (w <=? 4)%nat && (n <? 10 ^ Z.of_nat w)) eqn:E.
  - rewrite !andb_true_iff, Z.leb_le, !Nat.leb_le, Z.ltb_lt in E. eexists. apply push_padded_fits; lia.
  - unfold push_padded. rewrite E, last_digits_to_dec by lia. cbn [mbind res_bind].
    rewrite (proj2 (Nat.ltb_ge _ _)) by done. by eexists.
Qed.

(** ** The days in order *)

Lemma civil_steps days : is_date (civil days) /\ next_day (civil days) = civil (days + 1).
Proof.
  rewrite !civil_shift. replace (days + 1 + 719468) with (days + 719468 + 1) by lia.
  set (z := days + 719468). pose proof (Z.mod_pos_bound z 146097 ltac:(lia)) as Hd.
  pose proof (Z.div_mod z 146097 ltac:(lia)) as Hz. set (era := z / 146097) in *. set (doe := z mod 146097) in *.
  destruct (year_found doe Hd) as [Hy Hs]. set (yoe := year_of doe) in *.
  assert (Hshift : forall date' next, is_date (in_year yoe (doe - year_start yoe)) /\
      next_day (in_year yoe (doe - year_start yoe)) = date' ->
      (let '(y, m, d) := date' in (y + era * 400, m, d)) = next ->
      is_date (let '(y, m, d) := in_year yoe (doe - year_start yoe) in (y + era * 400, m, d)) /\
      next_day (let '(y, m, d) := in_year yoe (doe - year_start yoe) in (y + era * 400, m, d)) = next).
  { intros date' next [H1 H2] <-. rewrite <- H2. destruct (in_year _ _) as [[y m] d]. rewrite next_day_era.
    split; [|done]. unfold is_date in *. by rewrite month_days_era. }
  assert (E : civil_doe doe = in_year yoe (doe - year_start yoe)) by done. rewrite E.
  destruct (Z.lt_ge_cases (doe - year_start yoe + 1) (year_start (yoe + 1) - year_start yoe)) as [Hlt|Hge].
  - eapply Hshift; [apply in_year_step; [lia|lia|exact Hlt]|].
    assert (Hb : year_start (yoe + 1) <= 146097).
    { unfold year_start. Z.to_euclidean_division_equations; lia. }
    rewrite <- (Z.mod_unique (z + 1) 146097 era (doe + 1)), <- (Z.div_unique (z + 1) 146097 era (doe + 1)) by lia.
    unfold civil_doe. rewrite (year_of_spec yoe (doe + 1)) by lia.
    by replace (doe + 1 - year_start yoe) with (doe - year_start yoe + 1) by lia.
  - eapply Hshift.
    { replace (doe - year_start yoe) with (year_start (yoe + 1) - year_start yoe - 1) by lia. apply in_year_last. lia. }
    destruct (Z.eq_dec yoe 399) as [E399|Hne].
    + assert (Ed : doe = 146096) by (rewrite E399 in Hge; change (year_start (399 + 1)) with 146097 in Hge;
        change (year_start 399) with 145731 in Hge; lia).
      rewrite <- (Z.mod_unique (z + 1) 146097 (era + 1) 0), <- (Z.div_unique (z + 1) 146097 (era + 1) 0) by lia.
      rewrite E399. change (in_year (399 + 1) 0) with (400, 3, 1). change (civil_doe 0) with (0, 3, 1).
      cbv beta iota zeta. do 2 f_equal. lia.
    + assert (Hb : year_start (yoe + 1) < 146097).
      { unfold year_start. Z.to_euclidean_division_equations; lia. }
      rewrite <- (Z.mod_unique (z + 1) 146097 era (doe + 1)), <- (Z.div_unique (z + 1) 146097 era (doe + 1)) by lia.
      replace (doe + 1) with (year_start (yoe + 1)) by lia. unfold civil_doe.
      rewrite (year_of_spec (yoe + 1)), Z.sub_diag; [done|lia|].
      pose proof (year_length (yoe + 1) ltac:(lia)). destruct (leap _); lia.
Qed.

(** A date as a number, in the order of the calendar. *)
Definition day_number (date : Z * Z * Z) : Z := let '(y, m, d) := date in (y * 12 + m) * 31 + d.

Lemma is_date_bounds date : is_date date -> let '(y, m, d) := date in 1 <= m <= 12 /\ 1 <= d <= 31.
Proof.
  destruct date as [[y m] d]. intros [Hm Hd]. split; [done|]. unfold month_days in Hd.
  destruct (_ =? 2); [destruct (leap y); lia|]. destruct (_ || _); lia.
Qed.

Lemma next_day_later date : is_date date -> day_number date < day_number (next_day date).
Proof.
  intros Hd. apply is_date_bounds in Hd as Hb. destruct date as [[y m] d]. unfold next_day, day_number.
  destruct (d <? month_days y m); [lia|]. destruct (Z.ltb_spec m 12); lia.
Qed.

Lemma civil_increasing a b : a < b -> day_number (civil a) < day_number (civil b).
Proof.
  intros Hab. replace b with (a + Z.of_nat (Z.to_nat (b - a))) by lia.
  assert (Hn : (0 < Z.to_nat (b - a))%nat) by lia. revert Hn. generalize (Z.to_nat (b - a)).
  induction n as [|n IH]; [lia|]. intros _. destruct (civil_steps (a + Z.of_nat n)) as [Hd Hx].
  pose proof (next_day_later _ Hd) as Hl. rewrite Hx in Hl.
  replace (a + Z.of_nat n + 1) with (a + Z.of_nat (S n)) in Hl by lia.
  destruct n as [|n]; [by rewrite Z.add_0_r in Hl|]. specialize (IH ltac:(lia)). lia.
Qed.

(** Until the year 10000. *)
Definition LAST_STAMP : Z := 253402300800000.

Lemma civil_years days : 0 <= days <= 2932896 -> let '(y, m, d) := civil days in 1970 <= y <= 9999.
Proof.
  intros Hd. destruct (civil_steps days) as [Hdate _]. apply is_date_bounds in Hdate.
  assert (H0 : day_number (civil 0) <= day_number (civil days)).
  { destruct (Z.eq_dec days 0) as [->|]; [lia|]. apply Z.lt_le_incl, civil_increasing. lia. }
  assert (H1 : day_number (civil days) <= day_number (civil 2932896)).
  { destruct (Z.eq_dec days 2932896) as [->|]; [lia|]. apply Z.lt_le_incl, civil_increasing. lia. }
  change (day_number (civil 0)) with 732872 in H0. change (day_number (civil 2932896)) with 3720031 in H1.
  destruct (civil days) as [[y m] d]. unfold day_number in *. lia.
Qed.

(** The fields of a stamp, each in its width. *)
Definition stamp (t : Z) : bytes :=
  let '(y, m, d) := civil (t / 86400000) in
  let rem := t mod 86400000 in
  padded 4 y ++ str "-" ++ padded 2 m ++ str "-" ++ padded 2 d ++ str "T"
  ++ padded 2 (rem / 3600000) ++ str ":" ++ padded 2 (rem / 60000 mod 60) ++ str ":"
  ++ padded 2 (rem / 1000 mod 60) ++ str "." ++ padded 3 (rem mod 1000) ++ str "Z".

Lemma stamp_days t : 0 <= t < LAST_STAMP -> 0 <= t / 86400000 <= 2932896.
Proof. unfold LAST_STAMP. intros. Z.to_euclidean_division_equations; lia. Qed.

Lemma log_timestamp_stamp t : 0 <= t < LAST_STAMP -> log_timestamp (Some t) = Ok (stamp t).
Proof.
  intros Ht. unfold log_timestamp, log_timestamp_into, stamp.
  assert (Ems : sint 64 t = t).
  { unfold sint. unfold LAST_STAMP in Ht. rewrite Z.mod_small by lia. by rewrite (proj2 (Z.ltb_lt _ _)) by lia. }
  rewrite Ems. pose proof (civil_years _ (stamp_days t Ht)) as Hy.
  destruct (civil_steps (t / 86400000)) as [Hdate _]. apply is_date_bounds in Hdate.
  destruct (civil (t / 86400000)) as [[y m] d].
  pose proof (Z.mod_pos_bound t 86400000 ltac:(lia)) as Hr. set (rem := t mod 86400000) in *. clearbody rem.
  assert (E1 : rem ÷ 1000 ÷ 3600 = rem / 3600000) by (Z.to_euclidean_division_equations; lia).
  assert (E2 : Z.rem (rem ÷ 1000) 3600 ÷ 60 = rem / 60000 mod 60) by (Z.to_euclidean_division_equations; lia).
  assert (E3 : Z.rem (rem ÷ 1000) 60 = rem / 1000 mod 60) by (Z.to_euclidean_division_equations; lia).
  assert (E4 : Z.rem rem 1000 = rem mod 1000) by (Z.to_euclidean_division_equations; lia).
  rewrite E1, E2, E3, E4.
  rewrite push_padded_fits by (cbn; lia). cbn [mbind res_bind].
  do 6 (rewrite push_padded_fits by (cbn; Z.to_euclidean_division_equations; lia); cbn [mbind res_bind]).
  cbn [app]. by rewrite <- !app_assoc.
Qed.

Lemma stamp_length t : length (stamp t) = 24%nat.
Proof. unfold stamp. destruct (civil _) as [[y m] d]. rewrite !length_app, !padded_len. done. Qed.

(** Fields of one width compare first to last. *)
Lemma field_cmp w a b s s' :
  0 <= a < 10 ^ Z.of_nat w -> 0 <= b < 10 ^ Z.of_nat w ->
  bytes_cmp (padded w a ++ s) (padded w b ++ s') = match a ?= b with Eq => bytes_cmp s s' | c => c end.
Proof. intros Ha Hb. rewrite bytes_cmp_app_len by by rewrite !padded_len. by rewrite padded_cmp. Qed.

Lemma stamp_increasing t t' :
  0 <= t < LAST_STAMP -> 0 <= t' < LAST_STAMP -> t < t' -> bytes_cmp (stamp t) (stamp t') = Lt.
Proof.
  intros Ht Ht' Hlt. unfold stamp.
  pose proof (civil_years _ (stamp_days t Ht)) as Hy. pose proof (civil_years _ (stamp_days t' Ht')) as Hy'.
  destruct (civil_steps (t / 86400000)) as [Hd%is_date_bounds _].
  destruct (civil_steps (t' / 86400000)) as [Hd'%is_date_bounds _].
  assert (Hday : day_number (civil (t / 86400000)) < day_number (civil (t' / 86400000))
    \/ civil (t / 86400000) = civil (t' / 86400000) /\ t mod 86400000 < t' mod 86400000).
  { destruct (Z.lt_trichotomy (t / 86400000) (t' / 86400000)) as [Hl|[E|Hl]].
    - left. by apply civil_increasing.
    - right. rewrite E. split; [done|]. Z.to_euclidean_division_equations; lia.
    - Z.to_euclidean_division_equations; lia. }
  destruct (civil (t / 86400000)) as [[y m] d], (civil (t' / 86400000)) as [[y' m'] d'].
  pose proof (Z.mod_pos_bound t 86400000 ltac:(lia)) as Hr. pose proof (Z.mod_pos_bound t' 86400000 ltac:(lia)) as Hr'.
  set (r := t mod 86400000) in *. set (r' := t' mod 86400000) in *. clearbody r r'. unfold day_number in Hday.
  rewrite field_cmp by (cbn; lia). destruct (Z.compare_spec y y') as [->|Hc|Hc]; [|done|destruct Hday as [?|[[=] _]]; lia].
  rewrite bytes_cmp_app, field_cmp by (cbn; lia).
  destruct (Z.compare_spec m m') as [->|Hc|Hc]; [|done|destruct Hday as [?|[[=] _]]; lia].
  rewrite bytes_cmp_app, field_cmp by (cbn; lia).
  destruct (Z.compare_spec d d') as [->|Hc|Hc]; [|done|destruct Hday as [?|[[=] _]]; lia].
  destruct Hday as [Hday|[_ Hlt']]; [lia|].
  rewrite bytes_cmp_app, field_cmp by (cbn; Z.to_euclidean_division_equations; lia).
  destruct (Z.compare_spec (r / 3600000) (r' / 3600000)) as [E1|Hc|Hc];
    [|done|Z.to_euclidean_division_equations; lia].
  rewrite bytes_cmp_app, field_cmp by (cbn; Z.to_euclidean_division_equations; lia).
  destruct (Z.compare_spec (r / 60000 mod 60) (r' / 60000 mod 60)) as [E2|Hc|Hc];
    [|done|Z.to_euclidean_division_equations; lia].
  rewrite bytes_cmp_app, field_cmp by (cbn; Z.to_euclidean_division_equations; lia).
  destruct (Z.compare_spec (r / 1000 mod 60) (r' / 1000 mod 60)) as [E3|Hc|Hc];
    [|done|Z.to_euclidean_division_equations; lia].
  rewrite bytes_cmp_app, field_cmp by (cbn; Z.to_euclidean_division_equations; lia).
  destruct (Z.compare_spec (r mod 1000) (r' mod 1000)) as [E4|Hc|Hc]; [|done|];
    Z.to_euclidean_division_equations; lia.
Qed.

(** ** Padding *)

Lemma dec_digits_acc fuel n acc : dec_digits fuel n acc = dec_digits fuel n [] ++ acc.
Proof.
  revert n acc. induction fuel as [|fuel IH]; intros n acc; cbn [dec_digits]; [done|].
  destruct (_ =? 0); [done|]. rewrite IH, (IH _ [_]), <- app_assoc. done.
Qed.

Lemma padded_zero w : padded w 0 = replicate w x30.
Proof.
  induction w as [|w IH]; [done|]. cbn [padded]. change (0 / 10) with 0. rewrite IH.
  change (digit 0) with x30. by rewrite <- replicate_cons_app.
Qed.

Lemma padded_dec fuel w n :
  (1 <= w)%nat -> 0 <= n < 10 ^ Z.of_nat w -> 0 <= n < 2 ^ Z.of_nat fuel -> (1 <= fuel)%nat ->
  padded w n = replicate (w - length (dec_digits fuel n [])) x30 ++ dec_digits fuel n [].
Proof.
  revert w n. induction fuel as [|fuel IH]; intros w n Hw Hn Hf H1; [lia|].
  destruct w as [|w]; [lia|]. cbn [padded dec_digits]. fold (digit n).
  rewrite Nat2Z.inj_succ, Z.pow_succ_r in Hn, Hf by lia.
  destruct (Z.eqb_spec (n / 10) 0) as [->|Hne]; [by rewrite padded_zero; cbn [length]; rewrite Nat.sub_succ, Nat.sub_0_r|].
  rewrite dec_digits_acc, length_app, app_assoc. cbn [length]. f_equal.
  replace (S w - (length (dec_digits fuel (n / 10) []) + 1))%nat with (w - length (dec_digits fuel (n / 10) []))%nat by lia.
  apply IH.
  - destruct w; [cbn in Hn; Z.to_euclidean_division_equations; lia|lia].
  - Z.to_euclidean_division_equations; lia.
  - Z.to_euclidean_division_equations; lia.
  - destruct fuel; [cbn in Hf; Z.to_euclidean_division_equations; lia|lia].
Qed.

Lemma padded_to_dec w n :
  (1 <= w)%nat -> 0 <= n < 10 ^ Z.of_nat w -> padded w n = replicate (w - length (to_dec n)) x30 ++ to_dec n.
Proof.
  intros Hw Hn. apply padded_dec; [done..| |lia]. split; [lia|].
  rewrite Nat2Z.inj_succ, Z2Nat.id by apply Z.log2_nonneg.
  destruct (Z.eq_dec n 0) as [->|]; [done|]. apply Z.log2_spec. lia.
Qed.

Lemma to_dec_fits n : 0 <= n < 2 ^ 64 -> (1 <= length (to_dec n) <= 20)%nat.
Proof.
  intros Hn. destruct (to_dec_spec n ltac:(lia)) as (_ & Hl & H0 & Hp & _).
  destruct (Z.eq_dec n 0) as [E|]; [rewrite (H0 E); lia|]. specialize (Hp ltac:(lia)). split; [lia|].
  destruct (Nat.le_gt_cases (length (to_dec n)) 20) as [|Hgt]; [done|].
  assert (10 ^ 20 <= 10 ^ (Z.of_nat (length (to_dec n)) - 1)) by (apply Z.pow_le_mono_r; lia). lia.
Qed.

(** The end of the buffer, from the first digit or from the width. *)
Lemma buffer_end n w :
  0 <= n < 2 ^ 64 -> (1 <= w <= 20)%nat ->
  drop (Nat.min (20 - length (to_dec n)) (20 - w)) (replicate (20 - length (to_dec n)) x30 ++ to_dec n)
  = replicate (w - length (to_dec n)) x30 ++ to_dec n.
Proof.
  intros Hn Hw. pose proof (to_dec_fits n Hn) as Hl.
  rewrite drop_app_le by (rewrite length_replicate; lia). rewrite drop_replicate. do 2 f_equal. lia.
Qed.

(** ** Any instant has a stamp *)

Lemma civil_year_bound days : Z.abs days < 2 ^ 40 -> Z.abs (civil days).1.1 < 2 ^ 41.
Proof.
  intros Hd. unfold civil. set (z := days + 719468).
  set (era := (if 0 <=? z then z else z - 146096) ÷ 146097).
  assert (He : Z.abs era < 2 ^ 24 /\ 0 <= z - era * 146097 < 146097).
  { unfold era. destruct (Z.leb_spec 0 z); unfold z in *; Z.to_euclidean_division_equations; lia. }
  destruct He as [He Hdoe]. clearbody era. set (doe := z - era * 146097) in *. clearbody doe.
  set (yoe := (doe - doe ÷ 1460 + doe ÷ 36524 - doe ÷ 146096) ÷ 365).
  assert (Hy : -1000 <= yoe <= 1000) by (unfold yoe; Z.to_euclidean_division_equations; lia).
  clearbody yoe. cbn [fst]. destruct (_ <=? 2); lia.
Qed.

Lemma log_timestamp_returns now : exists ts, log_timestamp now = Ok ts.
Proof.
  unfold log_timestamp, log_timestamp_into.
  set (ms := match now with Some t => sint 64 t | None => 0 end).
  assert (Hms : - 2 ^ 63 <= ms < 2 ^ 63).
  { subst ms. destruct now as [t|]; [|lia]. pose proof (sint_range 64 t ltac:(lia)) as Hs. by apply is_sint_spec in Hs. }
  clearbody ms. pose proof (Z.mod_pos_bound ms 86400000 ltac:(lia)) as Hr. set (rem := ms mod 86400000) in *.
  assert (Hd : Z.abs (ms / 86400000) < 2 ^ 40) by (Z.to_euclidean_division_equations; lia).
  pose proof (civil_year_bound _ Hd) as Hy. destruct (civil_steps (ms / 86400000)) as [Hb _]. apply is_date_bounds in Hb.
  destruct (civil (ms / 86400000)) as [[y m] d]. cbn [fst] in Hy. clearbody rem.
  assert (Ht : Z.abs (rem ÷ 1000 ÷ 3600) < 100 /\ Z.abs (Z.rem (rem ÷ 1000) 3600 ÷ 60) < 100
    /\ Z.abs (Z.rem (rem ÷ 1000) 60) < 100 /\ Z.abs (Z.rem rem 1000) < 1000).
  { Z.to_euclidean_division_equations; lia. }
  destruct Ht as (H1 & H2 & H3 & H4).
  repeat (match goal with |- context [push_padded ?out ?n ?w] =>
    destruct (push_padded_returns out n w) as [? ->]; [lia|lia|]; cbn [mbind res_bind] end).
  by eexists.
Qed.

(** ** Properties *)

(** C37: the dates of the log are the calendar's: day 0 is 1 January 1970, every
    day is a date of the Gregorian calendar, and the next day is the next
    date, before 1970 too. *)
Theorem civil_is_the_calendar days :
  civil 0 = (1970, 1, 1) /\ is_date (civil days) /\ civil (days + 1) = next_day (civil days).
Proof. split; [done|]. destruct (civil_steps days) as [Hd Hn]. by rewrite Hn. Qed.

(** Log lines sort by time: until the year 10000 a stamp is 24 bytes, its
    seven fields zero-padded to their widths, and a later instant, by a
    millisecond or more, has a greater stamp; a clock set before 1970 gives
    the stamp of its start. *)
Theorem stamps_sort_by_time t t' :
  0 <= t -> t < t' -> t' < LAST_STAMP ->
  exists a b, log_timestamp (Some t) = Ok a /\ log_timestamp (Some t') = Ok b
    /\ length a = 24%nat /\ length b = 24%nat /\ bytes_cmp a b = Lt
    /\ log_timestamp None = log_timestamp (Some 0).
Proof.
  intros H0 Hlt Hl. exists (stamp t), (stamp t'). rewrite !log_timestamp_stamp, !stamp_length by (unfold LAST_STAMP in *; lia).
  split_and!; try done. apply stamp_increasing; lia.
Qed.

(** The hand-written digits are the formatter's: [push_u64] appends exactly
    the decimal of any 64-bit number, and [push_padded] a non-negative one
    zero-padded to its width, or in full when it is wider; a negative number
    is padded to its width after the sign, one column wider than the
    formatter's. *)
Theorem digits_are_exact out n w :
  0 <= n < 2 ^ 64 -> (1 <= w <= 20)%nat ->
  push_u64 out n = Ok (out ++ to_dec n)
  /\ push_padded out n w = Ok (out ++ replicate (w - length (to_dec n)) x30 ++ to_dec n)
  /\ (0 < n -> push_padded out (- n) w = Ok (out ++ [x2d] ++ replicate (w - length (to_dec n)) x30 ++ to_dec n)).
Proof.
  intros Hn Hw. assert (Hl : last_digits 20 n [] = Ok (to_dec n)) by (apply last_digits_to_dec; lia).
  assert (Hb : (20 <? w)%nat = false) by (apply Nat.ltb_ge; lia). split_and!.
  - unfold push_u64. by rewrite Hl.
  - destruct ((0 <=? n) && (1 <=? w)%nat && (w <=? 4)%nat && (n <? 10 ^ Z.of_nat w)) eqn:E.
    + rewrite !andb_true_iff, Z.leb_le, !Nat.leb_le, Z.ltb_lt in E.
      rewrite push_padded_fits, padded_to_dec by lia. done.
    + unfold push_padded. rewrite E, Z.abs_eq, Hl, Hb, (proj2 (Z.ltb_ge n 0)) by lia. cbn [mbind res_bind].
      by rewrite buffer_end.
  - intros Hpos. unfold push_padded. rewrite (proj2 (Z.leb_gt 0 (- n))), (proj2 (Z.ltb_lt (- n) 0)) by lia. cbn [andb].
    rewrite Z.abs_opp, Z.abs_eq, Hl, Hb by lia. cbn [mbind res_bind]. by rewrite buffer_end, <- app_assoc.
Qed.

(** ** Witnesses *)

Lemma stamps_sort_by_time_witness :
  bytes_cmp (str "1999-12-31T23:59:59.999Z") (str "2000-01-01T00:00:00.000Z") = Lt.
Proof.
  destruct (stamps_sort_by_time 946684799999 946684800000) as (a & b & Ea & Eb & _ & _ & E & _);
    [lia|lia|by vm_compute|].
  assert (Ha : a = str "1999-12-31T23:59:59.999Z") by (vm_compute in Ea; by injection Ea as <-).
  assert (Hb : b = str "2000-01-01T00:00:00.000Z") by (vm_compute in Eb; by injection Eb as <-).
  rewrite <- Ha, <- Hb. exact E.
Defined.

Lemma digits_are_exact_witness :
  push_u64 (str "n=") (2 ^ 64 - 1) = Ok (str "n=18446744073709551615") /\ push_padded [] (-5) 4 = Ok (str "-0005").
Proof.
  destruct (digits_are_exact (str "n=") (2 ^ 64 - 1) 1) as [E _]; [lia|lia|].
  destruct (digits_are_exact [] 5 4) as (_ & _ & E5); [lia|lia|].
  split; [rewrite E; by vm_compute|]. change (-5) with (- (5)). rewrite E5; [by vm_compute|lia].
Defined.
