(* ===== verification/ServerLog.v ===== *)
(** * The server log

    [slog.rs]: where the lines go and who sees them.  What each write to the
    file or to stderr does is told by a list of outcomes, as in [Frame]. *)
From stdpp Require Import gmap.
From S2P Require Import Prelude Bytes Text Frame Effect Slog.
#[local] Open Scope Z_scope.

Inductive Sink := Stderr | File (path : bytes).

(** The process's log: the two cells set once, the observer known by a number,
    what it has been called with, and what has been written.  Past the
    outcomes told, writes fail. *)
Record Log := {
  SERVER_LOG : option Sink;
  LOG_OBSERVER : option Z;
  observed : list (Z * bytes);
  files : gmap bytes bytes;
  file_writes : list outcome;
  stderr : bytes;
  stderr_writes : list outcome;
  clock : list (option Z);
}.

Abbreviation log A := (eff unit Log A).

Definition with_sink s l := {|
  SERVER_LOG := s; LOG_OBSERVER := l.(LOG_OBSERVER); observed := l.(observed); files := l.(files);
  file_writes := l.(file_writes); stderr := l.(stderr); stderr_writes := l.(stderr_writes); clock := l.(clock) |}.
Definition with_observer o l := {|
  SERVER_LOG := l.(SERVER_LOG); LOG_OBSERVER := o; observed := l.(observed); files := l.(files);
  file_writes := l.(file_writes); stderr := l.(stderr); stderr_writes := l.(stderr_writes); clock := l.(clock) |}.
Definition called o msg l := {|
  SERVER_LOG := l.(SERVER_LOG); LOG_OBSERVER := l.(LOG_OBSERVER); observed := l.(observed) ++ [(o, msg)];
  files := l.(files); file_writes := l.(file_writes); stderr := l.(stderr); stderr_writes := l.(stderr_writes);
  clock := l.(clock) |}.
Definition with_file path text script l := {|
  SERVER_LOG := l.(SERVER_LOG); LOG_OBSERVER := l.(LOG_OBSERVER); observed := l.(observed);
  files := <[path := default [] (l.(files) !! path) ++ text]> l.(files); file_writes := script; stderr := l.(stderr);
  stderr_writes := l.(stderr_writes); clock := l.(clock) |}.
Definition with_stderr text script l := {|
  SERVER_LOG := l.(SERVER_LOG); LOG_OBSERVER := l.(LOG_OBSERVER); observed := l.(observed); files := l.(files);
  file_writes := l.(file_writes); stderr := l.(stderr) ++ text; stderr_writes := script; clock := l.(clock) |}.
Definition with_clock c l := {|
  SERVER_LOG := l.(SERVER_LOG); LOG_OBSERVER := l.(LOG_OBSERVER); observed := l.(observed); files := l.(files);
  file_writes := l.(file_writes); stderr := l.(stderr); stderr_writes := l.(stderr_writes); clock := c |}.

(** [OnceLock::set]: the first value stays. *)
Definition set_once {A} (v : A) (cell : option A) : option A := match cell with Some w => Some w | None => Some v end.

Definition set_log_observer (observer : Z) : log unit :=
  changes (fun l => with_observer (set_once observer l.(LOG_OBSERVER)) l).

(** [eprintln!]: it panics when stderr cannot be written. *)
Definition eprintln (line : bytes) : log unit := fun l =>
  let '(r, sent, script) := write_all l.(stderr_writes) (line ++ [x0a]) in
  (match r with Ok _ => Ok tt | _ => Panic end, with_stderr sent script l).

(** [opens] is what opening a file for appending gives, with the error's text. *)
Definition init_server_log (opens : bytes -> res bytes unit) (path : bytes) : log unit :=
  sink ← match path with
         | [] => mret Stderr
         | _ =>
             match opens path with
             | Ok _ => mret (File path)
             | Err e =>
                 _ ← eprintln (str "skaidb: cannot open log file " ++ path ++ str ": " ++ e
                               ++ str "; logging to stderr instead");
                 mret Stderr
             | Panic => of_res Panic
             | OutOfFuel => of_res OutOfFuel
             end
         end;
  changes (fun l => with_sink (set_once sink l.(SERVER_LOG)) l).

(** [log_timestamp()]. *)
Definition timestamp : log bytes := fun l =>
  (log_timestamp (hd None l.(clock)), with_clock (tail l.(clock)) l).

(** The result of the write is dropped. *)
Definition append (path line : bytes) : log unit := fun l =>
  let '(_, sent, script) := write_all l.(file_writes) line in (Ok tt, with_file path sent script l).

Definition server_log (msg : bytes) : log unit :=
  o ← reads_state LOG_OBSERVER;
  _ ← match o with Some o => changes (called o msg) | None => mret tt end;
  ts ← timestamp;
  sink ← reads_state SERVER_LOG;
  match sink with
  | Some (File path) => append path (ts ++ str " " ++ msg ++ [x0a])
  | _ => eprintln (ts ++ str " " ++ msg)
  end.

(** ** What a line does *)

Lemma write_all_all script buf :
  keen (length buf) script -> exists rest, write_all script buf = (Ok tt, buf, rest).
Proof.
  intros Hk. destruct (write_all_done script buf 0) as (rest & E & _); [|by exists rest].
  eapply keen_weaken; [exact Hk|]. lia.
Qed.

(** A message goes to the observer, and, stamped, as one line to where the log
    was first pointed. To a file the call always comes back, whatever the
    writes do, and what is added is the line, or a beginning of it when the
    file stops taking bytes. *)
Theorem lines_are_whole msg l :
  exists ts, log_timestamp (hd None l.(clock)) = Ok ts /\
  let line := ts ++ str " " ++ msg ++ [x0a] in
  let '(r, l') := server_log msg l in
  l'.(SERVER_LOG) = l.(SERVER_LOG)
  /\ l'.(observed) = l.(observed) ++ match l.(LOG_OBSERVER) with Some o => [(o, msg)] | None => [] end
  /\ exists sent, sent `prefix_of` line /\
     match l.(SERVER_LOG) with
     | Some (File path) =>
         r = Ok tt /\ l'.(stderr) = l.(stderr)
         /\ l'.(files) = <[path := default [] (l.(files) !! path) ++ sent]> l.(files)
         /\ (keen (length line) l.(file_writes) -> sent = line)
     | _ =>
         l'.(files) = l.(files) /\ l'.(stderr) = l.(stderr) ++ sent
         /\ (keen (length line) l.(stderr_writes) -> r = Ok tt /\ sent = line)
     end.
Proof.
  destruct (log_timestamp_returns (hd None l.(clock))) as [ts Ets]. exists ts. split; [exact Ets|]. intros line.
  set (l1 := match l.(LOG_OBSERVER) with Some o => called o msg l | None => l end).
  assert (E1 : server_log msg l = match l.(SERVER_LOG) with
    | Some (File path) => append path line (with_clock (tail l.(clock)) l1)
    | _ => eprintln (ts ++ str " " ++ msg) (with_clock (tail l.(clock)) l1) end).
  { unfold server_log, reads_state, timestamp, changes, mbind, eff_bind, mret, eff_ret. subst l1.
    destruct (LOG_OBSERVER l); cbv beta iota; cbn [clock called]; rewrite Ets; cbn [SERVER_LOG with_clock called];
      destruct (SERVER_LOG l) as [[]|]; done. }
  rewrite E1.
  assert (Hobs : observed l1 = observed l ++ match LOG_OBSERVER l with Some o => [(o, msg)] | None => [] end)
    by (subst l1; destruct (LOG_OBSERVER l); [done|by rewrite app_nil_r]).
  assert (Hsame : SERVER_LOG l1 = SERVER_LOG l /\ files l1 = files l /\ stderr l1 = stderr l
    /\ file_writes l1 = file_writes l /\ stderr_writes l1 = stderr_writes l) by (subst l1; by destruct (LOG_OBSERVER l)).
  destruct Hsame as (H1 & H2 & H3 & H4 & H5). clearbody l1. clear E1.
  assert (Eline : (ts ++ str " " ++ msg) ++ [x0a] = line) by (unfold line; by rewrite <- !app_assoc).
  destruct (SERVER_LOG l) as [[|path]|]; unfold append, eprintln;
    cbn [file_writes stderr_writes with_clock]; rewrite ?H4, ?H5, ?Eline.
  2: { pose proof (write_all_exact (file_writes l) line) as Hx. pose proof (write_all_all (file_writes l) line) as Hk.
    destruct (write_all (file_writes l) line) as [[r sent] script]. destruct Hx as [Hp _].
    split_and!; [done|done|]. exists sent. split_and!; [done|done|done|cbn; by rewrite H2|].
    intros (rest & [= _ E _])%Hk. done. }
  all: pose proof (write_all_exact (stderr_writes l) line) as Hx; pose proof (write_all_all (stderr_writes l) line) as Hk;
    destruct (write_all (stderr_writes l) line) as [[r sent] script]; destruct Hx as [Hp _];
    split_and!; [done|done|]; exists sent; split_and!; [done|done|cbn; by rewrite H3|];
    intros (rest & [= -> E _])%Hk; done.
Qed.

(** Only the first setting counts. *)
Lemma set_once_first {A} (v w : A) cell : set_once w (set_once v cell) = set_once v cell.
Proof. by destruct cell. Qed.

(** A failed write of a line is to be dropped rather than take the server
    down; on stderr, where lines go by default, it panics. *)
Theorem stderr_failure_panics msg l script :
  (l.(SERVER_LOG) = None \/ l.(SERVER_LOG) = Some Stderr) -> l.(stderr_writes) = Fails :: script ->
  (server_log msg l).1 = Panic.
Proof.
  intros Hs Hw. destruct (log_timestamp_returns (hd None l.(clock))) as [ts Ets].
  unfold server_log, reads_state, timestamp, changes, mbind, eff_bind, mret, eff_ret.
  destruct (LOG_OBSERVER l); cbv beta iota; cbn [clock called]; rewrite Ets; cbn [SERVER_LOG with_clock called];
    destruct Hs as [-> | ->]; unfold eprintln; cbn [stderr_writes with_clock called]; rewrite Hw;
    destruct ts; done.
Qed.

Lemma stderr_failure_panics_witness :
  (server_log (str "x") {| SERVER_LOG := None; LOG_OBSERVER := None; observed := []; files := ∅; file_writes := [];
     stderr := []; stderr_writes := [Fails]; clock := [] |}).1 = Panic.
Proof. by apply (stderr_failure_panics _ _ []); [left|]. Defined.
