(* ===== verification/Disk.v ===== *)
(** * Disk usage and full disks

    [dir_size.rs]: a directory's size, read from a cache that one background
    thread at a time refreshes; [diskfull.rs]: the count of errors that were the
    disk being full, and the hook they run. *)
From stdpp Require Import relations.
From S2P Require Import Prelude.
#[local] Open Scope Z_scope.

(** ** Walking a directory *)

(** What [read_dir] gives, when it can be read; an entry's metadata may not. *)
Inductive entry :=
| Unreadable
| File (len : Z)
| Dir (listing : option (list entry)).

(** [total += n]; overflow checks make it panic. *)
Definition add_u64 (a b : Z) : res unit Z := if a + b <? 2 ^ 64 then Ok (a + b) else Panic.

(** What an entry adds: a file its length, a directory [walk] of it. *)
Fixpoint entry_size (e : entry) : res unit Z :=
  match e with
  | Unreadable | Dir None => Ok 0
  | File len => Ok len
  | Dir (Some entries) =>
      (fix go (total : Z) (l : list entry) : res unit Z :=
         match l with
         | [] => Ok total
         | Unreadable :: l => go total l
         | e :: l => n ← entry_size e; total ← add_u64 total n; go total l
         end) 0 entries
  end.

Definition walk (listing : option (list entry)) : res unit Z := entry_size (Dir listing).

(** The length of every readable file, at any depth. *)
Fixpoint files (e : entry) : list Z :=
  match e with
  | Unreadable | Dir None => []
  | File len => [len]
  | Dir (Some l) => (fix go (l : list entry) : list Z := match l with [] => [] | e :: l => files e ++ go l end) l
  end.

Definition sum (l : list Z) : Z := foldr Z.add 0 l.

Fixpoint go_sizes (total : Z) (l : list entry) : res unit Z :=
  match l with
  | [] => Ok total
  | Unreadable :: l => go_sizes total l
  | e :: l => n ← entry_size e; total ← add_u64 total n; go_sizes total l
  end.

Fixpoint all_files (l : list entry) : list Z := match l with [] => [] | e :: l => files e ++ all_files l end.

Lemma entry_size_dir l : entry_size (Dir (Some l)) = go_sizes 0 l.
Proof. reflexivity. Qed.

Lemma files_dir l : files (Dir (Some l)) = all_files l.
Proof. reflexivity. Qed.

Lemma sum_app a b : sum (a ++ b) = sum a + sum b.
Proof. induction a as [|x a IH]; cbn; [done|]. unfold sum in *. lia. Qed.

(** Induction on a tree, with the entries of a directory. *)
Lemma entry_ind' (Q : entry -> Prop) :
  Q Unreadable -> (forall n, Q (File n)) -> Q (Dir None) -> (forall l, Forall Q l -> Q (Dir (Some l))) ->
  forall e, Q e.
Proof.
  intros H1 H2 H3 H4. fix IH 1. intros [|n|[l|]]; [done|apply H2| |done]. apply H4.
  induction l as [|e l IHl]; constructor; [apply IH|exact IHl].
Qed.

Definition lengths_ok (l : list Z) : Prop := Forall (fun n => 0 <= n) l.

Lemma sum_nonneg l : lengths_ok l -> 0 <= sum l.
Proof. induction 1 as [|x l Hx _ IH]; cbn; [done|]. unfold sum in IH. lia. Qed.

Lemma entry_size_sum e :
  lengths_ok (files e) -> sum (files e) < 2 ^ 64 -> entry_size e = Ok (sum (files e)).
Proof.
  induction e as [|n| |l IH] using entry_ind'; intros Hl Hs; try done.
  { cbn. by rewrite Z.add_0_r. }
  rewrite entry_size_dir, files_dir in *.
  enough (Hgo : forall total, 0 <= total -> total + sum (all_files l) < 2 ^ 64 ->
    go_sizes total l = Ok (total + sum (all_files l))) by (by apply (Hgo 0)).
  clear Hs. induction IH as [|e l He _ IHl]; intros total Ht Hs; cbn [go_sizes all_files] in *.
  { cbn. by rewrite Z.add_0_r. }
  apply Forall_app in Hl as [Hle Hll]. rewrite sum_app in Hs |- *.
  pose proof (sum_nonneg _ Hle) as H0. pose proof (sum_nonneg _ Hll) as H1.
  assert (E : go_sizes total (e :: l) = Ok (total + (sum (files e) + sum (all_files l)))).
  { assert (Ee : entry_size e = Ok (sum (files e))) by (apply He; [done|lia]).
    assert (Ea : add_u64 total (sum (files e)) = Ok (total + sum (files e)))
      by (unfold add_u64; by rewrite (proj2 (Z.ltb_lt _ _)) by lia).
    destruct e as [|n|d]; cbn [go_sizes].
    - cbn in *. by rewrite IHl by (done || lia).
    - rewrite Ee. cbn [mbind res_bind]. rewrite Ea. cbn [mbind res_bind]. rewrite IHl by (done || lia). f_equal. lia.
    - rewrite Ee. cbn [mbind res_bind]. rewrite Ea. cbn [mbind res_bind]. rewrite IHl by (done || lia). f_equal. lia. }
  exact E.
Qed.

(** ** The cache *)

Definition REFRESH : Z := 300000.

Record Shared := { bytes : Z; refreshed_ms : Z; refreshing : bool }.

Definition store_bytes n s := {| bytes := n; refreshed_ms := s.(refreshed_ms); refreshing := s.(refreshing) |}.
Definition store_refreshed t s := {| bytes := s.(bytes); refreshed_ms := t; refreshing := s.(refreshing) |}.
Definition store_refreshing b s := {| bytes := s.(bytes); refreshed_ms := s.(refreshed_ms); refreshing := b |}.

(** [get]'s test, with the time it is. *)
Definition stale (now : Z) (s : Shared) : bool := REFRESH <=? Z.max 0 (now - s.(refreshed_ms)).

(** [refreshing.swap(true)]: who finds it clear walks. *)
Definition claim (s : Shared) : bool * Shared := (negb s.(refreshing), store_refreshing true s).

(** [refresh_now], on one thread. *)
Definition refresh_now (disk : option (list entry)) (now : Z) (s : Shared) : res unit (Z * Shared) :=
  n ← walk disk; Ok (n, store_refreshed (Z.max now 1) (store_bytes n s)).

(** Where a thread of [refresh_in_background] is: not yet spawned, walking, or
    past each store. *)
Inductive walker := Spawning | Walking | Stored | Stamped.

(** The cache, the background walks under way, the refreshes callers run
    themselves ([true] past the first store), and the sizes every walk found. *)
Record Threads := { shared : Shared; walkers : list walker; callers : list bool; found : list Z }.

Definition set_shared f t := {|
  shared := f t.(shared); walkers := t.(walkers); callers := t.(callers); found := t.(found) |}.

(** One step of some thread. *)
Inductive step : Threads -> Threads -> Prop :=
| s_get s ws cs l now ok :
    stale now s = true -> claim s = (ok, store_refreshing true s) ->
    step {| shared := s; walkers := ws; callers := cs; found := l |}
         {| shared := store_refreshing true s; walkers := (if ok : bool then [Spawning] else []) ++ ws; callers := cs;
            found := l |}
| s_spawned s ws1 ws2 cs l :
    step {| shared := s; walkers := ws1 ++ Spawning :: ws2; callers := cs; found := l |}
         {| shared := s; walkers := ws1 ++ Walking :: ws2; callers := cs; found := l |}
| s_not_spawned s ws1 ws2 cs l :
    step {| shared := s; walkers := ws1 ++ Spawning :: ws2; callers := cs; found := l |}
         {| shared := store_refreshing false s; walkers := ws1 ++ ws2; callers := cs; found := l |}
| s_walked s ws1 ws2 cs l disk n :
    walk disk = Ok n ->
    step {| shared := s; walkers := ws1 ++ Walking :: ws2; callers := cs; found := l |}
         {| shared := store_bytes n s; walkers := ws1 ++ Stored :: ws2; callers := cs; found := n :: l |}
| s_stamped s ws1 ws2 cs l now :
    step {| shared := s; walkers := ws1 ++ Stored :: ws2; callers := cs; found := l |}
         {| shared := store_refreshed (Z.max now 1) s; walkers := ws1 ++ Stamped :: ws2; callers := cs; found := l |}
| s_done s ws1 ws2 cs l :
    step {| shared := s; walkers := ws1 ++ Stamped :: ws2; callers := cs; found := l |}
         {| shared := store_refreshing false s; walkers := ws1 ++ ws2; callers := cs; found := l |}
| s_refresh_now s ws cs l disk n :
    walk disk = Ok n ->
    step {| shared := s; walkers := ws; callers := cs; found := l |}
         {| shared := store_bytes n s; walkers := ws; callers := true :: cs; found := n :: l |}
| s_refreshed s ws cs1 cs2 l now :
    step {| shared := s; walkers := ws; callers := cs1 ++ true :: cs2; found := l |}
         {| shared := store_refreshed (Z.max now 1) s; walkers := ws; callers := cs1 ++ cs2; found := l |}.

(** [new], before its first walk is spawned. *)
Definition start : Threads := {|
  shared := {| bytes := 0; refreshed_ms := 0; refreshing := true |}; walkers := [Spawning]; callers := [];
  found := [] |}.

Inductive reachable : Threads -> Prop :=
| r_start : reachable start
| r_step t t' : reachable t -> step t t' -> reachable t'.

(** One walk at a time, and every size one a walk found. *)
Definition sound (t : Threads) : Prop :=
  length t.(walkers) = (if t.(shared).(refreshing) then 1 else 0)%nat
  /\ t.(shared).(bytes) ∈ 0 :: t.(found).

Lemma walk_step_sound t t' : step t t' -> sound t -> sound t'.
Proof.
  intros Hstep [Hl Hb].
  destruct Hstep as [s ws cs l now ok _ Hc|s ws1 ws2 cs l|s ws1 ws2 cs l|s ws1 ws2 cs l disk n _|s ws1 ws2 cs l now
    |s ws1 ws2 cs l|s ws cs l disk n _|s ws cs1 cs2 l now]; split;
    cbn [shared walkers found bytes refreshing store_bytes store_refreshed store_refreshing] in *;
    rewrite ?length_app in *; cbn [length] in *; try done; try (by rewrite elem_of_cons; right; left);
    try (destruct (refreshing s); lia).
  - unfold claim in Hc. injection Hc as <-. destruct (refreshing s); cbn; lia.
Qed.

Lemma walks_sound t : reachable t -> sound t.
Proof. induction 1 as [|t t' _ IH Hs]; [|by eapply walk_step_sound]. split; [done|]. by left. Qed.

(** ** Full disks *)

(** What [is_enospc] looks at: the error's kind and the system's number. *)
Record os_error := { storage_full : bool; raw_os_error : option Z }.

Definition is_enospc (e : os_error) : bool := e.(storage_full) || bool_decide (e.(raw_os_error) = Some 28).

Section enospc.
Context {H : Type}.

(** The process's counter and hook, and the hooks run so far. *)
Record Enospc := { enospc_total : Z; hook : option H; ran : list H }.

Definition note_io_error (e : os_error) (s : Enospc) : Enospc :=
  if is_enospc e then
    {| enospc_total := wrap 64 (s.(enospc_total) + 1); hook := s.(hook);
       ran := match s.(hook) with Some h => s.(ran) ++ [h] | None => s.(ran) end |}
  else s.

Definition install_enospc_hook (h : H) (s : Enospc) : Enospc := {|
  enospc_total := s.(enospc_total);
  hook := match s.(hook) with Some h => Some h | None => Some h end;
  ran := s.(ran) |}.

Inductive event := Noted (e : os_error) | Installed (h : H).

Definition happens (s : Enospc) (e : event) : Enospc :=
  match e with Noted e => note_io_error e s | Installed h => install_enospc_hook h s end.

Definition full (e : event) : bool := match e with Noted e => is_enospc e | Installed _ => false end.
Definition count_full (l : list event) : Z := Z.of_nat (length (List.filter full l)).

Lemma count_full_cons e l : count_full (e :: l) = (if full e then 1 else 0) + count_full l.
Proof. unfold count_full. cbn. destruct (full e); cbn [length]; lia. Qed.

Lemma total_counts l s :
  wrap 64 s.(enospc_total) = s.(enospc_total) ->
  (fold_left happens l s).(enospc_total) = wrap 64 (s.(enospc_total) + count_full l).
Proof.
  revert s. induction l as [|e l IH]; intros s Hs; cbn [fold_left]; [by rewrite Z.add_0_r|].
  rewrite count_full_cons. destruct e as [e|h]; cbn [happens full].
  - unfold note_io_error. destruct (is_enospc e); [|rewrite IH by done; f_equal; lia].
    rewrite IH; cbn [enospc_total]; unfold wrap.
    + rewrite Zplus_mod_idemp_l. f_equal. lia.
    + by rewrite Z.mod_mod.
  - rewrite IH; [done|done].
Qed.

Lemma hook_stays l s h :
  s.(hook) = Some h ->
  (fold_left happens l s).(hook) = Some h
  /\ (fold_left happens l s).(ran) = s.(ran) ++ replicate (length (List.filter full l)) h.
Proof.
  revert s. induction l as [|e l IH]; intros s Hs; cbn [fold_left List.filter]; [by rewrite app_nil_r|].
  destruct e as [e|h']; cbn [happens full].
  - unfold note_io_error. destruct (is_enospc e); [|by apply IH]. rewrite Hs.
    destruct (IH {| enospc_total := wrap 64 (enospc_total s + 1); hook := Some h; ran := ran s ++ [h] |} eq_refl)
      as [-> ->]. split; [done|]. cbn. by rewrite <- app_assoc.
  - apply (IH (install_enospc_hook h' s)). unfold install_enospc_hook. cbn. by rewrite Hs.
Qed.

Lemma no_hook l s :
  s.(hook) = None -> Forall (fun e => match e with Installed _ => False | _ => True end) l ->
  (fold_left happens l s).(hook) = None /\ (fold_left happens l s).(ran) = s.(ran).
Proof.
  intros Hs Hl. revert s Hs. induction Hl as [|e l He _ IH]; intros s Hs; [done|]. cbn [fold_left].
  destruct e as [e|]; [|done]. cbn [happens]. unfold note_io_error. destruct (is_enospc e); [|by apply IH].
  rewrite Hs. by apply (IH {| enospc_total := wrap 64 (enospc_total s + 1); hook := None; ran := ran s |}).
Qed.
End enospc.
Arguments Enospc : clear implicits.
Arguments event : clear implicits.

(** ** Properties *)


(** A walk adds up the lengths of the files under the directory, at any
    depth, each once; what cannot be read counts nothing. *)
Theorem walk_sums_files listing :
  lengths_ok (files (Dir listing)) -> sum (files (Dir listing)) < 2 ^ 64 ->
  walk listing = Ok (sum (files (Dir listing))).
Proof. intros Hl Hs. by apply entry_size_sum. Qed.

(** The counter counts exactly the errors that were the disk being full,
    modulo 2^64, and the first hook installed, no other, runs once for each
    of them from its installation on. *)
Theorem full_disks_counted {H} (before after : list (event H)) (h : H) (s : Enospc H) :
  0 <= s.(enospc_total) < 2 ^ 64 -> s.(hook) = None ->
  Forall (fun e => match e with Installed _ => False | _ => True end) before ->
  let s' := fold_left happens (before ++ Installed h :: after) s in
  s'.(enospc_total) = wrap 64 (s.(enospc_total) + count_full before + count_full after)
  /\ s'.(hook) = Some h
  /\ s'.(ran) = s.(ran) ++ replicate (length (List.filter full after)) h.
Proof.
  intros Ht Hh Hb s'. split.
  - unfold s'. rewrite total_counts by (unfold wrap; by rewrite Z.mod_small). f_equal. unfold count_full.
    rewrite List.filter_app, length_app. cbn [List.filter full]. lia.
  - unfold s'. rewrite fold_left_app. cbn [fold_left happens].
    destruct (no_hook before s Hh Hb) as [Hn Hr]. set (s1 := fold_left happens before s) in *.
    destruct (hook_stays after (install_enospc_hook h s1) h) as [E1 E2].
    { unfold install_enospc_hook. cbn. by rewrite Hn. }
    split; [done|]. rewrite E2. cbn [ran install_enospc_hook]. by rewrite Hr.
Qed.

(** ** Witnesses *)


Definition wit_tree : option (list entry) :=
  Some [File 1000; Unreadable; Dir (Some [File 500; Dir None]); Dir (Some [])].

Lemma walk_sums_files_witness : walk wit_tree = Ok 1500.
Proof. apply (walk_sums_files wit_tree); [|done]. by repeat constructor. Defined.

Lemma full_disks_counted_witness :
  (fold_left happens [Noted {| storage_full := true; raw_os_error := None |}; Installed 7;
     Noted {| storage_full := false; raw_os_error := Some 28 |}; Installed 8;
     Noted {| storage_full := false; raw_os_error := Some 13 |}]
     {| enospc_total := 0; hook := None; ran := [] |}).(ran) = [7].
Proof.
  apply (full_disks_counted [Noted {| storage_full := true; raw_os_error := None |}]
    [Noted {| storage_full := false; raw_os_error := Some 28 |}; Installed 8;
     Noted {| storage_full := false; raw_os_error := Some 13 |}] 7 {| enospc_total := 0; hook := None; ran := [] |});
    [done|done|by repeat constructor].
Defined.
