(* ===== verification/IntFloat.v ===== *)
(** * Integers against doubles

    [cmp_i64_f64] and [i64_is_exact_f64] of [value.rs]: an integer and a double
    compared as the numbers they are. *)
From S2P Require Import Prelude Bytes Float64.
From Stdlib Require Import SpecFloat.
#[local] Open Scope Z_scope.

(** ** The comparison *)

(** [f64::trunc]: a finite double without its fraction keeps its exponent. *)
Definition trunc_sf (f : spec_float) : spec_float :=
  match f with
  | S754_finite s m e =>
      if 0 <=? e then f
      else match Z.pos m / 2 ^ (- e) * 2 ^ (- e) with
           | Z.pos p => S754_finite s p e
           | _ => S754_zero s
           end
  | f => f
  end.

(** [f as i128], towards zero, then the clamp of [as i64]. *)
Definition to_int (f : spec_float) : Z :=
  match f with
  | S754_finite s m e =>
      cond_Zopp s (if 0 <=? e then Z.pos m * 2 ^ e else Z.pos m / 2 ^ (- e))
  | _ => 0
  end.

Definition clamp (lo hi z : Z) : Z := Z.max lo (Z.min hi z).

Definition as_i64 (f : spec_float) : Z :=
  match f with
  | S754_infinity s => if s then - 2 ^ 63 else 2 ^ 63 - 1
  | f => clamp (- 2 ^ 63) (2 ^ 63 - 1) (to_int f)
  end.

Definition TWO_63 : spec_float := S754_finite false (2 ^ 52)%positive 11.

Definition cmp_i64_f64 (i x : Z) : option comparison :=
  let f := sf_of_bits x in
  if is_nan x then None
  else if SFleb TWO_63 f then Some Lt
  else if SFltb f (SFopp TWO_63) then Some Gt
  else
    let whole := trunc_sf f in
    Some match Z.compare i (as_i64 whole) with
         | Eq => default Eq (SFcompare (S754_zero false) (SFsub prec emax f whole))
         | other => other
         end.

Definition as_i128 (f : spec_float) : Z := clamp (- 2 ^ 127) (2 ^ 127 - 1) (to_int f).

Definition i64_is_exact_f64 (i : Z) : bool := as_i128 (sf_of_bits (f64_of_int i)) =? i.

Example cmp_1 : cmp_i64_f64 (2 ^ 53 + 1) (f64_of_int (2 ^ 53)) = Some Gt.
Proof. vm_compute. reflexivity. Qed.
Example cmp_2 : cmp_i64_f64 (-1) (f64_div (f64_of_int (-3)) (f64_of_int 2)) = Some Gt.
Proof. vm_compute. reflexivity. Qed.
Example exact_1 : i64_is_exact_f64 (2 ^ 53 + 1) = false /\ i64_is_exact_f64 (- 2 ^ 63) = true.
Proof. vm_compute. done. Qed.

(** ** The numbers *)

(** The order of [i] and the number a double is. *)
Definition real_cmp (i : Z) (f : spec_float) : option comparison :=
  match f with
  | S754_nan => None
  | S754_zero _ => Some (i ?= 0)
  | S754_infinity s => Some (if s then Gt else Lt)
  | S754_finite s m e =>
      Some (if 0 <=? e then i ?= cond_Zopp s (Z.pos m) * 2 ^ e else i * 2 ^ (- e) ?= cond_Zopp s (Z.pos m))
  end.

(** ** Exact rounding *)

Lemma digits_log2 p : Z.pos (digits2_pos p) = Z.log2 (Z.pos p) + 1.
Proof.
  induction p as [p IH|p IH|]; cbn [digits2_pos]; [| |done]; rewrite Pos2Z.inj_succ, IH.
  - rewrite Pos2Z.inj_xI, Z.log2_succ_double; lia.
  - rewrite Pos2Z.inj_xO, Z.log2_double; lia.
Qed.

Lemma iter_xO m d : Z.pos (Pos.iter xO m d) = Z.pos m * 2 ^ Z.pos d.
Proof.
  induction d as [|d IH] using Pos.peano_ind; [cbn; lia|].
  rewrite Pos.iter_succ, Pos2Z.inj_xO, IH, Pos2Z.inj_succ, Z.pow_succ_r by lia. lia.
Qed.

(** A mantissa at its canonical exponent is not touched. *)
Lemma round_aux_exact s m e :
  fexp prec emax (Z.pos (digits2_pos m) + e) = e -> e <= 971 ->
  binary_round_aux prec emax s (Z.pos m) e loc_Exact = S754_finite s m e.
Proof.
  intros Hf He. unfold binary_round_aux, shr_fexp. cbn [Zdigits2 shr_record_of_loc].
  rewrite Hf, Z.sub_diag. cbn [shr shr_m loc_of_shr_record round_nearest_even Zdigits2].
  rewrite Hf, Z.sub_diag. cbn [shr shr_m]. by rewrite (proj2 (Z.leb_le _ _)) by (unfold emax, prec; lia).
Qed.

Lemma binary_round_exact s p e :
  Z.pos p < 2 ^ 53 -> -1074 <= e <= 971 ->
  exists m' e', binary_round prec emax s p e = S754_finite s m' e'
    /\ e' <= e /\ Z.pos m' = Z.pos p * 2 ^ (e - e').
Proof.
  intros Hp He. unfold binary_round.
  pose proof (digits_log2 p) as Hd. pose proof (Z.log2_nonneg (Z.pos p)).
  assert (Hl : Z.log2 (Z.pos p) < 53) by (apply Z.log2_lt_pow2; lia).
  set (t := fexp prec emax (Z.pos (digits2_pos p) + e)).
  assert (Ht : t = Z.max (Z.log2 (Z.pos p) + 1 + e - 53) (-1074)) by (unfold t, fexp, emin; rewrite Hd; done).
  assert (Hte : t <= e) by lia. clearbody t.
  assert (Hm : exists m', shl_align p e t = (m', t) /\ Z.pos m' = Z.pos p * 2 ^ (e - t)).
  { unfold shl_align. destruct (t - e) as [|d|d] eqn:E; [|lia|].
    - exists p. replace t with e by lia. rewrite Z.sub_diag. split; [done|lia].
    - exists (Pos.iter xO p d). split; [done|]. rewrite iter_xO. do 2 f_equal. lia. }
  destruct Hm as (m' & -> & Em). exists m', t. split_and!; [|lia|done].
  apply round_aux_exact; [|lia].
  assert (Hlog : Z.log2 (Z.pos m') = Z.log2 (Z.pos p) + (e - t)).
  { rewrite Em, Z.log2_mul_pow2 by lia. lia. }
  rewrite digits_log2, Hlog. unfold fexp, emin. change (3 - emax - prec) with (-1074). unfold prec. lia.
Qed.

(** The sign of a difference that rounds to itself. *)
Lemma sub_same_exponent s m m' e :
  Z.pos m' <= Z.pos m -> Z.pos m < 2 ^ 53 -> -1074 <= e <= 971 ->
  SFcompare (S754_zero false) (SFsub prec emax (S754_finite s m e) (S754_finite s m' e))
  = Some (if Z.pos m =? Z.pos m' then Eq else if s then Gt else Lt).
Proof.
  intros Hle Hm He. cbn [SFsub]. rewrite Z.min_id. unfold shl_align. rewrite Z.sub_diag. cbn [fst].
  destruct (Z.eqb_spec (Z.pos m) (Z.pos m')) as [E|Hne].
  { rewrite E. destruct s; cbn [cond_Zopp]; by rewrite Z.sub_diag. }
  assert (Hr : forall s' p, Z.pos p = Z.pos m - Z.pos m' ->
    SFcompare (S754_zero false) (binary_round prec emax s' p e) = Some (if s' then Gt else Lt)).
  { intros s' p Hp. destruct (binary_round_exact s' p e) as (m1 & e1 & -> & _); [lia|done|]. done. }
  destruct s; cbn [cond_Zopp binary_normalize].
  - destruct (- Z.pos m - - Z.pos m') as [|p|p] eqn:E; [lia|lia|]. apply (Hr true). lia.
  - destruct (Z.pos m - Z.pos m') as [|p|p] eqn:E; [lia| |lia]. apply (Hr false). lia.
Qed.

(** A canonical finite double. *)
Definition canonical (m : positive) (e : Z) : Prop :=
  Z.pos m < 2 ^ 53 /\ -1074 <= e <= 971 /\ (2 ^ 52 <= Z.pos m \/ e = -1074).

Lemma sf_of_bits_canonical x :
  0 <= x < 2 ^ 64 ->
  match sf_of_bits x with S754_finite _ m e => canonical m e | _ => True end.
Proof.
  intros Hx. destruct (is_nan x) eqn:Hn.
  { unfold is_nan in Hn. by destruct (sf_of_bits x). }
  destruct (f64_split x Hx) as (s & y & Hy & ->).
  destruct (sf_of_bits_cases s y Hy Hn) as [[_ ->]|[(p & e & -> & _ & He & Hp & Hn')|[_ ->]]]; done.
Qed.

Lemma cont_compare p q : Pos.compare_cont Eq p q = (Z.pos p ?= Z.pos q).
Proof. reflexivity. Qed.

Lemma above_two63 s m e :
  canonical m e -> SFleb TWO_63 (S754_finite s m e) = negb s && (11 <=? e).
Proof.
  intros (Hm & He & Hn). unfold SFleb, TWO_63. cbn [SFcompare]. destruct s; [done|].
  destruct (Z.compare_spec 11 e), (Z.leb_spec 11 e); try done; try lia. subst e.
  rewrite cont_compare.
  destruct (Z.compare_spec (Z.pos (2 ^ 52)) (Z.pos m)); try done. lia.
Qed.

Lemma below_two63 s m e :
  canonical m e ->
  SFltb (S754_finite s m e) (SFopp TWO_63) = s && ((11 <? e) || (e =? 11) && (2 ^ 52 <? Z.pos m)).
Proof.
  intros (Hm & He & Hn). unfold SFltb, TWO_63. cbn [SFcompare SFopp negb]. destruct s; [|done].
  destruct (Z.compare_spec e 11), (Z.ltb_spec 11 e), (Z.eqb_spec e 11); try done; try lia. cbn [orb andb].
  rewrite cont_compare.
  destruct (Z.compare_spec (Z.pos m) (Z.pos (2 ^ 52))), (Z.ltb_spec (2 ^ 52) (Z.pos m)); try done; lia.
Qed.

(** What lies past the bounds of [i64]. *)
Lemma above_i64 i m e :
  is_sint 64 i = true -> canonical m e -> 11 <= e -> i < Z.pos m * 2 ^ e.
Proof.
  intros Hi%is_sint_spec (_ & He & Hn) H11. assert (2 ^ 11 <= 2 ^ e) by (apply Z.pow_le_mono_r; lia). nia.
Qed.

Lemma below_i64 i m e :
  is_sint 64 i = true -> canonical m e -> 11 < e \/ e = 11 /\ 2 ^ 52 < Z.pos m -> - Z.pos m * 2 ^ e < i.
Proof.
  intros Hi%is_sint_spec (_ & He & Hn) [H11|[-> Hm]]; [|lia].
  assert (2 ^ 12 <= 2 ^ e) by (apply Z.pow_le_mono_r; lia). nia.
Qed.

(** Whole doubles in the range of [i64]. *)
Lemma cmp_whole i s m e :
  canonical m e -> 0 <= e -> - 2 ^ 63 <= cond_Zopp s (Z.pos m) * 2 ^ e < 2 ^ 63 ->
  match Z.compare i (as_i64 (trunc_sf (S754_finite s m e))) with
  | Eq => default Eq (SFcompare (S754_zero false) (SFsub prec emax (S754_finite s m e) (trunc_sf (S754_finite s m e))))
  | other => other
  end = (i ?= cond_Zopp s (Z.pos m) * 2 ^ e).
Proof.
  intros (Hm & He & _) H0 Hr. unfold trunc_sf. rewrite (proj2 (Z.leb_le 0 e)) by done.
  assert (Ei : as_i64 (S754_finite s m e) = cond_Zopp s (Z.pos m) * 2 ^ e).
  { unfold as_i64, to_int, clamp. rewrite (proj2 (Z.leb_le 0 e)) by done. destruct s; cbn [cond_Zopp] in *; lia. }
  rewrite Ei, sub_same_exponent, Z.eqb_refl by lia. by destruct (i ?= _).
Qed.

(** Doubles with a fraction. *)
Lemma cmp_fraction i s m e :
  canonical m e -> e < 0 ->
  match Z.compare i (as_i64 (trunc_sf (S754_finite s m e))) with
  | Eq => default Eq (SFcompare (S754_zero false) (SFsub prec emax (S754_finite s m e) (trunc_sf (S754_finite s m e))))
  | other => other
  end = (i * 2 ^ (- e) ?= cond_Zopp s (Z.pos m)).
Proof.
  intros (Hm & He & _) H0. unfold trunc_sf. rewrite (proj2 (Z.leb_gt 0 e)) by done.
  set (K := 2 ^ (- e)). assert (HK : 0 < K) by (apply Z.pow_pos_nonneg; lia).
  pose proof (Z.div_mod (Z.pos m) K ltac:(lia)) as Hdm. pose proof (Z.mod_pos_bound (Z.pos m) K HK) as Hr.
  set (q := Z.pos m / K) in *. set (r := Z.pos m mod K) in *.
  assert (Hq : 0 <= q) by (apply Z.div_pos; lia).
  assert (Hqm : q <= Z.pos m) by nia.
  assert (Hdir : forall c d : Z, (c < d -> i * K < cond_Zopp s (Z.pos m)) -> (d < c -> cond_Zopp s (Z.pos m) < i * K) ->
    forall o, (c = d -> o = (i * K ?= cond_Zopp s (Z.pos m))) ->
    match c ?= d with Eq => o | other => other end = (i * K ?= cond_Zopp s (Z.pos m))).
  { intros c d Hlt Hgt o Ho. destruct (Z.compare_spec c d) as [E|Hl|Hg]; [by apply Ho|..]; symmetry.
    - apply Z.compare_lt_iff. auto.
    - apply Z.compare_gt_iff. auto. }
  destruct (q * K) as [|p|p] eqn:Eqk; [| |lia].
  - assert (q = 0) by nia. apply Hdir; cbn [as_i64 to_int]; change (clamp _ _ 0) with 0.
    + intros Hi. destruct s; cbn [cond_Zopp]; nia.
    + intros Hi. destruct s; cbn [cond_Zopp]; nia.
    + intros ->. cbn [SFsub SFcompare default]. rewrite Z.mul_0_l. destruct s; done.
  - assert (Ei : as_i64 (S754_finite s p e) = cond_Zopp s q).
    { unfold as_i64, to_int, clamp. rewrite (proj2 (Z.leb_gt 0 e)) by done. fold K. rewrite <- Eqk, Z.div_mul by lia.
      destruct s; cbn [cond_Zopp]; lia. }
    rewrite Ei. apply Hdir.
    + intros Hi. destruct s; cbn [cond_Zopp] in *; nia.
    + intros Hi. destruct s; cbn [cond_Zopp] in *; nia.
    + intros ->. rewrite sub_same_exponent by lia. cbn [default].
      assert (Eq' : cond_Zopp s q * K = cond_Zopp s (Z.pos p)) by (destruct s; cbn [cond_Zopp]; lia).
      rewrite Eq'. symmetry. destruct (Z.eqb_spec (Z.pos m) (Z.pos p)) as [->|Hne]; [apply Z.compare_refl|].
      destruct s; cbn [cond_Zopp]; [apply Z.compare_gt_iff|apply Z.compare_lt_iff]; lia.
Qed.

(** ** Properties *)

(** C30: comparing an integer with a double compares the two numbers, with no
    rounding of either: for every 64-bit integer and every double,
    infinities, subnormals and both zeros included, the answer is the order
    of the integer and the exact number the double is, and none for a NaN. *)
Theorem cmp_i64_f64_exact i x :
  is_sint 64 i = true -> 0 <= x < 2 ^ 64 -> cmp_i64_f64 i x = real_cmp i (sf_of_bits x).
Proof.
  intros Hi Hx. pose proof (sf_of_bits_canonical x Hx) as Hc. unfold cmp_i64_f64, is_nan.
  destruct (sf_of_bits x) as [s|s| |s m e]; try done.
  - change (as_i64 (trunc_sf (S754_zero s))) with 0. cbn [real_cmp]. by destruct s, (i ?= 0).
  - by destruct s.
  - rewrite above_two63, below_two63 by done. cbn [real_cmp].
    assert (He := proj1 (proj2 Hc)).
    destruct (negb s && (11 <=? e)) eqn:Ea.
    { apply andb_true_iff in Ea as [Es%negb_true_iff E11%Z.leb_le]. subst s. cbn [cond_Zopp].
      rewrite (proj2 (Z.leb_le 0 e)) by lia. f_equal. symmetry. apply Z.compare_lt_iff. by apply above_i64. }
    destruct (s && _) eqn:Eb.
    { apply andb_true_iff in Eb as [-> Eb]. cbn [cond_Zopp]. rewrite (proj2 (Z.leb_le 0 e)) by lia. f_equal.
      symmetry. apply Z.compare_gt_iff. apply below_i64; [done|done|]. lia. }
    f_equal. destruct (Z.leb_spec 0 e) as [H0|H0]; [|by apply cmp_fraction].
    apply cmp_whole; [done|done|]. destruct Hc as (Hm & _ & Hn).
    assert (Hb : (e <= 10 \/ e = 11 /\ s = true /\ Z.pos m <= 2 ^ 52)) by (destruct s; cbn in Ea, Eb; lia).
    destruct Hb as [Hb|(-> & -> & Hb)]; [|cbn [cond_Zopp]; lia].
    assert (2 ^ e <= 2 ^ 10) by (apply Z.pow_le_mono_r; lia). assert (0 < 2 ^ e) by (apply Z.pow_pos_nonneg; lia).
    destruct s; cbn [cond_Zopp]; nia.
Qed.

(** ** Witnesses *)

Lemma cmp_i64_f64_exact_witness : cmp_i64_f64 (2 ^ 63 - 1) (f64_of_int (2 ^ 63)) = Some Lt.
Proof.
  rewrite (cmp_i64_f64_exact (2 ^ 63 - 1) (f64_of_int (2 ^ 63))); [by vm_compute|by vm_compute|].
  apply bits_of_sf_range.
Defined.
