(* ===== verification/Bench.v ===== *)
(** * The load generator

    [examples/bench.rs] over [Session]: what it reads from its arguments, the
    rows it loads, the operations each worker draws, and its report.  Workers
    share only the barrier they are released at and have a connection each, so
    each is run on its own and their results are joined in order.  What
    connecting gives, and how long each operation took, are arguments. *)
From S2P Require Import Prelude Bytes Text Float64 Decimal IntFloat Rng Value Message Frame Crypto Effect Sql Login Session.
#[local] Open Scope Z_scope.

(** ** Arguments *)

Record Settings := {
  addrs : list bytes; user : bytes; pass : bytes; mode : bytes;
  ops : Z; threads : Z; preload : Z; valsize : Z; read_span : Z;
}.

(** [expect]; an [Err] is the process's exit status. *)
Definition expect {A} (o : option A) : res Z A := match o with Some a => Ok a | None => Panic end.

Definition parse_usize (s : bytes) : option Z := parse_radix 64 10 dec_val s.

Definition parse_preload (arg : option bytes) : res Z (Z * Z) :=
  match arg with
  | None => Ok (1000, 0)
  | Some s =>
      match split_once (byte_of 120) s with
      | Some (n, sz) => n ← expect (parse_usize n); sz ← expect (parse_usize sz); Ok (n, sz)
      | None => n ← expect (parse_usize s); Ok (n, 0)
      end
  end.

(** The span reads draw from: [READ_SPAN] when it is a positive number, and
    never more than the preloaded rows. *)
Definition span_of (READ_SPAN : option bytes) (preload : Z) : Z :=
  let given := s ← READ_SPAN; n ← parse_usize s; if 0 <? n then Some n else None in
  Z.min (default preload given) (Z.max preload 1).

Definition settings_of (args : list bytes) (READ_SPAN : option bytes) : res Z Settings :=
  match args with
  | _ :: addr :: user :: pass :: mode :: ops :: threads :: more =>
      ops ← expect (parse_usize ops);
      threads ← expect (parse_usize threads);
      '(preload, valsize) ← parse_preload (head more);
      Ok {| addrs := map trim (split_on (byte_of 44) addr); user := user; pass := pass; mode := mode; ops := ops;
            threads := threads; preload := preload; valsize := valsize; read_span := span_of READ_SPAN preload |}
  | _ => Err 2
  end.

(** ** Operations *)

Definition SPREAD : Z := 10000000.

(** [usize] arithmetic panics when it overflows. *)
Definition checked_usize {E} (n : Z) : res E Z := if n <? 2 ^ 64 then Ok n else Panic.

(** Whether the operation is a read, the row it is about, and the generator. *)
Definition pick_op {E} (mode : bytes) (thread i preload read_span rng : Z) : res E (bool * Z * Z) :=
  let rng := next_u64 rng in
  let read := bool_decide (mode = str "read") || (bool_decide (mode = str "mixed") && (Z.land rng 1 =? 0)) in
  id ← (if read then Ok (rng mod Z.max read_span 1) else checked_usize (preload + thread * SPREAD + i));
  Ok (read, sint 64 id, rng).

Definition payload (id : Z) : bytes := str "payload-" ++ int_text id.

Definition op_sql (read : bool) (id : Z) : bytes :=
  if read then str "SELECT v FROM bench WHERE id = " ++ int_text id
  else str "INSERT INTO bench (id, v) VALUES (" ++ int_text id ++ str ", '" ++ payload id ++ str "')".

Definition build_op {E} (mode : bytes) (thread i preload read_span rng : Z) : res E (bytes * Z) :=
  '(read, id, rng) ← pick_op mode thread i preload read_span rng; Ok (op_sql read id, rng).

(** [while v.len() < valsize { v.push('.') }]. *)
Definition padded_payload (i valsize : Z) : bytes :=
  let v := payload i in v ++ replicate (Z.to_nat valsize - length v) (byte_of 46).

(** ** The rows loaded first *)

Definition BATCH : Z := 500.

(** [({i}, '{..}')] of rows [i] to [i + n], a comma before all but the first. *)
Fixpoint rows_text (first : bool) (n : nat) (i valsize : Z) : bytes :=
  match n with
  | O => []
  | S n => (if first then [] else str ",") ++ str "(" ++ int_text i ++ str ", '" ++ padded_payload i valsize ++ str "')"
           ++ rows_text false n (i + 1) valsize
  end.

Definition insert_sql (id stop valsize : Z) : bytes :=
  str "INSERT INTO bench (id, v) VALUES " ++ rows_text true (Z.to_nat (stop - id)) id valsize.

(** The statements that load rows [id] to [preload], one for each [BATCH]. *)
Fixpoint load_sqls (fuel : nat) (id preload valsize : Z) : list bytes :=
  match fuel with
  | O => []
  | S fuel =>
      if id <? preload then
        let stop := Z.min (id + BATCH) preload in insert_sql id stop valsize :: load_sqls fuel stop preload valsize
      else []
  end.

Definition preloads (mode : bytes) : bool := negb (bool_decide (mode = str "write")) && negb (bool_decide (mode = str "writep")).

Definition setup_sqls (s : Settings) : list bytes :=
  str "CREATE TABLE bench (PRIMARY KEY (id))"
  :: (if preloads s.(mode) then load_sqls (S (Z.to_nat s.(preload))) 0 s.(preload) s.(valsize) else []).

(** ** Workers *)

Section workers.
Context {P : Type} `{Pool P}.
Context {G : Type} (kerberos : bool)
  (gss_new : bytes -> option bytes -> res bytes (G * bytes))
  (gss_step : G -> bytes -> res bytes (ClientStep G))
  (sha384 sha512 : bytes -> bytes).
(** [reach k addr user pass]: what [Client::connect_with] gives the [k]th time;
    [latency t i]: the microseconds worker [t]'s [i]th operation took. *)
Context (reach : nat -> bytes -> bytes -> bytes -> res DriverError (Session P)) (latency : nat -> nat -> Z).
Abbreviation session A := (eff DriverError (Session P) A).
Abbreviation execute := (execute kerberos gss_new gss_step sha384 sha512).

(** Thread [idx]'s node, round-robin. *)
Definition bench_connect (s : Settings) (k idx : nat) : res DriverError (Session P) :=
  reach k (default [] (s.(addrs) !! (idx mod length s.(addrs))%nat)) s.(user) s.(pass).

Definition run_ok (sql : bytes) : session unit :=
  r ← attempt (execute sql); match r with inl _ => mret tt | inr _ => of_res Panic end.

Definition setup (s : Settings) : session unit :=
  _ ← attempt (execute (str "DROP TABLE IF EXISTS bench")); for_all run_ok (setup_sqls s).

(** 1 for an operation that failed. *)
Definition failures {S} (m : eff DriverError S Response) : eff DriverError S Z :=
  r ← attempt m; mret (match r with inl (Error _) | inr _ => 1 | inl _ => 0 end).

(** [mode] as the text path has it: one statement's text per operation. *)
Fixpoint text_ops (n : nat) (s : Settings) (t i rng errors : Z) : session Z :=
  match n with
  | O => mret errors
  | S n =>
      '(sql, rng) ← of_res (build_op s.(mode) t i s.(preload) s.(read_span) rng);
      e ← failures (execute sql);
      text_ops n s t (i + 1) rng (errors + e)
  end.

(** A statement prepared among the worker's two. *)
Abbreviation preparing A := (eff DriverError (Session P * (Prepared * Prepared)) A).
Definition with_ins {A} (m : eff DriverError (Session P * Prepared) A) : preparing A :=
  zoom (fun t => (t.1, t.2.1)) (fun u t => (u.1, (u.2, t.2.2))) m.
Definition with_sel {A} (m : eff DriverError (Session P * Prepared) A) : preparing A :=
  zoom (fun t => (t.1, t.2.2)) (fun u t => (u.1, (t.2.1, u.2))) m.

Definition prepared_op (read : bool) (id : Z) : preparing Response :=
  if read then with_sel (execute_prepared kerberos gss_new gss_step sha384 sha512 [VInt id])
  else with_ins (execute_prepared kerberos gss_new gss_step sha384 sha512 [VInt id; VString (payload id)]).

Fixpoint prepared_ops (n : nat) (base : bytes) (s : Settings) (t i rng errors : Z) : preparing Z :=
  match n with
  | O => mret errors
  | S n =>
      '(read, id, rng) ← of_res (pick_op base t i s.(preload) s.(read_span) rng);
      e ← failures (prepared_op read id);
      prepared_ops n base s t (i + 1) rng (errors + e)
  end.

Definition prepare_ok (sql : bytes) : session Prepared :=
  r ← attempt (prepare kerberos gss_new gss_step sha384 sha512 sql);
  match r with inl p => mret p | inr _ => of_res Panic end.

(** [mode.strip_suffix('p')]. *)
Definition strip_p (mode : bytes) : option bytes :=
  if bool_decide (last mode = Some (byte_of 112)) then Some (removelast mode) else None.

Definition seed (t : Z) : Z := Z.lxor 0x9e3779b97f4a7c15 (wrap 64 (t * 0x2545f4914f6cdd1d)).

Definition with_prepared (ins sel : Prepared) (m : preparing Z) : session Z := fun c =>
  let '(r, (c, _)) := m (c, (ins, sel)) in (r, c).

Definition work (s : Settings) (t : nat) (n : nat) : session Z :=
  let z := Z.of_nat t in
  match strip_p s.(mode) with
  | Some base =>
      ins ← prepare_ok (str "INSERT INTO bench (id, v) VALUES (?, ?)");
      sel ← prepare_ok (str "SELECT v FROM bench WHERE id = ?");
      with_prepared ins sel (prepared_ops n base s z 0 (seed z) 0)
  | None => text_ops n s z 0 (seed z) 0
  end.

(** How a worker ends: it never reached the barrier, panicked after it, or
    gives its latencies and how many operations failed. *)
Inductive ending := Unconnected | Died | Finished (lat : list Z) (errors : Z).

Definition worker (s : Settings) (t n : nat) : ending :=
  match bench_connect s (S t) t with
  | Ok c => match (work s t n c).1 with Ok errors => Finished (map (latency t) (seq 0 n)) errors | _ => Died end
  | _ => Unconnected
  end.

(** ** The report *)

(** In microseconds. *)
Record Report := { total : nat; failed : Z; sum : Z; p50 : Z; p95 : Z; p99 : Z; slowest : Z }.

Definition as_usize (f : Z) : Z := clamp 0 (2 ^ 64 - 1) (to_int (sf_of_bits f)).

(** [all_lat[((n as f64 * p) as usize).min(n - 1)]]. *)
Definition pct (lat : list Z) (p : Z) : res Z Z :=
  let n := Z.of_nat (Nat.max (length lat) 1) in
  match lat !! Z.to_nat (Z.min (as_usize (f64_mul (f64_of_int n) p)) (n - 1)) with Some x => Ok x | None => Panic end.

Definition report (lat : list Z) (errors : Z) : res Z Report :=
  let lat := sort_by Z.compare lat in
  p50 ← pct lat (f64_div (f64_of_int 1) (f64_of_int 2));
  p95 ← pct lat (f64_div (f64_of_int 95) (f64_of_int 100));
  p99 ← pct lat (f64_div (f64_of_int 99) (f64_of_int 100));
  slowest ← pct lat (f64_of_int 1);
  Ok {| total := length lat; failed := errors; sum := foldr Z.add 0 lat; p50 := p50; p95 := p95; p99 := p99;
        slowest := slowest |}.

Definition latencies (w : ending) : list Z := match w with Finished lat _ => lat | _ => [] end.
Definition failed_ops (w : ending) : Z := match w with Finished _ e => e | _ => 0 end.

(** What the process comes to. *)
Inductive outcome := Exits (code : Z) | Panics | Hangs | Reports (r : Report).

(** Every worker waits at the barrier for all the others and for [main]. *)
Definition joined (ws : list ending) : outcome :=
  if existsb (fun w => match w with Unconnected => true | _ => false end) ws then Hangs
  else if existsb (fun w => match w with Died => true | _ => false end) ws then Panics
  else match report (flat_map latencies ws) (foldr Z.add 0 (map failed_ops ws)) with
       | Ok r => Reports r
       | _ => Panics
       end.

Definition bench (args : list bytes) (READ_SPAN : option bytes) : outcome :=
  match settings_of args READ_SPAN with
  | Err code => Exits code
  | Ok s =>
      match bench_connect s 0 0 with
      | Ok c =>
          match (setup s c).1 with
          | Ok _ =>
              if s.(threads) =? 0 then Panics
              else joined (map (fun t => worker s t (Z.to_nat (s.(ops) / s.(threads)))) (seq 0 (Z.to_nat s.(threads))))
          | _ => Panics
          end
      | _ => Panics
      end
  | _ => Panics
  end.

(** ** What a run comes to *)

Lemma pct_elem lat p x : pct lat p = Ok x -> x ∈ lat.
Proof. unfold pct. destruct (lat !! _) eqn:E; [|done]. intros [= <-]. by eapply list_elem_of_lookup_2. Qed.

Lemma report_inv lat errors r :
  report lat errors = Ok r -> r.(total) = length lat /\ r.(failed) = errors /\ (0 < length lat)%nat
  /\ Forall (fun x => x ∈ lat) [r.(p50); r.(p95); r.(p99); r.(slowest)].
Proof.
  unfold report. pose proof (sort_by_Permutation Z.compare lat) as Hp. set (sorted := sort_by Z.compare lat) in *.
  intros (a & Ha%pct_elem & (b & Hb%pct_elem & (c & Hc%pct_elem & (d & Hd%pct_elem & [= <-])%bind_ok)%bind_ok)%bind_ok)%bind_ok.
  assert (Hin : forall x, x ∈ sorted -> x ∈ lat) by (intros x; by rewrite Hp).
  cbn [total failed p50 p95 p99 slowest]. rewrite <- (Permutation_length Hp). split_and!; [done|done| |].
  - destruct sorted; [by apply elem_of_nil in Ha|cbn; lia].
  - rewrite !Forall_cons. split_and!; auto.
Qed.

Lemma failures_bound {S} (m : eff DriverError S Response) s e s' : failures m s = (Ok e, s') -> 0 <= e <= 1.
Proof. intros (r & s1 & _ & [= <- _])%bind_done. destruct r as [[]|]; lia. Qed.

Lemma text_ops_bound n s t i rng errors c e c' :
  text_ops n s t i rng errors c = (Ok e, c') -> errors <= e <= errors + Z.of_nat n.
Proof.
  revert i rng errors c. induction n as [|n IH]; intros i rng errors c; cbn [text_ops]; [intros [= <- _]; lia|].
  intros ([sql rng1] & c1 & _ & (e1 & c2 & He%failures_bound & Hn%IH)%bind_done)%bind_done. lia.
Qed.

Lemma prepared_ops_bound n base s t i rng errors c e c' :
  prepared_ops n base s t i rng errors c = (Ok e, c') -> errors <= e <= errors + Z.of_nat n.
Proof.
  revert i rng errors c. induction n as [|n IH]; intros i rng errors c; cbn [prepared_ops]; [intros [= <- _]; lia|].
  intros ([[read id] rng1] & c1 & _ & (e1 & c2 & He%failures_bound & Hn%IH)%bind_done)%bind_done. lia.
Qed.

Lemma work_bound s t n c e c' : work s t n c = (Ok e, c') -> 0 <= e <= Z.of_nat n.
Proof.
  unfold work. destruct (strip_p (mode s)) as [base|]; [|by intros ?%text_ops_bound].
  intros (ins & c1 & _ & (sel & c2 & _ & Hp)%bind_done)%bind_done. unfold with_prepared in Hp.
  destruct (prepared_ops _ _ _ _ _ _ _ _) as [r [c3 q]] eqn:E. injection Hp as -> _.
  by apply prepared_ops_bound in E.
Qed.

(** A worker that finished did its operations, each one timed. *)
Definition sound_worker (t n : nat) (w : ending) : Prop :=
  match w with Finished lat e => lat = map (latency t) (seq 0 n) /\ 0 <= e <= Z.of_nat n | _ => True end.

Lemma worker_sound s t n : sound_worker t n (worker s t n).
Proof.
  unfold worker. destruct (bench_connect s (S t) t) as [c|e| |]; try done.
  destruct (work s t n c) as [[e|e| |] c'] eqn:E; try done. split; [done|by eapply work_bound].
Qed.

(** All of them: as many latencies as operations, at most as many failures. *)
Lemma workers_sound n t0 ws :
  (forall k w, ws !! k = Some w -> sound_worker (t0 + k) n w /\ exists lat e, w = Finished lat e) ->
  length (flat_map latencies ws) = (length ws * n)%nat
  /\ 0 <= foldr Z.add 0 (map failed_ops ws) <= Z.of_nat (length ws * n)
  /\ forall x, x ∈ flat_map latencies ws -> exists t i, (t0 <= t < t0 + length ws)%nat /\ (i < n)%nat /\ x = latency t i.
Proof.
  revert t0. induction ws as [|w ws IH]; intros t0 Hw; cbn [flat_map map foldr length].
  { split_and!; try lia. by intros x ?%elem_of_nil. }
  destruct (Hw 0%nat w eq_refl) as [Hs (lat & e & ->)]. rewrite Nat.add_0_r in Hs. destruct Hs as [-> He].
  destruct (IH (S t0)) as (H1 & H2 & H3).
  { intros k w Hk. replace (S t0 + k)%nat with (t0 + S k)%nat by lia. by apply Hw. }
  cbn [latencies failed_ops]. rewrite length_app, length_map, length_seq, H1. split_and!; [lia|lia|lia|].
  intros x [Hx|Hx]%elem_of_app.
  - apply list_elem_of_fmap in Hx as (i & -> & Hi). apply elem_of_seq in Hi. exists t0, i. split_and!; [lia|lia|lia|done].
  - destruct (H3 x Hx) as (t & i & Ht & Hi & ->). exists t, i. split_and!; [lia|lia|lia|done].
Qed.

(** The barrier: with a worker that could not connect, nobody is released. *)
Theorem unconnected_worker_hangs s ts n t :
  t ∈ ts -> (forall c, bench_connect s (S t) t <> Ok c) -> joined (map (fun t => worker s t n) ts) = Hangs.
Proof.
  intros Ht Hc. unfold joined.
  replace (existsb _ (map (fun t => worker s t n) ts)) with true; [done|]. symmetry. apply existsb_exists.
  exists (worker s t n). split; [by apply (in_map (fun t => worker s t n)), list_elem_of_In|]. unfold worker.
  destruct (bench_connect s (S t) t) as [c|e| |]; try done. by destruct (Hc c).
Qed.

Lemma joined_finished ws r :
  joined ws = Reports r -> Forall (fun w => exists lat e, w = Finished lat e) ws
  /\ report (flat_map latencies ws) (foldr Z.add 0 (map failed_ops ws)) = Ok r.
Proof.
  unfold joined. destruct (existsb _ ws) eqn:E1; [done|]. destruct (existsb (fun w => match w with Died => true | _ => false end) ws) eqn:E2; [done|].
  destruct (report _ _) as [r'|e| |]; try done. intros [= ->]. split; [|done]. apply Forall_forall. intros w Hw%list_elem_of_In.
  destruct w as [| |lat e]; [| |by eexists _, _].
  - by rewrite (proj2 (existsb_exists _ ws)) in E1 by by eexists.
  - by rewrite (proj2 (existsb_exists _ ws)) in E2 by by eexists.
Qed.

(** A run that reports was given at least one operation for each of at least
    one worker, and did as many for each: the report counts them all, and its
    latencies are ones measured. (With fewer operations than workers there is
    no latency to report, and indexing them panics.) *)
Theorem report_covers_operations args span r :
  bench args span = Reports r ->
  exists s, settings_of args span = Ok s
  /\ let each := s.(ops) / s.(threads) in
     1 <= s.(threads) <= s.(ops) /\ Z.of_nat r.(total) = s.(threads) * each /\ 0 <= r.(failed) <= Z.of_nat r.(total)
     /\ Forall (fun x => exists t i, Z.of_nat t < s.(threads) /\ Z.of_nat i < each /\ x = latency t i)
          [r.(p50); r.(p95); r.(p99); r.(slowest)].
Proof.
  unfold bench. destruct (settings_of args span) as [s|e| |] eqn:Es; try done.
  destruct (bench_connect s 0 0) as [c|e| |]; try done. destruct (setup s c).1; try done.
  destruct (Z.eqb_spec (threads s) 0) as [|Hz]; [done|]. intros [Hf Hr]%joined_finished. exists s. split; [done|].
  set (n := Z.to_nat (ops s / threads s)) in *. set (k := Z.to_nat (threads s)) in *.
  set (ws := map (fun t => worker s t n) (seq 0 k)) in *.
  assert (Hlen : length ws = k) by (unfold ws; by rewrite length_map, length_seq).
  destruct (workers_sound n 0 ws) as (H1 & H2 & H3).
  { intros j w Hj. split; [|by eapply (proj1 (Forall_lookup _ _) Hf)]. unfold ws in Hj.
    apply list_lookup_fmap_Some in Hj as (t & -> & Ht). apply lookup_seq in Ht as [-> _]. apply worker_sound. }
  apply report_inv in Hr as (Ht & He & Hpos & Hx). rewrite H1, Hlen in Ht. rewrite Hlen in H2, H3. rewrite H1, Hlen in Hpos.
  assert (0 < threads s) by (destruct (threads s); lia). assert (0 < ops s / threads s) by lia.
  cbn zeta. rewrite Ht, He. split_and!; try lia.
  - destruct (Z.lt_ge_cases (ops s) (threads s)) as [Hlt|]; [|done].
    assert (ops s / threads s < 1) by (apply Z.div_lt_upper_bound; lia). lia.
  - eapply Forall_impl; [exact Hx|]. intros x (t & i & Hti & Hi & ->)%H3. exists t, i. split_and!; [lia|lia|done].
Qed.

End workers.

(** No two workers, and no two operations of one, write the same row, as long
    as each has fewer than [SPREAD] operations. *)
Theorem writes_apart m preload span t t' i i' rng rng' id r r' :
  0 <= i < SPREAD -> 0 <= i' < SPREAD -> 0 <= preload -> 0 <= t -> 0 <= t' ->
  @pick_op Z m t i preload span rng = Ok (false, id, r) -> @pick_op Z m t' i' preload span rng' = Ok (false, id, r') ->
  t = t' /\ i = i'.
Proof.
  unfold pick_op, checked_usize, SPREAD. intros Hi Hi' Hp Ht Ht' (x & Hx & E)%bind_ok (y & Hy & E')%bind_ok.
  injection E as Er Ex _. injection E' as Er' Ey _. rewrite Er in Hx. rewrite Er' in Hy.
  destruct (Z.ltb_spec (preload + t * 10000000 + i) (2 ^ 64)) as [H1|]; [|done].
  destruct (Z.ltb_spec (preload + t' * 10000000 + i') (2 ^ 64)) as [H2|]; [|done].
  injection Hx as <-. injection Hy as <-.
  assert (E : (preload + t * 10000000 + i) mod 2 ^ 64 = (preload + t' * 10000000 + i') mod 2 ^ 64).
  { rewrite <- (mod_sint 64), <- (mod_sint 64 (preload + t' * _ + i')) by lia. by rewrite Ex, Ey. }
  rewrite !Z.mod_small in E by lia. lia.
Qed.

Lemma writes_apart_witness : exists r r', @pick_op Z (str "write") 1 0 1000 1000 5 = Ok (false, 10001000, r)
  /\ @pick_op Z (str "write") 1 0 1000 1000 6 = Ok (false, 10001000, r') /\ 1 = 1.
Proof.
  eexists _, _. split; [vm_compute; reflexivity|]. split; [vm_compute; reflexivity|].
  apply (writes_apart (str "write") 1000 1000 1 1 0 0 5 6 10001000 (next_u64 5) (next_u64 6));
    try (vm_compute; reflexivity); try (unfold SPREAD; lia).
Defined.

(** ** Runs *)

(** One member that answers the table's statements and then every write. *)
Definition bench_peer (n : nat) : Session PoolWorld :=
  wit_session (wit_stream (concat (replicate n (frame (encode_response (Mutation 1)))))) [].
Definition run_bench (args : list bytes) : outcome :=
  bench false no_gss_new no_gss_step sha256 sha256 (fun _ _ _ _ => Ok (bench_peer 8)) (fun t i => Z.of_nat (10 * t + i))
    args None.
Definition cli (more : list bytes) : list bytes := str "bench" :: str "a:7000, b:7000" :: str "u" :: str "pw" :: more.

Example bench_usage : run_bench (cli [str "write"]) = Exits 2.
Proof. reflexivity. Qed.

(** Four operations by two workers. *)
Example bench_four :
  run_bench (cli [str "write"; str "4"; str "2"])
  = Reports {| total := 4; failed := 0; sum := 22; p50 := 10; p95 := 11; p99 := 11; slowest := 11 |}.
Proof. vm_compute. reflexivity. Qed.

(** One operation for two workers: none is done, and the report panics. *)
Example bench_too_few : run_bench (cli [str "write"; str "1"; str "2"]) = Panics.
Proof. vm_compute. reflexivity. Qed.

Lemma report_covers_operations_witness :
  exists r, run_bench (cli [str "write"; str "4"; str "2"]) = Reports r /\ r.(total) = 4%nat.
Proof.
  assert (E : exists r, run_bench (cli [str "write"; str "4"; str "2"]) = Reports r) by (eexists; vm_compute; reflexivity).
  destruct E as [r E]. exists r. split; [exact E|].
  destruct (report_covers_operations false no_gss_new no_gss_step sha256 sha256 (fun _ _ _ _ => Ok (bench_peer 8))
              (fun t i => Z.of_nat (10 * t + i)) _ None r E) as (s & Es & _ & Ht & _).
  assert (Eo : s.(ops) = 4 /\ s.(threads) = 2) by (vm_compute in Es; injection Es as <-; split; reflexivity).
  destruct Eo as [-> ->] in Ht. change (2 * (4 / 2)) with 4 in Ht. lia.
Defined.
