(* ===== verification/Json.v ===== *)
(** * JSON

    [json.rs]: values to and from [serde_json::Value].  That library's numbers,
    and how it collects an object's fields, are arguments. *)
From S2P Require Import Prelude Bytes Text BTree Float64 Decimal Value Codec.
#[local] Open Scope Z_scope.

(** What the code uses of [serde_json]'s numbers and maps. *)
Class SerdeJson (Number : Type) := {
  of_i64 : Z -> Number;
  of_f64 : Z -> option Number;
  as_i64 : Number -> option Z;
  as_f64 : Number -> option Z;
  collect : forall J : Type, list (bytes * J) -> list (bytes * J);
}.
Arguments collect {_ _ J}.

(** Its documentation: integers are kept as they are; a double is a number
    exactly when it is finite, and is no integer then; a map collected from
    ordered, distinct keys is walked in that order. *)
Class SerdeLaws (Number : Type) `{SerdeJson Number} := {
  as_of_i64 : forall i, is_sint 64 i = true -> as_i64 (of_i64 i) = Some i;
  of_f64_finite : forall x, is_uint 64 x = true -> is_finite x = false -> of_f64 x = None;
  as_of_f64 : forall x, is_uint 64 x = true -> is_finite x = true ->
    exists n, of_f64 x = Some n /\ as_i64 n = None /\ as_f64 n = Some x;
  collect_sorted : forall J (l : list (bytes * J)), sorted l = true -> collect l = l;
}.

Section json.
Context {Number : Type} `{SerdeJson Number}.

(** [serde_json::Value]'s variants. *)
Inductive Json :=
| JNull
| JBool (b : bool)
| JNumber (n : Number)
| JString (s : bytes)
| JArray (items : list Json)
| JObject (map : list (bytes * Json)).

(** [f64::NAN]. *)
Definition F64_NAN : Z := 2047 * 2 ^ 52 + 2 ^ 51.

Fixpoint from_json (json : Json) : Value :=
  match json with
  | JNull => VNull
  | JBool b => VBool b
  | JNumber n =>
      match as_i64 n with
      | Some i => VInt i
      | None => VFloat (default F64_NAN (as_f64 n))
      end
  | JString s => VString s
  | JArray items => VArray (map from_json items)
  | JObject fields =>
      VDocument (fold_left (fun d kv => doc_insert kv.1 kv.2 d) (map (fun kv => (kv.1, from_json kv.2)) fields)
                   doc_new)
  end.

(** The text of a double that is no JSON number. *)
Definition non_finite (x : Z) : bytes :=
  if is_nan x then str "NaN" else if f64_lt 0 x then str "Infinity" else str "-Infinity".

Fixpoint to_json (v : Value) : Json :=
  match v with
  | VNull => JNull
  | VBool b => JBool b
  | VInt i | VTimestamp i => JNumber (of_i64 i)
  | VFloat f => match of_f64 f with Some n => JNumber n | None => JString (non_finite f) end
  | VDecimal d => JString (decimal_display d)
  | VString s => JString s
  | VBytes b => JArray (map (fun byte => JNumber (of_i64 (u8 byte))) b)
  | VUuid u => JString (uuid_display u)
  | VArray items => JArray (map to_json items)
  | VDocument doc => JObject (collect (map (fun kv => (kv.1, to_json kv.2)) doc))
  end.

(** [Display]: the text of a double is the standard library's, that of JSON
    [serde_json]'s. *)
Definition value_display (float_text : Z -> bytes) (json_text : Json -> bytes) (v : Value) : bytes :=
  match v with
  | VNull => str "NULL"
  | VBool b => if b then str "true" else str "false"
  | VInt i | VTimestamp i => int_text i
  | VFloat x => float_text x
  | VDecimal d => decimal_display d
  | VString s => s
  | VBytes b => str "0x" ++ to_hex b
  | VUuid u => uuid_display u
  | VArray _ | VDocument _ => json_text (to_json v)
  end.

(** ** What JSON keeps of a value *)

Fixpoint json_image (v : Value) : Value :=
  match v with
  | VTimestamp t => VInt t
  | VFloat x => if is_finite x then VFloat x else VString (non_finite x)
  | VDecimal d => VString (decimal_display d)
  | VBytes b => VArray (map (fun byte => VInt (u8 byte)) b)
  | VUuid u => VString (uuid_display u)
  | VArray items => VArray (map json_image items)
  | VDocument doc => VDocument (map (fun kv => (kv.1, json_image kv.2)) doc)
  | v => v
  end.

(** The values JSON has. *)
Fixpoint plain (v : Value) : bool :=
  match v with
  | VNull | VBool _ | VInt _ | VString _ => true
  | VFloat x => is_finite x
  | VArray items => forallb plain items
  | VDocument doc => forallb (fun kv => plain kv.2) doc
  | _ => false
  end.

Context `{!SerdeLaws Number}.

Lemma fold_insert_json (doc : Document) (l : list (bytes * Json)) :
  map (fun kv => (kv.1, from_json kv.2)) l = doc -> sorted doc = true ->
  from_json (JObject l) = VDocument doc.
Proof. intros E Hs. cbn [from_json]. by rewrite E, fold_insert_sorted. Qed.

Lemma from_to_json v : wf_value v = true -> from_json (to_json v) = json_image v.
Proof.
  induction v as [| |i|x|d|s|b|u|t|items IH|doc IH] using value_ind'; cbn [wf_value]; intros Hw; try done.
  - cbn. by rewrite as_of_i64.
  - cbn [to_json json_image]. destruct (is_finite x) eqn:Hf; [|by rewrite of_f64_finite].
    destruct (as_of_f64 x Hw Hf) as (n & -> & Hi & Hn). cbn. by rewrite Hi, Hn.
  - cbn. f_equal. rewrite map_map. apply map_ext. intros c. cbn. rewrite as_of_i64; [done|].
    pose proof (u8_range c). apply is_sint_spec. lia.
  - cbn. by rewrite as_of_i64.
  - apply andb_true_iff in Hw as [_ Hw]. rewrite forallb_forall in Hw. cbn [to_json from_json json_image]. f_equal.
    rewrite map_map. apply map_ext_in. intros v Hv. rewrite Forall_forall in IH.
    apply IH; [by apply list_elem_of_In|]. by apply Hw.
  - apply andb_true_iff in Hw as [[_ Hs]%andb_true_iff Hw]. rewrite forallb_forall in Hw. cbn [to_json json_image].
    rewrite collect_sorted by (rewrite (sorted_map (fun _ => to_json)); exact Hs).
    apply fold_insert_json; [|rewrite (sorted_map (fun _ => json_image)); exact Hs].
    rewrite map_map. apply map_ext_in. intros [k v] Hv. cbn [fst snd]. f_equal. rewrite Forall_forall in IH.
    apply (IH (k, v)); [by apply list_elem_of_In|]. specialize (Hw (k, v) Hv).
    by apply andb_true_iff in Hw as [_ Hw].
Qed.

Lemma image_plain v : plain v = true -> json_image v = v.
Proof.
  induction v as [| | | | | | | | |items IH|doc IH] using value_ind'; cbn [plain json_image]; try done.
  - by intros ->.
  - intros Hp. rewrite forallb_forall in Hp. rewrite Forall_forall in IH. f_equal.
    rewrite <- (map_id items) at 2. apply map_ext_in. intros v Hv. apply IH; [by apply list_elem_of_In|auto].
  - intros Hp. rewrite forallb_forall in Hp. rewrite Forall_forall in IH. f_equal.
    rewrite <- (map_id doc) at 2. apply map_ext_in. intros [k v] Hv. cbn. f_equal.
    apply (IH (k, v)); [by apply list_elem_of_In|]. by apply (Hp (k, v)).
Qed.

Lemma to_json_image v : wf_value v = true -> to_json (json_image v) = to_json v.
Proof.
  induction v as [| |i|x|d|s|b|u|t|items IH|doc IH] using value_ind'; cbn [wf_value]; intros Hw; try done.
  - cbn [json_image]. destruct (is_finite x) eqn:Hf; [done|]. cbn [to_json]. by rewrite of_f64_finite.
  - cbn. by rewrite map_map.
  - apply andb_true_iff in Hw as [_ Hw]. rewrite forallb_forall in Hw. cbn [to_json json_image]. f_equal.
    rewrite map_map. apply map_ext_in. intros v Hv. rewrite Forall_forall in IH.
    apply IH; [by apply list_elem_of_In|]. by apply Hw.
  - apply andb_true_iff in Hw as [_ Hw]. rewrite forallb_forall in Hw. cbn [to_json json_image]. do 2 f_equal.
    rewrite map_map. apply map_ext_in. intros [k v] Hv. cbn [fst snd]. f_equal. rewrite Forall_forall in IH.
    apply (IH (k, v)); [by apply list_elem_of_In|]. specialize (Hw (k, v) Hv).
    by apply andb_true_iff in Hw as [_ Hw].
Qed.

(** ** Properties *)


End json.

(** ** A library with these laws *)

#[export] Instance plain_numbers : SerdeJson (Z + Z) := {
  of_i64 := inl;
  of_f64 x := if is_finite x then Some (inr x) else None;
  as_i64 n := match n with inl i => Some i | inr _ => None end;
  as_f64 n := match n with inl i => Some (f64_of_int i) | inr x => Some x end;
  collect J l := l;
}.

#[export] Instance plain_numbers_laws : SerdeLaws (Z + Z).
Proof.
  split; try done; intros x Hx Hf; cbn; rewrite Hf; [done|]. by exists (inr x).
Qed.

