(* ===== verification/PoolConns.v ===== *)
(** * A balanced pool's connections

    [Pool::builder] of [src/lib.rs] with real connections: the operations of
    [Balancer] around the dials, the statements and the drops they ask for.
    Every lock the code takes is one step of [Balancer]'s; what runs between
    two of them is a client's session. *)
From stdpp Require Import gmap relations.
From S2P Require Import Prelude Bytes Text BTree Value Message Effect Balancer Login Session SessionSpec SessionCalls.
#[local] Open Scope Z_scope.

(** ** The builder *)

Record PoolBuilder := {
  b_endpoints : list bytes;
  b_login : Login;
  b_database : option bytes;
  b_consistency : Consistency;
  b_options : PoolOptions;
}.

Definition builder (endpoints : list bytes) : PoolBuilder := {|
  b_endpoints := endpoints;
  b_login := {| l_username := str "anonymous"; l_password := []; l_gssapi_spn := None; l_cert_auth := false |};
  b_database := None; b_consistency := Quorum; b_options := pool_options_default |}.

Definition with_login l b := {|
  b_endpoints := b.(b_endpoints); b_login := l; b_database := b.(b_database); b_consistency := b.(b_consistency);
  b_options := b.(b_options) |}.
Definition credentials (username password : bytes) : PoolBuilder -> PoolBuilder :=
  with_login {| l_username := username; l_password := password; l_gssapi_spn := None; l_cert_auth := false |}.
Definition gssapi (principal target_spn : bytes) : PoolBuilder -> PoolBuilder :=
  with_login {| l_username := principal; l_password := []; l_gssapi_spn := Some target_spn; l_cert_auth := false |}.
Definition certificate (username : bytes) : PoolBuilder -> PoolBuilder :=
  with_login {| l_username := username; l_password := []; l_gssapi_spn := None; l_cert_auth := true |}.
Definition for_database (db : bytes) b := {|
  b_endpoints := b.(b_endpoints); b_login := b.(b_login); b_database := Some db;
  b_consistency := b.(b_consistency); b_options := b.(b_options) |}.
Definition at_consistency (k : Consistency) b := {|
  b_endpoints := b.(b_endpoints); b_login := b.(b_login); b_database := b.(b_database); b_consistency := k;
  b_options := b.(b_options) |}.
Definition with_options o b := {|
  b_endpoints := b.(b_endpoints); b_login := b.(b_login); b_database := b.(b_database);
  b_consistency := b.(b_consistency); b_options := o |}.

(** [now], [rng] and whether threads start are the world's. *)
Definition build (b : PoolBuilder) (now rng : Z) (instants : list Z) (spawns : bool) : res BuildError PoolWorld :=
  st ← Balancer.build b.(b_options) b.(b_endpoints) now rng;
  Ok {| pw_opts := b.(b_options); pw_state := st; pw_now := instants; pw_spawns := spawns |}.

(** ** The pool and its connections

    [Balancer] knows a connection by a number; [cs_idle] has the idle ones'
    clients. *)
Record Conns := {
  cs_pool : PoolWorld;
  cs_idle : gmap Z Client;
  cs_next : Z;
  cs_world : World;
  cs_clock : list Z;
  cs_dropped : list Stream;
}.

Definition with_state st s := {|
  cs_pool := {| pw_opts := s.(cs_pool).(pw_opts); pw_state := st; pw_now := tl s.(cs_pool).(pw_now);
                pw_spawns := s.(cs_pool).(pw_spawns) |};
  cs_idle := s.(cs_idle); cs_next := s.(cs_next); cs_world := s.(cs_world); cs_clock := s.(cs_clock);
  cs_dropped := s.(cs_dropped) |}.
Definition with_clients m s := {|
  cs_pool := s.(cs_pool); cs_idle := m; cs_next := s.(cs_next); cs_world := s.(cs_world);
  cs_clock := s.(cs_clock); cs_dropped := s.(cs_dropped) |}.
Definition numbered s := {|
  cs_pool := s.(cs_pool); cs_idle := s.(cs_idle); cs_next := s.(cs_next) + 1; cs_world := s.(cs_world);
  cs_clock := s.(cs_clock); cs_dropped := s.(cs_dropped) |}.
Definition dropping t s := {|
  cs_pool := s.(cs_pool); cs_idle := s.(cs_idle); cs_next := s.(cs_next); cs_world := s.(cs_world);
  cs_clock := s.(cs_clock); cs_dropped := s.(cs_dropped) ++ [t] |}.
Definition reached w p s := {|
  cs_pool := p; cs_idle := s.(cs_idle); cs_next := s.(cs_next); cs_world := w;
  cs_clock := s.(cs_clock); cs_dropped := s.(cs_dropped) |}.

(** A connection a caller holds. *)
Record Conn := { number : Z; conn : Client }.

Definition pooled_as (n : Z) (c : Client) : Balancer.Client := {| c_id := n; c_link := c.(link) |}.
Definition tie (c : Conn) : Balancer.Client := pooled_as c.(number) c.(conn).

Section conns.
Context {G : Type} (kerberos : bool)
  (gss_new : bytes -> option bytes -> res bytes (G * bytes))
  (gss_step : G -> bytes -> res bytes (ClientStep G))
  (sha384 sha512 : bytes -> bytes).
(** The pool's settings, and the pool itself. *)
Context (B : PoolBuilder) (self : Z).
Abbreviation session A := (eff DriverError (Session PoolWorld) A).
Abbreviation pooled A := (eff DriverError Conns A).
Abbreviation opts := (B.(b_options)).

(** ** Locks, sessions and drops *)

(** What is done under the pool's lock, at an instant of its own. *)
Definition locked {A} (f : Z -> BalancerState -> A * BalancerState) : pooled A := fun s =>
  let '(a, st) := f (hd 0 s.(cs_pool).(pw_now)) s.(cs_pool).(pw_state) in (Ok a, with_state st s).

Definition spawns : pooled bool := reads_state (fun s => s.(cs_pool).(pw_spawns)).

Definition session_of (c : Client) (s : Conns) : Session PoolWorld := {|
  client := c; world := s.(cs_world); pool := s.(cs_pool); clock := s.(cs_clock); dropped := s.(cs_dropped) |}.
Definition after_session (t : Session PoolWorld) (s : Conns) : Conns := {|
  cs_pool := t.(pool); cs_idle := s.(cs_idle); cs_next := s.(cs_next); cs_world := t.(world);
  cs_clock := t.(clock); cs_dropped := t.(dropped) |}.

(** A method of [c]: its result and [c] after it. *)
Definition on_conn_of {A} (c : Client) (m : session A) : pooled (res DriverError A * Client) := fun s =>
  let '(r, t) := m (session_of c s) in (Ok (r, t.(client)), after_session t s).

(** Dropping a connection closes it; one dropped while it is out is no longer
    counted. *)
Definition drop_conn (c : Client) : pooled unit :=
  _ ← changes (dropping c.(stream));
  match c.(link) with
  | Some l => if l.(l_out) && (l.(l_pool) =? self) then locked (fun _ st => (tt, closed_out l.(l_member) st)) else mret tt
  | None => mret tt
  end.

(** [r?], which drops [c]. *)
Definition or_dropped {A} (r : res DriverError A) (c : Client) : pooled Client :=
  match r with
  | Ok _ => mret c
  | Err e => _ ← drop_conn c; raise e
  | Panic => of_res Panic
  | OutOfFuel => of_res OutOfFuel
  end.

(** ** Dialing *)

Definition open_conn (order : list bytes) (lk : option PoolLink) : pooled Client := fun s =>
  let '(r, (w, p)) := open kerberos gss_new gss_step sha384 sha512 order B.(b_login) lk (s.(cs_world), s.(cs_pool)) in
  (client <$> r, reached w p s).

Definition dial (order : list bytes) (tied : bool) : pooled Client :=
  c ← open_conn order (if tied then Some (link_new self) else None);
  let c := with_consistency B.(b_consistency) c in
  match B.(b_database) with
  | None => mret c
  | Some db => '(r, c) ← on_conn_of c (use_database db); or_dropped r c
  end.

(** ** Discovery *)

Definition listing_of (r : res DriverError Response) : listing :=
  match r with
  | Ok (Rows _ rows) => ListRows rows
  | Ok _ => ListOther
  | Err (Server _) => ListServerError
  | _ => ListFailed
  end.

Definition list_through (c : Client) : pooled Client :=
  '(r, c) ← on_conn_of c (execute kerberos gss_new gss_step sha384 sha512 (str "SHOW ENDPOINTS"));
  match r with
  | Ok _ | Err _ =>
      _ ← locked (fun now st => (tt, Balancer.list_through opts now c.(connected) (listing_of r) st)); mret c
  | Panic => of_res Panic
  | OutOfFuel => of_res OutOfFuel
  end.

Definition discover_through (c : Client) : pooled Client :=
  sp ← spawns;
  ask ← locked (fun _ => Balancer.discover_through opts sp c.(connected));
  if ask : bool then list_through c else mret c.

(** ** Checkout and checkin *)

Definition next_number : pooled Z := fun s => (Ok s.(cs_next), numbered s).

(** The client of an idle connection; every one has its own. *)
Definition take_client (c : Balancer.Client) : pooled Client := fun s =>
  match s.(cs_idle) !! c.(c_id) with
  | Some cl => (Ok (with_link c.(c_link) cl), with_clients (delete c.(c_id) s.(cs_idle)) s)
  | None => (Panic, s)
  end.

Definition drop_stale (stale : list Balancer.Client) : pooled unit :=
  for_all (fun c => cl ← take_client c; drop_conn cl) stale.

(** [in_use += 1], and the link is out. *)
Definition hand_out (affinity : option bytes) (n : Z) (c : Client) : pooled Conn :=
  c' ← locked (fun _ => checkout_commit affinity (pooled_as n c));
  mret {| number := n; conn := with_link c'.(c_link) c |}.

Definition broken (c : Client) : bool := match c.(link) with Some l => l.(l_broken) | None => false end.

(** [for _ in 0..CHECKOUT_ATTEMPTS]. *)
Fixpoint checkout_from (attempts : nat) (affinity : option bytes) : pooled Conn :=
  match attempts with
  | O => raise (NoEndpoint (str "every new connection broke during member discovery") None)
  | S attempts =>
      p ← locked (fun now => checkout_plan opts now affinity);
      match p with
      | Closed => raise (NoEndpoint (str "pool is closed") None)
      | UseIdle c stale => _ ← drop_stale stale; cl ← take_client c; hand_out affinity c.(c_id) cl
      | Dial order stale =>
          _ ← drop_stale stale;
          c ← dial order true;
          c ← discover_through c;
          if broken c then _ ← drop_conn c; checkout_from attempts affinity
          else n ← next_number; hand_out affinity n c
      end
  end.

Definition checkout (affinity : option bytes) : pooled Conn := checkout_from CHECKOUT_ATTEMPTS affinity.

Definition keep_client (c : Balancer.Client) (cl : Client) : pooled unit :=
  changes (fun s => with_clients (<[c.(c_id) := with_link c.(c_link) cl]> s.(cs_idle)) s).

(** [link.out = false]. *)
Definition returned (c : Balancer.Client) : Balancer.Client :=
  {| c_id := c.(c_id); c_link := (fun l => set_out false l.(l_affinity) l) <$> c.(c_link) |}.

Definition checkin (c : Conn) : pooled unit :=
  refused ← locked (fun _ st => let '(st, refused) := Balancer.checkin opts self (tie c) st in (refused, st));
  match refused with
  | None => keep_client (returned (tie c)) c.(conn)
  | Some c' => drop_conn (with_link c'.(c_link) c.(conn))
  end.

(** ** The background thread *)

Definition PROBE_SQL : bytes := str "SHOW DATABASES".

(** The probe's connection joins the idle ones when there is room for it. *)
Definition probe (ep : bytes) : pooled unit :=
  probed ← attempt (
    c ← dial [ep] false;
    '(r, c) ← on_conn_of c (try_execute PROBE_SQL B.(b_consistency));
    or_dropped r c);
  match probed with
  | inl c =>
      n ← next_number;
      kept ← locked (fun now st =>
        let st' := Balancer.probe opts self now (Some n) ep st in
        ((length st.(b_idle) <? length st'.(b_idle))%nat, st'));
      if kept : bool then keep_client {| c_id := n; c_link := Some (set_member ep (link_new self)) |} c
      else drop_conn c
  | inr _ => locked (fun now st => (tt, Balancer.probe opts self now None ep st))
  end.

Definition refresh : pooled unit :=
  got ← attempt (checkout None);
  match got with
  | inl c => cl ← list_through c.(conn); checkin {| number := c.(number); conn := cl |}
  | inr _ => locked (fun now st => (tt, refresh_failed opts now st))
  end.

(** One pass; [false] once the pool is closed. *)
Definition tick : pooled bool :=
  t ← locked (fun now st =>
        match Balancer.tick opts now st with
        | None => (None, st)
        | Some (due, refresh, st) => (Some (due, refresh), st)
        end);
  match t with
  | None => mret false
  | Some (due, due_refresh) =>
      _ ← for_all probe due;
      _ ← (if due_refresh : bool then refresh else mret tt);
      mret true
  end.

(** ** Closing, and a connection for one piece of work *)

Definition close : pooled unit :=
  idle ← locked (fun _ st => let '(st, idle) := Balancer.close st in (idle, st));
  drop_stale idle.

(** [Pool::with] and [with_affinity]. *)
Definition with_conn {A} (affinity : option bytes) (work : session A) : pooled A :=
  c ← checkout affinity;
  '(r, cl) ← on_conn_of c.(conn) work;
  match r with
  | Ok _ | Err _ => _ ← checkin {| number := c.(number); conn := cl |}; of_res r
  | Panic => of_res Panic
  | OutOfFuel => of_res OutOfFuel
  end.

(** ** Callers

    What the pool's users do, one call at a time: the calls of different
    threads come between each other at the locks, which [world_step] has. *)
Record Callers := { shared : Conns; held : list Conn }.

Inductive use :=
| Checkout (affinity : option bytes)
| Return (i : nat)
| Forget (i : nat)
| Work (i : nat) (c : call)
| With (affinity : option bytes) (c : call)
| Tick
| Shut.

(** The connection a use is about comes first afterwards. *)
Definition run_use (u : use) (w : Callers) : res DriverError unit * Callers :=
  match u with
  | Checkout affinity =>
      match checkout affinity w.(shared) with
      | (Ok c, s) => (Ok tt, {| shared := s; held := c :: w.(held) |})
      | (r, s) => ((fun _ => tt) <$> r, {| shared := s; held := w.(held) |})
      end
  | Return i | Forget i | Work i _ =>
      match w.(held) !! i with
      | None => (Ok tt, w)
      | Some c =>
          let rest := delete i w.(held) in
          match u with
          | Work _ m =>
              match on_conn_of c.(conn) (run_call kerberos gss_new gss_step sha384 sha512 m) w.(shared) with
              | (Ok (r, cl), s) => (r, {| shared := s; held := {| number := c.(number); conn := cl |} :: rest |})
              | (r, s) => ((fun _ => tt) <$> r, {| shared := s; held := rest |})
              end
          | Forget _ => let '(r, s) := drop_conn c.(conn) w.(shared) in (r, {| shared := s; held := rest |})
          | _ => let '(r, s) := checkin c w.(shared) in (r, {| shared := s; held := rest |})
          end
      end
  | With affinity m =>
      let '(r, s) := with_conn affinity (run_call kerberos gss_new gss_step sha384 sha512 m) w.(shared) in
      (r, {| shared := s; held := w.(held) |})
  | Tick => let '(r, s) := tick w.(shared) in ((fun _ => tt) <$> r, {| shared := s; held := w.(held) |})
  | Shut => let '(r, s) := close w.(shared) in (r, {| shared := s; held := w.(held) |})
  end.

Definition run_uses (us : list use) (w : Callers) : Callers := fold_left (fun w u => (run_use u w).2) us w.

End conns.
