(* ===== verification/PoolSteps.v ===== *)
(** * A balanced pool's calls are runs of its step relation

    Whatever callers do with a pool's connections, each call is a sequence of
    the steps [Balancer] proves its invariant for; and no call of a pool is
    stopped by a panic. *)
From stdpp Require Import gmap relations.
From S2P Require Import Prelude Bytes Text BTree Value Message Crypto Effect Rng Balancer BalancerSteps Login Session SessionSpec SessionCalls PoolConns.
#[local] Open Scope Z_scope.

Section steps.
Context {G : Type} (kerberos : bool)
  (gss_new : bytes -> option bytes -> res bytes (G * bytes))
  (gss_step : G -> bytes -> res bytes (ClientStep G))
  (sha384 sha512 : bytes -> bytes).
Context (B : PoolBuilder) (self : Z).
Abbreviation session A := (eff DriverError (Session PoolWorld) A).
Abbreviation pooled A := (eff DriverError Conns A).
Abbreviation opts := (B.(b_options)).
Implicit Types (p : PoolWorld) (l : PoolLink) (st : BalancerState).

Section from.
Context (W0 : BalancerSteps.World).

(** ** A session's steps *)

(** The pool got where it is from [W0], while callers hold [out]. *)
Definition came p (out : list Balancer.Client) : Prop :=
  p.(pw_opts) = opts /\ rtc (world_step opts self) W0 {| w_state := p.(pw_state); w_out := out |}.

(** A connection that is out is among those held. *)
Definition seat (n : Z) (lk : option PoolLink) (out : list Balancer.Client) : list Balancer.Client :=
  match lk with
  | Some l => if l.(l_out) then {| c_id := n; c_link := Some l |} :: out else out
  | None => out
  end.

(** Tied to this pool and out or not, or to none. *)
Definition tied (flag : option bool) (lk : option PoolLink) : Prop :=
  match lk, flag with
  | Some l, Some out => l.(l_pool) = self /\ l.(l_out) = out
  | None, None => True
  | _, _ => False
  end.

Definition on_track flag n out (s : Session PoolWorld) : Prop :=
  tied flag s.(client).(link) /\ came s.(pool) (seat n s.(client).(link) out).

Lemma came_rtc p p' out out' :
  came p out -> p'.(pw_opts) = p.(pw_opts) ->
  rtc (world_step opts self) {| w_state := p.(pw_state); w_out := out |} {| w_state := p'.(pw_state); w_out := out' |} ->
  came p' out'.
Proof. intros [Ho Hr] E Hs. split; [by rewrite E|]. by etrans. Qed.

Lemma came_step p p' out out' :
  came p out -> p'.(pw_opts) = p.(pw_opts) ->
  world_step opts self {| w_state := p.(pw_state); w_out := out |} {| w_state := p'.(pw_state); w_out := out' |} ->
  came p' out'.
Proof. intros Hc E Hs. eapply came_rtc; [done..|]. by apply rtc_once. Qed.

Lemma came_same p p' out : came p out -> p'.(pw_opts) = p.(pw_opts) -> p'.(pw_state) = p.(pw_state) -> came p' out.
Proof. intros [Ho Hr] E1 E2. split; [by rewrite E1|by rewrite E2]. Qed.

Lemma came_reorder p out out' : came p out -> out ≡ₚ out' -> came p out'.
Proof. intros Hc Hp. eapply came_step; [done..|]. by constructor. Qed.

Lemma on_track_same flag n out s s' :
  s'.(client).(link) = s.(client).(link) -> s'.(pool) = s.(pool) -> on_track flag n out s -> on_track flag n out s'.
Proof. unfold on_track. by intros -> ->. Qed.

(** The pool's state changes, and the link with it. *)
Lemma on_track_link flag n out s s' l l' :
  on_track flag n out s -> s.(client).(link) = Some l -> s'.(client).(link) = Some l' ->
  l'.(l_pool) = l.(l_pool) -> l'.(l_out) = l.(l_out) -> s'.(pool).(pw_opts) = s.(pool).(pw_opts) ->
  (l.(l_out) = false ->
   rtc (world_step opts self) {| w_state := s.(pool).(pw_state); w_out := out |}
                              {| w_state := s'.(pool).(pw_state); w_out := out |}) ->
  (l.(l_out) = true ->
   rtc (world_step opts self)
     {| w_state := s.(pool).(pw_state); w_out := {| c_id := n; c_link := Some l |} :: out |}
     {| w_state := s'.(pool).(pw_state); w_out := {| c_id := n; c_link := Some l' |} :: out |}) ->
  on_track flag n out s'.
Proof.
  unfold on_track. intros [Ht Hc] El El' Hp Ho Hw Hf Hr. rewrite El in *. rewrite El' in *. cbn [tied seat] in *. split.
  - destruct flag; [|done]. by rewrite Hp, Ho.
  - rewrite Ho. destruct (l_out l).
    + eapply came_rtc; [exact Hc|done|]. by apply Hr.
    + eapply came_rtc; [exact Hc|done|]. by apply Hf.
Qed.

(** A report that is about no connection. *)
Lemma on_track_report flag n out s f :
  (forall out, world_step opts self {| w_state := s.(pool).(pw_state); w_out := out |}
                 {| w_state := f (hd 0 s.(pool).(pw_now)) s.(pool).(pw_state); w_out := out |}) ->
  on_track flag n out s -> on_track flag n out (with_pool (pool_step f s.(pool)) s).
Proof. intros Hs [Ht Hc]. split; [done|]. cbn [client with_pool pool]. eapply came_step; [exact Hc|done|apply Hs]. Qed.

Lemma on_track_opts flag n out s : on_track flag n out s -> s.(pool).(pw_opts) = opts.
Proof. by intros [_ [Ho _]]. Qed.

Lemma reattribute_out_false st l ep : l.(l_out) = false -> (moved st l ep).1 = st.
Proof. unfold moved, reattribute. intros ->. by destruct (bool_decide _). Qed.

Lemma set_member_flags ep l : (set_member ep l).(l_pool) = l.(l_pool) /\ (set_member ep l).(l_out) = l.(l_out).
Proof. done. Qed.

(** [broken] is set, then another step is taken on the link. *)
Lemma marked_then b n st st' out l l' :
  world_step opts self {| w_state := st; w_out := {| c_id := n; c_link := Some (set_broken b l) |} :: out |}
                       {| w_state := st'; w_out := {| c_id := n; c_link := Some l' |} :: out |} ->
  rtc (world_step opts self) {| w_state := st; w_out := {| c_id := n; c_link := Some l |} :: out |}
                             {| w_state := st'; w_out := {| c_id := n; c_link := Some l' |} :: out |}.
Proof.
  intros Hs. eapply rtc_l; [|by apply rtc_once].
  by apply (w_broken opts self b {| c_id := n; c_link := Some l |} l).
Qed.

Lemma on_track_stable flag n out : stable (on_track flag n out).
Proof.
  split; try (intros; eapply on_track_same; [..|eassumption]; done).
  - intros s Hs. unfold report_failure. destruct (link (client s)) as [l|] eqn:El; [|done].
    eapply (on_track_link _ _ _ s _ l (set_broken true l)); [done..| |].
    + intros _. apply rtc_once. cbn. rewrite (on_track_opts _ _ _ _ Hs). by constructor.
    + intros _. apply marked_then with true. cbn. rewrite (on_track_opts _ _ _ _ Hs). by constructor.
  - intros s Hs. unfold report_round_trip. destruct (link (client s)) as [l|] eqn:El; [|done].
    pose proof (round_trip_link (set_broken false l) (connected (client s)) (hd 0 (clock s)) (pool s)) as Ek.
    cbn [pool_round_trip balancer_pool snd] in *. rewrite (on_track_opts _ _ _ _ Hs) in *.
    eapply (on_track_link _ _ _ s _ l); [done|done|reflexivity|by rewrite Ek|by rewrite Ek|done|..]; cbn.
    + intros Ho. apply rtc_once. by constructor.
    + intros _. apply marked_then with false.
      apply (w_round_trip opts self (pw_spawns (pool s)) (hd 0 (pw_now (pool s)))
               {| c_id := n; c_link := Some (set_broken false l) |} (set_broken false l)); done.
  - intros ep e s Hs. unfold report_dial. destruct (link (client s)); [|done]. destruct (member_fault e); [|done].
    apply on_track_report; [|done]. intros out'. rewrite (on_track_opts _ _ _ _ Hs). constructor.
  - intros p lost s Hs. apply (on_track_report _ _ _ s (fun _ st => (dial_order lost st).2)); [|done].
    intros out'. constructor.
  - intros p a ep s Hs. apply on_track_report; [|done]. intros out'. rewrite (on_track_opts _ _ _ _ Hs). constructor.
  - intros ordered ep t s _ Hs. set (s1 := with_client _ (drop_stream s)).
    assert (Hs1 : on_track flag n out s1) by (eapply on_track_same; [..|exact Hs]; done).
    unfold report_moved. destruct (link (client s1)) as [l|] eqn:El; [|done].
    pose proof (moved_link (set_broken false l) (connected (client s1)) (pool s1)) as Ek.
    cbn [pool_moved balancer_pool snd] in *.
    eapply (on_track_link _ _ _ s1 _ l); [done|done|reflexivity|by rewrite Ek|by rewrite Ek|done|..]; cbn.
    + intros Ho. by rewrite reattribute_out_false.
    + intros _. apply marked_then with false.
      apply (w_moved opts self {| c_id := n; c_link := Some (set_broken false l) |} (set_broken false l)); done.
Qed.

(** Reports leave the idle connections as they are. *)
Lemma idle_stable i : stable (fun s : Session PoolWorld => b_idle s.(pool).(pw_state) = i).
Proof.
  split; try done; intros until s.
  - unfold report_failure. destruct (link (client s)); [|done]. cbn. intros <-. apply failed_same.
  - unfold report_round_trip. destruct (link (client s)); [|done].
    cbn [pool_round_trip balancer_pool client pool with_clock with_pool with_client pool_step pw_state].
    intros <-. apply round_trip_same.
  - unfold report_dial. destruct (link (client s)); [|done]. destruct (member_fault e); [|done].
    cbn. intros <-. apply failed_same.
  - cbn. unfold dial_order, order. by destruct (shuffle _ _).
  - intros _. unfold report_moved. set (s1 := with_client _ (drop_stream s)). destruct (link (client s1)); [|done].
    cbn. intros <-. apply reattribute_same.
Qed.

(** ** Calls on the pool, as triples *)

(** Connections between the idle ones and their callers ([pend]) and callers'
    ([out]) have numbers of their own, and exactly the idle and the pending ones
    have a client in the table: none is leaked.
    [X] is where the pool is. *)
Definition ids (l : list Balancer.Client) : list Z := map c_id l.

Record fits (X : PoolWorld -> Prop) (pend out : list Balancer.Client) (s : Conns) : Prop := {
  fits_pool : X s.(cs_pool);
  fits_net : net_ok s.(cs_world);
  fits_ids : NoDup (ids (b_idle s.(cs_pool).(pw_state) ++ pend ++ out));
  fits_next : Forall (fun n => n < s.(cs_next)) (ids (b_idle s.(cs_pool).(pw_state) ++ pend ++ out));
  fits_table n : is_Some (s.(cs_idle) !! n) <-> n ∈ ids (b_idle s.(cs_pool).(pw_state) ++ pend);
}.

Definition here pend out : Conns -> Prop := fits (fun p => came p out) pend out.

(** [m] from [Pre] comes back, in [Post] or with an error in [Exc]. *)
Definition goes {A} (Pre : Conns -> Prop) (m : pooled A) (Post : A -> Conns -> Prop) (Exc : Conns -> Prop) : Prop :=
  forall s, Pre s -> match m s with
                     | (Ok a, s') => Post a s'
                     | (Err _, s') => Exc s'
                     | _ => False
                     end.

Lemma goes_bind {A C} Pre (m : pooled A) (k : A -> pooled C) Mid Post Exc :
  goes Pre m Mid Exc -> (forall a, goes (Mid a) (k a) Post Exc) -> goes Pre (m ≫= k) Post Exc.
Proof.
  intros Hm Hk s Hs. specialize (Hm s Hs). unfold mbind, eff_bind. destruct (m s) as [[a|e| |] s1]; try done.
  by apply Hk.
Qed.

Lemma goes_ret {A} (a : A) Pre (Post : A -> Conns -> Prop) Exc :
  (forall s, Pre s -> Post a s) -> goes Pre (mret a) Post Exc.
Proof. intros Hp s Hs. by apply Hp. Qed.

Lemma goes_raise {A} e (Pre Exc : Conns -> Prop) (Post : A -> Conns -> Prop) :
  (forall s, Pre s -> Exc s) -> goes Pre (raise e) Post Exc.
Proof. intros Hp s Hs. by apply Hp. Qed.

Lemma goes_weaken {A} (Pre Pre' : Conns -> Prop) (m : pooled A) (Post Post' : A -> Conns -> Prop) (Exc Exc' : Conns -> Prop) :
  goes Pre m Post Exc -> (forall s, Pre' s -> Pre s) -> (forall a s, Post a s -> Post' a s) ->
  (forall s, Exc s -> Exc' s) -> goes Pre' m Post' Exc'.
Proof.
  intros Hm H1 H2 H3 s Hs. specialize (Hm s (H1 s Hs)). destruct (m s) as [[a|e| |] s1]; auto.
Qed.

Lemma goes_attempt {A} Pre (m : pooled A) Post Exc Exc' :
  goes Pre m Post Exc -> goes Pre (attempt m) (fun x => match x with inl a => Post a | inr _ => Exc end) Exc'.
Proof. intros Hm s Hs. specialize (Hm s Hs). unfold attempt. by destruct (m s) as [[a|e| |] s1]. Qed.

(** A condition of the precondition's that is about no state. *)
Lemma goes_given {A} (φ : Prop) Pre (m : pooled A) Post Exc :
  (φ -> goes Pre m Post Exc) -> goes (fun s => φ /\ Pre s) m Post Exc.
Proof. intros Hm s [Hφ Hs]. by apply Hm. Qed.

Lemma goes_for_all {A} Pre (f : A -> pooled unit) (items : list A) Exc :
  (forall a, a ∈ items -> goes Pre (f a) (fun _ => Pre) Exc) -> goes Pre (for_all f items) (fun _ => Pre) Exc.
Proof.
  induction items as [|a items IH]; intros Hf; cbn [for_all]; [by apply goes_ret|].
  eapply goes_bind; [apply Hf; by left|]. intros []. apply IH. intros b Hb. apply Hf. by right.
Qed.

(** ** Connections closed *)

(** In no caller's hands: of this pool's, or tied to none. *)
Definition loose (lk : option PoolLink) : Prop :=
  match lk with Some l => l.(l_out) = false | None => True end.

Lemma tied_loose flag lk : tied flag lk -> flag <> Some true -> loose lk.
Proof. destruct lk as [l|], flag as [[]|]; cbn; try done. by intros [_ ->]. Qed.

Lemma seat_loose n lk out : loose lk -> seat n lk out = out.
Proof. destruct lk as [l|]; cbn; [|done]. by intros ->. Qed.

(** A connection that is out has its seat. *)
Lemma seat_out k out : tied (Some true) k.(conn).(link) -> seat k.(number) k.(conn).(link) out = tie k :: out.
Proof.
  unfold tie, pooled_as. destruct (link (conn k)) as [l|]; [|done]. cbn. by intros [_ ->].
Qed.

Lemma fits_same X pend out s s' :
  fits X pend out s -> s'.(cs_pool) = s.(cs_pool) -> s'.(cs_world) = s.(cs_world) ->
  s'.(cs_next) = s.(cs_next) -> s'.(cs_idle) = s.(cs_idle) -> fits X pend out s'.
Proof. intros [H1 H2 H3 H4 H5] E1 E2 E3 E4. split; by rewrite ?E1, ?E2, ?E3, ?E4. Qed.

Lemma drop_loose c X pend out Exc :
  loose c.(link) -> goes (fits X pend out) (drop_conn self c) (fun _ => fits X pend out) Exc.
Proof.
  intros Hl. eapply (goes_bind _ _ _ (fun _ => fits X pend out)).
  - intros s Hs. by eapply fits_same; [exact Hs|..].
  - intros []. destruct (link c) as [l|]; [|by apply goes_ret]. cbn in Hl. rewrite Hl. by apply goes_ret.
Qed.

(** The connection's number is free once it is taken. *)
Definition free_number (n : Z) pend out (s : Conns) : Prop :=
  n < s.(cs_next) /\ n ∉ ids (b_idle s.(cs_pool).(pw_state) ++ pend ++ out).

Lemma ids_app (l1 l2 : list Balancer.Client) : ids (l1 ++ l2) = ids l1 ++ ids l2.
Proof. apply map_app. Qed.

Lemma ids_Permutation (l1 l2 : list Balancer.Client) : l1 ≡ₚ l2 -> ids l1 ≡ₚ ids l2.
Proof. intros Hp. unfold ids. by rewrite Hp. Qed.

Lemma take_client_goes c X pend out Exc :
  goes (fits X (c :: pend) out) (take_client c)
    (fun cl s => cl.(link) = c.(c_link) /\ free_number c.(c_id) pend out s /\ fits X pend out s) Exc.
Proof.
  intros s [H1 H2 H3 H4 H5]. unfold take_client. rewrite !ids_app in *. cbn [ids map app] in *.
  change (map c_id pend) with (ids pend) in *.
  assert (Hp : ids (b_idle s.(cs_pool).(pw_state)) ++ c_id c :: ids pend ++ ids out
               ≡ₚ c_id c :: (ids (b_idle s.(cs_pool).(pw_state)) ++ ids pend ++ ids out)) by solve_Permutation.
  rewrite Hp in H3, H4. apply NoDup_cons in H3 as [Hn H3]. apply Forall_cons in H4 as [Hlt H4].
  assert (Hc : is_Some (cs_idle s !! c_id c)) by (apply H5; rewrite elem_of_app, elem_of_cons; auto).
  destruct Hc as [x Tc]. rewrite Tc.
  split; [done|]. split; [split; [done|by rewrite !ids_app]|].
  split; cbn; [done|done|by rewrite !ids_app..|]. intros n. rewrite ids_app, lookup_delete_is_Some, H5.
  rewrite !elem_of_app, elem_of_cons. rewrite app_assoc, elem_of_app, elem_of_app in Hn. naive_solver.
Qed.

Lemma drop_stale_goes stale X pend out Exc :
  Forall (fresh_client self) stale ->
  goes (fits X (stale ++ pend) out) (drop_stale self stale) (fun _ => fits X pend out) Exc.
Proof.
  intros Hs. induction Hs as [|c stale (l & El & Ep & Eo) _ IH]; cbn [drop_stale for_all app]; [by apply goes_ret|].
  eapply (goes_bind _ _ _ (fun _ => fits X (stale ++ pend) out)); [|intros []; exact IH].
  eapply goes_bind; [apply take_client_goes|]. intros cl. apply goes_given. intros Hcl.
  eapply goes_weaken; [apply (drop_loose _ X (stale ++ pend) out)| |done|done].
  - rewrite Hcl, El. exact Eo.
  - by intros s [_ Hf].
Qed.

(** ** Sessions *)

Lemma ids_seat n lk lk' flag out : tied flag lk -> tied flag lk' -> ids (seat n lk out) = ids (seat n lk' out).
Proof.
  destruct lk as [l|], lk' as [l'|], flag as [o|]; cbn; try done. intros [_ ->] [_ ->]. by destruct o.
Qed.

(** A session, at its seat among those held. *)
Definition sits flag n pend out (c : Client) (s : Conns) : Prop :=
  tied flag c.(link) /\ here pend (seat n c.(link) out) s.

Lemma on_conn_of_goes {A} flag n c (m : session A) pend out Exc :
  ordinary m -> back m ->
  goes (sits flag n pend out c) (on_conn_of c m)
    (fun rc s => returns rc.1 /\ sits flag n pend out rc.2 s) Exc.
Proof.
  intros Hk Hb s [Ht [H1 H2 H3 H4 H5]]. unfold on_conn_of.
  pose proof (Hk _ (on_track_stable flag n out) (session_of c s)) as Hs.
  pose proof (Hk _ (idle_stable (b_idle (pw_state (cs_pool s)))) (session_of c s) eq_refl) as Hi.
  destruct (Hb (session_of c s) H2) as [Hr Hw]. destruct (m (session_of c s)) as [r t]. cbn [fst snd] in *.
  destruct Hs as [Ht' Hc']; [by split|]. split; [done|]. split; [done|].
  pose proof (ids_seat n _ _ _ out Ht Ht') as Eids.
  split; cbn [cs_pool cs_world cs_next cs_idle after_session]; [done|done|..];
    rewrite ?Hi, ?ids_app in *; by rewrite <- ?Eids.
Qed.

Section returning.
Hypothesis gss_new_returns : forall spn b, returns (gss_new spn b).
Hypothesis gss_step_returns : forall g t, returns (gss_step g t).
Abbreviation open_from := (open_from kerberos gss_new gss_step sha384 sha512).
Abbreviation execute := (execute kerberos gss_new gss_step sha384 sha512).

Lemma try_execute_ordinary sql k : ordinary (try_execute sql k).
Proof. intros I HI. by apply try_execute_keeps. Qed.

Lemma run_call_ordinary c : ordinary (run_call kerberos gss_new gss_step sha384 sha512 c).
Proof. intros I HI. by apply run_call_keeps. Qed.

Lemma use_database_back db : back (use_database db : session unit).
Proof. by apply (run_call_back kerberos gss_new gss_step sha384 sha512 gss_new_returns gss_step_returns (CallUse db)). Qed.

Lemma use_database_ordinary db : ordinary (use_database db : session unit).
Proof. apply (run_call_ordinary (CallUse db)). Qed.

(** [open]: dials, reports of those that failed, and the greeting. *)
Lemma open_from_came ordered eps lg lk flag last w p out r t :
  tied flag lk -> flag <> Some true -> came p out ->
  open_from ordered eps lg lk last (w, p) = (r, t) ->
  came t.2 out /\ b_idle t.2.(pw_state) = b_idle p.(pw_state)
  /\ match r with Ok s => tied flag s.(client).(link) | _ => True end.
Proof.
  intros Ht Hf. revert last w p. induction eps as [|ep eps IH]; intros last w p Hc; cbn [Session.open_from].
  { by intros [= <- <-]. }
  unfold mbind, eff_bind, attempt, zoom. cbn [fst snd]. destruct (Login.dial _ _ _ _ _ ep lg w) as [[x|e| |] w1].
  - unfold start_session. set (s0 := {| client := _ |}).
    assert (Ht0 : tied flag s0.(client).(link)) by (destruct lk as [l|], flag; done).
    pose proof (send_hello_keeps _ (on_track_stable flag 0 out) s0) as Hs.
    pose proof (send_hello_keeps _ (idle_stable (b_idle (pw_state p))) s0 eq_refl) as Hi.
    destruct (send_hello s0) as [r1 s1]. cbn [fst snd] in *.
    destruct Hs as [Ht1 Hc1]; [split; [done|]; by rewrite seat_loose by by eapply tied_loose|].
    rewrite seat_loose in Hc1 by by eapply tied_loose. intros [= <- <-]. split_and!; [done|done|]. by destruct r1.
  - unfold changes. cbn [fst snd]. intros Ho.
    assert (Hc1 : came (report_open lk ep e p) out /\ b_idle (pw_state (report_open lk ep e p)) = b_idle (pw_state p)).
    { unfold report_open. destruct lk; [|done]. destruct (member_fault e); [|done]. cbn [pool_failed balancer_pool].
      split; [|apply failed_same]. eapply came_step; [exact Hc|done|]. cbn [pool_step pw_state].
      rewrite (proj1 Hc). constructor. }
    destruct Hc1 as [Hc1 Ei]. destruct (IH _ _ _ Hc1 Ho) as (H1 & H2 & H3). by rewrite H2.
  - by intros [= <- <-].
  - by intros [= <- <-].
Qed.

Lemma open_conn_goes order lk flag pend out :
  tied flag lk -> flag <> Some true ->
  goes (here pend out) (open_conn kerberos gss_new gss_step sha384 sha512 B order lk)
    (fun c s => tied flag c.(link) /\ here pend out s) (here pend out).
Proof.
  intros Ht Hf s [H1 H2 H3 H4 H5]. unfold open_conn.
  pose proof (open_from_back kerberos gss_new gss_step sha384 sha512 gss_new_returns gss_step_returns
                order order B.(b_login) lk ([], None) (cs_world s) (cs_pool s) H2) as Hb.
  destruct (open _ _ _ _ _ order _ lk _) as [r [w p]] eqn:E.
  destruct (open_from_came _ _ _ _ _ _ _ _ _ _ _ Ht Hf H1 E) as (Hc & Hi & Hl). cbn [snd] in *.
  unfold open in E. rewrite E in Hb. destruct Hb as [Hr Hw].
  assert (Hh : here pend out (reached w p s)) by (split; cbn; by rewrite ?Hi).
  by destruct r.
Qed.

Lemma or_dropped_goes {A} (r : res DriverError A) flag n c pend out :
  returns r -> flag <> Some true ->
  goes (sits flag n pend out c) (or_dropped self r c) (fun c s => sits flag n pend out c s) (here pend out).
Proof.
  intros Hr Hf. destruct r as [a|e| |]; try done; cbn [or_dropped]; [by apply goes_ret|].
  apply goes_given. intros Ht. pose proof (tied_loose _ _ Ht Hf) as Hl. rewrite seat_loose by done.
  eapply goes_bind; [by apply drop_loose|]. intros []. by apply goes_raise.
Qed.

Lemma dial_goes order (t : bool) flag n pend out :
  flag = (if t then Some false else None) ->
  goes (here pend out) (dial kerberos gss_new gss_step sha384 sha512 B self order t)
    (sits flag n pend out) (here pend out).
Proof.
  intros ->. assert (Hne : (if t then Some false else None) <> Some true) by by destruct t.
  eapply goes_bind.
  { apply (open_conn_goes order _ (if t then Some false else None)); [by destruct t|done]. }
  intros c. apply goes_given. intros Ht.
  assert (Hl : loose (link (with_consistency (b_consistency B) c))) by (eapply tied_loose; [exact Ht|done]).
  eapply (goes_weaken (sits (if t then Some false else None) n pend out (with_consistency (b_consistency B) c)));
    [|intros s Hs; split; [exact Ht|]; by rewrite seat_loose|intros a s Hs; exact Hs|intros s Hs; exact Hs].
  destruct (b_database B) as [db|]; [|by apply goes_ret].
  eapply goes_bind.
  { apply on_conn_of_goes; [apply use_database_ordinary|apply use_database_back]. }
  intros [r c1]. apply goes_given. intros Hr. by apply or_dropped_goes.
Qed.

(** ** Under the lock *)

(** A step of the pool's that moves no connection. *)
Lemma locked_goes {A} (f : Z -> BalancerState -> A * BalancerState) pend out Exc :
  (forall now st, b_idle (f now st).2 = b_idle st
     /\ rtc (world_step opts self) {| w_state := st; w_out := out |} {| w_state := (f now st).2; w_out := out |}) ->
  goes (here pend out) (locked f) (fun _ => here pend out) Exc.
Proof.
  intros Hf s [H1 H2 H3 H4 H5]. unfold locked. destruct (Hf (hd 0 (pw_now (cs_pool s))) (pw_state (cs_pool s))) as [Hi Hs].
  destruct (f _ _) as [a st]. cbn [snd] in *. split; cbn; rewrite ?Hi; try done.
  by eapply came_rtc; [exact H1|..].
Qed.

Lemma list_through_idle now dialed r st : b_idle (Balancer.list_through opts now dialed r st) = b_idle st.
Proof. by destruct r as [[|]| | |]. Qed.

Lemma list_through_goes flag n c pend out :
  goes (sits flag n pend out c) (list_through kerberos gss_new gss_step sha384 sha512 B c)
    (sits flag n pend out) (fun _ => False).
Proof.
  eapply goes_bind.
  { apply on_conn_of_goes; [intros I HI; by apply execute_keeps|by apply execute_back]. }
  intros [r c1]. cbn [fst snd]. apply goes_given. intros Hr.
  assert (Hk : goes (sits flag n pend out c1)
    (_ ← locked (fun now st => (tt, Balancer.list_through opts now c1.(connected) (listing_of r) st)); mret c1)
    (sits flag n pend out) (fun _ => False)).
  { apply goes_given. intros Ht. eapply goes_bind.
    - apply locked_goes. intros now st. split; [apply list_through_idle|]. apply rtc_once. constructor.
    - intros []. by apply goes_ret. }
  by destruct r.
Qed.

Lemma discover_through_idle sp ep st : b_idle (Balancer.discover_through opts sp ep st).2 = b_idle st.
Proof.
  unfold Balancer.discover_through. destruct (_ || _); [done|]. destruct (bt_get ep (b_members st)) as [m|]; [|done].
  destruct (is_none _); [|done]. cbn [snd]. by destruct (ensure_maintainer_members sp st) as (_ & -> & _).
Qed.

Lemma discover_through_goes flag n c pend out :
  goes (sits flag n pend out c) (discover_through kerberos gss_new gss_step sha384 sha512 B c)
    (sits flag n pend out) (fun _ => False).
Proof.
  apply (goes_bind _ _ _ (fun _ => sits flag n pend out c)); [by intros s Hs|]. intros sp.
  eapply (goes_bind _ _ _ (fun _ => sits flag n pend out c)).
  - apply goes_given. intros Ht. eapply goes_weaken; [apply (locked_goes _ pend (seat n c.(link) out) (fun _ => False))|intros s Hs; exact Hs|by split|done].
    intros now st. split; [apply discover_through_idle|]. apply rtc_once. constructor.
  - intros [|]; [apply list_through_goes|by apply goes_ret].
Qed.

(** ** Handing out *)

(** Counting a connection takes the pool from [X] to where callers hold it. *)
Definition commits (X : PoolWorld -> Prop) affinity (c : Balancer.Client) out : Prop :=
  forall p p', X p -> p'.(pw_opts) = p.(pw_opts) ->
  p'.(pw_state) = (checkout_commit affinity c p.(pw_state)).2 ->
  came p' ((checkout_commit affinity c p.(pw_state)).1 :: out).

Lemma hand_out_goes X affinity n c pend out Exc :
  tied (Some false) c.(link) -> commits X affinity (pooled_as n c) out ->
  goes (fun s => free_number n pend out s /\ fits X pend out s) (hand_out affinity n c)
    (fun k s => tied (Some true) k.(conn).(link) /\ here pend (tie k :: out) s) Exc.
Proof.
  intros Ht Hx s [[Hlt Hn] [H1 H2 H3 H4 H5]]. destruct (link c) as [l|] eqn:El; [|done]. destruct Ht as [Hp Ho].
  unfold hand_out. specialize (Hx _ (with_state (checkout_commit affinity (pooled_as n c) (pw_state (cs_pool s))).2 s).(cs_pool) H1
    eq_refl eq_refl).
  unfold checkout_commit, pooled_as in *. cbn [c_link c_id] in *. rewrite El in *. cbn [fst snd] in *.
  unfold mbind, eff_bind, locked. cbn. split; [done|]. unfold tie, pooled_as. cbn.
  assert (Hpm : ids (b_idle (pw_state (cs_pool s)) ++ pend ++ {| c_id := n; c_link := Some (set_out true affinity l) |} :: out)
                ≡ₚ n :: ids (b_idle (pw_state (cs_pool s)) ++ pend ++ out)).
  { rewrite !ids_app. cbn. solve_Permutation. }
  split; cbn; [done|done| | |done].
  - rewrite Hpm. by constructor.
  - rewrite Hpm. by constructor.
Qed.

(** A new connection's number. *)
Lemma next_number_goes X pend out Exc :
  goes (fits X pend out) next_number (fun n s => free_number n pend out s /\ fits X pend out s) Exc.
Proof.
  intros s [H1 H2 H3 H4 H5]. split; [|].
  - split; [cbn; lia|]. intros Hin. rewrite Forall_forall in H4. specialize (H4 _ Hin). cbn in H4. lia.
  - split; cbn; try done. eapply Forall_impl; [exact H4|]. cbv beta. lia.
Qed.

Hypothesis HW0 : world_inv opts self W0.

Lemma came_inv p out : came p out -> world_inv opts self {| w_state := p.(pw_state); w_out := out |}.
Proof.
  intros [_ Hr]. by eapply rtc_inv.
Qed.

(** A plan takes connections out of the idle set. *)
Lemma fits_taken X Y taken pend out s st :
  fits X pend out s -> Y (with_state st s).(cs_pool) -> b_idle s.(cs_pool).(pw_state) ≡ₚ taken ++ b_idle st ->
  fits Y (taken ++ pend) out (with_state st s).
Proof.
  intros [H1 H2 H3 H4 H5] Hy Hp. apply ids_Permutation in Hp.
  assert (E : ids (b_idle st ++ (taken ++ pend) ++ out) ≡ₚ ids (b_idle (pw_state (cs_pool s)) ++ pend ++ out)).
  { rewrite !ids_app in *. rewrite Hp. solve_Permutation. }
  assert (E' : ids (b_idle st ++ taken ++ pend) ≡ₚ ids (b_idle (pw_state (cs_pool s)) ++ pend)).
  { rewrite !ids_app in *. rewrite Hp. solve_Permutation. }
  split; cbn; [done|done|by rewrite E..|intros n; by rewrite E'].
Qed.

(** ** Checkout *)

(** An idle connection has been planned for, and not counted yet. *)
Definition planned affinity c stale out p : Prop :=
  exists p0 now, came p0 out /\ p.(pw_opts) = p0.(pw_opts)
    /\ checkout_plan opts now affinity p0.(pw_state) = (UseIdle c stale, p.(pw_state)).

Lemma planned_commits affinity c stale out n cl :
  pooled_as n cl = c -> commits (planned affinity c stale out) affinity (pooled_as n cl) out.
Proof.
  intros -> p p' (p0 & now & Hc & Eo & Hp) Eo' Es. eapply came_step; [exact Hc|by rewrite Eo'|]. rewrite Es.
  by econstructor.
Qed.

Lemma dialed_commits affinity n c out :
  tied (Some false) c.(link) -> commits (fun p => came p out) affinity (pooled_as n c) out.
Proof.
  intros Ht p p' Hc Eo Es. eapply came_step; [exact Hc|done|]. rewrite Es. constructor.
  unfold fresh_client, pooled_as. cbn. destruct (link c) as [l|]; [|done]. by exists l.
Qed.

Lemma plan_goes affinity pend out Exc :
  goes (here pend out) (locked (fun now => checkout_plan opts now affinity))
    (fun pl s => match pl with
                | Closed => here pend out s
                | UseIdle c stale =>
                    Forall (fresh_client self) (c :: stale)
                    /\ fits (planned affinity c stale out) (stale ++ c :: pend) out s
                | Dial _ stale => Forall (fresh_client self) stale /\ here (stale ++ pend) out s
                end) Exc.
Proof.
  intros s Hs. pose proof (fits_pool _ _ _ _ Hs) as Hc. pose proof (came_inv _ _ Hc) as Hi.
  unfold locked. destruct (checkout_plan _ _ _ _) as [pl st] eqn:E.
  pose proof (plan_idle _ _ _ _ _ _ E) as [_ Hp].
  assert (Hfresh : forall taken rest, b_idle (pw_state (cs_pool s)) ≡ₚ taken ++ rest -> Forall (fresh_client self) taken).
  { intros taken rest Hl. apply Forall_forall. intros c Hin. apply (inv_idle _ _ _ Hi). cbn. rewrite Hl, elem_of_app. by left. }
  destruct pl as [|c stale|order stale].
  - subst st. by destruct Hs.
  - destruct Hp as [_ Hp]. split; [by apply (Hfresh (c :: stale) (b_idle st))|].
    replace (stale ++ c :: pend) with ((stale ++ [c]) ++ pend) by by rewrite <- app_assoc.
    eapply fits_taken; [exact Hs| |rewrite Hp; solve_Permutation].
    by exists (cs_pool s), (hd 0 (pw_now (cs_pool s))).
  - destruct Hp as [_ Hp]. split; [by eapply Hfresh|]. eapply fits_taken; [exact Hs| |exact Hp].
    cbn. eapply came_step; [exact Hc|done|]. by econstructor.
Qed.

Abbreviation out_now k pend out := (fun s => tied (Some true) k.(conn).(link) /\ here pend (tie k :: out) s).

Lemma use_idle_goes affinity c stale pend out Exc :
  Forall (fresh_client self) (c :: stale) ->
  goes (fits (planned affinity c stale out) (stale ++ c :: pend) out)
    (_ ← drop_stale self stale; cl ← take_client c; hand_out affinity c.(c_id) cl)
    (fun k => out_now k pend out) Exc.
Proof.
  intros [Hc Hstale]%Forall_cons.
  eapply goes_bind; [by apply drop_stale_goes|]. intros [].
  eapply goes_bind; [apply take_client_goes|]. intros cl. apply goes_given. intros El.
  apply hand_out_goes with (X := planned affinity c stale out).
  - rewrite El. by destruct Hc as (l & -> & Hl & Ho).
  - apply planned_commits. unfold pooled_as. rewrite El. by destruct c.
Qed.

Lemma checkout_from_goes attempts affinity pend out :
  goes (here pend out) (checkout_from kerberos gss_new gss_step sha384 sha512 B self attempts affinity)
    (fun k => out_now k pend out) (here pend out).
Proof.
  induction attempts as [|attempts IH]; cbn [checkout_from]; [by apply goes_raise|].
  eapply goes_bind; [apply plan_goes|]. intros [|c stale|order stale].
  - by apply goes_raise.
  - apply goes_given, use_idle_goes.
  - apply goes_given. intros Hstale.
    eapply goes_bind; [by apply drop_stale_goes|]. intros [].
    eapply goes_bind; [by apply (dial_goes order true (Some false) 0)|]. intros c.
    eapply goes_bind; [eapply goes_weaken; [apply discover_through_goes|done|done|done]|]. intros c1.
    apply goes_given. intros Ht. rewrite seat_loose by by eapply tied_loose.
    destruct (broken c1).
    + eapply goes_bind; [apply drop_loose; by eapply tied_loose|]. intros []. apply IH.
    + eapply goes_bind; [apply next_number_goes|]. intros n. by apply hand_out_goes, dialed_commits.
Qed.

Lemma checkout_goes affinity pend out :
  goes (here pend out) (checkout kerberos gss_new gss_step sha384 sha512 B self affinity)
    (fun k => out_now k pend out) (here pend out).
Proof. apply checkout_from_goes. Qed.

(** ** Giving back *)

Lemma checkin_goes k pend out Exc :
  goes (out_now k pend out) (checkin B self k) (fun _ => here pend out) Exc.
Proof.
  intros s [Ht [H1 H2 H3 H4 H5]]. destruct (link (conn k)) as [l|] eqn:El; [|done]. destruct Ht as [Hp Ho].
  pose proof (came_step _ (with_state (Balancer.checkin opts self (tie k) (pw_state (cs_pool s))).1 s).(cs_pool) _ out H1
    eq_refl (w_checkin opts self (tie k) _ out _ ltac:(done))) as Hc.
  unfold checkin, mbind at 1, eff_bind at 1, locked.
  assert (Hk : exists st', (Balancer.checkin opts self (tie k) (pw_state (cs_pool s)) = (st', Some (returned (tie k)))
                            /\ b_idle st' = b_idle (pw_state (cs_pool s)))
               \/ (Balancer.checkin opts self (tie k) (pw_state (cs_pool s)) = (st', None)
                   /\ b_idle st' = b_idle (pw_state (cs_pool s)) ++ [returned (tie k)])).
  { unfold Balancer.checkin, tie, pooled_as, returned. cbn [c_link c_id]. rewrite El, Ho, (proj2 (Z.eqb_eq _ _)) by done.
    cbn [fmap option_fmap option_map]. destruct (_ && _ && _ && _); eexists; [by right|by left]. }
  rewrite !ids_app in *. cbn [ids map app] in *. change (map c_id ?x) with (ids x) in *.
  assert (Hpm : ids (b_idle (pw_state (cs_pool s))) ++ ids pend ++ number k :: ids out
                ≡ₚ number k :: ids (b_idle (pw_state (cs_pool s))) ++ ids pend ++ ids out) by solve_Permutation.
  rewrite Hpm in H3, H4. destruct Hk as [st' [[E Ei]|[E Ei]]]; rewrite E in *; cbn [fst] in Hc.
  - assert (Hh : here pend out (with_state st' s)).
    { apply NoDup_cons in H3 as [_ H3]. apply Forall_cons in H4 as [_ H4].
      split; cbn; rewrite ?ids_app, ?Ei; try done. }
    assert (Hd := drop_loose (with_link (c_link (returned (tie k))) (conn k)) (fun p => came p out) pend out Exc).
    apply Hd; [|done]. cbn. by rewrite El.
  - cbn. split; cbn; rewrite ?ids_app, ?Ei; try done.
    + rewrite ids_app. cbn. rewrite <- app_assoc. cbn. by rewrite <- Permutation_middle.
    + rewrite ids_app. cbn. rewrite <- app_assoc. cbn. by rewrite <- Permutation_middle.
    + rewrite ids_app. cbn. change (map c_id ?x) with (ids x). rewrite <- app_assoc. cbn.
      intros n. rewrite lookup_insert_is_Some, H5, !elem_of_app, elem_of_cons.
      destruct (decide (number k = n)); naive_solver.
Qed.

(** ** The background thread *)

Lemma probe_idle now probed ep st :
  b_idle (Balancer.probe opts self now probed ep st) = b_idle st
  \/ exists id, probed = Some id
       /\ b_idle (Balancer.probe opts self now probed ep st)
          = b_idle st ++ [{| c_id := id; c_link := Some (set_member ep (link_new self)) |}].
Proof.
  unfold Balancer.probe. destruct (bt_get ep (b_members st)) as [m|]; [|by left].
  destruct probed as [id|], (b_closed st); try by left. destruct (_ <? _)%nat; [right; by exists id|by left].
Qed.

(** The connection a probe made joins the idle ones. *)
Lemma keep_client_goes X n lk c pend out Exc :
  goes (fun s => exists s0 st, s = with_state st s0 /\ fits X pend out s0 /\ free_number n pend out s0
          /\ X s.(cs_pool) /\ b_idle st = b_idle s0.(cs_pool).(pw_state) ++ [{| c_id := n; c_link := lk |}])
    (keep_client {| c_id := n; c_link := lk |} c) (fun _ => fits X pend out) Exc.
Proof.
  intros s (s0 & st & -> & [H1 H2 H3 H4 H5] & [Hlt Hn] & Hx & Ei). unfold keep_client, changes. cbn [c_id c_link].
  rewrite !ids_app in *. split; cbn; rewrite ?ids_app, ?Ei; try done; rewrite ?ids_app; cbn; rewrite <- ?app_assoc; cbn.
  - rewrite <- Permutation_middle. by constructor.
  - rewrite <- Permutation_middle. by constructor.
  - intros m. rewrite lookup_insert_is_Some, H5, !elem_of_app, elem_of_cons.
    destruct (decide (n = m)); naive_solver.
Qed.

Lemma probe_goes ep pend out :
  goes (here pend out) (probe kerberos gss_new gss_step sha384 sha512 B self ep) (fun _ => here pend out) (fun _ => False).
Proof.
  eapply goes_bind.
  { eapply goes_attempt, (goes_bind _ _ _ (sits None 0 pend out)); [by apply (dial_goes [ep] false)|]. intros c.
    eapply goes_bind; [apply on_conn_of_goes; [apply try_execute_ordinary|apply try_execute_back]|].
    intros [r c1]. apply goes_given. intros Hr. by apply or_dropped_goes. }
  intros [c|e].
  - apply goes_given. intros Ht. rewrite seat_loose by by eapply tied_loose.
    eapply goes_bind; [apply next_number_goes|]. intros n.
    eapply (goes_bind _ _ _ (fun (kept : bool) s =>
      if kept then exists s0 st, s = with_state st s0 /\ here pend out s0 /\ free_number n pend out s0
          /\ came s.(cs_pool) out /\ b_idle st = b_idle s0.(cs_pool).(pw_state)
               ++ [{| c_id := n; c_link := Some (set_member ep (link_new self)) |}]
      else here pend out s)).
    + intros s [Hn Hs]. unfold locked. set (st := Balancer.probe _ _ _ _ _ _).
      assert (Hc : came (with_state st s).(cs_pool) out).
      { eapply came_step; [apply (fits_pool _ _ _ _ Hs)|done|]. constructor. }
      destruct (probe_idle (hd 0 (pw_now (cs_pool s))) (Some n) ep (pw_state (cs_pool s))) as [Ei|(id & [= <-] & Ei)];
        fold st in Ei; rewrite Ei; cbn beta.
      * rewrite (proj2 (Nat.ltb_ge _ _)) by done. destruct Hs as [H1 H2 H3 H4 H5]. by split; cbn; rewrite ?Ei.
      * rewrite length_app, (proj2 (Nat.ltb_lt _ _)) by (cbn; lia). by exists s, st.
    + intros [|]; [apply (keep_client_goes (fun p => came p out))|].
      apply (drop_loose c (fun p => came p out) pend out). by eapply tied_loose.
  - apply locked_goes. intros now st.
    split; [|apply rtc_once; constructor]. by destruct (probe_idle now None ep st) as [?|(id & [=] & _)].
Qed.

Lemma refresh_goes pend out :
  goes (here pend out) (refresh kerberos gss_new gss_step sha384 sha512 B self) (fun _ => here pend out) (fun _ => False).
Proof.
  eapply goes_bind; [eapply goes_attempt, checkout_goes|]. intros [k|e].
  - eapply goes_bind.
    { eapply goes_weaken; [apply (list_through_goes (Some true) (number k) (conn k) pend out)| |intros a s Hs; exact Hs|done].
      intros s [Ht Hh]. split; [done|]. by rewrite seat_out. }
    intros cl. eapply goes_weaken; [apply (checkin_goes {| number := number k; conn := cl |} pend out (fun _ => False))| |done|done].
    intros s [Ht Hh]. split; [done|]. by rewrite <- (seat_out {| number := number k; conn := cl |}).
  - apply locked_goes. intros now st. split; [done|]. apply rtc_once. constructor.
Qed.

Lemma tick_goes pend out :
  goes (here pend out) (tick kerberos gss_new gss_step sha384 sha512 B self) (fun _ => here pend out) (fun _ => False).
Proof.
  apply (goes_bind _ _ _ (fun _ => here pend out)).
  - apply locked_goes. intros now st. destruct (Balancer.tick opts now st) as [[[due rf] st']|] eqn:E; [|by split].
    cbn [snd]. split; [|apply rtc_once; by econstructor]. unfold Balancer.tick in E. destruct (b_closed st); [done|].
    by injection E as _ _ <-.
  - intros [[due rf]|]; [|by apply goes_ret].
    eapply goes_bind; [apply goes_for_all; intros ep _; apply probe_goes|]. intros [].
    apply (goes_bind _ _ _ (fun _ => here pend out)); [|intros []; by apply goes_ret].
    destruct rf; [apply refresh_goes|by apply goes_ret].
Qed.

(** ** Closing and dropping *)

Lemma close_goes pend out Exc : goes (here pend out) (close self) (fun _ => here pend out) Exc.
Proof.
  apply (goes_bind _ _ _ (fun idle s => Forall (fresh_client self) idle /\ here (idle ++ pend) out s)).
  - intros s Hs. unfold locked. cbn. pose proof (came_inv _ _ (fits_pool _ _ _ _ Hs)) as Hi. split.
    { apply Forall_forall. intros c Hc. by apply (inv_idle _ _ _ Hi). }
    apply (fits_taken _ _ _ _ _ _ _ Hs); [|cbn; by rewrite app_nil_r].
    cbn. eapply came_step; [exact (fits_pool _ _ _ _ Hs)|done|]. constructor.
  - intros idle. apply goes_given. intros Hi. by apply drop_stale_goes.
Qed.

Lemma drop_out_goes k pend out Exc :
  goes (out_now k pend out) (drop_conn self k.(conn)) (fun _ => here pend out) Exc.
Proof.
  intros s [Ht [H1 H2 H3 H4 H5]]. unfold drop_conn. destruct (link (conn k)) as [l|] eqn:El; [|done].
  destruct Ht as [Hp Ho]. rewrite Ho, (proj2 (Z.eqb_eq _ _)) by done. cbn [andb].
  unfold mbind, eff_bind, changes, locked. cbn.
  assert (Hpm : ids (b_idle (pw_state (cs_pool s)) ++ pend ++ tie k :: out)
                ≡ₚ number k :: ids (b_idle (pw_state (cs_pool s)) ++ pend ++ out)).
  { rewrite !ids_app. cbn. solve_Permutation. }
  rewrite Hpm in H3, H4. apply NoDup_cons in H3 as [_ H3]. apply Forall_cons in H4 as [_ H4].
  split; cbn; try done. eapply came_step; [exact H1|done|].
  eapply (w_drop opts self (tie k) l); [done|]. cbn. by rewrite El.
Qed.

Lemma with_conn_goes {A} affinity (work : session A) pend out :
  ordinary work -> back work ->
  goes (here pend out) (with_conn kerberos gss_new gss_step sha384 sha512 B self affinity work)
    (fun _ => here pend out) (here pend out).
Proof.
  intros Hs Hb. eapply goes_bind; [apply checkout_goes|]. intros k.
  eapply goes_bind.
  { eapply goes_weaken; [by apply (on_conn_of_goes (Some true) (number k) (conn k) work pend out (fun _ => False))|
      |intros a s Hx; exact Hx|done].
    intros s [Ht Hh]. split; [done|]. by rewrite seat_out. }
  intros [r cl]. apply goes_given. cbn [fst snd]. intros Hr.
  assert (Hk : goes (sits (Some true) (number k) pend out cl) (checkin B self {| number := number k; conn := cl |})
                 (fun _ => here pend out) (here pend out)).
  { eapply goes_weaken; [apply (checkin_goes {| number := number k; conn := cl |} pend out (here pend out))| |done|done].
    intros s [Ht Hh]. split; [done|]. by rewrite <- (seat_out {| number := number k; conn := cl |}). }
  destruct r as [a|e| |]; try done; (eapply goes_bind; [exact Hk|]); intros [].
  - by apply goes_ret.
  - by apply goes_raise.
Qed.

(** ** Callers *)

(** The callers' connections are the pool's, out. *)
Record settled (w : Callers) : Prop := {
  settled_out : Forall (fun k => tied (Some true) k.(conn).(link)) w.(held);
  settled_here : here [] (map tie w.(held)) w.(shared);
}.

Definition use_text (u : use) : Prop :=
  match u with Work _ c | With _ c => call_text c | _ => True end.

Lemma here_reorder pend out out' s : out ≡ₚ out' -> here pend out s -> here pend out' s.
Proof.
  intros Hp [H1 H2 H3 H4 H5]. split; [by eapply came_reorder|done| | |done];
    (rewrite (ids_Permutation _ (b_idle (pw_state (cs_pool s)) ++ pend ++ out)) by by rewrite Hp); done.
Qed.

Lemma run_use_settled u w :
  use_text u -> settled w ->
  returns (run_use kerberos gss_new gss_step sha384 sha512 B self u w).1
  /\ settled (run_use kerberos gss_new gss_step sha384 sha512 B self u w).2.
Proof.
  intros Hu [Ho Hh].
  assert (Hheld : forall i k, w.(held) !! i = Some k ->
    Forall (fun k => tied (Some true) k.(conn).(link)) (delete i w.(held))
    /\ out_now k [] (map tie (delete i w.(held))) w.(shared)).
  { intros i k Hi. apply delete_Permutation in Hi. rewrite Hi in Ho. apply Forall_cons in Ho as [Hk Hd].
    split_and!; [done|done|]. eapply here_reorder; [|exact Hh].
    change (tie k :: map tie (delete i (held w))) with (map tie (k :: delete i (held w))). by apply Permutation_map. }
  destruct u as [affinity|i|i|i c|affinity c| |]; cbn [run_use use_text] in *.
  - pose proof (checkout_goes affinity _ _ _ Hh) as Hc.
    destruct (checkout _ _ _ _ _ _ _ _ _) as [[k|e| |] s]; try done.
    split; [done|]. destruct Hc as [Ht Hc]. by split; [by constructor|].
  - destruct (held w !! i) as [k|] eqn:Hi; [|done]. destruct (Hheld i k Hi) as [Hd Hk].
    pose proof (checkin_goes k _ _ (fun _ => False) _ Hk) as Hc.
    destruct (checkin B self k _) as [[[]|e| |] s]; try done.
  - destruct (held w !! i) as [k|] eqn:Hi; [|done]. destruct (Hheld i k Hi) as [Hd Hk].
    pose proof (drop_out_goes k _ _ (fun _ => False) _ Hk) as Hc.
    destruct (drop_conn self _ _) as [[[]|e| |] s]; try done.
  - destruct (held w !! i) as [k|] eqn:Hi; [|done]. destruct (Hheld i k Hi) as [Hd [Ht Hk]].
    rewrite <- seat_out in Hk by done.
    pose proof (on_conn_of_goes (Some true) (number k) (conn k) _ [] _ (fun _ => False) (run_call_ordinary c)
      (run_call_back kerberos gss_new gss_step sha384 sha512 gss_new_returns gss_step_returns c Hu) _ (conj Ht Hk)) as Hc.
    destruct (on_conn_of _ _ _) as [[[r cl]|e| |] s]; try done. destruct Hc as [Hr [Ht' Hc]]. split; [done|].
    cbn [snd] in *. change (link cl) with (link (conn {| number := number k; conn := cl |})) in Hc.
    change (number k) with (number {| number := number k; conn := cl |}) in Hc at 1. rewrite seat_out in Hc by done.
    split; [by constructor|exact Hc].
  - pose proof (with_conn_goes affinity _ [] _ (run_call_ordinary c)
      (run_call_back kerberos gss_new gss_step sha384 sha512 gss_new_returns gss_step_returns c Hu) _ Hh) as Hc.
    destruct (with_conn _ _ _ _ _ _ _ _ _ _) as [[[]|e| |] s]; done.
  - pose proof (tick_goes _ _ _ Hh) as Hc. by destruct (tick _ _ _ _ _ _ _ _) as [[[]|e| |] s].
  - pose proof (close_goes _ _ (fun _ => False) _ Hh) as Hc. by destruct (close _ _) as [[[]|e| |] s].
Qed.

Lemma run_uses_settled us w :
  Forall use_text us -> settled w -> settled (run_uses kerberos gss_new gss_step sha384 sha512 B self us w).
Proof.
  intros Hus. revert w. induction Hus as [|u us Hu _ IH]; intros w Hw; [done|]. cbn [run_uses fold_left].
  apply IH. by apply run_use_settled.
Qed.

End returning.
End from.

(** ** Properties *)

(** A pool just built, in a world. *)
Definition fresh_pool p (w : World) (clock : list Z) : Callers := {|
  shared := {| cs_pool := p; cs_idle := ∅; cs_next := 0; cs_world := w; cs_clock := clock; cs_dropped := [] |};
  held := [] |}.

Definition abstract (w : Callers) : BalancerSteps.World :=
  {| w_state := w.(shared).(cs_pool).(pw_state); w_out := map tie w.(held) |}.

Lemma fresh_settled now rng instants sp p w clock :
  build B now rng instants sp = Ok p -> net_ok w ->
  world_inv opts self (abstract (fresh_pool p w clock))
  /\ settled (abstract (fresh_pool p w clock)) (fresh_pool p w clock).
Proof.
  intros Hb Hw. unfold build in Hb. destruct (Balancer.build _ _ _ _) as [st|e| |] eqn:E; try done.
  injection Hb as <-. split; [by apply (built_inv opts self _ _ _ _ E)|]. split; [done|].
  assert (Ei : b_idle st = []).
  { unfold Balancer.build in E. destruct (Balancer.dedup _); [done|]. destruct (_ <? _)%nat; [done|].
    destruct (_ <? _); [done|]. destruct (negb _); [done|]. by injection E as <-. }
  split; cbn; rewrite ?Ei; try done; [constructor..|]. intros n.
  rewrite lookup_empty. split; [by intros [? [=]]|by intros ?%elem_of_nil].
Qed.


End steps.

(** ** Witnesses *)

Definition wit_builder : PoolBuilder := certificate (str "u") (builder [A; C]).
Definition wit_built : PoolWorld :=
  match build wit_builder 0 1 [SEC; SEC; SEC] false with Ok p => p | _ => wit_pool end.
Definition wit_members : Login.World :=
  wit_world [wit_peer (wit_answers [Mutation 1; Rows [str "name"] []])].
Definition wit_uses : list use := [Checkout None; Work 0 (CallExecute (str "DELETE FROM t") Quorum); Return 0].
Abbreviation wit_run us :=
  (run_uses false no_gss_new no_gss_step sha256 sha256 wit_builder 1 us (fresh_pool wit_built wit_members [])).

Example dialed_once : length (held (wit_run [Checkout None])) = 1%nat.
Proof. by vm_compute. Qed.
Example kept_idle : map c_id (b_idle (pw_state (cs_pool (shared (wit_run wit_uses))))) = [0].
Proof. by vm_compute. Qed.
Example given_again : map number (held (wit_run (wit_uses ++ [Checkout (Some (str "k"))]))) = [0].
Proof. by vm_compute. Qed.

Lemma wit_members_ok : net_ok wit_members.
Proof. repeat constructor. Qed.

