(* ===== verification/PoolUses.v ===== *)
(** * What a balanced pool's users can rely on

    Consequences of [PoolSteps] for callers: a closed pool, the life of
    its background thread, and the one way a checkout fails. *)
From stdpp Require Import gmap relations.
From S2P Require Import Prelude Bytes Text BTree Value Message Frame Handshake Crypto Effect Rng Balancer BalancerSteps Login Session SessionSpec SessionCalls PoolConns PoolSteps.
#[local] Open Scope Z_scope.

Section uses.
Context {G : Type} (kerberos : bool)
  (gss_new : bytes -> option bytes -> res bytes (G * bytes))
  (gss_step : G -> bytes -> res bytes (ClientStep G))
  (sha384 sha512 : bytes -> bytes).
Context (B : PoolBuilder) (self : Z).
Abbreviation opts := (B.(b_options)).
Abbreviation run_use := (run_use kerberos gss_new gss_step sha384 sha512 B self).
Abbreviation run_uses := (run_uses kerberos gss_new gss_step sha384 sha512 B self).

(** ** Closed for good *)

Lemma step_closed w w' :
  world_step opts self w w' -> b_closed w.(w_state) = true -> b_closed w'.(w_state) = true.
Proof.
  intros Hs. destruct Hs as
    [now aff st c stale st1 out Hplan|now aff st eps stale st1 out Hplan|aff c st out Hfresh
    |c out out' st Hp|c l out out' st Hp Hl|spawned now c l connected elapsed out out' st Hp Hl
    |spawned now l connected elapsed out st Hl|c l connected out out' st Hp Hl
    |b c l out out' st Hp Hl|lost st out|spawned now ep st out|now aff ep st out
    |now st due refresh st1 out Htick|now probed ep st out|spawned ep st out|now dialed l st out
    |now st out|st out|st out out' Hp]; cbn [w_state]; intros Hc; try done.
  - unfold checkout_plan in Hplan. by rewrite Hc in Hplan.
  - unfold checkout_plan in Hplan. by rewrite Hc in Hplan.
  - unfold checkout_commit. by destruct (c_link c).
  - unfold Balancer.checkin. destruct (c_link c) as [l|]; [|done]. destruct (_ =? _); [|done].
    destruct (_ && _ && _ && _), (l_out l); done.
  - by destruct (round_trip_same opts spawned now l connected elapsed st) as [[_ ->] _].
  - by destruct (round_trip_same opts spawned now l connected elapsed st) as [[_ ->] _].
  - unfold moved. by destruct (reattribute_same st l connected) as [_ ->].
  - unfold dial_order, order. by destruct (shuffle _ _).
  - by destruct (failed_same opts spawned now ep st) as [[_ ->] _].
  - unfold Balancer.tick in Htick. by rewrite Hc in Htick.
  - unfold Balancer.probe. destruct (bt_get ep (b_members st)); [|done]. rewrite Hc. by destruct probed.
  - unfold Balancer.discover_through. destruct (_ || _); [done|]. destruct (bt_get ep (b_members st)) as [m|]; [|done].
    destruct (is_none _); [|done]. cbn [snd]. by destruct (ensure_maintainer_members spawned st) as (_ & _ & ->).
  - by destruct l as [[|]| | |].
Qed.

Lemma steps_closed w w' :
  rtc (world_step opts self) w w' -> b_closed w.(w_state) = true -> b_closed w'.(w_state) = true.
Proof. induction 1 as [w|w1 w2 w3 Hs _ IH]; [done|]. intros Hc. by eapply IH, step_closed. Qed.

Section returning.
Hypothesis gss_new_returns : forall spn b, returns (gss_new spn b).
Hypothesis gss_step_returns : forall g t, returns (gss_step g t).

(** From where the callers are, any uses are steps. *)
Lemma settled_again W0 t : settled B self W0 t -> settled B self (abstract t) t.
Proof. intros [Ho [[Hp Hr] H2 H3 H4 H5]]. by split. Qed.

Lemma uses_steps W0 t us :
  world_inv opts self W0 -> settled B self W0 t -> Forall use_text us ->
  world_inv opts self (abstract t)
  /\ settled B self (abstract t) (run_uses us t)
  /\ rtc (world_step opts self) (abstract t) (abstract (run_uses us t)).
Proof.
  intros Hi Ht Hus. assert (Hi' : world_inv opts self (abstract t)).
  { eapply rtc_inv; [exact (proj2 (fits_pool _ _ _ _ (settled_here _ _ _ _ Ht)))|done]. }
  assert (Hs : settled B self (abstract t) (run_uses us t)) by (apply run_uses_settled; try done; by eapply settled_again).
  split_and!; [done|done|]. apply (fits_pool _ _ _ _ (settled_here _ _ _ _ Hs)).
Qed.


Lemma shut_closed t :
  world_inv opts self (abstract t) -> settled B self (abstract t) t ->
  b_closed (run_use Shut t).2.(shared).(cs_pool).(pw_state) = true.
Proof.
  intros Hi [_ Hh]. cbn [PoolConns.run_use].
  assert (Hc : goes (here B self (abstract t) [] (map tie (held t))) (close self)
                 (fun _ s => b_closed s.(cs_pool).(pw_state) = true) (fun _ => False)).
  { apply (goes_bind _ _ _ (fun idle s => Forall (fresh_client self) idle
      /\ fits (fun p => b_closed p.(pw_state) = true) (idle ++ []) (map tie (held t)) s)).
    - intros s Hs. unfold locked. cbn. pose proof (came_inv _ _ _ Hi _ _ (fits_pool _ _ _ _ Hs)) as Hi'. split.
      { apply Forall_forall. intros c Hc. by apply (inv_idle _ _ _ Hi'). }
      apply (fits_taken _ _ _ _ _ _ _ Hs); [done|cbn; by rewrite app_nil_r].
    - intros idle. apply goes_given. intros Hf. eapply goes_weaken;
        [exact (drop_stale_goes self idle (fun p => b_closed p.(pw_state) = true) [] (map tie (held t)) (fun _ => False) Hf)
        |done| |done].
      intros a s Hs. apply (fits_pool _ _ _ _ Hs). }
  specialize (Hc _ Hh). by destruct (close self (shared t)) as [[[]|e| |] s].
Qed.

Lemma run_uses_app us1 us2 t : run_uses (us1 ++ us2) t = run_uses us2 (run_uses us1 t).
Proof. apply fold_left_app. Qed.

(** The invariant of the pool, and the callers where its lemmas want them. *)
Definition in_use (t : Callers) : Prop := world_inv opts self (abstract t) /\ settled B self (abstract t) t.

Lemma uses_in_use t us :
  in_use t -> Forall use_text us ->
  in_use (run_uses us t) /\ rtc (world_step opts self) (abstract t) (abstract (run_uses us t)).
Proof.
  intros [Hi Hs] Hus. destruct (uses_steps _ _ us Hi Hs Hus) as (_ & Hs' & Hr).
  split; [|done]. split; [by eapply rtc_inv|by eapply settled_again].
Qed.

Lemma fresh_in_use now rng instants sp p w clock :
  build B now rng instants sp = Ok p -> net_ok w -> in_use (fresh_pool p w clock).
Proof.
  intros Hb Hw. destruct (fresh_settled B self _ _ _ _ _ _ clock Hb Hw) as [Hi Hs].
  destruct (uses_steps _ _ [] Hi Hs ltac:(constructor)) as (Hi' & Hs' & _). by split.
Qed.

Abbreviation closed t := (b_closed t.(shared).(cs_pool).(pw_state)).

Lemma uses_closed t us : in_use t -> Forall use_text us -> closed t = true -> closed (run_uses us t) = true.
Proof. intros Ht Hus Hc. destruct (uses_in_use t us Ht Hus) as [_ Hr]. exact (steps_closed _ _ Hr Hc). Qed.

Lemma shut_among t us : in_use t -> Forall use_text us -> Shut ∈ us -> closed (run_uses us t) = true.
Proof.
  intros Ht Hus (us1 & us2 & ->)%list_elem_of_split. rewrite run_uses_app. apply Forall_app in Hus as [H1 H2].
  apply Forall_cons in H2 as [_ H2]. destruct (uses_in_use t us1 Ht H1) as [[Hi Hs] _].
  change (run_uses (Shut :: us2) ?t) with (run_uses us2 (run_uses [Shut] t)). apply uses_closed; [|done|].
  - by apply (uses_in_use _ [Shut]); [|repeat constructor].
  - by apply shut_closed.
Qed.

(** A closed pool has no idle connection. *)
Lemma closed_is_empty t :
  in_use t -> closed t = true -> t.(shared).(cs_idle) = ∅ /\ b_idle t.(shared).(cs_pool).(pw_state) = [].
Proof.
  intros [Hi Hs] Hc. pose proof (inv_closed _ _ _ Hi Hc) as Hidle. cbn [abstract w_state] in Hidle. split; [|done].
  apply map_eq. intros n. rewrite lookup_empty. pose proof (fits_table _ _ _ _ (settled_here _ _ _ _ Hs) n) as Ht.
  rewrite Hidle in Ht. destruct (cs_idle (shared t) !! n) eqn:E; [|done].
  apply proj1 in Ht. specialize (Ht ltac:(by eexists)). by apply elem_of_nil in Ht.
Qed.

(** C19: a pool that was closed stays closed: whatever its users did before and
    do after, it keeps no connection, and a checkout fails with
    [pool is closed] without dialing and without anything else changing. *)
Theorem closed_pool_hands_out_nothing now rng instants sp p w clock us1 us2 affinity :
  build B now rng instants sp = Ok p -> net_ok w -> Forall use_text (us1 ++ us2) ->
  let t := run_uses us2 (run_use Shut (run_uses us1 (fresh_pool p w clock))).2 in
  t.(shared).(cs_idle) = ∅ /\ b_idle t.(shared).(cs_pool).(pw_state) = []
  /\ exists t', run_use (Checkout affinity) t = (Err (NoEndpoint (str "pool is closed") None), t')
       /\ t'.(held) = t.(held) /\ t'.(shared).(cs_world) = t.(shared).(cs_world)
       /\ t'.(shared).(cs_pool).(pw_state) = t.(shared).(cs_pool).(pw_state).
Proof.
  intros Hb Hw Hus t. pose proof (fresh_in_use _ _ _ _ _ _ clock Hb Hw) as Hf.
  assert (Et : t = run_uses (us1 ++ Shut :: us2) (fresh_pool p w clock)) by by rewrite run_uses_app.
  assert (Hus' : Forall use_text (us1 ++ Shut :: us2)).
  { apply Forall_app in Hus as [H1 H2]. apply Forall_app. split; [done|]. by constructor. }
  assert (Hct : closed t = true) by (rewrite Et; apply shut_among; [done|done|set_solver]).
  destruct (closed_is_empty t) as [H1 H2]; [rewrite Et; by apply uses_in_use|done|]. split_and!; [done|done|].
  cbn [PoolConns.run_use]. unfold checkout. cbn [checkout_from CHECKOUT_ATTEMPTS].
  unfold mbind at 1, eff_bind at 1, locked, checkout_plan. rewrite Hct. by eexists.
Qed.

(** ** The background thread *)

(** [maintain]: while it is parked, others use the pool; when it wakes, someone
    still has the pool, or ([None]) nobody does. [true]: it goes on when the
    list ends. *)
Fixpoint maintain (wakes : list (option (list use))) (t : Callers) : res DriverError bool * Callers :=
  match wakes with
  | [] => (Ok true, t)
  | None :: _ => (Ok false, t)
  | Some us :: wakes =>
      let t := run_uses us t in
      let '(r, s) := tick kerberos gss_new gss_step sha384 sha512 B self t.(shared) in
      let t := {| shared := s; held := t.(held) |} in
      match r with Ok true => maintain wakes t | _ => (r, t) end
  end.

Lemma tick_verdict s b s' :
  tick kerberos gss_new gss_step sha384 sha512 B self s = (Ok b, s') -> b = negb (b_closed s.(cs_pool).(pw_state)).
Proof.
  unfold tick. unfold mbind at 1, eff_bind at 1, locked, Balancer.tick.
  destruct (b_closed (pw_state (cs_pool s))); [by intros [= <- _]|].
  intros ([] & s1 & _ & ([] & s2 & _ & [= <- _])%bind_done)%bind_done. done.
Qed.

Lemma tick_in_use t :
  in_use t -> exists s, tick kerberos gss_new gss_step sha384 sha512 B self t.(shared) = (Ok (negb (closed t)), s)
    /\ in_use {| shared := s; held := t.(held) |} /\ (closed t = true -> b_closed s.(cs_pool).(pw_state) = true).
Proof.
  intros Ht. pose proof Ht as [Hi [_ Hh]].
  pose proof (tick_goes kerberos gss_new gss_step sha384 sha512 B self _ gss_new_returns gss_step_returns Hi _ _ _ Hh) as Hg.
  destruct (uses_in_use t [Tick] Ht ltac:(by repeat constructor)) as [Hu _].
  pose proof (uses_closed t [Tick] Ht ltac:(by repeat constructor)) as Hc.
  cbn [run_uses fold_left PoolConns.run_use] in Hu, Hc.
  destruct (tick _ _ _ _ _ _ _ (shared t)) as [[b|e| |] s] eqn:E; try done. exists s.
  by rewrite <- (tick_verdict _ _ _ E).
Qed.

Lemma maintain_in_use uss t :
  in_use t -> Forall (Forall use_text) uss ->
  exists b t', maintain (map Some uss) t = (Ok b, t') /\ in_use t'
    /\ (b = false -> closed t' = true) /\ (Exists (elem_of Shut) uss -> b = false).
Proof.
  intros Ht Hus. revert t Ht. induction Hus as [|us uss Hus _ IH]; intros t Ht; cbn [maintain map].
  { exists true, t. split_and!; [done|done|done|]. by intros ?%Exists_nil. }
  destruct (uses_in_use t us Ht Hus) as [Hu _]. destruct (tick_in_use _ Hu) as (s & -> & Hs & Hc).
  destruct (closed (run_uses us t)) eqn:Ec; cbn [negb].
  { exists false, {| shared := s; held := held (run_uses us t) |}. split_and!; [done|done|by intros _; apply Hc|done]. }
  destruct (IH _ Hs) as (b & t' & E & Ht' & Hb & Hx). exists b, t'. split_and!; [done|done|done|].
  intros [He|He]%Exists_cons; [|by apply Hx]. by rewrite (shut_among t us Ht Hus He) in Ec.
Qed.

(** The background thread never panics and lives as long as the pool: it ends
    when it first wakes after the pool was closed, leaving no connection in it,
    and for no other reason while somebody has the pool. *)
Theorem maintainer_lives_as_pool now rng instants sp p w clock uss :
  build B now rng instants sp = Ok p -> net_ok w -> Forall (Forall use_text) uss ->
  exists b t, maintain (map Some uss) (fresh_pool p w clock) = (Ok b, t)
    /\ (Exists (elem_of Shut) uss -> b = false)
    /\ (b = false -> b_closed t.(shared).(cs_pool).(pw_state) = true /\ t.(shared).(cs_idle) = ∅).
Proof.
  intros Hb Hw Hus. pose proof (fresh_in_use _ _ _ _ _ _ clock Hb Hw) as Hf.
  destruct (maintain_in_use uss _ Hf Hus) as (b & t & E & Ht & Hc & Hx). exists b, t. split_and!; [done|done|].
  intros Eb. split; [by apply Hc|]. by apply closed_is_empty; [|apply Hc].
Qed.

(** ** A checkout that fails *)

Lemma order_covers first st ep : ep ∈ (b_members st).*1 -> ep ∈ (order first None st).1.
Proof.
  intros Hin. destruct (order_parts first None st) as (us & rs & Hus & Hrs & ->). cbn zeta.
  rewrite !elem_of_app, Hus, Hrs. apply list_elem_of_fmap in Hin as ([k m] & -> & Hin). cbn [fst].
  destruct (decide (Some k = first)) as [<-|Hne]; [left; by apply list_elem_of_singleton|right].
  assert (Ho : (k, m) ∈ List.filter (fun em => negb (bool_decide (Some em.1 = first))) (b_members st)).
  { apply list_elem_of_In, filter_In. split; [by apply list_elem_of_In|]. cbn. by rewrite bool_decide_false. }
  destruct (is_usable (k, m)) eqn:Hu; [left|right]; apply list_elem_of_fmap; exists (k, m); (split; [done|]);
    apply list_elem_of_In, filter_In; (split; [by apply list_elem_of_In|]); by rewrite Hu.
Qed.

Lemma send_hello_link lk : keeps (fun s : Session PoolWorld => s.(client).(link) = lk) send_hello.
Proof.
  assert (Hc : forall A (m : eff DriverError Stream A), keeps (fun s : Session PoolWorld => s.(client).(link) = lk) (on_conn m)).
  { intros A m. by apply keeps_zoom. }
  apply keeps_bind; [apply keeps_attempt, Hc|]. intros [[]|e]; [|apply keeps_ret].
  apply keeps_bind; [apply keeps_attempt, Hc|]. intros x. apply keeps_ret.
Qed.

Lemma open_from_link ordered eps lg lk last x s y :
  open_from kerberos gss_new gss_step sha384 sha512 ordered eps lg lk last x = (Ok s, y) ->
  exists ep, s.(client).(link) = set_member ep <$> lk.
Proof.
  revert last x. induction eps as [|ep eps IH]; intros last x; cbn [open_from]; [done|].
  intros ([st|e] & [w1 p1] & _ & Ho)%bind_done.
  - unfold start_session in Ho. set (s0 := {| client := _ |}) in Ho.
    pose proof (send_hello_link (set_member ep <$> lk) s0 eq_refl) as Hl.
    destruct (send_hello s0) as [r s1]. destruct r; try done. injection Ho as <- _. by exists ep.
  - apply bind_done in Ho as ([] & x2 & _ & Ho). by apply IH in Ho.
Qed.

Lemma drop_stale_world w stale : keeps (fun s => s.(cs_world) = w) (drop_stale self stale).
Proof.
  induction stale as [|c stale IH]; cbn [drop_stale for_all]; [apply keeps_ret|].
  apply keeps_bind; [|intros []; exact IH]. apply keeps_bind.
  - intros s Hs. unfold take_client. by destruct (cs_idle s !! c_id c).
  - intros cl. apply keeps_bind; [by apply keeps_changes|]. intros []. destruct (link cl) as [l|]; [|apply keeps_ret].
    destruct (_ && _); [|apply keeps_ret]. by intros s Hs.
Qed.

Lemma plan_covers now affinity st ord stale st' :
  checkout_plan opts now affinity st = (Dial ord stale, st') -> forall ep, ep ∈ (b_members st).*1 -> ep ∈ ord.
Proof.
  unfold checkout_plan. destruct (b_closed st); [done|]. pose proof (pick_same opts now affinity st) as [Hm _].
  destruct (pick _ _ _ _) as [target st1]. destruct (take_idle opts target st1) as [[[c|] stl] st2] eqn:E; [done|].
  apply take_idle_parts in E as (_ & E & _). destruct (order target None st2) as [o st3] eqn:Eo.
  intros [= -> _ _] ep Hin. replace ord with (order target None st2).1 by by rewrite Eo.
  apply order_covers. rewrite E. cbn [snd] in Hm. by rewrite <- Hm in Hin.
Qed.

(** A new connection, to no database and asked for no member list, is handed
    out: what fails is dialing every one. *)
Lemma dialed_or_failed (again : eff DriverError Conns Conn) ord affinity s e s' :
  B.(b_database) = None -> opts.(discover) = false ->
  (c ← PoolConns.dial kerberos gss_new gss_step sha384 sha512 B self ord true;
   c ← discover_through kerberos gss_new gss_step sha384 sha512 B c;
   if broken c then _ ← drop_conn self c; again
   else n ← next_number; hand_out affinity n c) s = (Err e, s') ->
  dials_fail kerberos gss_new gss_step sha384 sha512 ord B.(b_login) s.(cs_world) s'.(cs_world)
  /\ exists cause, e = NoEndpoint (default [] (list.last ord)) cause.
Proof.
  intros Hdb Hd. unfold PoolConns.dial. rewrite Hdb. unfold mbind at 1, eff_bind at 1. unfold mbind at 1, eff_bind at 1.
  unfold open_conn. destruct (open _ _ _ _ _ ord _ _ _) as [r [w1 p1]] eqn:Eo. unfold open in Eo.
  destruct r as [s3|e1| |]; try done.
  - destruct (open_from_link _ _ _ _ _ _ _ _ Eo) as [ep El]. cbn [fmap res_fmap].
    unfold mbind at 1, eff_bind at 1, discover_through, mbind at 1, eff_bind at 1, spawns, reads_state.
    unfold mbind at 1, eff_bind at 1, locked at 1, Balancer.discover_through. rewrite Hd. cbn [negb orb fst snd].
    unfold mret, eff_ret, broken. cbn [with_consistency link]. rewrite El. cbn [fmap option_fmap option_map set_member l_broken link_new].
    unfold next_number, hand_out, mbind, eff_bind, locked. by destruct (checkout_commit _ _ _).
  - cbn [fmap res_fmap]. intros [= -> <-]. destruct (open_from_fails _ _ _ _ _ _ _ _ _ _ _ _ _ _ Eo) as (Hf & text & cause & -> & Hl).
    split; [exact Hf|]. exists cause. destruct (list.last ord) as [ep|]; [by destruct Hl as [-> _]|by injection Hl as -> _].
Qed.


End returning.
End uses.

(** ** Witnesses *)

Lemma closed_pool_hands_out_nothing_witness :
  exists t', run_use false no_gss_new no_gss_step sha256 sha256 wit_builder 1 (Checkout None)
               (run_uses false no_gss_new no_gss_step sha256 sha256 wit_builder 1 [Tick]
                  (run_use false no_gss_new no_gss_step sha256 sha256 wit_builder 1 Shut (wit_run wit_uses)).2)
             = (Err (NoEndpoint (str "pool is closed") None), t').
Proof.
  destruct (closed_pool_hands_out_nothing false no_gss_new no_gss_step sha256 sha256 wit_builder 1
              (fun _ _ => I) (fun _ _ => I) 0 1 [SEC; SEC; SEC] false wit_built wit_members [] wit_uses [Tick] None)
    as (_ & _ & t' & E & _).
  - by vm_compute.
  - exact wit_members_ok.
  - repeat constructor.
  - exists t'. exact E.
Defined.


Lemma maintainer_lives_as_pool_witness :
  exists t, maintain false no_gss_new no_gss_step sha256 sha256 wit_builder 1 (map Some [[Checkout None]; [Shut]; []])
              (fresh_pool wit_built wit_members []) = (Ok false, t)
    /\ t.(shared).(cs_idle) = ∅.
Proof.
  destruct (maintainer_lives_as_pool false no_gss_new no_gss_step sha256 sha256 wit_builder 1
              (fun _ _ => I) (fun _ _ => I) 0 1 [SEC; SEC; SEC] false wit_built wit_members []
              [[Checkout None]; [Shut]; []]) as (b & t & E & Hx & Hc).
  - by vm_compute.
  - exact wit_members_ok.
  - repeat constructor.
  - assert (Eb : b = false) by (apply Hx, Exists_cons_tl, Exists_cons_hd, list_elem_of_singleton; reflexivity).
    rewrite Eb in E. exists t. split; [exact E|]. apply (Hc Eb).
Defined.
