(* ===== verification/ReadWrites.v ===== *)
(** * Read-your-writes, whoever else uses the pool

    The window a successful write opens for its key ([Session]'s
    [observe_statement], [Balancer.wrote]), through every interleaving of
    [BalancerSteps]: what can end it, and where checkouts under the key go
    until then. *)
From stdpp Require Import gmap relations.
From S2P Require Import Prelude Bytes Text BTree Value Message Frame Crypto Effect Sql Rng Login Session SessionCalls Balancer Discovery BalancerSteps.
#[local] Open Scope Z_scope.

Section windows.
Context (opts : PoolOptions) (self : Z).
Implicit Types (st : BalancerState) (w : World) (key : option bytes).

(** ** The steps that touch the windows *)

(** What a step does to the table of windows: it plans a checkout, it notes a
    write, or it leaves the table alone. *)
Inductive turn := Plans (now : Z) (key : option bytes) | Writes (now : Z) (key : option bytes) (ep : bytes) | Elsewhere.

Definition table_after (t : turn) st : gmap (option bytes) (bytes * Z) :=
  match t with
  | Plans now key => b_affinity (pick opts now key st).2
  | Writes now key ep => b_affinity (wrote opts now key ep st)
  | Elsewhere => b_affinity st
  end.

(** A run of the pool, with each step's turn and the state it found. *)
Inductive run : list (turn * BalancerState) -> World -> World -> Prop :=
| run_done w : run [] w w
| run_step t l w1 w2 w3 :
    world_step opts self w1 w2 -> b_affinity w2.(w_state) = table_after t w1.(w_state) -> run l w2 w3 ->
    run ((t, w1.(w_state)) :: l) w1 w3.

(** *** Every step has a turn *)

Abbreviation same_table st st' := (b_affinity st' = b_affinity st).

Lemma maintainer_table spawned st : same_table st (ensure_maintainer spawned st).
Proof. unfold ensure_maintainer. by repeat case_match. Qed.

Lemma eject_table spawned now ep st : same_table st (eject opts spawned now ep st).
Proof.
  unfold eject. destruct (negb _); [done|]. destruct (bt_get ep _); [|done].
  by rewrite maintainer_table.
Qed.

Lemma reattribute_table st l connected : same_table st (reattribute st l connected).1.
Proof. unfold reattribute. destruct (bool_decide _), (l_out l); done. Qed.

Lemma round_trip_table spawned now l connected elapsed st :
  same_table st (round_trip opts spawned now l connected elapsed st).1.
Proof.
  pose proof (reattribute_table st l connected) as H1.
  destruct (round_trip_members opts spawned now l connected elapsed st) as (_ & [->|[->|[-> _]]]); [done|done|].
  by rewrite eject_table.
Qed.

Lemma failed_table spawned now ep st : same_table st (failed opts spawned now ep st).
Proof. destruct (failed_members opts spawned now ep st) as [->|[->|[-> _]]]; [done|done|]. by rewrite eject_table. Qed.

Lemma checkin_table c st : same_table st (checkin opts self c st).1.
Proof.
  unfold checkin. destruct (c_link c) as [l|]; [|done]. destruct (_ =? _); [|done].
  destruct (_ && _ && _ && _), (l_out l); done.
Qed.

Lemma commit_table key c st : same_table st (checkout_commit key c st).2.
Proof. unfold checkout_commit. by destruct (c_link c). Qed.

Lemma take_idle_table target st picked stale st' : take_idle opts target st = (picked, stale, st') -> same_table st st'.
Proof. intros (_ & -> & _)%take_idle_parts. done. Qed.

Lemma order_table first lost st : same_table st (order first lost st).2.
Proof. unfold order. by destruct (shuffle _ _). Qed.

Lemma plan_table now key st p st' :
  checkout_plan opts now key st = (p, st') -> p <> Closed -> b_affinity st' = table_after (Plans now key) st.
Proof.
  unfold checkout_plan, table_after. destruct (b_closed st); [by intros [= <- _]|].
  destruct (pick opts now key st) as [target st1]. destruct (take_idle opts target st1) as [[[c|] stale] st2] eqn:E;
    apply take_idle_table in E.
  - by intros [= _ <-] _.
  - pose proof (order_table target None st2) as Ho. destruct (order target None st2). cbn [snd] in *.
    intros [= _ <-] _. congruence.
Qed.

Lemma probe_table now probed ep st : same_table st (probe opts self now probed ep st).
Proof.
  unfold probe. destruct (bt_get ep _); [|done]. destruct probed, (b_closed st); try done.
  by destruct (_ <? _)%nat.
Qed.

Lemma tick_table now st due refresh st' : tick opts now st = Some (due, refresh, st') -> same_table st st'.
Proof. unfold tick. destruct (b_closed st); [done|]. by intros [= _ _ <-]. Qed.

Lemma discover_table spawned ep st : same_table st (discover_through opts spawned ep st).2.
Proof.
  unfold discover_through. destruct (_ || _); [done|]. destruct (bt_get ep _) as [m|]; [|done].
  destruct (is_none _); [|done]. cbn [snd]. by rewrite maintainer_table.
Qed.

Lemma listing_table now dialed l st : same_table st (list_through opts now dialed l st).
Proof. by destruct l as [[|]| | |]. Qed.

Lemma every_step_a_turn w w' :
  world_step opts self w w' -> exists t, b_affinity w'.(w_state) = table_after t w.(w_state).
Proof.
  intros []; cbn [w_state].
  - eexists (Plans _ _). rewrite commit_table. eapply plan_table; [eassumption|done].
  - eexists (Plans _ _). eapply plan_table; [eassumption|done].
  - exists Elsewhere. apply commit_table.
  - exists Elsewhere. apply checkin_table.
  - by exists Elsewhere.
  - exists Elsewhere. apply round_trip_table.
  - exists Elsewhere. apply round_trip_table.
  - exists Elsewhere. apply reattribute_table.
  - by exists Elsewhere.
  - exists Elsewhere. apply order_table.
  - exists Elsewhere. apply failed_table.
  - by eexists (Writes _ _ _).
  - exists Elsewhere. by eapply tick_table.
  - exists Elsewhere. apply probe_table.
  - exists Elsewhere. apply discover_table.
  - exists Elsewhere. apply listing_table.
  - by exists Elsewhere.
  - by exists Elsewhere.
  - by exists Elsewhere.
Qed.

(** The runs are exactly the interleavings. *)
Lemma interleavings_are_runs w w' : rtc (world_step opts self) w w' <-> exists l, run l w w'.
Proof.
  split.
  - induction 1 as [w|w1 w2 w3 Hs _ [l Hl]]; [by exists []; constructor|].
    destruct (every_step_a_turn _ _ Hs) as [t Ht]. eexists. by econstructor.
  - intros [l Hl]. induction Hl as [w|t l w1 w2 w3 Hs _ _ IH]; [done|]. by eapply rtc_l.
Qed.

(** ** A window stays open *)

(** Before [until], no other write under [key], and the member still known
    whenever a checkout under [key] is planned (it may be ejected). *)
Definition undisturbed key (ep : bytes) (until : Z) (e : turn * BalancerState) : Prop :=
  match e with
  | (Plans now k, st) => now < until /\ (k = key -> bt_get ep (b_members st) <> None)
  | (Writes now k _, _) => now < until /\ k <> key
  | (Elsewhere, _) => True
  end.

Lemma pick_table now k st :
  b_affinity (pick opts now k st).2 = b_affinity (pick_affinity opts now k st).2.
Proof.
  unfold pick. destruct (pick_affinity opts now k st) as [[ep|] st1]; [done|].
  repeat (case_match; simplify_eq/=); done.
Qed.

Lemma turn_keeps key ep until t st :
  undisturbed key ep until (t, st) -> b_affinity st !! key = Some (ep, until) ->
  table_after t st !! key = Some (ep, until).
Proof.
  intros Hu Hk. destruct t as [now k|now k ep'|]; cbn [table_after]; [| |done].
  - destruct Hu as [Hn Hm]. rewrite pick_table. unfold pick_affinity. destruct (_ =? 0); [done|].
    destruct (b_affinity st !! k) as [[e u]|] eqn:E; [|done].
    destruct (decide (k = key)) as [->|Hne].
    + rewrite Hk in E. injection E as <- <-. specialize (Hm eq_refl).
      destruct (bt_get ep (b_members st)) as [m|]; [|done]. rewrite (proj2 (Z.ltb_lt _ _)) by done.
      by destruct (usable m).
    + destruct (bt_get e (b_members st)) as [m|]; [destruct (now <? u); [by destruct (usable m)|]|];
        cbn [snd b_affinity with_affinity]; by rewrite lookup_delete_ne.
  - destruct Hu as [Hn Hne]. unfold wrote. cbn [b_affinity with_affinity]. rewrite lookup_insert_ne by done.
    destruct (AFFINITY_CAP <=? size (b_affinity st))%nat; [|done]. by apply map_lookup_filter_Some.
Qed.

Lemma run_keeps key ep until l w w' :
  run l w w' -> Forall (undisturbed key ep until) l ->
  b_affinity w.(w_state) !! key = Some (ep, until) -> b_affinity w'.(w_state) !! key = Some (ep, until).
Proof.
  induction 1 as [w|t l w1 w2 w3 _ Ht _ IH]; [done|]. intros [Hu Hl]%Forall_cons Hk.
  apply IH; [done|]. rewrite Ht. by eapply turn_keeps.
Qed.

(** Where a checkout under [key] goes while the window is open. *)
Lemma window_leads key ep until now m st :
  read_your_writes opts <> 0 -> b_affinity st !! key = Some (ep, until) -> now < until ->
  bt_get ep (b_members st) = Some m -> usable m = true -> b_closed st = false ->
  match (checkout_plan opts now key st).1 with
  | UseIdle c _ => idle_ep c = ep
  | Dial order _ => head order = Some ep
  | Closed => False
  end.
Proof.
  intros Hr Hk Hn Hm Hus Hc.
  assert (Hp : pick opts now key st = (Some ep, st)).
  { unfold pick, pick_affinity. rewrite (proj2 (Z.eqb_neq _ _)), Hk, Hm, (proj2 (Z.ltb_lt _ _)) by done. by rewrite Hus. }
  unfold checkout_plan. rewrite Hc, Hp. destruct (take_idle opts (Some ep) st) as [[[c|] stale] st2] eqn:E.
  - apply take_idle_parts in E as (_ & _ & Hf & _). by apply (Hf c eq_refl).
  - destruct (order_parts (Some ep) None st2) as (us & rs & _ & _ & Ho).
    destruct (order (Some ep) None st2) as [eps st3]. cbn [fst] in *. by rewrite Ho.
Qed.

End windows.

(** ** Properties *)

Section reads.
Context {G : Type} (kerberos : bool)
  (gss_new : bytes -> option bytes -> res bytes (G * bytes))
  (gss_step : G -> bytes -> res bytes (ClientStep G))
  (sha384 sha512 : bytes -> bytes).

(** A statement observed on a connection that is out is noted in its pool. *)
Lemma observed_is_noted sql lk (s s' : Session PoolWorld) :
  observe_statement sql s = (Ok tt, s') -> s'.(client).(link) = Some lk -> lk.(l_out) = true -> is_write sql = Ok true ->
  read_your_writes s'.(pool).(pw_opts) <> 0 ->
  s'.(client) = s.(client)
  /\ s'.(pool) = pool_step (fun now st => wrote s'.(pool).(pw_opts) now lk.(l_affinity) s'.(client).(connected) st) s.(pool).
Proof.
  unfold observe_statement. intros Ho Hl Hout Hw Hr.
  destruct (link (client s)) as [l|] eqn:El; [|injection Ho as <-; congruence].
  destruct (l_out l && pool_read_your_writes (l_pool l) (pool s)) eqn:Eo.
  - rewrite Hw in Ho. injection Ho as <-. cbn [client with_pool] in Hl. rewrite El in Hl. by injection Hl as ->.
  - injection Ho as <-. rewrite El in Hl. injection Hl as ->. rewrite Hout in Eo. cbn [andb pool_read_your_writes balancer_pool] in Eo.
    by apply negb_false_iff, Z.eqb_eq in Eo.
Qed.


End reads.

(** ** A window with others at work *)

(** A pool's connection to [A], out under a key, that answers a write; then
    another member fails and is ejected, another session's write is noted, and
    the session reads. *)
Definition wit_key : option bytes := Some [x01].
Definition wit_writer : Session PoolWorld := {|
  client := client_new [A; C] wit_login (Some (set_out true wit_key (link_new 1))) A
              (wit_stream (frame (encode_response (Mutation 1))));
  world := wit_world [];
  pool := {| pw_opts := sticky_options; pw_state := sample_state; pw_now := [1; 2]; pw_spawns := false |};
  clock := []; dropped := [] |}.
Definition wit_insert : bytes := str "INSERT INTO t VALUES (1)".
Definition wit_written : res DriverError Response * Session PoolWorld :=
  execute_with false no_gss_new no_gss_step sha256 sha256 wit_insert Quorum wit_writer.

