(* ===== verification/Abi.v ===== *)
(** * The C library's memory

    What [skaidb-ffi/src/lib.rs] shares with its C callers: a store of blocks,
    each allocated and freed on its own, pointers into them, the thread's last
    error, and the helpers every exported function is written with.  Reading
    through a pointer that is not to a live block of its type is undefined
    behaviour, an outcome of its own. *)
From stdpp Require Import gmap.
From S2P Require Import Prelude Bytes Text Value Message Effect Balancer Login Session RowStream FactoryPool PoolConns.
#[local] Open Scope Z_scope.

(** ** Statuses *)

Inductive skaidb_status :=
| SKAIDB_OK | SKAIDB_END | SKAIDB_ERR_INVALID | SKAIDB_ERR_IO | SKAIDB_ERR_PROTO | SKAIDB_ERR_SERVER
| SKAIDB_ERR_AUTH | SKAIDB_ERR_NO_ENDPOINT | SKAIDB_ERR_UNSUPPORTED.

#[export] Instance skaidb_status_eq_dec : EqDecision skaidb_status.
Proof. solve_decision. Defined.

(** ** Blocks and pointers *)

Abbreviation addr := positive.

(** A pointer into a block: the indices that lead to what it points to. *)
Record place := { base : addr; path : list nat }.

(** [None] is NULL. *)
Abbreviation ptr := (option place).

Definition at_addr (a : addr) : place := {| base := a; path := [] |}.
Definition inside (p : place) (i : list nat) : place := {| base := p.(base); path := p.(path) ++ i |}.

(** A result set as C reads it: every column name is a C string of its own. *)
Record RowSet := { columns : list addr; rows : list (list Value) }.

Inductive skaidb_result :=
| Rows (rs : RowSet)
| Mutation (affected : Z)
| Ddl
| Error (message : addr)
| Sets (sets : list skaidb_result).

Record skaidb_stream := {
  stream : RowStream;
  stream_client : addr;
  stream_columns : list addr;
  past_columns : list (list addr);
  current : addr;
  current_ptrs : addr;
}.

Record skaidb_tls := { verify : Z; ca_file : ptr; server_name : ptr }.

(** A pool.  A plain one opens connections with what it was made of; a
    balanced one's state is the process's, under its number ([self]). *)
Inductive skaidb_pool :=
| Plain (pool : Factory Client) (eps : list bytes) (login : Login) (db : option bytes)
| Balanced (builder : PoolBuilder) (self : Z) (idle : gmap Z Client) (next : Z).

Record skaidb_pool_options := {
  o_maxsize : nat;
  o_load_balancing : Z;
  o_idle_order : Z;
  o_discover : bool;
  o_refresh_interval_ms : Z;
  o_read_your_writes_ms : Z;
  o_eject_errors : Z;
  o_eject_latency_factor : Z;
  o_eject_latency_floor_ms : Z;
  o_eject_backoff_ms : Z;
  o_eject_backoff_max_ms : Z;
}.

(** One member as C reads it; the state is a string of the library's own. *)
Record skaidb_member := {
  mb_endpoint : addr;
  mb_canonical : option addr;
  mb_state : bytes;
  mb_latency_ms : Z;
  mb_in_use : nat;
  mb_idle : nat;
  mb_seed : bool;
}.

Record skaidb_members := { strings : list addr; items : list skaidb_member }.

(** What a block holds: the caller's memory (bytes, arrays of pointers and of
    numbers, TLS settings and a pool's options) and the library's objects. *)
Inductive block :=
| Memory (s : bytes)
| Pointers (l : list ptr)
| Numbers (l : list Z)
| Settings (t : skaidb_tls)
| AValue (v : Value)
| ARow (vs : list Value)
| AResult (r : skaidb_result)
| Results (rs : list skaidb_result)
| AClient (c : Client)
| APrepared (p : Prepared)
| AStream (s : skaidb_stream)
| Options (o : skaidb_pool_options)
| APool (p : skaidb_pool)
| AMembers (m : skaidb_members).

Inductive verify_mode := CaFile (path : bytes) | System | Insecure.

(** Why a call stops: with a status for its caller, or undefined. *)
Inductive stop := Status (s : skaidb_status) | Undefined.

Section abi.
Context {P : Type} `{Pool P}.
(** How the standard library words an I/O error. *)
Context (io_text : io_error -> bytes).

(** One thread of the program: its memory, the address the next block gets,
    its two C strings, and the world its clients live in. *)
Record Lib := {
  heap : gmap addr block;
  next : addr;
  LAST_ERROR : addr;
  KEY_SCRATCH : addr;
  lib_world : World;
  lib_pool : P;
  lib_clock : list Z;
  lib_dropped : list Stream;
}.

Definition with_heap h l := {|
  heap := h; next := l.(next); LAST_ERROR := l.(LAST_ERROR); KEY_SCRATCH := l.(KEY_SCRATCH);
  lib_world := l.(lib_world); lib_pool := l.(lib_pool); lib_clock := l.(lib_clock);
  lib_dropped := l.(lib_dropped) |}.
Definition with_block a b l := with_heap (<[a := b]> l.(heap)) l.
Definition with_fresh l := {|
  heap := l.(heap); next := Pos.succ l.(next); LAST_ERROR := l.(LAST_ERROR);
  KEY_SCRATCH := l.(KEY_SCRATCH); lib_world := l.(lib_world); lib_pool := l.(lib_pool);
  lib_clock := l.(lib_clock); lib_dropped := l.(lib_dropped) |}.
Definition with_last_error a l := {|
  heap := l.(heap); next := l.(next); LAST_ERROR := a; KEY_SCRATCH := l.(KEY_SCRATCH);
  lib_world := l.(lib_world); lib_pool := l.(lib_pool); lib_clock := l.(lib_clock);
  lib_dropped := l.(lib_dropped) |}.
Definition with_key_scratch a l := {|
  heap := l.(heap); next := l.(next); LAST_ERROR := l.(LAST_ERROR); KEY_SCRATCH := a;
  lib_world := l.(lib_world); lib_pool := l.(lib_pool); lib_clock := l.(lib_clock);
  lib_dropped := l.(lib_dropped) |}.

Abbreviation call A := (eff stop Lib A).

Definition undefined {A} : call A := raise Undefined.

(** A [Result<T, skaidb_status>] that the function turns into its status. *)
Definition status (m : call skaidb_status) : call skaidb_status :=
  handle m (fun e => match e with Status s => mret s | Undefined => undefined end).

(** ** Memory *)

(** Addresses are not used twice: a pointer to a freed block stays dangling. *)
Definition alloc (b : block) : call addr := fun l => (Ok l.(next), with_fresh (with_block l.(next) b l)).

Definition load (a : addr) : call block := fun l =>
  match l.(heap) !! a with Some b => (Ok b, l) | None => (Err Undefined, l) end.

Definition store (a : addr) (b : block) : call unit := changes (with_block a b).

(** [drop(Box::from_raw(p))]; the destructors of what the block owns are the
    caller's. *)
Definition free (a : addr) : call unit :=
  _ ← load a; changes (fun l => with_heap (delete a l.(heap)) l).

(** Entry of an array: [path] may start inside it. *)
Definition entry (p : list nat) (i : nat) : option nat :=
  match p with [] => Some i | [k] => Some (k + i)%nat | _ => None end.

(** [*p.add(i)] of an array of pointers, and the writes through [out]. *)
Definition load_ptr (p : place) (i : nat) : call ptr :=
  b ← load p.(base);
  match b, entry p.(path) i with
  | Pointers l, Some k => match l !! k with Some x => mret x | None => undefined end
  | _, _ => undefined
  end.

Definition store_ptr (p : place) (x : ptr) : call unit :=
  b ← load p.(base);
  match b, entry p.(path) 0 with
  | Pointers l, Some k =>
      if (k <? length l)%nat then store p.(base) (Pointers (<[k := x]> l)) else undefined
  | _, _ => undefined
  end.

Definition store_num (p : place) (x : Z) : call unit :=
  b ← load p.(base);
  match b, entry p.(path) 0 with
  | Numbers l, Some k =>
      if (k <? length l)%nat then store p.(base) (Numbers (<[k := x]> l)) else undefined
  | _, _ => undefined
  end.

(** ** What a pointer is to *)

Fixpoint value_in (v : Value) (q : list nat) : option Value :=
  match q with
  | [] => Some v
  | i :: q =>
      match v with
      | VArray items => match items !! i with Some v => value_in v q | None => None end
      | VDocument doc => match doc !! i with Some kv => value_in kv.2 q | None => None end
      | _ => None
      end
  end.

Definition value_in_row (vs : list Value) (q : list nat) : option Value :=
  match q with
  | i :: q => match vs !! i with Some v => value_in v q | None => None end
  | [] => None
  end.

(** A cell is at its row and column, a set at its index. *)
Fixpoint result_in (r : skaidb_result) (q : list nat) : option (skaidb_result * list nat) :=
  match r, q with
  | Sets sets, i :: q => match sets !! i with Some r => result_in r q | None => None end
  | _, q => Some (r, q)
  end.

Definition result_of_block (b : block) (q : list nat) : option (skaidb_result * list nat) :=
  match b, q with
  | AResult r, q => result_in r q
  | Results rs, i :: q => match rs !! i with Some r => result_in r q | None => None end
  | _, _ => None
  end.

Definition result_of (b : block) (q : list nat) : option skaidb_result :=
  match result_of_block b q with Some (r, []) => Some r | _ => None end.

Definition value_of (b : block) (q : list nat) : option Value :=
  match b with
  | AValue v => value_in v q
  | ARow vs => value_in_row vs q
  | b =>
      match result_of_block b q with
      | Some (Rows rs, i :: q) => match rs.(rows) !! i with Some vs => value_in_row vs q | None => None end
      | _ => None
      end
  end.

(** The bytes at a pointer, to the end of their block. *)
Definition bytes_of (b : block) (q : list nat) : option bytes :=
  match b with
  | Memory s =>
      match entry q 0 with
      | Some k => if (k <=? length s)%nat then Some (drop k s) else None
      | None => None
      end
  | b => match value_of b q with Some (VString s | VBytes s | VUuid s) => Some s | _ => None end
  end.

Definition look {A} (f : block -> list nat -> option A) (p : place) : call A :=
  b ← load p.(base); match f b p.(path) with Some a => mret a | None => undefined end.

(** ** C strings *)

Definition NUL : byte := x00.

(** [CStr::from_ptr]: up to the first NUL. *)
Definition c_str (p : place) : call bytes :=
  s ← look bytes_of p;
  match split_once NUL s with Some (s, _) => mret s | None => undefined end.

(** The block of a [CString]. *)
Definition terminated (s : bytes) : block := Memory (s ++ [NUL]).

(** U+FFFD. *)
Definition REPLACEMENT : bytes := [xef; xbf; xbd].

(** [CString::new], or the string with every NUL replaced. *)
Definition c_string_lossy (s : bytes) : bytes := flat_map (fun b => if decide (b = NUL) then REPLACEMENT else [b]) s.

Definition set_error (msg : bytes) : call unit :=
  let msg := if bool_decide (NUL ∈ msg) then str "error message held a NUL byte" else msg in
  a ← alloc (terminated msg);
  old ← reads_state LAST_ERROR;
  _ ← changes (with_last_error a);
  free old.

(** [Err(fail(status, msg))]. *)
Definition fail {A} (s : skaidb_status) (msg : bytes) : call A := _ ← set_error msg; raise (Status s).

(** ** Errors of the driver *)

Definition contains (needle s : bytes) : bool :=
  existsb (fun i => has_prefix needle (drop i s)) (seq 0 (S (length s))).

Definition driver_status (e : DriverError) : skaidb_status :=
  match e with
  | Io _ => SKAIDB_ERR_IO
  | Proto _ => SKAIDB_ERR_PROTO
  | Server _ => SKAIDB_ERR_SERVER
  | Auth m => if contains (str "without Kerberos") m then SKAIDB_ERR_UNSUPPORTED else SKAIDB_ERR_AUTH
  | NoEndpoint _ _ => SKAIDB_ERR_NO_ENDPOINT
  end.

(** [DriverError::to_string]. *)
Fixpoint driver_text (e : DriverError) : bytes :=
  match e with
  | Io e => str "connection error: " ++ io_text e
  | Proto (Malformed what) => str "protocol error: malformed message: " ++ what
  | Server m => str "server error: " ++ m
  | Auth m => str "authentication failed: " ++ m
  | NoEndpoint text None => str "no endpoint reachable: " ++ text
  | NoEndpoint text (Some e) => str "no endpoint reachable: " ++ text ++ str ": " ++ driver_text e
  end.

Definition fail_driver {A} (e : DriverError) : call A := fail (driver_status e) (driver_text e).

(** ** Arguments *)

Definition cstr (p : ptr) (what : bytes) : call bytes :=
  match p with
  | None => fail SKAIDB_ERR_INVALID (what ++ str " is NULL")
  | Some p =>
      s ← c_str p;
      if utf8_valid s then mret s else fail SKAIDB_ERR_INVALID (what ++ str " is not valid UTF-8")
  end.

Definition cstr_opt (p : ptr) (what : bytes) : call (option bytes) :=
  match p with None => mret None | Some _ => s ← cstr p what; mret (Some s) end.

(** [for i in 0..n] over an array, [i] counting up. *)
Fixpoint gather {A} (f : nat -> call A) (i n : nat) : call (list A) :=
  match n with
  | O => mret []
  | S n => a ← f i; l ← gather f (S i) n; mret (a :: l)
  end.

Definition cstr_list (items : ptr) (n : nat) (what : bytes) : call (list bytes) :=
  match n, items with
  | O, _ => mret []
  | _, None => fail SKAIDB_ERR_INVALID (what ++ str " is NULL")
  | _, Some p => gather (fun i => x ← load_ptr p i; cstr x what) 0 n
  end.

Definition params_slice (params : ptr) (n : nat) : call (list Value) :=
  match n, params with
  | O, _ => mret []
  | _, None => fail SKAIDB_ERR_INVALID (str "params is NULL")
  | _, Some p =>
      gather (fun i =>
        x ← load_ptr p i;
        match x with
        | None => fail SKAIDB_ERR_INVALID (str "params[" ++ to_dec (Z.of_nat i) ++ str "] is NULL")
        | Some v => look value_of v
        end) 0 n
  end.

(** [consistency_of]; a C [int] outside the enumeration is undefined. *)
Definition consistency_of (c : Z) : call Consistency :=
  match c with 0 => mret One | 1 => mret Quorum | 2 => mret All | _ => undefined end.

(** ** Results of a call *)

Definition dup (s : bytes) : call ptr :=
  a ← alloc (terminated (c_string_lossy s)); mret (Some (at_addr a)).

(** Run [f] and give its block to [out]; on an error [out] is not written. *)
Definition boxed {A} (mk : A -> block) (out : ptr) (f : call A) : call skaidb_status :=
  status
    match out with
    | None => fail SKAIDB_ERR_INVALID (str "out is NULL")
    | Some out => v ← f; a ← alloc (mk v); _ ← store_ptr out (Some (at_addr a)); mret SKAIDB_OK
    end.

Definition skaidb_last_error : call ptr := a ← reads_state LAST_ERROR; mret (Some (at_addr a)).

Definition skaidb_string_free (s : ptr) : call unit :=
  match s with
  | None => mret tt
  | Some {| base := a; path := [] |} => b ← load a; match b with Memory _ => free a | _ => undefined end
  | Some _ => undefined
  end.

End abi.
Arguments Lib P : clear implicits.
