(* ===== verification/AbiHeap.v ===== *)
(** * Reasoning about the C library's memory

    The memory C programs see is the heap without the thread's two strings;
    calls that succeed are described by what they make of it. *)
From stdpp Require Import gmap.
From S2P Require Import Prelude Bytes Text Value Message Effect Login Session RowStream Abi.
#[local] Open Scope Z_scope.

Section triples.
Context {P : Type}.
Abbreviation call A := (eff stop (Lib P) A).
Implicit Types (l : Lib P) (B : gmap addr block) (a : addr) (b : block) (p : place) (s : bytes).

(** The program's blocks, and what else a call can change. *)
Definition body l : gmap addr block := delete l.(LAST_ERROR) (delete l.(KEY_SCRATCH) l.(heap)).

Definition outside l : World * P * list Z * list Stream :=
  (l.(lib_world), l.(lib_pool), l.(lib_clock), l.(lib_dropped)).

(** The thread's error message, with its block. *)
Definition error_of l : addr * option block := (l.(LAST_ERROR), l.(heap) !! l.(LAST_ERROR)).

Record ok l : Prop := {
  ok_fresh : forall a, is_Some (l.(heap) !! a) -> (a < l.(next))%positive;
  ok_apart : l.(LAST_ERROR) <> l.(KEY_SCRATCH);
  ok_error : exists s, l.(heap) !! l.(LAST_ERROR) = Some (terminated s) /\ NUL ∉ s;
  ok_scratch : exists s, l.(heap) !! l.(KEY_SCRATCH) = Some (terminated s);
}.

(** All a successful call is known by: the program's blocks, the message of
    the last error, the world. *)
Record has B (e : addr * option block) (o : World * P * list Z * list Stream) l : Prop := {
  has_ok : ok l;
  has_body : body l = B;
  has_error : error_of l = e;
  has_outside : outside l = o;
}.

Lemma has_self l : ok l -> has (body l) (error_of l) (outside l) l.
Proof. done. Qed.

Lemma body_lookup l a b : body l !! a = Some b -> l.(heap) !! a = Some b.
Proof. unfold body. by rewrite !lookup_delete_Some; intros (_ & _ & ?). Qed.

Lemma body_lookup_eq l a : a <> l.(LAST_ERROR) -> a <> l.(KEY_SCRATCH) -> body l !! a = l.(heap) !! a.
Proof. intros. unfold body. by rewrite !lookup_delete_ne. Qed.

Lemma body_not l a b : body l !! a = Some b -> a <> l.(LAST_ERROR) /\ a <> l.(KEY_SCRATCH).
Proof. unfold body. rewrite !lookup_delete_Some. intros (? & ? & _). split; congruence. Qed.

Lemma next_apart l : ok l -> l.(next) <> l.(LAST_ERROR) /\ l.(next) <> l.(KEY_SCRATCH).
Proof.
  intros []. destruct ok_error0 as (s & He & _), ok_scratch0 as (b & Hb).
  split; intros E; [rewrite <- E in He|rewrite <- E in Hb].
  - pose proof (ok_fresh0 _ (mk_is_Some _ _ He)). lia.
  - pose proof (ok_fresh0 _ (mk_is_Some _ _ Hb)). lia.
Qed.

Lemma body_next l : ok l -> body l !! l.(next) = None.
Proof.
  intros Hl. destruct (body l !! next l) eqn:E; [|done]. apply body_lookup in E.
  pose proof (ok_fresh l Hl _ (mk_is_Some _ _ E)). lia.
Qed.

(** [m] succeeds, with [Q]. *)
Definition runs {A} (m : call A) l (Q : A -> Lib P -> Prop) : Prop := exists (x : A) l', m l = (Ok x, l') /\ Q x l'.

Lemma runs_bind {A C} (m : call A) (k : A -> call C) l Q R :
  runs m l Q -> (forall (x : A) l', Q x l' -> runs (k x) l' R) -> runs (m ≫= k) l R.
Proof.
  intros (a & l1 & E & Hq) Hk. destruct (Hk a l1 Hq) as (c & l2 & E2 & Hr). exists c, l2. split; [|done].
  by rewrite (bind_step m k l a l1 E).
Qed.

Lemma runs_ret {A} (x : A) l (Q : A -> Lib P -> Prop) : Q x l -> runs (mret x) l Q.
Proof. intros Hq. by exists x, l. Qed.

Lemma runs_weaken {A} (m : call A) l (Q R : A -> Lib P -> Prop) :
  runs m l Q -> (forall (x : A) l', Q x l' -> R x l') -> runs m l R.
Proof. intros (a & l1 & E & Hq) Hr. exists a, l1. auto. Qed.

Lemma runs_eq {A} (m : call A) l (x : A) l' (Q : A -> Lib P -> Prop) : m l = (Ok x, l') -> Q x l' -> runs m l Q.
Proof. intros E Hq. by exists x, l'. Qed.

Lemma runs_step {A C} (m : call A) (k : A -> call C) l x l' R :
  m l = (Ok x, l') -> runs (k x) l' R -> runs (m ≫= k) l R.
Proof. intros E (c & l2 & E2 & Hr). exists c, l2. by rewrite (bind_step m k l x l' E). Qed.

Lemma runs_handle {A} (m : call A) h l Q : runs m l Q -> runs (handle m h) l Q.
Proof. intros (a & l1 & E & Hq). exists a, l1. unfold handle. by rewrite E. Qed.

(** ** Blocks *)

Lemma runs_alloc b l B e o :
  has B e o l -> runs (alloc b) l (fun a l' => B !! a = None /\ has (<[a := b]> B) e o l').
Proof.
  intros [Hl Hb He Ho]. destruct (next_apart l Hl) as [Hne Hnk]. eexists _, _. split; [done|]. subst B.
  split; [by apply body_next|]. destruct Hl as [Hf Ha (s & Hs & Hn) (k & Hk)]. unfold body, error_of, outside, with_fresh, with_block, with_heap in *.
  cbn [heap next LAST_ERROR KEY_SCRATCH lib_world lib_pool lib_clock lib_dropped] in *.
  split; cbn [heap next LAST_ERROR KEY_SCRATCH lib_world lib_pool lib_clock lib_dropped].
  - split; cbn [heap next LAST_ERROR KEY_SCRATCH].
    + intros a. rewrite lookup_insert_is_Some. intros [<-|[_ Ha']]; [lia|]. specialize (Hf a Ha'). lia.
    + done.
    + exists s. by rewrite lookup_insert_ne.
    + exists k. by rewrite lookup_insert_ne.
  - unfold body. cbn. by rewrite !delete_insert_ne by done.
  - unfold error_of. cbn. rewrite lookup_insert_ne by done. done.
  - done.
Qed.

Lemma load_has a b l B e o : has B e o l -> B !! a = Some b -> load a l = (Ok b, l).
Proof. intros [_ <- _ _] Hb%body_lookup. unfold load. by rewrite Hb. Qed.

Lemma look_has {A} (f : block -> list nat -> option A) p b x l B e o :
  has B e o l -> B !! p.(base) = Some b -> f b p.(path) = Some x -> look f p l = (Ok x, l).
Proof.
  intros Hh Hb Hx. unfold look. erewrite bind_step; [|by eapply load_has]. cbv beta iota. by rewrite Hx.
Qed.

Lemma has_update l (h : gmap addr block) B e o :
  has B e o l ->
  (forall a, is_Some (h !! a) -> is_Some (l.(heap) !! a)) ->
  h !! l.(LAST_ERROR) = l.(heap) !! l.(LAST_ERROR) -> h !! l.(KEY_SCRATCH) = l.(heap) !! l.(KEY_SCRATCH) ->
  has (delete l.(LAST_ERROR) (delete l.(KEY_SCRATCH) h)) e o (with_heap h l).
Proof.
  intros [[Hf Ha (s & Hs & Hn) (k & Hk)] Hb He Ho] Hsub E1 E2. split.
  - split; cbn.
    + intros a Hx. by apply Hf, Hsub.
    + done.
    + exists s. by rewrite E1.
    + exists k. by rewrite E2.
  - done.
  - unfold error_of in *. cbn. by rewrite E1.
  - done.
Qed.

Lemma runs_store a b b' l B e o :
  has B e o l -> B !! a = Some b' -> runs (store a b) l (fun _ l' => has (<[a := b]> B) e o l').
Proof.
  intros Hh Ha. eexists tt, _. split; [done|]. pose proof (has_body _ _ _ _ Hh) as Eb. rewrite <- Eb in Ha.
  destruct (body_not _ _ _ Ha) as [Hne Hnk]. apply body_lookup in Ha.
  unfold with_block.
  replace (<[a := b]> B) with (delete l.(LAST_ERROR) (delete l.(KEY_SCRATCH) (<[a := b]> l.(heap)))).
  - eapply has_update; [done|..]; try by rewrite lookup_insert_ne.
    intros x. rewrite lookup_insert_is_Some. intros [<-|[_ Hx]]; [by rewrite Ha|done].
  - by rewrite <- Eb, !delete_insert_ne.
Qed.

Lemma runs_free a b l B e o :
  has B e o l -> B !! a = Some b -> runs (free a) l (fun _ l' => has (delete a B) e o l').
Proof.
  intros Hh Ha. unfold free. eapply runs_step; [by eapply load_has|]. pose proof (has_body _ _ _ _ Hh) as Eb. rewrite <- Eb in Ha.
  destruct (body_not _ _ _ Ha) as [Hne Hnk]. apply body_lookup in Ha. eexists tt, _. split; [done|].
  replace (delete a B) with (delete l.(LAST_ERROR) (delete l.(KEY_SCRATCH) (delete a l.(heap)))).
  - eapply has_update; [done|..]; try by rewrite lookup_delete_ne.
    intros x. rewrite lookup_delete_is_Some. by intros [_ ?].
  - rewrite <- Eb. unfold body. rewrite (delete_delete _ _ a), (delete_delete _ _ a). done.
Qed.

Lemma runs_dup s l B e o :
  has B e o l ->
  runs (dup s) l (fun r l' => exists c, r = Some (at_addr c) /\ B !! c = None
    /\ has (<[c := terminated (c_string_lossy s)]> B) e o l').
Proof.
  intros Hh. unfold dup. eapply runs_bind; [by apply runs_alloc|]. intros c l' Hc. apply runs_ret. by exists c.
Qed.

(** ** The scratch string *)

Lemma load_heap a b l : l.(heap) !! a = Some b -> load a l = (Ok b, l).
Proof. intros Hb. unfold load. by rewrite Hb. Qed.

(** A block becomes the scratch string, in the old one's place. *)
Lemma runs_rescratch n t l B e o :
  has (<[n := terminated t]> B) e o l -> B !! n = None ->
  runs (old ← reads_state KEY_SCRATCH; _ ← changes (with_key_scratch n); _ ← free old; mret (Some (at_addr n))) l
    (fun r l' => r = Some (at_addr n) /\ has B e o l' /\ l'.(heap) !! n = Some (terminated t)).
Proof.
  intros [[Hf Ha (s & Hs & Hn) (k & Hk)] Hb He Ho] HB.
  assert (En : body l !! n = Some (terminated t)) by by rewrite Hb, lookup_insert_eq.
  destruct (body_not _ _ _ En) as [Hne Hnk]. pose proof (body_lookup _ _ _ En) as Hn'.
  eapply runs_step; [done|]. eapply runs_step; [done|]. unfold free.
  eapply runs_step; [erewrite bind_step; [done|]; by apply load_heap|]. apply runs_ret. split_and!; [done| |].
  - split; [split| | |]; cbn.
    + intros a. rewrite lookup_delete_is_Some. intros [_ Hx]. by apply Hf.
    + done.
    + exists s. by rewrite lookup_delete_ne.
    + exists t. by rewrite lookup_delete_ne.
    + unfold body in *. cbn. rewrite (delete_delete _ (LAST_ERROR l) n), Hb. by apply delete_insert_id.
    + unfold error_of in *. cbn. by rewrite lookup_delete_ne.
    + done.
  - cbn. by rewrite lookup_delete_ne.
Qed.

(** A block becomes the thread's message, in the old one's place. *)
Lemma runs_remessage n m l B e o :
  has (<[n := terminated m]> B) e o l -> B !! n = None -> NUL ∉ m ->
  runs (old ← reads_state LAST_ERROR; _ ← changes (with_last_error n); free old) l
    (fun _ l' => has B (n, Some (terminated m)) o l').
Proof.
  intros [[Hf Ha (s & Hs & Hn) (k & Hk)] Hb He Ho] HB Hm.
  assert (En : body l !! n = Some (terminated m)) by (by rewrite Hb, lookup_insert_eq).
  destruct (body_not _ _ _ En) as [Hne Hnk]. pose proof (body_lookup _ _ _ En) as Hn'.
  eapply runs_step; [done|]. eapply runs_step; [done|]. unfold free.
  eapply runs_step; [by apply load_heap|]. eexists tt, _. split; [done|].
  split; [split| | |]; cbn.
  - intros a. rewrite lookup_delete_is_Some. intros [_ Hx]. by apply Hf.
  - done.
  - exists m. rewrite lookup_delete_ne by done. done.
  - exists k. by rewrite lookup_delete_ne.
  - unfold body in *. cbn. rewrite (delete_delete _ (KEY_SCRATCH l) (LAST_ERROR l)), Hb. by apply delete_insert_id.
  - unfold error_of. cbn. by rewrite lookup_delete_ne, Hn' by done.
  - done.
Qed.

(** ** Several blocks *)

Implicit Types (cs : list addr) (bs : list block).

Fixpoint grown B cs bs : gmap addr block :=
  match cs, bs with
  | a :: cs, b :: bs => grown (<[a := b]> B) cs bs
  | _, _ => B
  end.

(** Each was fresh when it was allocated. *)
Fixpoint fresh_in B cs bs : Prop :=
  match cs, bs with
  | [], [] => True
  | a :: cs, b :: bs => B !! a = None /\ fresh_in (<[a := b]> B) cs bs
  | _, _ => False
  end.

Lemma grown_old B c cs bs : c ∉ cs -> grown B cs bs !! c = B !! c.
Proof.
  revert B bs. induction cs as [|a cs IH]; intros B [|b bs] Hc; try done. cbn [grown].
  apply not_elem_of_cons in Hc as [Hne Hc]. rewrite IH by done. by rewrite lookup_insert_ne.
Qed.

Lemma fresh_in_None B c cs bs : fresh_in B cs bs -> c ∈ cs -> B !! c = None.
Proof.
  revert B bs. induction cs as [|a cs IH]; intros B [|b bs] Hf Hc; try done; [by apply elem_of_nil in Hc|].
  destruct Hf as [Ha Hf]. apply elem_of_cons in Hc as [->|Hc]; [done|].
  specialize (IH _ _ Hf Hc). by apply lookup_insert_None in IH as [? _].
Qed.

Lemma fresh_in_head B a b cs bs : fresh_in (<[a := b]> B) cs bs -> a ∉ cs.
Proof. intros Hf Hin. pose proof (fresh_in_None _ _ _ _ Hf Hin) as E. by rewrite lookup_insert_eq in E. Qed.

Lemma fresh_in_NoDup B cs bs : fresh_in B cs bs -> NoDup cs.
Proof.
  revert B bs. induction cs as [|a cs IH]; intros B [|b bs] Hf; try done; [constructor|].
  destruct Hf as [Ha Hf]. constructor; [by eapply fresh_in_head|by eapply IH].
Qed.

Lemma grown_new B cs bs i a b :
  fresh_in B cs bs -> cs !! i = Some a -> bs !! i = Some b -> grown B cs bs !! a = Some b.
Proof.
  revert B bs i. induction cs as [|a' cs IH]; intros B [|b' bs] [|i] Hf Ha Hb; try done; destruct Hf as [Hn Hf].
  - injection Ha as ->. injection Hb as ->. cbn [grown].
    rewrite grown_old by (by eapply fresh_in_head). by rewrite lookup_insert_eq.
  - cbn [grown]. by eapply IH.
Qed.

Lemma fresh_in_length B cs bs : fresh_in B cs bs -> length cs = length bs.
Proof.
  revert B bs. induction cs as [|a cs IH]; intros B [|b bs] Hf; try done. destruct Hf as [_ Hf]. cbn. f_equal. by eapply IH.
Qed.

Lemma grown_subseteq B cs bs : fresh_in B cs bs -> B ⊆ grown B cs bs.
Proof.
  revert B bs. induction cs as [|a cs IH]; intros B [|b bs] Hf; try done. destruct Hf as [Hn Hf]. cbn [grown].
  etrans; [|by apply IH]. by apply insert_subseteq.
Qed.

Definition handles cs : list ptr := map (fun a => Some (at_addr a)) cs.

Lemma handles_lookup cs i : handles cs !! i = (fun a => Some (at_addr a)) <$> cs !! i.
Proof. unfold handles. revert i. induction cs as [|c cs IH]; intros [|i]; try done. apply IH. Qed.

(** [f] makes a block at each of its turns. *)
Lemma runs_gather (f : nat -> call ptr) bs i B e o l :
  (forall j b B' l, bs !! j = Some b -> B ⊆ B' -> has B' e o l ->
     runs (f (i + j)%nat) l (fun r l' => exists a, r = Some (at_addr a) /\ B' !! a = None /\ has (<[a := b]> B') e o l')) ->
  has B e o l ->
  runs (gather f i (length bs)) l (fun rs l' => exists cs, rs = handles cs /\ fresh_in B cs bs
    /\ has (grown B cs bs) e o l').
Proof.
  revert i B l. induction bs as [|b bs IH]; intros i B l Hf Hh; cbn [gather length].
  { apply runs_ret. by exists []. }
  eapply runs_bind; [rewrite <- (Nat.add_0_r i); by apply Hf|]. cbv beta. intros r l1 (a & -> & Ha & H1).
  eapply runs_bind; [apply (IH (S i) (<[a := b]> B)); [|done]|].
  - intros j b' B' l2 Hj HB. replace (S i + j)%nat with (i + S j)%nat by lia. apply Hf; [done|].
    etrans; [|done]. by apply insert_subseteq.
  - cbv beta. intros rs l2 (cs & -> & Hfr & H2). apply runs_ret. by exists (a :: cs).
Qed.

(** Each turn only reads. *)
Lemma gather_reads {A} (f : nat -> call A) (xs : list A) i l :
  (forall j x, xs !! j = Some x -> f (i + j)%nat l = (Ok x, l)) -> gather f i (length xs) l = (Ok xs, l).
Proof.
  revert i. induction xs as [|x xs IH]; intros i Hf; cbn [gather length]; [done|].
  erewrite bind_step; [|rewrite <- (Nat.add_0_r i); by apply Hf]. cbv beta.
  erewrite bind_step; [|apply IH]; [done|]. intros j y Hj.
  replace (S i + j)%nat with (i + S j)%nat by lia. by apply Hf.
Qed.

Fixpoint dels B cs : gmap addr block := match cs with [] => B | a :: cs => dels (delete a B) cs end.

Lemma dels_lookup B cs c : dels B cs !! c = if decide (c ∈ cs) then None else B !! c.
Proof.
  revert B. induction cs as [|a cs IH]; intros B; cbn [dels].
  { by rewrite decide_False by apply not_elem_of_nil. }
  rewrite IH. destruct (decide (c ∈ cs)) as [Hc|Hc]; [by rewrite decide_True by (by right)|].
  destruct (decide (c = a)) as [->|Hne]; [by rewrite lookup_delete_eq, decide_True by (by left)|].
  rewrite decide_False by (rewrite elem_of_cons; tauto). by apply lookup_delete_ne.
Qed.

(** [f] frees the blocks of its kind. *)
Lemma runs_frees (f : ptr -> call unit) (good : block -> Prop) cs B e o l :
  (forall a b B l, good b -> B !! a = Some b -> has B e o l ->
     runs (f (Some (at_addr a))) l (fun _ l' => has (delete a B) e o l')) ->
  NoDup cs -> (forall a, a ∈ cs -> exists b, B !! a = Some b /\ good b) -> has B e o l ->
  runs (for_all f (handles cs)) l (fun _ l' => has (dels B cs) e o l').
Proof.
  intros Hf Hn. revert B l. induction Hn as [|a cs Ha Hn IH]; intros B l Hg Hh; cbn [handles map for_all dels].
  { by apply runs_ret. }
  destruct (Hg a) as (b & Hb & Hgb); [by left|]. eapply runs_bind; [by eapply Hf|]. cbv beta. intros [] l1 H1.
  apply IH; [|done]. intros c Hc. destruct (Hg c) as (b' & Hb' & Hgb'); [by right|]. exists b'. split; [|done].
  rewrite lookup_delete_ne; [done|]. by intros <-.
Qed.

End triples.
