(* ===== verification/AbiValue.v ===== *)
(** * Values in C

    The exported constructors and accessors of [skaidb_value_t]: how a C
    program builds a value and reads one, wherever its pointer came from. *)
From stdpp Require Import gmap.
From S2P Require Import Prelude Bytes Text BTree Float64 Decimal Value Json IntFloat Message Effect Login Session RowStream Abi.
#[local] Open Scope Z_scope.

Inductive skaidb_value_type :=
| SKAIDB_NULL | SKAIDB_BOOL | SKAIDB_INT | SKAIDB_FLOAT | SKAIDB_DECIMAL | SKAIDB_STRING | SKAIDB_BYTES
| SKAIDB_UUID | SKAIDB_TIMESTAMP | SKAIDB_ARRAY | SKAIDB_DOCUMENT.

Section values.
Context {P : Type} `{Powi} {Number : Type} `{SerdeJson Number}.
(** [serde_json]'s text of a value, and its parser. *)
Context (json_text : Json (Number := Number) -> bytes) (json_parse : bytes -> res bytes (Json (Number := Number))).
Abbreviation call A := (eff stop (Lib P) A).

(** ** Constructors *)

Definition value_box (v : Value) : call ptr := a ← alloc (AValue v); mret (Some (at_addr a)).

Definition skaidb_value_null : call ptr := value_box VNull.
Definition skaidb_value_bool (v : bool) : call ptr := value_box (VBool v).
Definition skaidb_value_int (v : Z) : call ptr := value_box (VInt v).
Definition skaidb_value_float (v : Z) : call ptr := value_box (VFloat v).
Definition skaidb_value_timestamp (unix_millis : Z) : call ptr := value_box (VTimestamp unix_millis).

(** [Err(_) => ptr::null_mut()]. *)
Definition or_null (m : call ptr) : call ptr :=
  handle m (fun e => match e with Status _ => mret None | Undefined => undefined end).

Definition skaidb_value_decimal (text : ptr) : call ptr :=
  or_null (t ← cstr text (str "decimal");
    match parse_decimal t with Some d => value_box (VDecimal d) | None => mret None end).

Definition skaidb_value_string (utf8 : ptr) : call ptr :=
  or_null (s ← cstr utf8 (str "string"); value_box (VString s)).

(** [slice::from_raw_parts]. *)
Definition slice (p : place) (n : nat) : call bytes :=
  s ← look bytes_of p; if (n <=? length s)%nat then mret (take n s) else undefined.

Definition skaidb_value_string_len (utf8 : ptr) (n : nat) : call ptr :=
  match utf8 with
  | None => mret None
  | Some p =>
      s ← slice p n;
      if utf8_valid s then value_box (VString s)
      else _ ← set_error (str "string is not valid UTF-8"); mret None
  end.

Definition skaidb_value_bytes (data : ptr) (n : nat) : call ptr :=
  match data, n with
  | None, S _ => mret None
  | _, O => value_box (VBytes [])
  | Some p, n => s ← slice p n; value_box (VBytes s)
  end.

Definition skaidb_value_uuid (bytes : ptr) : call ptr :=
  match bytes with
  | None => mret None
  | Some p => u ← slice p 16; value_box (VUuid u)
  end.

Definition value_error_text (e : ValueError) : bytes :=
  match e with
  | InvalidUuid s => str "invalid UUID: " ++ s
  | OutOfRange what => str "value out of range for " ++ what
  | UnrepresentableJson what => str "cannot represent value as JSON: " ++ what
  end.

Definition skaidb_value_uuid_parse (text : ptr) : call ptr :=
  or_null (t ← cstr text (str "uuid");
    match parse_str t with
    | Ok u => value_box (VUuid u)
    | Err e => _ ← set_error (value_error_text e); mret None
    | Panic => of_res Panic
    | OutOfFuel => of_res OutOfFuel
    end).

Definition skaidb_value_array (items : ptr) (n : nat) : call ptr :=
  or_null (vs ← params_slice items n; value_box (VArray vs)).

Definition skaidb_value_document (keys values : ptr) (n : nat) : call ptr :=
  or_null (ks ← cstr_list keys n (str "keys");
    vs ← params_slice values n;
    value_box (VDocument (fold_left (fun d kv => doc_insert kv.1 kv.2 d) (zip ks vs) doc_new))).

Definition skaidb_value_from_json (json : ptr) : call ptr :=
  or_null (text ← cstr json (str "json");
    match json_parse text with
    | Ok j => value_box (from_json j)
    | Err e => _ ← set_error e; mret None
    | Panic => of_res Panic
    | OutOfFuel => of_res OutOfFuel
    end).

Definition skaidb_value_clone (v : ptr) : call ptr :=
  match v with None => mret None | Some p => x ← look value_of p; value_box x end.

(** Only what [value_box] returned may be freed. *)
Definition skaidb_value_free (v : ptr) : call unit :=
  match v with
  | None => mret tt
  | Some p =>
      b ← load p.(base);
      match b, p.(path) with AValue _, [] => free p.(base) | _, _ => undefined end
  end.

(** ** Accessors *)

Definition val (v : ptr) : call (option Value) :=
  match v with None => mret None | Some p => x ← look value_of p; mret (Some x) end.

Definition skaidb_value_type_of (v : ptr) : call skaidb_value_type :=
  x ← val v;
  mret match x with
       | None | Some VNull => SKAIDB_NULL
       | Some (VBool _) => SKAIDB_BOOL
       | Some (VInt _) => SKAIDB_INT
       | Some (VFloat _) => SKAIDB_FLOAT
       | Some (VDecimal _) => SKAIDB_DECIMAL
       | Some (VString _) => SKAIDB_STRING
       | Some (VBytes _) => SKAIDB_BYTES
       | Some (VUuid _) => SKAIDB_UUID
       | Some (VTimestamp _) => SKAIDB_TIMESTAMP
       | Some (VArray _) => SKAIDB_ARRAY
       | Some (VDocument _) => SKAIDB_DOCUMENT
       end.

Definition skaidb_value_is_null (v : ptr) : call bool :=
  x ← val v; mret match x with None | Some VNull => true | _ => false end.

Definition skaidb_value_get_bool (v : ptr) : call bool :=
  x ← val v; mret match x with Some (VBool true) => true | _ => false end.

Definition float_to_i64 (x : Z) : Z := IntFloat.as_i64 (sf_of_bits x).

Definition skaidb_value_get_int (v : ptr) : call Z :=
  x ← val v;
  mret match x with
       | Some (VInt n) | Some (VTimestamp n) => n
       | Some (VFloat f) => float_to_i64 f
       | Some (VDecimal d) => float_to_i64 (to_f64 d)
       | Some (VBool b) => if b then 1 else 0
       | _ => 0
       end.

Definition skaidb_value_get_float (v : ptr) : call Z :=
  x ← val v;
  mret match x with
       | Some (VFloat f) => f
       | Some (VInt n) | Some (VTimestamp n) => f64_of_int n
       | Some (VDecimal d) => to_f64 d
       | _ => 0
       end.

Definition skaidb_value_get_timestamp (v : ptr) : call Z :=
  x ← val v; mret match x with Some (VTimestamp n) | Some (VInt n) => n | _ => 0 end.

(** [if !len.is_null() { *len = n }]. *)
Definition put_len (len : ptr) (n : nat) : call unit :=
  match len with None => mret tt | Some p => store_num p (Z.of_nat n) end.

(** A view of the value's own bytes. *)
Definition skaidb_value_get_string (v len : ptr) : call ptr :=
  x ← val v;
  match x with
  | Some (VString s) => _ ← put_len len (length s); mret v
  | _ => _ ← put_len len 0; mret None
  end.

Definition skaidb_value_get_bytes (v len : ptr) : call ptr :=
  x ← val v;
  match x with
  | Some (VBytes b) => _ ← put_len len (length b); mret v
  | _ => _ ← put_len len 0; mret None
  end.

Definition skaidb_value_get_uuid (v : ptr) : call ptr :=
  x ← val v; mret match x with Some (VUuid _) => v | _ => None end.

Definition skaidb_value_array_len (v : ptr) : call nat :=
  x ← val v; mret match x with Some (VArray a) => length a | _ => 0%nat end.

(** A reference to part of the value behind [v]. *)
Definition part (v : ptr) (q : list nat) : ptr := (fun p => inside p q) <$> v.

Definition skaidb_value_array_get (v : ptr) (index : nat) : call ptr :=
  x ← val v;
  mret match x with
       | Some (VArray a) => if (index <? length a)%nat then part v [index] else None
       | _ => None
       end.

Definition skaidb_value_document_len (v : ptr) : call nat :=
  x ← val v; mret match x with Some (VDocument d) => length d | _ => 0%nat end.

(** The key, in the thread's scratch string. *)
Definition skaidb_value_document_key (v : ptr) (index : nat) : call ptr :=
  x ← val v;
  match x with
  | Some (VDocument d) =>
      match d !! index with
      | Some (k, _) =>
          a ← alloc (terminated (c_string_lossy k));
          old ← reads_state KEY_SCRATCH;
          _ ← changes (with_key_scratch a);
          _ ← free old;
          mret (Some (at_addr a))
      | None => mret None
      end
  | _ => mret None
  end.

Definition skaidb_value_document_value (v : ptr) (index : nat) : call ptr :=
  x ← val v;
  mret match x with
       | Some (VDocument d) => if (index <? length d)%nat then part v [index] else None
       | _ => None
       end.

(** Where the reference [get_path] returns points: the field's index at each
    segment. *)
Fixpoint position_of (k : bytes) (d : Document) : option nat :=
  match d with
  | [] => None
  | (k', _) :: d => match kcmp k k' with Eq => Some 0%nat | _ => S <$> position_of k d end
  end.

Fixpoint locate (d : Document) (segs : list bytes) : option (list nat) :=
  match segs with
  | [] => None
  | [k] => i ← position_of k d; Some [i]
  | k :: segs =>
      i ← position_of k d;
      match doc_get d k with
      | Some (VDocument d) => q ← locate d segs; Some (i :: q)
      | _ => None
      end
  end.

Definition skaidb_value_document_get (v path : ptr) : call ptr :=
  or_null (p ← cstr path (str "path");
    x ← val v;
    mret match x with
         | Some (VDocument d) =>
             match locate d (split_on dot p) with Some q => part v q | None => None end
         | _ => None
         end).

Definition skaidb_value_to_string_dup (v : ptr) : call ptr :=
  x ← val v;
  match x with
  | None => mret None
  | Some (VString s) => dup s
  | Some (VDecimal d) => dup (decimal_text d)
  | Some (VUuid u) => dup (uuid_display u)
  | Some other => dup (json_text (to_json other))
  end.

Definition skaidb_value_to_json_dup (v : ptr) : call ptr :=
  x ← val v;
  match x with None => mret None | Some x => dup (json_text (to_json x)) end.

End values.
