(* ===== verification/AbiCopy.v ===== *)
(** * A C program that copies a value

    Written with the exported constructors and accessors only, and proved to
    make an equal value and to leave nothing else allocated: the two halves of
    the interface agree on every value. *)
From stdpp Require Import gmap.
From S2P Require Import Prelude Bytes Text BTree Float64 Decimal Value Json Codec Message Effect Login Session RowStream Abi AbiHeap AbiValue.
#[local] Open Scope Z_scope.

Section copying.
Context {P : Type} `{Powi} {Number : Type} `{SerdeJson Number}.
Context (json_text : Json (Number := Number) -> bytes).
Abbreviation call A := (eff stop (Lib P) A).
Implicit Types (l : Lib P) (B C : gmap addr block) (a : addr) (b : block) (v : ptr) (s : bytes).

(** ** The program *)

Definition read_num (a : addr) : call Z :=
  look (fun b q => match b, q with Numbers [n], [] => Some n | _, _ => None end) (at_addr a).

(** [size_t n; s = get(v, &n); make(s, n)]. *)
Definition copy_view (get : ptr -> ptr -> call ptr) (make : ptr -> nat -> call ptr) (v : ptr) : call ptr :=
  len ← alloc (Numbers [0]);
  s ← get v (Some (at_addr len));
  n ← read_num len;
  r ← make s (Z.to_nat n);
  _ ← free len;
  mret r.

Definition copy_text (v : ptr) : call ptr :=
  t ← skaidb_value_to_string_dup json_text v;
  r ← skaidb_value_decimal t;
  _ ← skaidb_string_free t;
  mret r.

(** [strdup(skaidb_value_document_key(v, i))]. *)
Definition copy_key (v : ptr) (i : nat) : call ptr :=
  k ← skaidb_value_document_key v i;
  match k with
  | Some k => s ← c_str k; a ← alloc (terminated s); mret (Some (at_addr a))
  | None => undefined
  end.

Definition free_ptr (v : ptr) : call unit := match v with Some p => free p.(base) | None => mret tt end.

Fixpoint copy (fuel : nat) (v : ptr) : call ptr :=
  match fuel with
  | O => of_res OutOfFuel
  | S fuel =>
      t ← skaidb_value_type_of v;
      match t with
      | SKAIDB_NULL => skaidb_value_null
      | SKAIDB_BOOL => b ← skaidb_value_get_bool v; skaidb_value_bool b
      | SKAIDB_INT => n ← skaidb_value_get_int v; skaidb_value_int n
      | SKAIDB_FLOAT => x ← skaidb_value_get_float v; skaidb_value_float x
      | SKAIDB_DECIMAL => copy_text v
      | SKAIDB_STRING => copy_view skaidb_value_get_string skaidb_value_string_len v
      | SKAIDB_BYTES => copy_view skaidb_value_get_bytes skaidb_value_bytes v
      | SKAIDB_UUID => u ← skaidb_value_get_uuid v; skaidb_value_uuid u
      | SKAIDB_TIMESTAMP => t ← skaidb_value_get_timestamp v; skaidb_value_timestamp t
      | SKAIDB_ARRAY =>
          n ← skaidb_value_array_len v;
          items ← gather (fun i => x ← skaidb_value_array_get v i; copy fuel x) 0 n;
          array ← alloc (Pointers items);
          r ← skaidb_value_array (Some (at_addr array)) n;
          _ ← for_all skaidb_value_free items;
          _ ← free array;
          mret r
      | SKAIDB_DOCUMENT =>
          n ← skaidb_value_document_len v;
          keys ← gather (copy_key v) 0 n;
          vals ← gather (fun i => x ← skaidb_value_document_value v i; copy fuel x) 0 n;
          keyv ← alloc (Pointers keys);
          valv ← alloc (Pointers vals);
          r ← skaidb_value_document (Some (at_addr keyv)) (Some (at_addr valv)) n;
          _ ← for_all free_ptr keys;
          _ ← for_all skaidb_value_free vals;
          _ ← free keyv;
          _ ← free valv;
          mret r
      end
  end.

(** What the interface can carry: no NUL in a field's name, and not the one
    decimal whose text does not read back. *)
Fixpoint portable (x : Value) : bool :=
  match x with
  | VDecimal d => negb (d.(mantissa) =? - 2 ^ 127)
  | VArray items => forallb portable items
  | VDocument doc => forallb (fun kv => bool_decide (NUL ∉ kv.1) && portable kv.2) doc
  | _ => true
  end.

(** ** Pointers to values *)

Definition points B v (x : Value) : Prop :=
  exists p b, v = Some p /\ B !! p.(base) = Some b /\ value_of b p.(path) = Some x.

Lemma value_in_app x q q' : value_in x (q ++ q') = match value_in x q with Some y => value_in y q' | None => None end.
Proof.
  revert x. induction q as [|i q IH]; intros x; [done|]. destruct x; try done; cbn [app value_in].
  - destruct (items !! i); [apply IH|done].
  - destruct (doc !! i); [apply IH|done].
Qed.

Lemma result_in_app r q q' rs rest :
  result_in r q = Some (Abi.Rows rs, rest) -> result_in r (q ++ q') = Some (Abi.Rows rs, rest ++ q').
Proof.
  revert r. induction q as [|i q IH]; intros r; cbn [result_in app].
  - destruct r; intros [= -> <-]; by destruct q'.
  - destruct r; intros Hr; try done; try (by injection Hr as -> <-).
    destruct (sets !! i); [by apply IH|done].
Qed.

Lemma value_in_row_app vs q q' x : value_in_row vs q = Some x -> value_in_row vs (q ++ q') = value_in x q'.
Proof.
  destruct q as [|i q]; [done|]. cbn [value_in_row app]. destruct (vs !! i) as [y|]; [|done].
  intros Hy. by rewrite value_in_app, Hy.
Qed.

Lemma value_of_app b q q' x : value_of b q = Some x -> value_of b (q ++ q') = value_in x q'.
Proof.
  destruct b; cbn [value_of result_of_block]; try done.
  - intros Hx. by rewrite value_in_app, Hx.
  - apply value_in_row_app.
  - destruct (result_in r q) as [[[rs| | | |] rest]|] eqn:E; try done.
    rewrite (result_in_app _ _ q' _ _ E). destruct rest as [|i rest]; [done|]. cbn [app].
    destruct (rows rs !! i); [apply value_in_row_app|done].
  - destruct q as [|i q]; [done|]. cbn [app]. destruct (rs !! i) as [r|]; [|done].
    destruct (result_in r q) as [[[rs'| | | |] rest]|] eqn:E; try done.
    rewrite (result_in_app _ _ q' _ _ E). destruct rest as [|j rest]; [done|]. cbn [app].
    destruct (rows rs' !! j); [apply value_in_row_app|done].
Qed.

Lemma points_item B v items i x :
  points B v (VArray items) -> items !! i = Some x -> points B (part v [i]) x.
Proof.
  intros (p & b & -> & Hb & Hv) Hi. exists (inside p [i]), b. split_and!; [done|done|].
  cbn [inside path]. rewrite (value_of_app _ _ _ _ Hv). cbn [value_in]. by rewrite Hi.
Qed.

Lemma points_field B v doc i k x :
  points B v (VDocument doc) -> doc !! i = Some (k, x) -> points B (part v [i]) x.
Proof.
  intros (p & b & -> & Hb & Hv) Hi. exists (inside p [i]), b. split_and!; [done|done|].
  cbn [inside path]. rewrite (value_of_app _ _ _ _ Hv). cbn [value_in]. by rewrite Hi.
Qed.

Lemma points_insert B v x a b : points B v x -> B !! a = None -> points (<[a := b]> B) v x.
Proof.
  intros (p & b' & -> & Hb & Hv) Ha. exists p, b'. split_and!; [done| |done].
  rewrite lookup_insert_ne; [done|]. congruence.
Qed.

Lemma points_box B a x : B !! a = Some (AValue x) -> points B (Some (at_addr a)) x.
Proof. intros Ha. by exists (at_addr a), (AValue x). Qed.

Lemma val_points B e o l v x : has B e o l -> points B v x -> val v l = (Ok (Some x), l).
Proof.
  intros Hh (p & b & -> & Hb & Hv). unfold val. erewrite bind_step; [|by eapply look_has]. done.
Qed.

Lemma bytes_of_value b q x s :
  value_of b q = Some x -> x = VString s \/ x = VBytes s \/ x = VUuid s -> bytes_of b q = Some s.
Proof.
  intros Hv Hx. unfold bytes_of. destruct b; try done; rewrite Hv; by destruct Hx as [->|[->| ->]].
Qed.

Lemma runs_box B e o l x :
  has B e o l ->
  runs (value_box x) l (fun r l' => exists a, r = Some (at_addr a) /\ B !! a = None
    /\ has (<[a := AValue x]> B) e o l').
Proof.
  intros Hh. eapply runs_bind; [by apply runs_alloc|]. intros a l' [Ha Hl]. apply runs_ret. eauto.
Qed.

(** [m] makes [x] in a box of its own and leaves the rest as it was. *)
Definition makes (m : call ptr) B x : Prop := forall l e o,
  has B e o l ->
  runs m l (fun r l' => exists a, r = Some (at_addr a) /\ B !! a = None /\ has (<[a := AValue x]> B) e o l').

Lemma makes_box B x : makes (value_box x) B x.
Proof. intros l e o. apply runs_box. Qed.

Lemma makes_step {A} (m : call A) k B x (y : A) :
  (forall l e o, has B e o l -> m l = (Ok y, l)) -> makes (k y) B x -> makes (m ≫= k) B x.
Proof. intros Hm Hk l e o Hh. eapply runs_step; [by eapply Hm|]. by apply Hk. Qed.

(** A block for the duration of [k]. *)
Lemma makes_scratch b k B x :
  (forall c, B !! c = None -> makes (k c) (<[c := b]> B) x) ->
  makes (c ← alloc b; r ← k c; _ ← free c; mret r) B x.
Proof.
  intros Hk l e o Hh. eapply runs_bind; [by apply runs_alloc|]. cbv beta. intros c l1 [Hc H1].
  eapply runs_bind; [by apply Hk|]. cbv beta. intros r l2 (a & -> & Ha & H2).
  rewrite lookup_insert_None in Ha. destruct Ha as [Ha Hne].
  eapply runs_bind; [eapply runs_free; [done|]; by rewrite lookup_insert_ne, lookup_insert_eq by done|].
  cbv beta. intros [] l3 H3. apply runs_ret. exists a. split_and!; [done|done|].
  by rewrite delete_insert_ne, delete_insert_id in H3 by done.
Qed.

Lemma put_len_has B e o l a n n0 :
  has B e o l -> B !! a = Some (Numbers [n0]) ->
  runs (put_len (Some (at_addr a)) n) l (fun _ l' => has (<[a := Numbers [Z.of_nat n]]> B) e o l').
Proof.
  intros Hh Ha. unfold put_len, store_num. cbn [at_addr base path entry].
  eapply runs_step; [by eapply load_has|]. cbn. by eapply runs_store.
Qed.

Lemma read_num_has B e o l a n :
  has B e o l -> B !! a = Some (Numbers [n]) -> read_num a l = (Ok n, l).
Proof. intros Hh Ha. unfold read_num. by eapply look_has. Qed.

Lemma slice_has B e o l p b s :
  has B e o l -> B !! p.(base) = Some b -> bytes_of b p.(path) = Some s -> slice p (length s) l = (Ok s, l).
Proof.
  intros Hh Hb Hs. unfold slice. erewrite bind_step; [|by eapply look_has]. cbv beta iota.
  by rewrite Nat.leb_refl, take_ge by lia.
Qed.

Lemma makes_view get make B v x s :
  points B v x ->
  (forall c B' n0, points B' v x -> B' !! c = Some (Numbers [n0]) -> forall l e o, has B' e o l ->
     runs (get v (Some (at_addr c))) l (fun r l' => r = v /\ has (<[c := Numbers [Z.of_nat (length s)]]> B') e o l')) ->
  (forall B', points B' v x -> makes (make v (length s)) B' x) ->
  makes (copy_view get make v) B x.
Proof.
  intros Hv Hget Hmake. unfold copy_view. intros l e o Hh.
  eapply runs_bind; [by apply runs_alloc|]. cbv beta. intros c l1 [Hc H1].
  assert (Hv1 : points (<[c := Numbers [0]]> B) v x) by by apply points_insert.
  eapply runs_bind; [eapply Hget; [done|by rewrite lookup_insert_eq|done]|]. cbv beta. intros r l2 [-> H2].
  rewrite insert_insert_eq in H2.
  eapply runs_step; [eapply read_num_has; [done|by rewrite lookup_insert_eq]|]. rewrite Nat2Z.id.
  eapply runs_bind; [eapply (Hmake (<[c := _]> B)); [by apply points_insert|exact H2]|]. cbv beta. intros r l3 (a & -> & Ha & H3).
  rewrite lookup_insert_None in Ha. destruct Ha as [Ha Hne].
  eapply runs_bind; [eapply runs_free; [done|]; by rewrite lookup_insert_ne, lookup_insert_eq by done|].
  cbv beta. intros [] l4 H4. apply runs_ret. exists a. split_and!; [done|done|].
  by rewrite delete_insert_ne, delete_insert_id in H4 by done.
Qed.

Lemma copy_string B v s :
  utf8_valid s = true -> points B v (VString s) ->
  makes (copy_view skaidb_value_get_string skaidb_value_string_len v) B (VString s).
Proof.
  intros Hu Hv. eapply makes_view; [done|..].
  - intros c B' n0 Hv' Hc l e o Hh. unfold skaidb_value_get_string.
    eapply runs_step; [by eapply val_points|]. eapply runs_bind; [by eapply put_len_has|].
    intros [] l' Hl. by apply runs_ret.
  - intros B' (p & b & -> & Hb & Hx). unfold skaidb_value_string_len.
    eapply makes_step; [intros l e o Hh; eapply slice_has; [done|done|]; eapply bytes_of_value; eauto|].
    rewrite Hu. apply makes_box.
Qed.

Lemma copy_bytes B v s :
  points B v (VBytes s) -> makes (copy_view skaidb_value_get_bytes skaidb_value_bytes v) B (VBytes s).
Proof.
  intros Hv. eapply makes_view; [done|..].
  - intros c B' n0 Hv' Hc l e o Hh. unfold skaidb_value_get_bytes.
    eapply runs_step; [by eapply val_points|]. eapply runs_bind; [by eapply put_len_has|].
    intros [] l' Hl. by apply runs_ret.
  - intros B' (p & b & -> & Hb & Hx). unfold skaidb_value_bytes. destruct s as [|c s]; [apply makes_box|].
    cbn [length].
    eapply makes_step; [intros l e o Hh; eapply (slice_has _ _ _ _ _ _ (c :: s)); [done|done|];
      eapply bytes_of_value; eauto|]. apply makes_box.
Qed.

Lemma copy_uuid B v u :
  length u = 16%nat -> points B v (VUuid u) -> makes (u ← skaidb_value_get_uuid v; skaidb_value_uuid u) B (VUuid u).
Proof.
  intros Hu Hv. unfold skaidb_value_get_uuid.
  eapply (makes_step _ _ _ _ v); [intros l e o Hh; erewrite bind_step; [|by eapply val_points]; done|].
  destruct Hv as (p & b & -> & Hb & Hx). unfold skaidb_value_uuid. rewrite <- Hu.
  eapply makes_step; [intros l e o Hh; eapply slice_has; [done|done|]; eapply bytes_of_value; eauto|].
  apply makes_box.
Qed.

(** ** C strings *)

Lemma c_str_has B e o l p b t s rest :
  has B e o l -> B !! p.(base) = Some b -> bytes_of b p.(path) = Some t -> split_once NUL t = Some (s, rest) ->
  c_str p l = (Ok s, l).
Proof.
  intros Hh Hb Ht Hs. unfold c_str. erewrite bind_step; [|by eapply look_has]. cbv beta iota. by rewrite Hs.
Qed.

Lemma terminated_bytes s : bytes_of (terminated s) [] = Some (s ++ [NUL]).
Proof. reflexivity. Qed.

Lemma terminated_text s : NUL ∉ s -> split_once NUL (s ++ [NUL]) = Some (s, []).
Proof. intros Hs. by apply split_once_app. Qed.

Lemma cstr_text B e o l a s what :
  has B e o l -> B !! a = Some (terminated s) -> NUL ∉ s -> utf8_valid s = true ->
  cstr (Some (at_addr a)) what l = (Ok s, l).
Proof.
  intros Hh Ha Hn Hu. unfold cstr.
  erewrite bind_step; [|eapply c_str_has; [done|done|apply terminated_bytes|by apply terminated_text]].
  by rewrite Hu.
Qed.

Lemma lossy_plain s : NUL ∉ s -> c_string_lossy s = s.
Proof.
  induction s as [|c s IH]; [done|]. rewrite not_elem_of_cons. intros [Hc Hs]. unfold c_string_lossy in *. cbn.
  rewrite IH by done. by rewrite decide_False by done.
Qed.

Lemma ascii_no_nul s : Forall (fun c => 45 <= u8 c <= 57) s -> NUL ∉ s /\ utf8_valid s = true.
Proof.
  intros Hs. split.
  - intros Hn. rewrite Forall_forall in Hs. specialize (Hs _ Hn). change (u8 NUL) with 0 in Hs. lia.
  - apply ascii_utf8_valid, forallb_forall. intros c Hc. rewrite Forall_forall in Hs.
    specialize (Hs c (proj2 (list_elem_of_In _ _) Hc)). unfold is_ascii. lia.
Qed.

Lemma digits_printable s : Forall (fun c => is_dec_digit c = true) s -> Forall (fun c => 45 <= u8 c <= 57) s.
Proof. intros Hs. eapply Forall_impl; [exact Hs|]. intros c. unfold is_dec_digit, in_range. lia. Qed.

Lemma decimal_text_printable d : 0 <= d.(scale) -> Forall (fun c => 45 <= u8 c <= 57) (decimal_text d).
Proof.
  intros Hs. rewrite decimal_text_parts. pose proof (text_parts_spec d Hs) as Hp.
  destruct (text_parts d) as [ip fp]. destruct Hp as (Hip & Hfp & _). cbn [fst snd].
  apply digits_printable in Hip, Hfp. apply Forall_app. split; [|apply Forall_app; split; [done|]].
  - unfold sign_text. destruct (_ <? _); [|done]. repeat constructor; change (u8 _) with 45; lia.
  - unfold frac_text. destruct fp; [done|]. constructor; [change (u8 _) with 46; lia|done].
Qed.

Lemma copy_decimal B v d :
  wf_decimal d = true -> d.(mantissa) <> - 2 ^ 127 -> points B v (VDecimal d) -> makes (copy_text v) B (VDecimal d).
Proof.
  intros Hw Hm Hv l e o Hh. unfold copy_text, skaidb_value_to_string_dup.
  assert (Hsc : 0 <= d.(scale)) by (apply wf_decimal_spec in Hw; lia).
  destruct (ascii_no_nul _ (decimal_text_printable d Hsc)) as [Hn Hu].
  eapply runs_bind.
  { eapply runs_step; [by eapply val_points|]. by apply runs_dup. }
  cbv beta. intros t l1 (c & -> & Hc & H1). rewrite lossy_plain in H1 by done.
  eapply runs_bind.
  { unfold skaidb_value_decimal, or_null. apply runs_handle.
    eapply runs_step; [eapply cstr_text; [done|by rewrite lookup_insert_eq|done|done]|].
    rewrite (proj1 (decimal_text_roundtrip d Hw)), (proj2 (Z.eqb_neq _ _)) by done. by apply runs_box. }
  cbv beta. intros r l2 (a & -> & Ha & H2). rewrite lookup_insert_None in Ha. destruct Ha as [Ha Hne].
  assert (Ec : <[a := AValue (VDecimal d)]> (<[c := terminated (decimal_text d)]> B) !! c = Some (terminated (decimal_text d)))
    by by rewrite lookup_insert_ne, lookup_insert_eq by done.
  eapply runs_bind.
  { unfold skaidb_string_free, at_addr. eapply runs_step; [by eapply load_has|]. by eapply runs_free. }
  cbv beta. intros [] l3 H3. apply runs_ret. exists a. split_and!; [done|done|].
  by rewrite delete_insert_ne, delete_insert_id in H3 by done.
Qed.

(** ** Arrays and documents *)

Lemma points_weaken B B' v x : B ⊆ B' -> points B v x -> points B' v x.
Proof. intros HB (p & b & -> & Hb & Hv). exists p, b. split_and!; [done| |done]. by eapply lookup_weaken. Qed.

Lemma runs_copy_key B e o l v doc i k x :
  points B v (VDocument doc) -> doc !! i = Some (k, x) -> NUL ∉ k -> has B e o l ->
  runs (copy_key v i) l (fun r l' => exists a, r = Some (at_addr a) /\ B !! a = None /\ has (<[a := terminated k]> B) e o l').
Proof.
  intros Hv Hi Hk Hh. unfold copy_key, skaidb_value_document_key.
  eapply runs_bind.
  { eapply runs_step; [by eapply val_points|]. cbv beta iota. rewrite Hi. cbv beta iota.
    eapply runs_bind; [by apply runs_alloc|]. intros n l1 [Hn H1]. rewrite lossy_plain in H1 by done.
    eapply runs_weaken; [by apply runs_rescratch|]. intros r l2 Hr. exact (ex_intro (fun n => _) n Hr). }
  cbv beta. intros r l2 (n & -> & H2 & Hn). cbv beta iota.
  eapply runs_step.
  { unfold c_str, look. erewrite bind_step; [|erewrite bind_step; [|by apply load_heap]; done].
    cbv beta iota. by rewrite drop_0, terminated_text. }
  eapply runs_bind; [by apply runs_alloc|]. intros a l3 Ha. apply runs_ret. eauto.
Qed.

Lemma array_handles B e o l array cs xs :
  has B e o l -> B !! array = Some (Pointers (handles cs)) -> length cs = length xs ->
  (forall i a x, cs !! i = Some a -> xs !! i = Some x -> B !! a = Some (AValue x)) ->
  params_slice (Some (at_addr array)) (length xs) l = (Ok xs, l).
Proof.
  intros Hh Ha Hlen Hx. unfold params_slice. destruct (length xs) as [|n] eqn:En.
  { by apply nil_length_inv in En as ->. }
  rewrite <- En. apply gather_reads. intros i x Hi.
  destruct (lookup_lt_is_Some_2 cs i) as [a Hc]; [apply lookup_lt_Some in Hi; lia|].
  erewrite bind_step.
  2:{ unfold load_ptr. erewrite bind_step; [|by eapply load_has]. cbn. rewrite handles_lookup, Hc. done. }
  cbn. eapply look_has; [done|by apply (Hx i)|done].
Qed.

Lemma key_handles B e o l array cs ks :
  has B e o l -> B !! array = Some (Pointers (handles cs)) -> length cs = length ks ->
  (forall i a k, cs !! i = Some a -> ks !! i = Some k ->
     B !! a = Some (terminated k) /\ NUL ∉ k /\ utf8_valid k = true) ->
  cstr_list (Some (at_addr array)) (length ks) (str "keys") l = (Ok ks, l).
Proof.
  intros Hh Ha Hlen Hx. unfold cstr_list. destruct (length ks) as [|n] eqn:En.
  { by apply nil_length_inv in En as ->. }
  rewrite <- En. apply gather_reads. intros i k Hi.
  destruct (lookup_lt_is_Some_2 cs i) as [a Hc]; [apply lookup_lt_Some in Hi; lia|].
  erewrite bind_step.
  2:{ unfold load_ptr. erewrite bind_step; [|by eapply load_has]. cbn. rewrite handles_lookup, Hc. done. }
  cbn. destruct (Hx i a k Hc Hi) as (Hb & Hn & Hu).
  exact (cstr_text B e o l a k (str "keys") Hh Hb Hn Hu).
Qed.

Lemma free_value a b B e o l :
  (exists x, b = AValue x) -> B !! a = Some b -> has B e o l ->
  runs (skaidb_value_free (Some (at_addr a))) l (fun _ l' => has (delete a B) e o l').
Proof.
  intros [x ->] Ha Hh. unfold skaidb_value_free. cbn. eapply runs_step; [by eapply load_has|]. by eapply runs_free.
Qed.

(** The spec of a copier of one value. *)
Definition copies (f : ptr -> call ptr) (x : Value) : Prop := forall B v, points B v x -> makes (f v) B x.

(** The copies of some children, in order. *)
Lemma gather_copies (g : ptr -> nat -> call ptr) B e o l v xs copier :
  (forall i x, xs !! i = Some x -> copies copier x) ->
  (forall i x B' l', xs !! i = Some x -> B ⊆ B' -> has B' e o l' ->
     exists w, g v i l' = (Ok w, l') /\ points B' w x) ->
  has B e o l ->
  runs (gather (fun i => x ← g v i; copier x) 0 (length xs)) l (fun rs l' =>
    exists cs, rs = handles cs /\ fresh_in B cs (AValue <$> xs) /\ has (grown B cs (AValue <$> xs)) e o l').
Proof.
  intros Hc Hg Hh. rewrite <- (length_fmap AValue xs). apply runs_gather; [|done].
  intros j b B' l1 Hj HB H1. cbn [Nat.add]. rewrite list_lookup_fmap in Hj.
  destruct (xs !! j) as [x|] eqn:Ex; [|done]. injection Hj as <-.
  destruct (Hg j x B' l1 Ex HB H1) as (w & Ew & Hw). eapply runs_step; [exact Ew|]. by eapply Hc.
Qed.

Lemma values_lookup (xs : list Value) i x : xs !! i = Some x -> (AValue <$> xs) !! i = Some (AValue x).
Proof. intros Hi. by rewrite list_lookup_fmap, Hi. Qed.

(** Every handle is to a box. *)
Lemma boxes_good B C cs xs :
  fresh_in B cs (AValue <$> xs) -> (forall a, a ∈ cs -> C !! a = grown B cs (AValue <$> xs) !! a) ->
  forall a, a ∈ cs -> exists b, C !! a = Some b /\ exists x, b = AValue x.
Proof.
  intros Hf HC a Ha. rewrite HC by done. apply list_elem_of_lookup_1 in Ha as [i Hi].
  assert (Hx : is_Some (xs !! i)).
  { apply lookup_lt_is_Some_2. apply lookup_lt_Some in Hi. rewrite (fresh_in_length _ _ _ Hf), length_fmap in Hi. done. }
  destruct Hx as [x Hx]. exists (AValue x). split; [|by exists x]. by eapply grown_new; [|done|apply values_lookup].
Qed.

(** A new block stays when the children and their array are gone. *)
Lemma without_array B cs bs array p a b :
  fresh_in B cs bs -> grown B cs bs !! array = None -> grown B cs bs !! a = None -> a ∉ cs -> array ∉ cs ->
  array <> a ->
  delete array (dels (<[a := b]> (<[array := p]> (grown B cs bs))) cs) = <[a := b]> B.
Proof.
  intros Hf Harr Ha Hac Harrc Hne. apply map_eq. intros c.
  destruct (decide (c = array)) as [->|Hca].
  { rewrite lookup_delete_eq, lookup_insert_ne by done. by rewrite <- (grown_old B array cs bs). }
  rewrite lookup_delete_ne, dels_lookup by done. destruct (decide (c ∈ cs)) as [Hc|Hc].
  { rewrite lookup_insert_ne by congruence. symmetry. by eapply fresh_in_None. }
  destruct (decide (c = a)) as [->|Hcc]; [by rewrite !lookup_insert_eq|].
  rewrite !lookup_insert_ne by done. by apply grown_old.
Qed.

Lemma copy_array (copier : ptr -> call ptr) B v items :
  (forall i x, items !! i = Some x -> copies copier x) -> points B v (VArray items) ->
  makes (n ← skaidb_value_array_len v;
         cells ← gather (fun i => x ← skaidb_value_array_get v i; copier x) 0 n;
         array ← alloc (Pointers cells);
         r ← skaidb_value_array (Some (at_addr array)) n;
         _ ← for_all skaidb_value_free cells;
         _ ← free array;
         mret r) B (VArray items).
Proof.
  intros Hc Hv. apply (makes_step _ _ _ _ (length items)).
  { intros l e o Hh. unfold skaidb_value_array_len. erewrite bind_step; [|by eapply val_points]. reflexivity. }
  intros l e o Hh. eapply runs_bind; [eapply (gather_copies skaidb_value_array_get)|].
  - done.
  - intros i x B' l' Hi HB Hl. exists (part v [i]). split; [|eapply points_item; [by eapply points_weaken|done]].
    unfold skaidb_value_array_get. erewrite bind_step; [|eapply val_points; [done|by eapply points_weaken]].
    cbv beta iota. by rewrite (proj2 (Nat.ltb_lt _ _)) by (by apply lookup_lt_Some in Hi).
  - exact Hh.
  - cbv beta. intros rs l1 (cs & -> & Hf & H1). set (C := grown B cs (AValue <$> items)) in *.
    eapply runs_bind; [by apply runs_alloc|]. cbv beta. intros array l2 [Ha H2].
    assert (Hna : array ∉ cs).
    { intros Hin. destruct (boxes_good B C cs items Hf ltac:(done) array Hin) as (b & Eb & _). congruence. }
    eapply runs_bind.
    { unfold skaidb_value_array, or_null. apply runs_handle. eapply runs_step.
      - eapply (array_handles _ _ _ _ array cs items); [done|by rewrite lookup_insert_eq| |].
        + rewrite (fresh_in_length _ _ _ Hf). apply length_fmap.
        + intros i a x Hi Hx. rewrite lookup_insert_ne by (intros ->; apply Hna; by apply list_elem_of_lookup_2 in Hi).
          by eapply grown_new; [|done|apply values_lookup].
      - by apply runs_box. }
    cbv beta. intros r l3 (a & -> & Ha' & H3). apply lookup_insert_None in Ha' as [Ha' Hne].
    assert (Hnc : a ∉ cs).
    { intros Hin. destruct (boxes_good B C cs items Hf ltac:(done) a Hin) as (b & Eb & _). congruence. }
    eapply runs_bind; [eapply (runs_frees skaidb_value_free (fun b => exists x, b = AValue x) cs (<[a := _]> (<[array := _]> C)))|].
    + intros c b B' l' Hg Hb Hl. by eapply free_value.
    + by eapply fresh_in_NoDup.
    + eapply boxes_good; [done|]. intros c Hin. by rewrite !lookup_insert_ne by (intros ->; done).
    + exact H3.
    + cbv beta. intros [] l4 H4. eapply runs_bind; [eapply runs_free; [done|]|].
      { rewrite dels_lookup, decide_False by done. rewrite lookup_insert_ne by done. by rewrite lookup_insert_eq. }
      cbv beta. intros [] l5 H5. apply runs_ret. exists a. split_and!; [done| |].
      { rewrite <- (grown_old B a cs (AValue <$> items)) by done. done. }
      unfold C in *. by rewrite (without_array B cs (AValue <$> items)) in H5.
Qed.

(** Blocks allocated one by one are found again. *)
Lemma fresh_in_some B cs bs a : fresh_in B cs bs -> a ∈ cs -> exists i b, cs !! i = Some a /\ bs !! i = Some b
  /\ grown B cs bs !! a = Some b.
Proof.
  intros Hf Ha. apply list_elem_of_lookup_1 in Ha as [i Hi].
  destruct (lookup_lt_is_Some_2 bs i) as [b Hb].
  { apply lookup_lt_Some in Hi. by rewrite <- (fresh_in_length _ _ _ Hf). }
  exists i, b. split_and!; [done|done|by eapply grown_new].
Qed.

Lemma not_among B cs bs a : fresh_in B cs bs -> grown B cs bs !! a = None -> a ∉ cs.
Proof. intros Hf Ha Hin. destruct (fresh_in_some B cs bs a Hf Hin) as (i & b & _ & _ & E). congruence. Qed.

(** The same for a document's two arrays. *)
Lemma without_arrays B ks kbs vs vbs keyv valv a p q b :
  fresh_in B ks kbs -> fresh_in (grown B ks kbs) vs vbs ->
  let V := grown (grown B ks kbs) vs vbs in
  V !! keyv = None -> V !! valv = None -> V !! a = None -> keyv <> valv -> keyv <> a -> valv <> a ->
  delete valv (delete keyv (dels (dels (<[a := b]> (<[valv := q]> (<[keyv := p]> V))) ks) vs)) = <[a := b]> B.
Proof.
  intros Hk Hv V Ek Ev Ea Hkv Hka Hva.
  assert (HV : forall c, c ∉ ks -> c ∉ vs -> V !! c = B !! c).
  { intros c H1 H2. unfold V. by rewrite !grown_old. }
  assert (Hkv' : forall c, V !! c = None -> c ∉ ks /\ c ∉ vs).
  { intros c Hc. assert (Hcv : c ∉ vs) by (by eapply not_among). split; [|done].
    unfold V in Hc. rewrite grown_old in Hc by done. by eapply not_among. }
  apply map_eq. intros c.
  destruct (decide (c = valv)) as [->|H1].
  { rewrite lookup_delete_eq, lookup_insert_ne by done. rewrite <- HV; [done|apply Hkv'; done..]. }
  rewrite lookup_delete_ne by done. destruct (decide (c = keyv)) as [->|H2].
  { rewrite lookup_delete_eq, lookup_insert_ne by done. rewrite <- HV; [done|apply Hkv'; done..]. }
  rewrite lookup_delete_ne, !dels_lookup by done. destruct (Hkv' a Ea) as [Hak Hav].
  destruct (decide (c ∈ vs)) as [Hcv|Hcv].
  { rewrite lookup_insert_ne by congruence. symmetry.
    eapply lookup_weaken_None; [by eapply fresh_in_None|by apply grown_subseteq]. }
  destruct (decide (c ∈ ks)) as [Hck|Hck].
  { rewrite lookup_insert_ne by congruence. symmetry. by eapply fresh_in_None. }
  destruct (decide (c = a)) as [->|Hca]; [by rewrite !lookup_insert_eq|].
  rewrite !lookup_insert_ne by done. by apply HV.
Qed.

Section documents.
Context (copier : ptr -> call ptr) (doc : Document).
Hypothesis Hcopier : forall i x, doc.*2 !! i = Some x -> copies copier x.
Hypothesis Hnul : forall k, k ∈ doc.*1 -> NUL ∉ k /\ utf8_valid k = true.
Hypothesis Hsorted : sorted doc = true.

Lemma copy_keys B e o l v :
  points B v (VDocument doc) -> has B e o l ->
  runs (gather (copy_key v) 0 (length doc)) l (fun rs l' => exists ks, rs = handles ks
    /\ fresh_in B ks (terminated <$> doc.*1) /\ has (grown B ks (terminated <$> doc.*1)) e o l').
Proof.
  intros Hv Hh. replace (length doc) with (length (terminated <$> doc.*1)) by by rewrite !length_fmap.
  apply runs_gather; [|done]. intros j b B' l1 Hj HB H1. cbn [Nat.add].
  rewrite !list_lookup_fmap in Hj. destruct (doc !! j) as [[k x]|] eqn:Ej; [|done]. injection Hj as <-.
  eapply runs_copy_key; [by eapply points_weaken|done| |done].
  apply Hnul. apply list_elem_of_fmap. exists (k, x). split; [done|]. by eapply list_elem_of_lookup_2.
Qed.

Lemma copy_fields B e o l v :
  points B v (VDocument doc) -> has B e o l ->
  runs (gather (fun i => x ← skaidb_value_document_value v i; copier x) 0 (length doc)) l (fun rs l' =>
    exists vs, rs = handles vs /\ fresh_in B vs (AValue <$> doc.*2) /\ has (grown B vs (AValue <$> doc.*2)) e o l').
Proof.
  intros Hv Hh. replace (length doc) with (length doc.*2) by by rewrite length_fmap.
  apply (gather_copies skaidb_value_document_value); [done| |done]. intros i x B' l' Hi HB Hl.
  rewrite list_lookup_fmap in Hi. destruct (doc !! i) as [[k y]|] eqn:Ei; [|done]. injection Hi as <-.
  exists (part v [i]). split; [|eapply points_field; [by eapply points_weaken|done]].
  unfold skaidb_value_document_value. erewrite bind_step; [|eapply val_points; [done|by eapply points_weaken]].
  cbv beta iota. by rewrite (proj2 (Nat.ltb_lt _ _)) by (by apply lookup_lt_Some in Ei).
Qed.

(** The constructor, on the two arrays. *)
Lemma make_document V e o l keyv valv ks vs :
  has V e o l -> V !! keyv = Some (Pointers (handles ks)) -> V !! valv = Some (Pointers (handles vs)) ->
  length ks = length doc -> length vs = length doc ->
  (forall i a k, ks !! i = Some a -> doc.*1 !! i = Some k -> V !! a = Some (terminated k)) ->
  (forall i a x, vs !! i = Some a -> doc.*2 !! i = Some x -> V !! a = Some (AValue x)) ->
  runs (skaidb_value_document (Some (at_addr keyv)) (Some (at_addr valv)) (length doc)) l (fun r l' =>
    exists a, r = Some (at_addr a) /\ V !! a = None /\ has (<[a := AValue (VDocument doc)]> V) e o l').
Proof.
  intros Hh Hk Hv Lk Lv Hks Hvs. unfold skaidb_value_document, or_null. apply runs_handle.
  eapply runs_step.
  { rewrite <- (length_fmap fst doc). eapply (key_handles _ _ _ _ _ ks); [done|done|by rewrite length_fmap|].
    intros i a k Hi Hd. split; [by eapply Hks|]. apply Hnul. by eapply list_elem_of_lookup_2. }
  eapply runs_step.
  { rewrite <- (length_fmap snd doc). eapply (array_handles _ _ _ _ _ vs); [done|done|by rewrite length_fmap|done]. }
  rewrite zip_fst_snd. unfold doc_new. rewrite fold_insert_sorted by done. by apply runs_box.
Qed.

(** Everything but the document is freed again. *)
Lemma free_arrays B e o l ks vs keyv valv a p q b :
  let kbs := terminated <$> doc.*1 in
  let vbs := AValue <$> doc.*2 in
  let V := grown (grown B ks kbs) vs vbs in
  fresh_in B ks kbs -> fresh_in (grown B ks kbs) vs vbs ->
  V !! keyv = None -> V !! valv = None -> V !! a = None -> keyv <> valv -> keyv <> a -> valv <> a ->
  has (<[a := b]> (<[valv := q]> (<[keyv := p]> V))) e o l ->
  runs (_ ← for_all free_ptr (handles ks); _ ← for_all skaidb_value_free (handles vs);
        _ ← free keyv; _ ← free valv; mret (Some (at_addr a))) l
    (fun r l' => r = Some (at_addr a) /\ has (<[a := b]> B) e o l').
Proof.
  intros kbs vbs V Hk Hv Ek Ev Ea Hkv Hka Hva Hh.
  assert (Hks : forall c, c ∈ ks -> exists b, V !! c = Some b).
  { intros c Hc. destruct (fresh_in_some B ks kbs c Hk Hc) as (i & b' & _ & _ & E). exists b'.
    unfold V. rewrite grown_old; [done|]. intros Hin. pose proof (fresh_in_None _ _ _ _ Hv Hin). congruence. }
  assert (Hvs : forall c, c ∈ vs -> exists x, V !! c = Some (AValue x)).
  { intros c Hc. destruct (fresh_in_some _ vs vbs c Hv Hc) as (i & b' & _ & Hb' & E).
    unfold vbs in Hb'. rewrite list_lookup_fmap in Hb'. destruct (doc.*2 !! i) as [x|]; [|done].
    injection Hb' as <-. by exists x. }
  assert (Hold : forall c x, V !! c = Some x -> <[a := b]> (<[valv := q]> (<[keyv := p]> V)) !! c = Some x).
  { intros c x Hc. rewrite !lookup_insert_ne; congruence. }
  eapply runs_bind.
  { eapply (runs_frees free_ptr (fun _ => True)); [|by eapply fresh_in_NoDup| |exact Hh].
    - intros c b' B' l' _ Hb Hl. by eapply runs_free.
    - intros c Hc. destruct (Hks c Hc) as [b' Hb]. exists b'. split; [by apply Hold|done]. }
  cbv beta. intros [] l1 H1. eapply runs_bind.
  { eapply (runs_frees skaidb_value_free (fun b => exists x, b = AValue x)); [|by eapply fresh_in_NoDup| |exact H1].
    - intros c b' B' l' Hg Hb Hl. by eapply free_value.
    - intros c Hc. destruct (Hvs c Hc) as [x Hx]. exists (AValue x). split; [|by exists x].
      rewrite dels_lookup, decide_False; [by apply Hold|]. intros Hck.
      destruct (fresh_in_some B ks kbs c Hk Hck) as (i & b' & _ & _ & E).
      pose proof (fresh_in_None _ _ _ _ Hv Hc). congruence. }
  cbv beta. intros [] l2 H2.
  assert (Hnk : forall c, V !! c = None -> c ∉ ks /\ c ∉ vs).
  { intros c Hc. split; intros Hin; [destruct (Hks c Hin)|destruct (Hvs c Hin)]; congruence. }
  destruct (Hnk keyv Ek) as [Hnk1 Hnk2]. destruct (Hnk valv Ev) as [Hnk3 Hnk4].
  eapply runs_bind; [eapply runs_free; [exact H2|]|].
  { rewrite !dels_lookup, !decide_False by done. rewrite !lookup_insert_ne by done. by rewrite lookup_insert_eq. }
  cbv beta. intros [] l3 H3. eapply runs_bind; [eapply runs_free; [exact H3|]|].
  { rewrite lookup_delete_ne, !dels_lookup, !decide_False by done. rewrite lookup_insert_ne by done.
    by rewrite lookup_insert_eq. }
  cbv beta. intros [] l4 H4. apply runs_ret. split; [done|].
  unfold V in H4. by rewrite (without_arrays B ks kbs vs vbs) in H4.
Qed.

Lemma copy_document B v :
  points B v (VDocument doc) ->
  makes (n ← skaidb_value_document_len v;
         keys ← gather (copy_key v) 0 n;
         vals ← gather (fun i => x ← skaidb_value_document_value v i; copier x) 0 n;
         keyv ← alloc (Pointers keys);
         valv ← alloc (Pointers vals);
         r ← skaidb_value_document (Some (at_addr keyv)) (Some (at_addr valv)) n;
         _ ← for_all free_ptr keys;
         _ ← for_all skaidb_value_free vals;
         _ ← free keyv;
         _ ← free valv;
         mret r) B (VDocument doc).
Proof.
  intros Hv. apply (makes_step _ _ _ _ (length doc)).
  { intros l e o Hh. unfold skaidb_value_document_len. erewrite bind_step; [|by eapply val_points]. reflexivity. }
  intros l e o Hh. eapply runs_bind; [by eapply copy_keys|]. cbv beta. intros rs l1 (ks & -> & Hk & H1).
  eapply runs_bind; [eapply copy_fields; [eapply points_weaken; [by apply grown_subseteq|done]|done]|].
  cbv beta. intros rs l2 (vs & -> & Hvs & H2).
  set (K := grown B ks (terminated <$> doc.*1)) in *. set (V := grown K vs (AValue <$> doc.*2)) in *.
  eapply runs_bind; [by apply runs_alloc|]. cbv beta. intros keyv l3 [Ek H3].
  eapply runs_bind; [by apply runs_alloc|]. cbv beta. intros valv l4 [Ev H4].
  apply lookup_insert_None in Ev as [Ev Hkv].
  assert (Hold : forall c x, V !! c = Some x -> <[valv := Pointers (handles vs)]> (<[keyv := Pointers (handles ks)]> V) !! c = Some x).
  { intros c x Hc. rewrite !lookup_insert_ne; congruence. }
  eapply runs_bind.
  { eapply (make_document _ _ _ _ keyv valv ks vs); [exact H4|..].
    - rewrite lookup_insert_ne by done. by rewrite lookup_insert_eq.
    - by rewrite lookup_insert_eq.
    - rewrite (fresh_in_length _ _ _ Hk). by rewrite !length_fmap.
    - rewrite (fresh_in_length _ _ _ Hvs). by rewrite !length_fmap.
    - intros i a k Hi Hd. apply Hold. eapply lookup_weaken; [|by apply grown_subseteq].
      eapply grown_new; [done|done|]. by rewrite list_lookup_fmap, Hd.
    - intros i a x Hi Hx. apply Hold. eapply grown_new; [done|done|]. by apply values_lookup. }
  cbv beta. intros r l5 (a & -> & Ea & H5). rewrite !lookup_insert_None in Ea. destruct Ea as [[Ea Hka] Hva].
  eapply runs_weaken; [by eapply (free_arrays B)|].
  intros r l6 [-> H6]. exists a. split_and!; [done| |done].
  eapply lookup_weaken_None; [|etrans; [by apply grown_subseteq|by apply (grown_subseteq K)]]. done.
Qed.

End documents.

(** ** Properties *)

Lemma enough {A} (Q : nat -> A -> Prop) (xs : list A) :
  Forall (fun x => exists n0, forall n, (n0 <= n)%nat -> Q n x) xs ->
  exists n0, forall n, (n0 <= n)%nat -> Forall (Q n) xs.
Proof.
  induction 1 as [|x xs [n0 Hx] _ [n1 IH]]; [by exists 0%nat|]. exists (n0 `max` n1)%nat. intros n Hn.
  constructor; [apply Hx; lia|apply IH; lia].
Qed.

(** An accessor of the value behind [v]. *)
Lemma reads_value {A} (f : option Value -> A) B e o l v x :
  has B e o l -> points B v x -> (x ← val v; mret (f x)) l = (Ok (f (Some x)), l).
Proof. intros Hh Hv. erewrite bind_step; [|by eapply val_points]. reflexivity. Qed.

Lemma copy_copies x :
  wf_value x = true -> portable x = true -> exists n0, forall n, (n0 <= n)%nat -> copies (copy n) x.
Proof.
  induction x as [|b|i|f|d|s|s|u|t|items IH|doc IH] using value_ind'; cbn [wf_value portable]; intros Hw Hp.
  1-9: exists 1%nat; intros [|n] Hn; [lia|]; intros B v Hv; cbn [copy];
    (eapply makes_step; [intros l e o Hh; by eapply reads_value|]); cbv beta iota.
  - apply makes_box.
  - eapply makes_step; [intros l e o Hh; by eapply reads_value|]. destruct b; apply makes_box.
  - eapply makes_step; [intros l e o Hh; by eapply reads_value|]. apply makes_box.
  - eapply makes_step; [intros l e o Hh; by eapply reads_value|]. apply makes_box.
  - apply copy_decimal; [done| |done]. intros E. by rewrite E in Hp.
  - apply copy_string; [|done]. by apply andb_true_iff in Hw as [? _].
  - by apply copy_bytes.
  - apply copy_uuid; [|done]. by apply Nat.eqb_eq.
  - eapply makes_step; [intros l e o Hh; by eapply reads_value|]. apply makes_box.
  - apply andb_true_iff in Hw as [_ Hw]. rewrite forallb_forall in Hw, Hp.
    destruct (enough (fun n x => copies (copy n) x) items) as [n0 Hn0].
    { rewrite Forall_forall in IH |- *. intros x Hx. pose proof (proj1 (list_elem_of_In _ _) Hx) as Hi. by apply IH; auto. }
    exists (S n0). intros [|n] Hn; [lia|]. intros B v Hv. cbn [copy].
    eapply makes_step; [intros l e o Hh; by eapply reads_value|]. cbv beta iota. apply copy_array; [|done].
    intros i x Hi. assert (Hc := Hn0 n ltac:(lia)). rewrite Forall_forall in Hc.
    apply Hc. by eapply list_elem_of_lookup_2.
  - apply andb_true_iff in Hw as [[_ Hs]%andb_true_iff Hw]. rewrite forallb_forall in Hw, Hp.
    destruct (enough (fun n (kv : bytes * Value) => copies (copy n) kv.2) doc) as [n0 Hn0].
    { rewrite Forall_forall in IH |- *. intros kv Hx. pose proof (proj1 (list_elem_of_In _ _) Hx) as Hi.
      specialize (Hw kv Hi). specialize (Hp kv Hi). apply andb_true_iff in Hw as [_ Hw], Hp as [_ Hp]. by apply IH. }
    exists (S n0). intros [|n] Hn; [lia|]. intros B v Hv. cbn [copy].
    eapply makes_step; [intros l e o Hh; by eapply reads_value|]. cbv beta iota. apply copy_document; [| |done|done].
    + intros i x Hi. rewrite list_lookup_fmap in Hi. destruct (doc !! i) as [kv|] eqn:Ek; [|done]. injection Hi as <-.
      assert (Hc := Hn0 n ltac:(lia)). rewrite Forall_forall in Hc. apply (Hc kv). by eapply list_elem_of_lookup_2.
    + intros k Hk. apply list_elem_of_fmap in Hk as (kv & -> & Hk). apply list_elem_of_In in Hk.
      specialize (Hw kv Hk). specialize (Hp kv Hk). apply andb_true_iff in Hw as [[Hu _]%andb_true_iff _], Hp as [Hnul _].
      split; [by apply bool_decide_eq_true in Hnul|done].
Qed.


(** ** Fields by path *)

Lemma position_finds k (d : Document) :
  match doc_get d k with
  | Some x => exists i k', position_of k d = Some i /\ d !! i = Some (k', x)
  | None => position_of k d = None
  end.
Proof.
  unfold doc_get. induction d as [|[k' x] d IH]; [done|]. cbn [bt_get position_of].
  destruct (kcmp k k'); [by exists 0%nat, k'|..];
    (destruct (bt_get k d) as [y|]; [destruct IH as (i & k0 & -> & Hi); by exists (S i), k0|by rewrite IH]).
Qed.

Lemma locate_finds (d : Document) segs :
  match get_segments d segs with
  | Some x => exists q, locate d segs = Some q /\ value_in (VDocument d) q = Some x
  | None => locate d segs = None
  end.
Proof.
  revert d. induction segs as [|k segs IH]; intros d; [done|].
  pose proof (position_finds k d) as Hk. destruct segs as [|k2 segs].
  - cbn [get_segments locate]. destruct (doc_get d k) as [x|]; [|by rewrite Hk].
    destruct Hk as (i & k' & -> & Hi). exists [i]. split; [done|]. cbn [value_in]. by rewrite Hi.
  - remember (k2 :: segs) as l eqn:El.
    replace (get_segments d (k :: l)) with
      (match doc_get d k with Some (VDocument d) => get_segments d l | _ => None end) by by rewrite El.
    replace (locate d (k :: l)) with
      (i ← position_of k d; match doc_get d k with Some (VDocument d) => q ← locate d l; Some (i :: q) | _ => None end)
      by by rewrite El.
    destruct (doc_get d k) as [x|]; [|by rewrite Hk]. destruct Hk as (i & k' & -> & Hi). cbn [mbind option_bind].
    destruct x; try done. specialize (IH doc). destruct (get_segments doc l) as [y|]; [|by rewrite IH].
    destruct IH as (q & -> & Hq). exists (i :: q). split; [done|]. cbn [value_in]. by rewrite Hi.
Qed.

Lemma points_within B v x q y : points B v x -> value_in x q = Some y -> points B (part v q) y.
Proof.
  intros (p & b & -> & Hb & Hv) Hq. exists (inside p q), b. split_and!; [done|done|].
  cbn [inside path]. by rewrite (value_of_app _ _ _ _ Hv).
Qed.

(** [skaidb_value_document_get], on a pointer to a document anywhere (in
    a box, a row, a result) and a C string, changes nothing and gives a
    pointer to the very field [get_path] finds, inside the same block, or NULL
    when it finds none. *)
Theorem document_get_points l v d path key :
  ok l -> points (body l) v (VDocument d) ->
  body l !! path = Some (terminated key) -> NUL ∉ key -> utf8_valid key = true ->
  exists r, skaidb_value_document_get v (Some (at_addr path)) l = (Ok r, l)
    /\ match get_path d key with
       | Some x => points (body l) r x /\ exists q, r = part v q
       | None => r = None
       end.
Proof.
  intros Hl Hv Hp Hn Hu. pose proof (has_self l Hl) as Hh. pose proof (locate_finds d (split_on dot key)) as Hf.
  rewrite get_path_segments. unfold skaidb_value_document_get, or_null.
  exists (match locate d (split_on dot key) with Some q => part v q | None => None end). split.
  - apply handle_done. left. erewrite bind_step; [|by eapply cstr_text]. cbv beta iota.
    rewrite (bind_step _ _ l (Some (VDocument d)) l) by (by eapply val_points).
    done.
  - destruct (get_segments d (split_on dot key)) as [x|]; [|by rewrite Hf].
    destruct Hf as (q & -> & Hq). split; [|by exists q]. by eapply points_within.
Qed.

End copying.

(** ** A value copied *)

#[local] Instance wit_powi : Powi := powi_by_squaring.

Definition wit_value : Value :=
  VDocument [(str "a", VArray [VInt 7; VNull; VString [x00; x41]]);
             (str "b", VDecimal {| mantissa := -150; scale := 2 |}); (str "c", VUuid (replicate 16 x01))].

(** A result of one row, with nothing else allocated. *)
Definition wit_lib : Lib unit := {|
  heap := <[1%positive := terminated []]> (<[2%positive := terminated []]> (<[3%positive :=
    AResult (Abi.Rows {| Abi.columns := []; rows := [[VNull; VArray [wit_value]]] |})]> ∅));
  next := 4; LAST_ERROR := 1; KEY_SCRATCH := 2;
  lib_world := {| w_net := []; w_probe := []; w_process := wit_process |}; lib_pool := tt; lib_clock := [];
  lib_dropped := [] |}.

Lemma wit_lib_ok : ok wit_lib.
Proof.
  split; [|done|exists []; split; [done|apply not_elem_of_nil]|by eexists]. intros a Ha. cbn in Ha. rewrite !lookup_insert_is_Some in Ha.
  destruct Ha as [<-|[_ [<-|[_ [<-|[_ Ha]]]]]]; [done..|]. rewrite lookup_empty in Ha. by destruct Ha.
Qed.


(** A row holding a document, and a path. *)
Definition wit_path_lib : Lib unit :=
  with_fresh (with_block 4 (terminated (str "b.c")) {|
    heap := <[1%positive := terminated []]> (<[2%positive := terminated []]> (<[3%positive :=
      ARow [VDocument [(str "a", VNull); (str "b", VDocument [(str "c", VInt 5)])]]]> ∅));
    next := 4; LAST_ERROR := 1; KEY_SCRATCH := 2;
    lib_world := {| w_net := []; w_probe := []; w_process := wit_process |}; lib_pool := tt; lib_clock := [];
    lib_dropped := [] |}).

Lemma document_get_points_witness : exists r,
  skaidb_value_document_get (Some {| base := 3; path := [0%nat] |}) (Some (at_addr 4)) wit_path_lib
  = (Ok r, wit_path_lib) /\ points (body wit_path_lib) r (VInt 5).
Proof.
  destruct (document_get_points wit_path_lib (Some {| base := 3; path := [0%nat] |})
    [(str "a", VNull); (str "b", VDocument [(str "c", VInt 5)])] 4 (str "b.c")) as (r & E & Hr & _).
  - split; [|done|exists []; split; [done|apply not_elem_of_nil]|by eexists].
    intros a Ha. cbn in Ha. rewrite !lookup_insert_is_Some in Ha.
    destruct Ha as [<-|[_ [<-|[_ [<-|[_ [<-|[_ Ha]]]]]]]]; [done..|]. rewrite lookup_empty in Ha. by destruct Ha.
  - by eexists _, _.
  - done.
  - apply (bool_decide_unpack _). by vm_compute.
  - by vm_compute.
  - by exists r.
Defined.
