(* ===== verification/AbiResult.v ===== *)
(** * Results in C

    The exported accessors of [skaidb_result_t] and [skaidb_results_t], and how
    a response becomes one. *)
From stdpp Require Import gmap.
From S2P Require Import Prelude Bytes Text Value Message Effect Login Session RowStream Abi.
#[local] Open Scope Z_scope.

Inductive skaidb_result_kind :=
| SKAIDB_RESULT_ROWS | SKAIDB_RESULT_MUTATION | SKAIDB_RESULT_DDL | SKAIDB_RESULT_ERROR | SKAIDB_RESULT_SETS.

(** The text the derived [Debug] of a response gives it. *)
Class ResponseDebug := response_debug : Response -> bytes.

Section results.
Context {P : Type} `{Debug : ResponseDebug}.
Abbreviation call A := (eff stop (Lib P) A).

(** ** From a response *)

(** [c_string_lossy] of each, in order. *)
Fixpoint c_strings (names : list bytes) : call (list addr) :=
  match names with
  | [] => mret []
  | s :: names => a ← alloc (terminated (c_string_lossy s)); l ← c_strings names; mret (a :: l)
  end.

Definition row_set (columns : list bytes) (rows : list (list Value)) : call skaidb_result :=
  names ← c_strings columns; mret (Abi.Rows {| columns := names; rows := rows |}).

Fixpoint row_sets (sets : list (list bytes * list (list Value))) : call (list skaidb_result) :=
  match sets with
  | [] => mret []
  | (columns, rows) :: sets => r ← row_set columns rows; l ← row_sets sets; mret (r :: l)
  end.

Definition result_of (resp : Response) : call skaidb_result :=
  match resp with
  | Message.Rows columns rows => row_set columns rows
  | Message.Mutation affected => mret (Abi.Mutation affected)
  | Message.Ddl => mret Abi.Ddl
  | Message.Error m => a ← alloc (terminated (c_string_lossy m)); mret (Abi.Error a)
  | ResultSets sets => l ← row_sets sets; mret (Abi.Sets l)
  | _ => a ← alloc (terminated (c_string_lossy (str "unexpected response " ++ response_debug resp))); mret (Abi.Error a)
  end.

Fixpoint results_of (rs : list Response) : call (list skaidb_result) :=
  match rs with
  | [] => mret []
  | r :: rs => r ← result_of r; l ← results_of rs; mret (r :: l)
  end.

(** ** Freeing: the strings a result owns go with it *)

Definition free_all (l : list addr) : call unit := for_all free l.

Fixpoint strings_of (r : skaidb_result) : list addr :=
  match r with
  | Abi.Rows rs => rs.(columns)
  | Abi.Error m => [m]
  | Abi.Sets sets => flat_map strings_of sets
  | _ => []
  end.

Definition skaidb_result_free (result : ptr) : call unit :=
  match result with
  | None => mret tt
  | Some p =>
      b ← load p.(base);
      match b, p.(path) with
      | AResult r, [] => _ ← free p.(base); free_all (strings_of r)
      | _, _ => undefined
      end
  end.

Definition skaidb_results_free (results : ptr) : call unit :=
  match results with
  | None => mret tt
  | Some p =>
      b ← load p.(base);
      match b, p.(path) with
      | Results rs, [] => _ ← free p.(base); free_all (flat_map strings_of rs)
      | _, _ => undefined
      end
  end.

(** ** A pipeline's results *)

Definition all_results (b : block) (q : list nat) : option (list skaidb_result) :=
  match b, q with Results rs, [] => Some rs | _, _ => None end.

Definition skaidb_results_len (results : ptr) : call nat :=
  match results with None => mret 0%nat | Some p => rs ← look all_results p; mret (length rs) end.

Definition skaidb_results_get (results : ptr) (index : nat) : call ptr :=
  match results with
  | None => mret None
  | Some p => rs ← look all_results p; mret (if (index <? length rs)%nat then Some (inside p [index]) else None)
  end.

(** ** One result *)

Definition skaidb_result_kind_of (result : ptr) : call skaidb_result_kind :=
  match result with
  | None => mret SKAIDB_RESULT_ERROR
  | Some p =>
      r ← look Abi.result_of p;
      mret match r with
           | Abi.Rows _ => SKAIDB_RESULT_ROWS
           | Abi.Mutation _ => SKAIDB_RESULT_MUTATION
           | Abi.Ddl => SKAIDB_RESULT_DDL
           | Abi.Error _ => SKAIDB_RESULT_ERROR
           | Abi.Sets _ => SKAIDB_RESULT_SETS
           end
  end.

Definition rowset (result : ptr) : call (option RowSet) :=
  match result with
  | None => mret None
  | Some p => r ← look Abi.result_of p; mret match r with Abi.Rows rs => Some rs | _ => None end
  end.

Definition skaidb_result_column_count (result : ptr) : call nat :=
  rs ← rowset result; mret match rs with Some rs => length rs.(columns) | None => 0%nat end.

Definition skaidb_result_column_name (result : ptr) (column : nat) : call ptr :=
  rs ← rowset result; mret (rs ← rs; a ← rs.(columns) !! column; Some (at_addr a)).

Definition skaidb_result_row_count (result : ptr) : call nat :=
  rs ← rowset result; mret match rs with Some rs => length rs.(rows) | None => 0%nat end.

Definition skaidb_result_cell (result : ptr) (row column : nat) : call ptr :=
  rs ← rowset result;
  mret (rs ← rs; vs ← rs.(rows) !! row; _ ← vs !! column; p ← result; Some (inside p [row; column])).

Definition skaidb_result_affected (result : ptr) : call Z :=
  match result with
  | None => mret 0
  | Some p => r ← look Abi.result_of p; mret match r with Abi.Mutation n => n | _ => 0 end
  end.

Definition skaidb_result_error (result : ptr) : call ptr :=
  match result with
  | None => mret None
  | Some p => r ← look Abi.result_of p; mret match r with Abi.Error m => Some (at_addr m) | _ => None end
  end.

Definition skaidb_result_set_count (result : ptr) : call nat :=
  match result with
  | None => mret 0%nat
  | Some p => r ← look Abi.result_of p; mret match r with Abi.Sets s => length s | _ => 0%nat end
  end.

Definition skaidb_result_set (result : ptr) (index : nat) : call ptr :=
  match result with
  | None => mret None
  | Some p =>
      r ← look Abi.result_of p;
      mret match r with
           | Abi.Sets s => if (index <? length s)%nat then Some (inside p [index]) else None
           | _ => None
           end
  end.

End results.
