(* ===== verification/AbiClient.v ===== *)
(** * Clients in C

    The exported functions that connect, change a session's settings and run
    statements: [Client]'s methods on the connection behind a handle. *)
From stdpp Require Import gmap.
From S2P Require Import Prelude Bytes Text Value Message Effect Balancer Login Session RowStream Abi AbiResult.
#[local] Open Scope Z_scope.

Section clients.
Context {P : Type} `{Pool P} `{Debug : ResponseDebug}.
Context {G : Type} (kerberos : bool)
  (gss_new : bytes -> option bytes -> res bytes (G * bytes))
  (gss_step : G -> bytes -> res bytes (ClientStep G))
  (sha384 sha512 : bytes -> bytes).
(** The wording of I/O errors; [TlsConfig::new], whose settings are the
    world's; and what an address resolves to. *)
Context (io_text : io_error -> bytes) (tls_new : verify_mode -> bytes -> res DriverError unit)
  (resolve : bytes -> res io_error (list bytes)).
Abbreviation call A := (eff stop (Lib P) A).
Abbreviation session A := (eff DriverError (Session P) A).
Abbreviation with_stmt A := (eff DriverError (Session P * Prepared) A).
Abbreviation fail_driver := (fail_driver io_text).

(** ** The client behind a handle *)

Definition enter (c : Client) (l : Lib P) : Session P := {|
  client := c; world := l.(lib_world); pool := l.(lib_pool); clock := l.(lib_clock);
  dropped := l.(lib_dropped) |}.

(** What a session's calls change but the client. *)
Definition with_outside (s : Session P) (l : Lib P) : Lib P := {|
  heap := l.(heap); next := l.(next); LAST_ERROR := l.(LAST_ERROR); KEY_SCRATCH := l.(KEY_SCRATCH);
  lib_world := s.(world); lib_pool := s.(pool); lib_clock := s.(clock); lib_dropped := s.(dropped) |}.

Definition leave (a : addr) (s : Session P) (l : Lib P) : Lib P :=
  with_outside s (with_block a (AClient s.(client)) l).

(** [map_err(fail_driver)]. *)
Definition or_fail {A} (r : res DriverError A) : call A :=
  match r with
  | Ok a => mret a
  | Err e => fail_driver e
  | Panic => of_res Panic
  | OutOfFuel => of_res OutOfFuel
  end.

Definition client_at (a : addr) : call Client :=
  b ← load a; match b with AClient c => mret c | _ => undefined end.

(** A method of the client at [a]. *)
Definition on_client_at {A} (a : addr) (m : session A) : call A :=
  c ← client_at a;
  r ← (fun l => let '(r, s) := m (enter c l) in (Ok r, leave a s l));
  or_fail r.

Definition client_mut (client : ptr) : call addr :=
  match client with
  | None => fail SKAIDB_ERR_INVALID (str "client is NULL")
  | Some p =>
      _ ← client_at p.(base);
      match p.(path) with [] => mret p.(base) | _ => undefined end
  end.

(** ** Connecting *)

Definition tls_config (tls : ptr) : call unit :=
  match tls with
  | None => mret tt
  | Some p =>
      b ← load p.(base);
      match b, p.(path) with
      | Settings t, [] =>
          name ← cstr t.(server_name) (str "tls.server_name");
          verify ← match t.(verify) with
                   | 0 => f ← cstr t.(ca_file) (str "tls.ca_file"); mret (CaFile f)
                   | 1 => mret System
                   | 2 => mret Insecure
                   | _ => undefined
                   end;
          or_fail (tls_new verify name)
      | _, _ => undefined
      end
  end.

(** [connect_mode]'s new client. *)
Definition dialed (eps : list bytes) (l : Login) : eff DriverError (Lib P) Client := fun lib =>
  let '(r, (w, p)) := connect_mode kerberos gss_new gss_step sha384 sha512 eps l (lib.(lib_world), lib.(lib_pool)) in
  let lib := {| heap := lib.(heap); next := lib.(next); LAST_ERROR := lib.(LAST_ERROR);
                KEY_SCRATCH := lib.(KEY_SCRATCH); lib_world := w; lib_pool := p;
                lib_clock := lib.(lib_clock); lib_dropped := lib.(lib_dropped) |} in
  (client <$> r, lib).

(** [m.map_err(fail_driver)]. *)
Definition driven {A} (m : eff DriverError (Lib P) A) : call A :=
  r ← (fun lib => let '(r, lib) := m lib in (Ok r, lib)); or_fail r.

Definition connected (eps : list bytes) (l : Login) : call Client := driven (dialed eps l).

Definition endpoint_list (endpoints : ptr) (n : nat) : call (list bytes) :=
  eps ← cstr_list endpoints n (str "endpoints");
  match eps with [] => fail SKAIDB_ERR_INVALID (str "no endpoints") | _ => mret eps end.

Definition skaidb_connect (endpoints : ptr) (n_endpoints : nat) (username password tls out : ptr)
    : call skaidb_status :=
  boxed AClient out (
    eps ← endpoint_list endpoints n_endpoints;
    user ← cstr username (str "username");
    pass ← cstr password (str "password");
    _ ← tls_config tls;
    connected eps (password_login user pass)).

(** [Client::connect]: the addresses the name resolves to, anonymously. *)
Definition skaidb_connect_anonymous (endpoint out : ptr) : call skaidb_status :=
  boxed AClient out (
    ep ← cstr endpoint (str "endpoint");
    eps ← or_fail (map_err Io (resolve ep));
    match eps with
    | [] => fail_driver (NoEndpoint (str "address did not resolve") None)
    | _ => connected eps (password_login (str "anonymous") [])
    end).

Definition skaidb_connect_gssapi (endpoints : ptr) (n_endpoints : nat) (principal target_spn tls out : ptr)
    : call skaidb_status :=
  boxed AClient out (
    eps ← endpoint_list endpoints n_endpoints;
    principal ← cstr principal (str "principal");
    spn ← cstr target_spn (str "target_spn");
    _ ← tls_config tls;
    connected eps (gssapi_login principal spn)).

(** Dropping a client drops its connection, and tells the pool that counts it. *)
Definition drop_client {E} (c : Client) : eff E (Lib P) unit :=
  changes (fun l => {|
    heap := l.(heap); next := l.(next); LAST_ERROR := l.(LAST_ERROR); KEY_SCRATCH := l.(KEY_SCRATCH);
    lib_world := l.(lib_world);
    lib_pool := match c.(link) with Some k => pool_closed_out k l.(lib_pool) | None => l.(lib_pool) end;
    lib_clock := l.(lib_clock); lib_dropped := l.(lib_dropped) ++ [c.(Session.stream)] |}).

Definition skaidb_client_free (client : ptr) : call unit :=
  match client with
  | None => mret tt
  | Some p =>
      c ← client_at p.(base);
      match p.(path) with [] => _ ← drop_client c; free p.(base) | _ => undefined end
  end.

(** ** Settings *)

Definition done {A} (m : call A) : call skaidb_status := status (_ ← m; mret SKAIDB_OK).

Definition skaidb_client_use_database (client database : ptr) : call skaidb_status :=
  done (db ← cstr database (str "database"); c ← client_mut client; on_client_at c (use_database db)).

(** The error of a NULL client is set all the same. *)
Definition skaidb_client_set_consistency (client : ptr) (consistency : Z) : call unit :=
  handle (c ← client_mut client; k ← consistency_of consistency; on_client_at c (set_consistency k))
    (fun e => match e with Status _ => mret tt | Undefined => undefined end).

Definition skaidb_client_set_scan_budget_rows (client : ptr) (rows : Z) : call skaidb_status :=
  done (c ← client_mut client; on_client_at c (set_scan_budget_rows rows)).

Definition skaidb_client_endpoint_dup (client : ptr) : call ptr :=
  match client with
  | None => mret None
  | Some _ => a ← client_mut client; c ← client_at a; dup c.(Session.connected)
  end.

Definition skaidb_client_add_endpoints (client endpoints : ptr) (n_endpoints : nat) : call skaidb_status :=
  done (eps ← cstr_list endpoints n_endpoints (str "endpoints");
        c ← client_mut client; on_client_at c (add_endpoints eps)).

Definition skaidb_client_reconnect (client : ptr) : call skaidb_status :=
  done (c ← client_mut client; on_client_at c (reconnect kerberos gss_new gss_step sha384 sha512)).

(** ** Statements *)

Definition boxed_response (out : ptr) (m : call Response) : call skaidb_status :=
  boxed AResult out (r ← m; result_of r).

Definition skaidb_execute (client sql out : ptr) : call skaidb_status :=
  boxed_response out (
    c ← client_mut client;
    sql ← cstr sql (str "sql");
    on_client_at c (execute kerberos gss_new gss_step sha384 sha512 sql)).

Definition skaidb_execute_with (client sql : ptr) (consistency : Z) (out : ptr) : call skaidb_status :=
  boxed_response out (
    c ← client_mut client;
    sql ← cstr sql (str "sql");
    k ← consistency_of consistency;
    on_client_at c (execute_with kerberos gss_new gss_step sha384 sha512 sql k)).

Definition skaidb_prepare (client sql out : ptr) : call skaidb_status :=
  boxed APrepared out (
    c ← client_mut client;
    sql ← cstr sql (str "sql");
    on_client_at c (prepare kerberos gss_new gss_step sha384 sha512 sql)).

Definition prepared_at (stmt : ptr) : call (addr * Prepared) :=
  match stmt with
  | None => fail SKAIDB_ERR_INVALID (str "stmt is NULL")
  | Some p =>
      b ← load p.(base);
      match b, p.(path) with APrepared s, [] => mret (p.(base), s) | _, _ => undefined end
  end.

(** [if stmt.is_null() { return Err(..) }]. *)
Definition stmt_given (stmt : ptr) : call unit :=
  match stmt with None => fail SKAIDB_ERR_INVALID (str "stmt is NULL") | Some _ => mret tt end.

Definition skaidb_prepared_params (stmt : ptr) : call Z :=
  match stmt with None => mret 0 | Some _ => s ← prepared_at stmt; mret s.2.(stmt_params) end.

Definition skaidb_prepared_free (stmt : ptr) : call unit :=
  match stmt with None => mret tt | Some _ => s ← prepared_at stmt; free s.1 end.

(** A call that may prepare the statement again, failed or not. *)
Definition on_stmt_at {A} (a : addr) (stmt : ptr) (m : with_stmt A) : call A :=
  s ← prepared_at stmt;
  c ← client_at a;
  r ← (fun l => let '(r, (t, p)) := m (enter c l, s.2) in (Ok r, with_block s.1 (APrepared p) (leave a t l)));
  or_fail r.

Definition skaidb_execute_prepared (client stmt params : ptr) (n_params : nat) (out : ptr) : call skaidb_status :=
  boxed_response out (
    c ← client_mut client;
    _ ← stmt_given stmt;
    params ← params_slice params n_params;
    on_stmt_at c stmt (execute_prepared kerberos gss_new gss_step sha384 sha512 params)).

Definition skaidb_execute_prepared_with (client stmt params : ptr) (n_params : nat) (consistency : Z) (out : ptr)
    : call skaidb_status :=
  boxed_response out (
    c ← client_mut client;
    _ ← stmt_given stmt;
    params ← params_slice params n_params;
    k ← consistency_of consistency;
    on_stmt_at c stmt (execute_prepared_with kerberos gss_new gss_step sha384 sha512 params k)).

Definition batch_rows (rows : ptr) (n_rows n_params : nat) : call (list (list Value)) :=
  match n_rows, rows with
  | O, _ => mret []
  | _, None => fail SKAIDB_ERR_INVALID (str "rows is NULL")
  | _, Some p => gather (fun r => row ← load_ptr p r; params_slice row n_params) 0 n_rows
  end.

Definition skaidb_execute_batch (client stmt rows : ptr) (n_rows n_params : nat) (affected : ptr)
    : call skaidb_status :=
  status (
    c ← client_mut client;
    _ ← stmt_given stmt;
    match affected with
    | None => fail SKAIDB_ERR_INVALID (str "affected is NULL")
    | Some out =>
        batch ← batch_rows rows n_rows n_params;
        n ← on_stmt_at c stmt (execute_batch kerberos gss_new gss_step sha384 sha512 batch);
        _ ← store_num out n;
        mret SKAIDB_OK
    end).

(** [Client::pipeline]. *)
Definition pipeline (stmts : list bytes) : session (list Response) :=
  k ← ask default_consistency; pipeline_with kerberos gss_new gss_step sha384 sha512 stmts k.

Definition skaidb_pipeline (client statements : ptr) (n_statements : nat) (out : ptr) : call skaidb_status :=
  boxed Results out (
    c ← client_mut client;
    stmts ← cstr_list statements n_statements (str "statements");
    rs ← on_client_at c (pipeline stmts);
    results_of rs).

(** ** Change streams *)

Definition POLL_COLUMNS : list bytes := [str "id"; str "op"; str "k"; str "ts"; str "doc"].

(** [cursor] is set by the closure that [boxed] runs. *)
Definition skaidb_stream_poll (client log after : ptr) (limit : Z) (events next_cursor : ptr)
    : call skaidb_status :=
  status (
    match next_cursor with
    | None => fail SKAIDB_ERR_INVALID (str "next_cursor is NULL")
    | Some next_cursor =>
        match events with
        | None => fail SKAIDB_ERR_INVALID (str "out is NULL")
        | Some events =>
            c ← client_mut client;
            name ← cstr log (str "stream");
            after ← cstr_opt after (str "after");
            polled ← on_client_at c (stream_poll kerberos gss_new gss_step sha384 sha512 name (default [] after) limit);
            r ← row_set POLL_COLUMNS polled.1;
            a ← alloc (AResult r);
            _ ← store_ptr events (Some (at_addr a));
            text ← dup polled.2;
            _ ← store_ptr next_cursor text;
            mret SKAIDB_OK
        end
    end).

End clients.
