(* ===== verification/AbiStream.v ===== *)
(** * Streamed results in C

    The exported functions of [skaidb_stream_t]: a row stream with its client's
    borrow erased, the C strings of its column names, and the last row as the
    array of cell pointers C was handed. *)
From stdpp Require Import gmap.
From S2P Require Import Prelude Bytes Text Value Message Effect Balancer Login Session RowStream Abi AbiResult AbiClient.
#[local] Open Scope Z_scope.

Section streams.
Context {P : Type} `{Pool P}.
Context {G : Type} (kerberos : bool)
  (gss_new : bytes -> option bytes -> res bytes (G * bytes))
  (gss_step : G -> bytes -> res bytes (ClientStep G))
  (sha384 sha512 : bytes -> bytes) (io_text : io_error -> bytes).
Abbreviation call A := (eff stop (Lib P) A).
Abbreviation streaming A := (eff DriverError (Session P * RowStream) A).
Abbreviation fail_driver := (fail_driver io_text).

(** ** Opening *)

Definition start_stream (sql : bytes) (params : list Value) (k : option Consistency)
    : eff DriverError (Session P) RowStream :=
  match k with
  | Some k => query_stream_params_with kerberos gss_new gss_step sha384 sha512 sql params k
  | None => query_stream_params kerberos gss_new gss_step sha384 sha512 sql params
  end.

(** The buffers of an empty row. *)
Definition open_stream (client sql : ptr) (params : list Value) (k : option Consistency) : call skaidb_stream :=
  c ← client_mut client;
  sql ← cstr sql (str "sql");
  s ← on_client_at io_text c (start_stream sql params k);
  names ← c_strings s.(RowStream.columns);
  row ← alloc (ARow []);
  ptrs ← alloc (Pointers []);
  mret {| stream := s; stream_client := c; stream_columns := names; past_columns := [];
          current := row; current_ptrs := ptrs |}.

Definition some_consistency (c : Z) : call (option Consistency) := k ← consistency_of c; mret (Some k).

Definition skaidb_query_stream (client sql out : ptr) : call skaidb_status :=
  boxed AStream out (open_stream client sql [] None).

Definition skaidb_query_stream_with (client sql : ptr) (consistency : Z) (out : ptr) : call skaidb_status :=
  boxed AStream out (k ← some_consistency consistency; open_stream client sql [] k).

Definition skaidb_query_stream_params (client sql params : ptr) (n_params : nat) (out : ptr) : call skaidb_status :=
  boxed AStream out (params ← params_slice params n_params; open_stream client sql params None).

Definition skaidb_query_stream_params_with (client sql params : ptr) (n_params : nat) (consistency : Z) (out : ptr)
    : call skaidb_status :=
  boxed AStream out (
    params ← params_slice params n_params; k ← some_consistency consistency; open_stream client sql params k).

(** ** Reading *)

Definition stream_at (a : addr) : call skaidb_stream :=
  b ← load a; match b with AStream s => mret s | _ => undefined end.

(** [&mut *stream]. *)
Definition stream_mut (p : place) : call (addr * skaidb_stream) :=
  s ← stream_at p.(base); match p.(path) with [] => mret (p.(base), s) | _ => undefined end.

Definition with_rows rows (s : skaidb_stream) : skaidb_stream := {|
  stream := rows; stream_client := s.(stream_client); stream_columns := s.(stream_columns);
  past_columns := s.(past_columns); current := s.(current); current_ptrs := s.(current_ptrs) |}.
Definition with_current row ptrs (s : skaidb_stream) : skaidb_stream := {|
  stream := s.(stream); stream_client := s.(stream_client); stream_columns := s.(stream_columns);
  past_columns := s.(past_columns); current := row; current_ptrs := ptrs |}.
Definition with_columns names (s : skaidb_stream) : skaidb_stream := {|
  stream := s.(stream); stream_client := s.(stream_client); stream_columns := names;
  past_columns := s.(past_columns) ++ [s.(stream_columns)]; current := s.(current);
  current_ptrs := s.(current_ptrs) |}.

(** A method of the row stream at [a], on its client's connection. *)
Definition on_rows_at {A} (a : addr) (m : streaming A) : call (res DriverError A) :=
  s ← stream_at a;
  c ← client_at s.(stream_client);
  ((fun l =>
    let '(r, (t, rows)) := m (enter c l, s.(stream)) in
    (Ok r, with_block a (AStream (with_rows rows s)) (leave s.(stream_client) t l))) : call _).

Definition skaidb_stream_column_count (stream : ptr) : call nat :=
  match stream with None => mret 0%nat | Some p => s ← stream_mut p; mret (length s.2.(stream_columns)) end.

Definition skaidb_stream_column_name (stream : ptr) (column : nat) : call ptr :=
  match stream with
  | None => mret None
  | Some p => s ← stream_mut p; mret (at_addr <$> s.2.(stream_columns) !! column)
  end.

Definition skaidb_stream_affected (stream : ptr) : call Z :=
  match stream with None => mret 0 | Some p => s ← stream_mut p; mret s.2.(Abi.stream).(affected) end.

(** The cells of a row, in place. *)
Definition cell_pointers (row : addr) (n : nat) : list ptr :=
  map (fun i => Some {| base := row; path := [i] |}) (seq 0 n).

(** The new row's buffers replace the old ones. *)
Definition put_row (a : addr) (r : list Value) : call addr :=
  s ← stream_at a;
  row ← alloc (ARow r);
  _ ← free s.(current);
  ptrs ← alloc (Pointers (cell_pointers row (length r)));
  _ ← free s.(current_ptrs);
  _ ← store a (AStream (with_current row ptrs s));
  mret ptrs.

Definition skaidb_stream_next (stream row n_columns : ptr) : call skaidb_status :=
  status
    match stream, row, n_columns with
    | Some p, Some row, Some n_columns =>
        s ← stream_mut p;
        got ← on_rows_at s.1 (RowStream.next : streaming _);
        match got with
        | Ok (Some r) =>
            ptrs ← put_row s.1 r;
            _ ← store_ptr row (Some (at_addr ptrs));
            _ ← store_num n_columns (Z.of_nat (length r));
            mret SKAIDB_OK
        | Err e => fail_driver e
        | Ok None =>
            _ ← store_ptr row None;
            _ ← store_num n_columns 0;
            mret SKAIDB_END
        | Panic => of_res Panic
        | OutOfFuel => of_res OutOfFuel
        end
    | _, _, _ => fail SKAIDB_ERR_INVALID (str "stream/row/n_columns is NULL")
    end.

(** [next_result_set] reads no connection. *)
Definition skaidb_stream_next_set (stream : ptr) : call skaidb_status :=
  status
    match stream with
    | None => fail SKAIDB_ERR_INVALID (str "stream is NULL")
    | Some p =>
        s ← stream_mut p;
        match s.2.(Abi.stream).(more) with
        | [] => mret SKAIDB_END
        | (columns, chunk) :: more =>
            let rows := {| RowStream.columns := columns; affected := s.2.(Abi.stream).(affected); chunk := chunk;
                           more := more; RowStream.done := s.2.(Abi.stream).(RowStream.done) |} in
            names ← c_strings columns;
            _ ← store s.1 (AStream (with_columns names (with_rows rows s.2)));
            mret SKAIDB_OK
        end
    end.

(** ** Freeing *)

(** Dropping the row stream drains it on its client's connection, unless it is
    done; then everything the handle owns goes. *)
Definition skaidb_stream_free (stream : ptr) : call unit :=
  match stream with
  | None => mret tt
  | Some p =>
      s ← stream_mut p;
      _ ← (if s.2.(Abi.stream).(RowStream.done) then mret tt
           else drained ← on_rows_at s.1 (drop_stream_rows : streaming _);
                match drained with
                | Ok _ | Err _ => mret tt
                | Panic => of_res Panic
                | OutOfFuel => of_res OutOfFuel
                end);
      _ ← free s.1;
      free_all (s.2.(stream_columns) ++ concat s.2.(past_columns) ++ [s.2.(current); s.2.(current_ptrs)])
  end.

End streams.
