(* ===== verification/AbiPool.v ===== *)
(** * Pools in C

    The exported functions of [skaidb_pool_t] and [skaidb_members_t]. A
    program has any number of balanced pools; a client's reports go to the one
    its link names. *)
From stdpp Require Import gmap.
From S2P Require Import Prelude Bytes Text Float64 Value Message Effect Balancer Login Session SessionCalls RowStream FactoryPool PoolConns Abi AbiResult AbiClient.
#[local] Open Scope Z_scope.

(** ** The balanced pools of a process *)

Abbreviation Pools := (gmap Z PoolWorld).

(** A link keeps its pool alive, so the pool it names is there. *)
Definition at_pool {A} (n : Z) (f : PoolWorld -> A * PoolWorld) (none : A) (ps : Pools) : A * Pools :=
  match ps !! n with
  | Some p => let '(a, p) := f p in (a, <[n := p]> ps)
  | None => (none, ps)
  end.

#[export] Instance pools_pool : Pool Pools := {
  pool_round_trip l ep d ps := prod_swap (at_pool l.(l_pool) (fun p => prod_swap (pool_round_trip l ep d p)) (set_member ep l) ps);
  pool_failed n ep ps := (at_pool n (fun p => (tt, pool_failed n ep p)) tt ps).2;
  pool_moved l ep ps := prod_swap (at_pool l.(l_pool) (fun p => prod_swap (pool_moved l ep p)) (set_member ep l) ps);
  pool_dial_order n lost ps := at_pool n (pool_dial_order n lost) [] ps;
  pool_read_your_writes n ps := match ps !! n with Some p => pool_read_your_writes n p | None => false end;
  pool_wrote n a ep ps := (at_pool n (fun p => (tt, pool_wrote n a ep p)) tt ps).2;
  pool_closed_out l ps := (at_pool l.(l_pool) (fun p => (tt, pool_closed_out l p)) tt ps).2;
}.

#[export] Instance pools_pool_laws : PoolLaws Pools.
Proof.
  split; [intros l ep d ps|intros l ep ps]; cbn [pool_round_trip pool_moved pools_pool]; unfold at_pool;
    destruct (ps !! l_pool l) as [p|]; try done.
  - pose proof (round_trip_link l ep d p) as E. by destruct (pool_round_trip l ep d p).
  - pose proof (moved_link l ep p) as E. by destruct (pool_moved l ep p).
Qed.

(** ** Options *)

Definition skaidb_pool_options_default : skaidb_pool_options := {|
  o_maxsize := 10; o_load_balancing := 0; o_idle_order := 0; o_discover := false;
  o_refresh_interval_ms := 60000; o_read_your_writes_ms := 0; o_eject_errors := 3;
  o_eject_latency_factor := f64_of_int 3; o_eject_latency_floor_ms := 50;
  o_eject_backoff_ms := 5000; o_eject_backoff_max_ms := 60000 |}.

Definition policy_of (n : Z) : option LoadBalancing :=
  match n with 0 => Some Random | 1 => Some RoundRobin | 2 => Some LeastLatency | _ => None end.
Definition idle_order_of (n : Z) : option IdleOrder :=
  match n with 0 => Some Lifo | 1 => Some Fifo | _ => None end.

(** The options as the builder takes them, or what is wrong with one. *)
Definition options_of (o : skaidb_pool_options) : res bytes PoolOptions :=
  match policy_of o.(o_load_balancing) with
  | None => Err (str "options.load_balancing " ++ int_text o.(o_load_balancing) ++ str " is not a skaidb_load_balancing_t")
  | Some policy =>
      match idle_order_of o.(o_idle_order) with
      | None => Err (str "options.idle_order " ++ int_text o.(o_idle_order) ++ str " is not a skaidb_idle_order_t")
      | Some order => Ok {|
          Balancer.maxsize := o.(o_maxsize); load_balancing := policy; idle_order := order; discover := o.(o_discover);
          refresh_interval := o.(o_refresh_interval_ms) * MILLI; read_your_writes := o.(o_read_your_writes_ms) * MILLI;
          eject_errors := o.(o_eject_errors); eject_latency_factor := o.(o_eject_latency_factor);
          eject_latency_floor := o.(o_eject_latency_floor_ms) * MILLI; eject_backoff := o.(o_eject_backoff_ms) * MILLI;
          eject_backoff_max := o.(o_eject_backoff_max_ms) * MILLI |}
      end
  end.

(** What C gets without options is what the driver's builder has. *)
Example defaults_agree : options_of skaidb_pool_options_default = Ok pool_options_default.
Proof. reflexivity. Qed.

Definition member_state_c (s : MemberState) : bytes :=
  match s with
  | Ready => str "ready" | Ejected => str "ejected" | Resyncing => str "resyncing"
  | Unreachable => str "unreachable" | Unlisted => str "unlisted"
  end.

Section pools.
Context {G : Type} (kerberos : bool)
  (gss_new : bytes -> option bytes -> res bytes (G * bytes))
  (gss_step : G -> bytes -> res bytes (ClientStep G))
  (sha384 sha512 : bytes -> bytes).
Context (io_text : io_error -> bytes) (tls_new : verify_mode -> bytes -> res DriverError unit).
(** What the clock and the random keys give a new pool: the first refresh, the
    seed, the instants it will read, and whether threads start. *)
Context (birth : Z -> Z * Z * list Z * bool).
Abbreviation call A := (eff stop (Lib Pools) A).
Abbreviation driving A := (eff DriverError (Lib Pools) A).

(** ** The pool behind a handle *)

Definition pool_at (p : place) : call skaidb_pool :=
  look (fun b q => match b, q with APool pl, [] => Some pl | _, _ => None end) p.

Definition pool_ref (pool : ptr) : call addr :=
  match pool with
  | None => fail SKAIDB_ERR_INVALID (str "pool is NULL")
  | Some p => _ ← pool_at p; mret p.(base)
  end.

(** A function that gives a pointer, NULL on an error. *)
Definition nullable (m : call ptr) : call ptr :=
  handle m (fun e => match e with Status _ => mret None | Undefined => undefined end).

(** An operation of a balanced pool, which keeps its idle connections here. *)
Definition conns_of (pw : PoolWorld) (idle : gmap Z Client) (n : Z) (l : Lib Pools) : Conns := {|
  cs_pool := pw; cs_idle := idle; cs_next := n; cs_world := l.(lib_world); cs_clock := l.(lib_clock);
  cs_dropped := l.(lib_dropped) |}.

Definition after_conns (a : addr) (b : PoolBuilder) (self : Z) (s : Conns) (l : Lib Pools) : Lib Pools :=
  with_block a (APool (Balanced b self s.(cs_idle) s.(cs_next))) {|
    heap := l.(heap); next := l.(next); LAST_ERROR := l.(LAST_ERROR); KEY_SCRATCH := l.(KEY_SCRATCH);
    lib_world := s.(cs_world); lib_pool := <[self := s.(cs_pool)]> l.(lib_pool); lib_clock := s.(cs_clock);
    lib_dropped := s.(cs_dropped) |}.

Definition on_balanced {A} (a : addr) (b : PoolBuilder) (self : Z) (idle : gmap Z Client) (n : Z)
    (m : eff DriverError Conns A) : driving A := fun l =>
  match l.(lib_pool) !! self with
  | Some pw => let '(r, s) := m (conns_of pw idle n l) in (r, after_conns a b self s l)
  | None => (Panic, l)
  end.

(** ** Making one *)

(** [maxsize] and the endpoints are checked first. *)
Definition skaidb_pool_new (maxsize : nat) (endpoints : ptr) (n_endpoints : nat)
    (username password tls database : ptr) : call ptr :=
  nullable (
    if (maxsize =? 0)%nat then fail SKAIDB_ERR_INVALID (str "maxsize is 0")
    else
      eps ← endpoint_list endpoints n_endpoints;
      user ← cstr username (str "username");
      pass ← cstr password (str "password");
      _ ← tls_config io_text tls_new tls;
      db ← cstr_opt database (str "database");
      f ← or_fail io_text (pool_new maxsize);
      a ← alloc (APool (Plain f eps (password_login user pass) db));
      mret (Some (at_addr a))).

(** [builder.build()]: its address makes the pool another than any before. *)
Definition built (b : PoolBuilder) : call skaidb_pool :=
  self ← reads_state (fun l => Zpos l.(next));
  let '(now, rng, instants, spawns) := birth self in
  match build b now rng instants spawns with
  | Ok pw => _ ← changes (fun l => {|
        heap := l.(heap); next := l.(next); LAST_ERROR := l.(LAST_ERROR); KEY_SCRATCH := l.(KEY_SCRATCH);
        lib_world := l.(lib_world); lib_pool := <[self := pw]> l.(lib_pool); lib_clock := l.(lib_clock);
        lib_dropped := l.(lib_dropped) |});
      mret (Balanced b self ∅ 0)
  | Err (InvalidOption msg) => fail SKAIDB_ERR_INVALID (str "connection error: " ++ msg)
  | Err NoEndpoints => fail_driver io_text (NoEndpoint (str "no endpoints given") None)
  | Panic => of_res Panic
  | OutOfFuel => of_res OutOfFuel
  end.

Definition options_at (options : ptr) : call skaidb_pool_options :=
  match options with
  | None => mret skaidb_pool_options_default
  | Some p => look (fun b q => match b, q with Options o, [] => Some o | _, _ => None end) p
  end.

Definition skaidb_pool_new_balanced (endpoints : ptr) (n_endpoints : nat)
    (username password tls database options out : ptr) : call skaidb_status :=
  boxed APool out (
    eps ← endpoint_list endpoints n_endpoints;
    user ← cstr username (str "username");
    pass ← cstr password (str "password");
    _ ← tls_config io_text tls_new tls;
    db ← cstr_opt database (str "database");
    o ← options_at options;
    match options_of o with
    | Ok o =>
        let b := with_options o (PoolConns.credentials user pass (builder eps)) in
        built (match db with Some d => for_database d b | None => b end)
    | Err msg => fail SKAIDB_ERR_INVALID msg
    | Panic => of_res Panic
    | OutOfFuel => of_res OutOfFuel
    end).

Definition skaidb_pool_options_init (options : ptr) : call unit :=
  match options with
  | None => mret tt
  | Some p => _ ← options_at (Some p); store p.(base) (Options skaidb_pool_options_default)
  end.

(** ** Taking and giving back *)

(** A plain pool's [make]. *)
Definition make_client (eps : list bytes) (l : Login) (db : option bytes) : driving Client :=
  c ← dialed kerberos gss_new gss_step sha384 sha512 eps l;
  match db with
  | None => mret c
  | Some d =>
      '(r, c) ← (fun lib => let '(r, s) := use_database d (enter c lib) in (Ok (r, s.(client)), with_outside s lib));
      match r with
      | Ok _ => mret c
      | Err e => _ ← drop_client c; raise e
      | Panic => of_res Panic
      | OutOfFuel => of_res OutOfFuel
      end
  end.

Definition acquire_at (a : addr) (pl : skaidb_pool) (affinity : option bytes) : driving Client :=
  match pl with
  | Plain f eps l db => fun lib =>
      let '(r, (f, lib)) := FactoryPool.acquire (make_client eps l db) (f, lib) in
      (r, with_block a (APool (Plain f eps l db)) lib)
  | Balanced b self idle n =>
      c ← on_balanced a b self idle n (checkout kerberos gss_new gss_step sha384 sha512 b self affinity);
      mret c.(conn)
  end.

Definition skaidb_pool_acquire (pool out : ptr) : call skaidb_status :=
  boxed AClient out (
    a ← pool_ref pool;
    pl ← pool_at (at_addr a);
    driven io_text (acquire_at a pl None)).

Definition skaidb_pool_acquire_affinity (pool affinity out : ptr) : call skaidb_status :=
  boxed AClient out (
    a ← pool_ref pool;
    key ← cstr_opt affinity (str "affinity");
    pl ← pool_at (at_addr a);
    driven io_text (acquire_at a pl key)).

(** A connection kept gets a number of its own; one of another pool's is
    refused unchanged. *)
Definition release_at (a : addr) (pl : skaidb_pool) (c : Client) : driving unit :=
  match pl with
  | Plain f eps l db =>
      let f' := FactoryPool.release c f in
      if (length f.(idle) <? length f'.(idle))%nat
      then changes (with_block a (APool (Plain f' eps l db)))
      else drop_client c
  | Balanced b self idle n =>
      match c.(link) with
      | Some k =>
          if k.(l_pool) =? self
          then on_balanced a b self idle n (n ← next_number; checkin b self {| number := n; conn := c |})
          else drop_client c
      | None => drop_client c
      end
  end.

(** A call that returns nothing. *)
Definition silent (m : driving unit) : call unit := fun l =>
  match m l with
  | (Ok _, l) | (Err _, l) => (Ok tt, l)
  | (Panic, l) => (Panic, l)
  | (OutOfFuel, l) => (OutOfFuel, l)
  end.

Definition skaidb_pool_release (pool client : ptr) : call unit :=
  match client with
  | None => mret tt
  | Some p =>
      a ← client_mut client;
      c ← client_at a;
      _ ← free a;
      match pool with
      | None => drop_client c
      | Some q => pl ← pool_at q; silent (release_at q.(base) pl c)
      end
  end.

Definition skaidb_pool_idle_len (pool : ptr) : call nat :=
  match pool with
  | None => mret 0%nat
  | Some p =>
      pl ← pool_at p;
      match pl with
      | Plain f _ _ _ => mret (idle_len f)
      | Balanced _ self _ _ =>
          reads_state (fun l => match l.(lib_pool) !! self with
                                | Some pw => length (b_idle pw.(pw_state)) | None => 0%nat end)
      end
  end.

(** Closing drops the idle connections, then the handle goes; a balanced
    pool's state stays with the connections still out. *)
Definition close_at (a : addr) (pl : skaidb_pool) : driving unit :=
  match pl with
  | Plain f eps l db =>
      _ ← changes (with_block a (APool (Plain (FactoryPool.close f) eps l db)));
      for_all drop_client f.(idle)
  | Balanced b self idle n => on_balanced a b self idle n (PoolConns.close self)
  end.

Definition skaidb_pool_free (pool : ptr) : call unit :=
  match pool with
  | None => mret tt
  | Some p => pl ← pool_at p; _ ← silent (close_at p.(base) pl); free p.(base)
  end.

(** ** Members *)

Definition members_of (pl : skaidb_pool) : call (list PoolMember) :=
  match pl with
  | Plain _ _ _ _ => mret []
  | Balanced _ self _ _ =>
      reads_state (fun l => match l.(lib_pool) !! self with Some pw => members pw.(pw_state) | None => [] end)
  end.

Definition latency_ms (d : option Z) : Z :=
  match d with Some d => f64_mul (as_secs_f64 d) (f64_of_int 1000) | None => f64_of_int (-1) end.

(** The strings in the order they are pushed, and the items that point to
    them. *)
Fixpoint member_items (ms : list PoolMember) : call (list addr * list skaidb_member) :=
  match ms with
  | [] => mret ([], [])
  | m :: ms =>
      endpoint ← alloc (terminated (c_string_lossy m.(pm_endpoint)));
      canonical ← match m.(pm_canonical) with
                  | Some s => a ← alloc (terminated (c_string_lossy s)); mret (Some a)
                  | None => mret None
                  end;
      '(strings, items) ← member_items ms;
      mret (endpoint :: option_list canonical ++ strings,
            {| mb_endpoint := endpoint; mb_canonical := canonical; mb_state := member_state_c m.(pm_state);
               mb_latency_ms := latency_ms m.(pm_latency); mb_in_use := m.(pm_in_use); mb_idle := m.(pm_idle);
               mb_seed := m.(pm_seed) |} :: items)
  end.

Definition skaidb_pool_members (pool out : ptr) : call skaidb_status :=
  boxed AMembers out (
    a ← pool_ref pool;
    pl ← pool_at (at_addr a);
    ms ← members_of pl;
    '(strings, items) ← member_items ms;
    mret {| strings := strings; items := items |}).

Definition members_at (p : place) : call skaidb_members :=
  look (fun b q => match b, q with AMembers m, [] => Some m | _, _ => None end) p.

Definition skaidb_members_len (members : ptr) : call nat :=
  match members with None => mret 0%nat | Some p => m ← members_at p; mret (length m.(items)) end.

Definition skaidb_members_get (members : ptr) (index : nat) : call ptr :=
  match members with
  | None => mret None
  | Some p => m ← members_at p; mret (if (index <? length m.(items))%nat then Some (inside p [index]) else None)
  end.

(** What C reads there. *)
Definition member_in (b : block) (q : list nat) : option skaidb_member :=
  match b, q with AMembers m, [i] => m.(items) !! i | _, _ => None end.

Definition skaidb_members_free (members : ptr) : call unit :=
  match members with
  | None => mret tt
  | Some p => m ← members_at p; _ ← free p.(base); free_all m.(strings)
  end.

End pools.
