(* ===== verification/AbiMembers.v ===== *)
(** * A pool's members in C

    The table [skaidb_pool_members] gives to C programs: what they read in it,
    and what freeing it gives back. *)
From stdpp Require Import gmap.
From S2P Require Import Prelude Bytes Text Float64 Value Message Effect Balancer Login Session RowStream FactoryPool PoolConns Abi AbiHeap AbiCopy AbiResult AbiClient AbiPool.
#[local] Open Scope Z_scope.

Section members.
Abbreviation call A := (eff stop (Lib Pools) A).
Implicit Types (l : Lib Pools) (B : gmap addr block) (a : addr) (m : PoolMember) (i : skaidb_member).

(** What C reads in [i] is what the pool says of [m]: the strings are there,
    whole but for their NULs, and a latency not measured is -1. *)
Record described B m i : Prop := {
  de_endpoint : B !! i.(mb_endpoint) = Some (terminated (c_string_lossy m.(pm_endpoint)));
  de_canonical : match m.(pm_canonical), i.(mb_canonical) with
                 | Some s, Some a => B !! a = Some (terminated (c_string_lossy s))
                 | None, None => True
                 | _, _ => False
                 end;
  de_state : i.(mb_state) = member_state_c m.(pm_state);
  de_latency : i.(mb_latency_ms) = latency_ms m.(pm_latency);
  de_in_use : i.(mb_in_use) = m.(pm_in_use);
  de_idle : i.(mb_idle) = m.(pm_idle);
  de_seed : i.(mb_seed) = m.(pm_seed);
}.

Lemma described_more B B' m i :
  (forall a s, B !! a = Some (Memory s) -> B' !! a = Some (Memory s)) -> described B m i -> described B' m i.
Proof.
  intros HB [H1 H2 ? ? ? ? ?]. split; try done; [by apply HB|].
  destruct (pm_canonical m), (mb_canonical i); try done. by apply HB.
Qed.

(** ** Building the table *)

Lemma grown_app B cs cs' bs bs' :
  length cs = length bs -> grown B (cs ++ cs') (bs ++ bs') = grown (grown B cs bs) cs' bs'.
Proof. revert B bs. induction cs as [|a cs IH]; intros B [|b bs] Hl; try done. cbn. apply IH. by injection Hl. Qed.

Lemma fresh_in_app B cs cs' bs bs' :
  fresh_in B cs bs -> fresh_in (grown B cs bs) cs' bs' -> fresh_in B (cs ++ cs') (bs ++ bs').
Proof.
  revert B bs. induction cs as [|a cs IH]; intros B [|b bs] Hf Hf'; try done. destruct Hf as [Ha Hf].
  cbn in *. split; [done|by apply IH].
Qed.

(** A string, when there is one. *)
Lemma runs_string (t : option bytes) B e o l :
  has B e o l ->
  runs (match t with
        | Some s => a ← alloc (terminated (c_string_lossy s)); mret (Some a)
        | None => mret None
        end : call (option addr)) l
    (fun r l' => exists bs, fresh_in B (option_list r) bs /\ has (grown B (option_list r) bs) e o l'
      /\ match t, r with
         | Some s, Some a => grown B (option_list r) bs !! a = Some (terminated (c_string_lossy s))
         | None, None => True
         | _, _ => False
         end).
Proof.
  intros Hh. destruct t as [s|]; [|by apply runs_ret; exists []].
  eapply runs_bind; [by apply runs_alloc|]. cbv beta. intros a l1 [Ha H1]. apply runs_ret.
  exists [terminated (c_string_lossy s)]. split_and!; [done|done|]. apply lookup_insert_eq.
Qed.

Lemma runs_items ms B e o l :
  has B e o l ->
  runs (member_items ms : call _) l (fun r l' => exists bs, fresh_in B r.1 bs
    /\ has (grown B r.1 bs) e o l' /\ Forall2 (described (grown B r.1 bs)) ms r.2).
Proof.
  revert B l. induction ms as [|m ms IH]; intros B l Hh; cbn [member_items].
  { apply runs_ret. exists []. split_and!; [done|done|constructor]. }
  eapply runs_bind; [by apply runs_alloc|]. cbv beta. intros a l1 [Ha H1].
  eapply runs_bind; [by eapply runs_string|]. cbv beta. intros canonical l2 (cb & Hc & H2 & Hcan).
  eapply runs_bind; [by apply IH|]. cbv beta. intros [ss its] l3 (bs & Hf & H3 & Hd). cbn [fst snd] in *.
  apply runs_ret. cbn [fst snd]. pose proof (grown_subseteq _ _ _ Hf) as Hsub. pose proof (grown_subseteq _ _ _ Hc) as Hsub'.
  exists (terminated (c_string_lossy m.(pm_endpoint)) :: cb ++ bs). cbn [fresh_in grown].
  rewrite grown_app by (by eapply fresh_in_length). split_and!; [done|by apply fresh_in_app|done|].
  constructor; [|done]. split; try done; cbn [mb_endpoint mb_canonical].
  - eapply lookup_weaken; [|exact Hsub]. eapply lookup_weaken; [apply lookup_insert_eq|exact Hsub'].
  - destruct (pm_canonical m), canonical; try done. by eapply lookup_weaken.
Qed.

(** ** Giving it back *)

Lemma dels_grown B cs bs : fresh_in B cs bs -> dels (grown B cs bs) cs = B.
Proof.
  intros Hf. apply map_eq. intros c. rewrite dels_lookup. destruct (decide (c ∈ cs)) as [Hc|Hc].
  - symmetry. by eapply fresh_in_None.
  - by apply grown_old.
Qed.

Lemma dels_insert B cs a b : a ∉ cs -> dels (<[a := b]> B) cs = <[a := b]> (dels B cs).
Proof.
  intros Ha. apply map_eq. intros c. rewrite dels_lookup. destruct (decide (c = a)) as [->|Hne].
  - by rewrite decide_False, !lookup_insert_eq.
  - by rewrite !lookup_insert_ne, dels_lookup by done.
Qed.

Lemma dels_delete B cs a : dels (delete a B) cs = delete a (dels B cs).
Proof.
  apply map_eq. intros c. rewrite dels_lookup. destruct (decide (c = a)) as [->|Hne].
  - rewrite !lookup_delete_eq. by destruct (decide _).
  - by rewrite !lookup_delete_ne, dels_lookup by done.
Qed.

Lemma runs_free_all cs B e o l :
  NoDup cs -> (forall a, a ∈ cs -> exists b, B !! a = Some b) -> has B e o l ->
  runs (free_all cs : call unit) l (fun _ l' => has (dels B cs) e o l').
Proof.
  unfold free_all. intros Hn. revert B l. induction Hn as [|a cs Ha Hn IH]; intros B l Hb Hh; cbn [for_all dels]; [by apply runs_ret|].
  destruct (Hb a) as [b Ea]; [by left|]. eapply runs_bind; [by eapply runs_free|]. cbv beta. intros [] l1 H1.
  apply IH; [|done]. intros c Hc. destruct (Hb c) as [b' Hb']; [by right|]. exists b'. rewrite lookup_delete_ne; [done|].
  by intros <-.
Qed.

(** ** The table *)

(** Where everything lies once the table is made. *)
Lemma runs_members p pl ms o x xs B e ou l :
  has B e ou l -> B !! p = Some (APool pl) -> members_of pl l = (Ok ms, l) -> B !! o = Some (Pointers (x :: xs)) ->
  runs (skaidb_pool_members (Some (at_addr p)) (Some (at_addr o))) l (fun s l' => s = SKAIDB_OK
    /\ exists a cs bs its, fresh_in B cs bs /\ grown B cs bs !! a = None
       /\ Forall2 (described (grown B cs bs)) ms its
       /\ has (<[o := Pointers (Some (at_addr a) :: xs)]> (<[a := AMembers {| strings := cs; items := its |}]>
                 (grown B cs bs))) e ou l').
Proof.
  intros Hh Hp Hms Ho. apply runs_handle.
  assert (Hpool : pool_at (at_addr p) l = (Ok pl, l)) by by eapply look_has.
  assert (Href : pool_ref (Some (at_addr p)) l = (Ok p, l)) by (unfold pool_ref; by erewrite bind_step).
  apply (runs_bind _ _ _ (fun t l' => exists bs, fresh_in B t.(strings) bs
    /\ has (grown B t.(strings) bs) e ou l' /\ Forall2 (described (grown B t.(strings) bs)) ms t.(items))).
  { eapply runs_step; [exact Href|]. eapply runs_step; [exact Hpool|]. eapply runs_step; [exact Hms|].
    eapply runs_bind; [by apply runs_items|]. cbv beta. intros [cs its] l1 Hx. by apply runs_ret. }
  intros [cs its] l1 (bs & Hf & H1 & Hd). cbn [strings items] in *.
  eapply runs_bind; [by apply runs_alloc|]. cbv beta. intros a l2 [Ha H2].
  assert (Ho2 : <[a := AMembers {| strings := cs; items := its |}]> (grown B cs bs) !! o = Some (Pointers (x :: xs))).
  { assert (Eo : grown B cs bs !! o = Some (Pointers (x :: xs))) by (eapply lookup_weaken; [done|by apply grown_subseteq]).
    rewrite lookup_insert_ne; [done|]. intros ->. congruence. }
  apply (runs_bind _ _ _ (fun _ l' => has (<[o := Pointers (Some (at_addr a) :: xs)]>
    (<[a := AMembers {| strings := cs; items := its |}]> (grown B cs bs))) e ou l')).
  { unfold store_ptr. eapply runs_step; [by eapply load_has|]. cbn [at_addr path base entry]. cbn -[store].
    eapply runs_weaken; [by eapply runs_store|done]. }
  intros [] l3 H3. apply runs_ret. split; [done|]. by exists a, cs, bs, its.
Qed.

Lemma runs_members_free a l o b t B bs e ou :
  let cs := t.(strings) in
  has (<[o := b]> (<[a := AMembers t]> (grown B cs bs))) e ou l -> fresh_in B cs bs -> grown B cs bs !! a = None ->
  a <> o -> o ∉ cs ->
  runs (skaidb_members_free (Some (at_addr a))) l (fun _ l' => has (<[o := b]> B) e ou l').
Proof.
  intros cs Hh Hf Ha Hao Hoc. assert (Hac : a ∉ cs) by by eapply not_among.
  assert (Et : <[o := b]> (<[a := AMembers t]> (grown B cs bs)) !! a = Some (AMembers t))
    by by rewrite lookup_insert_ne, lookup_insert_eq.
  cbn [skaidb_members_free]. eapply runs_step; [by eapply look_has|].
  eapply runs_bind; [by eapply runs_free|]. cbv beta. intros [] l1 H1.
  eapply runs_weaken; [apply runs_free_all; [by eapply fresh_in_NoDup| |exact H1]|].
  - intros c Hc. destruct (fresh_in_some B cs bs c Hf Hc) as (i & b' & _ & _ & E). exists b'.
    assert (c <> a /\ c <> o) as [? ?] by (split; intros ->; done). by rewrite lookup_delete_ne, !lookup_insert_ne.
  - cbv beta. intros _ l2 H2. rewrite dels_delete, !dels_insert, dels_grown in H2 by done.
    rewrite delete_insert_ne, delete_insert_id in H2; [done| |done].
    destruct (B !! a) as [b'|] eqn:E; [|done]. by rewrite (lookup_weaken _ _ _ _ E (grown_subseteq _ _ _ Hf)) in Ha.
Qed.


End members.

(** ** Two members *)

Definition wit_builder : PoolBuilder := builder [str "db1:7000"; str "db2:7000"].

(** A handle of a pool just built, and a variable for the table. *)
Definition wit_lib : Lib Pools := {|
  heap := list_to_map [(1%positive, terminated []); (2%positive, terminated []);
                       (3%positive, APool (Balanced wit_builder 3 ∅ 0)); (4%positive, Pointers [None])];
  next := 5; LAST_ERROR := 1; KEY_SCRATCH := 2;
  lib_world := {| w_net := []; w_probe := []; w_process := wit_process |};
  lib_pool := match build wit_builder 0 7 [] false with Ok pw => {[3 := pw]} | _ => ∅ end;
  lib_clock := []; lib_dropped := [] |}.

Definition wit_members : list PoolMember :=
  map (fun ep => {| pm_endpoint := ep; pm_canonical := None; pm_state := Ready; pm_latency := None; pm_in_use := 0;
                    pm_idle := 0; pm_seed := true |}) [str "db1:7000"; str "db2:7000"].

