(* ===== verification/AbiBooks.v ===== *)
(** * Balanced pools behind C handles

    What a handle's idle connections and its pool's state have to do with each
    other whatever clients have been handed to C: enough for every call of the
    pool to come back, and kept by the calls and by all that clients report. *)
From stdpp Require Import gmap relations.
From S2P Require Import Prelude Bytes Text BTree Value Message Effect Rng Balancer BalancerSteps Login Session SessionSpec SessionCalls FactoryPool PoolConns PoolSteps Abi AbiClient AbiPool.
#[local] Open Scope Z_scope.

Record pool_ok (b : PoolBuilder) (self : Z) (idle : gmap Z Client) (n : Z) (pw : PoolWorld) : Prop := {
  po_opts : pw.(pw_opts) = b.(b_options);
  po_sorted : sorted pw.(pw_state).(b_members) = true;
  po_idle : forall c, c ∈ b_idle pw.(pw_state) -> fresh_client self c;
  po_maxsize : (length (b_idle pw.(pw_state)) <= b.(b_options).(Balancer.maxsize))%nat;
  po_closed : pw.(pw_state).(b_closed) = true -> b_idle pw.(pw_state) = [];
  po_ids : NoDup (ids (b_idle pw.(pw_state)));
  po_next : Forall (fun k => k < n) (ids (b_idle pw.(pw_state)));
  po_table k : is_Some (idle !! k) <-> k ∈ ids (b_idle pw.(pw_state));
}.

(** ** Connections the counts could be of *)

Section invented.
Context (self : Z).

Fixpoint clones (ep : bytes) (low : Z) (n : nat) : list Balancer.Client :=
  match n with
  | O => []
  | S n => {| c_id := low - 1; c_link := Some (set_out true None (set_member ep (link_new self))) |} :: clones ep (low - 1) n
  end.

Lemma clones_ids ep low n :
  NoDup (ids (clones ep low n)) /\ Forall (fun k => low - Z.of_nat n <= k < low) (ids (clones ep low n)).
Proof.
  revert low. induction n as [|n IH]; intros low; cbn [clones ids map c_id]; [split; constructor|].
  destruct (IH (low - 1)) as [Hn Hf]. split.
  - constructor; [|exact Hn]. intros Hin. rewrite Forall_forall in Hf. specialize (Hf _ Hin). lia.
  - constructor; [lia|]. eapply Forall_impl; [exact Hf|]. cbv beta. lia.
Qed.

Lemma clones_out ep low n :
  out_ok self (clones ep low n) /\ count_out ep (clones ep low n) = n.
Proof.
  revert low. induction n as [|n IH]; intros low; [split; [by intros c ?%elem_of_nil|done]|].
  destruct (IH (low - 1)) as [Ho Hc]. cbn [clones]. split.
  - intros c [->|Hin]%elem_of_cons; [by eexists|by apply Ho].
  - rewrite count_out_cons, Hc. unfold idle_ep. cbn. by rewrite bool_decide_true.
Qed.

Lemma count_out_app ep out out' : count_out ep (out ++ out') = (count_out ep out + count_out ep out')%nat.
Proof. unfold count_out. by rewrite List.filter_app, length_app. Qed.

Lemma invented low (ms : list (bytes * Member)) :
  exists out, counts_ok ms out /\ out_ok self out /\ NoDup (ids out) /\ Forall (fun k => k < low) (ids out).
Proof.
  enough (Hgo : forall low, exists out, (forall ep m, (ep, m) ∈ ms -> (m_in_use m <= count_out ep out)%nat)
    /\ out_ok self out /\ NoDup (ids out) /\ Forall (fun k => k < low) (ids out)).
  { destruct (Hgo low) as (out & Hc & Hx). exists out. split; [|exact Hx]. intros ep m Hg. by apply Hc, bt_get_elem. }
  induction ms as [|[ep m] ms IH]; intros lo.
  { exists []. split_and!; [by intros ep m ?%elem_of_nil|by intros c ?%elem_of_nil|constructor..]. }
  destruct (IH (lo - Z.of_nat (m_in_use m))) as (out & Hc & Ho & Hn & Hl).
  destruct (clones_ids ep lo (m_in_use m)) as [Hn' Hl'], (clones_out ep lo (m_in_use m)) as [Ho' Hc'].
  exists (clones ep lo (m_in_use m) ++ out). rewrite ids_app. split_and!.
  - intros e m' [[= -> ->]|Hin]%elem_of_cons; rewrite count_out_app; [lia|]. specialize (Hc _ _ Hin). lia.
  - intros c [Hin|Hin]%elem_of_app; [by apply Ho'|by apply Ho].
  - apply NoDup_app. split_and!; [done| |done]. intros k Hk Hk'. rewrite Forall_forall in Hl, Hl'.
    specialize (Hl _ Hk'). specialize (Hl' _ Hk). lia.
  - apply Forall_app. split; (eapply Forall_impl; [eassumption|]); cbv beta; lia.
Qed.

Lemma below_all (n : Z) (l : list Z) : exists low, low <= n /\ Forall (fun k => low <= k) l.
Proof.
  induction l as [|k l (low & Hn & Hl)]; [by exists n|]. exists (Z.min low k). split; [lia|]. constructor; [lia|].
  eapply Forall_impl; [exact Hl|]. cbv beta. lia.
Qed.

End invented.

(** ** The pool's own calls *)

Section calls.
Context (b : PoolBuilder) (self : Z).

Definition conns_ok (s : Conns) : Prop := pool_ok b self s.(cs_idle) s.(cs_next) s.(cs_pool) /\ net_ok s.(cs_world).

Lemma conns_here s : conns_ok s ->
  exists W0 out, world_inv b.(b_options) self W0 /\ here b self W0 [] out s.
Proof.
  intros [[H1 H2 H3 H4 H5 H6 H7 H8] Hw].
  destruct (below_all (cs_next s) (ids (b_idle (pw_state (cs_pool s))))) as (low & Hlow & Hle).
  destruct (invented self low (b_members (pw_state (cs_pool s)))) as (out & Hc & Ho & Hn & Hl).
  exists {| w_state := pw_state (cs_pool s); w_out := out |}, out. split; [by split|].
  split; cbn [app]; rewrite ?app_nil_r; [by split|done| | |done].
  - rewrite ids_app. apply NoDup_app. split_and!; [done| |done]. intros k Hk Hk'.
    rewrite Forall_forall in Hle, Hl. specialize (Hle _ Hk). specialize (Hl _ Hk'). cbv beta in *. lia.
  - rewrite ids_app. apply Forall_app. split; [done|]. eapply Forall_impl; [exact Hl|]. cbv beta. lia.
Qed.

Lemma here_conns W0 out s : world_inv b.(b_options) self W0 -> here b self W0 [] out s -> conns_ok s.
Proof.
  intros Hi Hh. pose proof (came_inv _ _ _ Hi _ _ (fits_pool _ _ _ _ Hh)) as [_ _ I3 I4 I5 I6].
  destruct Hh as [[Ho _] Hw H3 H4 H5]. cbn [app w_state w_out] in *. rewrite app_nil_r in H5. split; [|done].
  rewrite ids_app in H3, H4. apply NoDup_app in H3 as (H3 & _ & _). apply Forall_app in H4 as [H4 _]. by split.
Qed.

(** A call with a triple for whatever is out comes back, and keeps the books. *)
Lemma goes_books {A} (m : eff DriverError Conns A) s :
  (forall W0 out, world_inv b.(b_options) self W0 ->
     goes (here b self W0 [] out) m (fun _ s => exists out, here b self W0 [] out s) (fun s => exists out, here b self W0 [] out s)) ->
  conns_ok s -> returns (m s).1 /\ conns_ok (m s).2.
Proof.
  intros Hm Hs. destruct (conns_here s Hs) as (W0 & out & Hi & Hh). specialize (Hm W0 out Hi s Hh).
  destruct (m s) as [[a|e| |] s']; try done; destruct Hm as [out' Hx]; (split; [done|]; by eapply here_conns).
Qed.

End calls.

(** ** What clients report *)

(** Leaves what [pool_ok] says as it is. *)
Record aside (pw pw' : PoolWorld) : Prop := {
  aside_opts : pw'.(pw_opts) = pw.(pw_opts);
  aside_idle : same_idle pw.(pw_state) pw'.(pw_state);
  aside_sorted : sorted pw.(pw_state).(b_members) = true -> sorted pw'.(pw_state).(b_members) = true;
}.

Lemma aside_ok b self idle n pw pw' : aside pw pw' -> pool_ok b self idle n pw -> pool_ok b self idle n pw'.
Proof.
  intros [Ho [Hi Hc] Hs] [H1 H2 H3 H4 H5 H6 H7 H8].
  split; rewrite ?Ho, ?Hi, ?Hc; auto.
Qed.

(** Some handles, each with its pool. *)
Definition books (H : PoolBuilder -> Z -> gmap Z Client -> Z -> Prop) (ps : Pools) : Prop :=
  forall b self idle n, H b self idle n -> exists pw, ps !! self = Some pw /\ pool_ok b self idle n pw.

Lemma books_aside {A} H n (f : PoolWorld -> A * PoolWorld) (none : A) ps :
  (forall pw, aside pw (f pw).2) -> books H ps -> books H (at_pool n f none ps).2.
Proof.
  intros Hf Hb b self idle k Hh. destruct (Hb _ _ _ _ Hh) as (pw & E & Hp). unfold at_pool.
  destruct (ps !! n) as [p|] eqn:En; [|by exists pw]. specialize (Hf p). destruct (f p) as [a p']. cbn [snd] in *.
  destruct (decide (n = self)) as [->|Hne].
  - exists p'. rewrite lookup_insert_eq. split; [done|]. simplify_eq. by eapply aside_ok.
  - exists pw. by rewrite lookup_insert_ne.
Qed.

Section reports.
Context (l : PoolLink) (n : Z) (ep : bytes).

Lemma pool_step_aside f pw :
  (forall now st, same_idle st (f now st) /\ (sorted st.(b_members) = true -> sorted (f now st).(b_members) = true)) ->
  aside pw (pool_step f pw).
Proof. intros Hf. by split; [|apply Hf..]. Qed.

Lemma round_trip_aside d pw : aside pw (pool_round_trip l ep d pw).1.
Proof. apply pool_step_aside. intros now st. apply round_trip_same. Qed.

Lemma failed_aside pw : aside pw (pool_failed n ep pw).
Proof. apply pool_step_aside. intros now st. apply failed_same. Qed.

Lemma moved_aside pw : aside pw (pool_moved l ep pw).1.
Proof. apply pool_step_aside. intros now st. split; [apply reattribute_same|apply reattribute_sorted]. Qed.

Lemma order_aside pw : aside pw (pool_dial_order n ep pw).2.
Proof. apply pool_step_aside. intros now st. unfold dial_order, order. by destruct (shuffle _ _). Qed.

Lemma wrote_aside a pw : aside pw (pool_wrote n a ep pw).
Proof. apply pool_step_aside. intros now st. done. Qed.

Lemma closed_out_aside pw : aside pw (pool_closed_out l pw).
Proof.
  cbn [pool_closed_out balancer_pool]. destruct (l_out l); [|done]. apply pool_step_aside. intros now st.
  split; [done|]. apply sorted_update.
Qed.

End reports.

Lemma swap_snd {A B} (p : A * B) : (prod_swap p).2 = p.1.
Proof. by destruct p. Qed.

Lemma books_round_trip H l ep d (ps : Pools) : books H ps -> books H (pool_round_trip l ep d ps).1.
Proof.
  intros Hb. cbn [pool_round_trip pools_pool]. change (prod_swap ?p).1 with p.2. apply books_aside; [|done].
  intros pw. rewrite swap_snd. apply round_trip_aside.
Qed.

Lemma books_moved H l ep (ps : Pools) : books H ps -> books H (pool_moved l ep ps).1.
Proof.
  intros Hb. cbn [pool_moved pools_pool]. change (prod_swap ?p).1 with p.2. apply books_aside; [|done].
  intros pw. rewrite swap_snd. apply moved_aside.
Qed.

(** Sessions keep the books of every pool. *)
Lemma books_stable H : stable (fun s : Session Pools => books H s.(pool)).
Proof.
  split; try done; intros until s.
  - unfold report_failure. destruct (link (client s)) as [l|]; [|done]. apply books_aside. intros pw. apply failed_aside.
  - unfold report_round_trip. destruct (link (client s)) as [l|]; [|done]. intros Hb.
    apply (books_round_trip H (set_broken false l) (Session.connected (client s)) (hd 0 (clock s))) in Hb.
    by destruct (pool_round_trip _ _ _ _).
  - unfold report_dial. destruct (link (client s)) as [l|]; [|done]. destruct (member_fault e); [|done].
    apply books_aside. intros pw. apply failed_aside.
  - apply books_aside. intros pw. apply order_aside.
  - apply books_aside. intros pw. apply wrote_aside.
  - intros _ Hb. unfold report_moved. set (s1 := Session.with_client _ (drop_stream s)).
    destruct (link (client s1)) as [l|]; [|done].
    apply (books_moved H (set_broken false l) (Session.connected (client s1))) in Hb.
    change (pool s1) with (pool s). by destruct (pool_moved _ _ _).
Qed.

Section connecting.
Context {G : Type} (kerberos : bool)
  (gss_new : bytes -> option bytes -> res bytes (G * bytes))
  (gss_step : G -> bytes -> res bytes (ClientStep G))
  (sha384 sha512 : bytes -> bytes).

Lemma open_from_books H ordered eps lg last w (ps : Pools) :
  books H ps -> books H (open_from kerberos gss_new gss_step sha384 sha512 ordered eps lg None last (w, ps)).2.2.
Proof.
  revert last w. induction eps as [|ep eps IH]; intros last w Hb; cbn [open_from]; [done|].
  unfold mbind, eff_bind, attempt, zoom. cbn [fst snd].
  destruct (Login.dial _ _ _ _ _ ep lg w) as [[t|e| |] w1]; try done; cbn [fst snd].
  - unfold start_session.
    pose proof (send_hello_keeps _ (books_stable H) {| client := client_new ordered lg None ep t; world := w1; pool := ps;
                  clock := []; dropped := [] |} Hb) as Hk.
    destruct (send_hello _) as [r s]. by destruct r.
  - unfold changes. cbn [fst snd]. by apply IH.
Qed.

Lemma connect_mode_books H eps lg w (ps : Pools) :
  books H ps -> books H (connect_mode kerberos gss_new gss_step sha384 sha512 eps lg (w, ps)).2.2.
Proof.
  intros Hb. unfold connect_mode, mbind, eff_bind, zoom. cbn [fst snd].
  destruct (probed _ w) as [[ordered|e| |] w1]; try done. cbn [fst snd].
  destruct ordered; [done|]. by apply open_from_books.
Qed.

End connecting.

(** ** Handles in memory *)

(** Every balanced pool's handle in [h] has its address for a number, and its
    pool is in order. *)
Definition pools_live (h : gmap addr block) (ps : Pools) : Prop :=
  forall a b self idle n, h !! a = Some (APool (Balanced b self idle n)) ->
    self = Zpos a /\ exists pw, ps !! self = Some pw /\ pool_ok b self idle n pw.

Definition balanced (b : block) : bool := match b with APool (Balanced _ _ _ _) => true | _ => false end.

Lemma pools_live_mono h h' ps :
  (forall a b, balanced b = true -> h' !! a = Some b -> h !! a = Some b) -> pools_live h ps -> pools_live h' ps.
Proof. intros Hh Hl a b self idle n Ha. by apply Hl, Hh. Qed.

Lemma pools_live_insert h ps a b : balanced b = false -> pools_live h ps -> pools_live (<[a := b]> h) ps.
Proof.
  intros Hb. apply pools_live_mono. intros c b' Hb' [[<- <-]|[_ Hc]]%lookup_insert_Some; [by rewrite Hb in Hb'|done].
Qed.

Lemma pools_live_books h ps ps' :
  (books (fun b self idle n => exists a, h !! a = Some (APool (Balanced b self idle n))) ps ->
   books (fun b self idle n => exists a, h !! a = Some (APool (Balanced b self idle n))) ps') ->
  pools_live h ps -> pools_live h ps'.
Proof.
  intros Hb Hl a b self idle n Ha. destruct (Hl _ _ _ _ _ Ha) as [-> _]. split; [done|].
  apply Hb; [|by exists a]. intros b' self' idle' n' [a' Ha']. destruct (Hl _ _ _ _ _ Ha') as [_ Hp]. exact Hp.
Qed.

Lemma pools_live_session {A} h (m : eff DriverError (Session Pools) A) s :
  ordinary m -> pools_live h s.(pool) -> pools_live h (m s).2.(pool).
Proof. intros Hm. apply pools_live_books. exact (Hm _ (books_stable _) s). Qed.

(** A pool's handle and state change together. *)
Lemma pools_live_update h ps a b self idle n idle' n' pw :
  h !! a = Some (APool (Balanced b self idle n)) -> pool_ok b self idle' n' pw ->
  pools_live h ps -> pools_live (<[a := APool (Balanced b self idle' n')]> h) (<[self := pw]> ps).
Proof.
  intros Ha Hp Hl. destruct (Hl _ _ _ _ _ Ha) as [-> _].
  intros a0 b0 self0 idle0 n0 [[<- [= <- <- <- <-]]|[Hne H0]]%lookup_insert_Some.
  - split; [done|]. exists pw. by rewrite lookup_insert_eq.
  - destruct (Hl _ _ _ _ _ H0) as [-> Hx]. split; [done|]. by rewrite lookup_insert_ne by congruence.
Qed.
