(* ===== verification/AbiErrors.v ===== *)
(** * What the C interface promises of errors

    The header's conventions: a status other than [SKAIDB_OK] comes with a
    message of its own for [skaidb_last_error], nothing is written through the
    caller's pointers then, and no call panics, which would abort the C
    program. *)
From stdpp Require Import gmap.
From S2P Require Import Prelude Bytes Text Value Message Effect Sql Balancer Login Session SessionSpec SessionCalls RowStream FactoryPool PoolConns PoolSteps Abi AbiHeap AbiResult AbiClient AbiStream AbiPool AbiBooks.
#[local] Open Scope Z_scope.

Section contracts.
Context `{Debug : ResponseDebug}.
Abbreviation P := Pools.
Abbreviation call A := (eff stop (Lib P) A).
Implicit Types (l : Lib P) (B : gmap addr block) (a : addr) (b : block) (p : place) (s : bytes).

(** The caller's own memory. *)
Definition mine b : bool := match b with Memory _ | Pointers _ | Numbers _ | Settings _ | Options _ => true | _ => false end.

(** The text of a prepared statement came through the interface. *)
Definition stmt_ok b : Prop := match b with APrepared st => utf8_valid st.(stmt_sql) = true | _ => True end.

(** What no call but a pool's makes is a balanced pool. *)
Definition plain b : Prop := stmt_ok b /\ balanced b = false.

Record live l : Prop := {
  live_ok : ok l;
  live_net : net_ok l.(lib_world);
  live_stmts : forall a b, l.(heap) !! a = Some b -> stmt_ok b;
  live_pools : pools_live l.(heap) l.(lib_pool);
}.

Definition is_error (s : skaidb_status) : Prop := s <> SKAIDB_OK /\ s <> SKAIDB_END.

Definition kept l l' : Prop := forall a b, mine b = true -> body l !! a = Some b -> body l' !! a = Some b.

(** The message is of this call. *)
Definition told l l' : Prop := (l.(next) <= l'.(LAST_ERROR))%positive.

Record quiet l l' : Prop := {
  quiet_live : live l';
  quiet_kept : kept l l';
  quiet_error : error_of l' = error_of l;
  quiet_next : (l.(next) <= l'.(next))%positive;
}.

Record complained (s : skaidb_status) l l' : Prop := {
  complained_live : live l';
  complained_error : is_error s;
  complained_told : told l l';
  complained_kept : kept l l';
}.

(** A call that succeeds with [R] and no message, or fails with one; broken
    pointers are outside. *)
Definition contract_at {A} (R : A -> Lib P -> Prop) (m : call A) : Prop := forall l, live l ->
  match m l with
  | (Ok x, l') => quiet l l' /\ R x l'
  | (Err (Status s), l') => complained s l l'
  | (Err Undefined, _) => True
  | _ => False
  end.
Definition contract {A} (R : A -> Prop) : call A -> Prop := contract_at (fun x _ => R x).

Lemma quiet_refl l : live l -> quiet l l.
Proof. intros Hl. split; [done|by intros a b|done|lia]. Qed.

Lemma quiet_trans l1 l2 l3 : quiet l1 l2 -> quiet l2 l3 -> quiet l1 l3.
Proof.
  intros [? K1 E1 N1] [? K2 E2 N2]. split; [done|by intros a b Hb Ha; apply K2, K1|by rewrite E2|lia].
Qed.

Lemma quiet_complained (s : skaidb_status) l1 l2 l3 : quiet l1 l2 -> complained s l2 l3 -> complained s l1 l3.
Proof.
  intros [? K1 E1 N1] [? ? T K2]. split; [done|done| |by intros a b Hb Ha; apply K2, K1]. unfold told in *. lia.
Qed.

Lemma contract_ret {A} (R : A -> Prop) x : R x -> contract R (mret x).
Proof. intros Hx l Hl. split; [by apply quiet_refl|done]. Qed.

Lemma contract_undefined {A} (R : A -> Prop) : contract R (undefined : call A).
Proof. by intros l Hl. Qed.

Lemma contract_at_bind {A C} (R : A -> Prop) (Q : C -> Lib P -> Prop) (m : call A) k :
  contract R m -> (forall x, R x -> contract_at Q (k x)) -> contract_at Q (m ≫= k).
Proof.
  intros Hm Hk l Hl. specialize (Hm l Hl). unfold mbind, eff_bind.
  destruct (m l) as [[x|[s|]| |] l1]; try done. destruct Hm as [Hq Hx].
  specialize (Hk x Hx l1 (quiet_live _ _ Hq)). destruct (k x l1) as [[y|[s|]| |] l2]; try done.
  - destruct Hk as [Hq2 Hy]. split; [by eapply quiet_trans|done].
  - by eapply quiet_complained.
Qed.

Lemma contract_bind {A C} (R : A -> Prop) (Q : C -> Prop) (m : call A) k :
  contract R m -> (forall x, R x -> contract Q (k x)) -> contract Q (m ≫= k).
Proof. apply contract_at_bind. Qed.

Lemma contract_weaken {A} (R Q : A -> Prop) (m : call A) : contract R m -> (forall x, R x -> Q x) -> contract Q m.
Proof.
  intros Hm HR l Hl. specialize (Hm l Hl). destruct (m l) as [[x|[s|]| |] l1]; try done. destruct Hm. split; auto.
Qed.

(** Reading changes nothing. *)
Lemma contract_reads {A} (R : A -> Prop) (m : call A) :
  (forall l, live l -> match m l with (Ok x, l') => l' = l /\ R x | (Err Undefined, _) => True | _ => False end) ->
  contract R m.
Proof.
  intros Hm l Hl. specialize (Hm l Hl). destruct (m l) as [[x|[s|]| |] l1]; try done.
  destruct Hm as [-> Hx]. split; [by apply quiet_refl|done].
Qed.

Lemma contract_load a : contract stmt_ok (load a : call block).
Proof.
  apply contract_reads. intros l Hl. unfold load. destruct (heap l !! a) as [b|] eqn:E; [|done].
  split; [done|]. by eapply live_stmts.
Qed.

Lemma contract_look {A} (f : block -> list nat -> option A) p : contract (fun _ => True) (look f p : call A).
Proof.
  eapply contract_bind; [apply contract_load|]. intros b _. destruct (f b _); [by apply contract_ret|apply contract_undefined].
Qed.

Lemma alloc_quiet b l :
  live l -> stmt_ok b -> pools_live (<[l.(next) := b]> l.(heap)) l.(lib_pool) ->
  quiet l (with_fresh (with_block l.(next) b l)).
Proof.
  intros Hl Hb Hp. destruct (runs_alloc b l _ _ _ (has_self l (live_ok l Hl))) as (a & l' & E & Ha & [Hk Hbd He Ho]).
  injection E as <- <-. split.
  - split; [done| | |done].
    + cbn. apply Hl.
    + intros c b'. cbn. intros [[<- <-]|[_ Hc]]%lookup_insert_Some; [done|]. by eapply live_stmts.
  - intros c b' _ Hc. rewrite Hbd. rewrite lookup_insert_ne; [done|]. congruence.
  - done.
  - cbn. lia.
Qed.

Lemma contract_alloc b : plain b -> contract (fun _ => True) (alloc b : call addr).
Proof.
  intros [Hb Hp] l Hl. split; [|done]. apply alloc_quiet; [done..|]. apply pools_live_insert; [done|apply Hl].
Qed.

(** ** The error message *)

Lemma NUL_free_message msg :
  NUL ∉ (if bool_decide (NUL ∈ msg) then str "error message held a NUL byte" else msg).
Proof.
  destruct (bool_decide_reflect (NUL ∈ msg)) as [_|Hm]; [|done].
  assert (E : bool_decide (NUL ∉ str "error message held a NUL byte") = true) by (vm_compute; reflexivity).
  by apply bool_decide_eq_true in E.
Qed.

(** The two strings of the thread aside, nothing changed. *)
Lemma live_same l l' : live l -> ok l' -> body l' = body l -> outside l' = outside l -> live l'.
Proof.
  intros Hl Hk Hb Ho. injection Ho as Ew Ep _ _.
  assert (Hin : forall c b, l'.(heap) !! c = Some b -> (exists s, b = Memory s) \/ l.(heap) !! c = Some b).
  { intros c b Hc. destruct (decide (c = LAST_ERROR l')) as [->|Hne].
    { destruct (ok_error l' Hk) as (s & Es & _). rewrite Es in Hc. injection Hc as <-. left. by eexists. }
    destruct (decide (c = KEY_SCRATCH l')) as [->|Hnk].
    { destruct (ok_scratch l' Hk) as [k Ek]. rewrite Ek in Hc. injection Hc as <-. left. by eexists. }
    right. apply body_lookup. rewrite <- Hb. by rewrite body_lookup_eq. }
  split; [done|rewrite Ew; apply Hl| |].
  - intros c b Hc. destruct (Hin c b Hc) as [[s ->]|Hx]; [done|by eapply live_stmts].
  - rewrite Ep. eapply pools_live_mono; [|apply Hl]. intros c b Hb' Hc. by destruct (Hin c b Hc) as [[s ->]|Hx].
Qed.

Lemma set_error_told msg l :
  live l -> exists l', (set_error msg : call unit) l = (Ok tt, l') /\ live l' /\ told l l' /\ kept l l'.
Proof.
  intros Hl. pose proof (NUL_free_message msg) as Hm. unfold set_error. set (m := if bool_decide _ then _ else _) in *.
  destruct (runs_alloc (terminated m) l _ _ _ (has_self l (live_ok l Hl))) as (a & l1 & E & Ha & H1).
  rewrite (bind_step _ _ _ _ _ E).
  destruct (runs_remessage a m l1 _ _ _ H1 Ha Hm) as ([] & l2 & E2 & [Hk Hb He Ho]). exists l2.
  split; [exact E2|]. assert (En : a = next l) by (by injection E).
  split_and!; [by eapply live_same| |intros c b _ Hc; by rewrite Hb].
  unfold told. assert (E3 : LAST_ERROR l2 = a) by (unfold error_of in He; congruence). rewrite E3, En. lia.
Qed.

Lemma contract_fail {A} (R : A -> Prop) (st : skaidb_status) msg : is_error st -> contract R (fail st msg : call A).
Proof.
  intros Hs l Hl. unfold fail. destruct (set_error_told msg l Hl) as (l' & E & Hl' & Ht & Hk).
  rewrite (bind_step _ _ _ _ _ E). cbn. by split.
Qed.

Context (io_text : io_error -> bytes).

Lemma driver_status_error e : is_error (driver_status e).
Proof. destruct e as [| | |m|]; cbn [driver_status]; try done. by destruct (contains (str "without Kerberos") m). Qed.

Lemma contract_driver {A} (R : A -> Prop) e : contract R (fail_driver io_text e : call A).
Proof. apply contract_fail, driver_status_error. Qed.

Lemma contract_or_fail {A} (R : A -> Prop) r :
  returns r -> (forall x, r = Ok x -> R x) -> contract R (or_fail io_text r : call A).
Proof. destruct r; intros Hr HR; try done; [by apply contract_ret, HR|apply contract_driver]. Qed.

(** ** Arguments *)

Lemma contract_cstr (p : ptr) what : contract (fun s => utf8_valid s = true) (cstr p what : call bytes).
Proof.
  unfold cstr. destruct p as [p|]; [|by apply contract_fail].
  apply (contract_bind (fun _ => True)).
  - eapply contract_bind; [apply contract_look|]. intros s _. destruct (split_once NUL s) as [[t ?]|];
      [by apply contract_ret|apply contract_undefined].
  - intros s _. destruct (utf8_valid s) eqn:E; [by apply contract_ret|by apply contract_fail].
Qed.

Lemma contract_cstr_opt (p : ptr) what :
  contract (fun o => utf8_valid (default [] o) = true) (cstr_opt p what : call (option bytes)).
Proof.
  unfold cstr_opt. destruct p; [|by apply contract_ret]. eapply contract_bind; [apply contract_cstr|].
  intros s Hs. by apply contract_ret.
Qed.

Lemma contract_gather {A} (R : A -> Prop) (f : nat -> call A) i n :
  (forall j, contract R (f j)) -> contract (Forall R) (gather f i n).
Proof.
  intros Hf. revert i. induction n as [|n IH]; intros i; cbn [gather]; [by apply contract_ret|].
  eapply contract_bind; [apply Hf|]. intros x Hx. eapply contract_bind; [apply IH|]. intros xs Hxs.
  apply contract_ret. by constructor.
Qed.

Lemma contract_load_ptr p i : contract (fun _ => True) (load_ptr p i : call ptr).
Proof.
  eapply contract_bind; [apply contract_load|]. intros b _.
  destruct b; try apply contract_undefined. destruct (entry (path p) i) as [k|]; [|apply contract_undefined].
  destruct (l !! k); [by apply contract_ret|apply contract_undefined].
Qed.

Lemma contract_cstr_list items n what :
  contract (Forall (fun s => utf8_valid s = true)) (cstr_list items n what : call (list bytes)).
Proof.
  unfold cstr_list. destruct n as [|n]; [by destruct items; apply contract_ret|].
  destruct items as [p|]; [|by apply contract_fail]. apply contract_gather. intros j.
  eapply contract_bind; [apply contract_load_ptr|]. intros x _. apply contract_cstr.
Qed.

Lemma contract_params params n : contract (fun _ => True) (params_slice params n : call (list Value)).
Proof.
  unfold params_slice. destruct n as [|n]; [by destruct params; apply contract_ret|].
  destruct params as [p|]; [|by apply contract_fail].
  eapply contract_weaken; [apply (contract_gather (fun _ => True))|done]. intros j.
  eapply contract_bind; [apply contract_load_ptr|]. intros [v|] _; [apply contract_look|by apply contract_fail].
Qed.

Lemma contract_consistency c : contract (fun _ => True) (consistency_of c : call Consistency).
Proof.
  unfold consistency_of. destruct c as [|p|p]; [by apply contract_ret| |apply contract_undefined].
  destruct p as [p|p|]; [apply contract_undefined| |by apply contract_ret].
  destruct p; [apply contract_undefined..|by apply contract_ret].
Qed.

(** ** The client behind a handle *)

(** A block of the library's own changes, and the world. *)
Lemma quiet_update l l' a b b' :
  live l -> l.(heap) !! a = Some b -> mine b = false -> stmt_ok b' -> mine b' = false ->
  l'.(heap) = <[a := b']> l.(heap) -> l'.(next) = l.(next) -> l'.(LAST_ERROR) = l.(LAST_ERROR) ->
  l'.(KEY_SCRATCH) = l.(KEY_SCRATCH) -> net_ok l'.(lib_world) -> pools_live l'.(heap) l'.(lib_pool) -> quiet l l'.
Proof.
  intros [[Hf Ha (s & Hs & Hn) (k & Hk)] Hw Hst Hps] Hb Hm Hb' Hm' Eh En El Ek Hw' Hps'.
  assert (Hal : a <> LAST_ERROR l) by (intros ->; rewrite Hs in Hb; by injection Hb as <-).
  assert (Hak : a <> KEY_SCRATCH l) by (intros ->; rewrite Hk in Hb; by injection Hb as <-).
  split.
  - split; [split|done| |done].
    + intros c Hc. rewrite En. apply Hf. rewrite Eh in Hc. apply lookup_insert_is_Some in Hc as [<-|[_ Hc]]; [|done].
      by rewrite Hb.
    + by rewrite El, Ek.
    + exists s. by rewrite El, Eh, lookup_insert_ne.
    + exists k. by rewrite Ek, Eh, lookup_insert_ne.
    + intros c b0. rewrite Eh. intros [[<- <-]|[_ Hc]]%lookup_insert_Some; [done|]. by eapply Hst.
  - intros c b0 Hm0. unfold body. rewrite El, Ek, Eh, !delete_insert_ne by done. intros Hc.
    rewrite lookup_insert_ne; [done|]. intros ->. apply body_lookup in Hc. rewrite Hb in Hc. congruence.
  - unfold error_of. by rewrite El, Eh, lookup_insert_ne.
  - rewrite En. lia.
Qed.

Lemma quiet_world l l' :
  live l -> l'.(heap) = l.(heap) -> l'.(next) = l.(next) -> l'.(LAST_ERROR) = l.(LAST_ERROR) ->
  l'.(KEY_SCRATCH) = l.(KEY_SCRATCH) -> net_ok l'.(lib_world) -> pools_live l'.(heap) l'.(lib_pool) -> quiet l l'.
Proof.
  intros [[Hf Ha (s & Hs & Hn) (k & Hk)] Hw Hst Hps] Eh En El Ek Hw' Hps'. split.
  - split; [split|done| |done].
    + intros c. rewrite Eh, En. apply Hf.
    + by rewrite El, Ek.
    + exists s. by rewrite El, Eh.
    + exists k. by rewrite Ek, Eh.
    + intros c b. rewrite Eh. apply Hst.
  - intros c b _. unfold body. by rewrite El, Ek, Eh.
  - unfold error_of. by rewrite El, Eh.
  - rewrite En. lia.
Qed.

Lemma client_at_inv a l x l' : client_at a l = (Ok x, l') -> l' = l /\ l.(heap) !! a = Some (AClient x).
Proof.
  unfold client_at, load, mbind, eff_bind. destruct (heap l !! a) as [b|]; [|done]. destruct b; try done.
  by intros [= -> ->].
Qed.

Lemma contract_client_at a : contract (fun _ => True) (client_at a : call Client).
Proof. eapply contract_bind; [apply contract_load|]. intros [] _; try apply contract_undefined. by apply contract_ret. Qed.

Lemma contract_client_mut c : contract (fun _ => True) (client_mut c : call addr).
Proof.
  unfold client_mut. destruct c as [p|]; [|by apply contract_fail].
  eapply contract_bind; [apply contract_client_at|]. intros _ _.
  destruct (path p); [by apply contract_ret|apply contract_undefined].
Qed.

Lemma contract_on_client {A} (R : A -> Prop) a (m : eff DriverError (Session P) A) :
  back m -> ordinary m -> (forall (t : Session P) x t', m t = (Ok x, t') -> R x) ->
  contract R (on_client_at io_text a m : call A).
Proof.
  intros Hb Hm HR l Hl. unfold on_client_at. destruct (client_at a l) as [[c|e| |] l1] eqn:Ec.
  2-4: pose proof (contract_client_at a l Hl) as Hc; rewrite Ec in Hc; unfold mbind, eff_bind; rewrite Ec; done.
  rewrite (bind_step _ _ _ _ _ Ec). apply client_at_inv in Ec as [-> Ec]. revert l Hl Ec.
  enough (Hgo : forall l, live l -> heap l !! a = Some (AClient c) ->
    match (let '(r, s) := m (enter c l) in (Ok r, leave a s l) : res stop (res DriverError A) * Lib P) with
    | (Ok r, l') => quiet l l' /\ returns r /\ forall x, r = Ok x -> R x
    | _ => False end).
  { intros l Hl Ec. specialize (Hgo l Hl Ec). unfold mbind at 1, eff_bind at 1.
    destruct (m (enter c l)) as [r s]. destruct Hgo as (Hq & Hr & HRr).
    pose proof (contract_or_fail R r Hr HRr _ (quiet_live _ _ Hq)) as Ho.
    destruct (or_fail io_text r (leave a s l)) as [[x|[st|]| |] l2]; try done.
    - destruct Ho. split; [by eapply quiet_trans|done].
    - by eapply quiet_complained. }
  intros l Hl Ec. destruct (Hb (enter c l) (live_net l Hl)) as [Hr Hw]. specialize (HR (enter c l)).
  pose proof (pools_live_session l.(heap) m (enter c l) Hm (live_pools l Hl)) as Hp.
  destruct (m (enter c l)) as [r s]. cbn [fst snd] in *. split_and!; [|done|intros x ->; by eapply HR].
  eapply (quiet_update l _ a (AClient c) (AClient s.(client))); try done. by apply pools_live_insert.
Qed.

Lemma prepared_at_inv stmt l x l' :
  prepared_at stmt l = (Ok x, l') -> l' = l /\ l.(heap) !! x.1 = Some (APrepared x.2).
Proof.
  unfold prepared_at. destruct stmt as [p|].
  - unfold load, mbind, eff_bind. destruct (heap l !! base p) as [b|] eqn:E; [|done].
    destruct b; try done. destruct (path p); [|done]. by intros [= <- <-].
  - unfold fail. intros (? & ? & _ & Hx)%bind_done. done.
Qed.

Lemma contract_prepared_at stmt :
  contract (fun x => utf8_valid x.2.(stmt_sql) = true) (prepared_at stmt : call (addr * Prepared)).
Proof.
  unfold prepared_at. destruct stmt as [p|]; [|by apply contract_fail].
  eapply contract_bind; [apply contract_load|]. intros b Hb. destruct b; try apply contract_undefined.
  destruct (path p); [by apply contract_ret|apply contract_undefined].
Qed.

Lemma contract_on_stmt {A} a stmt (m : eff DriverError (Session P * Prepared) A) :
  stmt_back m -> (forall I, stable I -> keeps (fun t => I t.1) m) ->
  contract (fun _ => True) (on_stmt_at io_text a stmt m : call A).
Proof.
  intros Hb Hm l Hl. unfold on_stmt_at. pose proof (contract_prepared_at stmt l Hl) as Hst.
  destruct (prepared_at stmt l) as [[[sa st]|e| |] l1] eqn:Es.
  2-4: unfold mbind, eff_bind; rewrite Es; done.
  rewrite (bind_step _ _ _ _ _ Es). apply prepared_at_inv in Es as [-> Es]. destruct Hst as [_ Hu]. cbn [fst snd] in *.
  pose proof (contract_client_at a l Hl) as Hc. destruct (client_at a l) as [[c|e| |] l1] eqn:Ec.
  2-4: unfold mbind, eff_bind; rewrite Ec; done.
  rewrite (bind_step _ _ _ _ _ Ec). apply client_at_inv in Ec as [-> Ec]. clear Hc.
  specialize (Hb (enter c l) st (live_net l Hl) Hu).
  assert (Hp : pools_live l.(heap) (m (enter c l, st)).2.1.(pool)).
  { eapply pools_live_books; [|apply (live_pools l Hl)]. apply (Hm _ (books_stable _) (enter c l, st)). }
  unfold mbind at 1, eff_bind at 1.
  destruct (m (enter c l, st)) as [r [t st']]. destruct Hb as (Hr & Hw & Hu'). cbn [fst snd] in Hp.
  assert (H1 : quiet l (leave a t l)).
  { eapply (quiet_update l _ a (AClient c) (AClient t.(client))); try done. by apply pools_live_insert. }
  assert (Hne : a <> sa) by congruence.
  assert (H2 : quiet (leave a t l) (with_block sa (APrepared st') (leave a t l))).
  { eapply (quiet_update _ _ sa (APrepared st) (APrepared st')); try done; [by apply H1|cbn; by rewrite lookup_insert_ne|].
    apply pools_live_insert; [done|apply H1]. }
  pose proof (quiet_trans _ _ _ H1 H2) as Hq.
  pose proof (contract_or_fail (fun _ => True) r Hr ltac:(done) _ (quiet_live _ _ Hq)) as Ho.
  destruct (or_fail io_text r _) as [[x|[s|]| |] l2]; try done.
  - destruct Ho. split; [by eapply quiet_trans|done].
  - by eapply quiet_complained.
Qed.

(** ** Connecting *)

Section connecting.
Context {G : Type} (kerberos : bool)
  (gss_new : bytes -> option bytes -> res bytes (G * bytes))
  (gss_step : G -> bytes -> res bytes (ClientStep G))
  (sha384 sha512 : bytes -> bytes).
Context (tls_new : verify_mode -> bytes -> res DriverError unit)
  (resolve : bytes -> res io_error (list bytes)).
Hypothesis gss_new_returns : forall spn cb, returns (gss_new spn cb).
Hypothesis gss_step_returns : forall g t, returns (gss_step g t).
Hypothesis tls_new_returns : forall v name, returns (tls_new v name).
Hypothesis resolve_returns : forall ep, returns (resolve ep).

Lemma contract_driven {A} (R : A -> Prop) (m : eff DriverError (Lib P) A) :
  (forall l, live l -> quiet l (m l).2 /\ returns (m l).1 /\ forall x, (m l).1 = Ok x -> R x) ->
  contract R (driven io_text m : call A).
Proof.
  intros Hm l Hl. specialize (Hm l Hl) as (Hq & Hr & HR). unfold driven, mbind, eff_bind at 1.
  destruct (m l) as [r l1]. cbn [fst snd] in *.
  pose proof (contract_or_fail R r Hr HR _ (quiet_live _ _ Hq)) as Ho.
  destruct (or_fail io_text r l1) as [[x|[s|]| |] l2]; try done.
  - destruct Ho. split; [by eapply quiet_trans|done].
  - by eapply quiet_complained.
Qed.

Lemma dialed_quiet eps lg l :
  live l -> let '(r, l') := dialed kerberos gss_new gss_step sha384 sha512 eps lg l in quiet l l' /\ returns r.
Proof.
  intros Hl. unfold dialed.
  pose proof (connect_mode_back kerberos gss_new gss_step sha384 sha512 gss_new_returns gss_step_returns
    eps lg (lib_world l) (lib_pool l) (live_net l Hl)) as Hc.
  assert (Hp : pools_live l.(heap)
    (connect_mode kerberos gss_new gss_step sha384 sha512 eps lg (lib_world l, lib_pool l)).2.2).
  { eapply pools_live_books; [|apply (live_pools l Hl)]. apply connect_mode_books. }
  destruct (connect_mode _ _ _ _ _ _ _ _) as [r [w p]]. destruct Hc as [Hr Hw].
  split; [by apply quiet_world|by destruct r].
Qed.

Lemma contract_connected eps lg :
  contract (fun _ => True) (connected kerberos gss_new gss_step sha384 sha512 io_text eps lg : call Client).
Proof.
  apply contract_driven. intros l Hl. pose proof (dialed_quiet eps lg l Hl) as Hd.
  destruct (dialed _ _ _ _ _ eps lg l) as [r l']. destruct Hd. by split_and!.
Qed.

Lemma contract_tls tls : contract (fun _ => True) (tls_config io_text tls_new tls : call unit).
Proof.
  unfold tls_config. destruct tls as [p|]; [|by apply contract_ret].
  eapply contract_bind; [apply contract_load|]. intros b _. destruct b; try apply contract_undefined.
  destruct (path p); [|apply contract_undefined]. eapply contract_bind; [apply contract_cstr|]. intros name _.
  apply (contract_bind (fun _ => True)).
  - destruct (verify t) as [|q|q]; [| |apply contract_undefined].
    + eapply contract_bind; [apply contract_cstr|]. intros f _. by apply contract_ret.
    + destruct q as [q|q|]; [apply contract_undefined| |by apply contract_ret].
      destruct q; [apply contract_undefined..|by apply contract_ret].
  - intros v _. by apply contract_or_fail.
Qed.

End connecting.

(** ** Results *)

Lemma contract_c_strings names : contract (fun _ => True) (c_strings names : call (list addr)).
Proof.
  induction names as [|s names IH]; cbn [c_strings]; [by apply contract_ret|].
  eapply contract_bind; [by apply contract_alloc|]. intros a _. eapply contract_bind; [apply IH|].
  intros cs _. by apply contract_ret.
Qed.

Lemma contract_row_set cols rows : contract (fun _ => True) (row_set cols rows : call skaidb_result).
Proof. eapply contract_bind; [apply contract_c_strings|]. intros names _. by apply contract_ret. Qed.

Lemma contract_row_sets sets : contract (fun _ => True) (row_sets sets : call (list skaidb_result)).
Proof.
  induction sets as [|[cols rows] sets IH]; cbn [row_sets]; [by apply contract_ret|].
  eapply contract_bind; [apply contract_row_set|]. intros r _. eapply contract_bind; [apply IH|].
  intros cs _. by apply contract_ret.
Qed.

Lemma contract_result_of r : contract (fun _ => True) (result_of r : call skaidb_result).
Proof.
  destruct r; cbn [result_of]; try (by apply contract_ret); try apply contract_row_set.
  all: try (eapply contract_bind; [by apply contract_alloc|]; intros a _; by apply contract_ret).
  eapply contract_bind; [apply contract_row_sets|]. intros cs _. by apply contract_ret.
Qed.

Lemma contract_results_of rs : contract (fun _ => True) (results_of rs : call (list skaidb_result)).
Proof.
  induction rs as [|r rs IH]; cbn [results_of]; [by apply contract_ret|].
  eapply contract_bind; [apply contract_result_of|]. intros x _. eapply contract_bind; [apply IH|].
  intros cs _. by apply contract_ret.
Qed.

(** ** Writing to the caller *)

Definition kept_but (outs : list addr) l l' : Prop :=
  forall a b, mine b = true -> a ∉ outs -> body l !! a = Some b -> body l' !! a = Some b.

Record wrote (outs : list addr) l l' : Prop := {
  wrote_live : live l';
  wrote_kept : kept_but outs l l';
  wrote_error : error_of l' = error_of l;
}.

(** A call that only breaks off at a broken pointer. *)
Definition writes {A} (outs : list addr) (R : A -> Prop) (m : call A) : Prop := forall l, live l ->
  match m l with
  | (Ok x, l') => wrote outs l l' /\ R x
  | (Err Undefined, _) => True
  | _ => False
  end.

Lemma wrote_trans outs l1 l2 l3 : wrote outs l1 l2 -> wrote outs l2 l3 -> wrote outs l1 l3.
Proof. intros [? K1 E1] [? K2 E2]. split; [done|by intros a b Hb Ha Hc; apply K2, K1|by rewrite E2]. Qed.

Lemma quiet_wrote outs l l' : quiet l l' -> wrote outs l l'.
Proof. intros [? K E _]. split; [done|by intros a b Hb _; apply K|done]. Qed.

Lemma writes_bind {A C} outs (R : A -> Prop) (Q : C -> Prop) (m : call A) k :
  writes outs R m -> (forall x, R x -> writes outs Q (k x)) -> writes outs Q (m ≫= k).
Proof.
  intros Hm Hk l Hl. specialize (Hm l Hl). unfold mbind, eff_bind.
  destruct (m l) as [[x|[s|]| |] l1]; try done. destruct Hm as [Hw Hx]. specialize (Hk x Hx l1 (wrote_live _ _ _ Hw)).
  destruct (k x l1) as [[y|[s|]| |] l2]; try done. destruct Hk. split; [by eapply wrote_trans|done].
Qed.

Lemma writes_ret {A} outs (R : A -> Prop) x : R x -> writes outs R (mret x).
Proof. intros Hx l Hl. split; [by apply quiet_wrote, quiet_refl|done]. Qed.

Lemma writes_alloc outs b : plain b -> writes outs (fun _ => True) (alloc b : call addr).
Proof. intros Hb l Hl. destruct (contract_alloc b Hb l Hl) as [Hq _]. split; [by apply quiet_wrote|done]. Qed.

Lemma writes_dup outs t : writes outs (fun _ => True) (dup t : call ptr).
Proof. eapply writes_bind; [by apply writes_alloc|]. intros a _. by apply writes_ret. Qed.

(** An array of the caller's, changed in place. *)
Lemma writes_store a b b' l :
  live l -> l.(heap) !! a = Some b -> mine b = true -> (forall s, b <> Memory s) -> plain b' ->
  wrote [a] l (with_block a b' l).
Proof.
  intros [[Hf Ha (s & Hs & Hn) (k & Hk)] Hw Hst Hps] Hb _ Hm [Hb' Hb2].
  assert (Hal : a <> LAST_ERROR l) by (intros ->; rewrite Hs in Hb; injection Hb as <-; by apply (Hm (s ++ [NUL]))).
  assert (Hak : a <> KEY_SCRATCH l) by (intros ->; rewrite Hk in Hb; injection Hb as <-; by apply (Hm (k ++ [NUL]))).
  split.
  - split; [split|done| |by apply pools_live_insert]; cbn.
    + intros c Hc. apply Hf. apply lookup_insert_is_Some in Hc as [<-|[_ Hc]]; [|done]. by rewrite Hb.
    + done.
    + exists s. by rewrite lookup_insert_ne.
    + exists k. by rewrite lookup_insert_ne.
    + intros c b0 [[<- <-]|[_ Hc]]%lookup_insert_Some; [done|]. by eapply Hst.
  - intros c b0 _ Hc Hb0. unfold body in *. cbn. rewrite !delete_insert_ne by done.
    rewrite lookup_insert_ne; [done|]. intros ->. apply Hc. by left.
  - unfold error_of. cbn. by rewrite lookup_insert_ne.
Qed.

Lemma writes_store_ptr p x : writes [p.(base)] (fun _ => True) (store_ptr p x : call unit).
Proof.
  intros l Hl. unfold store_ptr, load, mbind, eff_bind. destruct (heap l !! base p) as [b|] eqn:Eb; [|done].
  destruct b as [|ps| | | | | | | | | | | |]; try done. destruct (entry (path p) 0) as [k|]; [|done].
  destruct (k <? length ps)%nat; [|done]. split; [|done]. by eapply writes_store.
Qed.

Lemma writes_store_num p x : writes [p.(base)] (fun _ => True) (store_num p x : call unit).
Proof.
  intros l Hl. unfold store_num, load, mbind, eff_bind. destruct (heap l !! base p) as [b|] eqn:Eb; [|done].
  destruct b as [| |ns| | | | | | | | | | |]; try done. destruct (entry (path p) 0) as [k|]; [|done].
  destruct (k <? length ns)%nat; [|done]. split; [|done]. by eapply writes_store.
Qed.

Lemma writes_more {A} outs outs' (R : A -> Prop) (m : call A) :
  (forall a, a ∈ outs -> a ∈ outs') -> writes outs R m -> writes outs' R m.
Proof.
  intros Ho Hm l Hl. specialize (Hm l Hl). destruct (m l) as [[x|[s|]| |] l1]; try done.
  destruct Hm as [[? K E] Hx]. split; [|done]. split; [done| |done]. intros a b Hb Ha. apply K; auto.
Qed.

(** What an exported function promises. *)
Definition honours (outs : list addr) (m : call skaidb_status) : Prop := forall l, live l ->
  match m l with
  | (Ok s, l') => s = SKAIDB_OK /\ wrote outs l l' \/ complained s l l'
  | (Err Undefined, _) => True
  | _ => False
  end.

(** The same before [status]: what fails has written nothing. *)
Definition promises (outs : list addr) (m : call skaidb_status) : Prop := forall l, live l ->
  match m l with
  | (Ok s, l') => s = SKAIDB_OK /\ wrote outs l l'
  | (Err (Status s), l') => complained s l l'
  | (Err Undefined, _) => True
  | _ => False
  end.

Lemma promises_bind {A} outs (R : A -> Prop) (f : call A) k :
  contract R f -> (forall x, R x -> promises outs (k x)) -> promises outs (f ≫= k).
Proof.
  intros Hf Hk l Hl. specialize (Hf l Hl). unfold mbind, eff_bind.
  destruct (f l) as [[x|[s|]| |] l1]; try done. destruct Hf as [Hq Hx]. specialize (Hk x Hx l1 (quiet_live _ _ Hq)).
  destruct (k x l1) as [[y|[s|]| |] l2]; try done; [|by eapply quiet_complained].
  destruct Hk as [-> Hw]. split; [done|]. eapply wrote_trans; [by apply quiet_wrote|done].
Qed.

Lemma promises_writes outs m : writes outs (eq SKAIDB_OK) m -> promises outs m.
Proof. intros Hm l Hl. specialize (Hm l Hl). destruct (m l) as [[x|[s|]| |] l1]; try done. by destruct Hm as [? <-]. Qed.

Lemma promises_fail outs (st : skaidb_status) msg : is_error st -> promises outs (fail st msg).
Proof.
  intros Hs l Hl. pose proof (contract_fail (A:=skaidb_status) (fun _ => False) st msg Hs l Hl) as Hf.
  destruct (fail st msg l) as [[x|[s|]| |] l1]; try done. by destruct Hf.
Qed.

Lemma honours_status outs m : promises outs m -> honours outs (status m).
Proof.
  intros Hm l Hl. specialize (Hm l Hl). unfold status, handle.
  destruct (m l) as [[x|[s|]| |] l1]; try done; [by left|by right].
Qed.

Definition target (out : ptr) : list addr := match out with Some p => [p.(base)] | None => [] end.

(** A block that needs its address. *)
Lemma honours_boxed_at {A} (mk : A -> block) (R : A -> Lib P -> Prop) out f :
  contract_at R f ->
  (forall x l, live l -> R x l -> stmt_ok (mk x) /\ pools_live (<[l.(next) := mk x]> l.(heap)) l.(lib_pool)) ->
  honours (target out) (boxed mk out f).
Proof.
  intros Hf Hmk. apply honours_status. destruct out as [p|]; [|by apply promises_fail].
  intros l Hl. specialize (Hf l Hl). unfold mbind at 1, eff_bind at 1.
  destruct (f l) as [[x|[s|]| |] l1]; try done. destruct Hf as [Hq Hx].
  destruct (Hmk x l1 (quiet_live _ _ Hq) Hx) as [Hs Hp].
  pose proof (alloc_quiet (mk x) l1 (quiet_live _ _ Hq) Hs Hp) as Hq2.
  unfold mbind at 1, eff_bind at 1, alloc.
  assert (Hw : writes [p.(base)] (eq SKAIDB_OK) (_ ← store_ptr p (Some (at_addr l1.(next))); mret SKAIDB_OK : call skaidb_status)).
  { eapply writes_bind; [apply writes_store_ptr|]. intros [] _. by apply writes_ret. }
  specialize (Hw _ (quiet_live _ _ Hq2)). destruct ((_ ← store_ptr p _; _) _) as [[y|[s|]| |] l3]; try done.
  destruct Hw as [Hw <-]. split; [done|]. eapply wrote_trans; [|exact Hw].
  eapply wrote_trans; by apply quiet_wrote.
Qed.

Lemma honours_boxed {A} (mk : A -> block) (R : A -> Prop) out f :
  contract R f -> (forall x, R x -> plain (mk x)) -> honours (target out) (boxed mk out f).
Proof.
  intros Hf Hmk. apply honours_status. destruct out as [p|]; [|by apply promises_fail].
  eapply promises_bind; [done|]. intros x Hx. apply promises_writes.
  eapply writes_bind; [apply writes_alloc; auto|]. intros a _.
  eapply writes_bind; [apply writes_store_ptr|]. intros [] _. by apply writes_ret.
Qed.

Lemma honours_done {A} (R : A -> Prop) (m : call A) : contract R m -> honours [] (done m).
Proof.
  intros Hm. apply honours_status. eapply promises_bind; [done|]. intros x _. apply promises_writes. by apply writes_ret.
Qed.

End contracts.
