(* ===== verification/AbiPoolCalls.v ===== *)
(** * Contracts of the pool functions

    Making a balanced pool, taking a connection from any pool and listing the
    members keep what [AbiErrors] asks of every exported function. *)
From stdpp Require Import gmap.
From S2P Require Import Prelude Bytes Text BTree Value Message Effect Balancer BalancerSteps Login Session SessionSpec SessionCalls RowStream FactoryPool PoolConns PoolSteps Abi AbiHeap AbiResult AbiClient AbiStream AbiPool AbiBooks AbiErrors.
#[local] Open Scope Z_scope.

Section contracts.
Context `{Debug : ResponseDebug}.
Context {G : Type} (kerberos : bool)
  (gss_new : bytes -> option bytes -> res bytes (G * bytes))
  (gss_step : G -> bytes -> res bytes (ClientStep G))
  (sha384 sha512 : bytes -> bytes).
Context (io_text : io_error -> bytes) (birth : Z -> Z * Z * list Z * bool).
Abbreviation call A := (eff stop (Lib Pools) A).
Abbreviation driving A := (eff DriverError (Lib Pools) A).
Implicit Types (l : Lib Pools) (a : addr).
Hypothesis gss_new_returns : forall spn cb, returns (gss_new spn cb).
Hypothesis gss_step_returns : forall g t, returns (gss_step g t).

(** ** Drivers: calls that fail with an error of the driver *)

Definition drives {A} (m : driving A) : Prop := forall l, live l -> quiet l (m l).2 /\ returns (m l).1.

Lemma drives_step {A C} (m : driving A) (k : A -> driving C) x l l1 :
  m l = (Ok x, l1) -> quiet l l1 -> drives (k x) -> quiet l ((m ≫= k) l).2 /\ returns ((m ≫= k) l).1.
Proof.
  intros E Hq Hk. rewrite (bind_step _ _ _ _ _ E). destruct (Hk l1 (quiet_live _ _ Hq)). split; [by eapply quiet_trans|done].
Qed.

Lemma drives_bind {A C} (m : driving A) (k : A -> driving C) : drives m -> (forall x, drives (k x)) -> drives (m ≫= k).
Proof.
  intros Hm Hk l Hl. destruct (Hm l Hl) as [Hq Hr]. unfold mbind, eff_bind.
  destruct (m l) as [[x|e| |] l1]; try done. destruct (Hk x l1 (quiet_live _ _ Hq)). split; [by eapply quiet_trans|done].
Qed.

Lemma drives_ret {A} (x : A) : drives (mret x).
Proof. intros l Hl. split; [by apply quiet_refl|done]. Qed.

Lemma drives_raise {A} e : drives (raise (A := A) e).
Proof. intros l Hl. split; [by apply quiet_refl|done]. Qed.

Lemma contract_drives {A} (m : driving A) : drives m -> contract (fun _ => True) (driven io_text m : call A).
Proof. intros Hm. apply contract_driven. intros l Hl. destruct (Hm l Hl). by split_and!. Qed.

Lemma drives_dialed eps lg : drives (dialed kerberos gss_new gss_step sha384 sha512 eps lg).
Proof.
  intros l Hl. pose proof (dialed_quiet kerberos gss_new gss_step sha384 sha512 gss_new_returns gss_step_returns eps lg l Hl) as Hd.
  by destruct (dialed _ _ _ _ _ eps lg l) as [r l'].
Qed.

Lemma drives_drop c : drives (drop_client c).
Proof.
  intros l Hl. split; [|done]. apply quiet_world; try done; [apply Hl|]. unfold drop_client, changes. cbn [snd heap lib_pool].
  destruct (link c) as [k|]; [|apply Hl]. eapply pools_live_books; [|apply Hl]. apply books_aside.
  intros pw. apply closed_out_aside.
Qed.

(** ** A plain pool's connections *)

Lemma use_database_keeps_all db : ordinary (use_database db : eff DriverError (Session Pools) unit).
Proof.
  intros I HI. exact (run_call_keeps false (fun _ _ => Panic) (fun (_ : unit) _ => Panic) (fun b => b) (fun b => b)
    I HI (CallUse db)).
Qed.

Lemma use_database_returns db : back (use_database db : eff DriverError (Session Pools) unit).
Proof.
  exact (run_call_back false (fun _ _ => Err []) (fun (_ : unit) _ => Err []) (fun b => b) (fun b => b)
    (fun _ _ => I) (fun _ _ => I) (CallUse db) I).
Qed.

Lemma drives_make eps lg db : drives (make_client kerberos gss_new gss_step sha384 sha512 eps lg db).
Proof.
  apply drives_bind; [apply drives_dialed|]. intros c. destruct db as [d|]; [|apply drives_ret].
  intros l Hl. destruct (use_database_returns d (enter c l) (live_net l Hl)) as [Hr Hw].
  pose proof (pools_live_session l.(heap) _ (enter c l) (use_database_keeps_all d) (live_pools l Hl)) as Hp.
  eapply (drives_step _ _ (_, _)); [by rewrite (surjective_pairing (use_database d (enter c l)))|by apply quiet_world|].
  cbv beta iota. destruct (use_database d (enter c l)).1; try done; [apply drives_ret|].
  apply drives_bind; [apply drives_drop|]. intros x. apply drives_raise.
Qed.

(** ** Taking a connection *)

Lemma pool_at_inv p l pl l' : pool_at p l = (Ok pl, l') -> l' = l /\ l.(heap) !! p.(base) = Some (APool pl).
Proof.
  unfold pool_at, look, load, mbind, eff_bind. destruct (heap l !! base p) as [b|]; [|done].
  destruct b; try done. destruct (path p); [|done]. by intros [= -> ->].
Qed.

Lemma make_heap eps lg db l : (make_client kerberos gss_new gss_step sha384 sha512 eps lg db l).2.(heap) = l.(heap).
Proof.
  assert (Hd : (dialed kerberos gss_new gss_step sha384 sha512 eps lg l).2.(heap) = l.(heap)).
  { unfold dialed. by destruct (connect_mode _ _ _ _ _ _ _ _) as [r [w p]]. }
  unfold make_client, mbind, eff_bind. destruct (dialed _ _ _ _ _ eps lg l) as [[c|e| |] l1]; try done.
  destruct db as [d|]; [|done]. destruct (use_database d (enter c l1)) as [r s]. by destruct r.
Qed.

Lemma acquire_drives a pl key l :
  live l -> l.(heap) !! a = Some (APool pl) ->
  quiet l (acquire_at kerberos gss_new gss_step sha384 sha512 a pl key l).2
  /\ returns (acquire_at kerberos gss_new gss_step sha384 sha512 a pl key l).1.
Proof.
  intros Hl Ha. destruct pl as [f eps lg db|b self idle n]; cbn [acquire_at].
  - assert (Hstore : forall l1 f', quiet l l1 -> l1.(heap) = l.(heap) ->
      quiet l (with_block a (APool (Plain f' eps lg db)) l1)).
    { intros l1 f' Hq H1. eapply quiet_trans; [exact Hq|]. pose proof (quiet_live _ _ Hq) as Hl1.
      apply (quiet_update l1 _ a (APool (Plain f eps lg db)) (APool (Plain f' eps lg db))); try done; [by rewrite H1|apply Hl1|].
      apply pools_live_insert; [done|apply Hl1]. }
    unfold FactoryPool.acquire. destruct (closed f); [split; [by apply Hstore; [apply quiet_refl|]|done]|].
    destruct (pop_idle f) as [[c|] f']; [split; [by apply Hstore; [apply quiet_refl|]|done]|].
    destruct (drives_make eps lg db l Hl) as [Hq Hr]. pose proof (make_heap eps lg db l) as Hh.
    destruct (make_client _ _ _ _ _ eps lg db l) as [r l1]. split; [by apply Hstore|done].
  - destruct (live_pools l Hl _ _ _ _ _ Ha) as [-> (pw & Hpw & Hok)].
    unfold mbind, eff_bind, on_balanced. rewrite Hpw.
    destruct (goes_books b (Zpos a) (checkout kerberos gss_new gss_step sha384 sha512 b (Zpos a) key) (conns_of pw idle n l))
      as [Hr [Hok' Hw]].
    { intros W0 out Hi. eapply goes_weaken; [by apply checkout_goes|done| |by eexists].
      intros k s [_ Hk]. by eexists. }
    { split; [exact Hok|apply Hl]. }
    destruct (checkout _ _ _ _ _ _ _ _ _) as [r s]. cbn [fst snd] in *.
    assert (Hq : quiet l (after_conns a b (Zpos a) s l)).
    { apply (quiet_update l _ a (APool (Balanced b (Zpos a) idle n)) (APool (Balanced b (Zpos a) s.(cs_idle) s.(cs_next)))); try done.
      eapply pools_live_update; [exact Ha|exact Hok'|apply Hl]. }
    by destruct r.
Qed.

Lemma contract_run {A} (m : driving A) l :
  quiet l (m l).2 -> returns (m l).1 ->
  match (driven io_text m : call A) l with
  | (Ok x, l') => quiet l l' /\ True
  | (Err (Status s), l') => complained s l l'
  | (Err Undefined, _) => True
  | _ => False
  end.
Proof.
  intros Hq Hr. unfold driven, mbind, eff_bind at 1. destruct (m l) as [r l1]. cbn [fst snd] in *.
  pose proof (contract_or_fail io_text (fun _ => True) r Hr ltac:(done) _ (quiet_live _ _ Hq)) as Ho.
  destruct (or_fail io_text r l1) as [[x|[s|]| |] l2]; try done.
  - destruct Ho. split; [by eapply quiet_trans|done].
  - by eapply quiet_complained.
Qed.

Lemma contract_acquire a key :
  contract (fun _ => True)
    (pl ← pool_at (at_addr a); driven io_text (acquire_at kerberos gss_new gss_step sha384 sha512 a pl key) : call Client).
Proof.
  intros l Hl. pose proof (contract_look (fun b q => match b, q with APool pl, [] => Some pl | _, _ => None end)
    (at_addr a) l Hl) as Hc. fold (pool_at (at_addr a)) in Hc. unfold mbind at 1, eff_bind at 1.
  destruct (pool_at (at_addr a) l) as [[pl|[s|]| |] l1] eqn:E; try done. apply pool_at_inv in E as [-> Ha].
  destruct (acquire_drives a pl key l Hl Ha). by apply contract_run.
Qed.

(** ** Making a pool *)

Lemma built_ok b self now rng instants spawns pw w :
  build b now rng instants spawns = Ok pw -> net_ok w -> pool_ok b self ∅ 0 pw.
Proof.
  intros Hb Hw. destruct (fresh_settled b self _ _ _ _ _ _ [] Hb Hw) as [Hi Hs].
  exact (proj1 (here_conns b self _ _ _ Hi (settled_here _ _ _ _ Hs))).
Qed.

Lemma build_returns b now rng instants spawns : returns (build b now rng instants spawns).
Proof.
  unfold build, Balancer.build. destruct (Balancer.dedup _); [done|]. destruct (_ <? _)%nat; [done|].
  destruct (_ <? _); [done|]. by destruct (negb _).
Qed.

(** What never succeeds promises anything. *)
Lemma contract_never {A} (R : A -> Lib Pools -> Prop) (m : call A) : contract (fun _ => False) m -> contract_at R m.
Proof. intros Hm l Hl. specialize (Hm l Hl). destruct (m l) as [[x|[s|]| |] l1]; try done. by destruct Hm. Qed.

(** What the handle of a pool must find when it is allocated. *)
Definition ready (pl : skaidb_pool) l : Prop :=
  pools_live (<[l.(next) := APool pl]> l.(heap)) l.(lib_pool).

Lemma contract_built b : contract_at ready (built io_text birth b : call skaidb_pool).
Proof.
  intros l Hl. unfold built, reads_state, mbind at 1, eff_bind at 1. destruct (birth _) as [[[now rng] instants] spawns].
  pose proof (build_returns b now rng instants spawns) as Hr.
  destruct (build b now rng instants spawns) as [pw|[|msg]| |] eqn:E; try done.
  - unfold changes, mbind, eff_bind. cbn [heap next LAST_ERROR KEY_SCRATCH lib_world lib_pool].
    assert (Hne : forall a b' self idle n, l.(heap) !! a = Some (APool (Balanced b' self idle n)) -> Zpos (next l) <> self).
    { intros a b' self idle n Ha. destruct (live_pools l Hl _ _ _ _ _ Ha) as [-> _]. intros [= En].
      pose proof (ok_fresh l (live_ok l Hl) a ltac:(by eexists)). rewrite En in *. lia. }
    assert (Hp : pools_live l.(heap) (<[Zpos l.(next) := pw]> l.(lib_pool))).
    { intros a b' self idle n Ha. destruct (live_pools l Hl _ _ _ _ _ Ha) as [E1 (pw' & Hpw & Hok)]. split; [done|].
      exists pw'. rewrite lookup_insert_ne; [done|by eapply Hne]. }
    split; [apply quiet_world; try done; apply Hl|].
    intros a b' self idle n [[<- [= <- <- <- <-]]|[_ Ha]]%lookup_insert_Some; [|by apply Hp].
    split; [done|]. exists pw. cbn. rewrite lookup_insert_eq. split; [done|]. eapply built_ok; [exact E|apply Hl].
  - exact (contract_never ready _ (contract_driver io_text _ _) l Hl).
  - by refine (contract_never ready _ (contract_fail _ _ _ _) l Hl).
Qed.

Lemma contract_options o : contract (fun _ => True) (options_at o : call skaidb_pool_options).
Proof. destruct o; [apply contract_look|by apply contract_ret]. Qed.

(** ** Members *)

Lemma contract_members pl : contract (fun _ => True) (members_of pl : call (list PoolMember)).
Proof. destruct pl; [by apply contract_ret|]. apply contract_reads. intros l Hl. done. Qed.

Lemma contract_items ms : contract (fun _ => True) (member_items ms : call _).
Proof.
  induction ms as [|m ms IH]; cbn [member_items]; [by apply contract_ret|].
  eapply contract_bind; [by apply contract_alloc|]. intros a _. apply (contract_bind (fun _ => True)).
  { destruct (pm_canonical m); [|by apply contract_ret]. eapply contract_bind; [by apply contract_alloc|].
    intros c _. by apply contract_ret. }
  intros c _. eapply contract_bind; [apply IH|]. intros [strings items] _. by apply contract_ret.
Qed.

Lemma contract_pool_at p : contract (fun _ => True) (pool_at p : call skaidb_pool).
Proof. apply contract_look. Qed.

Lemma contract_pool_ref pool : contract (fun _ => True) (pool_ref pool : call addr).
Proof.
  destruct pool as [p|]; cbn [pool_ref]; [|by apply contract_fail].
  eapply contract_bind; [apply contract_pool_at|]. intros _ _. by apply contract_ret.
Qed.

End contracts.
