(* ===== verification/AbiCalls.v ===== *)
(** * Calls across the C interface

    The exported functions that connect, run statements and use pools and
    return a status, on any memory and any pointers. *)
From stdpp Require Import gmap.
From S2P Require Import Prelude Bytes Text Cursor Value Message Frame Handshake Crypto Effect Sql Balancer Login Session SessionSpec SessionCalls RowStream FactoryPool PoolConns PoolSteps Abi AbiHeap AbiResult AbiClient AbiStream AbiPool AbiBooks AbiErrors AbiPoolCalls.
#[local] Open Scope Z_scope.

(** ** Text *)

Lemma utf8_app s t : utf8_valid s = true -> utf8_valid t = true -> utf8_valid (s ++ t) = true.
Proof.
  intros Hs Ht. remember (length s) as n eqn:En. revert s En Hs. induction n as [n IH] using lt_wf_ind. intros s -> Hs.
  destruct s as [|b0 s1]; [done|]. cbn [utf8_valid app] in *.
  destruct (in_range 0 127 b0); [eapply IH; [|reflexivity|done]; cbn; lia|].
  destruct (in_range 194 223 b0).
  { destruct s1 as [|b1 s2]; [done|]. cbn [app]. apply andb_true_iff in Hs as [H1 Hs]. apply andb_true_iff.
    split; [done|]. eapply IH; [|reflexivity|done]. cbn. lia. }
  destruct (in_range 224 239 b0).
  { destruct s1 as [|b1 [|b2 s3]]; try done. cbn [app]. apply andb_true_iff in Hs as [H1 Hs]. apply andb_true_iff.
    split; [done|]. eapply IH; [|reflexivity|done]. cbn. lia. }
  destruct (in_range 240 244 b0); [|done].
  destruct s1 as [|b1 [|b2 [|b3 s4]]]; try done. cbn [app]. apply andb_true_iff in Hs as [H1 Hs]. apply andb_true_iff.
  split; [done|]. eapply IH; [|reflexivity|done]. cbn. lia.
Qed.

(** Doubling an ASCII character doubles it between characters. *)
Lemma utf8_double q s : is_ascii q = true -> utf8_valid s = true -> utf8_valid (double q s) = true.
Proof.
  intros Hq. assert (Hq0 : in_range 0 127 q = true).
  { unfold is_ascii in Hq. unfold in_range. pose proof (u8_range q). lia. }
  assert (Hne : forall b lo hi, in_range lo hi b = true -> 127 < lo -> bool_decide (b = q) = false).
  { intros b lo hi Hb Hlo. apply bool_decide_eq_false. intros ->. unfold in_range in *. lia. }
  remember (length s) as n eqn:En. revert s En. induction n as [n IH] using lt_wf_ind. intros s -> Hs.
  destruct s as [|b0 s1]; [done|]. unfold double in *. cbn [utf8_valid flat_map] in *.
  destruct (in_range 0 127 b0) eqn:E0.
  { assert (Hr : utf8_valid (flat_map (fun b => if bool_decide (b = q) then [q; q] else [b]) s1) = true)
      by (eapply IH; [|reflexivity|done]; cbn; lia).
    destruct (bool_decide (b0 = q)); cbn [app utf8_valid]; by rewrite ?Hq0, ?E0. }
  assert (Hr : forall t, (length t < S (length s1))%nat -> utf8_valid t = true ->
    utf8_valid (flat_map (fun b => if bool_decide (b = q) then [q; q] else [b]) t) = true).
  { intros t Hlen Ht. by eapply (IH (length t)). }
  destruct (in_range 194 223 b0) eqn:E1.
  { rewrite (Hne _ _ _ E1) by lia. destruct s1 as [|b1 s2]; [done|]. apply andb_true_iff in Hs as [H1 Hs].
    cbn [flat_map app utf8_valid]. rewrite (Hne b1 128 191 H1) by lia. cbn [app]. rewrite E0, E1, H1. cbn [andb].
    apply Hr; [cbn; lia|done]. }
  destruct (in_range 224 239 b0) eqn:E2.
  { rewrite (Hne _ _ _ E2) by lia. destruct s1 as [|b1 [|b2 s3]]; try done.
    apply andb_true_iff in Hs as [[H1 H2]%andb_true_iff Hs]. cbn [flat_map app utf8_valid].
    rewrite (Hne b1 _ _ H1) by (destruct (_ =? _); lia). rewrite (Hne b2 128 191 H2) by lia. cbn [app].
    rewrite E0, E1, E2, H1, H2. cbn [andb]. apply Hr; [cbn; lia|done]. }
  destruct (in_range 240 244 b0) eqn:E3; [|done].
  rewrite (Hne _ _ _ E3) by lia. destruct s1 as [|b1 [|b2 [|b3 s4]]]; try done.
  apply andb_true_iff in Hs as [[[H1 H2]%andb_true_iff H3]%andb_true_iff Hs]. cbn [flat_map app utf8_valid].
  rewrite (Hne b1 _ _ H1) by (destruct (_ =? _); lia). rewrite (Hne b2 128 191 H2), (Hne b3 128 191 H3) by lia.
  cbn [app]. rewrite E0, E1, E2, E3, H1, H2, H3. cbn [andb]. apply Hr; [cbn; lia|done].
Qed.

Lemma poll_sql_utf8 log after limit :
  0 <= limit -> utf8_valid log = true -> utf8_valid after = true -> utf8_valid (poll_sql log after limit) = true.
Proof.
  intros Hl Hlog Ha. assert (Hd : utf8_valid (to_dec limit) = true).
  { apply ascii_utf8_valid, forallb_forall. intros c Hc. pose proof (to_dec_digits limit Hl) as Hd.
    rewrite Forall_forall in Hd. specialize (Hd c (proj2 (list_elem_of_In _ _) Hc)).
    unfold is_dec_digit, in_range, is_ascii in *. lia. }
  assert (Hda : utf8_valid (double squote after) = true) by (by apply utf8_double).
  unfold poll_sql. revert Hda Hd. generalize (double squote after), (to_dec limit). intros d n Hda Hn.
  destruct after; repeat apply utf8_app; done.
Qed.

(** ** The calls *)

Inductive api :=
| Connect (endpoints : ptr) (n_endpoints : nat) (username password tls out : ptr)
| ConnectAnonymous (endpoint out : ptr)
| ConnectGssapi (endpoints : ptr) (n_endpoints : nat) (principal target_spn tls out : ptr)
| UseDatabase (client database : ptr)
| SetScanBudgetRows (client : ptr) (rows : Z)
| AddEndpoints (client endpoints : ptr) (n_endpoints : nat)
| Reconnect (client : ptr)
| Execute (client sql out : ptr)
| ExecuteWith (client sql : ptr) (consistency : Z) (out : ptr)
| Prepare (client sql out : ptr)
| ExecutePrepared (client stmt params : ptr) (n_params : nat) (out : ptr)
| ExecutePreparedWith (client stmt params : ptr) (n_params : nat) (consistency : Z) (out : ptr)
| ExecuteBatch (client stmt rows : ptr) (n_rows n_params : nat) (affected : ptr)
| Pipeline (client statements : ptr) (n_statements : nat) (out : ptr)
| StreamPoll (client log after : ptr) (limit : nat) (events next_cursor : ptr)
| QueryStream (client sql out : ptr)
| QueryStreamWith (client sql : ptr) (consistency : Z) (out : ptr)
| QueryStreamParams (client sql params : ptr) (n_params : nat) (out : ptr)
| QueryStreamParamsWith (client sql params : ptr) (n_params : nat) (consistency : Z) (out : ptr)
| PoolNewBalanced (endpoints : ptr) (n_endpoints : nat) (username password tls database options out : ptr)
| PoolAcquire (pool out : ptr)
| PoolAcquireAffinity (pool affinity out : ptr)
| PoolMembers (pool out : ptr).

(** The caller's variables a call may write. *)
Definition outs (c : api) : list addr :=
  match c with
  | Connect _ _ _ _ _ out | ConnectAnonymous _ out | ConnectGssapi _ _ _ _ _ out | Execute _ _ out
  | ExecuteWith _ _ _ out | Prepare _ _ out | ExecutePrepared _ _ _ _ out | ExecutePreparedWith _ _ _ _ _ out
  | ExecuteBatch _ _ _ _ _ out | Pipeline _ _ _ out | QueryStream _ _ out | QueryStreamWith _ _ _ out
  | QueryStreamParams _ _ _ _ out | QueryStreamParamsWith _ _ _ _ _ out | PoolNewBalanced _ _ _ _ _ _ _ out
  | PoolAcquire _ out | PoolAcquireAffinity _ _ out | PoolMembers _ out => target out
  | StreamPoll _ _ _ _ events next_cursor => target events ++ target next_cursor
  | _ => []
  end.

Section calls.
Context `{Debug : ResponseDebug}.
Abbreviation P := Pools.
Context {G : Type} (kerberos : bool)
  (gss_new : bytes -> option bytes -> res bytes (G * bytes))
  (gss_step : G -> bytes -> res bytes (ClientStep G))
  (sha384 sha512 : bytes -> bytes).
Context (io_text : io_error -> bytes) (tls_new : verify_mode -> bytes -> res DriverError unit)
  (resolve : bytes -> res io_error (list bytes)) (birth : Z -> Z * Z * list Z * bool).
Abbreviation call A := (eff stop (Lib P) A).
Abbreviation session A := (eff DriverError (Session P) A).
Implicit Types (l : Lib P).

Definition invoke (c : api) : call skaidb_status :=
  match c with
  | Connect eps n user pass tls out => skaidb_connect kerberos gss_new gss_step sha384 sha512 io_text tls_new eps n user pass tls out
  | ConnectAnonymous ep out => skaidb_connect_anonymous kerberos gss_new gss_step sha384 sha512 io_text resolve ep out
  | ConnectGssapi eps n principal spn tls out =>
      skaidb_connect_gssapi kerberos gss_new gss_step sha384 sha512 io_text tls_new eps n principal spn tls out
  | UseDatabase client db => skaidb_client_use_database io_text client db
  | SetScanBudgetRows client rows => skaidb_client_set_scan_budget_rows io_text client rows
  | AddEndpoints client eps n => skaidb_client_add_endpoints io_text client eps n
  | Reconnect client => skaidb_client_reconnect kerberos gss_new gss_step sha384 sha512 io_text client
  | Execute client sql out => skaidb_execute kerberos gss_new gss_step sha384 sha512 io_text client sql out
  | ExecuteWith client sql k out => skaidb_execute_with kerberos gss_new gss_step sha384 sha512 io_text client sql k out
  | Prepare client sql out => skaidb_prepare kerberos gss_new gss_step sha384 sha512 io_text client sql out
  | ExecutePrepared client stmt params n out =>
      skaidb_execute_prepared kerberos gss_new gss_step sha384 sha512 io_text client stmt params n out
  | ExecutePreparedWith client stmt params n k out =>
      skaidb_execute_prepared_with kerberos gss_new gss_step sha384 sha512 io_text client stmt params n k out
  | ExecuteBatch client stmt rows n m affected =>
      skaidb_execute_batch kerberos gss_new gss_step sha384 sha512 io_text client stmt rows n m affected
  | Pipeline client stmts n out => skaidb_pipeline kerberos gss_new gss_step sha384 sha512 io_text client stmts n out
  | StreamPoll client log after limit events next_cursor =>
      skaidb_stream_poll kerberos gss_new gss_step sha384 sha512 io_text client log after (Z.of_nat limit) events next_cursor
  | QueryStream client sql out => skaidb_query_stream kerberos gss_new gss_step sha384 sha512 io_text client sql out
  | QueryStreamWith client sql k out =>
      skaidb_query_stream_with kerberos gss_new gss_step sha384 sha512 io_text client sql k out
  | QueryStreamParams client sql params n out =>
      skaidb_query_stream_params kerberos gss_new gss_step sha384 sha512 io_text client sql params n out
  | QueryStreamParamsWith client sql params n k out =>
      skaidb_query_stream_params_with kerberos gss_new gss_step sha384 sha512 io_text client sql params n k out
  | PoolNewBalanced eps n user pass tls db options out =>
      skaidb_pool_new_balanced io_text tls_new birth eps n user pass tls db options out
  | PoolAcquire pool out => skaidb_pool_acquire kerberos gss_new gss_step sha384 sha512 io_text pool out
  | PoolAcquireAffinity pool affinity out =>
      skaidb_pool_acquire_affinity kerberos gss_new gss_step sha384 sha512 io_text pool affinity out
  | PoolMembers pool out => skaidb_pool_members pool out
  end.

Section returning.
Hypothesis gss_new_returns : forall spn b, returns (gss_new spn b).
Hypothesis gss_step_returns : forall g t, returns (gss_step g t).
Hypothesis tls_new_returns : forall v name, returns (tls_new v name).
Hypothesis resolve_returns : forall ep, returns (resolve ep).

(** ** The driver's calls come back *)

Lemma back_received {A} (k : bytes -> session A) :
  (forall payload, len payload <= MAX_FRAME_LEN -> back (k payload)) -> back (payload ← observed recv; k payload).
Proof.
  intros Hk s Hs. destruct (observed_acts recv s) as (E & _ & (Ew & _)). unfold mbind, eff_bind.
  destruct (observed recv s) as [r s1]. cbn [fst snd] in *. subst r. rewrite <- Ew in Hs.
  pose proof (recv_safe s.(client).(Session.stream)) as Hr. destruct (recv _) as [[payload|e| |] t] eqn:Er; try done.
  apply recv_Ok in Er as (_ & Hl & _). by apply Hk.
Qed.

Lemma query_stream_back sql params k :
  utf8_valid sql = true ->
  back (query_stream_params_with kerberos gss_new gss_step sha384 sha512 sql params k : session _).
Proof.
  intros Hu. unfold query_stream_params_with.
  apply back_bind; [apply back_attempt, transport_back, send_safe|]. intros sent.
  apply back_bind.
  { destruct sent; [apply back_ret|]. apply back_bind; [by apply reconnect_back|]. intros [].
    apply transport_back, send_safe. }
  intros _. apply back_received. intros payload Hl.
  apply back_bind; [apply back_of_res; pose proof (response_returns payload Hl); by destruct (decode_response payload)|].
  intros resp.
  apply back_bind; [destruct (ran resp); [by apply observe_statement_back|apply back_ret]|]. intros [].
  destruct resp; try apply back_raise; try apply back_ret. by destruct (default _ _).
Qed.

Lemma back_discard {A} (m : session A) : back (_ ← m; mret tt) -> back m.
Proof. intros Hm s Hs. specialize (Hm s Hs). unfold mbind, eff_bind in Hm. by destruct (m s) as [[a|e| |] s1]. Qed.

Lemma pipeline_back stmts : Forall (fun sql => utf8_valid sql = true) stmts ->
  back (pipeline kerberos gss_new gss_step sha384 sha512 stmts : session _).
Proof.
  intros Hu. apply back_bind; [apply back_ask|]. intros k. apply back_discard.
  by apply (run_call_back kerberos gss_new gss_step sha384 sha512 gss_new_returns gss_step_returns (CallPipeline stmts k)).
Qed.

Lemma stream_poll_back log after limit : utf8_valid (poll_sql log after limit) = true ->
  back (stream_poll kerberos gss_new gss_step sha384 sha512 log after limit : session _).
Proof. intros Hu. apply back_bind; [by apply execute_back|]. intros r. apply back_ret. Qed.

(** ** They are made of a session's steps *)

Lemma ordinary_discard {A} (m : session A) : ordinary (_ ← m; mret tt) -> ordinary m.
Proof.
  intros Hm I HI s Hs. specialize (Hm I HI s Hs). unfold mbind, eff_bind in Hm. by destruct (m s) as [[a|e| |] s1].
Qed.

Lemma ordinary_call {A} (m : session A) c :
  (_ ← m; mret tt) = run_call kerberos gss_new gss_step sha384 sha512 c -> ordinary m.
Proof. intros E. apply ordinary_discard. rewrite E. intros I HI. by apply run_call_keeps. Qed.

Lemma pipeline_ordinary stmts : ordinary (pipeline kerberos gss_new gss_step sha384 sha512 stmts : session _).
Proof.
  intros I HI. apply keeps_bind; [apply ask_keeps|]. intros k. by apply (ordinary_call _ (CallPipeline stmts k)).
Qed.

Lemma query_stream_ordinary sql params k :
  ordinary (query_stream_params_with kerberos gss_new gss_step sha384 sha512 sql params k : session _).
Proof.
  intros I HI. apply keeps_bind; [by apply keeps_attempt, transport_keeps|]. intros sent.
  apply keeps_bind.
  { destruct sent; [apply keeps_ret|]. apply keeps_bind; [by apply reconnect_keeps|]. intros []. by apply transport_keeps. }
  intros _. apply keeps_bind; [by apply observed_keeps|]. intros payload. apply keeps_bind; [apply keeps_of_res|].
  intros resp. apply keeps_bind; [destruct (ran resp); [by apply observe_statement_keeps|apply keeps_ret]|]. intros [].
  destruct resp; try apply keeps_raise; try apply keeps_ret. destruct (default _ _). apply keeps_ret.
Qed.

Lemma execute_prepared_ordinary params k I : stable I ->
  keeps (fun t => I t.1) (execute_prepared_with (P := P) kerberos gss_new gss_step sha384 sha512 params k).
Proof.
  intros HI. apply keeps_bind; [by apply re_prepared_keeps|]. intros r.
  apply keeps_bind; [by apply observe_stmt_keeps|]. intros []. apply keeps_ret.
Qed.

Lemma execute_batch_ordinary rows I : stable I ->
  keeps (fun t => I t.1) (execute_batch (P := P) kerberos gss_new gss_step sha384 sha512 rows).
Proof.
  intros HI. apply keeps_bind; [apply on_session_keeps, ask_keeps|]. intros k.
  apply keeps_bind; [by apply re_prepared_keeps|]. intros []; try apply keeps_raise.
  apply keeps_bind; [by apply observe_stmt_keeps|]. intros []. apply keeps_ret.
Qed.

Lemma stmt_back_ret {A} (x : A) : stmt_back (P := P) (mret x).
Proof. by intros s st. Qed.

Lemma stmt_back_raise {A} e : stmt_back (P := P) (raise (A := A) e).
Proof. by intros s st. Qed.

Lemma execute_prepared_back params k :
  stmt_back (execute_prepared_with (P := P) kerberos gss_new gss_step sha384 sha512 params k).
Proof.
  apply stmt_back_bind; [by apply re_prepared_back|]. intros r.
  apply stmt_back_bind; [apply observe_stmt_back|]. intros []. apply stmt_back_ret.
Qed.

Lemma execute_batch_back rows :
  stmt_back (execute_batch (P := P) kerberos gss_new gss_step sha384 sha512 rows).
Proof.
  apply stmt_back_bind; [apply stmt_back_on, back_ask|]. intros k.
  apply stmt_back_bind; [by apply re_prepared_back|]. intros []; try apply stmt_back_raise.
  apply stmt_back_bind; [apply observe_stmt_back|]. intros []. apply stmt_back_ret.
Qed.

(** ** Each function's contract *)

Lemma contract_execute c sql : utf8_valid sql = true ->
  contract (fun _ => True) (on_client_at io_text c (execute kerberos gss_new gss_step sha384 sha512 sql) : call _).
Proof. intros Hu. apply contract_on_client; [by apply execute_back|intros I HI; by apply execute_keeps|done]. Qed.

Lemma contract_on {A} c (m : session A) :
  back m -> ordinary m -> contract (fun _ => True) (on_client_at io_text c m : call A).
Proof. intros Hb Hm. by apply contract_on_client. Qed.

Lemma contract_call c m : call_text m ->
  contract (fun _ => True) (on_client_at io_text c (run_call kerberos gss_new gss_step sha384 sha512 m) : call unit).
Proof. intros Hm. apply contract_on; [by apply run_call_back|]. intros I HI. by apply run_call_keeps. Qed.

Lemma contract_endpoints eps n :
  contract (fun _ => True) (endpoint_list eps n : call _).
Proof.
  eapply contract_bind; [apply contract_cstr_list|]. intros [|ep l] _; [by apply contract_fail|by apply contract_ret].
Qed.

Lemma honours_response out (m : call Response) : contract (fun _ => True) m -> honours (target out) (boxed_response out m).
Proof.
  intros Hm. apply (honours_boxed AResult (fun _ => True)); [|done].
  eapply contract_bind; [exact Hm|]. intros r _. apply contract_result_of.
Qed.

Lemma contract_open_stream client sql params k :
  contract (fun _ => True) (open_stream kerberos gss_new gss_step sha384 sha512 io_text client sql params k : call _).
Proof.
  eapply contract_bind; [apply contract_client_mut|]. intros c _. eapply contract_bind; [apply contract_cstr|].
  intros sql' Hu. eapply contract_bind; [apply contract_on|].
  - unfold start_stream, query_stream_params. destruct k; [by apply query_stream_back|].
    apply back_bind; [apply back_ask|]. intros k. by apply query_stream_back.
  - unfold start_stream, query_stream_params. destruct k; [apply query_stream_ordinary|]. intros I HI.
    apply keeps_bind; [apply ask_keeps|]. intros k. by apply query_stream_ordinary.
  - intros s _. eapply contract_bind; [apply contract_c_strings|]. intros names _.
    eapply contract_bind; [by apply contract_alloc|]. intros row _.
    eapply contract_bind; [by apply contract_alloc|]. intros ptrs _. by apply contract_ret.
Qed.

Lemma contract_batch rows n m : contract (fun _ => True) (batch_rows rows n m : call _).
Proof.
  unfold batch_rows. destruct n as [|n]; [by destruct rows; apply contract_ret|].
  destruct rows as [p|]; [|by apply contract_fail].
  eapply contract_weaken; [apply (contract_gather (fun _ => True))|done]. intros j.
  eapply contract_bind; [apply contract_load_ptr|]. intros x _. apply contract_params.
Qed.

Lemma contract_given stmt : contract (fun _ => True) (stmt_given stmt : call unit).
Proof. destruct stmt; [by apply contract_ret|by apply contract_fail]. Qed.

Lemma contract_prepare client sql :
  contract (fun st => utf8_valid st.(stmt_sql) = true)
    (c ← client_mut client; sql ← cstr sql (str "sql");
     on_client_at io_text c (prepare kerberos gss_new gss_step sha384 sha512 sql) : call Prepared).
Proof.
  eapply contract_bind; [apply contract_client_mut|]. intros c _. eapply contract_bind; [apply contract_cstr|].
  intros t Hu. apply contract_on_client; [by apply prepare_back|intros I HI; by apply prepare_keeps|]. intros s st s' Hp. apply prepare_sql in Hp. by rewrite Hp.
Qed.

(** The arguments, read one by one. *)
Ltac reads_with bind := repeat (first
  [ eapply bind; [first [apply contract_client_mut | apply contract_cstr | apply contract_cstr_list
      | apply contract_cstr_opt | apply contract_params | apply contract_given | apply contract_endpoints
      | apply contract_batch | apply contract_consistency | by apply contract_tls]|]; cbv beta; intros ? ?
  | by apply contract_connected ]).
Ltac reads := reads_with contract_bind.

Lemma honours_poll client log after limit events next_cursor :
  honours (target events ++ target next_cursor)
    (skaidb_stream_poll kerberos gss_new gss_step sha384 sha512 io_text client log after (Z.of_nat limit) events next_cursor).
Proof.
  apply honours_status. destruct next_cursor as [nc|]; [|by apply promises_fail].
  destruct events as [ev|]; [|by apply promises_fail]. reads_with @promises_bind.
  eapply promises_bind.
  { apply contract_on; [apply stream_poll_back, poll_sql_utf8; [lia|done|done]|].
    intros I HI. apply keeps_bind; [by apply execute_keeps|]. intros r. apply keeps_ret. }
  intros polled _.
  eapply promises_bind; [apply contract_row_set|]. intros r _. apply promises_writes.
  eapply writes_bind; [by apply writes_alloc|]. intros a _.
  eapply writes_bind; [eapply writes_more; [|apply writes_store_ptr]; intros c Hc; apply elem_of_app; by left|].
  intros [] _. eapply writes_bind; [apply writes_dup|]. intros text _.
  eapply writes_bind; [eapply writes_more; [|apply writes_store_ptr]; intros c Hc; apply elem_of_app; by right|].
  intros [] _. by apply writes_ret.
Qed.

Lemma honours_batch client stmt rows n_rows n_params affected :
  honours (target affected)
    (skaidb_execute_batch kerberos gss_new gss_step sha384 sha512 io_text client stmt rows n_rows n_params affected).
Proof.
  apply honours_status. reads_with @promises_bind. destruct affected as [out|]; [|by apply promises_fail].
  reads_with @promises_bind.
  eapply promises_bind; [apply contract_on_stmt; [apply execute_batch_back|apply execute_batch_ordinary]|]. intros k _.
  apply promises_writes. eapply writes_bind; [apply writes_store_num|]. intros [] _. by apply writes_ret.
Qed.

Lemma honours_new_balanced eps n user pass tls db options out :
  honours (target out) (skaidb_pool_new_balanced io_text tls_new birth eps n user pass tls db options out).
Proof.
  apply (honours_boxed_at APool ready); [|by split].
  eapply contract_at_bind; [apply contract_endpoints|]. intros ep _. do 2 (eapply contract_at_bind; [apply contract_cstr|]; intros ? _).
  eapply contract_at_bind; [by apply contract_tls|]. intros _ _. eapply contract_at_bind; [apply contract_cstr_opt|]. intros d _.
  eapply contract_at_bind; [apply contract_options|]. intros o _.
  unfold options_of. destruct (policy_of _); [|by apply contract_never, contract_fail].
  destruct (idle_order_of _); [|by apply contract_never, contract_fail]. apply contract_built.
Qed.

Lemma invoke_honours c : honours (outs c) (invoke c).
Proof.
  destruct c; cbn [outs invoke].
  - apply (honours_boxed AClient (fun _ => True)); [|done]. reads.
  - apply (honours_boxed AClient (fun _ => True)); [|done]. reads.
    apply (contract_bind (fun _ => True)).
    { apply contract_or_fail; [|done]. pose proof (resolve_returns x) as Hr. by destruct (resolve x). }
    intros [|ep l] _; [apply contract_driver|by apply contract_connected].
  - apply (honours_boxed AClient (fun _ => True)); [|done]. reads.
  - eapply honours_done. reads. by apply (contract_call _ (CallUse x)).
  - eapply honours_done. reads. by apply (contract_call _ (CallBudget rows)).
  - eapply honours_done. reads. by apply (contract_call _ (CallEndpoints x)).
  - eapply honours_done. reads. by apply (contract_call _ CallReconnect).
  - apply honours_response. reads. by apply contract_execute.
  - apply honours_response. reads. apply contract_on; [by apply execute_with_back|]. intros I HI. by apply execute_with_keeps.
  - apply (honours_boxed APrepared (fun st => utf8_valid st.(stmt_sql) = true)); [apply contract_prepare|done].
  - apply honours_response. reads. apply contract_on_stmt.
    + apply stmt_back_bind; [apply stmt_back_on, back_ask|]. intros k. apply execute_prepared_back.
    + intros I HI. apply keeps_bind; [apply on_session_keeps, ask_keeps|]. intros k. by apply execute_prepared_ordinary.
  - apply honours_response. reads. apply contract_on_stmt; [apply execute_prepared_back|apply execute_prepared_ordinary].
  - apply honours_batch.
  - apply (honours_boxed Results (fun _ => True)); [|done]. reads.
    eapply contract_bind; [apply contract_on; [by apply pipeline_back|apply pipeline_ordinary]|]. intros rs _.
    apply contract_results_of.
  - apply honours_poll.
  - apply (honours_boxed AStream (fun _ => True)); [|done]. apply contract_open_stream.
  - apply (honours_boxed AStream (fun _ => True)); [|done].
    eapply contract_bind; [|intros k _; apply contract_open_stream].
    eapply contract_bind; [apply contract_consistency|]. intros k _. by apply (contract_ret (fun _ => True)).
  - apply (honours_boxed AStream (fun _ => True)); [|done].
    eapply contract_bind; [apply contract_params|]. intros ps _. apply contract_open_stream.
  - apply (honours_boxed AStream (fun _ => True)); [|done].
    eapply contract_bind; [apply contract_params|]. intros ps _.
    eapply contract_bind; [|intros k _; apply contract_open_stream].
    eapply contract_bind; [apply contract_consistency|]. intros k _. by apply (contract_ret (fun _ => True)).
  - apply honours_new_balanced.
  - apply (honours_boxed AClient (fun _ => True)); [|done]. eapply contract_bind; [apply contract_pool_ref|].
    intros a _. by apply contract_acquire.
  - apply (honours_boxed AClient (fun _ => True)); [|done]. eapply contract_bind; [apply contract_pool_ref|].
    intros a _. eapply contract_bind; [apply contract_cstr_opt|]. intros key _. by apply contract_acquire.
  - apply (honours_boxed AMembers (fun _ => True)); [|done]. eapply contract_bind; [apply contract_pool_ref|].
    intros a _. eapply contract_bind; [apply contract_pool_at|]. intros pl _.
    eapply contract_bind; [apply contract_members|]. intros ms _.
    eapply contract_bind; [apply contract_items|]. intros [strings items] _. by apply contract_ret.
Qed.

End returning.

(** ** Properties *)


End calls.

(** ** A call that fails *)

(** A client whose connection has ended and whose member is gone, a statement
    and a variable for the result. *)
Definition wit_client : Client :=
  client_new [str "db1:7000"] (password_login (str "u") (str "pw")) None (str "db1:7000") (wit_stream []).

Definition wit_memory : Lib Pools := {|
  heap := list_to_map [(1%positive, terminated []); (2%positive, terminated []); (3%positive, AClient wit_client);
                       (4%positive, terminated (str "SELECT 1")); (5%positive, Pointers [None])];
  next := 6; LAST_ERROR := 1; KEY_SCRATCH := 2; lib_world := wit_world []; lib_pool := ∅; lib_clock := [];
  lib_dropped := [] |}.

Lemma wit_memory_live : live wit_memory.
Proof.
  split; [split| | |].
  - intros a [b Hb]. apply (elem_of_list_to_map_2 (M := gmap addr)) in Hb. rewrite !elem_of_cons, elem_of_nil in Hb.
    cbn. naive_solver lia.
  - done.
  - exists []. split; [by vm_compute|apply not_elem_of_nil].
  - exists []. by vm_compute.
  - by constructor.
  - intros a b Hb. apply (elem_of_list_to_map_2 (M := gmap addr)) in Hb. rewrite !elem_of_cons, elem_of_nil in Hb.
    naive_solver.
  - intros a b self idle n Hb. apply (elem_of_list_to_map_2 (M := gmap addr)) in Hb. rewrite !elem_of_cons, elem_of_nil in Hb.
    naive_solver.
Qed.

#[local] Instance wit_debug : ResponseDebug := fun _ => [].

Definition wit_invoke : res stop skaidb_status * Lib Pools :=
  invoke false no_gss_new no_gss_step sha256 sha256 (fun _ => str "unreachable") (fun _ _ => Ok tt) (fun _ => Ok []) (fun _ => (0, 1, [], false))
    (Execute (Some (at_addr 3)) (Some (at_addr 4)) (Some (at_addr 5))) wit_memory.

